(* ===== verification/_CoqProject ===== *)
-Q . S2P
Prelude.v
XrSession.v
FrameBoundary.v
GpuSpan.v
Ini.v
InstallData.v
InstallState.v
InstallPlan.v
InstallApply.v
RuntimeGate.v
RuntimeLifecycle.v
WorkQueue.v
DisjointClock.v
OwnerService.v
Rendezvous.v
Rounding.v
LodPolicy.v
CodeDecoder.v
CodeHook.v
OriginEvents.v
SharedChannel.v
DxbcHash.v
Dxbc.v
EngineVelocity.v
