(* ===== verification/Prelude.v ===== *)
(** * EDVR: a verification development

    EDVR is a pair of DLLs and an installer that make Elite Dangerous run on an
    OpenXR runtime and repair its picture.  [openvr_api.dll] (src/src/openxr)
    stands in for the OpenVR library the game links: it runs one OpenXR session,
    paces the game's frames, and hands work to the game's render thread.
    [d3d11.dll] (src/src/d3d11) sits in the game's Direct3D calls.  Both share
    src/src/common; src/src/installer puts them in place and takes them out.

    This library models the parts whose correctness is a matter of state and
    order rather than of Direct3D: each is translated from the source and proved
    against everything it calls, which stays arbitrary.

    ** Files and what they model

    - [Prelude] (this file): record update, machine integers with their
      wrap-around, IEEE arithmetic over the Standard Library's [spec_float], a
      state monad with weakest preconditions, shared automation.
    - [XrSession]: src/src/openxr/session_state.h.  The one OpenXR session: when
      it may begin, wait, begin a frame, end it, stop.  State [SessionState] is
      the class's members; [waitAndBegin], [end_], [stop], ... its methods.
    - [FrameBoundary]: frame_boundary.h and frame_pacer.h, over [XrSession].  The
      two eye submissions that make a frame, the worker that waits ahead
      ([kick], [ready], [take]), and the frames synthesized while it waits.
    - [RuntimeGate]: runtime_gate.h and present_quiescence.h.  Who may use a
      generation of the runtime's resources and when it may be destroyed; the
      render thread's acknowledgement that it has stopped.
    - [RuntimeLifecycle]: runtime_lifecycle.h.  VR_Init and VR_Shutdown of any
      threads, the session token, the interface lookup by version string.
    - [WorkQueue]: present_work_queue.h.  Requests handed to the render thread,
      with deadlines, cancellation and closing.
    - [OwnerService]: owner_service.h.  The one thread that owns the session: its
      bounded queue, its idle work, its generations and their stop.
    - [Rendezvous]: render_thread_dispatcher.h.  The render thread waits for a
      request of the owner thread and meanwhile runs graphics work for it.
    - [GpuSpan]: src/src/common/gpu_span_state.h.  Timestamps around GPU work.
    - [DisjointClock]: src/src/common/gpu_disjoint_clock.h.  The frequency that
      timestamp pairs share, and the tokens that borrow it; the driver's protocol
      is the one of [GpuSpan].
    - [LodPolicy]: class [lodgov::Policy] of src/src/d3d11/lod_governor.h and
      .cpp.  Once a frame: the factor on the game's level of detail.
    - [CodeDecoder], [CodeHook]: src/src/common/code_hook.cpp.  The decoder of the
      instructions a hook moves ([X86] is the reference format), and installing and
      removing a hook over memory as bytes.
    - [OriginEvents]: src/src/openxr/reference_changes.h, reset_events.h,
      loading_state.h, launch_centre_policy.h with seated_origin.h.  Changes of the
      origin and the one centring at launch.
    - [SharedChannel]: src/src/common/frame_flag.h and .cpp.  The words the two DLLs
      share, each call a program of single memory accesses, and the roll-call by
      which halves of different builds refuse each other.  [Rounding]: bounds on
      binary32 operations, for it and for [LodPolicy].
    - [DxbcHash], [Dxbc], [EngineVelocity]: src/third_party/dxbc_hash/DxilHash.cpp
      ([ComputeHashRetail]), dxbc_container.h and dxbc_engine_velocity.h of
      src/src/d3d11.  Shader containers with their checksum and signatures, and the
      patches that make the game's shaders say which record drew a pixel.  A thrown
      error is the left of a sum ([Res]), a pass over a program is [scan].
    - [Ini]: src/src/common/iniedit.cpp and [Config::parse] of config.cpp.  The
      settings file: line grammar, rewriting a value in place, three-way merge.
    - [InstallData], [InstallState], [InstallPlan], [InstallApply]:
      src/src/installer (plan.h, detect.h, probe.h, state.cpp, plan.cpp,
      apply.cpp).  The survey of the game folder, the record of the last run, the
      plan of an install or an uninstall, carrying it out and undoing it.

    ** How the parts meet

    [FrameBoundary] calls [XrSession] (its world contains the session's, lifted
    by [liftM]), and the calls of both end in one log.  [DisjointClock] drives
    the driver protocol of [GpuSpan].  [InstallPlan] merges settings with
    [Ini.mergeIni] and writes the record of [InstallState]; [InstallApply] runs
    the plan's steps on a disk ([Win32] is the class of the calls, [Win32Laws]
    what the code relies on, [FaultyDisk] an instance that fails any call).
    [Rendezvous] submits to [OwnerService] and relies on what [owner_requests_settled]
    states: an accepted request runs at most once and its completion follows.
    [EngineVelocity] takes a container apart with [Dxbc.parseContainer], rebuilds its
    signatures and its program, and puts it together with [Dxbc.makeContainer].
    [RuntimeGate], [RuntimeLifecycle] and [WorkQueue] are used side by side by the
    runtime's host, which is not modelled.

    ** What is proved

    - Protocols: whatever the runtime, the driver or the backend answers and
      however threads interleave, the calls made are legal
      ([session_calls_conform], [waits_conform], [span_calls_conform],
      [clock_calls_conform], [backend_calls_conform]); the halves of the channel find
      a partner of another build out ([roll_call_exact]).
    - Ownership and uniqueness: [gate_exclusive], [quiescence_one_shot],
      [invoke_exactly_once], [owner_requests_settled], [rendezvous_safe],
      [reported_once], [tokens_single_use].  A hook is installed whole or not at all
      and taken away without a trace: [install_all_or_nothing], [uninstall_restores].
    - Function, branch by branch: [end_functional], [loss_pending_sticky],
      [submit_functional], [validateApplication_spec], [ready_is_final],
      [set_value_laws], [merge_untouched_ships_next], [install_nothing_to_do],
      [update_means], [owner_stop_outcome], [install_redirects],
      [hold_exact], [vsProgram_patched], [psProgram_patched].
    - Bounds: [synthesized_time_bounds], [predicted_time_monotone], [k_bounded],
      [decoder_reads_in_bounds].
    - Round trips: [ini_text_roundtrip], [rewriteValue_reads_back],
      [state_record_roundtrip], [chained_mod_found_again],
      [published_reads_back], [container_roundtrip], [signature_reads_back],
      [patchVs_reads_back], [patchPs_reads_back].
    - Refinement and equivalence: [config_reads_effective],
      [apply_ok_refines_plan], [uninstall_puts_back], [ring_exact],
      [getInterface_whole_string], [decoder_length], [reference_changes_refine],
      [reset_events_refine], [live_refines], [hash_of_blocks].
    - Failure: [apply_rolled_back_restores], [apply_stale_untouched],
      [install_refused_iff].
    - Progress: [waitAndBegin_token_accepted], [close_ends],
      [rendezvous_progress], [writeWholeFile_all_or_nothing],
      [launch_decides_once].

    ** Choices

    - Code outside src/ is a parameter: the OpenXR runtime, the Direct3D driver,
      Windows, the caller's backend are functions of the log of calls made so
      far, so they may answer differently each time.  Hypotheses on them are
      named ([Win32Laws]) and have an instance.
    - Threads: a method that holds its mutex throughout is one step; one that
      drops it is cut into its locked sections.  A step relation interleaves the
      sections of any number of threads; what only the environment decides (a
      deadline passing, an allocation failing) is always possible.
    - Fuel: [ensureDirTree] takes the length of the path, [writeChunks] the
      length of the data, [close] of the work queue one more than the requests
      queued; each is shown to suffice by the theorem that uses it.  The search for
      a trampoline has one turn per distance ([allocateNear_fuel]); the decoding of
      a prologue has the code's own limit of eight instructions.  A pass over a shader's
      program has one turn per word, and every instruction has a word ([scan_run],
      [scan_decodes]); padding to four bytes has three turns ([pad_spec]).  The loops
      over 8 records, 32 leases and 30 samples are folds over their indices.
    - Integers have their width: unsigned wrap-around is [u32] and [u64]; an
      [int] that the code keeps small is a [Z] whose bound is proved.
    - The owner that [DisjointClock] and [GpuSpan] ask for is an argument of each
      operation, constant within it.

    ** Not modelled

    The render passes, the drawing of panels and menus, the other shader patches,
    hooks of tables, probes and the code that rewrites the game's memory: their effect is on
    Direct3D objects or on the game's own code.  Of src/src/openxr the host and
    the clients that orchestrate the modelled parts, the pose geometry, and the
    order of shutdown.  Of the installer its windows, the survey's file access,
    the payload and the log bundle.  The header of OpenVR 0.9.20 is third-party. *)
From stdpp Require Export base list option gmap strings relations.
From Stdlib Require Export ZArith Lia.
From Stdlib Require Import Floats.SpecFloat.

Declare Scope edvr_scope.
Delimit Scope edvr_scope with edvr.
Open Scope edvr_scope.

(** ** Record update

    [s <| f := v |>] is the C++ assignment [s.f = v].  A record opts in with
    one [Settable] instance (its eta expansion); the setter of a field is then
    computed once by [solve_setter]. *)
Class Settable (R : Type) := eta_of : R -> R.
Class Setter {R T : Type} (field : R -> T) := over : (T -> T) -> R -> R.

Ltac solve_setter :=
  match goal with
  | |- @Setter ?R ?T ?field =>
      let eta := constr:(_ : Settable R) in
      let g := eval hnf in eta in
      let chg := constr:(fun (upd : T -> T) (r : R) =>
        ltac:(let body := eval cbv beta in (g r) in
              match eval pattern (field r) in body with
              | ?ctx _ => let res := eval cbv beta in (ctx (upd (field r))) in exact res
              end)) in
      exact chg
  end.

#[export] Hint Extern 0 (Setter _) => solve_setter : typeclass_instances.

Notation "s <| f := v |>" := (over (field := f) (fun _ => v) s)
  (at level 1, f at level 9, v at level 200, left associativity) : edvr_scope.
Notation "s <| f ::= g |>" := (over (field := f) g s)
  (at level 1, f at level 9, g at level 200, left associativity) : edvr_scope.

(** ** Machine integers: unsigned values of width 32 and 64 are [Z] in range,
    with the wrap-around of C++ unsigned arithmetic written out. *)
Definition u32 (x : Z) : Z := x mod 2 ^ 32.
Definition u64 (x : Z) : Z := x mod 2 ^ 64.
Definition u32_max : Z := 2 ^ 32 - 1.
Definition u64_max : Z := 2 ^ 64 - 1.
Definition is_u32 (x : Z) : Prop := (0 <= x <= u32_max)%Z.
Definition is_u64 (x : Z) : Prop := (0 <= x <= u64_max)%Z.

(** Signed values: what an [int32_t] or [intptr_t] read from its bits is. *)
Definition signed (w x : Z) : Z := ((x + 2 ^ (w - 1)) mod 2 ^ w - 2 ^ (w - 1))%Z.
Definition s32 : Z -> Z := signed 32.
Definition s64 : Z -> Z := signed 64.

(** Little-endian bytes. *)
Fixpoint leBytes (n : nat) (z : Z) : list Z := match n with O => [] | S n => (z mod 256)%Z :: leBytes n (z / 256) end.
Fixpoint leValue (bs : list Z) : Z := match bs with [] => 0%Z | b :: bs => (b mod 256 + 256 * leValue bs)%Z end.

(** ** IEEE binary64, executable over the Standard Library's [spec_float]. *)
Definition double : Type := spec_float.
Definition d_of_Z (z : Z) : double := binary_normalize 53 1024 z 0 false.
Definition dadd : double -> double -> double := SFadd 53 1024.
Definition dsub : double -> double -> double := SFsub 53 1024.
Definition dmul : double -> double -> double := SFmul 53 1024.
Definition ddiv : double -> double -> double := SFdiv 53 1024.
Definition dsqrt : double -> double := SFsqrt 53 1024.
Definition dltb : double -> double -> bool := SFltb.
Definition dleb : double -> double -> bool := SFleb.
Definition dabs : double -> double := SFabs.
Definition d_zero : double := S754_zero false.
(** A decimal literal [n/m] is the correctly rounded quotient. *)
Definition d_lit (n m : Z) : double := ddiv (d_of_Z n) (d_of_Z m).
(** Binary32. *)
Definition float : Type := spec_float.
Definition fsub : float -> float -> float := SFsub 24 128.
Definition fmul : float -> float -> float := SFmul 24 128.
Definition f_of_Z (z : Z) : float := binary_normalize 24 128 z 0 false.
(** The conversion to double is exact. *)
Definition d_of_f (f : float) : double :=
  match f with
  | S754_finite s m e => binary_normalize 53 1024 (if s then Zneg m else Zpos m) e s
  | x => x
  end.
Definition f_of_d (d : double) : float :=
  match d with
  | S754_finite s m e => binary_normalize 24 128 (if s then Zneg m else Zpos m) e s
  | x => x
  end.
Definition f_zero : float := S754_zero false.
Definition f_finite (f : float) : bool := match f with S754_zero _ | S754_finite _ _ _ => true | _ => false end.
(** A float literal [n/m]. *)
Definition f_lit (n m : Z) : float := SFdiv 24 128 (f_of_Z n) (f_of_Z m).
(** [std::llround]: to nearest, halves away from zero.  C leaves the value for
    a NaN or an infinity unspecified; no caller passes one. *)
Definition llround (d : double) : Z :=
  match d with
  | S754_finite s m e =>
      let mag := (if 0 <=? e then Zpos m * 2 ^ e
                  else (2 * Zpos m + 2 ^ (- e)) / (2 * 2 ^ (- e)))%Z in
      (if s then - mag else mag)%Z
  | _ => 0%Z
  end.
(** The C conversion of a float to an integer that holds it: towards zero. *)
Definition ftrunc (f : float) : Z :=
  match f with
  | S754_finite s m e =>
      let mag := (if 0 <=? e then Zpos m * 2 ^ e else Zpos m / 2 ^ (- e))%Z in
      (if s then - mag else mag)%Z
  | _ => 0%Z
  end.
Definition fadd : float -> float -> float := SFadd 24 128.

(** ** A state monad for code that threads a world through calls. *)
Definition M (W A : Type) : Type := W -> A * W.
#[export] Instance M_ret W : MRet (M W) := fun A a w => (a, w).
#[export] Instance M_bind W : MBind (M W) := fun A B k m w => let '(a, w') := m w in k a w'.
Definition getM {W} : M W W := fun w => (w, w).
Definition modM {W} (f : W -> W) : M W unit := fun w => (tt, f w).
(** A computation on a component of the world, run on the whole world. *)
Definition liftM {W V A} (get : W -> V) (put : V -> W -> W) (m : M V A) : M W A :=
  fun w => let '(a, v) := m (get w) in (a, put v w).

(** ** Proof automation shared by the components *)
Ltac invert H := inversion H; subst; clear H.

(** Split every conditional and match of the goal, keeping the equations. *)
Ltac split_ifs := repeat (case_match; simplify_eq/=; try done).

Ltac bool_solve :=
  repeat match goal with
  | H : andb _ _ = true |- _ => apply andb_true_iff in H; destruct H
  | H : orb _ _ = false |- _ => apply orb_false_iff in H; destruct H
  | H : orb _ _ = true |- _ => apply orb_true_iff in H; destruct H
  | H : andb _ _ = false |- _ => apply andb_false_iff in H; destruct H
  | H : negb _ = true |- _ => apply negb_true_iff in H
  | H : negb _ = false |- _ => apply negb_false_iff in H
  | H : Z.eqb _ _ = true |- _ => apply Z.eqb_eq in H
  | H : Z.eqb _ _ = false |- _ => apply Z.eqb_neq in H
  | H : Z.ltb _ _ = true |- _ => apply Z.ltb_lt in H
  | H : Z.ltb _ _ = false |- _ => apply Z.ltb_ge in H
  | H : Z.leb _ _ = true |- _ => apply Z.leb_le in H
  | H : Z.leb _ _ = false |- _ => apply Z.leb_gt in H
  | H : bool_decide _ = true |- _ => apply bool_decide_eq_true in H
  | H : bool_decide _ = false |- _ => apply bool_decide_eq_false in H
  end.

Create HintDb edvr.

(** ** Reachability *)
Lemma rtc_invariant {A} (R : A -> A -> Prop) (P : A -> Prop) :
  (forall x y, R x y -> P x -> P y) ->
  forall x y, rtc R x y -> P x -> P y.
Proof. intros Hstep x y Hr. induction Hr; eauto. Qed.

(** ** Filters that keep everything, or nothing *)
Lemma filter_kept {A} (P : A -> Prop) `{!forall x, Decision (P x)} (l : list A) : (forall x, x ∈ l -> P x) -> base.filter P l = l.
Proof.
  induction l as [|a l IH]; intros Hall; [done|]. rewrite filter_cons_True by (apply Hall; by left). f_equal. apply IH. intros x Hx. apply Hall. by right.
Qed.
Lemma filter_dropped {A} (P : A -> Prop) `{!forall x, Decision (P x)} (l : list A) : (forall x, x ∈ l -> ~ P x) -> base.filter P l = [].
Proof.
  induction l as [|a l IH]; intros Hall; [done|]. rewrite filter_cons_False by (apply Hall; by left). apply IH. intros x Hx. apply Hall. by right.
Qed.

Lemma u32_range x : is_u32 (u32 x).
Proof. unfold is_u32, u32, u32_max. pose proof (Z.mod_pos_bound x (2^32)). lia. Qed.

Lemma u64_range x : is_u64 (u64 x).
Proof. unfold is_u64, u64, u64_max. pose proof (Z.mod_pos_bound x (2^64)). lia. Qed.

Lemma u32_small x : is_u32 x -> u32 x = x.
Proof. unfold is_u32, u32, u32_max. intros. apply Z.mod_small. lia. Qed.

Lemma u64_small x : is_u64 x -> u64 x = x.
Proof. unfold is_u64, u64, u64_max. intros. apply Z.mod_small. lia. Qed.

Lemma length_leBytes n z : length (leBytes n z) = n.
Proof. revert z. induction n as [|n IH]; intros z; cbn; [done|by rewrite IH]. Qed.
Lemma leValue_leBytes n z : leValue (leBytes n z) = (z mod 256 ^ Z.of_nat n)%Z.
Proof.
  revert z. induction n as [|n IH]; intros z; cbn [leValue leBytes]; [by rewrite Z.mod_1_r|].
  rewrite IH, Z.mod_mod by lia. rewrite Nat2Z.inj_succ, Z.pow_succ_r by lia. rewrite Z.rem_mul_r by lia. done.
Qed.

Lemma s64_mod x : (s64 x mod 2 ^ 64 = x mod 2 ^ 64)%Z.
Proof. unfold s64, signed. rewrite Zminus_mod_idemp_l. f_equal. lia. Qed.

Lemma lor_low k x b : (0 <= k -> x mod 2 ^ k = 0 -> 0 <= b < 2 ^ k -> Z.lor x b = x + b)%Z.
Proof.
  intros Hk Hx Hb. assert (Z.land x b = 0)%Z as Hl; [|by rewrite Z.add_nocarry_lxor, Z.lxor_lor].
  apply Z.bits_inj'. intros n Hn. rewrite Z.land_spec, Z.bits_0. destruct (Z.lt_ge_cases n k).
  - rewrite <-(Z.mod_pow2_bits_low x k n), Hx, Z.bits_0 by lia. done.
  - rewrite <-(Z.mod_small b (2 ^ k)%Z), Z.mod_pow2_bits_high by lia. apply andb_false_r.
Qed.

#[export] Hint Resolve u32_range u64_range : edvr.

(** ** Weakest preconditions for the state monad: [wp m Q w] says the result
    and final world of [m] from [w] satisfy [Q].  [wp_step] executes one call. *)
Definition wp {W A} (m : M W A) (Q : A -> W -> Prop) (w : W) : Prop := let '(a, w') := m w in Q a w'.

Lemma wp_bind {W A B} (m : M W A) (k : A -> M W B) Q w :
  wp m (fun a w' => wp (k a) Q w') w -> wp (m ≫= k) Q w.
Proof. cbv [wp mbind M_bind]. intros H. destruct (m w) as [a w1]. exact H. Qed.

Lemma wp_ret {W A} (a : A) (Q : A -> W -> Prop) w : Q a w -> wp (mret a) Q w.
Proof. done. Qed.

Lemma wp_mono {W A} (m : M W A) (P Q : A -> W -> Prop) w :
  wp m P w -> (forall a w', P a w' -> Q a w') -> wp m Q w.
Proof. cbv [wp]. intros H HPQ. destruct (m w) as [a w1]. exact (HPQ _ _ H). Qed.

Lemma wp_use {W A} (m : M W A) (Q : A -> W -> Prop) w a w' : wp m Q w -> m w = (a, w') -> Q a w'.
Proof. cbv [wp]. intros H E. by rewrite E in H. Qed.

Lemma wp_run {W A} (m : M W A) (Q : A -> W -> Prop) w : wp m Q w -> Q (m w).1 (m w).2.
Proof. cbv [wp]. by destruct (m w). Qed.

Lemma bind_run {W A B} (m : M W A) (k : A -> M W B) w : (m ≫= k) w = k (m w).1 (m w).2.
Proof. cbv [mbind M_bind]. by destruct (m w). Qed.

Ltac wp_base :=
  match goal with
  | |- wp (_ ≫= _) _ _ => apply wp_bind
  | |- wp (mret _) _ _ => apply wp_ret
  | |- wp (let '(_, _) := ?x in _) _ _ => destruct x eqn:?
  | |- wp (if ?b then _ else _) _ _ => destruct b eqn:?
  | |- wp (match ?x with _ => _ end) _ _ => destruct x eqn:?
  end.
