(* ===== verification/XrSession.v ===== *)
(** The frame policy of one borrowed OpenXR session
    (src/src/openxr/session_state.h, class [SessionState]).

    The OpenXR runtime is not code of the repository: its six entry points are
    a [Runtime], arbitrary functions of everything that was called before (the
    log), so the theorems hold for every runtime, also one that answers
    differently each time.  A call through a null [PFN_xr*] pointer would be
    undefined behaviour; the model records it as [EvNull]. *)
From S2P Require Import Prelude.
Local Open Scope Z_scope.

(** ** Constants of openxr.h *)
Abbreviation XrResult := Z (only parsing).
Definition XR_SUCCESS : XrResult := 0.
Definition XR_SESSION_LOSS_PENDING : XrResult := 3.
Definition XR_EVENT_UNAVAILABLE : XrResult := 4.
Definition XR_FRAME_DISCARDED : XrResult := 9.
Definition XR_ERROR_VALIDATION_FAILURE : XrResult := -1.
Definition XR_ERROR_RUNTIME_FAILURE : XrResult := -2.
Definition XR_ERROR_FUNCTION_UNSUPPORTED : XrResult := -7.
Definition XR_ERROR_HANDLE_INVALID : XrResult := -12.
Definition XR_ERROR_INSTANCE_LOST : XrResult := -13.
Definition XR_ERROR_SESSION_LOST : XrResult := -17.
Definition XR_ERROR_CALL_ORDER_INVALID : XrResult := -37.
Definition XR_ERROR_ENVIRONMENT_BLEND_MODE_UNSUPPORTED : XrResult := -42.
Definition XR_TRUE : Z := 1.
Definition XR_FAILED (r : XrResult) : bool := r <? 0.

Inductive XrSessionState :=
| ST_UNKNOWN | ST_IDLE | ST_READY | ST_SYNCHRONIZED | ST_VISIBLE | ST_FOCUSED
| ST_STOPPING | ST_LOSS_PENDING | ST_EXITING | ST_OTHER (n : Z).

(** ** Data *)
Record Dispatch := mkDispatch {
  pollEvent : bool; beginSession : bool; endSession : bool;
  waitFrame : bool; beginFrame : bool; endFrame : bool }.
Definition no_dispatch : Dispatch := mkDispatch false false false false false false.

Inductive Lifecycle :=
| Uninitialized | Idle | Ready | Synchronized | Visible | Focused | Stopping | Ended
| Exiting | LossPending | SessionLost | InstanceLossPending | InstanceLost | LFailed.

Inductive FrameStatus := FsNone | FsOpen | FsNoRender | FsDiscarded | FsSessionLossPending | FsEnded | FsFailed.

Record RenderReady := mkReady { poseValid : bool; renderReady : bool }.

Record Frame := mkFrame {
  predictedDisplayTime : Z; predictedDisplayPeriod : Z;
  shouldRender : bool; discarded : bool; status : FrameStatus;
  sequence : Z; generation : Z; owner : Z }.
Definition frame0 : Frame := mkFrame 0 0 false false FsNone 0 0 0.

(** [XrFrameState], [XrFrameEndInfo] (pointers: [None] is null) and the event
    buffer as the policy reads it. *)
Record FrameState := mkFS { fs_time : Z; fs_period : Z; fs_shouldRender : Z }.
Definition fs0 : FrameState := mkFS 0 0 0.
Record EndInfo := mkEnd {
  ei_next : option Z; ei_displayTime : Z; ei_blend : Z; ei_layerCount : Z; ei_layers : option Z }.
Definition end0 : EndInfo := mkEnd None 0 0 0 None.
Inductive XrEvent :=
| EventInstanceLossPending
| EventSessionStateChanged (session : Z) (state : XrSessionState)
| EventOther (type : Z).

Record SessionState := mkSession {
  dispatch_ : Dispatch; eventSink_ : bool; instance_ : Z; session_ : Z; blend_ : Z;
  owner_ : Z; lifecycle_ : Lifecycle; state_ : XrSessionState;
  running_ : bool; frameOpen_ : bool; frameShouldRender_ : bool;
  terminal_ : bool; hardFailure_ : bool; deferred_ : bool;
  frameTime_ : Z; sequence_ : Z; generation_ : Z; lastResult_ : XrResult }.

#[export] Instance eta_Frame : Settable Frame := fun f =>
  mkFrame (predictedDisplayTime f) (predictedDisplayPeriod f) (shouldRender f) (discarded f)
    (status f) (sequence f) (generation f) (owner f).
#[export] Instance eta_EndInfo : Settable EndInfo := fun e =>
  mkEnd (ei_next e) (ei_displayTime e) (ei_blend e) (ei_layerCount e) (ei_layers e).
#[export] Instance eta_Session : Settable SessionState := fun s =>
  mkSession (dispatch_ s) (eventSink_ s) (instance_ s) (session_ s) (blend_ s) (owner_ s)
    (lifecycle_ s) (state_ s) (running_ s) (frameOpen_ s) (frameShouldRender_ s) (terminal_ s)
    (hardFailure_ s) (deferred_ s) (frameTime_ s) (sequence_ s) (generation_ s) (lastResult_ s).

#[export] Instance XrSessionState_eq_dec : EqDecision XrSessionState.
Proof. solve_decision. Defined.
#[export] Instance Lifecycle_eq_dec : EqDecision Lifecycle.
Proof. solve_decision. Defined.

(** The default member initialisers, with the process-wide owner number. *)
Definition session0 (owner : Z) : SessionState :=
  mkSession no_dispatch false 0 0 1 owner Uninitialized ST_UNKNOWN
    false false false false false false 0 0 0 XR_SUCCESS.

(** ** The runtime and the log of calls (latest first) *)
Inductive Ev :=
| EvPoll (r : XrResult) | EvBeginSession (r : XrResult) | EvEndSession (r : XrResult)
| EvWait (r : XrResult) | EvBegin (r : XrResult) | EvEnd (info : EndInfo) (r : XrResult)
| EvSink (e : XrEvent) | EvRebind | EvNull
(* the frame boundary's own events share the log *)
| EvKick | EvUnkick | EvPacerWait (r : XrResult) | EvNow (t : Z)
| EvCapture (eye : Z) (pixels : bool) (err : Z)
| EvCompose (background : bool) (r : XrResult) | EvSceneFinished (pixels : bool) (r : XrResult).

Record Runtime := mkRuntime {
  rt_poll : list Ev -> XrResult * XrEvent;
  rt_beginSession : list Ev -> XrResult;
  rt_endSession : list Ev -> XrResult;
  rt_wait : list Ev -> XrResult * FrameState;
  rt_beginFrame : list Ev -> XrResult;
  rt_endFrame : list Ev -> EndInfo -> XrResult }.

Record SW := mkSW { sess : SessionState; log : list Ev }.
#[export] Instance eta_SW : Settable SW := fun w => mkSW (sess w) (log w).

Definition getS : M SW SessionState := fun w => (sess w, w).
Definition upd (f : SessionState -> SessionState) : M SW unit := fun w => (tt, w <| sess := f (sess w) |>).
Definition emit (e : Ev) : M SW unit := fun w => (tt, w <| log := e :: log w |>).
(** Calling [dispatch_.fn]: the answer is the runtime's, the call is logged. *)
Definition invoke {A} (fn : Dispatch -> bool) (ask : list Ev -> A) (ev : A -> Ev) (junk : A) : M SW A :=
  fun w => if fn (dispatch_ (sess w))
           then let a := ask (log w) in (a, w <| log := ev a :: log w |>)
           else (junk, w <| log := EvNull :: log w |>).

Section Policy.
Context (rt : Runtime).

Definition call_poll : M SW (XrResult * XrEvent) :=
  invoke pollEvent (rt_poll rt) (fun a => EvPoll a.1) (XR_ERROR_RUNTIME_FAILURE, EventOther 0).
Definition call_beginSession : M SW XrResult :=
  invoke beginSession (rt_beginSession rt) EvBeginSession XR_ERROR_RUNTIME_FAILURE.
Definition call_endSession : M SW XrResult :=
  invoke endSession (rt_endSession rt) EvEndSession XR_ERROR_RUNTIME_FAILURE.
Definition call_wait : M SW (XrResult * FrameState) :=
  invoke waitFrame (rt_wait rt) (fun a => EvWait a.1) (XR_ERROR_RUNTIME_FAILURE, fs0).
Definition call_beginFrame : M SW XrResult :=
  invoke beginFrame (rt_beginFrame rt) EvBegin XR_ERROR_RUNTIME_FAILURE.
Definition call_endFrame (i : EndInfo) : M SW XrResult :=
  invoke endFrame (fun l => rt_endFrame rt l i) (EvEnd i) XR_ERROR_RUNTIME_FAILURE.

(** ** Private helpers *)
Definition unhandled (e : XrEvent) : M SW unit :=
  s ← getS; if eventSink_ s then emit (EvSink e) else mret tt.

Definition clearFrame_s (s : SessionState) : SessionState :=
  s <| frameOpen_ := false |> <| frameShouldRender_ := false |> <| deferred_ := false |> <| frameTime_ := 0 |>.
Definition clearFrame : M SW unit := upd clearFrame_s.

Definition clear_s (s : SessionState) : SessionState :=
  (clearFrame_s (s <| generation_ := u64 (generation_ s + 1) |> <| sequence_ := 0 |>))
    <| running_ := false |> <| terminal_ := false |> <| hardFailure_ := false |>
    <| lifecycle_ := Uninitialized |> <| state_ := ST_UNKNOWN |> <| lastResult_ := XR_SUCCESS |>
    <| eventSink_ := false |>.

Definition note_s (r : XrResult) (s : SessionState) : XrResult * SessionState :=
  let s1 := if r =? XR_SESSION_LOSS_PENDING then
              let s' := s <| terminal_ := true |> in
              if decide (lifecycle_ s' = InstanceLossPending) then s' else s' <| lifecycle_ := LossPending |>
            else s in
  if terminal_ s1 && bool_decide (lifecycle_ s1 = LossPending)
  then (XR_SESSION_LOSS_PENDING, s1 <| lastResult_ := XR_SESSION_LOSS_PENDING |>)
  else (r, s1 <| lastResult_ := r |>).
Definition note (r : XrResult) : M SW XrResult :=
  fun w => let '(x, s) := note_s r (sess w) in (x, w <| sess := s |>).

Definition fail_s (r : XrResult) (s : SessionState) : SessionState :=
  s <| hardFailure_ := true |> <| terminal_ := true |> <| lastResult_ := r |>
    <| lifecycle_ := if r =? XR_ERROR_INSTANCE_LOST then InstanceLost
                     else if r =? XR_ERROR_SESSION_LOST then SessionLost else LFailed |>.
Definition fail (r : XrResult) : M SW XrResult := upd (fail_s r);; mret r.

Definition finish (supplied : EndInfo) (layers : bool) : M SW XrResult :=
  s ← getS;
  let info := supplied <| ei_displayTime := frameTime_ s |> <| ei_blend := blend_ s |> in
  let info := if layers then info
              else info <| ei_next := None |> <| ei_layerCount := 0 |> <| ei_layers := None |> in
  r ← call_endFrame info;
  clearFrame;;
  if XR_FAILED r then fail r
  else if negb (r =? XR_SUCCESS) && negb (r =? XR_SESSION_LOSS_PENDING) then fail XR_ERROR_RUNTIME_FAILURE
  else note r.

(** ** Binding *)
Definition reset (d : Dispatch) (instance session blend : Z) : M SW XrResult :=
  s ← getS;
  if running_ s || frameOpen_ s then mret XR_ERROR_CALL_ORDER_INVALID
  else if (instance =? 0) || (session =? 0) then mret XR_ERROR_HANDLE_INVALID
  else if negb (pollEvent d && beginSession d && endSession d && waitFrame d && beginFrame d && endFrame d)
  then mret XR_ERROR_FUNCTION_UNSUPPORTED
  else if negb (blend =? 1) && negb (blend =? 2) && negb (blend =? 3)
  then mret XR_ERROR_ENVIRONMENT_BLEND_MODE_UNSUPPORTED
  else upd (fun s => (clear_s s) <| dispatch_ := d |> <| instance_ := instance |>
                       <| session_ := session |> <| blend_ := blend |>);;
       emit EvRebind;;
       mret XR_SUCCESS.

Definition construct (d : Dispatch) (instance session blend : Z) : M SW unit :=
  r ← reset d instance session blend;
  if XR_FAILED r then _ ← fail r; mret tt else mret tt.

Definition abandonAfterOwnerDestruction : M SW unit :=
  upd (fun s => (clear_s s) <| dispatch_ := no_dispatch |> <| instance_ := 0 |> <| session_ := 0 |>);;
  emit EvRebind.

Definition setUnhandledEventSink (sink : bool) : M SW unit := upd (fun s => s <| eventSink_ := sink |>).

(** ** Events *)
Definition kMaxEvents : nat := 32.

(** One turn of the event loop: [Some r] is a [return r], [None] goes on. *)
Definition handleEvent (e : XrEvent) : M SW (option XrResult) :=
  s ← getS;
  match e with
  | EventInstanceLossPending =>
      upd (fun s => s <| terminal_ := true |> <| lifecycle_ := InstanceLossPending |>);; mret (Some (lastResult_ s))
  | EventOther _ => unhandled e;; mret None
  | EventSessionStateChanged h st =>
      if negb (h =? session_ s) then unhandled e;; mret None
      else
        upd (fun s => s <| state_ := st |>);;
        match st with
        | ST_IDLE => upd (fun s => s <| lifecycle_ := Idle |>);; mret None
        | ST_READY => upd (fun s => s <| lifecycle_ := Ready |>);; mret (Some (lastResult_ s))
        | ST_SYNCHRONIZED => upd (fun s => s <| lifecycle_ := Synchronized |>);; mret None
        | ST_VISIBLE => upd (fun s => s <| lifecycle_ := Visible |>);; mret None
        | ST_FOCUSED => upd (fun s => s <| lifecycle_ := Focused |>);; mret None
        | ST_STOPPING => upd (fun s => s <| lifecycle_ := Stopping |>);; mret (Some (lastResult_ s))
        | ST_EXITING =>
            upd (fun s => s <| terminal_ := true |> <| lifecycle_ := Exiting |>);; mret (Some (lastResult_ s))
        | ST_LOSS_PENDING => r ← note XR_SESSION_LOSS_PENDING; mret (Some r)
        | _ => r ← fail XR_ERROR_RUNTIME_FAILURE; mret (Some r)
        end
  end.

Fixpoint pollLoop (budget : nat) : M SW XrResult :=
  match budget with
  | O => s ← getS; mret (lastResult_ s)
  | S n =>
      a ← call_poll;
      let '(r, e) := (a : XrResult * XrEvent) in
      if r =? XR_EVENT_UNAVAILABLE then s ← getS; mret (lastResult_ s)
      else if negb (r =? XR_SUCCESS) then fail (if XR_FAILED r then r else XR_ERROR_RUNTIME_FAILURE)
      else o ← handleEvent e;
           match o with Some x => mret x | None => pollLoop n end
  end.

Definition pollEvents (budget : nat) : M SW XrResult :=
  s ← getS;
  if terminal_ s then mret (lastResult_ s)
  else if (instance_ s =? 0) || (session_ s =? 0) then fail XR_ERROR_HANDLE_INVALID
  else if negb (pollEvent (dispatch_ s)) then fail XR_ERROR_FUNCTION_UNSUPPORTED
  else if bool_decide (state_ s = ST_STOPPING) && running_ s then mret (lastResult_ s)
  else pollLoop (Nat.min budget kMaxEvents).

(** ** Session start and frames *)
Definition startIfReady : M SW XrResult :=
  s ← getS;
  if terminal_ s then mret (if hardFailure_ s then lastResult_ s else XR_ERROR_CALL_ORDER_INVALID)
  else if negb (bool_decide (state_ s = ST_READY)) || running_ s then mret XR_ERROR_CALL_ORDER_INVALID
  else
    r ← call_beginSession;
    if XR_FAILED r then fail r
    else if negb (r =? XR_SUCCESS) && negb (r =? XR_SESSION_LOSS_PENDING) then fail XR_ERROR_RUNTIME_FAILURE
    else upd (fun s => clearFrame_s (s <| running_ := true |> <| generation_ := u64 (generation_ s + 1) |>
                                       <| sequence_ := 0 |>));;
         note r.

(** The common guard of the three ways to open a frame. *)
Definition cannotOpen (s : SessionState) : bool :=
  terminal_ s || frameOpen_ s || negb (running_ s) ||
  bool_decide (state_ s = ST_STOPPING) || bool_decide (state_ s = ST_IDLE).

(** [beginFromWait]: [out] is the reference parameter, returned as written. *)
Definition beginFromWait (waited : XrResult) (fs : FrameState) (out : Frame) : M SW (XrResult * Frame) :=
  if XR_FAILED waited then r ← fail waited; mret (r, out <| status := FsFailed |>)
  else if negb (waited =? XR_SUCCESS) && negb (waited =? XR_SESSION_LOSS_PENDING)
  then r ← fail XR_ERROR_RUNTIME_FAILURE; mret (r, out)
  else
    _ ← note waited;
    r ← call_beginFrame;
    if XR_FAILED r then x ← fail r; mret (x, out <| status := FsFailed |>)
    else if negb (r =? XR_SUCCESS) && negb (r =? XR_FRAME_DISCARDED) && negb (r =? XR_SESSION_LOSS_PENDING)
    then x ← fail XR_ERROR_RUNTIME_FAILURE; mret (x, out)
    else
      _ ← note r;
      upd (fun s => s <| frameOpen_ := true |> <| frameTime_ := fs_time fs |>
                      <| frameShouldRender_ := fs_shouldRender fs =? XR_TRUE |>
                      <| sequence_ := u64 (sequence_ s + 1) |>);;
      s ← getS;
      let render := frameShouldRender_ s && negb (terminal_ s) in
      let disc := r =? XR_FRAME_DISCARDED in
      mret (lastResult_ s,
            mkFrame (fs_time fs) (fs_period fs) render disc
              (if terminal_ s then FsSessionLossPending else if disc then FsDiscarded
               else if render then FsOpen else FsNoRender)
              (sequence_ s) (generation_ s) (owner_ s)).

Definition waitAndBegin (out : Frame) : M SW (XrResult * Frame) :=
  s ← getS;
  if hardFailure_ s then mret (lastResult_ s, out)
  else if cannotOpen s then mret (XR_ERROR_CALL_ORDER_INVALID, out)
  else a ← call_wait; let '(r, fs) := (a : XrResult * FrameState) in beginFromWait r fs frame0.

Definition beginWaited (waited : XrResult) (fs : FrameState) (out : Frame) : M SW (XrResult * Frame) :=
  s ← getS;
  if hardFailure_ s then mret (lastResult_ s, out)
  else if cannotOpen s then mret (XR_ERROR_CALL_ORDER_INVALID, out)
  else beginFromWait waited fs frame0.

Definition openDeferred (predictedTime period : Z) (out : Frame) : M SW (XrResult * Frame) :=
  s ← getS;
  if hardFailure_ s then mret (lastResult_ s, out)
  else if cannotOpen s then mret (XR_ERROR_CALL_ORDER_INVALID, out)
  else
    upd (fun s => s <| frameOpen_ := true |> <| deferred_ := true |> <| frameTime_ := predictedTime |>
                    <| frameShouldRender_ := true |> <| sequence_ := u64 (sequence_ s + 1) |>);;
    s ← getS;
    mret (lastResult_ s,
          mkFrame predictedTime period (negb (terminal_ s)) false
            (if terminal_ s then FsSessionLossPending else FsOpen)
            (sequence_ s) (generation_ s) (owner_ s)).

Definition beginDeferred (waited : XrResult) (fs : FrameState) : M SW XrResult :=
  s ← getS;
  if hardFailure_ s then mret (lastResult_ s)
  else if negb (frameOpen_ s) || negb (deferred_ s) then mret XR_ERROR_CALL_ORDER_INVALID
  else
    upd (fun s => s <| deferred_ := false |>);;
    if XR_FAILED waited then clearFrame;; fail waited
    else if negb (waited =? XR_SUCCESS) && negb (waited =? XR_SESSION_LOSS_PENDING)
    then clearFrame;; fail XR_ERROR_RUNTIME_FAILURE
    else
      _ ← note waited;
      r ← call_beginFrame;
      if XR_FAILED r then clearFrame;; fail r
      else if negb (r =? XR_SUCCESS) && negb (r =? XR_FRAME_DISCARDED) && negb (r =? XR_SESSION_LOSS_PENDING)
      then clearFrame;; fail XR_ERROR_RUNTIME_FAILURE
      else
        _ ← note r;
        upd (fun s => s <| frameTime_ := fs_time fs |> <| frameShouldRender_ := fs_shouldRender fs =? XR_TRUE |>);;
        s ← getS; mret (lastResult_ s).

Definition end_ (frame : Frame) (supplied : EndInfo) (ready : RenderReady) : M SW (XrResult * Frame) :=
  s ← getS;
  if hardFailure_ s then mret (lastResult_ s, frame)
  else if negb (frameOpen_ s) || negb (sequence frame =? sequence_ s) ||
          negb (generation frame =? generation_ s) || negb (owner frame =? owner_ s)
  then mret (XR_ERROR_CALL_ORDER_INVALID, frame)
  else if deferred_ s then mret (XR_ERROR_CALL_ORDER_INVALID, frame)
  else
    let layers := frameShouldRender_ s && negb (terminal_ s) && negb (bool_decide (state_ s = ST_STOPPING)) &&
                  poseValid ready && renderReady ready in
    if layers && negb (ei_layerCount supplied =? 0) && bool_decide (ei_layers supplied = None)
    then mret (XR_ERROR_VALIDATION_FAILURE, frame)
    else
      r ← finish supplied layers;
      s' ← getS;
      mret (r, frame <| shouldRender := false |>
                     <| status := if XR_FAILED r then FsFailed else if terminal_ s' then FsSessionLossPending
                                  else if layers && negb (ei_layerCount supplied =? 0) then FsEnded
                                  else FsNoRender |>).

Definition stop : M SW XrResult :=
  s ← getS;
  if hardFailure_ s then mret (lastResult_ s)
  else if negb (bool_decide (state_ s = ST_STOPPING)) || negb (running_ s) then mret XR_ERROR_CALL_ORDER_INVALID
  else if frameOpen_ s && deferred_ s then mret XR_ERROR_CALL_ORDER_INVALID
  else
    f ← (if frameOpen_ s then
           r ← finish end0 false; mret (if XR_FAILED r then Some r else None)
         else mret None);
    match f with
    | Some r => mret r
    | None =>
        r ← call_endSession;
        if XR_FAILED r then fail r
        else if negb (r =? XR_SUCCESS) && negb (r =? XR_SESSION_LOSS_PENDING) then fail XR_ERROR_RUNTIME_FAILURE
        else
          upd (fun s => clearFrame_s (s <| running_ := false |>));;
          upd (fun s => if terminal_ s then s else s <| lifecycle_ := Ended |>);;
          note r
    end.

(** ** Clients: any sequence of calls *)
Inductive Op :=
| OReset (d : Dispatch) (i h b : Z) | OAbandon | OSetSink (b : bool)
| OPoll (budget : nat) | OStart | OWaitAndBegin (out : Frame)
| OBeginWaited (r : XrResult) (fs : FrameState) (out : Frame)
| OOpenDeferred (t p : Z) (out : Frame) | OBeginDeferred (r : XrResult) (fs : FrameState)
| OEnd (f : Frame) (i : EndInfo) (rr : RenderReady) | OStop.

Definition runOp (o : Op) : M SW XrResult :=
  match o with
  | OReset d i h b => reset d i h b
  | OAbandon => abandonAfterOwnerDestruction;; mret XR_SUCCESS
  | OSetSink b => setUnhandledEventSink b;; mret XR_SUCCESS
  | OPoll n => pollEvents n
  | OStart => startIfReady
  | OWaitAndBegin f => a ← waitAndBegin f; mret (a.1 : XrResult)
  | OBeginWaited r fs f => a ← beginWaited r fs f; mret (a.1 : XrResult)
  | OOpenDeferred t p f => a ← openDeferred t p f; mret (a.1 : XrResult)
  | OBeginDeferred r fs => beginDeferred r fs
  | OEnd f i rr => a ← end_ f i rr; mret (a.1 : XrResult)
  | OStop => stop
  end.

Definition runOps (os : list Op) (w : SW) : SW := foldl (fun w o => (runOp o w).2) w os.
End Policy.

(** ** The call protocol of OpenXR, as an automaton over the log *)
Inductive Phase := PIdle | PRunning | PBegun | PDead.

Definition ok2 (r : XrResult) : bool := (r =? XR_SUCCESS) || (r =? XR_SESSION_LOSS_PENDING).
Definition ok3 (r : XrResult) : bool := ok2 r || (r =? XR_FRAME_DISCARDED).

Definition protocol1 (p : Phase) (e : Ev) : option Phase :=
  match e, p with
  | EvRebind, _ => Some PIdle
  | (EvSink _ | EvKick | EvUnkick | EvPacerWait _ | EvNow _ | EvCapture _ _ _ | EvCompose _ _ | EvSceneFinished _ _), _ => Some p
  | EvPoll r, (PIdle | PRunning | PBegun) =>
      Some (if (r =? XR_SUCCESS) || (r =? XR_EVENT_UNAVAILABLE) then p else PDead)
  | EvBeginSession r, PIdle => Some (if ok2 r then PRunning else PDead)
  | EvWait r, PRunning => Some (if ok2 r then PRunning else PDead)
  | EvBegin r, PRunning => Some (if ok3 r then PBegun else PDead)
  | EvEnd _ r, PBegun => Some (if ok2 r then PRunning else PDead)
  | EvEndSession r, PRunning => Some (if ok2 r then PIdle else PDead)
  | _, _ => None
  end.

Fixpoint protocol (l : list Ev) : option Phase :=
  match l with [] => Some PIdle | e :: l => p ← protocol l; protocol1 p e end.

(** How the session's flags mirror the protocol's phase. *)
Definition phaseOf (s : SessionState) : option Phase :=
  match running_ s, frameOpen_ s && negb (deferred_ s) with
  | false, false => if frameOpen_ s then None else Some PIdle
  | true, false => Some PRunning
  | true, true => Some PBegun
  | false, true => None
  end.

Definition allBound (d : Dispatch) : Prop := d = mkDispatch true true true true true true.

Record inv (w : SW) : Prop := {
  inv_ok : is_Some (protocol (log w));
  inv_phase : hardFailure_ (sess w) = false -> protocol (log w) = phaseOf (sess w);
  inv_hard : hardFailure_ (sess w) = true -> terminal_ (sess w) = true;
  inv_def : deferred_ (sess w) = true -> frameOpen_ (sess w) = true;
  inv_bound : allBound (dispatch_ (sess w)) \/
              (dispatch_ (sess w) = no_dispatch /\ state_ (sess w) = ST_UNKNOWN /\
               running_ (sess w) = false /\ frameOpen_ (sess w) = false) }.

(** [quiet s s']: nothing the protocol depends on has moved. *)
Record quiet (s s' : SessionState) : Prop := {
  q_hard : hardFailure_ s' = hardFailure_ s;
  q_run : running_ s' = running_ s; q_open : frameOpen_ s' = frameOpen_ s;
  q_def : deferred_ s' = deferred_ s; q_disp : dispatch_ s' = dispatch_ s;
  q_state : state_ s' = state_ s; q_sess : session_ s' = session_ s;
  q_term : terminal_ s = true -> terminal_ s' = true }.

Lemma note_quiet r s : quiet s (note_s r s).2.
Proof. unfold note_s. repeat case_match; simplify_eq; split; cbn in *; congruence. Qed.

Lemma quiet_inv s s' l : quiet s s' -> inv (mkSW s l) -> inv (mkSW s' l).
Proof.
  intros [] [H1 H2 H3 HD H4]; cbn in *. split; cbn; unfold phaseOf in *.
  - done.
  - rewrite q_run0, q_open0, q_def0, q_hard0. done.
  - rewrite q_hard0. auto.
  - by rewrite q_def0, q_open0.
  - rewrite q_disp0, q_state0, q_run0, q_open0. done.
Qed.

Lemma wp_getS (Q : SessionState -> SW -> Prop) w : Q (sess w) w -> wp getS Q w.
Proof. done. Qed.
Lemma wp_upd f (Q : unit -> SW -> Prop) w : Q tt (mkSW (f (sess w)) (log w)) -> wp (upd f) Q w.
Proof. done. Qed.
Lemma wp_emit e (Q : unit -> SW -> Prop) w : Q tt (mkSW (sess w) (e :: log w)) -> wp (emit e) Q w.
Proof. done. Qed.
Lemma wp_invoke {A} fn (ask : list Ev -> A) ev junk (Q : A -> SW -> Prop) w :
  fn (dispatch_ (sess w)) = true ->
  (forall a, a = ask (log w) -> Q a (mkSW (sess w) (ev a :: log w))) -> wp (invoke fn ask ev junk) Q w.
Proof. unfold wp, invoke. intros -> H. apply H. done. Qed.
Lemma wp_note r (Q : XrResult -> SW -> Prop) w :
  (forall x s', quiet (sess w) s' -> Q x (mkSW s' (log w))) -> wp (note r) Q w.
Proof.
  unfold wp, note. pose proof (note_quiet r (sess w)). destruct (note_s r (sess w)). eauto.
Qed.
Lemma wp_fail r (Q : XrResult -> SW -> Prop) w : Q r (mkSW (fail_s r (sess w)) (log w)) -> wp (fail r) Q w.
Proof. done. Qed.

(** ** The protocol invariant is preserved by every operation *)
Lemma wp_calls {A} fn (ask : list Ev -> A) ev junk (Q : A -> SW -> Prop) w :
  allBound (dispatch_ (sess w)) ->
  (forall d, allBound d -> fn d = true) ->
  (forall a, Q a (mkSW (sess w) (ev a :: log w))) -> wp (invoke fn ask ev junk) Q w.
Proof. intros Hd Hfn H. apply wp_invoke; [by apply Hfn | auto]. Qed.

Ltac bound_fn := let d := fresh in let H := fresh in intros d H; rewrite H; reflexivity.

Ltac xr :=
  cbv beta zeta;
  match goal with
  | |- wp (_ ≫= _) _ _ => apply wp_bind
  | |- wp (mret _) _ _ => apply wp_ret
  | |- wp getS _ _ => apply wp_getS
  | |- wp (note _) _ _ => apply wp_note; intros ?x ?s' ?Hq
  | |- wp (fail _) _ _ => apply wp_fail
  | |- wp (upd _) _ _ => apply wp_upd
  | |- wp clearFrame _ _ => apply wp_upd
  | |- wp (emit _) _ _ => apply wp_emit
  | |- wp (call_poll _) _ _ => apply wp_calls; [| bound_fn | intros [?r ?ev]]
  | |- wp (call_wait _) _ _ => apply wp_calls; [| bound_fn | intros [?r ?fs]]
  | |- wp (call_beginSession _) _ _ => apply wp_calls; [| bound_fn | intros ?r]
  | |- wp (call_endSession _) _ _ => apply wp_calls; [| bound_fn | intros ?r]
  | |- wp (call_beginFrame _) _ _ => apply wp_calls; [| bound_fn | intros ?r]
  | |- wp (call_endFrame _ _) _ _ => apply wp_calls; [| bound_fn | intros ?r]
  | |- wp (let '(_, _) := ?x in _) _ _ => destruct x eqn:?
  | |- wp (if ?b then _ else _) _ _ => destruct b eqn:?
  | |- wp (match ?x with _ => _ end) _ _ => destruct x eqn:?
  end.


Lemma ok2_guard r : negb (r =? XR_SUCCESS) && negb (r =? XR_SESSION_LOSS_PENDING) = false -> ok2 r = true.
Proof. unfold ok2. by destruct (r =? XR_SUCCESS), (r =? XR_SESSION_LOSS_PENDING). Qed.

Lemma ok3_guard r :
  negb (r =? XR_SUCCESS) && negb (r =? XR_FRAME_DISCARDED) && negb (r =? XR_SESSION_LOSS_PENDING) = false ->
  ok3 r = true.
Proof.
  unfold ok3, ok2. by destruct (r =? XR_SUCCESS), (r =? XR_SESSION_LOSS_PENDING), (r =? XR_FRAME_DISCARDED).
Qed.

(** Rewrite every known field of a session in the goal. *)
Ltac fields := repeat match goal with
  | H : ?f ?x = _ |- context [?f ?x] =>
      lazymatch f with
      | running_ => idtac | frameOpen_ => idtac | deferred_ => idtac | hardFailure_ => idtac
      | terminal_ => idtac | dispatch_ => idtac | state_ => idtac | ok2 => idtac | ok3 => idtac
      | protocol => idtac
      end; rewrite H
  end.

Ltac ok_guards :=
  repeat match goal with
  | H : quiet _ _ |- _ => destruct H
  | H : _ && negb (_ =? XR_SESSION_LOSS_PENDING) = false |- _ => first [apply ok2_guard in H | apply ok3_guard in H]
  end.

Ltac leaf := ok_guards; cbn in *;
  first [ done | solve [unfold allBound in *; congruence]
        | constructor; cbn; unfold phaseOf; cbn; fields; cbn; fields; cbn;
          try done; try (intros; congruence); try (by left); try (by right); auto;
          repeat (case_match; cbn); eauto ].

Section Preservation.
Context (rt : Runtime).

Lemma inv_finish w i b :
  inv w -> hardFailure_ (sess w) = false -> running_ (sess w) = true ->
  frameOpen_ (sess w) = true -> deferred_ (sess w) = false ->
  wp (finish rt i b) (fun r w' => inv w' /\ (XR_FAILED r = false ->
     hardFailure_ (sess w') = false /\ protocol (log w') = Some PRunning /\ frameOpen_ (sess w') = false /\
     running_ (sess w') = true /\ dispatch_ (sess w') = dispatch_ (sess w)
     /\ state_ (sess w') = state_ (sess w))) w.
Proof.
  destruct w as [s l]. intros [H1 H2 H3 HD H4] Hh Hr Ho Hd. cbn in *.
  assert (allBound (dispatch_ s)) by (destruct H4; [done | destruct_and!; congruence]).
  assert (Hp : protocol l = Some PBegun) by (rewrite H2 by done; unfold phaseOf; by rewrite Hr, Ho, Hd).
  unfold finish.
  repeat xr; cbn in *; try assumption.
  all: split; [leaf|].
  all: try (intros; congruence).
  intros _. destruct Hq. apply ok2_guard in Heqb1. cbn in *. fields. cbn. by fields.
Qed.

(** Symbolic execution of a whole operation from an invariant state. *)
Ltac start :=
  let w := fresh "w" in intros w; destruct w as [s l]; intros [[ph Hph] H2 H3 HD H4]; cbn in *; rewrite Hph in H2.

Ltac get_bound :=
  match goal with
  | H : allBound (dispatch_ ?s) \/ _ |- _ =>
      let HB := fresh "HB" in
      assert (HB : allBound (dispatch_ s)) by
        (destruct H as [? | (? & ? & ? & ?)]; [assumption | congruence])
  end.

(** Read off the protocol's phase from the flags of a live session. *)
Ltac get_phase :=
  match goal with
  | H2 : false = false -> Some ?ph = phaseOf ?s |- _ =>
      specialize (H2 eq_refl); unfold phaseOf in H2;
      repeat match goal with E : ?f s = _ |- _ => rewrite E in H2 end; cbn in H2;
      try (injection H2 as ->)
  | H2 : hardFailure_ ?s = false -> Some ?ph = phaseOf ?s |- _ =>
      let Hh := fresh "Hh" in
      assert (Hh : hardFailure_ s = false) by
        (destruct (hardFailure_ s); [exfalso; intuition congruence | done]);
      specialize (H2 Hh); unfold phaseOf in H2;
      repeat match goal with E : ?f s = _ |- _ => rewrite E in H2 end; cbn in H2;
      try (injection H2 as ->)
  end.

Ltac run_op := repeat xr; cbn in *; try assumption; ok_guards; bool_solve; try (by split; cbn; eauto; fields; eauto).

Lemma inv_reset d i h b : forall w, inv w -> wp (reset d i h b) (fun _ => inv) w.
Proof.
  start. unfold reset. run_op.
  all: constructor; cbn; try done; try (left; destruct d; cbn in *; congruence); rewrite Hph; eauto.
Qed.

Lemma inv_abandon : forall w, inv w -> wp abandonAfterOwnerDestruction (fun _ => inv) w.
Proof. start. unfold abandonAfterOwnerDestruction. run_op. Qed.

Lemma inv_sink b : forall w, inv w -> wp (setUnhandledEventSink b) (fun _ => inv) w.
Proof. start. unfold setUnhandledEventSink. run_op. Qed.

Lemma inv_start : forall w, inv w -> wp (startIfReady rt) (fun _ => inv) w.
Proof.
  start. unfold startIfReady. apply wp_bind, wp_getS. cbn.
  destruct (terminal_ s) eqn:Ht; [run_op|].
  destruct (negb (bool_decide (state_ s = ST_READY)) || running_ s) eqn:Hg; [run_op|].
  bool_solve. get_bound.
  destruct (frameOpen_ s) eqn:Ho; [exfalso; get_phase; destruct (deferred_ s); done | get_phase].
  run_op; leaf.
Qed.

(** What the three frame openers know about a session they may act on. *)
Lemma canOpen_live w :
  inv w -> hardFailure_ (sess w) = false -> cannotOpen (sess w) = false ->
  allBound (dispatch_ (sess w)) /\ running_ (sess w) = true /\ frameOpen_ (sess w) = false /\
  protocol (log w) = Some PRunning.
Proof.
  destruct w as [s l]. intros [H1 H2 H3 HD H4] Hh Hc. unfold cannotOpen in Hc. cbn in *. bool_solve.
  get_bound. rewrite H2 by done. unfold phaseOf. by fields.
Qed.

Lemma inv_beginFromWait r fs o p w :
  allBound (dispatch_ (sess w)) -> (hardFailure_ (sess w) = false) ->
  running_ (sess w) = true -> frameOpen_ (sess w) = false -> deferred_ (sess w) = false ->
  protocol (log w) = Some p -> (ok2 r = true -> p = PRunning) ->
  wp (beginFromWait rt r fs o) (fun _ => inv) w.
Proof.
  destruct w as [s l]. intros HB Hh Hr Ho Hd Hp Hok. cbn in *. unfold beginFromWait.
  destruct (XR_FAILED r) eqn:Hf; [repeat xr; leaf|].
  destruct (negb (r =? XR_SUCCESS) && negb (r =? XR_SESSION_LOSS_PENDING)) eqn:Hg; [repeat xr; leaf|].
  apply ok2_guard in Hg. rewrite (Hok Hg) in Hp.
  repeat xr; cbn in *; ok_guards; cbn in *; fields; cbn in *; try assumption; leaf.
Qed.

Lemma closed_not_deferred w : inv w -> frameOpen_ (sess w) = false -> deferred_ (sess w) = false.
Proof. intros Hi Ho. destruct (deferred_ (sess w)) eqn:E; [|done]. pose proof (inv_def _ Hi E). congruence. Qed.

Lemma inv_waitAndBegin f w : inv w -> wp (waitAndBegin rt f) (fun _ => inv) w.
Proof.
  intros Hi. unfold waitAndBegin. apply wp_bind, wp_getS.
  destruct (hardFailure_ (sess w)) eqn:Hh; [by apply wp_ret|].
  destruct (cannotOpen (sess w)) eqn:Hc; [by apply wp_ret|].
  destruct (canOpen_live w) as (HB & Hr & Ho & Hp); try done.
  repeat first [done | xr]. all: try assumption.
  apply (inv_beginFromWait _ _ _ (if ok2 r then PRunning else PDead)); cbn; try done.
  - by apply closed_not_deferred.
  - by rewrite Hp.
  - by intros ->.
Qed.

Lemma inv_beginWaited r fs f w : inv w -> wp (beginWaited rt r fs f) (fun _ => inv) w.
Proof.
  intros Hi. unfold beginWaited. apply wp_bind, wp_getS.
  destruct (hardFailure_ (sess w)) eqn:Hh; [by apply wp_ret|].
  destruct (cannotOpen (sess w)) eqn:Hc; [by apply wp_ret|].
  destruct (canOpen_live w) as (HB & Hr & Ho & Hp); try done.
  eapply inv_beginFromWait; eauto using closed_not_deferred.
Qed.

Lemma inv_openDeferred t p f : forall w, inv w -> wp (openDeferred t p f) (fun _ => inv) w.
Proof.
  intros w Hi. unfold openDeferred. apply wp_bind, wp_getS.
  destruct (hardFailure_ (sess w)) eqn:Hh; [by apply wp_ret|].
  destruct (cannotOpen (sess w)) eqn:Hc; [by apply wp_ret|].
  destruct (canOpen_live w) as (HB & Hr & Ho & Hp); try done.
  destruct w as [s l]. repeat xr. cbn in *. leaf.
Qed.

Lemma inv_beginDeferred r fs : forall w, inv w -> wp (beginDeferred rt r fs) (fun _ => inv) w.
Proof.
  start. unfold beginDeferred. apply wp_bind, wp_getS. cbn.
  destruct (hardFailure_ s) eqn:Hh; [run_op|].
  destruct (negb (frameOpen_ s) || negb (deferred_ s)) eqn:Hg; [run_op|].
  bool_solve.
  destruct (running_ s) eqn:Hr; [|exfalso; get_phase; done].
  get_bound. get_phase.
  run_op; leaf.
Qed.

Lemma inv_end f i rr : forall w, inv w -> wp (end_ rt f i rr) (fun _ => inv) w.
Proof.
  intros w Hi. unfold end_. apply wp_bind, wp_getS.
  destruct (hardFailure_ (sess w)) eqn:Hh; [by apply wp_ret|].
  case_match eqn:Hg; [by apply wp_ret|].
  destruct (deferred_ (sess w)) eqn:Hd; [by apply wp_ret|]. cbv zeta.
  case_match eqn:Hl; [by apply wp_ret|]. clear Hl.
  bool_solve. pose proof (inv_phase _ Hi Hh) as Hp. unfold phaseOf in Hp.
  destruct (running_ (sess w)) eqn:Hr.
  - apply wp_bind. eapply wp_mono; [by apply inv_finish|]. intros r w' [Hi' _]. by repeat xr.
  - exfalso. destruct (inv_ok _ Hi) as [p Hp']. rewrite Hp' in Hp. rewrite Hd in Hp. by destruct (frameOpen_ (sess w)).
Qed.

Lemma inv_stop : forall w, inv w -> wp (stop rt) (fun _ => inv) w.
Proof.
  intros w Hi. unfold stop. apply wp_bind, wp_getS.
  destruct (hardFailure_ (sess w)) eqn:Hh; [by apply wp_ret|].
  case_match eqn:Hg; [by apply wp_ret|].
  destruct (frameOpen_ (sess w) && deferred_ (sess w)) eqn:Hd; [by apply wp_ret|].
  assert (Hdd : frameOpen_ (sess w) = true -> deferred_ (sess w) = false) by (intros E; by rewrite E in Hd).
  clear Hd. bool_solve. apply wp_bind.
  apply (wp_mono _ (fun o w' => inv w' /\ (o = None ->
           hardFailure_ (sess w') = false /\ protocol (log w') = Some PRunning /\
           frameOpen_ (sess w') = false /\ running_ (sess w') = true /\ allBound (dispatch_ (sess w'))))).
  - destruct (frameOpen_ (sess w)) eqn:Ho.
    + apply wp_bind. eapply wp_mono; [apply inv_finish; auto|].
      intros r w' [Hi' Hx]. apply wp_ret. split; [done|].
      destruct (XR_FAILED r); [done|]. destruct (Hx eq_refl) as (?&?&?&?&Hd'&?). intros _.
      repeat (split; [done|]). rewrite Hd'.
      destruct (inv_bound _ Hi) as [? | (?&?&?&?)]; [done | congruence].
    + apply wp_ret. split; [done|]. intros _. split; [done|]. split; [|split; [done|split; [done|]]].
      * rewrite (inv_phase _ Hi) by done. unfold phaseOf. by fields.
      * destruct (inv_bound _ Hi) as [? | (?&?&?&?)]; [done | congruence].
  - clear Hi. intros [r|] w1 [Hi1 Hx]; [by apply wp_ret|]. destruct (Hx eq_refl) as (Hh1&Hp1&Ho1&Hr1&HB1).
    pose proof (closed_not_deferred _ Hi1 Ho1) as Hd1.
    destruct w1 as [s l]. cbn in *. destruct (terminal_ s) eqn:Ht; repeat xr; cbn in *; leaf.
Qed.

(** Moving only fields the protocol does not look at keeps the invariant. *)
Lemma inv_same s s' l l' :
  inv (mkSW s l) -> allBound (dispatch_ s) -> protocol l' = protocol l ->
  hardFailure_ s' = hardFailure_ s -> running_ s' = running_ s -> frameOpen_ s' = frameOpen_ s ->
  deferred_ s' = deferred_ s -> dispatch_ s' = dispatch_ s ->
  (terminal_ s = true -> terminal_ s' = true) -> inv (mkSW s' l').
Proof.
  intros [H1 H2 H3 HD H4] HB Hl Hh Hr Ho Hd Hdi Ht. cbn in *.
  constructor; cbn; unfold phaseOf in *; rewrite ?Hl, ?Hh, ?Hr, ?Ho, ?Hd, ?Hdi; auto.
Qed.

Lemma inv_handleEvent e : forall w,
  inv w -> hardFailure_ (sess w) = false -> allBound (dispatch_ (sess w)) ->
  wp (handleEvent e) (fun o w' => inv w' /\
        (o = None -> hardFailure_ (sess w') = false /\ dispatch_ (sess w') = dispatch_ (sess w))) w.
Proof.
  intros [s l] Hi Hh HB. cbn in *. unfold handleEvent, unhandled.
  repeat xr; cbn in *; ok_guards; cbn in *; (split; [|done || (intros; split; congruence)]).
  all: try (eapply (inv_same s); cbn; try done; destruct (protocol l); done).
  all: pose proof Hi as [[ph Hph] H2 H3 HD H4]; constructor; cbn in *; fields; eauto; done.
Qed.

Lemma inv_pollLoop n : forall w,
  inv w -> hardFailure_ (sess w) = false -> allBound (dispatch_ (sess w)) ->
  wp (pollLoop rt n) (fun _ => inv) w.
Proof.
  induction n as [|n IH]; intros [s l] Hi Hh HB; cbn [pollLoop]; [by repeat xr|].
  pose proof Hi as [[ph Hph] H2 H3 HD H4]. cbn in *.
  apply wp_bind, wp_calls; [done | intros d ->; done | intros [r e]].
  assert (Hph' : ph <> PDead).
  { intros ->. specialize (H2 Hh). rewrite Hph in H2. unfold phaseOf in H2. repeat case_match; congruence. }
  destruct (r =? XR_EVENT_UNAVAILABLE) eqn:Hr.
  - repeat xr. eapply (inv_same s); cbn; try done. rewrite Hph; cbn. rewrite Hr, orb_true_r. by destruct ph.
  - destruct (negb (r =? XR_SUCCESS)) eqn:Hr'.
    + repeat xr. constructor; cbn; rewrite ?Hph; cbn; eauto; try done. destruct ph; eauto; done.
    + bool_solve. assert (Hi' : inv (mkSW s (EvPoll r :: l))).
      { eapply (inv_same s); cbn; try done. rewrite Hph. cbn. subst r. by destruct ph. }
      apply wp_bind. eapply wp_mono; [by apply inv_handleEvent|].
      intros [x|] w' [Hw Hx]; [by apply wp_ret|]. destruct (Hx eq_refl) as [Hh' Hd'].
      apply IH; [done | done | by rewrite Hd'].
Qed.

Lemma inv_pollEvents n w : inv w -> wp (pollEvents rt n) (fun _ => inv) w.
Proof.
  intros Hi. unfold pollEvents. apply wp_bind, wp_getS.
  destruct (terminal_ (sess w)) eqn:Ht; [by apply wp_ret|].
  case_match.
  { apply wp_fail. destruct Hi as [H1 H2 H3 HD H4]. constructor; cbn in *; try done. }
  destruct (negb (pollEvent (dispatch_ (sess w)))) eqn:Hp.
  { apply wp_fail. destruct Hi as [H1 H2 H3 HD H4]. constructor; cbn in *; try done. }
  case_match; [by apply wp_ret|].
  apply inv_pollLoop; [done | |].
  - destruct (hardFailure_ (sess w)) eqn:Hh; [|done]. pose proof (inv_hard _ Hi Hh). congruence.
  - destruct (inv_bound _ Hi) as [? | (Hd & _)]; [done|]. by rewrite Hd in Hp.
Qed.

Lemma inv_runOp o w : inv w -> wp (runOp rt o) (fun _ => inv) w.
Proof.
  intros Hi. destruct o; cbn [runOp].
  all: lazymatch goal with
       | |- wp (_ ≫= _) _ _ => apply wp_bind; eapply wp_mono; [|intros ? ? Hx; apply wp_ret; exact Hx]
       | _ => idtac
       end.
  all: auto using inv_reset, inv_abandon, inv_sink, inv_pollEvents, inv_start, inv_waitAndBegin,
         inv_beginWaited, inv_openDeferred, inv_beginDeferred, inv_end, inv_stop.
Qed.

Lemma inv_runOps os : forall w, inv w -> inv (runOps rt os w).
Proof.
  induction os as [|o os IH]; intros w Hi; [done|]. cbn. apply IH.
  pose proof (inv_runOp o w Hi) as H. unfold wp in H. by destruct (runOp rt o w).
Qed.
End Preservation.

(** ** Properties *)

(** C1.  For every runtime and every sequence of calls on a fresh session, the
    calls the policy makes follow OpenXR's frame protocol (begin session, wait,
    begin frame, end frame, end session; nothing after a hard failure until a
    rebind; no call through a null entry point), and while no hard failure
    happened the flags are exactly the protocol's phase. *)
Theorem session_calls_conform rt owner os :
  let w := runOps rt os (mkSW (session0 owner) []) in
  (exists p, protocol (log w) = Some p) /\ ~ In EvNull (log w) /\
  (hardFailure_ (sess w) = false -> protocol (log w) = phaseOf (sess w)).
Proof.
  intros w. assert (Hi : inv w).
  { apply inv_runOps. constructor; cbn; eauto; done. }
  destruct Hi as [[p Hp] H2 _ _ _]. split_and!; [by exists p | | done].
  clear -Hp. revert p Hp. induction (log w) as [|e l IH]; intros p Hp Hin; [done|].
  cbn in Hp. destruct (protocol l) as [q|] eqn:Hq; [|done].
  destruct Hin as [-> | Hin]; [by destruct q | by eapply IH].
Qed.

(** What [end] accepts: the open frame's own token, once its begin is real. *)
Definition accepts (f : Frame) (s : SessionState) : bool :=
  negb (hardFailure_ s) && frameOpen_ s && (sequence f =? sequence_ s) &&
  (generation f =? generation_ s) && (owner f =? owner_ s) && negb (deferred_ s).

(** The layers go out only if everybody agrees. *)
Definition mayShow (rr : RenderReady) (s : SessionState) : bool :=
  frameShouldRender_ s && negb (terminal_ s) && negb (bool_decide (state_ s = ST_STOPPING)) &&
  poseValid rr && renderReady rr.

(** The end info the runtime receives. *)
Definition sentInfo (i : EndInfo) (rr : RenderReady) (s : SessionState) : EndInfo :=
  if mayShow rr s then mkEnd (ei_next i) (frameTime_ s) (blend_ s) (ei_layerCount i) (ei_layers i)
  else mkEnd None (frameTime_ s) (blend_ s) 0 None.

Lemma bind_getS {A} (k : SessionState -> M SW A) w : (getS ≫= k) w = k (sess w) w.
Proof. done. Qed.

Section EndProperties.
Context (rt : Runtime).

Lemma finish_effect i b w :
  allBound (dispatch_ (sess w)) ->
  wp (finish rt i b) (fun _ w' => exists r,
    log w' = EvEnd (mkEnd (if b then ei_next i else None) (frameTime_ (sess w)) (blend_ (sess w))
                      (if b then ei_layerCount i else 0) (if b then ei_layers i else None)) r :: log w /\
    frameOpen_ (sess w') = false) w.
Proof.
  intros Hb. destruct w as [s l]. unfold finish. repeat xr; cbn; try done.
  all: exists r; split; [by destruct b | ok_guards; cbn in *; congruence].
Qed.

(**  [end] on every branch: a token it does not accept changes nothing and
    reaches no runtime call; an accepted one with a missing layer array is refused
    the same way; otherwise exactly one [xrEndFrame] goes out, with the session's
    own display time and blend mode, with the supplied layers only when the
    runtime asked for rendering, the session is neither terminal nor stopping and
    the caller is ready, and the frame is closed whatever the runtime answers. *)
Theorem end_functional f i rr w :
  allBound (dispatch_ (sess w)) ->
  let res := end_ rt f i rr w in
  if negb (accepts f (sess w)) then
    res = ((if hardFailure_ (sess w) then lastResult_ (sess w) else XR_ERROR_CALL_ORDER_INVALID, f), w)
  else if mayShow rr (sess w) && negb (ei_layerCount i =? 0) && bool_decide (ei_layers i = None) then
    res = ((XR_ERROR_VALIDATION_FAILURE, f), w)
  else exists r, log res.2 = EvEnd (sentInfo i rr (sess w)) r :: log w /\ frameOpen_ (sess res.2) = false.
Proof.
  intros Hb. cbv zeta. unfold accepts, end_. rewrite bind_getS.
  destruct (hardFailure_ (sess w)); [done|]. cbn.
  destruct (frameOpen_ (sess w)), (sequence f =? _), (generation f =? _), (owner f =? _); try done.
  destruct (deferred_ (sess w)); [done|]. cbn. unfold sentInfo. change (frameShouldRender_ (sess w) && _ && _ && _ && _) with (mayShow rr (sess w)).
  destruct (mayShow rr (sess w) && negb (ei_layerCount i =? 0) && bool_decide (ei_layers i = None)); [done|].
  destruct (wp_run _ _ _ (finish_effect i (mayShow rr (sess w)) w Hb)) as (r & Hl & Ho).
  exists r. rewrite bind_run, bind_getS. cbn. split; [|done]. rewrite Hl. by destruct (mayShow rr (sess w)).
Qed.

(** A session that has recorded a pending loss. *)
Definition lossPending (s : SessionState) : Prop :=
  hardFailure_ s = false /\ terminal_ s = true /\ lifecycle_ s = LossPending.

Lemma note_loss r s : lossPending s -> (note_s r s).1 = XR_SESSION_LOSS_PENDING /\ lossPending (note_s r s).2.
Proof.
  intros (Hh & Ht & Hl). unfold note_s, lossPending.
  destruct (r =? XR_SESSION_LOSS_PENDING); cbn; rewrite Hl, ?Ht; done.
Qed.

Lemma ok2_not_failed r : ok2 r = true -> XR_FAILED r = false.
Proof. unfold ok2, XR_FAILED, XR_SUCCESS, XR_SESSION_LOSS_PENDING. intros. bool_solve; subst; done. Qed.

Lemma ok2_unguard r : ok2 r = true -> negb (r =? XR_SUCCESS) && negb (r =? XR_SESSION_LOSS_PENDING) = false.
Proof. unfold ok2. by destruct (r =? XR_SUCCESS), (r =? XR_SESSION_LOSS_PENDING). Qed.

Lemma wp_note_loss r (Q : XrResult -> SW -> Prop) w :
  lossPending (sess w) ->
  (forall s', quiet (sess w) s' -> lossPending s' -> Q XR_SESSION_LOSS_PENDING (mkSW s' (log w))) -> wp (note r) Q w.
Proof.
  intros Hl H. unfold wp, note. pose proof (note_quiet r (sess w)). pose proof (note_loss r (sess w) Hl) as [E ?].
  destruct (note_s r (sess w)) as [x s']. cbn in *. rewrite E. by apply H.
Qed.

Lemma finish_loss i b w :
  (forall l e, ok2 (rt_endFrame rt l e) = true) -> allBound (dispatch_ (sess w)) -> lossPending (sess w) ->
  wp (finish rt i b) (fun x w' => x = XR_SESSION_LOSS_PENDING /\ lossPending (sess w') /\
        running_ (sess w') = running_ (sess w) /\ allBound (dispatch_ (sess w'))) w.
Proof.
  intros He Hb Hl. destruct w as [s l]. unfold finish. xr. xr. xr.
  apply wp_invoke; [cbn in *; by rewrite Hb|]. intros r ->. cbn. xr. xr.
  rewrite ok2_not_failed, ok2_unguard by done.
  apply wp_note_loss; [done|]. cbn. intros s' [] Hl'. cbn in *. split_and!; congruence || done.
Qed.

(** A pending session loss stays visible: from a session that has recorded
    it, closing a frame and stopping the session both answer
    [XR_SESSION_LOSS_PENDING] whenever the runtime accepts the call. *)
Theorem loss_pending_sticky f i rr w :
  (forall l e, ok2 (rt_endFrame rt l e) = true) -> (forall l, ok2 (rt_endSession rt l) = true) ->
  allBound (dispatch_ (sess w)) -> lossPending (sess w) ->
  (accepts f (sess w) = true -> (end_ rt f i rr w).1.1 = XR_SESSION_LOSS_PENDING) /\
  (state_ (sess w) = ST_STOPPING -> running_ (sess w) = true -> deferred_ (sess w) = false ->
   (stop rt w).1 = XR_SESSION_LOSS_PENDING /\ running_ (sess (stop rt w).2) = false).
Proof.
  intros He Hs Hb Hl. pose proof Hl as (Hh & Ht & Hlc). split.
  - intros Ha. unfold accepts in Ha. bool_solve. unfold end_. rewrite bind_getS.
    rewrite Hh, H0, H1, H2, H3, H4, !Z.eqb_refl, Ht, !andb_false_r. cbn -[finish].
    destruct (wp_run _ _ _ (finish_loss i false w He Hb Hl)) as (Hx & _).
    rewrite bind_run. cbn. by rewrite Hx.
  - intros Hst Hr Hd. apply (wp_run (stop rt) (fun x w' => x = _ /\ running_ (sess w') = false)).
    unfold stop. xr. xr. rewrite Hh, Hst, Hr, Hd, andb_false_r. cbn -[finish].
    apply wp_bind. apply (wp_mono _ (fun o w' => o = None /\ lossPending (sess w') /\ allBound (dispatch_ (sess w')))).
    + destruct (frameOpen_ (sess w)); [|by apply wp_ret].
      apply wp_bind. eapply wp_mono; [by apply finish_loss|]. by intros r w' (-> & ? & ? & ?).
    + intros o w' (-> & Hl' & Hb'). destruct w' as [s l]. cbn in *. apply wp_bind.
      apply wp_invoke; [cbn; by rewrite Hb'|]. intros r ->. cbn.
      rewrite ok2_not_failed, ok2_unguard by done.
      do 4 xr. cbn. rewrite (proj1 (proj2 Hl')). cbn. apply wp_note_loss; [done|]. intros s' [] _. done.
Qed.

(** A begun frame carries the session's own token and time. *)
Lemma beginFromWait_token r fs o w :
  allBound (dispatch_ (sess w)) -> hardFailure_ (sess w) = false -> deferred_ (sess w) = false ->
  wp (beginFromWait rt r fs o) (fun a w' => hardFailure_ (sess w') = false ->
    accepts a.2 (sess w') = true /\ predictedDisplayTime a.2 = frameTime_ (sess w')) w.
Proof.
  intros HB Hh Hd. destruct w as [s l]. cbn in *. unfold beginFromWait.
  repeat xr; cbn in *; try done; try solve [unfold allBound in *; ok_guards; cbn in *; congruence].
  all: intros Hh'; unfold accepts; cbn; ok_guards; cbn in *; fields; by rewrite !Z.eqb_refl.
Qed.

(** A frame opened by [waitAndBegin] can always be closed: when it returns
    without a hard failure, the token it hands out is the one [end] accepts, and
    the session's display time is the runtime's prediction in the token. *)
Theorem waitAndBegin_token_accepted f0 w :
  inv w -> hardFailure_ (sess w) = false -> cannotOpen (sess w) = false ->
  let res := waitAndBegin rt f0 w in
  hardFailure_ (sess res.2) = false ->
  accepts res.1.2 (sess res.2) = true /\
  predictedDisplayTime res.1.2 = frameTime_ (sess res.2) /\
  protocol (log res.2) = Some PBegun.
Proof.
  intros Hi Hh Hc. cbv zeta. pose proof (wp_run _ _ _ (inv_waitAndBegin rt f0 w Hi)) as Hi'.
  destruct (canOpen_live w) as (HB & Hr & Ho & Hp); try done.
  enough (Ht : wp (waitAndBegin rt f0) (fun a w' => hardFailure_ (sess w') = false ->
            accepts a.2 (sess w') = true /\ predictedDisplayTime a.2 = frameTime_ (sess w')) w).
  { intros Hh'. destruct (wp_run _ _ _ Ht Hh') as [Ha Hpt]. split_and!; try done.
    rewrite (inv_phase _ Hi' Hh'). destruct (inv_ok _ Hi') as [p Hp'].
    pose proof (inv_phase _ Hi' Hh') as Hph. rewrite Hp' in Hph. unfold accepts, phaseOf in *.
    bool_solve. rewrite H4, H0 in *. cbn in *. by destruct (running_ (sess (waitAndBegin rt f0 w).2)). }
  unfold waitAndBegin. repeat first [rewrite Hh, Hc | xr]; try done.
  apply beginFromWait_token; cbn; try done. by apply closed_not_deferred.
Qed.
End EndProperties.

(** ** Witnesses: a runtime that answers success, makes the session ready on the
    first poll and announces a loss after the first wait. *)
Definition demo_runtime : Runtime := mkRuntime
  (fun l => (XR_SUCCESS, EventSessionStateChanged 7
     (if existsb (fun e => match e with EvWait _ => true | _ => false end) l then ST_LOSS_PENDING else ST_READY)))
  (fun _ => XR_SUCCESS) (fun _ => XR_SUCCESS) (fun _ => (XR_SUCCESS, mkFS 1000 11 XR_TRUE))
  (fun _ => XR_SUCCESS) (fun _ _ => XR_SUCCESS).
Definition demo_ready : SW :=
  runOps demo_runtime [OReset (mkDispatch true true true true true true) 5 7 1; OPoll 1; OStart] (mkSW (session0 1) []).
Definition demo_open : SW := (waitAndBegin demo_runtime frame0 demo_ready).2.
Definition demo_frame : Frame := (waitAndBegin demo_runtime frame0 demo_ready).1.2.
Definition demo_lossy : SW := (pollEvents demo_runtime 8 demo_open).2.

Lemma end_functional_witness :
  allBound (dispatch_ (sess demo_open)) /\ accepts demo_frame (sess demo_open) = true /\
  exists r, log (end_ demo_runtime demo_frame end0 (mkReady true true) demo_open).2 =
            EvEnd (mkEnd None 1000 1 0 None) r :: log demo_open.
Proof.
  split; [reflexivity | split; [reflexivity|]].
  destruct (end_functional demo_runtime demo_frame end0 (mkReady true true) demo_open eq_refl) as (r & H & _).
  exists r. exact H.
Defined.

Lemma loss_pending_sticky_witness :
  lossPending (sess demo_lossy) /\
  (end_ demo_runtime demo_frame end0 (mkReady true true) demo_lossy).1.1 = XR_SESSION_LOSS_PENDING.
Proof.
  split; [repeat split; reflexivity|].
  apply (loss_pending_sticky demo_runtime demo_frame end0 (mkReady true true) demo_lossy); try reflexivity.
  repeat split; reflexivity.
Defined.

Lemma demo_ready_inv : inv demo_ready.
Proof. apply inv_runOps. constructor; cbn; eauto; done. Qed.

Lemma waitAndBegin_token_accepted_witness :
  cannotOpen (sess demo_ready) = false /\ accepts demo_frame (sess demo_open) = true.
Proof.
  split; [reflexivity|].
  apply (waitAndBegin_token_accepted demo_runtime frame0 demo_ready demo_ready_inv); reflexivity.
Defined.
