(* ===== verification/FrameBoundary.v ===== *)
(** Submit pairing and frame pacing (src/src/openxr/frame_boundary.h, class
    [FrameBoundary]) over the session policy of XrSession, with the one-wait
    pacer thread of src/src/openxr/frame_pacer.h.

    The eye capture and composition ([FrameSink]) and the clock are interfaces
    the boundary only calls: arbitrary functions of the log.  The pacer's worker
    is a second thread; the only places where its progress can be observed are
    [ready] and [take], so the model lets the worker return there whenever the
    environment says so ([workerTick]), which covers every interleaving. *)
From S2P Require Import Prelude XrSession.
Local Open Scope Z_scope.

Definition VRCompositorError_None : Z := 0.
Definition VRCompositorError_InvalidTexture : Z := 102.
Definition VRCompositorError_IndexOutOfRange : Z := 107.
Definition XR_TYPE_COMPOSITION_LAYER_PROJECTION : Z := 35.

(** ** Interfaces *)
Record Layer := mkLayer {
  ly_type : Z; ly_next : option Z; ly_space : Z; ly_viewCount : Z; ly_views : option Z }.
Definition layer0 : Layer := mkLayer XR_TYPE_COMPOSITION_LAYER_PROJECTION None 0 0 None.

Record Host := mkHost {
  h_rt : Runtime;
  h_capture : list Ev -> Z -> bool -> Z;
  h_compose : list Ev -> bool -> XrResult * Layer;
  h_sceneLayerAvailable : list Ev -> bool;
  h_now : list Ev -> Z;
  h_waitReturned : list Ev -> bool;
  h_waitStarted : list Ev -> bool }.

(** ** The pacer *)
Record FramePacer := mkPacer {
  pc_bound : bool; pending_ : bool; done_ : bool; result_ : XrResult; pstate_ : FrameState }.
#[export] Instance eta_Pacer : Settable FramePacer := fun p =>
  mkPacer (pc_bound p) (pending_ p) (done_ p) (result_ p) (pstate_ p).
Definition pacer0 (bound : bool) : FramePacer := mkPacer bound false false XR_SUCCESS fs0.

Inductive FramePacing := PacingRuntime | PacingDeferred.

Record Boundary := mkBoundary {
  thread_ : Z; hasPacer : bool; frame_ : Frame; accepted0 : bool; accepted1 : bool;
  geometryReady_ : bool; failed_ : bool; blastResult_ : XrResult; endFrameMs_ : double;
  turbo_ : bool; bdeferred_ : bool; lastReal_ : Z; lastPeriod_ : Z; waitEntry_ : Z; lastRealAt_ : Z;
  lastHandedOut_ : Z; waitBlockMs_ : double; pacerBlockMs_ : double;
  deferredFrames_ : Z; synthesized_ : Z; readyAtWait_ : Z; kicks_ : Z;
  drainedFrames_ : Z; drainedWaits_ : Z; lateFramesTotal_ : Z; lateFramesWindow_ : Z }.
#[export] Instance eta_Boundary : Settable Boundary := fun b =>
  mkBoundary (thread_ b) (hasPacer b) (frame_ b) (accepted0 b) (accepted1 b) (geometryReady_ b) (failed_ b)
    (blastResult_ b) (endFrameMs_ b) (turbo_ b) (bdeferred_ b) (lastReal_ b) (lastPeriod_ b) (waitEntry_ b)
    (lastRealAt_ b) (lastHandedOut_ b) (waitBlockMs_ b) (pacerBlockMs_ b) (deferredFrames_ b) (synthesized_ b)
    (readyAtWait_ b) (kicks_ b) (drainedFrames_ b) (drainedWaits_ b) (lateFramesTotal_ b) (lateFramesWindow_ b).
Definition boundary0 (thread : Z) (pacer : bool) : Boundary :=
  mkBoundary thread pacer frame0 false false false false XR_SUCCESS d_zero false false 0 0 0 0 0 d_zero d_zero
    0 0 0 0 0 0 0 0.

Record BW := mkBW { bs : SW; bb : Boundary; bp : FramePacer }.
#[export] Instance eta_BW : Settable BW := fun w => mkBW (bs w) (bb w) (bp w).

Definition getB : M BW Boundary := fun w => (bb w, w).
Definition getP : M BW FramePacer := fun w => (bp w, w).
Definition getSess : M BW SessionState := fun w => (sess (bs w), w).
Definition getLog : M BW (list Ev) := fun w => (log (bs w), w).
Definition updB (f : Boundary -> Boundary) : M BW unit := fun w => (tt, w <| bb := f (bb w) |>).
Definition updP (f : FramePacer -> FramePacer) : M BW unit := fun w => (tt, w <| bp := f (bp w) |>).
Definition ses {A} (m : M SW A) : M BW A := liftM bs (fun s w => w <| bs := s |>) m.
Definition bemit (e : Ev) : M BW unit := ses (emit e).

Section Boundary.
Context (host : Host).
Abbreviation rt := (h_rt host).

(** ** Clock and measurements *)
Definition now : M BW Z := l ← getLog; let t := h_now host l in bemit (EvNow t);; mret t.

(** [SubmissionWallScope]: the elapsed milliseconds of [m] are added to a field. *)
Definition measured {A} (add : double -> Boundary -> Boundary) (m : M BW A) : M BW A :=
  began ← now; a ← m; ended ← now;
  updB (add (ddiv (d_of_Z (ended - began)) (d_of_Z 1000000)));; mret a.

(** ** FramePacer *)
Definition workerReturn : M BW unit :=
  l ← getLog;
  let a := rt_wait rt l in
  bemit (EvPacerWait a.1);; updP (fun p => p <| result_ := a.1 |> <| pstate_ := a.2 |> <| done_ := true |>).
Definition workerTick : M BW unit :=
  p ← getP; l ← getLog;
  if pending_ p && negb (done_ p) && h_waitReturned host l then workerReturn else mret tt.

Definition kick : M BW bool :=
  p ← getP;
  if negb (pc_bound p) then mret false
  else if pending_ p then mret false
  else updP (fun p => p <| pending_ := true |> <| done_ := false |>);; bemit EvKick;; mret true.
Definition pending : M BW bool := p ← getP; mret (pending_ p).
Definition ready : M BW bool := workerTick;; p ← getP; mret (pending_ p && done_ p).
Definition take : M BW (option (XrResult * FrameState)) :=
  p ← getP;
  if negb (pending_ p) then mret None
  else
    (if done_ p then mret tt else workerReturn);;
    p ← getP;
    updP (fun p => p <| pending_ := false |> <| done_ := false |>);;
    mret (Some (result_ p, pstate_ p)).
(** [stop]: joining the worker waits for an xrWaitFrame in flight; a request
    the worker has not picked up yet is dropped. *)
Definition pacerStop : M BW unit :=
  p ← getP; l ← getLog;
  (if pending_ p && negb (done_ p) then
     if h_waitStarted host l then workerReturn
     else bemit EvUnkick;; updP (fun p => p <| pending_ := false |>)
   else mret tt);;
  updP (fun p => p <| pending_ := false |> <| done_ := false |>).
Definition pacerBind (bound : bool) : M BW unit := pacerStop;; updP (fun p => p <| pc_bound := bound |>).

(** ** Predictions *)
Definition noteReal (waited : XrResult) (predictedTime period : Z) : M BW unit :=
  if ((waited =? XR_SUCCESS) || (waited =? XR_SESSION_LOSS_PENDING)) && (0 <? predictedTime) then
    b ← getB;
    (if (0 <? lastReal_ b) && (0 <? period) then
       let missed := llround (ddiv (d_of_Z (predictedTime - lastReal_ b)) (d_of_Z period)) - 1 in
       let missed := if missed <? 0 then 0 else missed in
       updB (fun b => b <| lateFramesTotal_ := u64 (lateFramesTotal_ b + missed) |>
                        <| lateFramesWindow_ := u64 (lateFramesWindow_ b + missed) |>)
     else mret tt);;
    t ← now;
    updB (fun b => b <| lastReal_ := predictedTime |> <| lastPeriod_ := period |> <| lastRealAt_ := t |>)
  else mret tt.

Definition canSynthesize (b : Boundary) : bool :=
  (0 <? lastReal_ b) && (0 <? lastPeriod_ b) && negb (lastRealAt_ b =? 0).

Definition synthesizedTime (b : Boundary) : Z :=
  let elapsed := waitEntry_ b - lastRealAt_ b in
  let step := if elapsed <? lastPeriod_ b then lastPeriod_ b else elapsed in
  let cap := lastPeriod_ b * 2 in
  lastReal_ b + (if cap <? step then cap else step).

Definition admitFrame : M BW unit :=
  updB (fun b =>
    let f := if predictedDisplayTime (frame_ b) <? lastHandedOut_ b
             then (frame_ b) <| predictedDisplayTime := lastHandedOut_ b |> else frame_ b in
    b <| frame_ := f |> <| lastHandedOut_ := predictedDisplayTime f |>).

Definition estimateNow : M BW Z :=
  b ← getB;
  if negb (canSynthesize b) then mret 0
  else t ← now; mret (lastReal_ b + (t - lastRealAt_ b)).

Definition failWith (r : XrResult) : M BW XrResult :=
  updB (fun b => b <| failed_ := true |> <| blastResult_ := r |>);; mret r.

(** Taking the pacer's result and completing the deferred begin: the common
    part of [finish] and [clear].  [inl r]: the call returns [r]. *)
Definition completeDeferred : M BW (XrResult + XrResult) :=
  b ← getB;
  taken ← measured (fun d b => b <| pacerBlockMs_ := dadd (pacerBlockMs_ b) d |>)
            (if hasPacer b then take else mret None);
  updB (fun b => b <| bdeferred_ := false |>);;
  match taken with
  | None => r ← failWith XR_ERROR_CALL_ORDER_INVALID; mret (inl r)
  | Some (waited, fs) =>
      noteReal waited (fs_time fs) (fs_period fs);;
      r ← ses (beginDeferred rt waited fs);
      updB (fun b => b <| blastResult_ := r |>);;
      mret (inr r)
  end.

Definition begunOk (r : XrResult) : bool :=
  (r =? XR_SUCCESS) || (r =? XR_FRAME_DISCARDED) || (r =? XR_SESSION_LOSS_PENDING).

Definition clear (tid : Z) : M BW XrResult :=
  b ← getB;
  if negb (tid =? thread_ b) then mret XR_ERROR_CALL_ORDER_INVALID
  else if failed_ b then mret (blastResult_ b)
  else
    s ← getSess;
    let fin := updB (fun b => b <| accepted0 := false |> <| accepted1 := false |> <| geometryReady_ := false |>);;
               mret XR_SUCCESS in
    let endEmpty : M BW XrResult :=
      b ← getB;
      a ← ses (end_ rt (frame_ b) end0 (mkReady false false));
      updB (fun b => b <| frame_ := a.2 |> <| blastResult_ := a.1 |>);;
      if negb (a.1 =? XR_SUCCESS) then updB (fun b => b <| failed_ := true |>);; mret (a.1 : XrResult) else fin in
    if frameOpen_ s then
      if bdeferred_ b then
        c ← completeDeferred;
        match c with
        | inl r => mret r
        | inr r =>
            if negb (begunOk r) then updB (fun b => b <| failed_ := true |>);; mret r
            else updB (fun b => b <| drainedFrames_ := u64 (drainedFrames_ b + 1) |>);; endEmpty
        end
      else endEmpty
    else fin.

Definition sceneFinished (background pixels : bool) (r : XrResult) : M BW unit :=
  if background then mret tt else bemit (EvSceneFinished pixels r).

Definition compose (background : bool) : M BW (XrResult * Layer) :=
  l ← getLog; let a := h_compose host l background in bemit (EvCompose background a.1);; mret a.

(** The second half of [finish]: the begin is real. *)
Definition finishBegun (tid : Z) (background : bool) : M BW XrResult :=
  b ← getB; s ← getSess; l ← getLog;
  let pixels := geometryReady_ b && shouldRender (frame_ b) && negb (terminal_ s) &&
                (background || h_sceneLayerAvailable host l) in
  composed ← (if pixels then
                a ← compose background;
                let '(r, layer) := (a : XrResult * Layer) in
                if negb (r =? XR_SUCCESS) then
                  (if negb (XR_FAILED r) then _ ← clear tid; mret tt else mret tt);;
                  x ← failWith r; mret (Some x)
                else if negb (ly_type layer =? XR_TYPE_COMPOSITION_LAYER_PROJECTION) ||
                        bool_decide (ly_next layer <> None) || (ly_space layer =? 0) ||
                        negb (ly_viewCount layer =? 2) || bool_decide (ly_views layer = None) then
                  _ ← clear tid;
                  x ← failWith XR_ERROR_VALIDATION_FAILURE; mret (Some x)
                else mret None
              else mret None);
  match composed with
  | Some x => mret x
  | None =>
      let info := end0 <| ei_layerCount := if pixels then 1 else 0 |> <| ei_layers := if pixels then Some 1 else None |> in
      r ← measured (fun d b => b <| endFrameMs_ := dadd (endFrameMs_ b) d |>)
            (b ← getB;
             a ← ses (end_ rt (frame_ b) info (mkReady (geometryReady_ b) pixels));
             updB (fun b => b <| frame_ := a.2 |> <| blastResult_ := a.1 |>);; mret (a.1 : XrResult));
      sceneFinished background pixels r;;
      (if negb (r =? XR_SUCCESS) then updB (fun b => b <| failed_ := true |>) else mret tt);;
      b ← getB; s ← getSess;
      (if turbo_ b && (r =? XR_SUCCESS) && negb (terminal_ s) && hasPacer b then
         k ← kick; if (k : bool) then updB (fun b => b <| kicks_ := u64 (kicks_ b + 1) |>) else mret tt
       else mret tt);;
      mret r
  end.

Definition finish (tid : Z) (background : bool) : M BW XrResult :=
  b ← getB;
  if bdeferred_ b then
    c ← completeDeferred;
    match c with
    | inl r => mret r
    | inr r =>
        if negb (begunOk r) then
          updB (fun b => b <| failed_ := true |>);; sceneFinished background false r;; mret r
        else
          s ← getSess;
          updB (fun b => b <| frame_ := (frame_ b) <| shouldRender := frameShouldRender_ s |>
                                                 <| discarded := r =? XR_FRAME_DISCARDED |> |>
                           <| deferredFrames_ := u64 (deferredFrames_ b + 1) |>);;
          finishBegun tid background
    end
  else finishBegun tid background.

(** ** Opening a frame *)
Definition openSynthesized : M BW XrResult :=
  b ← getB;
  a ← ses (openDeferred (synthesizedTime b) (lastPeriod_ b) (frame_ b));
  updB (fun b => b <| frame_ := a.2 |> <| blastResult_ := a.1 |>);;
  if XR_FAILED a.1 then updB (fun b => b <| failed_ := true |>);; mret (a.1 : XrResult)
  else updB (fun b => b <| bdeferred_ := true |> <| synthesized_ := u64 (synthesized_ b + 1) |>);;
       admitFrame;; mret (a.1 : XrResult).

Definition consumePending : M BW XrResult :=
  taken ← measured (fun d b => b <| waitBlockMs_ := dadd (waitBlockMs_ b) d |>) take;
  let '(waited, fs) := default (XR_SUCCESS, fs0) taken in
  noteReal waited (fs_time fs) (fs_period fs);;
  b ← getB;
  a ← ses (beginWaited rt waited fs (frame_ b));
  updB (fun b => b <| frame_ := a.2 |> <| blastResult_ := a.1 |>);;
  if XR_FAILED a.1 then updB (fun b => b <| failed_ := true |>);; mret (a.1 : XrResult)
  else updB (fun b => if turbo_ b then b <| readyAtWait_ := u64 (readyAtWait_ b + 1) |> else b);;
       admitFrame;; mret (a.1 : XrResult).

Definition waitBlocking : M BW XrResult :=
  measured (fun d b => b <| waitBlockMs_ := dadd (waitBlockMs_ b) d |>)
    (b ← getB;
     a ← ses (waitAndBegin rt (frame_ b));
     updB (fun b => b <| frame_ := a.2 |> <| blastResult_ := a.1 |>));;
  b ← getB;
  if XR_FAILED (blastResult_ b) then updB (fun b => b <| failed_ := true |>);; mret (blastResult_ b)
  else noteReal XR_SUCCESS (predictedDisplayTime (frame_ b)) (predictedDisplayPeriod (frame_ b));;
       admitFrame;; mret (blastResult_ b).

Definition boundaryWait (tid : Z) (pacing : FramePacing) : M BW XrResult :=
  b ← getB;
  if negb (tid =? thread_ b) then mret XR_ERROR_CALL_ORDER_INVALID
  else if failed_ b then mret (blastResult_ b)
  else
    closed ← clear tid;
    if negb (closed =? XR_SUCCESS) then mret closed
    else
      updB (fun b => b <| frame_ := frame0 |> <| endFrameMs_ := d_zero |> <| waitBlockMs_ := d_zero |>
                       <| pacerBlockMs_ := d_zero |>);;
      t ← now;
      p ← getP;
      updB (fun b => b <| waitEntry_ := t |>
                       <| turbo_ := match pacing with PacingDeferred => hasPacer b && pc_bound p | _ => false end |>);;
      b ← getB;
      pend ← pending;
      if hasPacer b && pend then
        late ← (if turbo_ b then r ← ready; mret (negb r && canSynthesize b) else mret false);
        if (late : bool) then openSynthesized else consumePending
      else
        kicked ← (if turbo_ b && canSynthesize b then kick else mret false);
        if (kicked : bool) then updB (fun b => b <| kicks_ := u64 (kicks_ b + 1) |>);; openSynthesized
        else waitBlocking.

(** ** Submit *)
Definition setGeometryReady (tid : Z) (r : bool) : M BW unit :=
  b ← getB; s ← getSess;
  if (tid =? thread_ b) && frameOpen_ s && negb (accepted0 b) && negb (accepted1 b)
  then updB (fun b => b <| geometryReady_ := r |>) else mret tt.

Definition publish (tid eye : Z) : M BW (Z * bool) :=
  b ← getB; s ← getSess;
  if negb (tid =? thread_ b) then mret (VRCompositorError_InvalidTexture, false)
  else if negb (eye =? 0) && negb (eye =? 1) then mret (VRCompositorError_IndexOutOfRange, false)
  else if failed_ b || negb (frameOpen_ s) || (if eye =? 0 then accepted0 b else accepted1 b)
  then mret (VRCompositorError_InvalidTexture, false)
  else
    let pixels := geometryReady_ b && shouldRender (frame_ b) && negb (terminal_ s) in
    l ← getLog;
    let captured := h_capture host l eye pixels in
    bemit (EvCapture eye pixels captured);;
    if negb (captured =? VRCompositorError_None) then mret (captured, false)
    else
      updB (fun b => if eye =? 0 then b <| accepted0 := true |> else b <| accepted1 := true |>);;
      b ← getB; mret (VRCompositorError_None, accepted0 b && accepted1 b).

Definition finishPair (tid : Z) : M BW XrResult := finish tid false.

Definition submit (tid eye : Z) : M BW Z :=
  a ← publish tid eye;
  let '(captured, pairReady) := (a : Z * bool) in
  if negb (captured =? VRCompositorError_None) || negb pairReady then mret captured
  else r ← finishPair tid;
       mret (if r =? XR_SUCCESS then VRCompositorError_None else VRCompositorError_InvalidTexture).

Definition background (tid : Z) : M BW XrResult :=
  b ← getB; s ← getSess;
  if negb (tid =? thread_ b) then mret XR_ERROR_CALL_ORDER_INVALID
  else if failed_ b then mret (blastResult_ b)
  else if negb (frameOpen_ s) || accepted0 b || accepted1 b then mret XR_ERROR_CALL_ORDER_INVALID
  else finish tid true.

Definition drain (tid : Z) : M BW XrResult :=
  b ← getB;
  if negb (tid =? thread_ b) then mret XR_ERROR_CALL_ORDER_INVALID
  else if failed_ b then mret (blastResult_ b)
  else
    cleared ← clear tid;
    if negb (cleared =? XR_SUCCESS) then mret cleared
    else
      pend ← pending;
      (if hasPacer b && pend then
         taken ← take;
         let '(waited, fs) := default (XR_SUCCESS, fs0) taken in
         updB (fun b => b <| drainedWaits_ := u64 (drainedWaits_ b + 1) |>);;
         s ← getSess;
         if running_ s && negb (terminal_ s) &&
            ((waited =? XR_SUCCESS) || (waited =? XR_SESSION_LOSS_PENDING)) then
           noteReal waited (fs_time fs) (fs_period fs);;
           a ← ses (beginWaited rt waited fs frame0);
           if a.1 =? XR_SUCCESS then
             e ← ses (end_ rt a.2 end0 (mkReady false false));
             updB (fun b => (if XR_FAILED e.1 then b <| failed_ := true |> else b) <| blastResult_ := e.1 |>)
           else mret tt
         else mret tt
       else mret tt);;
      b ← getB; mret (blastResult_ b).

Definition takeLateFramesWindow : M BW Z :=
  b ← getB; updB (fun b => b <| lateFramesWindow_ := 0 |>);; mret (lateFramesWindow_ b).

(** ** The owner's operations on the boundary and, between them, on the session *)
Inductive BOp :=
| BWait (tid : Z) (p : FramePacing) | BGeometry (tid : Z) (r : bool) | BPublish (tid eye : Z)
| BFinishPair (tid : Z) | BSubmit (tid eye : Z) | BBackground (tid : Z) | BClear (tid : Z) | BDrain (tid : Z)
| BEstimate | BTakeWindow | BPacerStop | BPacerBind (b : bool)
| BSessPoll (n : nat) | BSessStart | BSessStop | BSessAbandon.

Definition done_op {A} (m : M BW A) : M BW unit := _ ← m; mret tt.

Definition runBOp (o : BOp) : M BW unit :=
  match o with
  | BWait t p => done_op (boundaryWait t p) | BGeometry t r => setGeometryReady t r
  | BPublish t e => done_op (publish t e) | BFinishPair t => done_op (finishPair t)
  | BSubmit t e => done_op (submit t e) | BBackground t => done_op (background t)
  | BClear t => done_op (clear t) | BDrain t => done_op (drain t)
  | BEstimate => done_op estimateNow | BTakeWindow => done_op takeLateFramesWindow
  | BPacerStop => pacerStop | BPacerBind b => pacerBind b
  | BSessPoll n => done_op (ses (pollEvents rt n)) | BSessStart => done_op (ses (startIfReady rt))
  | BSessStop => done_op (ses (stop rt)) | BSessAbandon => ses abandonAfterOwnerDestruction
  end.

Definition runBOps (os : list BOp) (w : BW) : BW := foldl (fun w o => (runBOp o w).2) w os.
End Boundary.

(** ** Symbolic execution *)
Lemma wp_getB Q w : Q (bb w) w -> wp getB Q w. Proof. done. Qed.
Lemma wp_getP Q w : Q (bp w) w -> wp getP Q w. Proof. done. Qed.
Lemma wp_getSess Q w : Q (sess (bs w)) w -> wp getSess Q w. Proof. done. Qed.
Lemma wp_getLog Q w : Q (log (bs w)) w -> wp getLog Q w. Proof. done. Qed.
Lemma wp_updB f (Q : unit -> BW -> Prop) w : Q tt (mkBW (bs w) (f (bb w)) (bp w)) -> wp (updB f) Q w.
Proof. done. Qed.
Lemma wp_updP f (Q : unit -> BW -> Prop) w : Q tt (mkBW (bs w) (bb w) (f (bp w))) -> wp (updP f) Q w.
Proof. done. Qed.
Lemma wp_ses {A} (m : M SW A) Q w :
  wp m (fun a s => Q a (mkBW s (bb w) (bp w))) (bs w) -> wp (ses m) Q w.
Proof. cbv [wp ses liftM]. by destruct (m (bs w)). Qed.
Lemma wp_bemit e (Q : unit -> BW -> Prop) w :
  Q tt (mkBW (mkSW (sess (bs w)) (e :: log (bs w))) (bb w) (bp w)) -> wp (bemit e) Q w.
Proof. done. Qed.
Lemma wp_if {W A} (b : bool) (m1 m2 : M W A) Q w :
  (b = true -> wp m1 Q w) -> (b = false -> wp m2 Q w) -> wp (if b then m1 else m2) Q w.
Proof. destruct b; auto. Qed.

(** ** The wait discipline: one [xrWaitFrame] at a time, and each
    [xrBeginFrame] consumes one successful wait made for it. *)
Record Waits := mkWaits { flight : bool; credit : bool }.

Definition waits1 (s : Waits) (e : Ev) : option Waits :=
  match e with
  | EvKick => if flight s then None else Some (mkWaits true false)
  | EvUnkick => if flight s then Some (mkWaits false false) else None
  | EvPacerWait r => if flight s then Some (mkWaits false (ok2 r)) else None
  | EvWait r => if flight s then None else Some (mkWaits false (ok2 r))
  | EvBegin _ => if negb (flight s) && credit s then Some (mkWaits false false) else None
  | _ => Some s
  end.

Fixpoint waits (l : list Ev) : option Waits :=
  match l with [] => Some (mkWaits false false) | e :: l => s ← waits l; waits1 s e end.

(** The pacer's flags against the discipline's state. *)
Record WI (w : BW) : Prop := {
  wi_waits : exists st, waits (log (bs w)) = Some st /\ flight st = pending_ (bp w) && negb (done_ (bp w)) /\
    (pending_ (bp w) = true -> done_ (bp w) = true -> ok2 (result_ (bp w)) = true -> credit st = true);
  wi_none : hasPacer (bb w) = false -> pending_ (bp w) = false;
  wi_turbo : turbo_ (bb w) = true -> hasPacer (bb w) = true }.

(** Steps that touch neither the waits nor the pacer. *)
Record same (w w' : BW) : Prop := {
  sm_waits : waits (log (bs w')) = waits (log (bs w)); sm_pacer : bp w' = bp w;
  sm_has : hasPacer (bb w') = hasPacer (bb w); sm_turbo : turbo_ (bb w') = turbo_ (bb w) }.

#[export] Instance same_preorder : PreOrder same.
Proof. split; [done|]. intros x y z [] []. split; congruence. Qed.

Definition neutral {A} (m : M BW A) : Prop := forall w, same w (m w).2.

Lemma wp_invoke_any {A} fn (ask : list Ev -> A) ev junk (Q : A -> SW -> Prop) w :
  (forall a, Q a (mkSW (sess w) (ev a :: log w))) -> Q junk (mkSW (sess w) (EvNull :: log w)) ->
  wp (invoke fn ask ev junk) Q w.
Proof. unfold wp, invoke. intros H1 H2. destruct (fn _); [apply H1 | apply H2]. Qed.

(** Sessions steps without a wait or a begin leave the discipline alone. *)
Definition inert {A} (m : M SW A) : Prop := forall w, waits (log (m w).2) = waits (log w).

Ltac sx :=
  cbv beta zeta;
  match goal with
  | |- wp (_ ≫= _) _ _ => apply wp_bind
  | |- wp (mret _) _ _ => apply wp_ret
  | |- wp getS _ _ => apply wp_getS
  | |- wp (note _) _ _ => apply wp_note; intros ?x ?s' ?Hq
  | |- wp (fail _) _ _ => apply wp_fail
  | |- wp (upd _) _ _ => apply wp_upd
  | |- wp clearFrame _ _ => apply wp_upd
  | |- wp (emit _) _ _ => apply wp_emit
  | |- wp (call_poll _) _ _ => apply wp_invoke_any; [intros [?r ?ev]|]
  | |- wp (call_wait _) _ _ => apply wp_invoke_any; [intros [?r ?fs]|]
  | |- wp (call_beginSession _) _ _ => apply wp_invoke_any; [intros ?r|]
  | |- wp (call_endSession _) _ _ => apply wp_invoke_any; [intros ?r|]
  | |- wp (call_beginFrame _) _ _ => apply wp_invoke_any; [intros ?r|]
  | |- wp (call_endFrame _ _) _ _ => apply wp_invoke_any; [intros ?r|]
  | |- wp (let '(_, _) := ?x in _) _ _ => destruct x eqn:?
  | |- wp (if ?b then _ else _) _ _ => destruct b eqn:?
  | |- wp (match ?x with _ => _ end) _ _ => destruct x eqn:?
  end.

Lemma waits_inert e l : (forall s, waits1 s e = Some s) -> waits (e :: l) = waits l.
Proof. intros H. cbn. destruct (waits l); cbn; [by rewrite H | done]. Qed.

Lemma inert_wp {A} (m : M SW A) : (forall w, wp m (fun _ w' => waits (log w') = waits (log w)) w) -> inert m.
Proof. intros H w. exact (wp_run _ _ _ (H w)). Qed.

Lemma wp_inert {A} (m : M SW A) w : inert m -> wp m (fun _ w' => waits (log w') = waits (log w)) w.
Proof. intros H. specialize (H w). unfold wp. by destruct (m w). Qed.

Ltac inert_solve := apply inert_wp; intros [?s ?l]; repeat sx; cbn [log sess] in *; rewrite ?waits_inert by done; done.

Section Inert.
Context (rt : Runtime).
Lemma inert_finish i b : inert (XrSession.finish rt i b). Proof. unfold XrSession.finish. inert_solve. Qed.
Lemma inert_openDeferred t p f : inert (openDeferred t p f). Proof. unfold openDeferred. inert_solve. Qed.
Lemma inert_start : inert (startIfReady rt). Proof. unfold startIfReady. inert_solve. Qed.
Lemma inert_abandon : inert abandonAfterOwnerDestruction. Proof. unfold abandonAfterOwnerDestruction. inert_solve. Qed.
Lemma inert_end f i rr : inert (end_ rt f i rr).
Proof.
  apply inert_wp. intros w. unfold end_. repeat first [done | match goal with
    | |- wp (XrSession.finish _ _ _) _ _ => eapply wp_mono; [apply wp_inert, inert_finish | intros ? ? ?; cbn beta] end | sx].
Qed.
Lemma inert_handle e : inert (handleEvent e). Proof. unfold handleEvent, unhandled. inert_solve. Qed.
(** Sequencing inert steps. *)
Lemma inert_bind {A B} (m : M SW A) (k : A -> M SW B) : inert m -> (forall a, inert (k a)) -> inert (m ≫= k).
Proof. intros Hm Hk w. rewrite bind_run. by rewrite Hk, Hm. Qed.
Lemma inert_ret {A} (a : A) : inert (mret a). Proof. done. Qed.
Lemma inert_poll : inert (call_poll rt).
Proof. apply inert_wp. intros w. apply wp_invoke_any; intros; cbn [log]; by rewrite waits_inert. Qed.
Lemma inert_getS : inert getS. Proof. done. Qed.
Lemma inert_fail r : inert (fail r). Proof. done. Qed.

Lemma inert_pollLoop n : inert (pollLoop rt n).
Proof.
  induction n as [|n IH]; cbn [pollLoop]; [by apply inert_bind|].
  apply inert_bind; [apply inert_poll | intros [r e]].
  destruct (r =? XR_EVENT_UNAVAILABLE); [by apply inert_bind|].
  destruct (negb (r =? XR_SUCCESS)); [apply inert_fail|].
  apply inert_bind; [apply inert_handle | intros [x|]]; [apply inert_ret | apply IH].
Qed.

Lemma inert_pollEvents n : inert (pollEvents rt n).
Proof. apply inert_bind; [done | intros s]. repeat case_match; try done. apply inert_pollLoop. Qed.

Lemma inert_stop : inert (stop rt).
Proof.
  apply inert_bind; [done | intros s]. destruct (hardFailure_ s); [done|].
  destruct (negb (bool_decide (state_ s = ST_STOPPING)) || negb (running_ s)); [done|].
  destruct (frameOpen_ s && deferred_ s); [done|].
  apply inert_bind; [|intros [r|]; [done|]; inert_solve].
  destruct (frameOpen_ s); [|done]. apply inert_bind; [apply inert_finish | done].
Qed.

(** The steps with a wait or a begin. *)
Lemma waits_begin r l st : waits l = Some st -> flight st = false -> credit st = true ->
  waits (EvBegin r :: l) = Some (mkWaits false false).
Proof. intros H1 H2 H3. cbn. rewrite H1. cbn. by rewrite H2, H3. Qed.

Definition settled (l : list Ev) : Prop := exists st, waits l = Some st /\ flight st = false.

Lemma beginFromWait_waits r fs o w :
  settled (log w) -> (ok2 r = true -> exists st, waits (log w) = Some st /\ flight st = false /\ credit st = true) ->
  wp (beginFromWait rt r fs o) (fun _ w' => settled (log w')) w.
Proof.
  intros Hs Hc. unfold beginFromWait. destruct w as [s l]. cbn in *.
  destruct (XR_FAILED r) eqn:Hf; [by repeat sx|].
  destruct (negb (r =? XR_SUCCESS) && negb (r =? XR_SESSION_LOSS_PENDING)) eqn:Hg; [by repeat sx|].
  destruct (Hc (ok2_guard _ Hg)) as (st & H1 & H2 & H3).
  repeat sx; cbn [log sess].
  all: first [ eexists; split; [by eapply waits_begin | done] | exists st; by rewrite waits_inert ].
Qed.

Lemma waitAndBegin_waits f w : settled (log w) -> wp (waitAndBegin rt f) (fun _ w' => settled (log w')) w.
Proof.
  intros Hs. unfold waitAndBegin. do 2 sx. do 2 (apply wp_if; intros; [by sx|]). sx.
  destruct Hs as (st & H1 & H2). apply wp_invoke_any; [intros [r fs]|]; cbv iota beta; apply beginFromWait_waits; unfold settled; cbn.
  - rewrite H1. cbn. rewrite H2. by eexists.
  - intros ->. rewrite H1. cbn. rewrite H2. by eexists.
  - rewrite H1. by exists st.
  - done.
Qed.

(** A taken wait that may be begun. *)
Definition mayBegin (r : XrResult) (l : list Ev) : Prop :=
  exists st, waits l = Some st /\ flight st = false /\ (ok2 r = true -> credit st = true).

Lemma mayBegin_settled r l : mayBegin r l -> settled l.
Proof. intros (st & ? & ? & ?). by exists st. Qed.

Lemma beginWaited_waits r fs f w : mayBegin r (log w) -> wp (beginWaited rt r fs f) (fun _ w' => settled (log w')) w.
Proof.
  intros Hm. pose proof (mayBegin_settled _ _ Hm). destruct Hm as (st & ? & ? & ?).
  unfold beginWaited. do 2 sx. do 2 (apply wp_if; intros; [by sx|]).
  apply beginFromWait_waits; eauto.
Qed.

Lemma beginDeferred_waits r fs w : mayBegin r (log w) -> wp (beginDeferred rt r fs) (fun _ w' => settled (log w')) w.
Proof.
  intros Hm. pose proof (mayBegin_settled _ _ Hm). destruct Hm as (st & H1 & H2 & H3). destruct w as [s l]. cbn in *.
  unfold beginDeferred. do 2 sx. do 2 (apply wp_if; intros; [by sx|]). do 2 sx.
  destruct (XR_FAILED r) eqn:Hf; [by repeat sx|].
  destruct (negb (r =? XR_SUCCESS) && negb (r =? XR_SESSION_LOSS_PENDING)) eqn:Hg; [by repeat sx|].
  specialize (H3 (ok2_guard _ Hg)). cbn in *.
  repeat sx; cbn [log sess].
  all: first [ eexists; split; [by eapply waits_begin | done] | exists st; by rewrite waits_inert ].
Qed.
End Inert.

(** ** Neutral steps of the boundary *)
Lemma wp_neutral {A} (m : M BW A) (Q : A -> BW -> Prop) w :
  neutral m -> (forall a w', same w w' -> Q a w') -> wp m Q w.
Proof. intros H HQ. specialize (H w). unfold wp. destruct (m w). by apply HQ. Qed.

Lemma neutral_bind {A B} (m : M BW A) (k : A -> M BW B) :
  neutral m -> (forall a, neutral (k a)) -> neutral (m ≫= k).
Proof. intros Hm Hk w. rewrite bind_run. etrans; [apply Hm | apply Hk]. Qed.
Lemma neutral_ret {A} (a : A) : neutral (mret a). Proof. done. Qed.
Lemma neutral_if {A} (b : bool) (m1 m2 : M BW A) : neutral m1 -> neutral m2 -> neutral (if b then m1 else m2).
Proof. by destruct b. Qed.
Lemma neutral_updB f :
  (forall b, hasPacer (f b) = hasPacer b /\ turbo_ (f b) = turbo_ b) -> neutral (updB f).
Proof. intros H w. destruct (H (bb w)). split; cbn; done. Qed.
Lemma neutral_ses {A} (m : M SW A) : inert m -> neutral (ses m).
Proof. intros H w. specialize (H (bs w)). unfold ses, liftM. by destruct (m (bs w)). Qed.
Lemma neutral_emit e : (forall s, waits1 s e = Some s) -> neutral (bemit e).
Proof. intros H w. split; cbn [bs log bp bb snd]; try done. by apply waits_inert. Qed.

Create HintDb neutral.
#[export] Hint Resolve neutral_ret : neutral.
#[export] Hint Resolve inert_finish inert_openDeferred inert_start inert_abandon inert_end inert_stop
  inert_pollEvents : neutral.

Lemma neutral_getB : neutral getB. Proof. done. Qed.
Lemma neutral_getP : neutral getP. Proof. done. Qed.
Lemma neutral_getSess : neutral getSess. Proof. done. Qed.
Lemma neutral_getLog : neutral getLog. Proof. done. Qed.
#[export] Hint Resolve neutral_getB neutral_getP neutral_getSess neutral_getLog : neutral.

(** Proves [neutral m] by the syntax of [m]. *)
Ltac neutral :=
  cbv beta zeta;
  lazymatch goal with
  | |- neutral (_ ≫= _) => apply neutral_bind; [neutral | intros; neutral]
  | |- neutral (mret _) => apply neutral_ret
  | |- neutral (if _ then _ else _) => apply neutral_if; neutral
  | |- neutral (updB _) => apply neutral_updB; intros ?b; repeat case_match; done
  | |- neutral (bemit _) => apply neutral_emit; done
  | |- neutral (ses _) => apply neutral_ses; solve [auto 1 with neutral nocore]
  | |- neutral (match ?x with _ => _ end) => destruct x; neutral
  | |- neutral _ => solve [auto 1 with neutral nocore]
  end.

Section Wait.
Context (host : Host).

Lemma neutral_now : neutral (now host). Proof. unfold now. neutral. Qed.
Hint Resolve neutral_now : neutral.
Lemma neutral_measured {A} add (m : M BW A) :
  (forall d b, hasPacer (add d b) = hasPacer b /\ turbo_ (add d b) = turbo_ b) -> neutral m ->
  neutral (measured host add m).
Proof.
  intros H Hm. unfold measured. apply neutral_bind; [neutral | intros t].
  apply neutral_bind; [done | intros a]. apply neutral_bind; [neutral | intros u].
  apply neutral_bind; [by apply neutral_updB | done].
Qed.
Lemma neutral_noteReal r t p : neutral (noteReal host r t p). Proof. unfold noteReal. neutral. Qed.
Hint Resolve neutral_noteReal : neutral.
Lemma neutral_admit : neutral admitFrame. Proof. unfold admitFrame. neutral. Qed.
Lemma neutral_failWith r : neutral (failWith r). Proof. unfold failWith. neutral. Qed.
Lemma neutral_scene b p r : neutral (sceneFinished b p r). Proof. unfold sceneFinished. neutral. Qed.
Lemma neutral_compose b : neutral (compose host b). Proof. unfold compose. neutral. Qed.
Hint Resolve neutral_admit neutral_failWith neutral_scene neutral_compose : neutral.
Lemma neutral_publish t e : neutral (publish host t e). Proof. unfold publish. neutral. Qed.
Lemma neutral_geometry t r : neutral (setGeometryReady t r). Proof. unfold setGeometryReady. neutral. Qed.
Lemma neutral_estimate : neutral (estimateNow host). Proof. unfold estimateNow. neutral. Qed.
Lemma neutral_window : neutral takeLateFramesWindow. Proof. unfold takeLateFramesWindow. neutral. Qed.
Lemma neutral_open : neutral openSynthesized. Proof. unfold openSynthesized. neutral. Qed.

(** ** The discipline is preserved *)
Lemma WI_same w w' : same w w' -> WI w -> WI w'.
Proof. intros [Hw Hp Hh Ht] [H1 H2 H3]. split; rewrite ?Hw, ?Hp, ?Hh, ?Ht; done. Qed.

Lemma WI_settled w : WI w -> pending_ (bp w) = false -> settled (log (bs w)).
Proof. intros [(st & Hl & Hf & _) _ _] Hp. exists st. by rewrite Hp in Hf. Qed.

(** After a session step that needs the settled discipline. *)
Lemma WI_after w s b : WI w -> pending_ (bp w) = false -> settled (log s) ->
  hasPacer b = hasPacer (bb w) -> turbo_ b = turbo_ (bb w) -> WI (mkBW s b (bp w)).
Proof.
  intros [_ H2 H3] Hp (st & Hl & Hf) Hh Ht. split; cbn; rewrite ?Hh, ?Ht; try done.
  exists st. rewrite Hp. split_and!; done.
Qed.

Lemma WI_neutral {A} (m : M BW A) w : neutral m -> WI w -> wp m (fun _ => WI) w.
Proof. intros Hn Hw. apply wp_neutral; [done|]. eauto using WI_same. Qed.

(** What the pacer's steps guarantee besides the discipline. *)
Definition kept (w w' : BW) : Prop := hasPacer (bb w') = hasPacer (bb w) /\ turbo_ (bb w') = turbo_ (bb w).

Lemma WI_workerReturn w :
  WI w -> pending_ (bp w) = true -> done_ (bp w) = false ->
  wp (workerReturn host) (fun _ w' => WI w' /\ pending_ (bp w') = true /\ done_ (bp w') = true /\ kept w w') w.
Proof.
  intros [(st & Hl & Hf & Hc) H2 H3] Hp Hd. unfold workerReturn. apply wp_bind, wp_getLog.
  apply wp_bind, wp_bemit, wp_updP. cbn. rewrite Hp, Hd in *. split; [|done]. split; cbn; try done; [|by rewrite Hp].
  rewrite Hl. cbn. rewrite Hf. eexists. split_and!; try done; by rewrite ?Hp.
Qed.

Lemma WI_tick w : WI w -> wp (workerTick host) (fun _ w' => WI w' /\ pending_ (bp w') = pending_ (bp w) /\ kept w w') w.
Proof.
  intros Hw. unfold workerTick. apply wp_bind, wp_getP, wp_bind, wp_getLog. apply wp_if; intros Hb.
  - bool_solve. eapply wp_mono; [by apply WI_workerReturn|]. intros _ w' (? & Hp & _ & Hk). by rewrite Hp.
  - by apply wp_ret.
Qed.

Lemma WI_take w : WI w -> wp (take host) (fun o w' => WI w' /\ kept w w' /\
  match o with
  | Some (r, _) => pending_ (bp w') = false /\ mayBegin r (log (bs w'))
  | None => pending_ (bp w) = false /\ pending_ (bp w') = false
  end) w.
Proof.
  intros Hw. unfold take. apply wp_bind, wp_getP.
  destruct (pending_ (bp w)) eqn:Hp; cbn [negb]; [|by apply wp_ret].
  apply wp_bind.
  apply (wp_mono _ (fun _ w' => WI w' /\ pending_ (bp w') = true /\ done_ (bp w') = true /\ kept w w')).
  { destruct (done_ (bp w)) eqn:Hd; [by apply wp_ret | by apply WI_workerReturn]. }
  intros _ w1 ([(st & Hl & Hf & Hc) H2 H3] & Hp1 & Hd1 & Hk). apply wp_bind, wp_getP, wp_bind, wp_updP, wp_ret. cbn.
  rewrite Hp1, Hd1 in *. split_and!; try done.
  - split; cbn; try done. exists st. by split_and!.
  - exists st. auto.
Qed.

Lemma WI_kick w : WI w -> hasPacer (bb w) = true -> wp kick (fun _ w' => WI w' /\ kept w w') w.
Proof.
  intros Hw Hh. unfold kick. apply wp_bind, wp_getP.
  apply wp_if; intros; [by apply wp_ret|]. apply wp_if; intros Hp; [by apply wp_ret|].
  destruct Hw as [(st & Hl & Hf & Hc) H2 H3]. rewrite Hp in Hf.
  apply wp_bind, wp_updP, wp_bind, wp_bemit, wp_ret. split; [|done]. split; cbn; try done; [|congruence].
  rewrite Hl. cbn. rewrite Hf. by eexists.
Qed.

Lemma wp_measured {A} add (m : M BW A) Q w :
  (forall d b, hasPacer (add d b) = hasPacer b /\ turbo_ (add d b) = turbo_ b) ->
  (forall w1, same w w1 -> wp m (fun a w2 => forall w3, same w2 w3 -> Q a w3) w1) ->
  wp (measured host add m) Q w.
Proof.
  intros Ha H. unfold measured. apply wp_bind, wp_neutral; [apply neutral_now|]. intros t w1 H1.
  apply wp_bind. eapply wp_mono; [by apply H|]. intros a w2 H2. apply wp_bind, wp_neutral; [apply neutral_now|].
  intros u w3 H3. apply wp_bind, wp_neutral; [by apply neutral_updB|]. intros [] w4 H4. apply wp_ret, H2.
  by etrans.
Qed.

Lemma mayBegin_same r w w' : same w w' -> mayBegin r (log (bs w)) -> mayBegin r (log (bs w')).
Proof. intros [H _ _ _] (st & Hl & Hx). exists st. by rewrite H. Qed.

(** A begin for a taken wait. *)
Lemma WI_ses_begin {A} (m : M SW A) r w :
  (forall v, mayBegin r (log v) -> wp m (fun _ v' => settled (log v')) v) ->
  WI w -> pending_ (bp w) = false -> mayBegin r (log (bs w)) ->
  wp (ses m) (fun _ w' => WI w' /\ pending_ (bp w') = false) w.
Proof.
  intros Hm Hw Hp Hb. apply wp_ses. eapply wp_mono; [by apply Hm|].
  intros a v Hv. split; [by apply WI_after | done].
Qed.

Lemma WI_completeDeferred w : WI w -> wp (completeDeferred host) (fun _ => WI) w.
Proof.
  intros Hw. unfold completeDeferred. apply wp_bind, wp_getB, wp_bind, wp_measured; [done|].
  intros w1 H1. pose proof (WI_same _ _ H1 Hw) as Hw1.
  apply (wp_mono _ (fun o w2 => WI w2 /\ match o with
     Some (r, _) => pending_ (bp w2) = false /\ mayBegin r (log (bs w2)) | None => True end)).
  { destruct (hasPacer (bb w)); [|by apply wp_ret].
    eapply wp_mono; [by apply WI_take|]. intros [[r fs]|] w2; intuition. }
  intros o w2 [Hw2 Ho] w3 H3. apply wp_bind, wp_neutral; [neutral|]. intros [] w4 H4.
  assert (H24 : same w2 w4) by (by etrans). pose proof (WI_same _ _ H24 Hw2) as Hw4.
  destruct o as [[r fs]|]; [|apply WI_neutral; [neutral|done]].
  destruct Ho as [Hp Hb]. apply (mayBegin_same _ _ _ H24) in Hb. rewrite <- (sm_pacer _ _ H24) in Hp.
  apply wp_bind, wp_neutral; [neutral|]. intros [] w5 H5. apply wp_bind.
  eapply wp_mono; [eapply (WI_ses_begin _ r)|].
  - intros v Hv. by apply beginDeferred_waits.
  - by eapply WI_same.
  - by rewrite (sm_pacer _ _ H5).
  - by eapply mayBegin_same.
  - intros x w6 [Hw6 _]. by apply WI_neutral; [neutral|].
Qed.

Ltac seqWI := apply wp_bind; eapply wp_mono; [|intros ? ?w ?Hw].

Lemma WI_bind {A B} (m : M BW A) (k : A -> M BW B) w :
  wp m (fun _ => WI) w -> (forall a w', WI w' -> wp (k a) (fun _ => WI) w') -> wp (m ≫= k) (fun _ => WI) w.
Proof. intros Hm Hk. apply wp_bind. eapply wp_mono; [done | auto]. Qed.

Ltac wi := apply WI_neutral; [neutral | assumption].

Lemma WI_clear t w : WI w -> wp (clear host t) (fun _ => WI) w.
Proof.
  intros Hw. unfold clear. apply wp_bind, wp_getB.
  apply wp_if; intros _; [wi|]. apply wp_if; intros _; [wi|]. apply wp_bind, wp_getSess. cbv zeta.
  apply wp_if; intros _; [|wi]. apply wp_if; intros _; [|wi].
  apply WI_bind; [by apply WI_completeDeferred|]. intros [r|r] w1 Hw1; [wi|].
  apply wp_if; intros _; wi.
Qed.

Lemma WI_finishBegun t b w : WI w -> wp (finishBegun host t b) (fun _ => WI) w.
Proof.
  intros Hw. unfold finishBegun. do 3 (apply WI_bind; [wi | intros ? ? ?]). cbv zeta.
  apply WI_bind.
  - apply wp_if; intros _; [|wi]. apply WI_bind; [wi | intros [r layer] w1 Hw1].
    apply wp_if; intros _; [|apply wp_if; intros _; [|wi]].
    + apply WI_bind; [|intros ? ? ?; wi]. apply wp_if; intros _; [|wi].
      apply WI_bind; [by apply WI_clear | intros ? ? ?; wi].
    + apply WI_bind; [by apply WI_clear | intros ? ? ?; wi].
  - intros [x|] w1 Hw1; [wi|]. apply WI_bind; [apply WI_neutral; [apply neutral_measured; [done | neutral] | done]|].
    intros r w2 Hw2. apply WI_bind; [wi | intros ? ? ?]. apply WI_bind; [wi | intros ? ? ?].
    apply wp_bind, wp_getB, wp_bind, wp_getSess. apply WI_bind; [|intros; wi].
    apply wp_if; intros Hk; [|wi]. bool_solve. apply wp_bind. eapply wp_mono; [by apply WI_kick|].
    intros k w4 [? _]. wi.
Qed.

Lemma WI_finish t b w : WI w -> wp (finish host t b) (fun _ => WI) w.
Proof.
  intros Hw. unfold finish. apply wp_bind, wp_getB. apply wp_if; intros _; [|by apply WI_finishBegun].
  apply WI_bind; [by apply WI_completeDeferred|]. intros [r|r] w1 Hw1; [wi|].
  apply wp_if; intros _; [wi|]. apply wp_bind, wp_getSess.
  apply WI_bind; [wi | intros ? ? ?]. by apply WI_finishBegun.
Qed.

Lemma WI_consume w : WI w -> pending_ (bp w) = true -> wp (consumePending host) (fun _ => WI) w.
Proof.
  intros Hw Hp. unfold consumePending. apply wp_bind, wp_measured; [done|]. intros w1 H1.
  eapply wp_mono; [apply WI_take; by eapply WI_same|].
  intros [[r fs]|] w2 (Hw2 & _ & H2) w3 H3.
  - destruct H2 as [Hp2 Hb]. cbn. apply wp_bind, wp_neutral; [neutral|]. intros [] w4 H4.
    assert (H24 : same w2 w4) by (by etrans). apply wp_bind, wp_getB, wp_bind.
    eapply wp_mono; [eapply (WI_ses_begin _ r)|].
    + intros v Hv. by apply beginWaited_waits.
    + by eapply WI_same.
    + by rewrite (sm_pacer _ _ H24).
    + by eapply mayBegin_same.
    + intros x w6 [Hw6 _]. by apply WI_neutral; [neutral|].
  - destruct H2 as [H2 _]. rewrite (sm_pacer _ _ H1) in H2. congruence.
Qed.

Lemma WI_blocking w : WI w -> pending_ (bp w) = false -> wp (waitBlocking host) (fun _ => WI) w.
Proof.
  intros Hw Hp. unfold waitBlocking. apply wp_bind, wp_measured; [done|]. intros w1 H1.
  apply wp_bind, wp_getB, wp_bind, wp_ses.
  eapply wp_mono; [apply waitAndBegin_waits; apply WI_settled; [by eapply WI_same | by rewrite (sm_pacer _ _ H1)]|].
  intros [r f] v Hv. apply wp_updB. intros w3 H3.
  assert (Hw3 : WI w3).
  { eapply WI_same; [done|]. pose proof (WI_same _ _ H1 Hw) as Hw1.
    apply (WI_after w1); try done. by rewrite (sm_pacer _ _ H1). }
  by apply WI_neutral; [neutral|].
Qed.

Lemma WI_ready w : WI w -> wp (ready host) (fun _ w' => WI w' /\ pending_ (bp w') = pending_ (bp w)) w.
Proof.
  intros Hw. unfold ready. apply wp_bind. eapply wp_mono; [by apply WI_tick|].
  intros _ w1 (? & ? & _). by apply wp_bind, wp_getP, wp_ret.
Qed.

Lemma kick_refused w : pending_ (bp w) = false -> wp kick (fun k w' => k = false -> pending_ (bp w') = false) w.
Proof.
  intros Hp. unfold kick. apply wp_bind, wp_getP. apply wp_if; intros; [by apply wp_ret|].
  apply wp_if; intros; [by apply wp_ret|]. apply wp_bind, wp_updP, wp_bind, wp_bemit, wp_ret. done.
Qed.

Lemma WI_boundaryWait t p w : WI w -> wp (boundaryWait host t p) (fun _ => WI) w.
Proof.
  intros Hw. unfold boundaryWait. apply wp_bind, wp_getB.
  apply wp_if; intros _; [wi|]. apply wp_if; intros _; [wi|].
  apply WI_bind; [by apply WI_clear|]. intros c w1 Hw1. apply wp_if; intros _; [wi|].
  apply WI_bind; [wi|]. intros _ w2 Hw2. apply WI_bind; [wi|]. intros now0 w3 Hw3.
  apply wp_bind, wp_getP, wp_bind, wp_updB, wp_bind, wp_getB. cbn [bb turbo_ hasPacer].
  match goal with |- wp _ _ ?w => assert (Hw4 : WI w) end.
  { destruct Hw3 as [H1 H2 H3]. split; cbn; try done. destruct p; [done|]. intros E. by bool_solve. }
  match goal with |- wp _ _ ?w => set (w4 := w) in * end.
  apply wp_bind. unfold pending at 1. apply wp_bind, wp_getP, wp_ret. apply wp_if; intros Hb.
  - bool_solve. apply wp_bind.
    apply (wp_mono _ (fun _ w' => WI w' /\ pending_ (bp w') = true)).
    + apply wp_if; intros _; [|by apply wp_ret]. apply wp_bind. eapply wp_mono; [by apply WI_ready|].
      intros r w5 [? Hp]. apply wp_ret. split; [done|]. by rewrite Hp.
    + intros [] w5 [Hw5 Hp]; [wi || (apply WI_neutral; [apply neutral_open | done]) | by apply WI_consume].
  - apply wp_bind. apply (wp_mono _ (fun k w' => WI w' /\ (k = false -> pending_ (bp w') = false))).
    + apply wp_if; intros Hk.
      * apply andb_true_iff in Hk as [Hk _]. assert (Hh : hasPacer (bb w4) = true) by by apply (wi_turbo _ Hw4).
        assert (Hpn : pending_ (bp w4) = false).
        { change (hasPacer (bb w4) && pending_ (bp w4) = false) in Hb. by rewrite Hh in Hb. }
        clearbody w4. unfold wp. pose proof (WI_kick _ Hw4 Hh) as Hki. pose proof (kick_refused w4 Hpn) as Hkr.
        unfold wp in Hki, Hkr. destruct (kick w4) as [k w5]. destruct Hki. by split.
      * apply wp_ret. split; [done|]. intros _. change (hasPacer (bb w4) && pending_ (bp w4) = false) in Hb.
        destruct (hasPacer (bb w4)) eqn:Hh; [done | by apply (wi_none _ Hw4)].
    + intros [] w5 [Hw5 Hp].
      * apply WI_bind; [wi|]. intros _ w6 Hw6. apply WI_neutral; [apply neutral_open | done].
      * apply WI_blocking; auto.
Qed.

Lemma WI_drain t w : WI w -> wp (drain host t) (fun _ => WI) w.
Proof.
  intros Hw. unfold drain. apply wp_bind, wp_getB.
  apply wp_if; intros _; [wi|]. apply wp_if; intros _; [wi|].
  apply WI_bind; [by apply WI_clear|]. intros c w1 Hw1. apply wp_if; intros _; [wi|].
  apply wp_bind. unfold pending at 1. apply wp_bind, wp_getP, wp_ret.
  apply WI_bind; [|intros ? ? ?; wi]. apply wp_if; intros Hb; [|wi]. bool_solve.
  apply wp_bind. eapply wp_mono; [by apply WI_take|]. intros [[r fs]|] w2 (Hw2 & _ & H2); [|by destruct H2; congruence].
  destruct H2 as [Hp2 Hm]. cbn. apply wp_bind, wp_neutral; [neutral|]. intros [] w3 H3.
  apply wp_bind, wp_getSess. apply wp_if; intros _; [|apply wp_ret; by eapply WI_same].
  apply wp_bind, wp_neutral; [apply neutral_noteReal|]. intros [] w4 H4.
  assert (H24 : same w2 w4) by (by etrans). apply wp_bind. eapply wp_mono; [eapply (WI_ses_begin _ r)|].
  - intros v Hv. by apply beginWaited_waits.
  - by eapply WI_same.
  - by rewrite (sm_pacer _ _ H24).
  - by eapply mayBegin_same.
  - intros x w6 [Hw6 _]. apply wp_if; intros _; wi.
Qed.

Lemma WI_pacerStop w : WI w -> wp (pacerStop host) (fun _ => WI) w.
Proof.
  intros Hw. unfold pacerStop. apply wp_bind, wp_getP, wp_bind, wp_getLog, wp_bind.
  apply (wp_mono _ (fun _ w' => WI w' /\ pending_ (bp w') && negb (done_ (bp w')) = false)).
  - destruct (pending_ (bp w) && negb (done_ (bp w))) eqn:Hb; [|by apply wp_ret]. apply wp_if; intros _.
    + bool_solve. eapply wp_mono; [by apply WI_workerReturn|]. intros _ w' (? & -> & -> & _). done.
    + apply wp_bind, wp_bemit, wp_updP. destruct Hw as [(st & Hl & Hf & Hc) H2 H3].
      rewrite Hb in Hf. split; [|done]. split; cbn; try done. rewrite Hl. cbn. rewrite Hf. by eexists.
  - intros _ w1 [[(st & Hl & Hf & Hc) H2 H3] Hb]. apply wp_updP. split; cbn; try done.
    exists st. rewrite Hb in Hf. by split_and!.
Qed.

Lemma WI_runBOp o w : WI w -> wp (runBOp host o) (fun _ => WI) w.
Proof.
  intros Hw. destruct o; cbn [runBOp]; unfold done_op, finishPair, submit, background; try wi.
  all: try (apply WI_bind; [|intros ? ? ?; wi]).
  all: eauto using WI_boundaryWait, WI_finish, WI_clear, WI_drain, WI_pacerStop.
  all: try solve [apply WI_neutral; [|done]; auto using neutral_publish, neutral_geometry, neutral_estimate, neutral_window].
  - apply WI_bind; [by apply WI_neutral; [apply neutral_publish|]|]. intros [c pr] w1 Hw1.
    apply wp_if; intros _; [wi|]. apply WI_bind; [by apply WI_finish | intros; wi].
  - do 2 (apply WI_bind; [wi | intros ? ? ?]). do 3 (apply wp_if; intros _; [wi|]). by apply WI_finish.
  - unfold pacerBind. apply WI_bind; [by apply WI_pacerStop|]. intros _ w1 [(st & Hl & Hf & Hc) H2 H3].
    apply wp_updP. split; cbn; eauto.
Qed.

End Wait.

(** ** Predicted times *)

(** Steps that never take the last handed out time back. *)
Definition mono {A} (m : M BW A) : Prop := forall w, lastHandedOut_ (bb w) <= lastHandedOut_ (bb (m w).2).

Lemma mono_bind {A B} (m : M BW A) (k : A -> M BW B) : mono m -> (forall a, mono (k a)) -> mono (m ≫= k).
Proof. intros Hm Hk w. rewrite bind_run. etrans; [apply Hm | apply Hk]. Qed.
Lemma mono_still {A} (m : M BW A) : (forall w, lastHandedOut_ (bb (m w).2) = lastHandedOut_ (bb w)) -> mono m.
Proof. intros H w. by rewrite H. Qed.
Lemma mono_ses {A} (m : M SW A) : mono (ses m).
Proof. apply mono_still. intros w. unfold ses, liftM. by destruct (m (bs w)). Qed.
Lemma mono_updB f : (forall b, lastHandedOut_ b <= lastHandedOut_ (f b)) -> mono (updB f).
Proof. intros H w. apply H. Qed.
Lemma mono_if {A} (b : bool) (m1 m2 : M BW A) : mono m1 -> mono m2 -> mono (if b then m1 else m2).
Proof. by destruct b. Qed.
Lemma mono_admit : mono admitFrame.
Proof. intros w. cbn. destruct (_ <? _) eqn:E; cbn; bool_solve; lia. Qed.
Lemma mono_stillB f : (forall b, lastHandedOut_ (f b) = lastHandedOut_ b) -> mono (updB f).
Proof. intros H. by apply mono_still; intros w; cbn. Qed.

Ltac mono_step :=
  match goal with
  | |- forall _, mono _ => intros ?
  | |- mono (_ ≫= _) => apply mono_bind
  | |- mono (mret _) => intros ?; reflexivity
  | |- mono getB => intros ?; reflexivity
  | |- mono getP => intros ?; reflexivity
  | |- mono getSess => intros ?; reflexivity
  | |- mono getLog => intros ?; reflexivity
  | |- mono (updP _) => intros ?; reflexivity
  | |- mono (bemit _) => intros ?; reflexivity
  | |- mono admitFrame => apply mono_admit
  | |- mono (ses _) => apply mono_ses
  | |- mono (if _ then _ else _) => apply mono_if
  | |- mono (updB _) => apply mono_stillB; intros ?; repeat case_match; reflexivity
  | |- mono (match ?x with _ => _ end) => destruct x
  | |- mono (let _ := _ in _) => cbv zeta
  end.
Ltac mono_solve := repeat first [assumption | mono_step].

Section Times.
Context (host : Host).

Lemma mono_now : mono (now host). Proof. unfold now. mono_solve. Qed.
Lemma mono_measured {A} add (m : M BW A) :
  (forall d b, lastHandedOut_ (add d b) = lastHandedOut_ b) -> mono m -> mono (measured host add m).
Proof.
  intros H Hm. unfold measured. pose proof mono_now. repeat first [assumption | apply mono_stillB, H | mono_step].
Qed.
Lemma mono_take : mono (take host). Proof. unfold take, workerReturn. mono_solve. Qed.
Lemma mono_noteReal r t p : mono (noteReal host r t p).
Proof. unfold noteReal. pose proof mono_now. mono_solve. Qed.
Lemma mono_completeDeferred : mono (completeDeferred host).
Proof.
  unfold completeDeferred, failWith. pose proof mono_noteReal.
  apply mono_bind; [mono_step | intros b]. apply mono_bind; [|intros; mono_solve; auto].
  apply mono_measured; [done|]. apply mono_if; [apply mono_take | mono_step].
Qed.
Lemma mono_clear t : mono (clear host t).
Proof. unfold clear. pose proof mono_completeDeferred. mono_solve. Qed.
Lemma mono_finishBegun t b : mono (finishBegun host t b).
Proof.
  unfold finishBegun, compose, failWith, sceneFinished, kick. pose proof (mono_clear t).
  repeat first [assumption | apply mono_measured; [done|] | mono_step].
Qed.
Lemma mono_finish t b : mono (finish host t b).
Proof.
  unfold finish, sceneFinished. pose proof mono_completeDeferred. pose proof (mono_finishBegun t b). mono_solve.
Qed.
Lemma mono_drain t : mono (drain host t).
Proof.
  unfold drain, pending. pose proof (mono_clear t). pose proof mono_take.
  repeat first [assumption | apply mono_noteReal | mono_step].
Qed.

(** A successful opening ends by admitting the frame. *)
Definition admitted (w w' : BW) : Prop :=
  predictedDisplayTime (frame_ (bb w')) = lastHandedOut_ (bb w') /\ lastHandedOut_ (bb w) <= lastHandedOut_ (bb w').

Definition opens (m : M BW XrResult) : Prop :=
  forall w, wp m (fun r w' => lastHandedOut_ (bb w) <= lastHandedOut_ (bb w') /\
                   (r = XR_SUCCESS -> admitted w w')) w.

Lemma opens_after {A} (m : M BW A) (k : A -> M BW XrResult) : mono m -> (forall a, opens (k a)) -> opens (m ≫= k).
Proof.
  intros Hm Hk w. apply wp_bind. specialize (Hm w). unfold wp at 1. destruct (m w) as [a w1]. cbn in Hm.
  eapply wp_mono; [apply Hk|]. intros r w2 [H1 H2]. split; [lia|].
  intros E. destruct (H2 E). split; [done | lia].
Qed.

Lemma opens_refuse (r : XrResult) (m : M BW unit) : r <> XR_SUCCESS -> mono m -> opens (m;; mret r).
Proof.
  intros Hr Hm w. apply wp_bind. specialize (Hm w). unfold wp at 1. destruct (m w) as [a w1]. by split.
Qed.

Lemma opens_admit (r : XrResult) : opens (admitFrame;; (mret r : M BW XrResult)).
Proof. intros w. apply wp_bind. unfold wp; cbn. destruct (_ <? _) eqn:E; cbn; bool_solve; repeat split; cbn; lia. Qed.

Lemma failed_not_success r : XR_FAILED r = true -> r <> XR_SUCCESS.
Proof. unfold XR_FAILED, XR_SUCCESS. intros. bool_solve. lia. Qed.

Lemma opens_if_failed (r : XrResult) (b : bool) k1 k2 :
  b = XR_FAILED r -> (XR_FAILED r = true -> opens k1) -> (XR_FAILED r = false -> opens k2) -> opens (if b then k1 else k2).
Proof. intros ->. destruct (XR_FAILED r); auto. Qed.

Lemma opens_synthesized : opens openSynthesized.
Proof.
  unfold openSynthesized. apply opens_after; [mono_step | intros b]. apply opens_after; [mono_step | intros [r f]].
  apply opens_after; [mono_step | intros _]. eapply opens_if_failed; [done | |]; intros Hr; cbn [fst].
  - apply opens_refuse; [by apply failed_not_success | mono_step].
  - apply opens_after; [mono_step | intros _]. apply opens_admit.
Qed.

Lemma opens_consume : opens (consumePending host).
Proof.
  unfold consumePending. apply opens_after; [apply mono_measured; [done | apply mono_take] | intros taken].
  destruct (default _ taken) as [r fs]. apply opens_after; [apply mono_noteReal | intros _].
  apply opens_after; [mono_step | intros b]. apply opens_after; [mono_step | intros [x f]].
  apply opens_after; [mono_step | intros _]. eapply opens_if_failed; [done | |]; intros Hr; cbn [fst].
  - apply opens_refuse; [by apply failed_not_success | mono_step].
  - apply opens_after; [mono_step | intros _]. apply opens_admit.
Qed.

Lemma opens_blocking : opens (waitBlocking host).
Proof.
  unfold waitBlocking. apply opens_after; [apply mono_measured; [done | mono_solve] | intros _].
  apply opens_after; [mono_step | intros b]. eapply opens_if_failed; [done | |]; intros Hr.
  - apply opens_refuse; [by apply failed_not_success | mono_step].
  - apply opens_after; [apply mono_noteReal | intros _]. apply opens_admit.
Qed.

Lemma opens_ret (r : XrResult) : r <> XR_SUCCESS -> opens (mret r : M BW XrResult).
Proof. intros H w. by split. Qed.

Lemma opens_if (b : bool) k1 k2 : opens k1 -> opens k2 -> opens (if b then k1 else k2).
Proof. by destruct b. Qed.

Lemma boundaryWait_opens t p w :
  thread_ (bb w) = t -> failed_ (bb w) = false ->
  wp (boundaryWait host t p) (fun r w' => lastHandedOut_ (bb w) <= lastHandedOut_ (bb w') /\
     (r = XR_SUCCESS -> admitted w w')) w.
Proof.
  intros Ht Hf. unfold boundaryWait. apply wp_bind, wp_getB. rewrite Ht, Z.eqb_refl, Hf. cbn [negb].
  generalize w. change (opens (closed ← clear host t; if negb (closed =? XR_SUCCESS) then mret closed else
    updB (fun b => b <| frame_ := frame0 |> <| endFrameMs_ := d_zero |> <| waitBlockMs_ := d_zero |> <| pacerBlockMs_ := d_zero |>);;
    t ← now host; p0 ← getP;
    updB (fun b => b <| waitEntry_ := t |>
                     <| turbo_ := match p with PacingDeferred => hasPacer b && pc_bound p0 | _ => false end |>);;
    b ← getB; pend ← pending;
    if hasPacer b && pend then
      late ← (if turbo_ b then r ← ready host; mret (negb r && canSynthesize b) else mret false);
      if (late : bool) then openSynthesized else consumePending host
    else kicked ← (if turbo_ b && canSynthesize b then kick else mret false);
      if (kicked : bool) then updB (fun b => b <| kicks_ := u64 (kicks_ b + 1) |>);; openSynthesized
      else waitBlocking host)).
  pose proof opens_synthesized. pose proof opens_consume. pose proof opens_blocking.
  apply opens_after; [apply mono_clear | intros c]. destruct (c =? XR_SUCCESS) eqn:Hc; cbn [negb].
  2: { apply opens_ret. by bool_solve. }
  apply opens_after; [mono_step | intros _]. apply opens_after; [apply mono_now | intros n].
  apply opens_after; [mono_step | intros p0]. apply opens_after; [mono_step | intros _].
  apply opens_after; [mono_step | intros b]. apply opens_after; [unfold pending; mono_solve | intros pend].
  apply opens_if; apply opens_after; try (unfold ready, workerTick, workerReturn, kick; mono_solve).
  - intros [|]; done.
  - intros [|]; [|done]. by apply opens_after; [mono_step|].
Qed.

Lemma mono_wait t p : mono (boundaryWait host t p).
Proof.
  intros w. destruct (negb (t =? thread_ (bb w)) || failed_ (bb w)) eqn:E.
  - unfold boundaryWait. rewrite bind_run. cbn [getB fst snd].
    destruct (negb (t =? thread_ (bb w))); [done|]. cbn in E. by rewrite E.
  - bool_solve. apply (wp_run _ (fun _ w' => lastHandedOut_ (bb w) <= lastHandedOut_ (bb w'))).
    eapply wp_mono; [by apply boundaryWait_opens|]. by intros r w' [? _].
Qed.

Lemma mono_runBOp o : mono (runBOp host o).
Proof.
  destruct o; cbn [runBOp]; unfold done_op, finishPair, submit, publish, finishPair, background, setGeometryReady, estimateNow,
    takeLateFramesWindow, pacerBind, pacerStop, workerReturn.
  all: pose proof mono_wait; pose proof mono_finish; pose proof mono_clear; pose proof mono_drain; pose proof mono_now.
  all: repeat first [assumption | solve [auto] | mono_step].
Qed.

Lemma mono_runBOps os w : lastHandedOut_ (bb w) <= lastHandedOut_ (bb (runBOps host os w)).
Proof.
  unfold runBOps. revert w. induction os as [|o os IH]; intros w; cbn; [done|].
  etrans; [apply mono_runBOp | apply IH].
Qed.

(** Predicted display times never go backwards: whatever happens between
    two successful waits (submits, synthesized frames, drains, rebinds of the
    pacer, session events), the second frame's predicted time is at least the
    first one's. *)
Theorem predicted_time_monotone t1 t2 p1 p2 os w :
  let w1 := (boundaryWait host t1 p1 w).2 in
  let w2 := runBOps host os w1 in
  let w3 := (boundaryWait host t2 p2 w2).2 in
  thread_ (bb w) = t1 -> failed_ (bb w) = false -> (boundaryWait host t1 p1 w).1 = XR_SUCCESS ->
  thread_ (bb w2) = t2 -> failed_ (bb w2) = false -> (boundaryWait host t2 p2 w2).1 = XR_SUCCESS ->
  predictedDisplayTime (frame_ (bb w1)) <= predictedDisplayTime (frame_ (bb w3)).
Proof.
  intros w1 w2 w3 Ht1 Hf1 Hr1 Ht2 Hf2 Hr2.
  destruct (wp_run _ _ _ (boundaryWait_opens t1 p1 w Ht1 Hf1)) as [_ H1].
  destruct (wp_run _ _ _ (boundaryWait_opens t2 p2 w2 Ht2 Hf2)) as [_ H2].
  destruct (H1 Hr1) as [E1 _]. destruct (H2 Hr2) as [E2 L2]. fold w1 in E1. fold w3 in E2, L2.
  pose proof (mono_runBOps os w1). fold w2 in H. lia.
Qed.

(** A frame opened before its wait returned carries the last period and a
    predicted time between one and two periods after the last real prediction,
    raised to the last time handed out if that is later. *)
Theorem synthesized_time_bounds w :
  canSynthesize (bb w) = true ->
  let res := openSynthesized w in
  res.1 = XR_SUCCESS -> cannotOpen (sess (bs w)) = false -> hardFailure_ (sess (bs w)) = false ->
  let b := bb w in let t := predictedDisplayTime (frame_ (bb res.2)) in
  bdeferred_ (bb res.2) = true /\ predictedDisplayPeriod (frame_ (bb res.2)) = lastPeriod_ b /\
  t = Z.max (synthesizedTime b) (lastHandedOut_ b) /\
  lastReal_ b + lastPeriod_ b <= t /\
  (lastHandedOut_ b <= lastReal_ b + 2 * lastPeriod_ b -> t <= lastReal_ b + 2 * lastPeriod_ b).
Proof.
  intros Hc. cbv zeta. intros Hr Ho Hh.
  assert (H : wp openSynthesized (fun r w' => r = XR_SUCCESS ->
    bdeferred_ (bb w') = true /\ predictedDisplayPeriod (frame_ (bb w')) = lastPeriod_ (bb w) /\
    predictedDisplayTime (frame_ (bb w')) = Z.max (synthesizedTime (bb w)) (lastHandedOut_ (bb w))) w).
  { unfold openSynthesized. apply wp_bind, wp_getB, wp_bind, wp_ses. unfold openDeferred.
    apply wp_bind, wp_getS. rewrite Hh, Ho. sx. apply wp_upd. sx. apply wp_getS. sx. apply wp_bind, wp_updB. cbn [fst snd].
    apply wp_if; intros Hx; [by intros E; apply failed_not_success in Hx|].
    apply wp_bind, wp_updB, wp_bind. unfold admitFrame. apply wp_updB, wp_ret. cbn.
    intros _. split; [done|]. destruct (_ <? _) eqn:E; cbn; bool_solve; (split; [done | lia]). }
  destruct (wp_run _ _ _ H Hr) as (Hd & Hp & Ht). rewrite Hd, Hp, Ht. split_and!; try done.
  all: unfold canSynthesize, synthesizedTime in *; bool_solve; destruct (_ <? lastPeriod_ _) eqn:E1;
    destruct (_ * 2 <? _) eqn:E2; bool_solve; lia.
Qed.
End Times.

(** ** Submitting a pair *)
Section Submit.
Context (host : Host).

Definition eyeAccepted (eye : Z) (b : Boundary) : bool := if eye =? 0 then accepted0 b else accepted1 b.
Definition acceptEye (eye : Z) (b : Boundary) : Boundary :=
  if eye =? 0 then b <| accepted0 := true |> else b <| accepted1 := true |>.

(** The pixels of an eye may be shown. *)
Definition eyePixels (w : BW) : bool :=
  geometryReady_ (bb w) && shouldRender (frame_ (bb w)) && negb (terminal_ (sess (bs w))).

Definition submitRefusal (tid eye : Z) (w : BW) : option Z :=
  if negb (tid =? thread_ (bb w)) then Some VRCompositorError_InvalidTexture
  else if negb (eye =? 0) && negb (eye =? 1) then Some VRCompositorError_IndexOutOfRange
  else if failed_ (bb w) || negb (frameOpen_ (sess (bs w))) || eyeAccepted eye (bb w)
  then Some VRCompositorError_InvalidTexture else None.

(** [submit] on every branch.  A call from another thread, for another eye
    index, on a failed boundary, without an open frame or for an eye already
    accepted changes nothing and captures nothing.  Otherwise the eye is captured
    exactly once, with pixels only when the geometry is ready, the runtime asked
    for rendering and the session is alive; a failed capture leaves the eye
    unaccepted; an accepted first eye never reaches the runtime; only the second
    one ends the frame, in the world where both are accepted. *)
Theorem submit_functional tid eye w :
  let res := submit host tid eye w in
  let err := h_capture host (log (bs w)) eye (eyePixels w) in
  let w1 := mkBW (mkSW (sess (bs w)) (EvCapture eye (eyePixels w) err :: log (bs w))) (bb w) (bp w) in
  let w2 := mkBW (bs w1) (acceptEye eye (bb w)) (bp w) in
  match submitRefusal tid eye w with
  | Some e => res = (e, w)
  | None =>
      (eye = 0 \/ eye = 1) /\
      if negb (err =? VRCompositorError_None) then res = (err, w1)
      else if eyeAccepted (1 - eye) (bb w)
      then accepted0 (bb w2) = true /\ accepted1 (bb w2) = true /\ res.2 = (finishPair host tid w2).2 /\
           res.1 = (if (finishPair host tid w2).1 =? XR_SUCCESS then VRCompositorError_None
                    else VRCompositorError_InvalidTexture)
      else res = (VRCompositorError_None, w2)
  end.
Proof.
  cbv zeta. unfold submitRefusal, eyeAccepted, submit, publish, acceptEye.
  rewrite bind_run, bind_run. cbn [getB fst snd]. rewrite bind_run. cbn [getSess fst snd].
  destruct (tid =? thread_ (bb w)); [|done]. cbn [negb].
  destruct (negb (eye =? 0) && negb (eye =? 1)) eqn:He; [done|].
  destruct (failed_ (bb w) || _ || _) eqn:Hg; [done|]. split; [bool_solve; auto|].
  rewrite bind_run. cbn [getLog fst snd]. fold (eyePixels w).
  set (err := h_capture host (log (bs w)) eye (eyePixels w)).
  rewrite bind_run. cbn [bemit ses liftM emit fst snd]. destruct (err =? VRCompositorError_None) eqn:Herr; cbn [negb]; cycle 1.
  { cbn. by rewrite Herr. }
  rewrite bind_run. cbn [updB fst snd]. rewrite bind_run. cbn [getB fst snd bb]. cbn -[finishPair].
  assert (Hx : eye = 0 \/ eye = 1) by (bool_solve; auto).
  destruct Hx as [-> | ->]; cbn -[finishPair] in *.
  - destruct (accepted1 (bb w)) eqn:E1; cbn -[finishPair]; [|done].
    rewrite bind_run. by split_and!.
  - destruct (accepted0 (bb w)) eqn:E1; cbn -[finishPair]; [|done].
    rewrite bind_run. by split_and!.
Qed.
End Submit.

(** ** Witnesses: a session ready to run on [demo_runtime], a sink that accepts
    every eye, a clock that advances with the log and a worker that has not
    returned when it is asked. *)
Definition demo_host : Host :=
  mkHost demo_runtime (fun _ _ _ => 0) (fun _ _ => (XR_SUCCESS, mkLayer XR_TYPE_COMPOSITION_LAYER_PROJECTION None 9 2 (Some 1)))
    (fun _ => true) (fun l => 1000 * Z.of_nat (length l)) (fun _ => false) (fun _ => false).
Definition demo_boundary : BW := mkBW demo_ready (boundary0 1 true) (pacer0 true).
Definition demo_pair : list BOp := [BGeometry 1 true; BSubmit 1 0; BSubmit 1 1].
Definition demo_first : BW := (boundaryWait demo_host 1 PacingDeferred demo_boundary).2.
Definition demo_second : BW := runBOps demo_host demo_pair demo_first.

Lemma predicted_time_monotone_witness :
  (boundaryWait demo_host 1 PacingDeferred demo_second).1 = XR_SUCCESS /\
  predictedDisplayTime (frame_ (bb demo_first)) <=
  predictedDisplayTime (frame_ (bb (boundaryWait demo_host 1 PacingDeferred demo_second).2)).
Proof.
  split; [vm_compute; reflexivity|].
  apply (predicted_time_monotone demo_host 1 1 PacingDeferred PacingDeferred demo_pair demo_boundary);
    vm_compute; reflexivity.
Defined.

(** A boundary that has seen one real prediction of period 11 at time 1000. *)
Definition demo_late : BW :=
  mkBW demo_ready ((boundary0 1 true) <| lastReal_ := 1000 |> <| lastPeriod_ := 11 |> <| lastRealAt_ := 5 |>
                     <| waitEntry_ := 21 |> <| lastHandedOut_ := 1000 |>) (pacer0 true).

Lemma synthesized_time_bounds_witness :
  predictedDisplayTime (frame_ (bb (openSynthesized demo_late).2)) = 1016 /\
  1011 <= predictedDisplayTime (frame_ (bb (openSynthesized demo_late).2)).
Proof.
  split; [vm_compute; reflexivity|].
  destruct (synthesized_time_bounds demo_late eq_refl) as (_ & _ & _ & H & _); try reflexivity. exact H.
Defined.
