(* ===== verification/GpuSpan.v ===== *)
(** The CPU policy of asynchronous GPU timestamps
    (src/src/common/gpu_span_state.h, class [GpuSpanState]).

    The Direct3D driver behind [GpuSpanDriver] is not modelled: it is an
    arbitrary function of the calls made so far.  [protocol] says what a
    [D3D11_QUERY_TIMESTAMP_DISJOINT] adapter needs from its caller; the file
    proves that every sequence of operations respects it, that every measurement
    is reported at most once, and what a valid result means. *)
From S2P Require Import Prelude.
Local Open Scope Z_scope.

(** ** Data *)
Record GpuSpanOwner := mkOwner { device : Z; context : Z; thread : Z; immediate : bool }.
#[export] Instance GpuSpanOwner_eq_dec : EqDecision GpuSpanOwner.
Proof. solve_decision. Defined.

Inductive GpuSpanPoll := PollPending | PollReady | PollFailed.
Inductive GpuSpanReason :=
| Valid | WrongOwner | Stopped | OldSequence | NoOpenFrame | Incomplete | BadPair | DriverFailure
| Disjoint | ZeroFrequency | BadTimestamps | Stale | RingFull | CreateFailed.
#[export] Instance GpuSpanReason_eq_dec : EqDecision GpuSpanReason.
Proof. solve_decision. Defined.
Inductive GpuSpanSource := RenderToSubmit | ApplicationRender.

(** [ticks[k]] is read by position, zero outside of what the driver wrote. *)
Record GpuSpanRawSample := mkRaw { timestampsReady : bool; disjoint : bool; frequency : Z; ticks : nat -> Z }.
Definition raw0 : GpuSpanRawSample := mkRaw false false 0 (fun _ => 0).

Record GpuSpanResult := mkResult {
  r_sequence : Z; r_sourceFrame : Z; completedAtMs : Z; ageMs : Z;
  outerMs : double; leftMs : double; rightMs : double; r_reason : GpuSpanReason; source : GpuSpanSource }.
Definition result0 : GpuSpanResult := mkResult 0 0 0 0 d_zero d_zero d_zero Incomplete RenderToSubmit.
#[export] Instance eta_Result : Settable GpuSpanResult := fun r =>
  mkResult (r_sequence r) (r_sourceFrame r) (completedAtMs r) (ageMs r) (outerMs r) (leftMs r) (rightMs r) (r_reason r) (source r).

Inductive State := Free | Open | Pending | Failed.
#[export] Instance State_eq_dec : EqDecision State.
Proof. solve_decision. Defined.

(** [order] is [order[0..orderCount)]; [activeEye] is -1 for none. *)
Record Slot := mkSlot {
  state : State; created : bool; reason : GpuSpanReason; sequence : Z; sourceFrame : Z; closedAtMs : Z;
  begun : Z; ended : Z; order : list Z; activeEye : Z; application : bool; segmentOpen : bool; segmentCount : Z }.
Definition slot0 : Slot := mkSlot Free false Valid 0 0 0 0 0 [] (-1) false false 0.
#[export] Instance eta_Slot : Settable Slot := fun s =>
  mkSlot (state s) (created s) (reason s) (sequence s) (sourceFrame s) (closedAtMs s) (begun s) (ended s) (order s)
    (activeEye s) (application s) (segmentOpen s) (segmentCount s).

Definition kSlots : nat := 8.
Definition kMaxAgeMs : Z := 2000.

(** [open_]: [None] is -1. *)
Record GpuSpanState := mkState {
  owner_ : GpuSpanOwner; slots_ : list Slot; open_ : option nat; lastSequence_ : Z; failed_ : bool; shut_ : bool }.
#[export] Instance eta_GpuSpanState : Settable GpuSpanState := fun s =>
  mkState (owner_ s) (slots_ s) (open_ s) (lastSequence_ s) (failed_ s) (shut_ s).
Definition span0 (o : GpuSpanOwner) : GpuSpanState := mkState o (replicate kSlots slot0) None 0 false false.

(** ** The driver *)
Inductive DEv :=
| DCreate (i : nat) (ok : bool) | DBegin (i : nat) (ok : bool) | DStamp (i : nat) (k : Z) (ok : bool)
| DEnd (i : nat) (ok : bool) | DPoll (i : nat) | DDestroy (i : nat).
Record GpuSpanDriver := mkDriver {
  drv_create : list DEv -> nat -> bool; drv_begin : list DEv -> nat -> bool;
  drv_timestamp : list DEv -> nat -> Z -> bool; drv_end : list DEv -> nat -> bool;
  drv_poll : list DEv -> nat -> GpuSpanPoll * GpuSpanRawSample }.

(** [reports] collects what the polls handed out, latest first. *)
Record GW := mkGW { gs : GpuSpanState; calls : list DEv; reports : list GpuSpanResult }.
#[export] Instance eta_GW : Settable GW := fun w => mkGW (gs w) (calls w) (reports w).

Definition getG : M GW GpuSpanState := fun w => (gs w, w).
Definition updG (f : GpuSpanState -> GpuSpanState) : M GW unit := fun w => (tt, w <| gs := f (gs w) |>).
Definition slot (i : nat) (s : GpuSpanState) : Slot := nth i (slots_ s) slot0.
Definition getSlot (i : nat) : M GW Slot := fun w => (slot i (gs w), w).
Definition updSlot (i : nat) (f : Slot -> Slot) : M GW unit :=
  updG (fun s => s <| slots_ := alter f i (slots_ s) |>).
Definition ask {A} (a : list DEv -> A) (ev : A -> DEv) : M GW A := fun w =>
  let x := a (calls w) in (x, w <| calls := ev x :: calls w |>).

Section Span.
Context (d : GpuSpanDriver).
Definition d_create i : M GW bool := ask (fun l => drv_create d l i) (DCreate i).
Definition d_begin i : M GW bool := ask (fun l => drv_begin d l i) (DBegin i).
Definition d_timestamp i k : M GW bool := ask (fun l => drv_timestamp d l i k) (DStamp i k).
Definition d_end i : M GW bool := ask (fun l => drv_end d l i) (DEnd i).
Definition d_poll i : M GW (GpuSpanPoll * GpuSpanRawSample) := ask (fun l => drv_poll d l i) (fun _ => DPoll i).
Definition d_destroy i : M GW unit := ask (fun _ => tt) (fun _ => DDestroy i).

(** ** Private operations *)
Definition identity (o : GpuSpanOwner) (s : GpuSpanState) : bool :=
  let w := owner_ s in
  negb (device w =? 0) && negb (context w =? 0) && negb (thread w =? 0) && immediate w &&
  (device o =? device w) && (context o =? context w) && (thread o =? thread w) && immediate o.

Definition gate (o : GpuSpanOwner) (s : GpuSpanState) : GpuSpanReason :=
  if negb (identity o s) then WrongOwner else if failed_ s || shut_ s then Stopped else Valid.

Definition close (i : nat) (r : GpuSpanReason) (now : Z) : M GW GpuSpanReason :=
  stamp ← d_timestamp i 1;
  endOk ← d_end i;
  let r := if negb stamp || negb endOk then DriverFailure else r in
  (if negb endOk then updG (fun s => s <| failed_ := true |>) else mret tt);;
  updSlot i (fun s => s <| reason := r |> <| closedAtMs := now |> <| state := Pending |>);;
  updG (fun s => s <| open_ := None |>);;
  mret r.

Definition closeApplication (i : nat) (r : GpuSpanReason) (now : Z) : M GW GpuSpanReason :=
  s ← getSlot i;
  r ← (if segmentOpen s then
         let e := u32 (2 * segmentCount s - 1) in
         stamp ← (if e <? 8 then d_timestamp i e else mret false);
         updSlot i (fun s => s <| segmentOpen := false |>);;
         mret (if negb stamp then DriverFailure else r)
       else mret r);
  endOk ← d_end i;
  (if negb endOk then updG (fun s => s <| failed_ := true |>) else mret tt);;
  let r := if negb endOk then DriverFailure else r in
  updSlot i (fun s => s <| reason := r |> <| closedAtMs := now |> <| state := Pending |>);;
  updG (fun s => s <| open_ := None |>);;
  mret r.

Definition retire (i : nat) (destroy : bool) : M GW unit :=
  s ← getSlot i;
  let keep := created s && negb destroy in
  (if created s && destroy then d_destroy i else mret tt);;
  updSlot i (fun _ => slot0 <| created := keep |>).

Definition age (now thn : Z) : Z := if thn <=? now then now - thn else 0.

Definition orderAt (n : nat) (s : Slot) : Z := nth n (order s) 0.
Definition validate (s : Slot) (raw : GpuSpanRawSample) : GpuSpanReason :=
  if disjoint raw then Disjoint
  else if frequency raw =? 0 then ZeroFrequency
  else
    let t := ticks raw in
    let eyeBad (eye : nat) :=
      let k := (2 + 2 * eye)%nat in
      (t (k + 1)%nat <? t k) || (t k <? t O) || (t 1%nat <? t (k + 1)%nat) in
    if negb (ended s =? 3) || negb (Nat.eqb (length (order s)) 2) || (t 1%nat <? t O) then BadTimestamps
    else if eyeBad O || eyeBad 1%nat then BadTimestamps
    else if t (Z.to_nat (2 + 2 * orderAt 1 s)) <? t (Z.to_nat (3 + 2 * orderAt 0 s)) then BadTimestamps
    else Valid.

(** The segment loop: [inl] is the early return, [inr] the summed ticks. *)
Fixpoint segments (n : nat) (k : nat) (total previousEnd : Z) (t : nat -> Z) : option Z :=
  match n with
  | O => Some total
  | S n =>
      if (t (2 * k + 1)%nat <? t (2 * k)%nat) || (negb (Nat.eqb k 0) && (t (2 * k)%nat <? previousEnd)) then None
      else
        let width := t (2 * k + 1)%nat - t (2 * k)%nat in
        if u64_max - width <? total then None
        else segments n (S k) (total + width) (t (2 * k + 1)%nat) t
  end.

Definition validateApplication (s : Slot) (raw : GpuSpanRawSample) : GpuSpanReason * option double :=
  if disjoint raw then (Disjoint, None)
  else if (frequency raw =? 0) || (segmentCount s <? 3) || (4 <? segmentCount s)
  then (if frequency raw =? 0 then ZeroFrequency else BadTimestamps, None)
  else match segments (Z.to_nat (segmentCount s)) O 0 0 (ticks raw) with
       | None => (BadTimestamps, None)
       | Some total =>
           let elapsed := ddiv (dmul (d_of_Z total) (d_of_Z 1000)) (d_of_Z (frequency raw)) in
           (if dleb d_zero elapsed then Valid else BadTimestamps, Some elapsed)
       end.

(** ** Public operations *)
Definition gated (o : GpuSpanOwner) (m : M GW GpuSpanReason) : M GW GpuSpanReason :=
  s ← getG; if decide (gate o s = Valid) then m else mret (gate o s).
Definition onOpen (m : nat -> M GW GpuSpanReason) : M GW GpuSpanReason :=
  s ← getG; match open_ s with Some i => m i | None => mret NoOpenFrame end.

(** The open frame, if any, is closed as incomplete. *)
Definition closeOpen (now : Z) : M GW unit :=
  s ← getG;
  match open_ s with
  | Some i => _ ← (if application (slot i s) then closeApplication i Incomplete now else close i Incomplete now); mret tt
  | None => mret tt
  end.

Fixpoint firstFree (l : list Slot) (i : nat) : option nat :=
  match l with
  | [] => None
  | s :: l => if decide (state s = Free) then Some i else firstFree l (S i)
  end.

(** The common part of the two begins: [inl r] is an early return. *)
Definition acquire (seq : Z) (now : Z) : M GW (GpuSpanReason + nat) :=
  s ← getG;
  if (seq =? 0) || (seq <=? lastSequence_ s) then mret (inl OldSequence)
  else
    updG (fun s => s <| lastSequence_ := seq |>);;
    closeOpen now;;
    s ← getG;
    if failed_ s then mret (inl DriverFailure)
    else match firstFree (slots_ s) 0 with
         | None => mret (inl RingFull)
         | Some i =>
             if created (slot i s) then mret (inr i)
             else ok ← d_create i;
                  if negb ok then mret (inl CreateFailed)
                  else updSlot i (fun s => s <| created := true |>);; mret (inr i)
         end.

(** Beginning the scope of slot [i]; [first] runs once it is open. *)
Definition openScope (i : nat) (now : Z) (first : M GW GpuSpanReason) : M GW GpuSpanReason :=
  ok ← d_begin i;
  if negb ok then
    updSlot i (fun s => s <| state := Failed |> <| reason := DriverFailure |> <| closedAtMs := now |>);;
    mret DriverFailure
  else
    updSlot i (fun s => s <| state := Open |>);;
    updG (fun s => s <| open_ := Some i |>);;
    first.

Definition beginFrame (seq src now : Z) (o : GpuSpanOwner) : M GW GpuSpanReason :=
  gated o (
    a ← acquire seq now;
    match a with
    | inl r => mret r
    | inr i =>
        updSlot i (fun s => s <| sequence := seq |> <| sourceFrame := src |>);;
        openScope i now (
          ok ← d_timestamp i 0;
          if (ok : bool) then mret Valid else close i DriverFailure now)
    end).

Definition beginApplicationFrame (seq src now : Z) (o : GpuSpanOwner) : M GW GpuSpanReason :=
  gated o (
    a ← acquire seq now;
    match a with
    | inl r => mret r
    | inr i =>
        updSlot i (fun _ => slot0 <| created := true |> <| application := true |>
                                  <| sequence := seq |> <| sourceFrame := src |>);;
        openScope i now (
          updSlot i (fun s => s <| segmentCount := 1 |>);;
          ok ← d_timestamp i 0;
          updSlot i (fun s => s <| segmentOpen := ok |>);;
          if (ok : bool) then mret Valid else closeApplication i DriverFailure now)
    end).

Definition endApplicationSegment (now : Z) (o : GpuSpanOwner) : M GW GpuSpanReason :=
  gated o (onOpen (fun i =>
    s ← getSlot i;
    if negb (application s) || negb (segmentOpen s) || (segmentCount s =? 0) || (4 <? segmentCount s)
    then closeApplication i Incomplete now
    else
      ok ← d_timestamp i (2 * segmentCount s - 1);
      if negb ok then closeApplication i DriverFailure now
      else updSlot i (fun s => s <| segmentOpen := false |>);; mret Valid)).

Definition resumeApplicationSegment (now : Z) (o : GpuSpanOwner) : M GW GpuSpanReason :=
  gated o (onOpen (fun i =>
    s ← getSlot i;
    if negb (application s) || segmentOpen s || (4 <=? segmentCount s)
    then mret (if application s then RingFull else Incomplete)
    else
      ok ← d_timestamp i (2 * segmentCount s);
      if negb ok then closeApplication i DriverFailure now
      else updSlot i (fun s => s <| segmentCount := segmentCount s + 1 |> <| segmentOpen := true |>);; mret Valid)).

Definition finishApplicationFrame (now : Z) (o : GpuSpanOwner) : M GW GpuSpanReason :=
  gated o (onOpen (fun i =>
    s ← getSlot i;
    if negb (application s) then mret Incomplete
    else if segmentOpen s || (segmentCount s =? 0) || (segmentCount s <? 3)
    then closeApplication i Incomplete now
    else
      endOk ← d_end i;
      (if negb endOk then updG (fun s => s <| failed_ := true |>) else mret tt);;
      let r := if (endOk : bool) then Valid else DriverFailure in
      updSlot i (fun s => s <| reason := r |> <| closedAtMs := now |> <| state := Pending |>);;
      updG (fun s => s <| open_ := None |>);;
      mret r)).

Definition beginEye (eye now : Z) (o : GpuSpanOwner) : M GW GpuSpanReason :=
  gated o (onOpen (fun i =>
    s ← getSlot i;
    if (1 <? eye) || (0 <=? activeEye s) || Z.testbit (begun s) eye then close i BadPair now
    else
      ok ← d_timestamp i (2 + 2 * eye);
      if negb ok then close i DriverFailure now
      else updSlot i (fun s => s <| begun := Z.lor (begun s) (Z.shiftl 1 eye) |> <| activeEye := eye |>
                                 <| order := order s ++ [eye] |>);;
           mret Valid)).

Definition endEye (eye now : Z) (o : GpuSpanOwner) : M GW GpuSpanReason :=
  gated o (onOpen (fun i =>
    s ← getSlot i;
    if (1 <? eye) || negb (activeEye s =? eye) then close i BadPair now
    else
      ok ← d_timestamp i (3 + 2 * eye);
      if negb ok then close i DriverFailure now
      else updSlot i (fun s => s <| ended := Z.lor (ended s) (Z.shiftl 1 eye) |> <| activeEye := -1 |>);;
           mret Valid)).

Definition finishFrame (now : Z) (o : GpuSpanOwner) : M GW GpuSpanReason :=
  gated o (onOpen (fun i =>
    s ← getSlot i;
    close i (if (ended s =? 3) && (activeEye s <? 0) then Valid else Incomplete) now)).

Definition invalidateFrame (now : Z) (o : GpuSpanOwner) : M GW GpuSpanReason :=
  gated o (onOpen (fun i =>
    s ← getSlot i;
    if application s then closeApplication i Incomplete now else close i Incomplete now)).

(** What the poll decides for a closed slot: [None] leaves it pending. *)
Definition verdict (i : nat) (s : Slot) (failed : bool) (now : Z) : M GW (option (GpuSpanReason * GpuSpanRawSample)) :=
  if failed || bool_decide (state s = Failed) then mret (Some (DriverFailure, raw0))
  else if kMaxAgeMs <? age now (closedAtMs s) then mret (Some (Stale, raw0))
  else
    a ← d_poll i;
    let '(status, raw) := (a : GpuSpanPoll * GpuSpanRawSample) in
    match status with
    | PollPending => mret None
    | PollReady =>
        if negb (timestampsReady raw) then mret None
        else mret (Some (if bool_decide (reason s = Valid) && negb (application s) then validate s raw else reason s, raw))
    | PollFailed => mret (Some (DriverFailure, raw))
    end.

Definition report (s : Slot) (now : Z) (r : GpuSpanReason) (raw : GpuSpanRawSample) : GpuSpanResult :=
  let out := result0 <| r_sequence := sequence s |> <| r_sourceFrame := sourceFrame s |>
               <| completedAtMs := now |> <| ageMs := age now (closedAtMs s) |> in
  if application s then
    let out := out <| source := ApplicationRender |> in
    if decide (r = Valid) then
      let '(r, elapsed) := validateApplication s raw in
      out <| outerMs := default (outerMs out) elapsed |> <| r_reason := r |>
    else out <| r_reason := r |>
  else if decide (r = Valid) then
    let scale := ddiv (d_of_Z 1000) (d_of_Z (frequency raw)) in
    let t := ticks raw in
    out <| outerMs := dmul (d_of_Z (u64 (t 1%nat - t O))) scale |>
        <| leftMs := dmul (d_of_Z (u64 (t 3%nat - t 2%nat))) scale |>
        <| rightMs := dmul (d_of_Z (u64 (t 5%nat - t 4%nat))) scale |> <| r_reason := r |>
  else out <| r_reason := r |>.

Definition pollSlot (now : Z) (i : nat) : M GW unit :=
  s ← getSlot i;
  g ← getG;
  if negb (bool_decide (state s = Pending)) && negb (bool_decide (state s = Failed)) then mret tt
  else
    v ← verdict i s (failed_ g) now;
    match v with
    | None => mret tt
    | Some (r, raw) =>
        let out := report s now r raw in
        (fun w => (tt, w <| reports := out :: reports w |>));;
        retire i (negb (bool_decide (r_reason out = Valid)) && negb (bool_decide (r_reason out = BadPair)) &&
                  negb (bool_decide (r_reason out = Incomplete)))
    end.

Fixpoint forEach (ids : list nat) (f : nat -> M GW unit) : M GW unit :=
  match ids with [] => mret tt | i :: ids => f i;; forEach ids f end.

(** The results of one call are the new entries of [reports]; the count is
    their number. *)
Definition poll (now : Z) (o : GpuSpanOwner) : M GW unit :=
  s ← getG;
  if negb (identity o s) || shut_ s then mret tt
  else forEach (seq O kSlots) (pollSlot now).

Definition shutdown (now : Z) (o : GpuSpanOwner) : M GW bool :=
  s ← getG;
  if negb (identity o s) || shut_ s then mret false
  else
    closeOpen now;;
    forEach (seq O kSlots) (fun i => retire i true);;
    updG (fun s => s <| shut_ := true |>);;
    mret true.

(** ** All operations *)
Inductive GOp :=
| GBegin (seq src now : Z) (o : GpuSpanOwner) | GBeginApp (seq src now : Z) (o : GpuSpanOwner)
| GEndSeg (now : Z) (o : GpuSpanOwner) | GResume (now : Z) (o : GpuSpanOwner)
| GFinishApp (now : Z) (o : GpuSpanOwner) | GBeginEye (eye : N) (now : Z) (o : GpuSpanOwner)
| GEndEye (eye : N) (now : Z) (o : GpuSpanOwner) | GFinish (now : Z) (o : GpuSpanOwner)
| GInvalidate (now : Z) (o : GpuSpanOwner) | GPoll (now : Z) (o : GpuSpanOwner) | GShutdown (now : Z) (o : GpuSpanOwner).

Definition dropResult {A} (m : M GW A) : M GW unit := _ ← m; mret tt.
Definition runGOp (op : GOp) : M GW unit :=
  match op with
  | GBegin q s n o => dropResult (beginFrame q s n o) | GBeginApp q s n o => dropResult (beginApplicationFrame q s n o)
  | GEndSeg n o => dropResult (endApplicationSegment n o) | GResume n o => dropResult (resumeApplicationSegment n o)
  | GFinishApp n o => dropResult (finishApplicationFrame n o) | GBeginEye e n o => dropResult (beginEye (Z.of_N e) n o)
  | GEndEye e n o => dropResult (endEye (Z.of_N e) n o) | GFinish n o => dropResult (finishFrame n o)
  | GInvalidate n o => dropResult (invalidateFrame n o) | GPoll n o => poll n o
  | GShutdown n o => dropResult (shutdown n o)
  end.
Definition runGOps (os : list GOp) (w : GW) : GW := foldl (fun w o => (runGOp o w).2) w os.
End Span.

(** ** Symbolic execution *)
Lemma wp_getG Q w : Q (gs w) w -> wp getG Q w. Proof. done. Qed.
Lemma wp_updG f (Q : unit -> GW -> Prop) w : Q tt (mkGW (f (gs w)) (calls w) (reports w)) -> wp (updG f) Q w.
Proof. done. Qed.
Lemma wp_getSlot i Q w : Q (slot i (gs w)) w -> wp (getSlot i) Q w. Proof. done. Qed.
Lemma wp_updSlot i f (Q : unit -> GW -> Prop) w :
  Q tt (mkGW ((gs w) <| slots_ := alter f i (slots_ (gs w)) |>) (calls w) (reports w)) -> wp (updSlot i f) Q w.
Proof. done. Qed.
Lemma wp_ask {A} (a : list DEv -> A) ev (Q : A -> GW -> Prop) w :
  (forall x, Q x (mkGW (gs w) (ev x :: calls w) (reports w))) -> wp (ask a ev) Q w.
Proof. intros H. apply H. Qed.
Lemma wp_report r (Q : unit -> GW -> Prop) w :
  Q tt (mkGW (gs w) (calls w) (r :: reports w)) -> wp (fun w => (tt, w <| reports := r :: reports w |>)) Q w.
Proof. done. Qed.

Ltac gx :=
  cbv beta zeta;
  match goal with
  | |- wp (_ ≫= _) _ _ => apply wp_bind
  | |- wp (mret _) _ _ => apply wp_ret
  | |- wp getG _ _ => apply wp_getG
  | |- wp (updG _) _ _ => apply wp_updG
  | |- wp (getSlot _) _ _ => apply wp_getSlot
  | |- wp (updSlot _ _) _ _ => apply wp_updSlot
  | |- wp (d_create _ _) _ _ => apply wp_ask; intros ?ok
  | |- wp (d_begin _ _) _ _ => apply wp_ask; intros ?ok
  | |- wp (d_timestamp _ _ _) _ _ => apply wp_ask; intros ?ok
  | |- wp (d_end _ _) _ _ => apply wp_ask; intros ?ok
  | |- wp (d_poll _ _) _ _ => apply wp_ask; intros [?st ?raw]
  | |- wp (d_destroy _ _) _ _ => apply wp_ask; intros []
  | |- wp (fun _ => (tt, _)) _ _ => apply wp_report
  | |- wp (let '(_, _) := ?x in _) _ _ => destruct x eqn:?
  | |- wp (if ?b then _ else _) _ _ => destruct b eqn:?
  | |- wp (match ?x with _ => _ end) _ _ => destruct x eqn:?
  end.

Lemma nth_alter (f : Slot -> Slot) i j l : (i < length l)%nat ->
  nth j (alter f i l) slot0 = if decide (j = i) then f (nth i l slot0) else nth j l slot0.
Proof.
  intros Hi. rewrite !nth_lookup. case_decide as E.
  - subst. destruct (lookup_lt_is_Some_2 _ _ Hi) as [x Hx]. by rewrite list_lookup_alter_eq, Hx.
  - by rewrite list_lookup_alter_ne.
Qed.

(** ** What the driver relies on *)
Record Prot := mkProt { made : gset nat; scope : option nat; dead : bool }.
Definition prot1 (p : Prot) (e : DEv) : option Prot :=
  match e with
  | DCreate i ok =>
      if bool_decide (i ∉ made p) && negb (dead p)
      then Some (mkProt (if ok then {[i]} ∪ made p else made p) (scope p) (dead p)) else None
  | DBegin i ok =>
      if bool_decide (i ∈ made p) && bool_decide (scope p = None) && negb (dead p)
      then Some (mkProt (made p) (if ok then Some i else None) (dead p)) else None
  | DStamp i k _ =>
      if bool_decide (scope p = Some i) && (0 <=? k) && (k <? 8) && negb (dead p) then Some p else None
  | DEnd i ok =>
      if bool_decide (scope p = Some i) && negb (dead p) then Some (mkProt (made p) None (negb ok)) else None
  | DPoll i =>
      if bool_decide (i ∈ made p) && negb (bool_decide (scope p = Some i)) && negb (dead p) then Some p else None
  | DDestroy i =>
      if bool_decide (i ∈ made p) && negb (bool_decide (scope p = Some i))
      then Some (mkProt (made p ∖ {[i]}) (scope p) (dead p)) else None
  end.
Fixpoint protocol (l : list DEv) : option Prot :=
  match l with [] => Some (mkProt ∅ None false) | e :: l => p ← protocol l; prot1 p e end.

(** ** The invariant *)
Record SI (w : GW) : Prop := {
  si_len : length (slots_ (gs w)) = kSlots;
  si_prot : exists p, protocol (calls w) = Some p /\ scope p = open_ (gs w) /\ dead p = failed_ (gs w) /\
              forall j, j ∈ made p <-> created (slot j (gs w)) = true;
  si_open : forall j, state (slot j (gs w)) = Open <-> open_ (gs w) = Some j;
  si_dead : failed_ (gs w) = true -> open_ (gs w) = None;
  si_made : forall j, state (slot j (gs w)) <> Free -> created (slot j (gs w)) = true;
  si_seg : forall j, 0 <= segmentCount (slot j (gs w)) <= 4;
  si_seq : forall j, state (slot j (gs w)) <> Free -> sequence (slot j (gs w)) <= lastSequence_ (gs w);
  si_inj : forall j k, state (slot j (gs w)) <> Free -> state (slot k (gs w)) <> Free ->
             sequence (slot j (gs w)) = sequence (slot k (gs w)) -> j = k;
  si_nodup : NoDup (map r_sequence (reports w));
  si_old : forall r, In r (reports w) -> r_sequence r <= lastSequence_ (gs w);
  si_gone : forall r j, In r (reports w) -> state (slot j (gs w)) <> Free ->
              sequence (slot j (gs w)) <> r_sequence r }.

Lemma SI_bound w i : SI w -> state (slot i (gs w)) <> Free -> (i < length (slots_ (gs w)))%nat.
Proof.
  intros [] Hs. destruct (Nat.lt_ge_cases i (length (slots_ (gs w)))) as [|Hge]; [done|].
  unfold slot in Hs. rewrite nth_overflow in Hs by done. done.
Qed.

(** One transition of the checker, forwards. *)
Section Forward.
Context (l : list DEv) (p : Prot) (Hp : protocol l = Some p).
Lemma p_create i ok : i ∉ made p -> dead p = false ->
  protocol (DCreate i ok :: l) = Some (mkProt (if ok then {[i]} ∪ made p else made p) (scope p) (dead p)).
Proof. intros H1 H2. cbn. rewrite Hp. cbn. by rewrite bool_decide_true, H2. Qed.
Lemma p_begin i ok : i ∈ made p -> scope p = None -> dead p = false ->
  protocol (DBegin i ok :: l) = Some (mkProt (made p) (if ok then Some i else None) (dead p)).
Proof. intros H1 H2 H3. cbn. rewrite Hp. cbn. by rewrite !bool_decide_true, H3. Qed.
Lemma p_stamp i k ok : scope p = Some i -> dead p = false -> 0 <= k < 8 -> protocol (DStamp i k ok :: l) = Some p.
Proof.
  intros H1 H2 H3. cbn. rewrite Hp. cbn. rewrite bool_decide_true, H2 by done.
  by rewrite (proj2 (Z.leb_le 0 k)), (proj2 (Z.ltb_lt k 8)) by lia.
Qed.
Lemma p_end i ok : scope p = Some i -> dead p = false ->
  protocol (DEnd i ok :: l) = Some (mkProt (made p) None (negb ok)).
Proof. intros H1 H2. cbn. rewrite Hp. cbn. by rewrite bool_decide_true, H2. Qed.
Lemma p_poll i : i ∈ made p -> scope p <> Some i -> dead p = false -> protocol (DPoll i :: l) = Some p.
Proof. intros H1 H2 H3. cbn. rewrite Hp. cbn. by rewrite bool_decide_true, bool_decide_false, H3. Qed.
Lemma p_destroy i : i ∈ made p -> scope p <> Some i ->
  protocol (DDestroy i :: l) = Some (mkProt (made p ∖ {[i]}) (scope p) (dead p)).
Proof. intros H1 H2. cbn. rewrite Hp. cbn. by rewrite bool_decide_true, bool_decide_false. Qed.
End Forward.

Lemma nth_insert (x : Slot) i j l : (i < length l)%nat ->
  nth j (<[i := x]> l) slot0 = if decide (j = i) then x else nth j l slot0.
Proof.
  intros Hi. rewrite !nth_lookup. case_decide as E.
  - subst. by rewrite list_lookup_insert_eq.
  - by rewrite list_lookup_insert_ne.
Qed.

Lemma alter_insert (f : Slot -> Slot) i l : (i < length l)%nat -> alter f i l = <[i := f (nth i l slot0)]> l.
Proof.
  intros Hi. apply list_eq. intros j. destruct (decide (i = j)) as [->|Hne].
  - rewrite list_lookup_alter_eq, list_lookup_insert_eq, nth_lookup by done.
    by destruct (lookup_lt_is_Some_2 _ _ Hi) as [x ->].
  - by rewrite list_lookup_alter_ne, list_lookup_insert_ne.
Qed.

(** The active slots' sequence numbers are new to slot [i]. *)
Definition fresh (i : nat) (q la : Z) (sl : list Slot) (re : list GpuSpanResult) : Prop :=
  q <= la /\ (forall j, j <> i -> state (nth j sl slot0) <> Free -> sequence (nth j sl slot0) <> q) /\
  (forall r, In r re -> r_sequence r <> q).

(** Every operation replaces one slot: the conditions under which the invariant
    survives. *)
Lemma SI_put o sl op la fa sh ca re i x op' la' fa' sh' ca' p p' :
  SI (mkGW (mkState o sl op la fa sh) ca re) -> (i < length sl)%nat -> la <= la' ->
  protocol ca = Some p -> protocol ca' = Some p' -> scope p' = op' -> dead p' = fa' -> (fa' = true -> op' = None) ->
  (forall j, j <> i -> j ∈ made p' <-> j ∈ made p) -> (i ∈ made p' <-> created x = true) ->
  (forall j, j <> i -> op' = Some j <-> op = Some j) -> (state x = Open <-> op' = Some i) ->
  (state x <> Free -> created x = true) -> 0 <= segmentCount x <= 4 ->
  (state x <> Free -> fresh i (sequence x) la' sl re \/
     (state (nth i sl slot0) <> Free /\ sequence x = sequence (nth i sl slot0))) ->
  SI (mkGW (mkState o (<[i := x]> sl) op' la' fa' sh') ca' re).
Proof.
  intros [Hlen (p0 & Hp0 & Hs & Hd & Hm) Hop Hdead Hmade Hseg Hseq Hinj Hnd Hold Hgone] Hi Hla Hp Hp' Hs' Hd' Hfa Hoth Hix Hopj Hopi Hcr Hsg Hfr.
  unfold slot in *. cbn in *. rewrite Hp in Hp0. injection Hp0 as <-.
  assert (Hact : state x <> Free -> forall j, j <> i -> state (nth j sl slot0) <> Free -> sequence (nth j sl slot0) <> sequence x).
  { intros Hx j Hj Hsj. destruct (Hfr Hx) as [(_ & H & _) | [Hsi ->]]; [by apply H|]. intros E. apply Hj. by apply Hinj. }
  split; unfold slot; cbn -[nth].
  - by rewrite length_insert.
  - exists p'. split_and!; try done. intros j. rewrite nth_insert by done. case_decide; subst; [done|]. by rewrite Hoth, Hm.
  - intros j. rewrite nth_insert by done. case_decide; subst; [done|]. rewrite Hop. symmetry. by apply Hopj.
  - done.
  - intros j. rewrite nth_insert by done. case_decide; subst; auto.
  - intros j. rewrite nth_insert by done. case_decide; subst; auto.
  - intros j. rewrite nth_insert by done. case_decide; subst.
    + intros Hx. destruct (Hfr Hx) as [(? & _) | [Hsi ->]]; [done|]. specialize (Hseq _ Hsi). lia.
    + intros Hx. specialize (Hseq _ Hx). lia.
  - intros j k. rewrite !nth_insert by done. repeat case_decide; subst; eauto; try done.
    + intros Hx Hk E. exfalso. by eapply (Hact Hx k).
    + intros Hj Hx E. exfalso. by eapply (Hact Hx j).
  - done.
  - intros r Hr. specialize (Hold _ Hr). lia.
  - intros r j Hr. rewrite nth_insert by done. case_decide; subst; [|by apply Hgone].
    intros Hx. destruct (Hfr Hx) as [(_ & _ & H) | [Hsi ->]]; [by apply not_eq_sym, H | by apply Hgone].
Qed.

(** The facts about an invariant world whose slot [i] is open. *)
Record OpenAt (i : nat) (w : GW) (p : Prot) : Prop := {
  oa_bound : (i < length (slots_ (gs w)))%nat;
  oa_prot : protocol (calls w) = Some p;
  oa_scope : scope p = Some i;
  oa_alive : dead p = false;
  oa_failed : failed_ (gs w) = false;
  oa_state : state (nth i (slots_ (gs w)) slot0) = Open;
  oa_made : i ∈ made p;
  oa_created : created (nth i (slots_ (gs w)) slot0) = true;
  oa_seg : 0 <= segmentCount (nth i (slots_ (gs w)) slot0) <= 4 }.

Lemma openAt i w : SI w -> open_ (gs w) = Some i -> exists p, OpenAt i w p.
Proof.
  intros HI Ho. assert (Hs : state (slot i (gs w)) = Open) by by apply (si_open _ HI).
  assert (Hn : state (slot i (gs w)) <> Free) by by rewrite Hs.
  destruct (si_prot _ HI) as (p & Hp & Hsc & Hd & Hm). exists p. pose proof (si_made _ HI i Hn).
  assert (Hf : failed_ (gs w) = false).
  { destruct (failed_ (gs w)) eqn:E; [|done]. apply (si_dead _ HI) in E. congruence. }
  split; try done; try congruence; [by apply SI_bound | by apply Hm | by apply (si_seg _ HI)].
Qed.

Lemma SI_same o sl op la fa sh ca re ca' la' sh' p :
  SI (mkGW (mkState o sl op la fa sh) ca re) -> protocol ca = Some p -> protocol ca' = Some p -> la <= la' ->
  SI (mkGW (mkState o sl op la' fa sh') ca' re).
Proof.
  intros [Hlen (p0 & Hp0 & Hs & Hd & Hm) Hop Hdead Hmade Hseg Hseq Hinj Hnd Hold Hgone] Hp Hp' Hla.
  cbn in Hp0. rewrite Hp in Hp0. injection Hp0 as <-.
  split; cbn in *; eauto.
  - intros j Hj. specialize (Hseq j Hj). lia.
  - intros r Hr. specialize (Hold r Hr). lia.
Qed.

(** Closing the open slot, and keeping it open with new contents. *)
Lemma SI_closed o sl i la sh ca re x ca' p endOk :
  SI (mkGW (mkState o sl (Some i) la false sh) ca re) -> OpenAt i (mkGW (mkState o sl (Some i) la false sh) ca re) p ->
  protocol ca' = Some p -> state x = Pending -> created x = true -> 0 <= segmentCount x <= 4 ->
  sequence x = sequence (nth i sl slot0) ->
  SI (mkGW (mkState o (<[i := x]> sl) None la (negb endOk) sh) (DEnd i endOk :: ca') re).
Proof.
  intros HI [] Hp' Hst Hcr Hsg Hq. cbn in *.
  eapply SI_put; [exact HI | done | lia | done | by apply p_end | done | done | done | | | | | done | done | ]; cbn.
  - done.
  - split; [intros _; exact Hcr | intros _; exact oa_made0].
  - intros j Hj. split; [done|]. intros E. congruence.
  - split; congruence.
  - intros _. right. split; [by rewrite oa_state0 | done].
Qed.

Lemma SI_kept o sl i la sh ca re x ca' p :
  SI (mkGW (mkState o sl (Some i) la false sh) ca re) -> OpenAt i (mkGW (mkState o sl (Some i) la false sh) ca re) p ->
  protocol ca' = Some p -> state x = Open -> created x = true -> 0 <= segmentCount x <= 4 ->
  sequence x = sequence (nth i sl slot0) ->
  SI (mkGW (mkState o (<[i := x]> sl) (Some i) la false sh) ca' re).
Proof.
  intros HI [] Hp' Hst Hcr Hsg Hq. cbn in *.
  eapply SI_put; [exact HI | done | lia | done | exact Hp' | done | done | done | | | | | done | done | ]; cbn; try done; try (split; congruence).
  - intros _. right. split; [by rewrite oa_state0 | done].
Qed.

Lemma alter_alter (f g : Slot -> Slot) i (l : list Slot) : alter f i (alter g i l) = alter (fun s => f (g s)) i l.
Proof. revert i. induction l as [|x l IH]; intros [|i]; cbn; f_equal/=; auto. Qed.

Ltac slots_norm Hi :=
  unfold slot in *; cbn [gs slots_ calls reports open_ failed_ lastSequence_ owner_ shut_] in *;
  unfold over; cbn [gs slots_ calls reports open_ failed_ lastSequence_ owner_ shut_];
  rewrite ?alter_alter, ?(alter_insert _ _ _ Hi).

(** Start an operation on the open slot [i]. *)
Ltac on_open HI Ho :=
  let p := fresh "p" in let Ha := fresh "Ha" in
  let E := fresh "E" in
  destruct (openAt _ _ HI Ho) as [p Ha];
  match goal with |- wp _ _ ?w => destruct w as [[?o ?sl ?op ?la ?fa ?sh] ?ca ?re] end;
  cbn in Ho; pose proof (oa_failed _ _ _ Ha) as E; cbn in E; subst;
  pose proof Ha as []; cbn in * |-.

Ltac p_side := cbn; first [done | eassumption | congruence | lia].
Ltac p_chain :=
  first [ eassumption
        | eapply p_stamp; [p_chain | p_side | p_side | p_side] ].

Section Ops.
Context (d : GpuSpanDriver).

(** Closing keeps the measurements in use. *)
Definition calm (w w' : GW) : Prop :=
  lastSequence_ (gs w') = lastSequence_ (gs w) /\ reports w' = reports w /\
  forall j, state (slot j (gs w')) <> Free -> state (slot j (gs w)) <> Free /\ sequence (slot j (gs w')) = sequence (slot j (gs w)).
Definition closed (w w' : GW) : Prop := SI w' /\ open_ (gs w') = None /\ calm w w'.

Lemma calm_put o sl op la fa sh ca re i x op' fa' sh' ca' : (i < length sl)%nat ->
  state (nth i sl slot0) <> Free -> sequence x = sequence (nth i sl slot0) ->
  calm (mkGW (mkState o sl op la fa sh) ca re) (mkGW (mkState o (<[i := x]> sl) op' la fa' sh') ca' re).
Proof.
  intros Hi Hs Hq. split_and!; [done | done|]. intros j. unfold slot. cbn. rewrite nth_insert by done.
  case_decide; subst; [done|]. done.
Qed.

Ltac si_closed HI Ha :=
  (first [eapply (SI_closed _ _ _ _ _ _ _ _ _ _ true) | eapply (SI_closed _ _ _ _ _ _ _ _ _ _ false)]);
  [exact HI | exact Ha | p_chain | (cbn; first [done | lia])..].
Ltac si_kept HI Ha := eapply SI_kept; [exact HI | exact Ha | p_chain | (cbn; first [done | lia])..].

Lemma run_close i r now w : SI w -> open_ (gs w) = Some i -> wp (close d i r now) (fun _ => closed w) w.
Proof.
  intros HI Ho. on_open HI Ho. unfold close. repeat gx; cbv beta; (split_and!; [|done|]); cbn; slots_norm oa_bound0.
  all: destruct ok0; try done; first [si_closed HI Ha | apply calm_put; cbn; congruence].
Qed.

Lemma u32_marker c : 0 <= c <= 4 -> (u32 (2 * c - 1) <? 8) = true -> 0 <= u32 (2 * c - 1) < 8.
Proof. intros Hc Hx. pose proof (u32_range (2 * c - 1)) as []. bool_solve. lia. Qed.

Lemma run_closeApplication i r now w : SI w -> open_ (gs w) = Some i -> wp (closeApplication d i r now) (fun _ => closed w) w.
Proof.
  intros HI Ho. on_open HI Ho. unfold closeApplication. repeat gx; cbv beta; (split_and!; [|done|]); cbn; slots_norm oa_bound0.
  all: try (apply calm_put; cbn; congruence).
  all: try (apply u32_marker in Heqb0; [|done]).
  all: try (destruct ok0; try done; si_closed HI Ha).
  all: destruct ok; try done; si_closed HI Ha.
Qed.

Lemma run_closeOpen now w : SI w -> wp (closeOpen d now) (fun _ => closed w) w.
Proof.
  intros HI. unfold closeOpen. gx. gx. destruct (open_ (gs w)) as [i|] eqn:Ho; [|by gx].
  gx. apply wp_mono with (P := fun _ => closed w); [|intros r w' Hw; by gx].
  destruct (application (slot i (gs w))); [by apply run_closeApplication | by apply run_close].
Qed.

Lemma wp_gated o m (Q : GpuSpanReason -> GW -> Prop) w :
  (forall r, Q r w) -> (failed_ (gs w) = false -> wp m Q w) -> wp (gated o m) Q w.
Proof.
  intros HQ Hm. unfold gated. gx. gx. case_decide as Hg; [|by gx]. apply Hm.
  unfold gate in Hg. destruct (identity o (gs w)); [|done]. cbn in Hg. by destruct (failed_ (gs w)).
Qed.

Lemma wp_onOpen m (Q : GpuSpanReason -> GW -> Prop) w :
  (forall r, Q r w) -> (forall i, open_ (gs w) = Some i -> wp (m i) Q w) -> wp (onOpen m) Q w.
Proof. intros HQ Hm. unfold onOpen. gx. gx. destruct (open_ (gs w)); [by apply Hm | by gx]. Qed.

Lemma closed_SI {A} (m : M GW A) w : wp m (fun _ => closed w) w -> wp m (fun _ => SI) w.
Proof. intros H. eapply wp_mono; [done|]. by intros a w' []. Qed.

Lemma wp_stamp i k (Q : bool -> GW -> Prop) w : SI w -> open_ (gs w) = Some i -> 0 <= k < 8 ->
  (forall ok w', SI w' -> gs w' = gs w -> Q ok w') -> wp (d_timestamp d i k) Q w.
Proof.
  intros HI Ho Hk HQ. apply wp_ask. intros ok. apply HQ; [|done].
  destruct (openAt i w HI Ho) as [p []]. destruct w as [[o sl op la fa sh] ca re]. cbn in *.
  eapply SI_same; [exact HI | done | by apply p_stamp | lia].
Qed.

Lemma wp_keep i f (Q : unit -> GW -> Prop) w : SI w -> open_ (gs w) = Some i ->
  (let s := slot i (gs w) in state (f s) = state s /\ created (f s) = created s /\ sequence (f s) = sequence s /\
     0 <= segmentCount (f s) <= 4) ->
  (forall w', SI w' -> open_ (gs w') = Some i -> failed_ (gs w') = false -> slot i (gs w') = f (slot i (gs w)) -> Q tt w') ->
  wp (updSlot i f) Q w.
Proof.
  intros HI Ho (H1 & H2 & H3 & H4) HQ. on_open HI Ho. apply wp_updSlot. cbn. apply HQ.
  - slots_norm oa_bound0. eapply SI_kept; [exact HI | exact Ha | done | congruence..| done | done].
  - done.
  - done.
  - slots_norm oa_bound0. by rewrite nth_insert, decide_True.
Qed.

Lemma run_endApplicationSegment now o w : SI w -> wp (endApplicationSegment d now o) (fun _ => SI) w.
Proof.
  intros HI. apply wp_gated; [done | intros _]. apply wp_onOpen; [done|]. intros i Ho. gx. gx.
  destruct (negb (application _) || _ || _ || _) eqn:Hg; [by apply closed_SI, run_closeApplication|]. bool_solve.
  pose proof (si_seg _ HI i). gx. apply (wp_stamp i); [done | done | lia|]. intros ok w1 Hw1 E. destruct ok; cbn [negb].
  - gx. apply wp_keep; [done | congruence | by cbn; rewrite E|]. intros w2 Hw2 _ _ _. by gx.
  - apply closed_SI, run_closeApplication; [done | congruence].
Qed.

Lemma run_resumeApplicationSegment now o w : SI w -> wp (resumeApplicationSegment d now o) (fun _ => SI) w.
Proof.
  intros HI. apply wp_gated; [done | intros _]. apply wp_onOpen; [done|]. intros i Ho. gx. gx.
  destruct (negb (application _) || _ || _) eqn:Hg; [by gx|]. bool_solve.
  pose proof (si_seg _ HI i). gx. apply (wp_stamp i); [done | done | lia|]. intros ok w1 Hw1 E. destruct ok; cbn [negb].
  - gx. apply wp_keep; [done | congruence | cbn; rewrite E; split_and!; lia || done|]. intros w2 Hw2 _ _ _. by gx.
  - apply closed_SI, run_closeApplication; [done | congruence].
Qed.

Lemma run_finishApplicationFrame now o w : SI w -> wp (finishApplicationFrame d now o) (fun _ => SI) w.
Proof.
  intros HI. apply wp_gated; [done | intros _]. apply wp_onOpen; [done|]. intros i Ho. gx. gx.
  destruct (negb (application _)); [by gx|]. destruct (_ || _); [by apply closed_SI, run_closeApplication|].
  on_open HI Ho. repeat gx; cbv beta; cbn; slots_norm oa_bound0.
  all: destruct ok; try done; si_closed HI Ha.
Qed.

Lemma run_beginEye e now o w : 0 <= e -> SI w -> wp (beginEye d e now o) (fun _ => SI) w.
Proof.
  intros He HI. apply wp_gated; [done | intros _]. apply wp_onOpen; [done|]. intros i Ho. gx. gx.
  destruct (_ || _) eqn:Hg; [by apply closed_SI, run_close|]. bool_solve. pose proof (si_seg _ HI i).
  gx. apply (wp_stamp i); [done | done | lia|]. intros ok w1 Hw1 E. destruct ok; cbn [negb].
  - gx. apply wp_keep; [done | congruence | by cbn; rewrite E|]. intros w2 Hw2 _ _ _. by gx.
  - apply closed_SI, run_close; [done | congruence].
Qed.

Lemma run_endEye e now o w : 0 <= e -> SI w -> wp (endEye d e now o) (fun _ => SI) w.
Proof.
  intros He HI. apply wp_gated; [done | intros _]. apply wp_onOpen; [done|]. intros i Ho. gx. gx.
  destruct (_ || _) eqn:Hg; [by apply closed_SI, run_close|]. bool_solve. pose proof (si_seg _ HI i).
  gx. apply (wp_stamp i); [done | done | lia|]. intros ok w1 Hw1 E. destruct ok; cbn [negb].
  - gx. apply wp_keep; [done | congruence | by cbn; rewrite E|]. intros w2 Hw2 _ _ _. by gx.
  - apply closed_SI, run_close; [done | congruence].
Qed.

Lemma run_finishFrame now o w : SI w -> wp (finishFrame d now o) (fun _ => SI) w.
Proof.
  intros HI. apply wp_gated; [done | intros _]. apply wp_onOpen; [done|]. intros i Ho. gx. gx.
  by apply closed_SI, run_close.
Qed.

Lemma run_invalidateFrame now o w : SI w -> wp (invalidateFrame d now o) (fun _ => SI) w.
Proof.
  intros HI. apply wp_gated; [done | intros _]. apply wp_onOpen; [done|]. intros i Ho. gx. gx.
  destruct (application _); [by apply closed_SI, run_closeApplication | by apply closed_SI, run_close].
Qed.

(** ** Acquiring a slot *)
Lemma firstFree_spec l : forall n i, firstFree l n = Some i ->
  (n <= i < n + length l)%nat /\ state (nth (i - n) l slot0) = Free.
Proof.
  induction l as [|s l IH]; intros n i; cbn; [done|]. case_decide as Hs.
  - intros [= <-]. rewrite Nat.sub_diag. cbn. split; [lia | done].
  - intros H. destruct (IH (S n) i H) as [H1 H2]. split; [lia|].
    replace (i - n)%nat with (S (i - S n)) by lia. done.
Qed.

(** What [acquire] leaves: no scope is open, the slot is free and made, and the
    sequence number is new. *)
Record Acquired (q : Z) (i : nat) (w : GW) : Prop := {
  aq_inv : SI w;
  aq_bound : (i < length (slots_ (gs w)))%nat;
  aq_open : open_ (gs w) = None;
  aq_failed : failed_ (gs w) = false;
  aq_free : state (slot i (gs w)) = Free;
  aq_made : created (slot i (gs w)) = true;
  aq_fresh : fresh i q (lastSequence_ (gs w)) (slots_ (gs w)) (reports w) }.

Lemma run_acquire q now w : SI w -> failed_ (gs w) = false ->
  wp (acquire d q now) (fun a w' => match a with inl _ => SI w' | inr i => Acquired q i w' end) w.
Proof.
  intros HI Hf. unfold acquire. gx. gx. destruct (_ || _) eqn:Hq; [by gx|]. bool_solve.
  gx. gx. gx. cbn.
  match goal with |- wp _ _ ?w1 => assert (HI1 : SI w1) end.
  { destruct w as [[o sl op la fa sh] ca re]. destruct (si_prot _ HI) as (p & Hp & _).
    eapply (SI_same o sl op la fa sh ca re ca q sh); [done.. | cbn in *; lia]. }
  eapply wp_mono; [by apply run_closeOpen|]. intros _ w2 (HI2 & Ho2 & Hl2 & Hr2 & Hs2). cbn in Hl2, Hr2, Hs2.
  gx. gx. destruct (failed_ (gs w2)) eqn:Hf2; [by gx|].
  destruct (firstFree (slots_ (gs w2)) 0) as [i|] eqn:Hi; [|by gx].
  apply firstFree_spec in Hi as [Hb Hfree]. rewrite Nat.sub_0_r in Hfree.
  assert (Hfr : fresh i q (lastSequence_ (gs w2)) (slots_ (gs w2)) (reports w2)).
  { unfold fresh. rewrite Hl2, Hr2. split_and!; [done | |].
    - intros j _ Hj. destruct (Hs2 j Hj) as [Hj' E]. unfold slot in E. rewrite E. pose proof (si_seq _ HI j Hj'). unfold slot in *. lia.
    - intros r Hr. pose proof (si_old _ HI r Hr). lia. }
  destruct (created (slot i (gs w2))) eqn:Hc; [gx; split; done || lia|].
  destruct (si_prot _ HI2) as (p & Hp & Hsc & Hd & Hm).
  gx. gx. assert (Hni : i ∉ made p) by by (rewrite Hm, Hc).
  assert (Hpc : forall b, protocol (DCreate i b :: calls w2) = Some (mkProt (if b then {[i]} ∪ made p else made p) (scope p) (dead p))).
  { intros b. apply p_create; congruence. }
  destruct w2 as [[o sl op la fa sh] ca re]. cbn -[protocol] in *. subst op fa. destruct ok; cbn [negb].
  - gx. gx. gx. cbn. assert (Hlt : (i < length sl)%nat) by lia. pose proof (si_seg _ HI2 i) as Hsg.
    split; cbn; slots_norm Hlt; try done.
    + eapply SI_put; [exact HI2 | done | lia | done | apply Hpc | done | done | done | | | | | done | done | ]; cbn; try done.
      * intros j Hj. rewrite elem_of_union, elem_of_singleton. tauto.
      * rewrite elem_of_union, elem_of_singleton. tauto.
      * by rewrite Hfree.
    + by rewrite length_insert.
    + by rewrite nth_insert, decide_True.
    + by rewrite nth_insert, decide_True.
    + destruct Hfr as (? & Hj & ?). split_and!; try done. intros j Hne. rewrite nth_insert, decide_False by done. by apply Hj.
  - gx. eapply SI_same; [exact HI2 | done | | lia]. rewrite (Hpc false). by destruct p.
Qed.

(** Writing the identity of the new measurement into its slot. *)
Lemma run_stampIdentity q i f x w : Acquired q i w -> f (slot i (gs w)) = x -> state x = Free -> created x = true ->
  sequence x = q -> 0 <= segmentCount x <= 4 ->
  wp (updSlot i f) (fun _ w' => Acquired q i w' /\ slot i (gs w') = x) w.
Proof.
  intros [HI Hb Ho Hf Hs Hm Hfr] Hx H1 H2 H3 H4. apply wp_updSlot. cbn.
  destruct (si_prot _ HI) as (p & Hp & Hsc & Hd & Hmd).
  destruct w as [[o sl op la fa sh] ca re]. cbn in *. subst op fa. split.
  - split; cbn; slots_norm Hb; rewrite ?Hx; try done.
    + eapply SI_put; [exact HI | done | lia | done | exact Hp | done | done | done | | | | | done | done | ]; cbn; try done.
      * rewrite H2. by rewrite Hmd.
      * by rewrite H1.
    + by rewrite length_insert.
    + by rewrite nth_insert, decide_True.
    + by rewrite nth_insert, decide_True.
    + destruct Hfr as (? & Hj & ?). split_and!; try done. intros j Hne. rewrite nth_insert, decide_False by done. by apply Hj.
  - slots_norm Hb. by rewrite Hx, nth_insert, decide_True.
Qed.

Lemma run_openScope q i now first w : Acquired q i w -> sequence (slot i (gs w)) = q ->
  (forall w', SI w' -> open_ (gs w') = Some i -> wp first (fun _ => SI) w') ->
  wp (openScope d i now first) (fun _ => SI) w.
Proof.
  intros [HI Hb Ho Hf Hs Hm Hfr] Hq HK. unfold openScope. gx. gx.
  destruct (si_prot _ HI) as (p & Hp & Hsc & Hd & Hmd). pose proof (si_seg _ HI i) as Hsg.
  destruct w as [[o sl op la fa sh] ca re]. cbn in *. subst op fa.
  assert (Hi : i ∈ made p) by by apply Hmd. pose proof (p_begin _ _ Hp i ok Hi Hsc Hd) as Hpb.
  destruct ok; cbn [negb].
  - gx. gx. gx. gx. cbn. apply HK; [|done]. slots_norm Hb.
    eapply SI_put; [exact HI | done | lia | done | exact Hpb | done | done | cbn; congruence | | | | | done | done | ]; cbn; try done.
    + intros j Hj. split; congruence.
    + intros _. left. by rewrite Hq.
  - gx. gx. gx. cbn. slots_norm Hb.
    eapply SI_put; [exact HI | done | lia | done | exact Hpb | done | done | cbn; congruence | | | | | done | done | ]; cbn; try done.
    + intros _. left. by rewrite Hq.
Qed.

Lemma run_beginFrame q src now o w : SI w -> wp (beginFrame d q src now o) (fun _ => SI) w.
Proof.
  intros HI. apply wp_gated; [done | intros Hf]. gx. eapply wp_mono; [by apply run_acquire|].
  intros [r|i] w1 Hw1; [by gx|]. gx. pose proof Hw1 as []. pose proof (si_seg _ aq_inv0 i).
  eapply wp_mono; [by eapply run_stampIdentity|]. intros _ w2 [Hw2 E2]. cbv beta.
  eapply run_openScope; [done | by rewrite E2|]. intros w3 Hw3 Ho3.
  gx. apply (wp_stamp i); [done | done | lia|]. intros ok w4 Hw4 E. destruct ok; [by gx|].
  apply closed_SI, run_close; [done | congruence].
Qed.

Lemma run_beginApplicationFrame q src now o w : SI w -> wp (beginApplicationFrame d q src now o) (fun _ => SI) w.
Proof.
  intros HI. apply wp_gated; [done | intros Hf]. gx. eapply wp_mono; [by apply run_acquire|].
  intros [r|i] w1 Hw1; [by gx|]. gx. pose proof Hw1 as []. pose proof (si_seg _ aq_inv0 i).
  eapply wp_mono; [by eapply run_stampIdentity|]. intros _ w2 [Hw2 E2]. cbv beta.
  eapply run_openScope; [done | by rewrite E2|]. intros w3 Hw3 Ho3.
  pose proof (si_seg _ Hw3 i) as Hs3.
  gx. apply wp_keep; [done | done | by cbn|]. intros w4 Hw4 Ho4 _ E4.
  gx. apply (wp_stamp i); [done | done | lia|]. intros ok w5 Hw5 E. pose proof (si_seg _ Hw5 i) as Hs5.
  gx. apply wp_keep; [done | congruence | by cbn|]. intros w6 Hw6 Ho6 _ E6. destruct ok; [by gx|].
  by apply closed_SI, run_closeApplication.
Qed.

(** ** Polling and shutting down *)

(** Freeing a slot that has no open scope, with or without its report. *)
Lemma SI_free o sl op la fa sh ca re i keep ca' p p' reps :
  SI (mkGW (mkState o sl op la fa sh) ca re) -> (i < length sl)%nat -> op <> Some i ->
  protocol ca = Some p -> protocol ca' = Some p' -> scope p' = scope p -> dead p' = dead p ->
  (forall j, j <> i -> j ∈ made p' <-> j ∈ made p) -> (i ∈ made p' <-> keep = true) ->
  (reps = [] \/ state (nth i sl slot0) <> Free /\ exists r, reps = [r] /\ r_sequence r = sequence (nth i sl slot0)) ->
  SI (mkGW (mkState o (<[i := slot0 <| created := keep |>]> sl) op la fa sh) ca' (reps ++ re)).
Proof.
  intros HI Hi Hop Hp Hp' Hs Hd Hoth Hix Hrep.
  assert (HI' : SI (mkGW (mkState o (<[i := slot0 <| created := keep |>]> sl) op la fa sh) ca' re)).
  { destruct (si_prot _ HI) as (p0 & Hp0 & Hs0 & Hd0 & _). cbn -[protocol] in *. rewrite Hp in Hp0. injection Hp0 as <-.
    eapply SI_put; [exact HI | done | lia | done | exact Hp' | congruence | congruence | apply (si_dead _ HI) | done | done | done | | done | cbn; lia | done].
    split; [done|]. intros. congruence. }
  destruct Hrep as [-> | (Hst & r & -> & Hr)]; [done|].
  destruct HI' as []. split; try done; cbn -[nth protocol] in *.
  - apply NoDup_cons. split; [|done]. rewrite list_elem_of_In, in_map_iff. intros (r' & E & Hin).
    apply (si_gone _ HI r' i Hin Hst). unfold slot; cbn. congruence.
  - intros r' [<- | Hin]; [|auto]. rewrite Hr. by apply (si_seq _ HI i).
  - intros r' j [<- | Hin]; [|auto]. unfold slot; cbn -[nth]. rewrite nth_insert by done. case_decide as Hj; [done|].
    intros Hsj E. apply Hj. apply (si_inj _ HI); [done | done|]. unfold slot; cbn. congruence.
Qed.

Lemma wp_retire i b reps w : SI w -> (i < kSlots)%nat -> open_ (gs w) <> Some i ->
  (reps = [] \/ state (slot i (gs w)) <> Free /\ exists r, reps = [r] /\ r_sequence r = sequence (slot i (gs w))) ->
  wp (retire i b) (fun _ w' => SI (w' <| reports := reports w' |>) /\ open_ (gs w') = open_ (gs w) /\ shut_ (gs w') = shut_ (gs w))
    (w <| reports := reps ++ reports w |>).
Proof.
  intros HI Hi Ho Hr. destruct (si_prot _ HI) as (p & Hp & Hsc & Hd & Hm).
  rewrite <- (si_len _ HI) in Hi.
  destruct w as [[o sl op la fa sh] ca re]. cbn -[protocol nth] in *. subst op fa.
  unfold retire. repeat gx; cbv beta; (split_and!; [|done..]); cbn -[protocol]; slots_norm Hi.
  - bool_solve. subst b. eapply SI_free; [exact HI | done | done | exact Hp | apply p_destroy; [done | by apply Hm | done] | done | done | | | done]; cbn.
    + intros j Hj. rewrite elem_of_difference, elem_of_singleton. tauto.
    + rewrite elem_of_difference, elem_of_singleton, andb_false_r. clear. split; [intros [_ []]|]; done.
  - eapply SI_free; [exact HI | done | done | exact Hp | exact Hp | done | done | done | | done].
    rewrite Hm. unfold slot in *. cbn in *. destruct (created (nth i sl slot0)), b; done.
Qed.

Lemma run_pollSlot now i w : SI w -> (i < kSlots)%nat -> wp (pollSlot d now i) (fun _ => SI) w.
Proof.
  intros HI Hi. unfold pollSlot. gx. gx. gx. gx.
  destruct (negb _ && negb _) eqn:Hst; [by gx|].
  assert (Hactive : state (slot i (gs w)) <> Free /\ open_ (gs w) <> Some i).
  { rewrite <- (si_open _ HI). destruct (state (slot i (gs w))); done. }
  destruct Hactive as [Hact Hop]. pose proof (si_made _ HI i Hact) as Hmade.
  gx. apply (wp_mono _ (fun _ w' => SI w' /\ gs w' = gs w /\ reports w' = reports w)).
  - unfold verdict. destruct (_ || _) eqn:Hv; [by gx|]. destruct (_ <? _); [by gx|]. apply orb_false_iff in Hv as [Hv _].
    gx. apply wp_ask. intros [st raw].
    match goal with |- wp _ _ ?w1 => assert (HI1 : SI w1 /\ gs w1 = gs w /\ reports w1 = reports w) end.
    { split; [|done]. destruct (si_prot _ HI) as (p & Hp & Hsc & Hd & Hm).
      destruct w as [[o sl op la fa sh] ca re]. cbn -[protocol] in *.
      eapply SI_same; [exact HI | done | | lia]. apply p_poll; [done | by apply Hm | congruence | congruence]. }
    destruct st; [by gx | | by gx]. destruct (negb _); by gx.
  - intros v w1 (HI1 & E & Er). destruct v as [[r raw]|]; [|by gx]. gx. gx. cbv beta.
    rewrite <- E in Hop, Hact.
    set (out := report _ _ _ _).
    assert (Hout : r_sequence out = sequence (slot i (gs w1))).
    { unfold out, report. rewrite E. destruct (application _); destruct (decide (r = Valid)); [|done..].
      by destruct (validateApplication _ _). }
    pose proof (wp_retire i (negb (bool_decide (r_reason out = Valid)) && negb (bool_decide (r_reason out = BadPair)) &&
                  negb (bool_decide (r_reason out = Incomplete))) [out] w1 HI1 Hi Hop
                  (or_intror (conj Hact (ex_intro _ out (conj eq_refl Hout))))) as H.
    eapply wp_mono; [exact H|]. intros [] w2 (Hw2 & ? & ?). by destruct w2.
Qed.

Lemma run_forEach (P : nat -> Prop) (f : nat -> M GW unit) ids :
  (forall i w, P i -> SI w -> wp (f i) (fun _ => SI) w) -> Forall P ids ->
  forall w, SI w -> wp (forEach ids f) (fun _ => SI) w.
Proof.
  intros Hf. intros HF. induction HF as [|i ids Hi HF IH]; intros w Hw; cbn [forEach]; [by gx|].
  gx. eapply wp_mono; [by apply Hf|]. intros u w1 Hw1. by apply IH.
Qed.

Lemma run_poll now o w : SI w -> wp (poll d now o) (fun _ => SI) w.
Proof.
  intros HI. unfold poll. gx. gx. destruct (_ || _); [by gx|].
  apply (run_forEach (fun i => (i < kSlots)%nat)); [intros; by apply run_pollSlot | | done].
  apply Forall_seq. lia.
Qed.

Lemma run_shutdown now o w : SI w -> wp (shutdown d now o) (fun _ => SI) w.
Proof.
  intros HI. unfold shutdown. gx. gx. destruct (_ || _); [by gx|].
  gx. eapply wp_mono; [by apply run_closeOpen|]. intros _ w1 (HI1 & Ho1 & _). gx.
  eapply (wp_mono _ (fun _ w' => SI w' /\ open_ (gs w') = None)).
  - revert w1 HI1 Ho1. assert (HF : Forall (fun i => (i < kSlots)%nat) (seq 0 kSlots)) by (apply Forall_seq; lia).
    induction HF as [|i ids Hi HF IH]; intros w1 HI1 Ho1; cbn [forEach]; [by gx|]. gx.
    assert (Hne : open_ (gs w1) <> Some i) by congruence.
    pose proof (wp_retire i true [] w1 HI1 Hi Hne (or_introl eq_refl)) as H. destruct w1 as [g1 c1 r1].
    eapply wp_mono; [exact H|]. intros ? w2 (Hw2 & Ho2 & ?). apply IH; [by destruct w2|]. cbn in *. congruence.
  - intros _ w2 [Hw2 Ho2]. gx. gx. gx. destruct w2 as [[o2 sl op la fa sh] ca re]. cbn.
    destruct (si_prot _ Hw2) as (p & Hp & _). by eapply SI_same.
Qed.

Lemma run_op op w : SI w -> wp (runGOp d op) (fun _ => SI) w.
Proof.
  intros HI. destruct op; cbn [runGOp]; unfold dropResult; try by apply run_poll.
  all: apply wp_bind; eapply wp_mono; [|intros r w' Hw'; apply wp_ret; exact Hw'].
  all: auto using run_beginFrame, run_beginApplicationFrame, run_endApplicationSegment, run_resumeApplicationSegment,
    run_finishApplicationFrame, run_beginEye, run_endEye, run_finishFrame, run_invalidateFrame, run_shutdown, N2Z.is_nonneg.
Qed.

Lemma run_ops os : forall w, SI w -> SI (runGOps d os w).
Proof.
  induction os as [|op os IH]; intros w HI; [done|]. apply IH. exact (wp_run _ _ _ (run_op op w HI)).
Qed.
End Ops.

Lemma slot_span0 o j : slot j (span0 o) = slot0.
Proof. unfold slot. cbn. do 8 (destruct j as [|j]; [done|]). by destruct j. Qed.

Lemma SI_span0 o : SI (mkGW (span0 o) [] []).
Proof.
  split; cbn -[slot]; intros; rewrite ?slot_span0 in *; try done; try constructor.
  eexists. split_and!; [done..|]. intros j. rewrite slot_span0. cbn. split; [|done]. intros H. set_solver.
Qed.

(** ** Properties *)

(** C3.  For every driver and every sequence of operations, by any caller, the
    driver's calls are legal: a slot is created once, a disjoint scope begins only
    on a created slot and with no other scope open, timestamps (index below 8) and
    the end go to the open scope, a slot with an open scope is neither polled nor
    destroyed, and after an end that failed nothing is begun, stamped or polled.
    The instrument's [open_], [failed_] and [created] mirror that state. *)
Theorem span_calls_conform d o os :
  let w := runGOps d os (mkGW (span0 o) [] []) in
  exists p, protocol (calls w) = Some p /\ scope p = open_ (gs w) /\ dead p = failed_ (gs w) /\
    forall j, j ∈ made p <-> created (slot j (gs w)) = true.
Proof. intros w. exact (si_prot _ (run_ops d os _ (SI_span0 o))). Qed.

(** Every measurement is reported at most once: over any run no sequence
    number appears in two results, none exceeds the last one begun, and no slot
    still in use carries a reported number or shares its number with another. *)
Theorem reported_once d o os :
  let w := runGOps d os (mkGW (span0 o) [] []) in
  NoDup (map r_sequence (reports w)) /\ Forall (fun r => r_sequence r <= lastSequence_ (gs w)) (reports w) /\
  (forall j k, state (slot j (gs w)) <> Free -> state (slot k (gs w)) <> Free ->
     sequence (slot j (gs w)) = sequence (slot k (gs w)) -> j = k) /\
  (forall j r, In r (reports w) -> state (slot j (gs w)) <> Free -> sequence (slot j (gs w)) <> r_sequence r).
Proof.
  intros w. destruct (run_ops d os _ (SI_span0 o)). split_and!; eauto.
  apply Forall_forall. intros r Hr. by apply si_old0, list_elem_of_In.
Qed.

(** *** Application segments *)
Definition ordered (n : nat) (t : nat -> Z) : Prop :=
  (forall k, (k < n)%nat -> t (2 * k)%nat <= t (2 * k + 1)%nat) /\
  (forall k, (S k < n)%nat -> t (2 * k + 1)%nat <= t (2 * S k)%nat).
Fixpoint widths (n k : nat) (t : nat -> Z) : Z :=
  match n with O => 0 | S n => t (2 * k + 1)%nat - t (2 * k)%nat + widths n (S k) t end.

Lemma segments_spec t : (forall k, is_u64 (t k)) -> forall n k total prev x,
  (k <> O -> total <= prev) -> (k = O -> total = 0) -> 0 <= total ->
  segments n k total prev t = Some x <->
  (forall j, (j < n)%nat -> t (2 * (k + j))%nat <= t (2 * (k + j) + 1)%nat) /\
  (forall j, (j < n)%nat -> (k + j <> 0)%nat ->
     (if Nat.eqb j 0 then prev else t (2 * (k + j) - 1)%nat) <= t (2 * (k + j))%nat) /\
  x = total + widths n k t.
Proof.
  intros Ht. induction n as [|n IH]; intros k total prev x Hk H0 Hpos; cbn [segments widths].
  { split; [intros [= <-]; split_and!; intros; lia | intros (_ & _ & ->); f_equal; lia]. }
  pose proof (Ht (2 * k)%nat) as [Ha1 Ha2]. pose proof (Ht (2 * k + 1)%nat) as [Hb1 Hb2].
  destruct ((t (2 * k + 1)%nat <? t (2 * k)%nat) || (negb (Nat.eqb k 0) && (t (2 * k)%nat <? prev))) eqn:Hbad.
  { split; [done|]. intros (H1 & H2 & _). exfalso. specialize (H1 O ltac:(lia)). rewrite Nat.add_0_r in H1.
    apply orb_true_iff in Hbad as [Hbad|Hbad]; bool_solve; [lia|]. apply Nat.eqb_neq in H.
    specialize (H2 O ltac:(lia)). rewrite Nat.add_0_r in H2. cbn [Nat.eqb] in H2. lia. }
  apply orb_false_iff in Hbad as [Hb Hp]. apply Z.ltb_ge in Hb.
  assert (Hprev : k <> O -> prev <= t (2 * k)%nat).
  { intros Hne. apply andb_false_iff in Hp as [Hp|Hp]; bool_solve; [by apply Nat.eqb_eq in Hp | lia]. }
  assert (Hle : total <= t (2 * k)%nat).
  { destruct (decide (k = O)) as [E|E]; [specialize (H0 E); lia | specialize (Hk E); specialize (Hprev E); lia]. }
  rewrite (proj2 (Z.ltb_ge _ _)) by lia. rewrite IH by lia. split.
  - intros (H1 & H2 & ->). split_and!; [| |lia].
    + intros [|j] Hj; [rewrite Nat.add_0_r; lia|]. specialize (H1 j ltac:(lia)). by rewrite Nat.add_succ_comm in H1.
    + intros [|j] Hj Hne; cbn [Nat.eqb]; [rewrite Nat.add_0_r in *; lia|].
      specialize (H2 j ltac:(lia) ltac:(lia)). rewrite Nat.add_succ_comm in H2. destruct j as [|j]; cbn [Nat.eqb] in H2; [|done].
      replace (2 * (k + 1) - 1)%nat with (2 * k + 1)%nat by lia. done.
  - intros (H1 & H2 & ->). split_and!; [| |lia].
    + intros j Hj. specialize (H1 (S j) ltac:(lia)). by rewrite <- Nat.add_succ_comm in H1.
    + intros j Hj _. specialize (H2 (S j) ltac:(lia) ltac:(lia)). cbn [Nat.eqb] in H2. rewrite <- Nat.add_succ_comm in H2.
      destruct j as [|j]; cbn [Nat.eqb]; [|done].
      replace (2 * (S k + 0) - 1)%nat with (2 * k + 1)%nat in H2 by lia. done.
Qed.

Lemma segments_ordered n t x : (forall k, is_u64 (t k)) ->
  segments n O 0 0 t = Some x <-> ordered n t /\ x = widths n O t.
Proof.
  intros Ht. rewrite segments_spec by (done || lia). unfold ordered. split.
  - intros (H1 & H2 & ->). split; [split|done]; [done|]. intros k Hk.
    specialize (H2 (S k) Hk ltac:(lia)). cbn [Nat.eqb Nat.add] in H2.
    by replace (2 * S k - 1)%nat with (2 * k + 1)%nat in H2 by lia.
  - intros [[H1 H2] ->]. split_and!; [done | | lia]. intros [|j] Hj Hne; [done|]. cbn [Nat.eqb Nat.add] in *.
    specialize (H2 j Hj). by replace (2 * S j - 1)%nat with (2 * j + 1)%nat by lia.
Qed.

Lemma widths_within n t : (0 < n)%nat -> ordered n t ->
  0 <= widths n O t <= t (2 * (n - 1) + 1)%nat - t O.
Proof.
  intros Hn [H1 H2].
  enough (H : forall m k, (0 < m)%nat -> (k + m <= n)%nat -> 0 <= widths m k t <= t (2 * (k + m - 1) + 1)%nat - t (2 * k)%nat).
  { specialize (H n O Hn ltac:(lia)). done. }
  induction m as [|m IH]; intros k Hm Hk; [lia|]. cbn [widths]. specialize (H1 k ltac:(lia)).
  destruct m as [|m]; cbn [widths].
  { replace (k + 1 - 1)%nat with k by lia. lia. }
  specialize (IH (S k) ltac:(lia) ltac:(lia)). specialize (H2 k ltac:(lia)).
  replace (S k + S m - 1)%nat with (k + S (S m) - 1)%nat in IH by lia. cbn [widths] in IH. lia.
Qed.

(** What a valid application measurement is: on 64-bit ticks,
    [validateApplication] accepts exactly the samples that are not disjoint, have
    a frequency, three or four segments, each segment ordered and no two
    overlapping; the time is then computed from the sum of the segments' widths,
    which lies within the interval from the first to the last tick, so the
    overflow guard of the sum never rejects an ordered sample. *)
Theorem validateApplication_spec s raw : (forall k, is_u64 (ticks raw k)) ->
  let n := Z.to_nat (segmentCount s) in let t := ticks raw in
  let total := widths n O t in
  let ms := ddiv (dmul (d_of_Z total) (d_of_Z 1000)) (d_of_Z (frequency raw)) in
  (disjoint raw = false /\ frequency raw <> 0 /\ 3 <= segmentCount s <= 4 /\ ordered n t ->
     0 <= total <= t (2 * (n - 1) + 1)%nat - t O /\ total <= u64_max /\
     validateApplication s raw = (if dleb d_zero ms then Valid else BadTimestamps, Some ms)) /\
  (~ (disjoint raw = false /\ frequency raw <> 0 /\ 3 <= segmentCount s <= 4 /\ ordered n t) ->
     exists r, validateApplication s raw = (r, None) /\ r <> Valid).
Proof.
  intros Ht. cbv zeta. unfold validateApplication.
  set (n := Z.to_nat (segmentCount s)).
  assert (Hseg : forall x, segments n O 0 0 (ticks raw) = Some x <-> ordered n (ticks raw) /\ x = widths n O (ticks raw))
    by (intros; by apply segments_ordered).
  split.
  - intros (-> & Hf & Hc & Ho). assert (Hn : (0 < n)%nat) by lia.
    pose proof (widths_within n _ Hn Ho) as Hw. pose proof (Ht (2 * (n - 1) + 1)%nat) as [_ ?]. pose proof (Ht O) as [? _].
    split_and!; [lia.. |]. rewrite (proj2 (Hseg _) (conj Ho eq_refl)).
    rewrite (proj2 (Z.eqb_neq _ _) Hf), (proj2 (Z.ltb_ge (segmentCount s) 3)), (proj2 (Z.ltb_ge 4 (segmentCount s))) by lia. done.
  - intros Hn. destruct (disjoint raw); [by exists Disjoint|].
    destruct ((frequency raw =? 0) || (segmentCount s <? 3) || (4 <? segmentCount s)) eqn:Hg.
    { eexists. split; [reflexivity|]. by destruct (frequency raw =? 0). }
    destruct (segments n O 0 0 (ticks raw)) as [x|] eqn:Hs; [|by exists BadTimestamps].
    exfalso. apply Hn. destruct (proj1 (Hseg x) eq_refl) as [Ho _]. bool_solve. split_and!; done || lia.
Qed.

Definition demo_raw : GpuSpanRawSample :=
  mkRaw true false 1000 (fun k => nth k [10; 12; 12; 15; 20; 25; 0; 0] 0).
Definition demo_app : Slot := slot0 <| application := true |> <| segmentCount := 3 |>.

Lemma validateApplication_spec_witness :
  exists r, validateApplication demo_app (demo_raw) = (r, Some (d_of_Z 10)) /\ r = Valid.
Proof.
  assert (Ht : forall k, is_u64 (ticks demo_raw k)).
  { intros k. do 8 (destruct k as [|k]; [cbn; unfold is_u64, u64_max; lia|]). destruct k; cbn; unfold is_u64, u64_max; lia. }
  destruct (validateApplication_spec demo_app demo_raw Ht) as [H _]. destruct H as (_ & _ & H).
  - split_and!; [done.. | cbn; lia | split; intros [|[|[|k]]] Hk; cbn in *; lia].
  - rewrite H. exists Valid. split; vm_compute; reflexivity.
Defined.

(** *** Shutting down *)
Section Shutdown.
Context (d : GpuSpanDriver).

Lemma retire_slots ids w : Forall (fun i => (i < length (slots_ (gs w)))%nat) ids ->
  wp (forEach ids (fun i => retire i true)) (fun _ w' =>
    shut_ (gs w') = shut_ (gs w) /\ failed_ (gs w') = failed_ (gs w) /\ owner_ (gs w') = owner_ (gs w) /\
    forall j, slot j (gs w') = if decide (j ∈ ids) then slot0 else slot j (gs w)) w.
Proof.
  revert w. induction ids as [|i ids IH]; intros w HF; cbn [forEach].
  { gx. split_and!; [done..|]. intros j. by rewrite decide_False by set_solver. }
  apply Forall_cons in HF as [Hi HF]. gx.
  eapply (wp_mono _ (fun _ w' => gs w' = (gs w) <| slots_ := <[i := slot0]> (slots_ (gs w)) |>)).
  - unfold retire. destruct w as [[o sl op la fa sh] ca re]. cbn in Hi.
    repeat gx; cbv beta; cbn; slots_norm Hi; repeat f_equal; rewrite ?andb_false_r; done.
  - intros [] w1 E. eapply wp_mono; [apply IH|].
    + rewrite E. cbn. rewrite length_insert. done.
    + intros [] w2 (Hs & Hf & Ho & H). rewrite E in *. cbn in Hs, Hf, Ho. split_and!; [done..|].
      intros j. rewrite H. unfold slot. cbn -[nth]. rewrite nth_insert by done.
      destruct (decide (j = i)) as [->|Hne].
      * assert (i ∈ i :: ids) by left. repeat case_decide; congruence.
      * rewrite (decide_ext (j ∈ i :: ids) (j ∈ ids)); [done|]. rewrite elem_of_cons. tauto.
Qed.

Lemma gated_shut o m w : shut_ (gs w) = true -> (gated o m w).2 = w.
Proof.
  intros Hs. unfold gated. rewrite bind_run. cbn [getG fst snd]. rewrite decide_False; [done|].
  unfold gate. rewrite Hs, orb_true_r. by destruct (identity o (gs w)).
Qed.

Lemma shut_frozen op w : shut_ (gs w) = true -> (runGOp d op w).2 = w.
Proof.
  intros Hs. destruct op; cbn [runGOp]; unfold dropResult; rewrite ?bind_run; cbn [fst snd mret M_ret].
  all: try by apply gated_shut.
  all: unfold poll, shutdown; rewrite bind_run; cbn [getG fst snd]; by rewrite Hs, orb_true_r.
Qed.

(** [shutdown] by the owner releases everything: the open frame is closed,
    every slot is empty and destroyed in the driver's books, it answers true
    exactly once, and from then on no operation of any caller reaches the driver
    or changes the state. *)
Theorem shutdown_final o os now w :
  SI w -> identity o (gs w) = true -> shut_ (gs w) = false ->
  let res := shutdown d now o w in
  res.1 = true /\ (forall j, slot j (gs res.2) = slot0) /\ open_ (gs res.2) = None /\
  (exists p, protocol (calls res.2) = Some p /\ scope p = None /\ made p ≡ ∅) /\
  runGOps d os res.2 = res.2.
Proof.
  intros HI Hid Hsh. cbv zeta. pose proof (wp_run _ _ _ (run_shutdown d now o w HI)) as HI'.
  assert (H : wp (shutdown d now o) (fun b w' => b = true /\ (forall j, slot j (gs w') = slot0) /\ shut_ (gs w') = true) w).
  { unfold shutdown. gx. gx. rewrite Hid, Hsh. cbn [negb orb]. gx.
    eapply wp_mono; [by apply run_closeOpen|]. intros _ w1 (HI1 & _ & _). gx.
    eapply wp_mono; [apply retire_slots|].
    - rewrite (si_len _ HI1). apply Forall_seq. lia.
    - intros _ w2 (_ & _ & _ & H). gx. gx. gx. split_and!; [done | | done]. intros j. cbn.
      change (slot j (gs w2) = slot0). rewrite H. case_decide as Hj; [done|].
      unfold slot. apply nth_overflow. rewrite (si_len _ HI1). rewrite elem_of_seq in Hj. lia. }
  destruct (wp_run _ _ _ H) as (H1 & H2 & H3).
  destruct (si_prot _ HI') as (p & Hp & Hsc & Hd & Hm).
  assert (Ho : open_ (gs (shutdown d now o w).2) = None).
  { destruct (open_ (gs (shutdown d now o w).2)) as [i|] eqn:E; [|done]. apply (si_open _ HI') in E. by rewrite H2 in E. }
  split_and!; [done.. | |].
  - exists p. split_and!; [done | congruence|]. intros j. rewrite Hm, H2, elem_of_empty. by split.
  - clear -H3. revert H3. generalize (shutdown d now o w).2. induction os as [|op os IH]; intros v Hv; [done|].
    unfold runGOps in *. cbn. rewrite shut_frozen by done. by apply IH.
Qed.
End Shutdown.

Definition demo_driver : GpuSpanDriver :=
  mkDriver (fun _ _ => true) (fun _ _ => true) (fun _ _ _ => true) (fun _ _ => true) (fun _ _ => (PollPending, raw0)).
Definition demo_owner : GpuSpanOwner := mkOwner 1 2 3 true.
Definition demo_open_frame : GW := runGOps demo_driver [GBegin 5 5 0 demo_owner] (mkGW (span0 demo_owner) [] []).

Lemma shutdown_final_witness :
  open_ (gs demo_open_frame) = Some O /\ (shutdown demo_driver 7 demo_owner demo_open_frame).1 = true.
Proof.
  split; [reflexivity|].
  apply (shutdown_final demo_driver demo_owner [] 7 demo_open_frame); [|reflexivity..].
  apply run_ops, SI_span0.
Defined.
