(* ===== verification/Ini.v ===== *)
(** The settings file (src/src/common/iniedit.cpp) and the game's own reader of
    it ([Config::parse] in src/src/common/config.cpp): the line grammar, the
    in-place rewriting of one value, and the three-way merge.

    A [std::string] is a list of bytes.  [tolower] and [isspace] are those of the
    C locale, which the program never changes. *)
From S2P Require Import Prelude.
From Stdlib Require Import Ascii.

Abbreviation str := (list Ascii.ascii).
Definition lit (s : String.string) : str := String.list_ascii_of_string s.
Arguments lit s%_string.

(** ** Characters *)
Definition chr (n : nat) : Ascii.ascii := Ascii.ascii_of_nat n.
Definition TAB := chr 9.
Definition LF := chr 10.
Definition CR := chr 13.
Definition eqc (c d : Ascii.ascii) : bool := Ascii.eqb c d.
Definition isBlank (c : Ascii.ascii) : bool := eqc c " "%char || eqc c TAB.
Definition isMark (c : Ascii.ascii) : bool := eqc c "#"%char || eqc c ";"%char.
Definition isEol (c : Ascii.ascii) : bool := eqc c LF || eqc c CR.
Definition isspace (c : Ascii.ascii) : bool :=
  let n := Ascii.nat_of_ascii c in (Nat.leb 9 n && Nat.leb n 13) || Nat.eqb n 32.
Definition tolower (c : Ascii.ascii) : Ascii.ascii :=
  let n := Ascii.nat_of_ascii c in if Nat.leb 65 n && Nat.leb n 90 then chr (n + 32) else c.

(** ** [std::string] operations *)
Fixpoint dropWhile (p : Ascii.ascii -> bool) (s : str) : str :=
  match s with [] => [] | c :: r => if p c then dropWhile p r else s end.
Fixpoint takeWhile (p : Ascii.ascii -> bool) (s : str) : str :=
  match s with [] => [] | c :: r => if p c then c :: takeWhile p r else [] end.
Definition ltrim (s : str) : str := dropWhile isBlank s.
Definition rtrim (s : str) : str := rev (dropWhile isBlank (rev s)).
Definition trim (s : str) : str := rtrim (ltrim s).
Definition lower (s : str) : str := map tolower s.
(** [find(c)]: what precedes and what follows the first occurrence. *)
Fixpoint cut (c : Ascii.ascii) (s : str) : option (str * str) :=
  match s with
  | [] => None
  | x :: r => if eqc x c then Some ([], r) else
              match cut c r with Some (a, b) => Some (x :: a, b) | None => None end
  end.
Fixpoint prefix (p s : str) : bool :=
  match p, s with [], _ => true | _, [] => false | c :: p, x :: s => eqc c x && prefix p s end.
(** [find(pattern)]: what precedes the first occurrence and what follows it. *)
Fixpoint cutSub (p s : str) : option (str * str) :=
  if prefix p s then Some ([], drop (length p) s)
  else match s with
       | [] => None
       | x :: r => match cutSub p r with Some (a, b) => Some (x :: a, b) | None => None end
       end.
(** [std::string::operator<]: bytes as unsigned numbers. *)
Fixpoint lexLt (a b : str) : bool :=
  match a, b with
  | _, [] => false
  | [], _ => true
  | x :: a, y :: b =>
      let n := Ascii.nat_of_ascii x in let m := Ascii.nat_of_ascii y in
      Nat.ltb n m || (Nat.eqb n m && lexLt a b)
  end.

(** ** Lines *)
Inductive LineKind := Blank | Comment | Section_ | Key | CommentedKey.
#[export] Instance LineKind_eq_dec : EqDecision LineKind.
Proof. solve_decision. Defined.
Record IniLine := mkLine { kind : LineKind; text : str; eol : str; section : str; key : str; value : str }.
#[export] Instance eta_IniLine : Settable IniLine := fun l =>
  mkLine (kind l) (text l) (eol l) (section l) (key l) (value l).
Abbreviation IniDoc := (list IniLine).

Fixpoint stripAfter (prev : Ascii.ascii) (s : str) : str :=
  match s with [] => [] | c :: r => if isMark c && isBlank prev then [] else c :: stripAfter c r end.
Definition stripInlineComment (v : str) : str :=
  match v with [] => [] | c :: r => c :: stripAfter c r end.

Definition isKeyToken (s : str) : bool :=
  negb (Nat.eqb (length s) 0) && Nat.leb (length s) 96 &&
  forallb (fun c => negb (isspace c || eqc c "#"%char || eqc c ";"%char || eqc c "["%char || eqc c "]"%char)) s.

Definition splitKeyValue (body : str) : option (str * str) :=
  match cut "="%char body with
  | None => None
  | Some (a, b) => if isKeyToken (trim a) then Some (trim a, trim (stripInlineComment b)) else None
  end.

Definition sameKey (a b : str) : bool := bool_decide (lower a = lower b).
Definition dottedName (s k : str) : str := match s with [] => k | _ => s ++ lit "." ++ k end.

(** *** Parsing *)
Definition hasBom (t : str) : bool :=
  match t with a :: b :: c :: _ => eqc a (chr 239) && eqc b (chr 187) && eqc c (chr 191) | _ => false end.
Definition dropBom (t : str) : str := if hasBom t then drop 3 t else t.

(** The physical lines: text and terminator. *)
Fixpoint splitLines (cur : str) (s : str) : list (str * str) :=
  match s with
  | [] => match cur with [] => [] | _ => [(cur, [])] end
  | c :: r =>
      if eqc c CR then
        match r with
        | d :: r' => if eqc d LF then (cur, [c; d]) :: splitLines [] r' else (cur, [c]) :: splitLines [] r
        | [] => (cur, [c]) :: splitLines [] r
        end
      else if eqc c LF then (cur, [c]) :: splitLines [] r
      else splitLines (cur ++ [c]) r
  end.

(** One line under the section in force: its record and the section after it. *)
Definition classify (sec : str) (t e : str) : IniLine :=
  let line := mkLine Blank t e sec [] [] in
  let body := trim t in
  match body with
  | [] => line
  | c :: r =>
      if eqc c "["%char then
        match cut "]"%char r with
        | Some (name, _) => line <| kind := Section_ |> <| section := name |>
        | None => line <| kind := Comment |>
        end
      else if isMark c then
        match splitKeyValue (trim (dropWhile isMark body)) with
        | Some (k, v) => line <| kind := CommentedKey |> <| key := k |> <| value := v |>
        | None => line <| kind := Comment |>
        end
      else
        match splitKeyValue body with
        | Some (k, v) => line <| kind := Key |> <| key := k |> <| value := v |>
        | None => line <| kind := Comment |>
        end
  end.

Fixpoint parseLines (sec : str) (ls : list (str * str)) : IniDoc :=
  match ls with
  | [] => []
  | (t, e) :: ls => let line := classify sec t e in line :: parseLines (section line) ls
  end.

Definition iniParse (t : str) : IniDoc := parseLines [] (splitLines [] (dropBom t)).

Definition iniText (d : IniDoc) : str := concat (map (fun l => text l ++ eol l) d).

Definition dominantEol (d : IniDoc) : str :=
  match filter (fun l => eol l <> []) d with l :: _ => eol l | [] => [CR; LF] end.

(** *** Lookup *)
Definition isKeyLine (l : IniLine) : bool := bool_decide (kind l = Key) || bool_decide (kind l = CommentedKey).
Definition matches (s k : str) (l : IniLine) : bool := sameKey (section l) s && sameKey (key l) k.

Definition findKey (d : IniDoc) (s k : str) : option IniLine :=
  foldl (fun found l => if bool_decide (kind l = Key) && matches s k l then Some l else found) None d.

Record Effective := mkEff { present : bool; evalue : str; known : bool }.
#[export] Instance eta_Eff : Settable Effective := fun e => mkEff (present e) (evalue e) (known e).
Definition effectiveOf (d : IniDoc) (s k : str) : Effective :=
  foldl (fun e l =>
    if negb (isKeyLine l) then e
    else if negb (matches s k l) then e
    else
      let e := e <| known := true |> in
      if decide (kind l = Key) then e <| present := true |> <| evalue := value l |> else e)
    (mkEff false [] false) d.

(** [dotted] split at its first dot: section and key. *)
Definition splitDotted (dotted : str) : str * str :=
  match cut "."%char dotted with Some (s, k) => (s, k) | None => ([], dotted) end.

Definition iniValue (t dotted fallback : str) : str :=
  let '(s, k) := splitDotted dotted in
  let e := effectiveOf (iniParse t) s k in
  if present e then evalue e else fallback.

(** ** Rewriting one line *)
Definition rewriteValue (line newValue : str) (uncomment : bool) : str :=
  let indent := takeWhile isBlank line in
  let '(indent, work) := match ltrim line with [] => ([], line) | w => (indent, w) end in
  let work := if uncomment then ltrim (dropWhile isMark work) else work in
  match cut "="%char work with
  | None => indent ++ work
  | Some (h, tail) =>
      let head := h ++ lit "=" in
      let spacing := takeWhile isBlank tail in
      let spacing := match spacing with [] => lit " " | _ => spacing end in
      let rest := ltrim tail in
      let stripped := match rest with c :: _ => if isMark c then [] else stripInlineComment rest | [] => [] end in
      let comment := drop (length stripped) rest in
      let out := indent ++ head ++ spacing ++ newValue in
      match comment with
      | [] => out
      | _ => rtrim out ++ lit " " ++ trim comment
      end
  end.

Definition commentOut (line : str) : str :=
  match ltrim line with [] => line | w => takeWhile isBlank line ++ lit "#" ++ w end.

(** ** Annotations of the new file *)
Definition annotation (tag : str) (l : IniLine) : option str :=
  let t := trim (dropWhile isMark (trim (text l))) in
  if prefix tag (lower t) then Some (trim (drop (length tag) t)) else None.

Definition retiredStep (st : gmap str (gset str) * list str) (l : IniLine) : gmap str (gset str) * list str :=
  let '(out, pending) := st in
  match kind l with
  | Comment => (out, match annotation (lit "retired-default:") l with Some v => pending ++ [v] | None => pending end)
  | Blank | Section_ => (out, [])
  | Key | CommentedKey =>
      let id := lower (dottedName (section l) (key l)) in
      (foldl (fun out v => <[id := {[lower v]} ∪ default ∅ (out !! id)]> out) out pending, [])
  end.
Definition retiredDefaults (d : IniDoc) : gmap str (gset str) := (foldl retiredStep (∅, []) d).1.

Record MovedTarget := mkMoved { mv_section : str; mv_key : str; oldDefault : str }.
(** "spec (default X)": the old name and its default. *)
Definition movedSpec (spec : str) : str * str :=
  match cutSub (lit "(default") spec with
  | None => (spec, [])
  | Some (before, after) =>
      match cut ")"%char after with
      | None => (spec, [])
      | Some (d, _) => (trim before, trim d)
      end
  end.
Definition movedStep (st : gmap str MovedTarget * list (str * str)) (l : IniLine) : gmap str MovedTarget * list (str * str) :=
  let '(out, pending) := st in
  match kind l with
  | Comment => (out, match annotation (lit "moved-from:") l with Some v => pending ++ [movedSpec v] | None => pending end)
  | Blank | Section_ => (out, [])
  | Key | CommentedKey =>
      (foldl (fun out p => <[lower p.1 := mkMoved (section l) (key l) p.2]> out) out pending, [])
  end.
Definition movedKeys (d : IniDoc) : gmap str MovedTarget := (foldl movedStep (∅, []) d).1.

(** ** The merge *)
Record MergeReport := mkReport {
  followed : list str; kept : list str; adopted : list str; retired : list str;
  carried : list str; removed : list str; rforced : list str; twoWay : bool }.
#[export] Instance eta_Report : Settable MergeReport := fun r =>
  mkReport (followed r) (kept r) (adopted r) (retired r) (carried r) (removed r) (rforced r) (twoWay r).
Definition report0 : MergeReport := mkReport [] [] [] [] [] [] [] false.

Record MS := mkMS { replacements : gmap nat str; appended : list (str * list str); rep : MergeReport }.
#[export] Instance eta_MS : Settable MS := fun m => mkMS (replacements m) (appended m) (rep m).

(** [appended[k].push_back(x)] on a [std::map], kept in its iteration order. *)
Fixpoint pushTo (k x : str) (m : list (str * list str)) : list (str * list str) :=
  match m with
  | [] => [(k, [x])]
  | (k', xs) :: r =>
      if decide (k = k') then (k', xs ++ [x]) :: r
      else if lexLt k k' then (k, [x]) :: m
      else (k', xs) :: pushTo k x r
  end.

(** The last index whose line satisfies [p]; [None] is [npos]. *)
Definition lastIndex (p : IniLine -> bool) (d : IniDoc) : option nat :=
  foldl (fun found i => match d !! i with Some l => if p l then Some i else found | None => found end)
    None (seq 0 (length d)).

Definition keyTarget (d : IniDoc) (s k : str) : option nat := lastIndex (fun l => isKeyLine l && matches s k l) d.
Definition liveTarget (d : IniDoc) (s k : str) : option nat :=
  lastIndex (fun l => bool_decide (kind l = Key) && matches s k l) d.

(** [replacements[target] = rewriteValue(...)]. *)
Definition replaceAt (d : IniDoc) (i : nat) (v : str) (m : gmap nat str) : gmap nat str :=
  match d !! i with
  | Some l => <[i := rewriteValue (text l) v (bool_decide (kind l = CommentedKey))]> m
  | None => m
  end.

Definition pushIf (l : IniLine) (st : list (str * str) * gset str) : list (str * str) * gset str :=
  let id := lower (dottedName (section l) (key l)) in
  if decide (id ∈ st.2) then st else (st.1 ++ [(section l, key l)], {[id]} ∪ st.2).

Definition userKeysOf (userDoc baseDoc : IniDoc) (haveBase : bool) : list (str * str) :=
  let st := foldl (fun st l => if isKeyLine l then pushIf l st else st) ([], ∅) userDoc in
  let haveUser := existsb isKeyLine userDoc in
  (if haveUser && haveBase
   then foldl (fun st l => if bool_decide (kind l = Key) then pushIf l st else st) st baseDoc
   else st).1.

Definition equals (a b : str) : str := a ++ lit " = " ++ b.

Section Merge.
Context (nextDoc userDoc baseDoc : IniDoc) (forcedKeys : gset str).
Let moved := movedKeys nextDoc.
Let retiredSet := retiredDefaults nextDoc.

(** This version has no such setting: its value is kept at its section's end. *)
Definition carryOver (s k : str) (u b : Effective) (m : MS) : MS :=
  let dotted := dottedName s k in
  if present u then
    let note := if known b then lit "# carried over from your edvr.ini; this version no longer uses it"
                else lit "# carried over from your edvr.ini; not an EDVR setting this version knows" in
    let app := pushTo (lower s) (equals k (evalue u)) (pushTo (lower s) note (appended m)) in
    let r := rep m in
    m <| appended := app |>
      <| rep := if known b then r <| retired := retired r ++ [equals dotted (evalue u)] |>
                else r <| carried := carried r ++ [equals dotted (evalue u)] |> |>
  else m.

(** The [!n.known] branch. *)
Definition mergeGone (s k : str) (u b : Effective) (m : MS) : MS :=
  let dotted := dottedName s k in
  match moved !! lower dotted with
  | Some mv =>
      if present u then
        if negb (bool_decide (oldDefault mv = [])) && bool_decide (evalue u = oldDefault mv) then
          m <| rep := (rep m) <| adopted := adopted (rep m) ++
                 [equals dotted (evalue u) ++ lit "  (retired default; " ++ dottedName (mv_section mv) (mv_key mv) ++ lit " ships its own)"] |> |>
        else if present (effectiveOf userDoc (mv_section mv) (mv_key mv)) then carryOver s k u b m
        else match keyTarget nextDoc (mv_section mv) (mv_key mv) with
             | Some i =>
                 m <| replacements := replaceAt nextDoc i (evalue u) (replacements m) |>
                   <| rep := (rep m) <| followed := followed (rep m) ++
                        [equals dotted (evalue u) ++ lit "  ->  " ++ dottedName (mv_section mv) (mv_key mv)] |> |>
             | None => carryOver s k u b m
             end
      else carryOver s k u b m
  | None => carryOver s k u b m
  end.

(** The [changedByUser] branch. *)
Definition mergeChanged (s k : str) (u : Effective) (m : MS) : MS :=
  let dotted := dottedName s k in
  if present u then
    match keyTarget nextDoc s k with
    | Some i => m <| replacements := replaceAt nextDoc i (evalue u) (replacements m) |>
                  <| rep := (rep m) <| kept := kept (rep m) ++ [equals dotted (evalue u)] |> |>
    | None => m
    end
  else
    match liveTarget nextDoc s k with
    | Some i =>
        match nextDoc !! i with
        | Some l => m <| replacements := <[i := commentOut (text l)]> (replacements m) |>
                      <| rep := (rep m) <| removed := removed (rep m) ++ [dotted] |> |>
        | None => m
        end
    | None => m
    end.

Definition changedByUser (u b : Effective) : bool :=
  negb (Bool.eqb (present u) (present b)) || (present u && negb (bool_decide (evalue u = evalue b))).

Definition isRetired (dotted : str) (u : Effective) : bool :=
  present u && match retiredSet !! lower dotted with Some vs => bool_decide (lower (evalue u) ∈ vs) | None => false end.

Definition mergeKey (m : MS) (sk : str * str) : MS :=
  let '(s, k) := sk in
  let dotted := dottedName s k in
  if decide (lower dotted ∈ forcedKeys) then m
  else
    let u := effectiveOf userDoc s k in
    let b := effectiveOf baseDoc s k in
    let n := effectiveOf nextDoc s k in
    if negb (known n) then mergeGone s k u b m
    else if isRetired dotted u then
      m <| rep := (rep m) <| adopted := adopted (rep m) ++
             [equals dotted (evalue u) ++ lit "  (a default this version retired; it now ships " ++ evalue n ++
              lit " -- set it again if you meant it)"] |> |>
    else if changedByUser u b then mergeChanged s k u m
    else if known b && (negb (Bool.eqb (present n) (present b)) || negb (bool_decide (evalue n = evalue b))) then
      m <| rep := (rep m) <| adopted := adopted (rep m) ++
             [equals dotted (if present n then evalue n else lit "(default)")] |> |>
    else m.

Definition applyForced (m : MS) (f : str * str) : MS :=
  let '(dotted, v) := f in
  let '(s, k) := splitDotted dotted in
  let m := match keyTarget nextDoc s k with
           | Some i => m <| replacements := replaceAt nextDoc i v (replacements m) |>
           | None => m <| appended := pushTo (lower s) (equals k v) (appended m) |>
           end in
  m <| rep := (rep m) <| rforced := rforced (rep m) ++ [equals dotted v] |> |>.

Definition lastLineOfSection (s : str) : option nat := lastIndex (fun l => sameKey (section l) s) nextDoc.

Definition commentLine (e s : str) : IniLine := mkLine Comment s e [] [] [].

(** Insert a block before the trailing blank lines of [out]. *)
Fixpoint dropBlanks (d : IniDoc) : IniDoc :=
  match d with [] => [] | l :: r => if decide (kind l = Blank) then dropBlanks r else d end.
Definition insertBlock (out block : IniDoc) : IniDoc :=
  let body := rev (dropBlanks (rev out)) in body ++ block ++ drop (length body) out.

Definition emitLine (e : str) (m : MS) (appendAfter : gmap nat (list str)) (out : IniDoc) (i : nat) (l : IniLine) : IniDoc :=
  let l := match replacements m !! i with
           | Some t => let l := l <| text := t |> in match eol l with [] => l <| eol := e |> | _ => l end
           | None => l
           end in
  let out := out ++ [l] in
  match appendAfter !! i with
  | Some block => insertBlock out (map (commentLine e) block)
  | None => out
  end.

Fixpoint emitFrom (e : str) (m : MS) (appendAfter : gmap nat (list str)) (out : IniDoc) (i : nat) (d : IniDoc) : IniDoc :=
  match d with [] => out | l :: d => emitFrom e m appendAfter (emitLine e m appendAfter out i l) (S i) d end.

(** A section the new file does not have. *)
Definition orphan (e : str) (kv : str * list str) : IniDoc :=
  [mkLine Blank [] e [] [] []; mkLine Section_ (lit "[" ++ kv.1 ++ lit "]") e [] [] []] ++ map (commentLine e) kv.2.

Definition emit (m : MS) : IniDoc :=
  let e := dominantEol nextDoc in
  let appendAfter := foldl (fun a kv => match lastLineOfSection kv.1 with Some i => <[i := kv.2]> a | None => a end) ∅ (appended m) in
  let orphans := filter (fun kv : str * list str => lastLineOfSection kv.1 = None) (appended m) in
  emitFrom e m appendAfter [] 0 nextDoc ++ concat (map (orphan e) orphans).
End Merge.

Definition mergeIni (next user : str) (base : option str) (forced : list (str * str)) (r : MergeReport) : str * MergeReport :=
  let nextDoc := iniParse next in
  let userDoc := iniParse user in
  let baseDoc := iniParse (default next base) in
  let forcedKeys := list_to_set (map (fun f : str * str => lower f.1) forced) in
  let r := r <| twoWay := bool_decide (base = None) |> in
  let m := foldl (mergeKey nextDoc userDoc baseDoc forcedKeys) (mkMS ∅ [] r)
             (userKeysOf userDoc baseDoc (negb (bool_decide (base = None)))) in
  let m := foldl (applyForced nextDoc) m forced in
  (iniText (emit nextDoc m), rep m).

(** ** The game's reader: the loop of [Config::parse] over the file's bytes

    [auditResolve], which applies a table of moved keys registered at run time,
    comes after it and is not part of the grammar. *)
Definition readLine (st : str * gmap str str) (line : str) : str * gmap str str :=
  let '(section, parsed) := st in
  match ltrim line with
  | [] => st
  | c :: r =>
      if isMark c then st
      else if eqc c "["%char then
        match cut "]"%char r with Some (name, _) => (name, parsed) | None => st end
      else match cut "="%char (c :: r) with
           | None => st
           | Some (a, b) =>
               let key := trim a in
               let val := trim (stripInlineComment b) in
               match key with
               | [] => st
               | _ => (section, <[lower (dottedName section key) := val]> parsed)
               end
           end
  end.

(** The lines, each loop turn skipping every line break behind its line; one
    byte at least is consumed per turn, so the text's length is enough fuel. *)
Fixpoint readFrom (fuel : nat) (s : str) : list str :=
  match fuel, s with
  | S fuel, _ :: _ =>
      takeWhile (fun c => negb (isEol c)) s ::
      readFrom fuel (dropWhile isEol (dropWhile (fun c => negb (isEol c)) s))
  | _, _ => []
  end.

Definition configParse (t : str) : gmap str str :=
  let s := dropBom t in (foldl readLine ([], ∅) (readFrom (length s) s)).2.

(** ** Bytes and trimming *)
Lemma eqc_spec c d : eqc c d = true <-> c = d.
Proof. apply Ascii.eqb_eq. Qed.
Lemma eqc_refl c : eqc c c = true.
Proof. by apply eqc_spec. Qed.

Lemma dropWhile_split p s : takeWhile p s ++ dropWhile p s = s.
Proof. induction s as [|c s IH]; cbn; [done|]. destruct (p c); cbn; [by rewrite IH | done]. Qed.
Lemma takeWhile_all p s : forallb p (takeWhile p s) = true.
Proof. induction s as [|c s IH]; cbn; [done|]. destruct (p c) eqn:E; cbn; [by rewrite E | done]. Qed.
Lemma dropWhile_head p s c r : dropWhile p s = c :: r -> p c = false.
Proof. induction s as [|d s IH]; cbn; [done|]. destruct (p d) eqn:E; [done|]. by intros [= -> ->]. Qed.
Lemma dropWhile_all p x y : forallb p x = true -> dropWhile p (x ++ y) = dropWhile p y.
Proof. induction x as [|c x IH]; cbn; [done|]. intros H. apply andb_true_iff in H as [-> H]. auto. Qed.
Lemma dropWhile_stop p c s : p c = false -> dropWhile p (c :: s) = c :: s.
Proof. cbn. by intros ->. Qed.
Lemma dropWhile_idem p s : dropWhile p (dropWhile p s) = dropWhile p s.
Proof. destruct (dropWhile p s) as [|c r] eqn:E; [done|]. by apply dropWhile_stop, (dropWhile_head p s c r). Qed.
Lemma dropWhile_app p x y : dropWhile p x <> [] -> dropWhile p (x ++ y) = dropWhile p x ++ y.
Proof. induction x as [|c x IH]; cbn; [done|]. destruct (p c); auto. Qed.
Lemma dropWhile_nil p x y : dropWhile p x = [] -> dropWhile p (x ++ y) = dropWhile p y.
Proof. induction x as [|c x IH]; cbn; [done|]. destruct (p c); [auto | done]. Qed.
Lemma forallb_rev p (s : str) : forallb p (rev s) = forallb p s.
Proof. induction s as [|c s IH]; cbn; [done|]. rewrite forallb_app, IH. cbn. by rewrite andb_true_r, andb_comm. Qed.

Lemma ltrim_blanks x y : forallb isBlank x = true -> ltrim (x ++ y) = ltrim y.
Proof. apply dropWhile_all. Qed.
Lemma ltrim_stop c s : isBlank c = false -> ltrim (c :: s) = c :: s.
Proof. apply dropWhile_stop. Qed.
Lemma ltrim_idem s : ltrim (ltrim s) = ltrim s.
Proof. apply dropWhile_idem. Qed.

Lemma rtrim_split s : exists bl, s = rtrim s ++ bl /\ forallb isBlank bl = true.
Proof.
  exists (rev (takeWhile isBlank (rev s))). unfold rtrim. rewrite forallb_rev, takeWhile_all. split; [|done].
  rewrite <- (rev_involutive s) at 1. rewrite <- (dropWhile_split isBlank (rev s)) at 1. by rewrite rev_app_distr.
Qed.
Lemma rtrim_blanks x bl : forallb isBlank bl = true -> rtrim (x ++ bl) = rtrim x.
Proof. intros H. unfold rtrim. rewrite rev_app_distr, dropWhile_all; [done|]. by rewrite forallb_rev. Qed.
Lemma rtrim_stop x c : isBlank c = false -> rtrim (x ++ [c]) = x ++ [c].
Proof. intros H. unfold rtrim. rewrite rev_app_distr. cbn. rewrite H. cbn. by rewrite rev_involutive. Qed.
Lemma rtrim_keep x c y : isBlank c = false -> rtrim (x ++ c :: y) = x ++ c :: rtrim y.
Proof.
  intros H. unfold rtrim. rewrite rev_app_distr. cbn [rev]. rewrite <- app_assoc. cbn [app].
  destruct (dropWhile isBlank (rev y)) as [|d r] eqn:E.
  - rewrite dropWhile_nil by done. rewrite dropWhile_stop by done. cbn. by rewrite rev_involutive.
  - rewrite dropWhile_app by (by rewrite E). rewrite E. rewrite rev_app_distr. cbn [rev]. rewrite rev_involutive. by rewrite <- !app_assoc.
Qed.
Lemma rtrim_idem s : rtrim (rtrim s) = rtrim s.
Proof. destruct (rtrim_split s) as (bl & E & H). rewrite <- (rtrim_blanks (rtrim s) bl H). by rewrite <- E. Qed.
Lemma rtrim_all_blank bl : forallb isBlank bl = true -> rtrim bl = [].
Proof. intros H. exact (rtrim_blanks [] bl H). Qed.
Lemma ltrim_rtrim s : ltrim s = s -> ltrim (rtrim s) = rtrim s.
Proof.
  intros H. destruct s as [|c s]; [done|]. assert (Hc : isBlank c = false) by by apply (dropWhile_head isBlank (c :: s) c s).
  rewrite (rtrim_keep [] c s Hc : rtrim (c :: s) = c :: rtrim s). by apply ltrim_stop.
Qed.
Lemma trim_idem s : trim (trim s) = trim s.
Proof. unfold trim. rewrite ltrim_rtrim by apply ltrim_idem. apply rtrim_idem. Qed.

Lemma cut_app c s a b x : cut c s = Some (a, b) -> cut c (s ++ x) = Some (a, b ++ x).
Proof.
  revert a b. induction s as [|d s IH]; intros a b; cbn; [done|]. destruct (eqc d c); [by intros [= <- <-]|].
  destruct (cut c s) as [[a' b']|]; [|done]. intros [= <- <-]. by rewrite (IH a' b').
Qed.
Lemma cut_spec c s a b : cut c s = Some (a, b) -> s = a ++ c :: b /\ ~ In c a.
Proof.
  revert a b. induction s as [|d s IH]; intros a b; cbn; [done|]. destruct (eqc d c) eqn:E.
  - apply eqc_spec in E as ->. intros [= <- <-]. split; [done | intros []].
  - destruct (cut c s) as [[a' b']|]; [|done]. intros [= <- <-]. destruct (IH a' b' eq_refl) as [-> H]. split; [done|].
    intros [-> | Hin]; [|done]. by rewrite eqc_refl in E.
Qed.
Lemma cut_intro c a b : ~ In c a -> cut c (a ++ c :: b) = Some (a, b).
Proof.
  induction a as [|d a IH]; intros H; cbn; [by rewrite eqc_refl|].
  destruct (eqc d c) eqn:E; [apply eqc_spec in E; subst; exfalso; apply H; by left|].
  rewrite IH; [done|]. intros Hin. apply H. by right.
Qed.

(** ** Physical lines *)
Definition joined (ls : list (str * str)) : str := concat (map (fun l => l.1 ++ l.2) ls).

(** Induction two bytes at a time. *)
Lemma str_ind2 (P : str -> Prop) :
  P [] -> (forall c, P [c]) -> (forall c d s, P s -> P (d :: s) -> P (c :: d :: s)) -> forall s, P s.
Proof.
  intros H0 H1 H2 s. enough (H : P s /\ forall c, P (c :: s)) by apply H.
  induction s as [|d s [IH1 IH2]]; [auto|]. split; auto.
Qed.

Lemma splitLines_cons2 cur c d s : splitLines cur (c :: d :: s) =
  if eqc c CR then if eqc d LF then (cur, [c; d]) :: splitLines [] s else (cur, [c]) :: splitLines [] (d :: s)
  else if eqc c LF then (cur, [c]) :: splitLines [] (d :: s) else splitLines (cur ++ [c]) (d :: s).
Proof. reflexivity. Qed.

Lemma joined_split : forall s cur, joined (splitLines cur s) = cur ++ s.
Proof.
  assert (Hnil : forall cur, joined (splitLines cur []) = cur ++ []).
  { intros [|c r]; [done|]. unfold joined. cbn. by rewrite !app_nil_r. }
  induction s as [|c|c d s IH1 IH2] using str_ind2; intros cur; [done | |].
  - cbn. destruct (eqc c CR); [cbn; by rewrite app_nil_r|]. destruct (eqc c LF); [cbn; by rewrite app_nil_r|].
    destruct (cur ++ [c]) eqn:E; [by destruct cur|]. cbn. by rewrite !app_nil_r.
  - rewrite splitLines_cons2. destruct (eqc c CR).
    + destruct (eqc d LF).
      * unfold joined in *. cbn [map concat fst snd]. rewrite IH1. cbn. by rewrite <- !app_assoc.
      * 
        unfold joined in *. cbn [map concat fst snd]. rewrite IH2. cbn. by rewrite <- !app_assoc.
    + destruct (eqc c LF).
      * 
        unfold joined in *. cbn [map concat fst snd]. rewrite IH2. cbn. by rewrite <- !app_assoc.
      * rewrite IH2. by rewrite <- app_assoc.
Qed.

Lemma classify_text sec t e : text (classify sec t e) = t /\ eol (classify sec t e) = e.
Proof. unfold classify. repeat case_match; done. Qed.

Lemma parseLines_physical ls : forall sec, map (fun l => (text l, eol l)) (parseLines sec ls) = ls.
Proof.
  induction ls as [|[t e] ls IH]; intros sec; cbn; [done|].
  destruct (classify_text sec t e) as [-> ->]. by rewrite IH.
Qed.

Lemma iniText_joined d : iniText d = joined (map (fun l => (text l, eol l)) d).
Proof. unfold iniText, joined. by rewrite map_map. Qed.

Lemma iniText_parse t : iniText (iniParse t) = dropBom t.
Proof. unfold iniParse. by rewrite iniText_joined, parseLines_physical, joined_split. Qed.

(** Lines that the splitter can return: no line break inside, a terminator on
    every line but the last, and no CR LF pair across two lines. *)
Definition noEol (t : str) : Prop := forallb (fun c => negb (isEol c)) t = true.
Definition startsLF (s : str) : bool := match s with c :: _ => eqc c LF | [] => false end.
Fixpoint wfLines (ls : list (str * str)) : Prop :=
  match ls with
  | [] => True
  | (t, e) :: r =>
      noEol t /\ (e = [CR; LF] \/ e = [LF] \/ (e = [CR] /\ startsLF (joined r) = false) \/ (e = [] /\ t <> [] /\ r = [])) /\
      wfLines r
  end.

Lemma noEol_cons c t : noEol (c :: t) <-> isEol c = false /\ noEol t.
Proof. unfold noEol. cbn. rewrite andb_true_iff, negb_true_iff. done. Qed.
Lemma noEol_app x y : noEol (x ++ y) <-> noEol x /\ noEol y.
Proof. unfold noEol. by rewrite forallb_app, andb_true_iff. Qed.

Lemma splitLines_wf : forall s cur, noEol cur -> wfLines (splitLines cur s).
Proof.
  assert (Hn : noEol []) by done.
  induction s as [|c|c d s IH1 IH2] using str_ind2; intros cur Hc.
  - cbn. destruct cur; [done|]. cbn. split_and!; auto 7.
  - cbn. destruct (eqc c CR) eqn:E1; [apply eqc_spec in E1; subst; cbn; split_and!; auto 7|].
    destruct (eqc c LF) eqn:E2; [apply eqc_spec in E2; subst; cbn; split_and!; auto 7|].
    destruct (cur ++ [c]) eqn:E; [by destruct cur|]. rewrite <- E. cbn. rewrite noEol_app, noEol_cons. unfold isEol.
    rewrite E1, E2. split; [by split_and!|]. split; [|done]. right; right; right. split_and!; [done | by destruct cur | done].
  - rewrite splitLines_cons2. destruct (eqc c CR) eqn:E1.
    + apply eqc_spec in E1 as ->. destruct (eqc d LF) eqn:E3.
      * apply eqc_spec in E3 as ->. cbn [wfLines]. split_and!; auto.
      * cbn [wfLines]. rewrite joined_split. cbn [startsLF app].
        split_and!; auto.
    + destruct (eqc c LF) eqn:E2.
      * apply eqc_spec in E2 as ->. cbn [wfLines]. split_and!; auto.
      * apply IH2. rewrite noEol_app, noEol_cons. unfold isEol. by rewrite E1, E2.
Qed.

Lemma splitLines_text t rest cur : noEol t -> splitLines cur (t ++ rest) = splitLines (cur ++ t) rest.
Proof.
  revert cur. induction t as [|c t IH]; intros cur Ht; [by rewrite app_nil_r|].
  apply noEol_cons in Ht as [Hc Ht]. unfold isEol in Hc. apply orb_false_iff in Hc as [H1 H2].
  cbn [splitLines app]. rewrite H2, H1, IH by done. by rewrite <- app_assoc.
Qed.

Lemma splitLines_join ls : wfLines ls -> splitLines [] (joined ls) = ls.
Proof.
  induction ls as [|[t e] r IH]; [done|]. intros (Ht & He & Hr). specialize (IH Hr).
  unfold joined in *. cbn [map concat fst snd]. fold (joined r) in *. rewrite <- app_assoc, splitLines_text by done. cbn [app].
  destruct He as [-> | [-> | [[-> HLF] | (-> & Hne & ->)]]].
  - cbn -[joined]. by rewrite IH.
  - cbn -[joined]. by rewrite IH.
  - change (splitLines t (CR :: joined r) = (t, [CR]) :: r). cbn [splitLines]. rewrite eqc_refl.
    destruct (joined r) as [|d s] eqn:E; [by rewrite <- IH|]. cbn in HLF. rewrite HLF. by rewrite IH.
  - cbn. by destruct t.
Qed.

(** ** Lookup *)
Definition live (s k : str) (l : IniLine) : bool := bool_decide (kind l = Key) && matches s k l.
Definition named (s k : str) (l : IniLine) : bool := isKeyLine l && matches s k l.

(** The last line of a document that satisfies [p]. *)
Definition lastLine (p : IniLine -> bool) (d : IniDoc) : option IniLine := last (filter (fun l => p l = true) d).

Lemma filter_snoc (p : IniLine -> bool) d l :
  filter (fun l => p l = true) (d ++ [l]) = filter (fun l => p l = true) d ++ (if p l then [l] else []).
Proof. rewrite filter_app. f_equal. cbn. unfold filter. cbn. destruct (p l); done. Qed.

Lemma lastLine_snoc p d l : lastLine p (d ++ [l]) = if p l then Some l else lastLine p d.
Proof. unfold lastLine. rewrite filter_snoc. destruct (p l); [by rewrite last_snoc | by rewrite app_nil_r]. Qed.

Lemma findKey_last d s k : findKey d s k = lastLine (live s k) d.
Proof.
  unfold findKey. induction d as [|l d IH] using rev_ind; [done|]. rewrite foldl_app, lastLine_snoc. cbn. rewrite IH. done.
Qed.

Lemma live_named s k l : live s k l = true -> named s k l = true.
Proof. unfold live, named, isKeyLine. intros H. apply andb_true_iff in H as [-> ->]. done. Qed.

Lemma effectiveOf_spec d s k : effectiveOf d s k =
  mkEff (bool_decide (is_Some (lastLine (live s k) d))) (default [] (value <$> lastLine (live s k) d)) (existsb (named s k) d).
Proof.
  unfold effectiveOf. induction d as [|l d IH] using rev_ind; [done|].
  rewrite foldl_app, lastLine_snoc, existsb_app, IH. cbn [foldl existsb]. rewrite orb_false_r.
  assert (Hl : live s k l = bool_decide (kind l = Key) && matches s k l) by done.
  assert (Hn : named s k l = isKeyLine l && matches s k l) by done.
  rewrite Hl, Hn. unfold isKeyLine. destruct (matches s k l), (kind l); cbn; rewrite ?orb_true_r, ?orb_false_r; try done.
  all: by destruct (lastLine (live s k) d).
Qed.

(** The last position satisfying [p], and the document cut there. *)
Lemma lastIndex_snoc p d l : lastIndex p (d ++ [l]) = if p l then Some (length d) else lastIndex p d.
Proof.
  unfold lastIndex. rewrite length_app. cbn [length]. rewrite Nat.add_1_r, seq_S, foldl_app. cbn.
  rewrite lookup_app_r, Nat.sub_diag by done. cbn. destruct (p l); [done|].
  enough (H : forall ids acc, Forall (fun i => (i < length d)%nat) ids ->
    foldl (fun found i => match (d ++ [l]) !! i with Some x => if p x then Some i else found | None => found end) acc ids =
    foldl (fun found i => match d !! i with Some x => if p x then Some i else found | None => found end) acc ids).
  { apply H, Forall_seq. lia. }
  intros ids. induction ids as [|i ids IH]; intros acc HF; [done|]. apply Forall_cons in HF as [Hi HF]. cbn.
  rewrite lookup_app_l by done. by apply IH.
Qed.

Lemma lastIndex_spec p d i : lastIndex p d = Some i ->
  exists d1 l d2, d = d1 ++ l :: d2 /\ length d1 = i /\ p l = true /\ existsb p d2 = false.
Proof.
  revert i. induction d as [|l d IH] using rev_ind; intros i; [done|]. rewrite lastIndex_snoc. destruct (p l) eqn:Hp.
  - intros [= <-]. by exists d, l, [].
  - intros H. destruct (IH i H) as (d1 & x & d2 & -> & Hl & Hx & Hd). exists d1, x, (d2 ++ [l]).
    rewrite <- app_assoc, existsb_app, Hd. cbn. by rewrite Hp.
Qed.

Lemma lastIndex_none p d : lastIndex p d = None <-> existsb p d = false.
Proof.
  induction d as [|l d IH] using rev_ind; [done|]. rewrite lastIndex_snoc, existsb_app. cbn.
  destruct (p l); [by rewrite orb_true_r|]. by rewrite !orb_false_r.
Qed.

Lemma lastLine_app p d1 d2 : existsb p d2 = false -> lastLine p (d1 ++ d2) = lastLine p d1.
Proof.
  induction d2 as [|l d2 IH] using rev_ind; [by rewrite app_nil_r|]. rewrite existsb_app. cbn. rewrite orb_false_r.
  intros H. apply orb_false_iff in H as [H1 H2]. rewrite app_assoc, lastLine_snoc, H2. auto.
Qed.

(** ** Reading a rewritten line back *)

(** A value the line grammar can carry: trimmed, no inline comment in it, not
    starting with a comment mark, no line break. *)
Definition cleanValue (v : str) : Prop :=
  trim v = v /\ stripInlineComment v = v /\ (forall c r, v = c :: r -> isMark c = false) /\ noEol v.

Lemma isKeyToken_spec k : isKeyToken k = true ->
  exists c r, k = c :: r /\ isMark c = false /\ eqc c "["%char = false /\ isBlank c = false.
Proof.
  unfold isKeyToken. destruct k as [|c r]; [done|]. cbn [length Nat.eqb negb andb forallb]. intros H.
  apply andb_true_iff in H as [_ H]. apply andb_true_iff in H as [H _]. apply negb_true_iff in H.
  apply orb_false_iff in H as [H _]. apply orb_false_iff in H as [H H4]. apply orb_false_iff in H as [H H3].
  apply orb_false_iff in H as [H1 H2]. exists c, r. unfold isMark. rewrite H2, H3, H4. split_and!; try done.
  unfold isBlank. destruct (eqc c " "%char) eqn:E1; [by apply eqc_spec in E1; subst|].
  destruct (eqc c TAB) eqn:E2; [by apply eqc_spec in E2; subst | done].
Qed.

Lemma blank_not_mark c : isBlank c = true -> isMark c = false.
Proof.
  unfold isBlank, isMark. intros H. apply orb_true_iff in H as [H|H]; apply eqc_spec in H; subst; done.
Qed.

Lemma stripAfter_blanks p bl y : forallb isBlank bl = true ->
  stripAfter p (bl ++ y) = bl ++ stripAfter (List.last bl p) y.
Proof.
  revert p. induction bl as [|c bl IH]; intros p H; [done|]. cbn in H. apply andb_true_iff in H as [Hc H].
  cbn [app stripAfter]. rewrite (blank_not_mark _ Hc). cbn [andb]. rewrite IH by done. cbn. f_equal. f_equal. f_equal.
  destruct bl; [done|]. cbn. clear. revert a c p. induction bl; intros; cbn in *; auto.
Qed.

(** A value behind its spacing survives the inline-comment rule. *)
Lemma strip_spaced sp v : forallb isBlank sp = true -> stripInlineComment v = v ->
  (forall c r, v = c :: r -> isMark c = false) -> stripInlineComment (sp ++ v) = sp ++ v.
Proof.
  intros Hsp Hv Hm. destruct sp as [|c sp]; [done|]. cbn in Hsp. apply andb_true_iff in Hsp as [Hc Hsp].
  cbn [app stripInlineComment]. rewrite stripAfter_blanks by done. do 2 f_equal.
  destruct v as [|d v]; [done|]. cbn. rewrite (Hm d v eq_refl). cbn. by injection Hv as Hv; rewrite Hv.
Qed.

(** Everything behind a blank and a mark is comment. *)
Lemma stripAfter_cut p x m cs : isMark m = true -> stripAfter p (x ++ lit " ") = x ++ lit " " ->
  stripAfter p (x ++ lit " " ++ m :: cs) = x ++ lit " ".
Proof.
  intros Hm. revert p. induction x as [|c x IH]; intros p; cbn.
  - intros _. by rewrite Hm.
  - destruct (isMark c && isBlank p); [done|]. intros [= H]. f_equal. by apply IH.
Qed.
Lemma strip_cut x m cs : isMark m = true -> stripInlineComment (x ++ lit " ") = x ++ lit " " ->
  stripInlineComment (x ++ lit " " ++ m :: cs) = x ++ lit " ".
Proof.
  intros Hm. destruct x as [|c x]; cbn; [intros _; by rewrite Hm|]. intros [= H]. f_equal. by apply stripAfter_cut.
Qed.

Lemma stripAfter_app_blank p x : stripAfter p x = x -> stripAfter p (x ++ lit " ") = x ++ lit " ".
Proof.
  revert p. induction x as [|c x IH]; intros p; cbn; [done|]. destruct (isMark c && isBlank p); [done|].
  intros [= H]. f_equal. by apply IH.
Qed.
Lemma strip_app_blank x : stripInlineComment x = x -> stripInlineComment (x ++ lit " ") = x ++ lit " ".
Proof. destruct x as [|c x]; [done|]. cbn. intros [= H]. f_equal. by apply stripAfter_app_blank. Qed.

(** What is left of a value once its line was rewritten: [sp ++ v], trimmed at
    the end, optionally followed by the old comment. *)
Lemma spaced_rtrim sp v : forallb isBlank sp = true -> trim v = v -> rtrim (sp ++ v) = match v with [] => [] | _ => sp ++ v end.
Proof.
  intros Hsp Hv. destruct v as [|c v].
  - rewrite app_nil_r. by apply rtrim_all_blank.
  - assert (Hl : ltrim (c :: v) = c :: v).
    { rewrite <- Hv. apply ltrim_rtrim, ltrim_idem. }
    assert (Hc : isBlank c = false) by by apply (dropWhile_head isBlank (c :: v) c v).
    unfold trim in Hv. rewrite Hl in Hv. rewrite rtrim_keep by done.
    rewrite (rtrim_keep [] c v Hc : rtrim (c :: v) = c :: rtrim v) in Hv. by injection Hv as ->.
Qed.

Lemma trim_spaced sp v : forallb isBlank sp = true -> trim v = v -> trim (sp ++ v) = v.
Proof. intros Hsp Hv. unfold trim. rewrite ltrim_blanks by done. exact Hv. Qed.

Lemma trim_app_blank x : trim (x ++ lit " ") = trim x.
Proof.
  unfold trim. destruct (ltrim x) as [|c r] eqn:E.
  - unfold ltrim in *. rewrite dropWhile_nil by done. done.
  - unfold ltrim in *. rewrite dropWhile_app, E by (by rewrite E). by apply rtrim_blanks.
Qed.

Lemma value_plain sp v : forallb isBlank sp = true -> cleanValue v ->
  trim (stripInlineComment (rtrim (sp ++ v))) = v.
Proof.
  intros Hsp (Ht & Hs & Hm & _). rewrite spaced_rtrim by done. destruct v as [|c v]; [done|].
  rewrite strip_spaced by done. by apply trim_spaced.
Qed.

Lemma value_commented sp v m cs : forallb isBlank sp = true -> cleanValue v -> isMark m = true ->
  trim (stripInlineComment (rtrim (sp ++ v) ++ lit " " ++ m :: cs)) = v.
Proof.
  intros Hsp (Ht & Hs & Hm & _) Hmk. rewrite strip_cut; [|done|].
  - rewrite trim_app_blank. rewrite spaced_rtrim by done. destruct v as [|c v]; [done|]. by apply trim_spaced.
  - apply strip_app_blank. rewrite spaced_rtrim by done. destruct v; [done|]. by apply strip_spaced.
Qed.

(** The parts a rewritten line is made of. *)
Definition workOf (t : str) (unc : bool) : str := if unc then ltrim (dropWhile isMark (ltrim t)) else ltrim t.

Lemma ltrim_split x bl y : ltrim x = x -> x <> [] -> x ++ bl = y -> ltrim y = y.
Proof. intros H Hne <-. unfold ltrim in *. rewrite dropWhile_app by (by rewrite H). by rewrite H. Qed.

Lemma splitKeyValue_spec x k v : splitKeyValue x = Some (k, v) ->
  exists a b, cut "="%char x = Some (a, b) /\ trim a = k /\ isKeyToken k = true.
Proof.
  unfold splitKeyValue. destruct (cut "="%char x) as [[a b]|]; [|done].
  destruct (isKeyToken (trim a)) eqn:H; [|done]. intros [= <- <-]. by exists a, b.
Qed.

Lemma classify_work sec t e (unc : bool) : kind (classify sec t e) = (if unc then CommentedKey else Key) ->
  ltrim t <> [] /\ exists a b, cut "="%char (workOf t unc) = Some (a, b) /\ ltrim a = a /\
    trim a = key (classify sec t e) /\ isKeyToken (trim a) = true /\ section (classify sec t e) = sec.
Proof.
  unfold classify. destruct (trim t) as [|c body] eqn:Ht; [by destruct unc|].
  destruct (rtrim_split (ltrim t)) as (bl & Et & Hbl). fold (trim t) in Et. rewrite Ht in Et.
  assert (Hne : ltrim t <> []) by by rewrite Et.
  destruct (eqc c "["%char); [destruct (cut _ _) as [[]|]; by destruct unc|].
  assert (Hstop : forall x a b bl' : str, ltrim x = x -> cut "="%char x = Some (a, b) -> isKeyToken (trim a) = true ->
            cut "="%char (x ++ bl') = Some (a, b ++ bl') /\ ltrim a = a).
  { intros x a b bl' Hx Hcut Htok. split; [by apply cut_app|]. destruct (cut_spec _ _ _ _ Hcut) as [-> _].
    destruct a as [|d a]; [done|]. apply ltrim_stop. by apply (dropWhile_head isBlank ((d :: a) ++ "="%char :: b) d (a ++ "="%char :: b)). }
  destruct (isMark c) eqn:Hm.
  - destruct (splitKeyValue _) as [[k v]|] eqn:Hs; [|by destruct unc]. destruct unc; [|done]. intros _. split; [done|].
    destruct (splitKeyValue_spec _ _ _ Hs) as (a & b & Hcut & Ha & Htok). subst k.
    set (y := dropWhile isMark (c :: body)) in *.
    assert (Hy : ltrim y <> []) by (intros E; unfold trim in Hcut; by rewrite E in Hcut).
    assert (Hy' : y <> []) by (intros E; by rewrite E in Hy).
    destruct (rtrim_split (ltrim y)) as (bl2 & Ey & _). fold (trim y) in Ey.
    assert (Hx : ltrim (trim y) = trim y) by apply ltrim_rtrim, ltrim_idem.
    destruct (Hstop (trim y) a b (bl2 ++ bl) Hx Hcut Htok) as [Hc2 Hla].
    exists a, (b ++ bl2 ++ bl). cbn [workOf key section]. split_and!; try done. unfold workOf. rewrite Et, dropWhile_app by done.
    fold y. unfold ltrim at 1. rewrite dropWhile_app by done. fold (ltrim y). rewrite Ey at 1. by rewrite <- app_assoc.
  - destruct (splitKeyValue _) as [[k v]|] eqn:Hs; [|by destruct unc]. destruct unc; [done|]. intros _. split; [done|].
    destruct (splitKeyValue_spec _ _ _ Hs) as (a & b & Hcut & Ha & Htok). subst k.
    assert (Hx : ltrim (c :: body) = c :: body).
    { rewrite <- Ht. apply ltrim_rtrim, ltrim_idem. }
    destruct (Hstop (c :: body) a b bl Hx Hcut Htok) as [Hc2 Hla]. exists a, (b ++ bl). unfold workOf. rewrite Et. by split_and!.
Qed.

Lemma stripAfter_rest p s : match drop (length (stripAfter p s)) s with [] => True | c :: _ => isMark c = true end.
Proof.
  revert p. induction s as [|c s IH]; intros p; cbn; [done|]. destruct (isMark c && isBlank p) eqn:E; cbn; [|apply IH].
  by apply andb_true_iff in E as [-> _].
Qed.
Lemma stripInline_rest s : match drop (length (stripInlineComment s)) s with [] => True | c :: _ => isMark c = true end.
Proof. destruct s as [|c s]; cbn; [done|]. apply stripAfter_rest. Qed.

Lemma rewriteValue_shape t v unc a b : ltrim t <> [] -> cut "="%char (workOf t unc) = Some (a, b) ->
  exists sp, forallb isBlank sp = true /\
   (rewriteValue t v unc = takeWhile isBlank t ++ a ++ lit "=" ++ sp ++ v \/
    exists m cs, isMark m = true /\ rtrim cs = cs /\ (forall p, forallb p b = true -> forallb p (m :: cs) = true) /\
      rewriteValue t v unc = takeWhile isBlank t ++ a ++ lit "=" ++ rtrim (sp ++ v) ++ lit " " ++ m :: cs).
Proof.
  intros Hne Hcut. unfold rewriteValue. destruct (ltrim t) as [|c0 w0] eqn:El; [done|]. cbv beta iota zeta.
  assert (Hw : (if unc then ltrim (dropWhile isMark (c0 :: w0)) else c0 :: w0) = workOf t unc) by (unfold workOf; by rewrite El).
  rewrite Hw, Hcut. set (sp := match takeWhile isBlank b with [] => lit " " | _ => takeWhile isBlank b end).
  assert (Hsp : forallb isBlank sp = true).
  { unfold sp. pose proof (takeWhile_all isBlank b). by destruct (takeWhile isBlank b). }
  replace (match takeWhile isBlank b with [] => lit " " | a0 :: l => a0 :: l end) with sp by (unfold sp; by destruct (takeWhile isBlank b)).
  exists sp. split; [done|]. set (stripped := match ltrim b with [] => [] | _ => _ end).
  destruct (drop (length stripped) (ltrim b)) as [|m r] eqn:Ed; [left; by rewrite <- !app_assoc|]. right.
  assert (Hm : isMark m = true).
  { destruct (ltrim b) as [|d y] eqn:Eb; [by rewrite drop_nil in Ed|]. unfold stripped in Ed. destruct (isMark d) eqn:Hd.
    - cbn in Ed. by injection Ed as -> _.
    - pose proof (stripInline_rest (d :: y)) as H. by rewrite Ed in H. }
  assert (Hb : isBlank m = false).
  { destruct (isBlank m) eqn:E; [|done]. apply blank_not_mark in E. congruence. }
  exists m, (rtrim r). split_and!; [done | apply rtrim_idem | |].
  - intros p Hp. assert (Hs : forallb p (m :: r) = true).
    { rewrite <- Ed. rewrite <- (dropWhile_split isBlank b), forallb_app in Hp. apply andb_true_iff in Hp as [_ Hp]. fold (ltrim b) in Hp.
      rewrite <- (take_drop (length stripped) (ltrim b)), forallb_app in Hp. by apply andb_true_iff in Hp as [_ ?]. }
    destruct (rtrim_split r) as (bl & E & _). rewrite E in Hs. cbn in *. rewrite forallb_app in Hs.
    apply andb_true_iff in Hs as [-> Hs]. by apply andb_true_iff in Hs as [-> _].
  - unfold trim. rewrite ltrim_stop, (rtrim_keep [] m r Hb : rtrim (m :: r) = m :: rtrim r) by done.
    rewrite <- !app_assoc, !app_assoc. rewrite <- (app_assoc _ sp v). rewrite <- (app_assoc _ (lit "=")). 
    change (lit "=" ++ (sp ++ v)) with ("="%char :: (sp ++ v)). rewrite rtrim_keep by done. by rewrite <- !app_assoc.
Qed.

Lemma classify_live sec ind a tail e :
  forallb isBlank ind = true -> ltrim a = a -> isKeyToken (trim a) = true -> ~ In "="%char a ->
  classify sec (ind ++ a ++ lit "=" ++ tail) e =
  mkLine Key (ind ++ a ++ lit "=" ++ tail) e sec (trim a) (trim (stripInlineComment (rtrim tail))).
Proof.
  intros Hind Ha Htok Hin. unfold classify.
  assert (Hk : trim a = rtrim a) by (unfold trim; by rewrite Ha).
  assert (Hc : exists c r, a = c :: r /\ isBlank c = false /\ isMark c = false /\ eqc c "["%char = false).
  { destruct a as [|c r]; [done|]. assert (Hb : isBlank c = false) by by apply (dropWhile_head isBlank (c :: r) c r).
    exists c, r. destruct (isKeyToken_spec _ Htok) as (c' & r' & E & H1 & H2 & H3).
    rewrite Hk, (rtrim_keep [] c r Hb : rtrim (c :: r) = c :: rtrim r) in E. injection E as <- _. by split_and!. }
  destruct Hc as (c & r & Ea & Hb & Hm & Hbr).
  assert (Hbody : trim (ind ++ a ++ lit "=" ++ tail) = a ++ "="%char :: rtrim tail).
  { unfold trim. rewrite ltrim_blanks by done. rewrite Ea at 1. cbn [app]. rewrite ltrim_stop by done.
    change (c :: r ++ lit "=" ++ tail) with ((c :: r) ++ "="%char :: tail). rewrite <- Ea. by apply rtrim_keep. }
  rewrite Hbody. rewrite Ea at 1. cbn [app]. rewrite Hbr, Hm. cbn [app].
  assert (Hs : splitKeyValue (a ++ "="%char :: rtrim tail) = Some (trim a, trim (stripInlineComment (rtrim tail)))).
  { unfold splitKeyValue. rewrite cut_intro by done. by rewrite Htok. }
  replace (c :: r ++ "="%char :: rtrim tail) with (a ++ "="%char :: rtrim tail) by (by rewrite Ea). by rewrite Hs.
Qed.

(** Rewriting a key line, live or commented out, gives a live line with the new
    value, the old key and the old section. *)
Lemma rewrite_reads_back sec t e e' v (unc : bool) :
  kind (classify sec t e) = (if unc then CommentedKey else Key) -> cleanValue v ->
  classify sec (rewriteValue t v unc) e' = mkLine Key (rewriteValue t v unc) e' sec (key (classify sec t e)) v.
Proof.
  intros Hk Hv. destruct (classify_work sec t e unc Hk) as (Hne & a & b & Hcut & Ha & Hka & Htok & _).
  assert (Hin : ~ In "="%char a) by by apply cut_spec in Hcut as [_ ?].
  destruct (rewriteValue_shape t v unc a b Hne Hcut) as (sp & Hsp & [-> | (m & cs & Hm & Hcs & _ & ->)]).
  - rewrite classify_live by (done || apply takeWhile_all). by rewrite value_plain, <- Hka.
  - rewrite classify_live by (done || apply takeWhile_all). rewrite <- Hka. f_equal.
    assert (Hb : isBlank m = false) by (destruct (isBlank m) eqn:E; [apply blank_not_mark in E; congruence | done]).
    rewrite app_assoc, rtrim_keep, Hcs, <- app_assoc by done. by apply value_commented.
Qed.

(** *** Line breaks and byte order marks *)
Lemma noEol_drop n s : noEol s -> noEol (drop n s).
Proof. intros H. rewrite <- (take_drop n s), noEol_app in H. tauto. Qed.
Lemma noEol_dropWhile p s : noEol s -> noEol (dropWhile p s).
Proof. intros H. rewrite <- (dropWhile_split p s), noEol_app in H. tauto. Qed.
Lemma noEol_takeWhile p s : noEol s -> noEol (takeWhile p s).
Proof. intros H. rewrite <- (dropWhile_split p s), noEol_app in H. tauto. Qed.
Lemma noEol_rtrim s : noEol s -> noEol (rtrim s).
Proof. intros H. destruct (rtrim_split s) as (bl & E & _). rewrite E, noEol_app in H. tauto. Qed.
Lemma blanks_noEol s : forallb isBlank s = true -> noEol s.
Proof.
  induction s as [|c s IH]; [done|]. cbn. rewrite andb_true_iff, noEol_cons. intros [Hc H]. split; [|auto].
  unfold isBlank in Hc. apply orb_true_iff in Hc as [Hc|Hc]; apply eqc_spec in Hc; by subst.
Qed.

Lemma rewrite_noEol sec t e v (unc : bool) :
  kind (classify sec t e) = (if unc then CommentedKey else Key) -> noEol t -> noEol v -> noEol (rewriteValue t v unc).
Proof.
  intros Hk Ht Hv. destruct (classify_work sec t e unc Hk) as (Hne & a & b & Hcut & _).
  assert (Hw : noEol (workOf t unc)).
  { unfold workOf. destruct unc; repeat apply noEol_dropWhile; done. }
  destruct (cut_spec _ _ _ _ Hcut) as [Ew _]. rewrite Ew, noEol_app, noEol_cons in Hw. destruct Hw as (Ha & _ & Hb).
  destruct (rewriteValue_shape t v unc a b Hne Hcut) as (sp & Hsp & [-> | (m & cs & Hm & Hcs & Hp & ->)]).
  - rewrite !noEol_app. split_and!; auto using noEol_takeWhile, blanks_noEol. done.
  - rewrite !noEol_app. split_and!; auto using noEol_takeWhile; try done.
    + apply noEol_rtrim. rewrite noEol_app. auto using blanks_noEol.
    + by apply Hp.
Qed.

Lemma bom_trim a y : hasBom (a ++ "="%char :: y) = true -> hasBom (rtrim a) = true.
Proof.
  assert (E1 : eqc "="%char (chr 239) = false) by done. assert (E2 : eqc "="%char (chr 187) = false) by done.
  assert (E3 : eqc "="%char (chr 191) = false) by done.
  intros H. destruct a as [|c1 [|c2 [|c3 a]]]; cbn [app hasBom] in H; rewrite ?E1, ?E2, ?E3, ?andb_false_r in H; cbn [andb] in H.
  1,2,3: by repeat case_match.
  apply andb_true_iff in H as [H H3]. apply andb_true_iff in H as [H1 H2].
  apply eqc_spec in H1, H2, H3. subst.
  rewrite (rtrim_keep [] (chr 239) (chr 187 :: chr 191 :: a) eq_refl : rtrim (chr 239 :: chr 187 :: chr 191 :: a) = chr 239 :: rtrim (chr 187 :: chr 191 :: a)).
  rewrite (rtrim_keep [] (chr 187) (chr 191 :: a) eq_refl : rtrim (chr 187 :: chr 191 :: a) = chr 187 :: rtrim (chr 191 :: a)).
  by rewrite (rtrim_keep [] (chr 191) a eq_refl : rtrim (chr 191 :: a) = chr 191 :: rtrim a).
Qed.

Lemma rewrite_bom sec t e v (unc : bool) y :
  kind (classify sec t e) = (if unc then CommentedKey else Key) -> hasBom (key (classify sec t e)) = false ->
  hasBom (rewriteValue t v unc ++ y) = false.
Proof.
  intros Hk Hb. destruct (classify_work sec t e unc Hk) as (Hne & a & b & Hcut & Ha & Hka & Htok & _).
  assert (Hs : exists z, rewriteValue t v unc ++ y = takeWhile isBlank t ++ a ++ "="%char :: z).
  { destruct (rewriteValue_shape t v unc a b Hne Hcut) as (sp & Hsp & [-> | (m & cs & Hm & Hcs & _ & ->)]);
      eexists; rewrite <- !app_assoc; do 2 f_equal; cbn; reflexivity. }
  destruct Hs as [z ->]. apply not_true_iff_false. intros H.
  pose proof (takeWhile_all isBlank t) as Hbl. destruct (takeWhile isBlank t) as [|c ind].
  - cbn [app] in H. apply bom_trim in H. unfold trim in Hka. rewrite Ha in Hka. rewrite Hka in H. congruence.
  - cbn [app hasBom] in H. cbn in Hbl. apply andb_true_iff in Hbl as [Hc _].
    assert (Hne2 : eqc c (chr 239) = false).
    { unfold isBlank in Hc. apply orb_true_iff in Hc as [Hc|Hc]; apply eqc_spec in Hc; by subst. }
    rewrite Hne2 in H. by repeat case_match.
Qed.

(** ** Replacing one physical line *)

(** A parsed document: every line is the classification of its own text in the
    section the previous line left. *)
Fixpoint parsed (sec : str) (d : IniDoc) : Prop :=
  match d with [] => True | l :: d => l = classify sec (text l) (eol l) /\ parsed (section l) d end.

Lemma parsed_lines ls sec : parsed sec (parseLines sec ls).
Proof.
  revert sec. induction ls as [|[t e] ls IH]; intros sec; cbn; [done|]. split; [|apply IH].
  by destruct (classify_text sec t e) as [-> ->].
Qed.

Definition physical (d : IniDoc) : list (str * str) := map (fun l => (text l, eol l)) d.

Lemma parseLines_parsed d sec : parsed sec d -> parseLines sec (physical d) = d.
Proof. revert sec. induction d as [|l d IH]; intros sec; cbn; [done|]. intros [<- H]. by rewrite IH. Qed.

Lemma parsed_replace sec d1 l l' d2 :
  parsed sec (d1 ++ l :: d2) ->
  (forall sec', l = classify sec' (text l) (eol l) -> l' = classify sec' (text l') (eol l') /\ section l' = section l) ->
  parsed sec (d1 ++ l' :: d2).
Proof.
  revert sec. induction d1 as [|x d1 IH]; intros sec; cbn.
  - intros [E H] HL. destruct (HL _ E) as [E' Es]. split; [done|]. by rewrite Es.
  - intros [Ex H] HL. split; [done|]. by apply IH.
Qed.

Lemma wfLines_replace ls1 t e t' e' ls2 :
  wfLines (ls1 ++ (t, e) :: ls2) -> noEol t' -> startsLF t' = false -> t' <> [] ->
  (e = [] -> e' = [CR; LF] \/ e' = [LF] \/ e' = [CR]) -> (e <> [] -> e' = e) ->
  wfLines (ls1 ++ (t', e') :: ls2).
Proof.
  intros Hw Ht HLF Hne He1 He2. induction ls1 as [|[t0 e0] ls1 IH]; cbn in *.
  - destruct Hw as (_ & He & Hw). split; [done|]. split; [|done]. destruct e as [|c e].
    + destruct He as [He|[He|[[He _]|(_ & _ & ->)]]]; try done. destruct (He1 eq_refl) as [->|[->| ->]]; auto 7.
    + rewrite He2 by done. destruct He as [He|[He|[He|(He & _)]]]; auto; done.
  - destruct Hw as (H0 & He0 & Hw). split; [done|]. split; [|by apply IH].
    destruct He0 as [He0|[He0|[[He0 Hs]|(He0 & Hn & Hr)]]]; auto.
    + right; right; left. split; [done|]. destruct ls1 as [|[t1 e1] ls1].
      * unfold joined. cbn. by destruct t'.
      * destruct t1 as [|c1 t1]; [|done]. destruct e1 as [|c1 e1]; [|done].
        cbn in Hw. destruct Hw as (_ & [?|[?|[[? _]|(_ & ? & _)]]] & _); done.
    + by destruct ls1.
Qed.

(** ** The merge *)
Lemma lower_length s : length (lower s) = length s.
Proof. apply length_map. Qed.

Lemma sameKey_refl a : sameKey a a = true.
Proof. by apply bool_decide_eq_true. Qed.
Lemma sameKey_spec a b : sameKey a b = true <-> lower a = lower b.
Proof. apply bool_decide_eq_true. Qed.

Lemma known_of_line d l : In l d -> isKeyLine l = true -> known (effectiveOf d (section l) (key l)) = true.
Proof.
  intros Hin Hk. rewrite effectiveOf_spec. cbn. apply existsb_exists. exists l. split; [done|].
  unfold named, matches. by rewrite Hk, !sameKey_refl.
Qed.

Lemma matches_same s k s' k' l : sameKey s s' = true -> sameKey k k' = true -> matches s k l = matches s' k' l.
Proof. rewrite !sameKey_spec. unfold matches, sameKey. by intros -> ->. Qed.

Lemma existsb_same s k s' k' d : sameKey s s' = true -> sameKey k k' = true ->
  existsb (named s k) d = existsb (named s' k') d.
Proof.
  intros Hs Hk. induction d as [|l d IH]; cbn; [done|]. unfold named at 1 3. by rewrite (matches_same s k s' k'), IH.
Qed.

(** The keys the merge visits come from lines of the two documents. *)
Lemma userKeys_from ud bd hb sk : In sk (userKeysOf ud bd hb) ->
  exists l, In l (ud ++ bd) /\ isKeyLine l = true /\ sk = (section l, key l).
Proof.
  assert (Hpush : forall d (p : IniLine -> bool) st, (forall l, p l = true -> isKeyLine l = true) ->
    forall sk, In sk (foldl (fun st l => if p l then pushIf l st else st) st d).1 ->
    In sk st.1 \/ exists l, In l d /\ isKeyLine l = true /\ sk = (section l, key l)).
  { intros d p st Hp. revert st. induction d as [|l d IH]; intros st x; cbn; [auto|]. intros Hin.
    destruct (IH _ _ Hin) as [H | (l' & H1 & H2 & H3)]; [|right; exists l'; auto].
    destruct (p l) eqn:Hl; [|auto]. unfold pushIf in H. destruct (decide _); [auto|]. cbn in H.
    apply in_app_iff in H as [H|[<-|[]]]; [auto|]. right. exists l. auto. }
  unfold userKeysOf. intros Hin.
  assert (Hu : In sk (foldl (fun st l => if isKeyLine l then pushIf l st else st) ([], ∅) ud).1 \/
               exists l, In l bd /\ isKeyLine l = true /\ sk = (section l, key l)).
  { destruct (existsb isKeyLine ud && hb); [|auto].
    apply Hpush in Hin; [done|]. intros l Hl. unfold isKeyLine. by rewrite Hl. }
  destruct Hu as [Hu | (l & ? & ? & ?)]; [|exists l; rewrite in_app_iff; auto].
  apply Hpush in Hu as [[] | (l & ? & ? & ?)]; [|done]. exists l. rewrite in_app_iff. auto.
Qed.

(** A key the new version knows and the user did not touch leaves the file alone. *)
Lemma mergeKey_untouched nd ud F m sk :
  known (effectiveOf nd sk.1 sk.2) = true ->
  replacements (mergeKey nd ud ud F m sk) = replacements m /\ appended (mergeKey nd ud ud F m sk) = appended m.
Proof.
  destruct sk as [s k]. cbn [fst snd]. intros Hn. unfold mergeKey. destruct (decide _); [done|]. rewrite Hn. cbn [negb].
  destruct (isRetired _ _ _); [done|].
  assert (Hc : changedByUser (effectiveOf ud s k) (effectiveOf ud s k) = false).
  { unfold changedByUser. rewrite eqb_reflx. cbn. rewrite bool_decide_true by done. by rewrite andb_false_r. }
  rewrite Hc. by destruct (known (effectiveOf ud s k) && _).
Qed.

Lemma mergeKeys_untouched nd ud F ks : forall m,
  (forall sk, In sk ks -> known (effectiveOf nd sk.1 sk.2) = true) ->
  replacements (foldl (mergeKey nd ud ud F) m ks) = replacements m /\
  appended (foldl (mergeKey nd ud ud F) m ks) = appended m.
Proof.
  induction ks as [|sk ks IH]; intros m H; [done|]. cbn.
  destruct (IH (mergeKey nd ud ud F m sk)) as [-> ->]; [intros; apply H; by right|].
  apply mergeKey_untouched, H. by left.
Qed.

(** Emitting with no appended block is replacing texts in place. *)
Definition replaced (e : str) (r : gmap nat str) (i : nat) (l : IniLine) : IniLine :=
  match r !! i with
  | Some t => let l := l <| text := t |> in match eol l with [] => l <| eol := e |> | _ => l end
  | None => l
  end.
Fixpoint replaceAll (e : str) (r : gmap nat str) (i : nat) (d : IniDoc) : IniDoc :=
  match d with [] => [] | l :: d => replaced e r i l :: replaceAll e r (S i) d end.

Lemma emitFrom_plain e m d : forall out i, emitFrom e m ∅ out i d = out ++ replaceAll e (replacements m) i d.
Proof.
  induction d as [|l d IH]; intros out i; cbn; [by rewrite app_nil_r|].
  unfold emitLine. rewrite lookup_empty. rewrite IH, <- app_assoc. done.
Qed.

Lemma emit_plain nd m : appended m = [] -> emit nd m = replaceAll (dominantEol nd) (replacements m) 0 nd.
Proof. intros H. unfold emit. rewrite H. cbn. by rewrite app_nil_r, emitFrom_plain. Qed.

Lemma replaceAll_id e d : forall i, replaceAll e ∅ i d = d.
Proof. induction d as [|l d IH]; intros i; cbn; [done|]. unfold replaced. by rewrite lookup_empty, IH. Qed.

Lemma replaceAll_before e j t d : forall i, (j < i)%nat -> replaceAll e {[j := t]} i d = d.
Proof.
  induction d as [|l d IH]; intros i Hi; cbn; [done|]. unfold replaced. rewrite lookup_singleton_ne by lia. rewrite IH by lia. done.
Qed.

Lemma replaceAll_one e t d1 l d2 : forall i,
  replaceAll e {[(i + length d1)%nat := t]} i (d1 ++ l :: d2) = d1 ++ replaced e {[0%nat := t]} 0 l :: d2.
Proof.
  induction d1 as [|x d1 IH]; intros i; cbn.
  - rewrite Nat.add_0_r. unfold replaced. rewrite lookup_singleton, lookup_singleton_eq.
    rewrite decide_True by done. f_equal. apply replaceAll_before. lia.
  - unfold replaced at 1. rewrite lookup_singleton_ne by lia. f_equal.
    rewrite <- (IH (S i)). by replace (S i + length d1)%nat with (i + S (length d1))%nat by lia.
Qed.

Lemma bom_tolower c : eqc (tolower c) (chr 239) = eqc c (chr 239) /\ eqc (tolower c) (chr 187) = eqc c (chr 187) /\
  eqc (tolower c) (chr 191) = eqc c (chr 191).
Proof. destruct c as [[] [] [] [] [] [] [] []]; vm_compute; auto. Qed.

Lemma bom_lower s : hasBom (lower s) = hasBom s.
Proof.
  destruct s as [|a [|b [|c s]]]; try done. cbn [lower map hasBom].
  by rewrite (proj1 (bom_tolower a)), (proj1 (proj2 (bom_tolower b))), (proj2 (proj2 (bom_tolower c))).
Qed.

Lemma eol_not_bom c : isEol c = true -> eqc c (chr 239) = false /\ eqc c (chr 187) = false /\ eqc c (chr 191) = false.
Proof. unfold isEol. intros H. apply orb_true_iff in H as [H|H]; apply eqc_spec in H; by subst. Qed.

(** Whether a text starts with a byte order mark is decided by its first line. *)
Lemma bom_first_line a y z : existsb isEol a = true -> hasBom (a ++ y) = hasBom (a ++ z).
Proof.
  destruct a as [|c1 [|c2 [|c3 a]]]; cbn [existsb app]; [done | | | done].
  - rewrite orb_false_r. intros H. destruct (eol_not_bom c1 H) as (E & _). unfold hasBom. rewrite E.
    destruct y as [|? [|? ?]], z as [|? [|? ?]]; done.
  - rewrite orb_false_r. intros H. unfold hasBom. apply orb_true_iff in H as [H|H]; destruct (eol_not_bom _ H) as (E1 & E2 & _);
      rewrite ?E1, ?E2, ?andb_false_r; destruct y as [|? ?], z as [|? ?]; done.
Qed.

Definition terminator (e : str) : Prop := e = [CR; LF] \/ e = [LF] \/ e = [CR].

Lemma wf_eols ls : wfLines ls -> forall l, In l ls -> terminator l.2 \/ l.2 = [].
Proof.
  unfold terminator. induction ls as [|[t e] ls IH]; cbn; [done|]. intros (_ & He & Hw) l [<-|Hin]; [|by apply IH].
  cbn. destruct He as [->|[->|[[-> _]|(-> & _)]]]; auto.
Qed.

Lemma dominantEol_terminator d : wfLines (physical d) -> terminator (dominantEol d).
Proof.
  intros Hw. unfold dominantEol. destruct (filter _ d) as [|l r] eqn:E; [by left|].
  assert (Hin : l ∈ filter (fun l => eol l <> []) d) by (rewrite E; left).
  apply list_elem_of_filter in Hin as [Hne Hin]. apply list_elem_of_In in Hin.
  destruct (wf_eols _ Hw (text l, eol l)) as [H|H]; [|done|done].
  unfold physical. apply in_map_iff. by exists l.
Qed.

Lemma physical_parse t : physical (iniParse t) = splitLines [] (dropBom t).
Proof. apply parseLines_physical. Qed.
Lemma wf_parse t : wfLines (physical (iniParse t)).
Proof. rewrite physical_parse. by apply splitLines_wf. Qed.

(** A document whose lines are well formed is what its text parses to. *)
Lemma parse_text d : parsed [] d -> wfLines (physical d) -> hasBom (iniText d) = false -> iniParse (iniText d) = d.
Proof.
  intros Hp Hw Hb. unfold iniParse, dropBom. rewrite Hb, iniText_joined.
  change (map (fun l => (text l, eol l)) d) with (physical d). rewrite splitLines_join by done. by apply parseLines_parsed.
Qed.

(** The line that [replacements] leaves, as the next reading sees it. *)
Definition setLine (e : str) (l : IniLine) (v : str) : IniLine :=
  mkLine Key (rewriteValue (text l) v (bool_decide (kind l = CommentedKey)))
    (match eol l with [] => e | _ => eol l end) (section l) (key l) v.

Lemma physical_replaced e l v d1 d2 :
  physical (d1 ++ replaced e {[0%nat := rewriteValue (text l) v (bool_decide (kind l = CommentedKey))]} 0 l :: d2) =
  physical (d1 ++ setLine e l v :: d2).
Proof.
  unfold physical. rewrite !map_app. cbn [map]. unfold replaced, setLine. rewrite lookup_singleton_eq.
  by destruct l as [kd tx [|c el] sc ky vl].
Qed.

Lemma kind_unc l : isKeyLine l = true -> kind l = if bool_decide (kind l = CommentedKey) then CommentedKey else Key.
Proof. unfold isKeyLine. by destruct (kind l). Qed.

Lemma set_parsed t d1 l d2 v e : iniParse t = d1 ++ l :: d2 -> isKeyLine l = true -> cleanValue v ->
  parsed [] (d1 ++ setLine e l v :: d2).
Proof.
  intros Hd Hk Hv. apply (parsed_replace [] d1 l).
  - rewrite <- Hd. apply parsed_lines.
  - intros sec E. pose proof (kind_unc l Hk) as Hkind. rewrite E in Hkind at 1.
    cbn [text eol section setLine]. split; [|done].
    rewrite (rewrite_reads_back sec (text l) (eol l)) by done. rewrite <- E.
    destruct (classify_work sec (text l) (eol l) _ Hkind) as (_ & a & b & _ & _ & _ & _ & Hs). rewrite <- E in Hs.
    unfold setLine. by rewrite Hs.
Qed.

Lemma rewrite_nonempty sec t e v (unc : bool) :
  kind (classify sec t e) = (if unc then CommentedKey else Key) -> rewriteValue t v unc <> [].
Proof.
  intros Hk. destruct (classify_work sec t e unc Hk) as (Hne & a & b & Hcut & _).
  destruct (rewriteValue_shape t v unc a b Hne Hcut) as (sp & Hsp & [-> | (m & cs & Hm & Hcs & _ & ->)]);
    intros E; apply app_eq_nil in E as [_ E]; apply app_eq_nil in E as [_ E]; done.
Qed.

Lemma noEol_startsLF s : noEol s -> startsLF s = false.
Proof. destruct s as [|c s]; [done|]. rewrite noEol_cons. unfold isEol. intros [H _]. by apply orb_false_iff in H as [? _]. Qed.

Lemma set_wf t d1 l d2 v e : iniParse t = d1 ++ l :: d2 -> isKeyLine l = true -> cleanValue v -> terminator e ->
  wfLines (physical (d1 ++ setLine e l v :: d2)).
Proof.
  intros Hd Hk Hv He. pose proof (wf_parse t) as Hw. rewrite Hd in Hw. unfold physical in *. rewrite map_app in *. cbn [map] in *.
  assert (HP : parsed [] (d1 ++ l :: d2)) by (rewrite <- Hd; apply parsed_lines).
  assert (Hl : exists sec, l = classify sec (text l) (eol l)).
  { revert HP. generalize (@nil Ascii.ascii). clear. induction d1 as [|x d1 IH]; intros sec; cbn; [intros [? _]; by exists sec|].
    intros [_ H]. by eapply IH. }
  destruct Hl as [sec El]. pose proof (kind_unc l Hk) as Hkind. rewrite El in Hkind at 1.
  assert (Htl : noEol (text l)).
  { clear -Hw. induction d1 as [|x d1 IH]; cbn in Hw; [tauto|]. apply IH. tauto. }
  assert (Hnt : noEol (rewriteValue (text l) v (bool_decide (kind l = CommentedKey)))).
  { eapply rewrite_noEol; [exact Hkind | done | apply Hv]. }
  eapply wfLines_replace; [exact Hw | exact Hnt | by apply noEol_startsLF | by eapply rewrite_nonempty | |].
  - intros E. cbn [eol setLine]. by rewrite E.
  - intros E. cbn [eol setLine]. by destruct (eol l).
Qed.

Lemma set_bom t d1 l d2 v e : iniParse t = d1 ++ l :: d2 -> isKeyLine l = true ->
  hasBom (dropBom t) = false -> hasBom (key l) = false -> hasBom (iniText (d1 ++ setLine e l v :: d2)) = false.
Proof.
  intros Hd Hk Hb Hkb. pose proof (wf_parse t) as Hw. rewrite Hd in Hw.
  assert (HP : parsed [] (d1 ++ l :: d2)) by (rewrite <- Hd; apply parsed_lines).
  rewrite <- iniText_parse, Hd in Hb. destruct d1 as [|x d1].
  - destruct HP as [El _]. pose proof (kind_unc l Hk) as Hkind. rewrite El in Hkind at 1.
    unfold iniText. cbn [map concat app text eol setLine]. rewrite <- app_assoc. eapply rewrite_bom; [exact Hkind|]. by rewrite <- El.
  - unfold iniText in *. cbn [map concat app] in *. rewrite (bom_first_line _ _ (concat (map (fun l => text l ++ eol l) (d1 ++ l :: d2)))); [done|].
    cbn in Hw. destruct Hw as (_ & He & _). rewrite existsb_app.
    destruct He as [->|[->|[[-> _]|(_ & _ & Hn)]]]; try by rewrite orb_true_r. by destruct d1.
Qed.

(** The merge of a file with its own base, every key of it still known. *)
Lemma merge_known next user forced r :
  (forall l, In l (iniParse user) -> isKeyLine l = true -> known (effectiveOf (iniParse next) (section l) (key l)) = true) ->
  exists m, replacements m = ∅ /\ appended m = [] /\
    (mergeIni next user (Some user) forced r).1 =
    iniText (emit (iniParse next) (foldl (applyForced (iniParse next)) m forced)).
Proof.
  intros H. eexists. split; [|split; [|reflexivity]].
  all: match goal with |- context [foldl (mergeKey ?a ?b ?c ?F) ?m ?ks] => destruct (mergeKeys_untouched a b F ks m) as [E1 E2] end.
  1,3: intros sk Hin; apply userKeys_from in Hin as (x & Hx & Hxk & ->); apply H; [|done]; apply in_app_iff in Hx; tauto.
  - exact E1.
  - exact E2.
Qed.

(** The whole effect of setting a key the file has. *)
Lemma set_value_doc t s k dotted v r i :
  splitDotted dotted = (s, k) -> keyTarget (iniParse t) s k = Some i -> cleanValue v ->
  hasBom (dropBom t) = false -> hasBom k = false ->
  exists d1 l d2, iniParse t = d1 ++ l :: d2 /\ length d1 = i /\ named s k l = true /\ existsb (named s k) d2 = false /\
    iniParse (mergeIni t t (Some t) [(dotted, v)] r).1 = d1 ++ setLine (dominantEol (iniParse t)) l v :: d2.
Proof.
  intros Hsd Ht Hv Hb Hkb. pose proof Ht as Ht'. apply lastIndex_spec in Ht as (d1 & l & d2 & Hd & Hl & Hp & Hn).
  change (named s k l = true) in Hp. change (existsb (named s k) d2 = false) in Hn.
  exists d1, l, d2. split_and!; try done. unfold named in Hp. apply andb_true_iff in Hp as [Hk Hm].
  unfold matches in Hm. apply andb_true_iff in Hm as [_ Hkey]. apply sameKey_spec in Hkey.
  assert (Hkl : hasBom (key l) = false) by (rewrite <- bom_lower, Hkey, bom_lower; done).
  destruct (merge_known t t [(dotted, v)] r) as (m & E1 & E2 & ->); [intros; by apply known_of_line|].
  cbn [foldl]. unfold applyForced. rewrite Hsd, Ht'. rewrite emit_plain by exact E2.
  assert (Hlook : iniParse t !! i = Some l) by (rewrite Hd, <- Hl; by apply list_lookup_middle).
  unfold replaceAt. rewrite Hlook. cbn -[rewriteValue iniParse iniText dominantEol]. rewrite E1, insert_empty, <- Hl.
  set (e := dominantEol (iniParse t)). rewrite Hd. rewrite (replaceAll_one _ _ d1 l d2 0).
  rewrite iniText_joined. fold (physical (d1 ++ replaced e {[0%nat := rewriteValue (text l) v (bool_decide (kind l = CommentedKey))]} 0 l :: d2)).
  rewrite physical_replaced. unfold physical. rewrite <- iniText_joined.
  pose proof (dominantEol_terminator _ (wf_parse t)) as He.
  apply parse_text; [by eapply set_parsed | by eapply set_wf | by eapply set_bom].
Qed.

(** ** The reader against the merge's grammar *)
Lemma strip_app_blanks b bl : forallb isBlank bl = true ->
  exists bl', forallb isBlank bl' = true /\ stripInlineComment (b ++ bl) = stripInlineComment b ++ bl'.
Proof.
  intros Hbl.
  assert (Hblanks : forall p bl, forallb isBlank bl = true -> stripAfter p bl = bl).
  { intros p x Hx. rewrite <- (app_nil_r x) at 1. rewrite stripAfter_blanks by done. cbn. by rewrite app_nil_r. }
  assert (H : forall b p, exists bl', forallb isBlank bl' = true /\ stripAfter p (b ++ bl) = stripAfter p b ++ bl').
  { clear b. induction b as [|c b IH]; intros p; cbn; [exists bl; by rewrite Hblanks|].
    destruct (isMark c && isBlank p); [by exists []|]. destruct (IH c) as (x & Hx & ->). by exists x. }
  destruct b as [|c b]; cbn; [|destruct (H b c) as (x & Hx & ->); by exists x].
  exists bl. split; [done|]. destruct bl as [|c bl]; [done|]. cbn in Hbl |- *. apply andb_true_iff in Hbl as [_ Hbl]. by rewrite Hblanks.
Qed.

Lemma trim_app_blanks x bl : forallb isBlank bl = true -> trim (x ++ bl) = trim x.
Proof.
  intros Hb. unfold trim. destruct (ltrim x) as [|c r] eqn:E; unfold ltrim in *.
  - rewrite dropWhile_nil by done. rewrite <- (app_nil_r bl), dropWhile_all by done. done.
  - rewrite dropWhile_app, E by (by rewrite E). by apply rtrim_blanks.
Qed.

Lemma cut_none_app c s bl : cut c s = None -> ~ In c bl -> cut c (s ++ bl) = None.
Proof.
  intros H Hb. induction s as [|d s IH]; cbn in *.
  - clear H. induction bl as [|d bl IH]; cbn; [done|]. destruct (eqc d c) eqn:E; [apply eqc_spec in E; subst; exfalso; apply Hb; by left|].
    rewrite IH; [done|]. intros Hin. apply Hb. by right.
  - destruct (eqc d c); [done|]. destruct (cut c s) as [[a b]|]; [done|]. by rewrite (IH eq_refl).
Qed.

Lemma blank_not_in c bl : forallb isBlank bl = true -> isBlank c = false -> ~ In c bl.
Proof. intros H Hc Hin. rewrite forallb_forall in H. rewrite (H c Hin) in Hc. done. Qed.

(** Every key the reader would take from this line is one the merge accepts. *)
Definition tokenLine (t : str) : bool :=
  match trim t with
  | [] => true
  | c :: _ =>
      isMark c || eqc c "["%char ||
      match cut "="%char (trim t) with Some (a, _) => Nat.eqb (length (trim a)) 0 || isKeyToken (trim a) | None => true end
  end.

Definition recordLine (m : gmap str str) (l : IniLine) : gmap str str :=
  if decide (kind l = Key) then <[lower (dottedName (section l) (key l)) := value l]> m else m.

Lemma isKeyToken_nil : isKeyToken [] = false. Proof. done. Qed.

Lemma readLine_classify sec m t e : tokenLine t = true ->
  readLine (sec, m) t = (section (classify sec t e), recordLine m (classify sec t e)).
Proof.
  destruct (rtrim_split (ltrim t)) as (bl & E & Hbl). fold (trim t) in E.
  destruct (ltrim t) as [|c r] eqn:El.
  { intros _. assert (Ht : trim t = []) by (unfold trim; by rewrite El). unfold readLine, classify, recordLine. by rewrite El, Ht. }
  unfold tokenLine, readLine, classify, recordLine. rewrite El.
  assert (Hc : isBlank c = false) by exact (dropWhile_head isBlank t c r El).
  assert (Ht : trim t = c :: rtrim r) by (unfold trim; rewrite El; exact (rtrim_keep [] c r Hc)).
  rewrite Ht in E |- *. injection E as E.
  destruct (isMark c) eqn:Hm.
  - assert (Hb : eqc c "["%char = false).
    { destruct (eqc c "["%char) eqn:Hb; [|done]. apply eqc_spec in Hb. by subst. }
    intros _. rewrite Hb. by destruct (splitKeyValue _) as [[? ?]|].
  - intros Htok. remember (rtrim r) as rr eqn:Err. clear Err Ht El. subst r. destruct (eqc c "["%char) eqn:Hb.
    + destruct (cut "]"%char rr) as [[a b]|] eqn:Hcut.
      * by rewrite (cut_app _ _ _ _ bl Hcut).
      * by rewrite (cut_none_app _ _ bl Hcut) by (by eapply blank_not_in).
    + cbn [orb] in Htok. unfold splitKeyValue.
      change (c :: rr ++ bl) with ((c :: rr) ++ bl).
      destruct (cut "="%char (c :: rr)) as [[a b]|] eqn:Hcut.
      * rewrite (cut_app _ _ _ _ bl Hcut). destruct (strip_app_blanks b bl Hbl) as (bl' & Hbl' & ->).
        rewrite trim_app_blanks by done. apply orb_true_iff in Htok as [Hn | Ht2].
        -- destruct (trim a); [done|]. done.
        -- rewrite Ht2. destruct (trim a) eqn:Ha; done.
      * by rewrite (cut_none_app _ _ bl Hcut) by (by eapply blank_not_in).
Qed.

(** Blank lines carry nothing. *)
Lemma readLine_empty st : readLine st [] = st.
Proof. by destruct st. Qed.

Lemma read_nonempty ls st : foldl readLine st (filter (fun l => l <> []) ls) = foldl readLine st ls.
Proof.
  revert st. induction ls as [|l ls IH]; intros st; [done|]. cbn [foldl]. destruct l as [|c l].
  - rewrite filter_cons_False by (intros H; by apply H). by rewrite readLine_empty, IH.
  - rewrite filter_cons_True by done. apply IH.
Qed.

Definition texts (s : str) : list str := filter (fun l => l <> []) (map fst (splitLines [] s)).

Lemma texts_skip s : texts (dropWhile isEol s) = texts s.
Proof.
  unfold texts. induction s as [|c|c d s IH1 IH2] using str_ind2; [done | |].
  - cbn. destruct (isEol c) eqn:E; [|done]. unfold isEol in E. apply orb_true_iff in E as [E|E]; apply eqc_spec in E; by subst.
  - cbn [dropWhile]. fold (dropWhile isEol). destruct (isEol c) eqn:E; [|done]. rewrite splitLines_cons2.
    assert (Hd : dropWhile isEol (c :: d :: s) = dropWhile isEol (d :: s)) by (cbn; by rewrite E).
    unfold isEol in E. apply orb_true_iff in E as [E|E]; apply eqc_spec in E; subst c.
    + change (eqc LF CR) with false. cbn iota. rewrite eqc_refl. cbn [map fst]. rewrite filter_cons_False by (intros H; by apply H).
      rewrite <- IH2. done.
    + rewrite eqc_refl. destruct (eqc d LF) eqn:Ed; cbn [map fst]; rewrite filter_cons_False by (intros H; by apply H).
      * apply eqc_spec in Ed as ->. rewrite <- IH1. done.
      * rewrite <- IH2. done.
Qed.

Lemma readFrom_texts n : forall s, (length s <= n)%nat -> filter (fun l => l <> []) (readFrom n s) = texts s.
Proof.
  induction n as [|n IH]; intros s Hn; [by destruct s; [|cbn in Hn; lia]|].
  destruct s as [|c s]; [done|]. cbn [readFrom].
  set (ne := fun c => negb (isEol c)). set (t := takeWhile ne (c :: s)). set (rest := dropWhile ne (c :: s)).
  assert (Es : c :: s = t ++ rest) by (symmetry; apply dropWhile_split).
  assert (Ht : noEol t) by apply takeWhile_all.
  assert (Hrest : (length (dropWhile isEol rest) <= n)%nat).
  { assert (Hlen : length (c :: s) = (length t + length rest)%nat) by (rewrite Es at 1; apply length_app).
    pose proof (dropWhile_split isEol rest) as Hsp. apply (f_equal length) in Hsp. rewrite length_app in Hsp.
    destruct (decide (t = [])) as [Et|Et].
    - assert (Hh : isEol c = true).
      { destruct (isEol c) eqn:Hc; [done|]. unfold t, ne in Et. cbn in Et. by rewrite Hc in Et. }
      rewrite Et in Es. cbn [app] in Es. rewrite <- Es. cbn [dropWhile]. rewrite Hh. cbn [length] in Hn.
      pose proof (dropWhile_split isEol s) as Hs. apply (f_equal length) in Hs. rewrite length_app in Hs. lia.
    - assert (1 <= length t)%nat by (destruct t; [done | cbn; lia]). lia. }
  clearbody t. rewrite Es. unfold texts. rewrite splitLines_text by done. cbn [app].
  assert (Htail : filter (fun l => l <> []) (map fst (splitLines t rest)) =
                  filter (fun l => l <> []) [t] ++ texts (dropWhile isEol rest)).
  { rewrite texts_skip. destruct rest as [|d rest'] eqn:Er.
    - cbn. by destruct t.
    - assert (Hd : isEol d = true).
      { assert (H : ne d = false) by by apply (dropWhile_head ne (c :: s) d rest'). unfold ne in H. by apply negb_false_iff in H. }
      change (filter ?P [t] ++ ?x) with (filter P [t] ++ x). rewrite <- (texts_skip (d :: rest')). cbn [dropWhile]. rewrite Hd.
      rewrite (texts_skip rest'). 
      unfold isEol in Hd. apply orb_true_iff in Hd as [Hd|Hd]; apply eqc_spec in Hd; subst d.
      + change (splitLines t (LF :: rest')) with ((t, [LF]) :: splitLines [] rest'). cbn [map fst]. unfold texts.
        by rewrite (filter_app _ [t]) || (change (t :: ?x) with ([t] ++ x); by rewrite filter_app).
      + destruct rest' as [|d2 r2].
        * change (splitLines t [CR]) with [(t, [CR])]. cbn [map fst]. unfold texts. cbn. by rewrite app_nil_r.
        * rewrite splitLines_cons2, eqc_refl. destruct (eqc d2 LF) eqn:E2; cbn [map fst]; unfold texts.
          -- apply eqc_spec in E2 as ->. change (t :: map fst (splitLines [] r2)) with ([t] ++ map fst (splitLines [] r2)).
             by rewrite filter_app.
          -- change (t :: map fst (splitLines [] (d2 :: r2))) with ([t] ++ map fst (splitLines [] (d2 :: r2))). by rewrite filter_app. }
  rewrite Htail. rewrite <- IH by done.
  change (t :: readFrom n (dropWhile isEol rest)) with ([t] ++ readFrom n (dropWhile isEol rest)). by rewrite filter_app.
Qed.

Lemma readLines_classify ls : forallb (fun l => tokenLine l.1) ls = true -> forall sec m,
  (foldl readLine (sec, m) (map fst ls)).2 = foldl recordLine m (parseLines sec ls).
Proof.
  induction ls as [|[t e] ls IH]; intros HF sec m; [done|]. cbn [forallb fst] in HF. apply andb_true_iff in HF as [Ht HF].
  specialize (IH HF). cbn [map fst foldl parseLines].
  rewrite (readLine_classify sec m t e Ht). apply IH.
Qed.

Lemma configParse_lines t : forallb (fun l => tokenLine l.1) (splitLines [] (dropBom t)) = true ->
  configParse t = foldl recordLine ∅ (iniParse t).
Proof.
  intros H. unfold configParse, iniParse. rewrite <- read_nonempty, readFrom_texts by done.
  unfold texts. rewrite read_nonempty. by apply readLines_classify.
Qed.

Lemma recorded_last d m id :
  foldl recordLine m d !! id =
  match lastLine (fun l => bool_decide (kind l = Key) && bool_decide (lower (dottedName (section l) (key l)) = id)) d with
  | Some l => Some (value l) | None => m !! id end.
Proof.
  induction d as [|l d IH] using rev_ind; [done|]. rewrite foldl_app, lastLine_snoc. cbn [foldl]. unfold recordLine at 1.
  destruct (decide (kind l = Key)) as [Hk|Hk].
  - rewrite (bool_decide_true _ Hk). cbn [andb]. case_bool_decide as E; [subst; by rewrite lookup_insert_eq|].
    by rewrite lookup_insert_ne.
  - rewrite (bool_decide_false _ Hk). cbn [andb]. done.
Qed.

Lemma lastLine_ext p q d : (forall l, In l d -> p l = q l) -> lastLine p d = lastLine q d.
Proof.
  induction d as [|l d IH] using rev_ind; [done|]. intros H. rewrite !lastLine_snoc, (H l), IH; [done | |].
  - intros x Hx. apply H. rewrite in_app_iff. by left.
  - rewrite in_app_iff. right. by left.
Qed.

(** ** Properties *)

(** C4.  Parsing loses nothing: the text of a parsed document is the text it was
    parsed from, less a leading byte order mark, and reading it again gives the
    same document. *)
Theorem ini_text_roundtrip t :
  iniText (iniParse t) = dropBom t /\
  (hasBom (dropBom t) = false -> iniParse (iniText (iniParse t)) = iniParse t).
Proof.
  split; [apply iniText_parse|]. intros H. rewrite iniText_parse. unfold iniParse at 1. unfold dropBom at 1. by rewrite H.
Qed.

(** C5.  Rewriting the line of a key, live or commented out, with a value the
    grammar can carry gives a line that reads back as that key, live, in the same
    section, with exactly that value, whatever indentation, spacing and inline
    comment the line had. *)
Theorem rewriteValue_reads_back sec t e e' v :
  isKeyLine (classify sec t e) = true -> cleanValue v ->
  let l := classify sec t e in
  let l' := classify sec (rewriteValue t v (bool_decide (kind l = CommentedKey))) e' in
  kind l' = Key /\ value l' = v /\ key l' = key l /\ section l' = section l.
Proof.
  intros Hk Hv. cbv zeta. pose proof (kind_unc _ Hk) as Hkind.
  destruct (classify_work _ _ _ _ Hkind) as (_ & a & b & _ & _ & _ & _ & Hs).
  rewrite (rewrite_reads_back sec t e e' v _ Hkind Hv). by rewrite Hs.
Qed.

(** Setting one value the way the settings window and the in-headset menu
    do (the file merged with itself, the value forced): reading the key back gives
    the value; every other setting of the file has the value, or the absence of
    one, that it had; and no line but the key's own changes. *)
Theorem set_value_laws t s k dotted v fallback r i :
  splitDotted dotted = (s, k) -> keyTarget (iniParse t) s k = Some i -> cleanValue v ->
  hasBom (dropBom t) = false -> hasBom k = false ->
  let t' := (mergeIni t t (Some t) [(dotted, v)] r).1 in
  iniValue t' dotted fallback = v /\
  (forall s' k', sameKey s s' && sameKey k k' = false ->
     effectiveOf (iniParse t') s' k' = effectiveOf (iniParse t) s' k') /\
  length (iniParse t') = length (iniParse t) /\
  (forall j, j <> i -> iniParse t' !! j = iniParse t !! j).
Proof.
  intros Hsd Ht Hv Hb Hkb. cbv zeta.
  destruct (set_value_doc t s k dotted v r i Hsd Ht Hv Hb Hkb) as (d1 & l & d2 & Hd & Hi & Hp & Hn & E).
  set (new := setLine (dominantEol (iniParse t)) l v) in *.
  pose proof Hp as Hp'. unfold named, matches in Hp'. apply andb_true_iff in Hp' as [Hkl Hm].
  assert (Hlive : live s k new = true) by (unfold live, matches; cbn; exact Hm).
  assert (Hn2 : existsb (live s k) d2 = false).
  { rewrite <- not_true_iff_false in *. intros H. apply Hn. apply existsb_exists in H as (x & Hx & H).
    apply existsb_exists. exists x. split; [done | by apply live_named]. }
  split_and!.
  - unfold iniValue. rewrite Hsd, E, effectiveOf_spec.
    assert (Hlast : lastLine (live s k) (d1 ++ new :: d2) = Some new).
    { change (new :: d2) with ([new] ++ d2). rewrite app_assoc, lastLine_app by done. by rewrite lastLine_snoc, Hlive. }
    by rewrite Hlast.
  - intros s' k' Hne. rewrite E, Hd.
    assert (Hx : forall x, section x = section l -> key x = key l -> matches s' k' x = false).
    { intros x Hs Hk. unfold matches. rewrite Hs, Hk. apply andb_true_iff in Hm as [H1 H2].
      apply not_true_iff_false. intros H. apply andb_true_iff in H as [H3 H4]. rewrite sameKey_spec in *.
      apply andb_false_iff in Hne as [Hne|Hne]; apply not_true_iff_false in Hne; apply Hne; rewrite sameKey_spec; congruence. }
    unfold effectiveOf. rewrite !foldl_app. cbn [foldl]. rewrite (Hx new), (Hx l) by done. cbn [negb].
    by destruct (negb (isKeyLine new)), (negb (isKeyLine l)).
  - rewrite E, Hd, !length_app. done.
  - intros j Hj. rewrite E, Hd. destruct (decide (j < length d1)%nat) as [Hlt|Hge]; [by rewrite !lookup_app_l by lia|].
    rewrite !lookup_app_r by lia. destruct (j - length d1)%nat as [|n] eqn:En; [lia | done].
Qed.

(** Nothing is invented: when the user's file is the shipped file of the
    version they have and the new version still knows all its settings, the
    update writes the new file exactly as shipped (less its byte order mark), and
    so it does for a user without a file. *)
Theorem merge_untouched_ships_next next user r :
  (forall l, In l (iniParse user) -> isKeyLine l = true -> known (effectiveOf (iniParse next) (section l) (key l)) = true) ->
  (mergeIni next user (Some user) [] r).1 = dropBom next /\
  forall base, (mergeIni next [] base [] r).1 = dropBom next.
Proof.
  intros H. split.
  - destruct (merge_known next user [] r H) as (m & E1 & E2 & ->). cbn [foldl].
    by rewrite emit_plain, E1, replaceAll_id, iniText_parse.
  - intros base. unfold mergeIni. change (iniParse []) with (@nil IniLine). unfold userKeysOf. cbn [existsb foldl andb fst].
    rewrite emit_plain by done. cbn [replacements]. by rewrite replaceAll_id, iniText_parse.
Qed.

(** C6.  The game reads what the merge reports: on a file all of whose live keys
    are names the merge accepts, the reader's value of [section.key] is the
    effective value the merge computes for that key (and no value where the merge
    sees none), for every key whose dotted name no other key of the file shares. *)
Theorem config_reads_effective t s k :
  forallb (fun l => tokenLine l.1) (splitLines [] (dropBom t)) = true ->
  (forall l, In l (iniParse t) -> kind l = Key ->
     lower (dottedName (section l) (key l)) = lower (dottedName s k) -> matches s k l = true) ->
  configParse t !! lower (dottedName s k) =
  (let e := effectiveOf (iniParse t) s k in if present e then Some (evalue e) else None).
Proof.
  intros Ht Hu. rewrite configParse_lines, recorded_last by done. rewrite effectiveOf_spec. cbn [present evalue].
  rewrite (lastLine_ext _ (live s k)).
  - rewrite lookup_empty. by destruct (lastLine (live s k) (iniParse t)).
  - intros l Hl. unfold live. destruct (decide (kind l = Key)) as [Hk|Hk]; [|by rewrite bool_decide_false].
    rewrite (bool_decide_true _ Hk). cbn [andb]. case_bool_decide as E; [symmetry; by apply Hu|].
    symmetry. apply not_true_iff_false. intros Hm. apply E. unfold matches in Hm. apply andb_true_iff in Hm as [H1 H2].
    rewrite sameKey_spec in *. clear -H1 H2. unfold lower, dottedName in *.
    destruct (section l) as [|a x], s as [|b y]; try done. rewrite !map_app. by rewrite H1, H2.
Qed.

(** *** Witnesses and divergences *)
Definition demo_ini : str := lit "[fix]
# moved-from: old.x (default 3)
  #black_void = 1   ; keep this
glow=2

[vr]
scale = 1.0
".

Lemma ini_text_roundtrip_witness :
  iniText (iniParse demo_ini) = demo_ini /\ iniParse (iniText (iniParse demo_ini)) = iniParse demo_ini.
Proof. split; [reflexivity|]. apply (ini_text_roundtrip demo_ini). reflexivity. Defined.

Lemma rewriteValue_reads_back_witness :
  key (classify (lit "fix") (lit "  #black_void = 1   ; keep this") [LF]) = lit "black_void" /\
  value (classify (lit "fix") (rewriteValue (lit "  #black_void = 1   ; keep this") (lit "0") true) [LF]) = lit "0".
Proof.
  split; [reflexivity|].
  apply (rewriteValue_reads_back (lit "fix") (lit "  #black_void = 1   ; keep this") [LF] [LF] (lit "0")); [reflexivity|].
  split; [reflexivity | split; [reflexivity | split; [|reflexivity]]]. intros c r H. injection H as <- <-. reflexivity.
Defined.

Lemma set_value_laws_witness :
  iniValue demo_ini (lit "fix.black_void") [] = [] /\
  iniValue (mergeIni demo_ini demo_ini (Some demo_ini) [(lit "fix.Black_Void", lit "0")] report0).1 (lit "fix.Black_Void") [] = lit "0".
Proof.
  split; [reflexivity|].
  apply (set_value_laws demo_ini (lit "fix") (lit "Black_Void") (lit "fix.Black_Void") (lit "0") [] report0 2); try reflexivity.
  split; [reflexivity | split; [reflexivity | split; [|reflexivity]]]. intros c r H. injection H as <- <-. reflexivity.
Defined.

Definition demo_old : str := lit "[vr]
SCALE=2
".
Lemma merge_untouched_ships_next_witness :
  existsb isKeyLine (iniParse demo_old) = true /\ (mergeIni demo_ini demo_old (Some demo_old) [] report0).1 = demo_ini.
Proof.
  split; [reflexivity|]. destruct (merge_untouched_ships_next demo_ini demo_old report0) as [E _].
  - intros l Hl Hk. vm_compute in Hl. destruct Hl as [<-|[<-|[]]]; [discriminate Hk | vm_compute; reflexivity].
  - rewrite E. reflexivity.
Defined.

Lemma config_reads_effective_witness : configParse demo_ini !! lower (lit "fix.Glow") = Some (lit "2").
Proof.
  apply (config_reads_effective demo_ini (lit "fix") (lit "Glow")).
  - vm_compute. reflexivity.
  - intros l Hl. vm_compute in Hl. repeat (destruct Hl as [<-|Hl]; [intros H1 H2; vm_compute in H1; first [discriminate H1 | vm_compute; reflexivity | vm_compute in H2; discriminate H2]|]). destruct Hl.
Defined.

(** A value set in the section of a last line without terminator is glued to
    that line's own value. *)
Lemma append_glues_last_line :
  (mergeIni (lit "[fix]
glow = 1") (lit "[fix]
glow = 1") (Some (lit "[fix]
glow = 1")) [(lit "fix.new", lit "2")] report0).1 = lit "[fix]
glow = 1new = 2" ++ [LF].
Proof. vm_compute. reflexivity. Qed.

(** A value that starts with a comment mark is live on "key=#value"; carried
    into a line that has none of its own, it reads as empty. *)
Lemma hash_value_is_lost :
  iniValue (lit "[fix]
tint=#fff
") (lit "fix.tint") [] = lit "#fff" /\
  iniValue (mergeIni (lit "[fix]
tint = red
") (lit "[fix]
tint=#fff
") None [] report0).1 (lit "fix.tint") [] = [].
Proof. split; vm_compute; reflexivity. Qed.

(** A dotted key before the first header is a setting for the reader only. *)
Lemma bare_dotted_key_diverges :
  configParse (lit "fix.glow = 3") !! lit "fix.glow" = Some (lit "3") /\
  iniValue (lit "fix.glow = 3") (lit "fix.glow") [] = [].
Proof. split; vm_compute; reflexivity. Qed.
