(* ===== verification/InstallData.v ===== *)
(** The installer's data (src/src/installer/plan.h, probe.h, detect.h, state.h):
    what a survey of the game folder holds, what a plan is made of, the record
    of the last run; and the path helpers of detect.cpp and state.cpp.

    A [std::wstring] is a list of UTF-16 code units.  [_wcsicmp], [_wcsnicmp] and
    [towlower] are those of the C locale, which the installer never changes: they
    fold the letters A to Z.  A path never holds a NUL, so [c_str()] is the whole
    string. *)
From S2P Require Import Prelude Ini.

Abbreviation wstr := (list N).
Definition wlit (s : String.string) : wstr := map Ascii.N_of_ascii (lit s).
Arguments wlit s%_string.

(** ** Wide strings *)
Definition wlower (c : N) : N := (if (65 <=? c) && (c <=? 90) then c + 32 else c)%N.
Definition wcsicmp (a b : wstr) : bool := bool_decide (map wlower a = map wlower b).
Definition wcsnicmp (a b : wstr) (n : nat) : bool := wcsicmp (take n a) (take n b).
Definition isSlash (c : N) : bool := (N.eqb c 92 || N.eqb c 47)%N.
(** [WideCharToMultiByte] and [MultiByteToWideChar] for UTF-8, as [toUtf8] and
    [fromUtf8] of detect.cpp call them. *)
Class Utf8 := { toUtf8 : wstr -> str; fromUtf8 : str -> wstr }.
(** The conversions on ASCII text, for evaluation. *)
Definition ascii_utf8 : Utf8 := {| toUtf8 s := map Ascii.ascii_of_N s; fromUtf8 s := map Ascii.N_of_ascii s |}.
Definition wempty (s : wstr) : bool := bool_decide (s = []).
Definition sempty (s : str) : bool := bool_decide (s = []).

(** [find_last_of] the two separators: what precedes the last one and what follows it. *)
Fixpoint lastSlash (s : wstr) : option (wstr * wstr) :=
  match s with
  | [] => None
  | c :: r => match lastSlash r with
              | Some (a, b) => Some (c :: a, b)
              | None => if isSlash c then Some ([], r) else None
              end
  end.
Fixpoint wprefix (p s : wstr) : bool :=
  match p, s with [], _ => true | _, [] => false | c :: p, x :: s => N.eqb c x && wprefix p s end.
Fixpoint wcontains (p s : wstr) : bool :=
  wprefix p s || match s with [] => false | _ :: r => wcontains p r end.

Definition joinPath (dir leaf : wstr) : wstr :=
  if wempty dir then leaf else if wempty leaf then dir
  else match last dir with
       | Some c => (if isSlash c then dir else dir ++ [92%N]) ++ leaf
       | None => leaf
       end.
Definition leafOf (path : wstr) : wstr := match lastSlash path with Some (_, b) => b | None => path end.

Definition stateDirPath (gameDir : wstr) : wstr := joinPath gameDir (wlit "edvr_install").
Definition statePath (gameDir : wstr) : wstr := joinPath (stateDirPath gameDir) (wlit "state.ini").
Definition baseIniPath (gameDir : wstr) : wstr := joinPath (stateDirPath gameDir) (wlit "edvr.ini.base").
Definition backupRootPath (gameDir : wstr) : wstr := joinPath gameDir (wlit "edvr_backup").

(** ** What a DLL on disk is *)
Inductive DllKind := Absent | Unreadable | Edvr | OpenVrRuntime | D3d11Provider | Foreign.
#[export] Instance DllKind_eq_dec : EqDecision DllKind.
Proof. solve_decision. Defined.
Definition isKind (k l : DllKind) : bool := bool_decide (k = l).

Record DllInfo := mkDll {
  dll_kind : DllKind; dll_path : wstr; is64 : bool; dll_size : Z;
  hasEdvrExports : bool; hasVrInit : bool; hasD3d11Create : bool; hasXrGetInstanceProcAddr : bool;
  hasNativeConfigure : bool; nativeMarkerValid : bool; nativeGraphicsProviders : bool; nativeRuntimeExports : bool;
  product : wstr; description : wstr; company : wstr; fileVersion : wstr; sha256 : str }.
#[export] Instance eta_DllInfo : Settable DllInfo := fun d =>
  mkDll (dll_kind d) (dll_path d) (is64 d) (dll_size d) (hasEdvrExports d) (hasVrInit d) (hasD3d11Create d)
    (hasXrGetInstanceProcAddr d) (hasNativeConfigure d) (nativeMarkerValid d) (nativeGraphicsProviders d)
    (nativeRuntimeExports d) (product d) (description d) (company d) (fileVersion d) (sha256 d).
Definition dll0 : DllInfo :=
  mkDll Absent [] false 0 false false false false false false false false [] [] [] [] [].

(** [containsNoCase] with a needle that is not empty. *)
Definition containsNoCase (hay needle : wstr) : bool := wcontains (map wlower needle) (map wlower hay).

Definition modOfField (s : wstr) : option wstr :=
  if containsNoCase s (wlit "reshade") then Some (wlit "ReShade")
  else if containsNoCase s (wlit "3dmigoto") then Some (wlit "EDHM")
  else if containsNoCase s (wlit "edhm") then Some (wlit "EDHM")
  else if containsNoCase s (wlit "dxvk") then Some (wlit "DXVK")
  else if containsNoCase s (wlit "opencomposite") then Some (wlit "OpenComposite")
  else if containsNoCase s (wlit "special k") then Some (wlit "Special K")
  else None.
Definition modNameOf (info : DllInfo) : wstr :=
  match modOfField (product info), modOfField (description info), modOfField (company info) with
  | Some m, _, _ => m
  | None, Some m, _ => m
  | None, None, Some m => m
  | None, None, None => []
  end.
Definition chainNameFor (info : DllInfo) : wstr :=
  let m := modNameOf info in
  if bool_decide (m = wlit "ReShade") then wlit "d3d11_reshade.dll"
  else if bool_decide (m = wlit "EDHM") then wlit "d3d11_edhm.dll"
  else if bool_decide (m = wlit "DXVK") then wlit "d3d11_dxvk.dll"
  else if bool_decide (m = wlit "Special K") then wlit "d3d11_specialk.dll"
  else wlit "d3d11_other.dll".

(** [%.1f] of a byte count over 2^20: the quotient is exact in binary, and the
    digit is rounded to nearest, halves to even. *)
Fixpoint digits (fuel : nat) (n : Z) (acc : wstr) : wstr :=
  match fuel with
  | O => acc
  | S f => let acc := Z.to_N (48 + n mod 10) :: acc in if (n <? 10)%Z then acc else digits f (n / 10) acc
  end.
Definition decimal (n : Z) : wstr := digits 30 n [].
Definition megabytes (bytes : Z) : wstr :=
  let q := (bytes * 10 / 2 ^ 20)%Z in
  let r := ((bytes * 10) mod 2 ^ 20)%Z in
  let tenths := (if (2 ^ 19 <? r) || ((2 ^ 19 =? r) && Z.odd q) then q + 1 else q)%Z in
  decimal (tenths / 10) ++ wlit "." ++ decimal (tenths mod 10).
Definition describeDll (info : DllInfo) : wstr :=
  match dll_kind info with
  | Absent => wlit "not present"
  | Unreadable => wlit "present, but unreadable (locked, or not a DLL)"
  | _ =>
      let m := modNameOf info in
      let s := if isKind (dll_kind info) Edvr then wlit "EDVR"
               else if negb (wempty m) then m
               else if negb (wempty (product info)) then product info
               else if isKind (dll_kind info) OpenVrRuntime then wlit "the game's OpenVR runtime"
               else if isKind (dll_kind info) D3d11Provider then wlit "another d3d11 mod"
               else wlit "an unrecognised DLL" in
      let s := if wempty (fileVersion info) then s else s ++ wlit " " ++ fileVersion info in
      s ++ wlit " (" ++ megabytes (dll_size info) ++ wlit " MB" ++
        (if is64 info then [] else wlit ", 32-bit") ++ wlit ")"
  end.

(** ** The record of the last run *)
Record InstallState := mkState {
  st_present : bool; edvrVersion : str; installedUtc : str; st_openvrDir : wstr;
  d3d11Installed : bool; d3d11Sha : str; chainTarget : wstr; chainMod : wstr;
  openvrInstalled : bool; openvrSha : str; openvrOrigName : wstr; openvrOrigSha : str;
  ngxInstalled : bool; ngxSha : str; iniSha : str; hasBaseIni : bool;
  nativeInstalled : bool; nativeGraphicsSha : str; nativeRuntimeSha : str; openxrLoaderSha : str;
  openxrLicenseSha : str; nativeConfigSha : str; nativeOriginalName : wstr; nativeOriginalSha : str }.
#[export] Instance eta_InstallState : Settable InstallState := fun s =>
  mkState (st_present s) (edvrVersion s) (installedUtc s) (st_openvrDir s) (d3d11Installed s) (d3d11Sha s)
    (chainTarget s) (chainMod s) (openvrInstalled s) (openvrSha s) (openvrOrigName s) (openvrOrigSha s)
    (ngxInstalled s) (ngxSha s) (iniSha s) (hasBaseIni s) (nativeInstalled s) (nativeGraphicsSha s)
    (nativeRuntimeSha s) (openxrLoaderSha s) (openxrLicenseSha s) (nativeConfigSha s) (nativeOriginalName s)
    (nativeOriginalSha s).
Definition state0 : InstallState :=
  mkState false [] [] [] false [] [] [] false [] [] [] false [] [] false false [] [] [] [] [] [] [].

(** ** The folder, the options and the plan *)
Record GameInstall := mkGame { dir : wstr; openvrDir : wstr; source : wstr; productFolder : wstr; odyssey : bool }.

Record PayloadInfo := mkPayload {
  version : str; haveD3d11 : bool; p_d3d11Sha : str; haveOpenvr : bool; p_openvrSha : str;
  haveNgx : bool; p_ngxSha : str; nativePairValid : bool; haveOpenxrLoader : bool; p_openxrLoaderSha : str;
  haveOpenxrLicense : bool; p_openxrLicenseSha : str; p_iniText : str }.

Record Survey := mkSurvey {
  game : GameInstall; gameRunningHere : bool; gameRunningElsewhere : bool;
  d3d11 : DllInfo; openxrLoader : DllInfo; nativeConfig : DllInfo; openxrLicense : DllInfo;
  otherD3d11 : list DllInfo; iniPresent : bool; s_iniText : str; baseIniText : str;
  ngx : DllInfo; nvidiaAdapter : bool; nvidiaAdapterName : wstr;
  haveOpenvrDir : bool; openvrCurrent : DllInfo; openvrOrig : DllInfo; s_openvrOrigName : wstr;
  openvrOrigInBackups : list wstr; state : InstallState; eliteProfileValid : bool }.

Record Options := mkOptions {
  keepSettings : bool; repair : bool; removeSettings : bool; backupStamp : wstr; nowUtc : str }.

Inductive Action := MakeDir | Backup | Rename | WritePayload | WriteText | Delete.
#[export] Instance Action_eq_dec : EqDecision Action.
Proof. solve_decision. Defined.

Record Step := mkStep {
  action : Action; from : wstr; to : wstr; item : str; step_text : str; why : str; expectSha : str; required : bool }.
#[export] Instance eta_Step : Settable Step := fun s =>
  mkStep (action s) (from s) (to s) (item s) (step_text s) (why s) (expectSha s) (required s).
Definition step0 : Step := mkStep MakeDir [] [] [] [] [] [] false.

Record Plan := mkPlan {
  steps : list Step; notes : list str; problems : list str; blocked : bool; nothingToDo : bool;
  merge : MergeReport; nextState : InstallState; backupDir : wstr }.
#[export] Instance eta_Plan : Settable Plan := fun p =>
  mkPlan (steps p) (notes p) (problems p) (blocked p) (nothingToDo p) (merge p) (nextState p) (backupDir p).
Definition plan0 : Plan := mkPlan [] [] [] false false report0 state0 [].

(** ** Lemmas on paths *)
Lemma wcsicmp_refl a : wcsicmp a a = true.
Proof. unfold wcsicmp. by rewrite bool_decide_true. Qed.

Lemma lastSlash_app a c b : isSlash c = true -> lastSlash b = None -> lastSlash (a ++ c :: b) = Some (a, b).
Proof. intros Hc Hb. induction a as [|x a IH]; simpl; [rewrite Hb, Hc | rewrite IH]; done. Qed.

Lemma lastSlash_spec s a b : lastSlash s = Some (a, b) ->
  exists c, isSlash c = true /\ s = a ++ c :: b /\ lastSlash b = None.
Proof.
  revert a b. induction s as [|x s IH]; simpl; intros a b H; [done|].
  destruct (lastSlash s) as [[a' b']|] eqn:E.
  - injection H as <- <-. destruct (IH _ _ eq_refl) as (c & Hc & -> & Hb). eauto.
  - destruct (isSlash x) eqn:Hx; [|done]. injection H as <- <-. eauto.
Qed.

(** The leaf of a joined path is the leaf, whatever the folder. *)
Lemma leafOf_join dir leaf : leaf <> [] -> lastSlash leaf = None -> leafOf (joinPath dir leaf) = leaf.
Proof.
  intros Hne Hl. unfold joinPath, wempty.
  case_bool_decide; [by unfold leafOf; rewrite Hl|]. case_bool_decide; [done|].
  destruct (last dir) as [c|] eqn:E; [|by apply last_None in E].
  apply last_Some in E as [d ->]. unfold leafOf. destruct (isSlash c) eqn:Hs.
  - rewrite <- app_assoc. simpl. by rewrite lastSlash_app.
  - rewrite <- (app_assoc _ [92%N]). simpl. by rewrite lastSlash_app.
Qed.

Lemma joinPath_leaf_ne d1 d2 l1 l2 : l1 <> [] -> l2 <> [] -> lastSlash l1 = None -> lastSlash l2 = None ->
  l1 <> l2 -> joinPath d1 l1 <> joinPath d2 l2.
Proof.
  intros H1 H2 H3 H4 Hne E. apply Hne.
  by rewrite <- (leafOf_join d1 l1), <- (leafOf_join d2 l2), E.
Qed.
