(* ===== verification/InstallState.v ===== *)
(** The installer's record of its last run (src/src/installer/state.cpp): what it
    writes next to the game and what it reads back on the next run. *)
From S2P Require Import Prelude Ini InstallData.
From Stdlib Require Import Ascii.

Section State.
Context {utf8 : Utf8}.

(** The record as the function [get] reads it: section and key to value. *)
Definition stateOf (get : String.string -> String.string -> str) : InstallState :=
  let s := state0 in
  let s := s <| edvrVersion := get "edvr"%string "version"%string |> in
  let s := s <| installedUtc := get "edvr"%string "installed_utc"%string |> in
  let s := s <| st_openvrDir := fromUtf8 (get "edvr"%string "openvr_dir"%string) |> in
  let s := s <| d3d11Sha := get "d3d11"%string "sha256"%string |> in
  let s := s <| d3d11Installed := negb (sempty (d3d11Sha s)) |> in
  let s := s <| chainTarget := fromUtf8 (get "d3d11"%string "chain_target"%string) |> in
  let s := s <| chainMod := fromUtf8 (get "d3d11"%string "chain_mod"%string) |> in
  let s := s <| openvrSha := get "openvr"%string "sha256"%string |> in
  let s := s <| openvrInstalled := negb (sempty (openvrSha s)) |> in
  let s := s <| openvrOrigName := fromUtf8 (get "openvr"%string "orig_name"%string) |> in
  let s := s <| openvrOrigSha := get "openvr"%string "orig_sha256"%string |> in
  let s := s <| ngxSha := get "ngx"%string "sha256"%string |> in
  let s := s <| ngxInstalled := negb (sempty (ngxSha s)) |> in
  let s := s <| iniSha := get "ini"%string "sha256"%string |> in
  let s := s <| nativeGraphicsSha := get "native"%string "graphics_sha256"%string |> in
  let s := s <| nativeRuntimeSha := get "native"%string "runtime_sha256"%string |> in
  let s := s <| openxrLoaderSha := get "native"%string "loader_sha256"%string |> in
  let s := s <| openxrLicenseSha := get "native"%string "license_sha256"%string |> in
  let s := s <| nativeConfigSha := get "native"%string "config_sha256"%string |> in
  let s := s <| nativeOriginalName := fromUtf8 (get "native"%string "original_name"%string) |> in
  let s := s <| nativeOriginalSha := get "native"%string "original_sha256"%string |> in
  let s := s <| nativeInstalled := negb (sempty (nativeRuntimeSha s)) || negb (sempty (nativeGraphicsSha s)) |> in
  s <| st_present := negb (sempty (edvrVersion s)) || d3d11Installed s || openvrInstalled s || nativeInstalled s |>.

Definition parseState (text : str) : InstallState :=
  if sempty text then state0
  else
    let doc := iniParse text in
    stateOf (fun s k => match findKey doc (lit s) (lit k) with Some l => value l | None => [] end).

(** [text] is what reading the record's file gives, [base] whether the kept
    default settings are there. *)
Definition readState (text : str) (base : bool) : InstallState := (parseState text) <| hasBaseIni := base |>.

Definition crlf : str := [CR; LF].
Definition shaIf (installed : bool) (sha : str) : str := if installed then sha else [].

Definition serializeState (s : InstallState) : str :=
  lit "# EDVR install record. Written by the installer; read by it on the next run." ++ crlf ++
  lit "# Deleting this file loses nothing the game needs -- it only makes the" ++ crlf ++
  lit "# installer fall back to guessing what a previous run did." ++ crlf ++
  crlf ++ lit "[edvr]" ++ crlf ++
  lit "version = " ++ edvrVersion s ++ crlf ++
  lit "installed_utc = " ++ installedUtc s ++ crlf ++
  lit "openvr_dir = " ++ toUtf8 (st_openvrDir s) ++ crlf ++
  crlf ++ lit "[d3d11]" ++ crlf ++
  lit "sha256 = " ++ shaIf (d3d11Installed s) (d3d11Sha s) ++ crlf ++
  lit "chain_target = " ++ toUtf8 (chainTarget s) ++ crlf ++
  lit "chain_mod = " ++ toUtf8 (chainMod s) ++ crlf ++
  crlf ++ lit "[openvr]" ++ crlf ++
  lit "sha256 = " ++ shaIf (openvrInstalled s) (openvrSha s) ++ crlf ++
  lit "orig_name = " ++ toUtf8 (openvrOrigName s) ++ crlf ++
  lit "orig_sha256 = " ++ openvrOrigSha s ++ crlf ++
  crlf ++ lit "[ngx]" ++ crlf ++
  lit "sha256 = " ++ shaIf (ngxInstalled s) (ngxSha s) ++ crlf ++
  crlf ++ lit "[ini]" ++ crlf ++
  lit "sha256 = " ++ iniSha s ++ crlf ++
  crlf ++ lit "[native]" ++ crlf ++
  lit "graphics_sha256 = " ++ nativeGraphicsSha s ++ crlf ++
  lit "runtime_sha256 = " ++ nativeRuntimeSha s ++ crlf ++
  lit "loader_sha256 = " ++ openxrLoaderSha s ++ crlf ++
  lit "license_sha256 = " ++ openxrLicenseSha s ++ crlf ++
  lit "config_sha256 = " ++ nativeConfigSha s ++ crlf ++
  lit "original_name = " ++ toUtf8 (nativeOriginalName s) ++ crlf ++
  lit "original_sha256 = " ++ nativeOriginalSha s ++ crlf.

(** ** The record as lines *)
Definition kvLine (k : String.string) (v : str) : str * str := (lit k ++ lit " = " ++ v, crlf).
Arguments kvLine k%_string v.

(** The keys of the record in order, as (section, key, value). *)
Definition recordBlocks (s : InstallState) : list (String.string * list (String.string * str)) :=
  [("edvr", [("version", edvrVersion s); ("installed_utc", installedUtc s); ("openvr_dir", toUtf8 (st_openvrDir s))]);
   ("d3d11", [("sha256", shaIf (d3d11Installed s) (d3d11Sha s)); ("chain_target", toUtf8 (chainTarget s));
              ("chain_mod", toUtf8 (chainMod s))]);
   ("openvr", [("sha256", shaIf (openvrInstalled s) (openvrSha s)); ("orig_name", toUtf8 (openvrOrigName s));
               ("orig_sha256", openvrOrigSha s)]);
   ("ngx", [("sha256", shaIf (ngxInstalled s) (ngxSha s))]);
   ("ini", [("sha256", iniSha s)]);
   ("native", [("graphics_sha256", nativeGraphicsSha s); ("runtime_sha256", nativeRuntimeSha s);
               ("loader_sha256", openxrLoaderSha s); ("license_sha256", openxrLicenseSha s);
               ("config_sha256", nativeConfigSha s); ("original_name", toUtf8 (nativeOriginalName s));
               ("original_sha256", nativeOriginalSha s)])]%string.

Definition headLines : list (str * str) :=
  [(lit "# EDVR install record. Written by the installer; read by it on the next run.", crlf);
   (lit "# Deleting this file loses nothing the game needs -- it only makes the", crlf);
   (lit "# installer fall back to guessing what a previous run did.", crlf)].
Definition blockLines (b : String.string * list (String.string * str)) : list (str * str) :=
  ([], crlf) :: (lit "[" ++ lit b.1 ++ lit "]", crlf) :: map (fun kv => kvLine kv.1 kv.2) b.2.
Definition recordLines (s : InstallState) : list (str * str) := headLines ++ concat (map blockLines (recordBlocks s)).

Lemma serialize_lines s : serializeState s = joined (recordLines s).
Proof.
  unfold serializeState, recordLines, recordBlocks, joined, headLines, blockLines, kvLine.
  cbn [map concat app fst snd lit String.list_ascii_of_string]. by rewrite <- ?app_assoc.
Qed.

(** Every value of the record is one a line can carry. *)
Definition recordable (s : InstallState) : Prop :=
  Forall (fun b => Forall (fun kv => cleanValue kv.2) b.2) (recordBlocks s).
(** The names the record keeps survive the conversion to UTF-8 and back. *)
Definition utf8Names (s : InstallState) : Prop :=
  Forall (fun w => fromUtf8 (toUtf8 w) = w)
    [st_openvrDir s; chainTarget s; chainMod s; openvrOrigName s; nativeOriginalName s].

Definition goodKey (k : String.string) : bool :=
  isKeyToken (lit k) && bool_decide (trim (lit k ++ lit " ") = lit k) && negb (existsb (eqc "="%char) (lit k)) &&
  bool_decide (ltrim (lit k ++ lit " ") = lit k ++ lit " ") && forallb (fun c => negb (isEol c)) (lit k).

Lemma classify_kv sec k v e : goodKey k = true -> cleanValue v ->
  classify sec (lit k ++ lit " = " ++ v) e = mkLine Key (lit k ++ lit " = " ++ v) e sec (lit k) v.
Proof.
  unfold goodKey. intros Hk Hv. bool_solve.
  replace (lit k ++ lit " = " ++ v) with ([] ++ (lit k ++ lit " ") ++ lit "=" ++ (lit " " ++ v)) by (by rewrite <- !app_assoc).
  rewrite classify_live; [|done..| |].
  - match goal with H : trim _ = _ |- _ => rewrite H end. by rewrite value_plain.
  - match goal with H : trim _ = _ |- _ => by rewrite H end.
  - intros [Hin|Hin]%in_app_iff; [|by destruct Hin as [?|[]]].
    match goal with H : existsb _ _ = false |- _ => apply not_true_iff_false in H; apply H end.
    apply existsb_exists. eexists. split; [exact Hin|]. by apply eqc_spec.
Qed.

Lemma kv_noEol k v : goodKey k = true -> cleanValue v -> noEol (lit k ++ lit " = " ++ v).
Proof.
  unfold goodKey. intros Hk (_ & _ & _ & Hv). bool_solve. rewrite !noEol_app. by split_and!.
Qed.

(** A line of the record, whatever the values, is classified as written. *)
Definition sectionLine (n : String.string) : IniLine :=
  mkLine Section_ (lit "[" ++ lit n ++ lit "]") crlf (lit n) [] [].
Definition blockDoc (sec : str) (b : String.string * list (String.string * str)) : IniDoc :=
  mkLine Blank [] crlf sec [] [] :: sectionLine b.1 ::
  map (fun kv => mkLine Key (kvLine kv.1 kv.2).1 crlf (lit b.1) (lit kv.1) kv.2) b.2.

Definition goodBlock (b : String.string * list (String.string * str)) : Prop :=
  (forall sec, classify sec (lit "[" ++ lit b.1 ++ lit "]") crlf = sectionLine b.1) /\
  noEol (lit "[" ++ lit b.1 ++ lit "]") /\
  Forall (fun kv => goodKey kv.1 = true /\ cleanValue kv.2) b.2.

Lemma parse_kvs sec kvs rest : Forall (fun kv => goodKey kv.1 = true /\ cleanValue kv.2) kvs ->
  parseLines sec (map (fun kv => kvLine kv.1 kv.2) kvs ++ rest) =
  map (fun kv => mkLine Key (kvLine kv.1 kv.2).1 crlf sec (lit kv.1) kv.2) kvs ++ parseLines sec rest.
Proof.
  induction 1 as [|[k v] kvs [Hk Hv] _ IH]; [done|]. cbn [map app parseLines kvLine fst snd].
  rewrite classify_kv by done. cbn [section]. by rewrite IH.
Qed.

Fixpoint docOf (sec : str) (bs : list (String.string * list (String.string * str))) : IniDoc :=
  match bs with [] => [] | b :: bs => blockDoc sec b ++ docOf (lit b.1) bs end.

Lemma parse_blocks bs : forall sec, Forall goodBlock bs -> parseLines sec (concat (map blockLines bs)) = docOf sec bs.
Proof.
  induction bs as [|b bs IH]; intros sec Hb; [done|]. apply Forall_cons in Hb as [(Hs & _ & Hkv) Hb].
  cbn [map concat docOf]. unfold blockLines at 1, blockDoc. cbn [app parseLines section]. rewrite Hs.
  cbn [section sectionLine]. rewrite parse_kvs by done. by rewrite IH.
Qed.

Lemma blocks_wf bs : Forall goodBlock bs -> wfLines (concat (map blockLines bs)).
Proof.
  assert (forall l r, Forall (fun x => noEol x.1 /\ x.2 = crlf) l -> wfLines r -> wfLines (l ++ r)) as Happ.
  { induction 1 as [|[t e] l [Ht He] _ IH]; intros Hr; [done|]. simpl in *. subst e. split_and!; auto. }
  induction 1 as [|b bs (Hs & Hn & Hkv) _ IH]; [done|]. cbn [map concat]. apply Happ; [|done].
  unfold blockLines. constructor; [done|]. constructor; [done|]. apply Forall_map.
  eapply Forall_impl; [exact Hkv|]. intros kv [Hk Hv]. split; [by apply kv_noEol | done].
Qed.

Lemma record_blocks_good s : recordable s -> Forall goodBlock (recordBlocks s).
Proof.
  unfold recordable. intros H. unfold recordBlocks in *. rewrite !Forall_cons in *. cbn [fst snd] in *.
  unfold goodBlock. cbn [fst snd]. rewrite ?Forall_cons in *. cbn [fst snd] in *. by destruct_and!; split_and!.
Qed.

Lemma record_parse s : recordable s -> iniParse (serializeState s) =
  parseLines [] headLines ++ docOf [] (recordBlocks s).
Proof.
  intros Hr. pose proof (record_blocks_good s Hr) as Hg. rewrite serialize_lines. unfold iniParse.
  assert (hasBom (joined (recordLines s)) = false) as Hbom by done.
  unfold dropBom. rewrite Hbom. rewrite splitLines_join.
  - unfold recordLines. rewrite <- (parse_blocks _ [] Hg). done.
  - unfold recordLines, headLines. cbn [app wfLines]. pose proof (blocks_wf _ Hg). split_and!; auto; done.
Qed.

(** What the record keeps of a state: whether each part is installed is read off
    its hash, and the kept default settings are looked for on the disk. *)
Definition recorded (s : InstallState) : InstallState :=
  let d := shaIf (d3d11Installed s) (d3d11Sha s) in
  let v := shaIf (openvrInstalled s) (openvrSha s) in
  let n := shaIf (ngxInstalled s) (ngxSha s) in
  let native := negb (sempty (nativeRuntimeSha s)) || negb (sempty (nativeGraphicsSha s)) in
  s <| d3d11Sha := d |> <| d3d11Installed := negb (sempty d) |>
    <| openvrSha := v |> <| openvrInstalled := negb (sempty v) |>
    <| ngxSha := n |> <| ngxInstalled := negb (sempty n) |>
    <| nativeInstalled := native |> <| hasBaseIni := false |>
    <| st_present := negb (sempty (edvrVersion s)) || negb (sempty d) || negb (sempty v) || native |>.

(** Looking a key of the record up in what the record parses to. *)
Definition field (s : InstallState) (sec k : String.string) : str :=
  match findKey (parseLines [] headLines ++ docOf [] (recordBlocks s)) (lit sec) (lit k) with
  | Some l => value l
  | None => []
  end.

Lemma fields_found s : Forall (fun b => Forall (fun kv => field s b.1 kv.1 = kv.2) b.2) (recordBlocks s).
Proof.
  destruct s. unfold recordBlocks.
  repeat first [by apply Forall_nil | apply Forall_cons; split; cbn beta; cbn [fst snd]]; vm_compute; reflexivity.
Qed.

Lemma stateOf_fields get s : Forall (fun b => Forall (fun kv => get b.1 kv.1 = kv.2) b.2) (recordBlocks s) ->
  utf8Names s -> stateOf get = recorded s.
Proof.
  intros Hf Hu. unfold recordBlocks, utf8Names in *.
  repeat match goal with
  | H : Forall _ (_ :: _) |- _ => apply Forall_cons in H; destruct H; cbn [fst snd] in *
  | H : Forall _ [] |- _ => clear H
  end.
  unfold stateOf. repeat match goal with H : get _ _ = _ |- _ => rewrite H; clear H end.
  repeat match goal with H : fromUtf8 (toUtf8 _) = _ |- _ => rewrite H; clear H end.
  reflexivity.
Qed.

Lemma parse_serialized s : recordable s -> utf8Names s -> parseState (serializeState s) = recorded s.
Proof.
  intros Hr Hu. unfold parseState.
  assert (sempty (serializeState s) = false) as -> by (rewrite serialize_lines; done).
  rewrite (record_parse s Hr). apply stateOf_fields; [apply fields_found | exact Hu].
Qed.

(** C10. What the installer writes into its record is what it reads back on the
    next run: every hash, name and version, and which parts are installed, for any
    state whose values a line of the record can carry. *)
Theorem state_record_roundtrip s :
  recordable s -> utf8Names s -> parseState (serializeState s) = recorded s.
Proof. apply parse_serialized. Qed.
End State.

Definition cleanb (v : str) : bool :=
  bool_decide (trim v = v) && bool_decide (stripInlineComment v = v) &&
  match v with [] => true | c :: _ => negb (isMark c) end && forallb (fun c => negb (isEol c)) v.
Lemma cleanb_spec v : cleanb v = true -> cleanValue v.
Proof.
  unfold cleanb. intros H. bool_solve. split_and!; try done. intros c r ->. by bool_solve.
Qed.
Definition recordableb {utf8 : Utf8} (s : InstallState) : bool :=
  forallb (fun b => forallb (fun kv => cleanb kv.2) b.2) (recordBlocks s).
Lemma recordableb_spec {utf8 : Utf8} s : recordableb s = true -> recordable s.
Proof.
  unfold recordableb, recordable. rewrite forallb_forall, Forall_forall. intros H b Hb.
  apply list_elem_of_In in Hb. specialize (H b Hb). rewrite forallb_forall in H. apply Forall_forall.
  intros kv Hkv. apply list_elem_of_In in Hkv. by apply cleanb_spec, H.
Qed.

Definition demo_state : InstallState := state0 <| st_present := true |> <| edvrVersion := lit "0.9.41" |>
  <| st_openvrDir := wlit "Openvr\win64" |> <| d3d11Installed := true |> <| d3d11Sha := lit "e6be" |>
  <| chainTarget := wlit "d3d11_edhm.dll" |> <| chainMod := wlit "EDHM" |> <| openvrSha := lit "left over" |>
  <| nativeInstalled := true |> <| nativeRuntimeSha := lit "77aa" |> <| hasBaseIni := true |>.
Lemma state_record_roundtrip_witness :
  @parseState ascii_utf8 (@serializeState ascii_utf8 demo_state) =
  demo_state <| openvrSha := [] |> <| hasBaseIni := false |>.
Proof.
  refine (eq_trans (@state_record_roundtrip ascii_utf8 demo_state _ _) _).
  - apply recordableb_spec. vm_compute. reflexivity.
  - unfold utf8Names. rewrite !Forall_cons. split_and!; try (vm_compute; reflexivity). apply Forall_nil. exact I.
  - vm_compute. reflexivity.
Defined.
