(* ===== verification/InstallPlan.v ===== *)
(** Deciding what an install or an uninstall does (src/src/installer/plan.cpp): a
    pure function from the survey of the folder to an ordered list of steps, the
    prose that explains them and the record of the result. *)
From S2P Require Import Prelude Ini InstallData InstallState.
From Stdlib Require Import Ascii.

#[local] Arguments lit : simpl never.
#[local] Arguments wlit : simpl never.

Definition kD3d11 : wstr := wlit "d3d11.dll".
Definition kIni : wstr := wlit "edvr.ini".
Definition kOpenvr : wstr := wlit "openvr_api.dll".
Definition kOpenvrOrig : wstr := wlit "openvr_api_orig.dll".
Definition kNgx : wstr := wlit "nvngx_dlss.dll".
Definition kRunningElsewhere : str := lit "Elite Dangerous is running, but from a different folder -- this install is not the one in use, so it can be changed.".

Definition siblingNamed (siblings : list DllInfo) (leaf : wstr) : option DllInfo :=
  head (List.filter (fun d => wcsicmp (leafOf (dll_path d)) leaf) siblings).

Definition safeSiblingName (value mustNotEqual : wstr) : wstr :=
  if wempty value then []
  else if existsb (fun c => existsb (N.eqb c) (wlit "\/:*?<>|" ++ [34%N])) value then []
  else if bool_decide (value = wlit ".") || bool_decide (value = wlit "..") || wcontains (wlit "..") value then []
  else if wcsicmp value mustNotEqual then []
  else if Nat.ltb (length value) 5 || negb (wcsicmp (drop (length value - 4) value) (wlit ".dll")) then []
  else value.

Fixpoint skipSlashes (s : wstr) : wstr := match s with [] => [] | c :: r => if isSlash c then skipSlashes r else s end.
Definition relativeOpenvr (gameDir openvr : wstr) : wstr :=
  if wempty openvr then []
  else if Nat.ltb (length gameDir) (length openvr) && wcsnicmp openvr gameDir (length gameDir)
       then skipSlashes (drop (length gameDir) openvr)
       else openvr.

(** ** The plan under construction: the locals of [planInstall] *)
Record Build := mkBuild {
  body : list Step; forced : list (str * str); wantBackupDir : bool; changed : bool; next : InstallState;
  b_notes : list str; b_problems : list str; b_merge : MergeReport }.
#[export] Instance eta_Build : Settable Build := fun b =>
  mkBuild (body b) (forced b) (wantBackupDir b) (changed b) (next b) (b_notes b) (b_problems b) (b_merge b).

Definition note (s : str) (b : Build) : Build := b <| b_notes := b_notes b ++ [s] |>.
Definition problem (s : str) (b : Build) : Build := b <| b_problems := b_problems b ++ [s] |>.
Definition force (k v : str) (b : Build) : Build := b <| forced := forced b ++ [(k, v)] |>.
Definition push (st : Step) (b : Build) : Build := b <| body := body b ++ [st] |>.
Definition setNext (f : InstallState -> InstallState) (b : Build) : Build := b <| next := f (next b) |>.

Definition backupStep (dir path : wstr) (why_ : str) : Step :=
  step0 <| action := Backup |> <| from := path |> <| to := joinPath dir (leafOf path) |> <| why := why_ |>.
Definition renameStep (a b : wstr) (why_ sha : str) : Step :=
  step0 <| action := Rename |> <| from := a |> <| to := b |> <| why := why_ |> <| expectSha := sha |> <| required := true |>.
Definition payloadStep (it : str) (p : wstr) (why_ : str) : Step :=
  step0 <| action := WritePayload |> <| item := it |> <| to := p |> <| why := why_ |>.
Definition textStep (t : str) (p : wstr) (why_ : str) : Step :=
  step0 <| action := WriteText |> <| step_text := t |> <| to := p |> <| why := why_ |>.
Definition removeStep (p : wstr) (why_ sha : str) : Step :=
  step0 <| action := Delete |> <| from := p |> <| why := why_ |> <| expectSha := sha |>.
Definition makeDirStep (p : wstr) (why_ : str) : Step := step0 <| action := MakeDir |> <| to := p |> <| why := why_ |>.

Definition backup (dir path : wstr) (why_ : str) (b : Build) : Build :=
  (push (backupStep dir path why_) b) <| wantBackupDir := true |>.
(** [backup], then [body.back()] made required and pinned to a hash. *)
Definition backupExact (dir path : wstr) (why_ sha : str) (b : Build) : Build :=
  (push ((backupStep dir path why_) <| required := true |> <| expectSha := sha |>) b) <| wantBackupDir := true |>.
Definition rename (a c : wstr) (why_ sha : str) (b : Build) : Build :=
  (push (renameStep a c why_ sha) b) <| changed := true |>.
Definition writePayload (it : str) (p : wstr) (why_ : str) (b : Build) : Build :=
  (push (payloadStep it p why_) b) <| changed := true |>.
Definition writeText (t : str) (p : wstr) (why_ : str) (b : Build) : Build := push (textStep t p why_) b.
Definition remove (p : wstr) (why_ sha : str) (b : Build) : Build :=
  (push (removeStep p why_ sha) b) <| changed := true |>.
Definition restore (a c : wstr) (why_ : str) (b : Build) : Build :=
  (push (step0 <| action := Backup |> <| from := a |> <| to := c |> <| why := why_ |> <| required := true |>) b)
    <| changed := true |>.

Definition isThere (d : option DllInfo) : option DllInfo :=
  match d with Some d => if isKind (dll_kind d) Absent then None else Some d | None => None end.

Section Planning.
Context {utf8 : Utf8} (sha256Bytes : str -> str).
Definition say (w : wstr) : str := toUtf8 w.

Definition backupDirFor (s : Survey) (o : Options) : wstr :=
  joinPath (backupRootPath (dir (game s))) (if wempty (backupStamp o) then wlit "backup" else backupStamp o).

(** *** Why an install is refused *)
Definition refusal (s : Survey) (p : PayloadInfo) : option str :=
  if wempty (dir (game s)) then Some (lit "No game folder chosen.")
  else if gameRunningHere s then
    Some (lit "Elite Dangerous is running. Close it first -- Windows will not let anything replace a file the game has open, and a half-replaced install is worse than none.")
  else if negb (haveD3d11 p) || negb (haveOpenvr p) || negb (haveOpenxrLoader p) || negb (haveOpenxrLicense p) ||
          negb (nativePairValid p) || sempty (p_iniText p) then
    Some (lit "The native OpenXR package is incomplete or invalid. Nothing will be installed.")
  else if negb (eliteProfileValid s) then
    Some (lit "This Elite executable is not supported by this OpenXR build. Install an EDVR build supporting this game revision.")
  else if existsb (fun d => isKind (dll_kind d) Unreadable)
            [d3d11 s; openvrCurrent s; openxrLoader s; nativeConfig s; openxrLicense s] then
    Some (lit "A native OpenXR destination cannot be read. Nothing will be installed.")
  else None.

Definition nativeDirOf (s : Survey) : wstr :=
  if wempty (openvrDir (game s)) then joinPath (dir (game s)) (wlit "Openvr\win64") else openvrDir (game s).

Definition firstState (s : Survey) (o : Options) (p : PayloadInfo) : InstallState :=
  (state s) <| st_present := true |> <| edvrVersion := version p |> <| installedUtc := nowUtc o |>
    <| st_openvrDir := relativeOpenvr (dir (game s)) (nativeDirOf s) |> <| nativeInstalled := true |>
    <| chainTarget := [] |> <| chainMod := [] |>.
Definition firstBuild (s : Survey) (o : Options) (p : PayloadInfo) : Build :=
  mkBuild [] [] false false (firstState s o p) (if gameRunningElsewhere s then [kRunningElsewhere] else []) [] report0.

(** *** d3d11.dll *)
Section Install.
Variables (s : Survey) (o : Options) (p : PayloadInfo).
Definition bdir : wstr := backupDirFor s o.
Definition slot : wstr := joinPath (dir (game s)) kD3d11.
Definition ours (sha : str) (st : InstallState) : InstallState := st <| d3d11Installed := true |> <| d3d11Sha := sha |>.

(** The file already parked under the name the newcomer is to get. *)
Definition parkedCopy (chainLeaf chainPath modName : wstr) (modSay : str) (b : Build) : Build :=
  match isThere (siblingNamed (otherD3d11 s) chainLeaf) with
  | None => b
  | Some existing =>
      let sameMod := negb (wempty modName) && bool_decide (modNameOf existing = modName) in
      let b := backup bdir chainPath (if sameMod then lit "the older " ++ modSay ++ lit " copy already parked here"
                                      else lit "the file already parked under that name") b in
      if sameMod then b
      else problem (lit "There was already a " ++ say chainLeaf ++ lit " here and it is not the same mod as the one in the d3d11.dll slot. It has been copied into the backup folder and replaced, so check that folder before deleting anything.") b
  end.

(** Another mod EDVR was chained to before, which nothing loads from now on. *)
Definition previousChain (chainLeaf : wstr) (modSay : str) (b : Build) : Build :=
  if negb (wempty (chainTarget (state s))) && negb (wcsicmp (chainTarget (state s)) chainLeaf) then
    match isThere (siblingNamed (otherD3d11 s) (chainTarget (state s))) with
    | None => b
    | Some _ =>
        problem (lit "EDVR was passing calls through " ++ say (chainTarget (state s)) ++
          (if wempty (chainMod (state s)) then [] else lit " (" ++ say (chainMod (state s)) ++ lit ")") ++
          lit ", and now passes them through " ++ modSay ++ lit " instead -- EDVR can only chain to one. The older one is still in the folder but nothing loads it. If you want that one back, set advanced.real_dll to it by hand.") b
    end
  else b.

(** Somebody else is in the slot: theirs is moved aside and chained to. *)
Definition takeSlot (b : Build) : Build :=
  let cur := d3d11 s in
  let chainLeaf := chainNameFor cur in
  let chainPath := joinPath (dir (game s)) chainLeaf in
  let modName := modNameOf cur in
  let modSay := if wempty modName then lit "That mod" else say modName in
  let b := parkedCopy chainLeaf chainPath modName modSay b in
  let b := backup bdir slot (lit "the " ++ modSay ++ lit " d3d11.dll found in EDVR's place") b in
  let b := rename slot chainPath (lit "moves " ++ modSay ++ lit " aside, keeping it installed") (sha256 cur) b in
  let b := writePayload (lit "d3d11") slot (lit "installs EDVR's d3d11.dll in its place") b in
  let b := force (lit "advanced.real_dll") (say chainLeaf) b in
  let b := setNext (fun n => n <| chainTarget := chainLeaf |> <| chainMod := modName |>) b in
  let b := previousChain chainLeaf modSay b in
  let b := setNext (ours (p_d3d11Sha p)) b in
  let b := if d3d11Installed (state s)
    then note (modSay ++ lit " has replaced EDVR's d3d11.dll since the last install. Both are kept: it becomes " ++ say chainLeaf ++ lit ", EDVR takes the d3d11.dll name back, and every call passes through to it.") b
    else note (modSay ++ lit " is installed as d3d11.dll. It is renamed " ++ say chainLeaf ++ lit ", EDVR takes its place, and advanced.real_dll points back at it -- both mods run.") b in
  if is64 cur then b
  else problem (lit "The d3d11.dll found in the game folder is 32-bit, which the 64-bit game cannot have been loading. It has been kept, but check what put it there.") b.

Definition planD3d11 (b : Build) : Build :=
  if negb (haveD3d11 p) then b
  else match dll_kind (d3d11 s) with
  | Unreadable => problem (lit "There is a d3d11.dll next to the game that cannot be read -- something has it open, or it is not a DLL. EDVR's own d3d11.dll was not installed; nothing else was touched.") b
  | Edvr =>
      let b := if bool_decide (sha256 (d3d11 s) = p_d3d11Sha p) && negb (repair o)
        then note (lit "d3d11.dll is already this build -- left alone.") b
        else
          let b := backup bdir slot (lit "the EDVR d3d11.dll being replaced") b in
          let b := writePayload (lit "d3d11") slot (if repair o then lit "reinstalls EDVR's d3d11.dll" else lit "updates EDVR's d3d11.dll") b in
          note (if repair o then lit "Reinstalling d3d11.dll (the fixes)." else lit "Updating d3d11.dll (the fixes).") b in
      setNext (ours (p_d3d11Sha p)) b
  | Absent =>
      let b := writePayload (lit "d3d11") slot (lit "installs EDVR's d3d11.dll") b in
      let b := note (if d3d11Installed (state s)
        then lit "Restoring d3d11.dll -- EDVR was installed here, and the file is gone. (EDHM's uninstaller runs `del d3d11.dll`, which after an EDVR install is ours.)"
        else lit "Installing d3d11.dll (the fixes).") b in
      setNext (ours (p_d3d11Sha p)) b
  | _ => takeSlot b
  end.

(** *** The chain to the other mod, asked on every run *)
Definition planChain (b : Build) : Build :=
  if wempty (chainTarget (next b)) && negb (wempty (chainTarget (state s))) then
    match isThere (siblingNamed (otherD3d11 s) (chainTarget (state s))) with
    | Some _ =>
        let b := setNext (fun n => n <| chainTarget := chainTarget (state s) |> <| chainMod := chainMod (state s) |>) b in
        note (lit "Keeping the chain to " ++ say (chainTarget (state s)) ++ lit ".") b
    | None =>
        let b := force (lit "advanced.real_dll") [] b in
        note (lit "The mod EDVR was passing calls through to (" ++ say (chainTarget (state s)) ++ lit ") is no longer there, so advanced.real_dll has been cleared.") b
    end
  else b.

(** *** nvngx_dlss.dll *)
Definition planNgx (b : Build) : Build :=
  if haveNgx p then
    let dst := joinPath (dir (game s)) kNgx in
    let cur := ngx s in
    let present := negb (isKind (dll_kind cur) Absent) && negb (isKind (dll_kind cur) Unreadable) in
    let ours := present && ngxInstalled (state s) && negb (sempty (ngxSha (state s))) && bool_decide (sha256 cur = ngxSha (state s)) in
    let placed sha n := n <| ngxInstalled := true |> <| ngxSha := sha |> in
    let b := setNext (fun n => n <| ngxInstalled := false |> <| ngxSha := [] |>) b in
    if isKind (dll_kind cur) Unreadable then
      problem (lit "There is an nvngx_dlss.dll beside the game that cannot be read -- something has it open. NVIDIA's DLSS runtime was not touched.") b
    else if present && bool_decide (sha256 cur = p_ngxSha p) && negb (repair o) then
      setNext (placed (p_ngxSha p)) (note (lit "nvngx_dlss.dll (NVIDIA's DLSS runtime) is already this build's -- left alone.") b)
    else if present && negb ours && negb (bool_decide (sha256 cur = p_ngxSha p)) then
      note (lit "A different nvngx_dlss.dll is already beside the game (yours, or one NVIDIA's updater replaced) -- left alone; temporal_aa = dlaa uses it.") b
    else if negb (nvidiaAdapter s) then
      let b := note (lit "No NVIDIA graphics card was found, so NVIDIA's DLSS runtime (nvngx_dlss.dll, 59 MB) was not placed. temporal_aa = dlaa and dlss need one, and run EDVR's own history without it.") b in
      if ours then setNext (placed (ngxSha (state s))) b else b
    else
      let b := if present then backup bdir dst (lit "the nvngx_dlss.dll EDVR placed, being replaced") b else b in
      let b := writePayload (lit "ngx") dst (if present then lit "updates NVIDIA's DLSS runtime" else lit "places NVIDIA's DLSS runtime beside the game") b in
      let b := note (if present then lit "Updating nvngx_dlss.dll (NVIDIA's DLSS runtime)." else lit "Placing nvngx_dlss.dll (NVIDIA's DLSS runtime, for temporal_aa = dlaa).") b in
      setNext (placed (p_ngxSha p)) b
  else if ngxInstalled (state s) then
    note (lit "This installer carries no DLSS runtime; the nvngx_dlss.dll a previous one placed is left where it is.") b
  else b.

(** *** openvr_api.dll: always native OpenXR, the original kept for uninstall *)
Definition originalName : wstr :=
  let n := safeSiblingName (s_openvrOrigName s) kOpenvr in if wempty n then kOpenvrOrig else n.

Definition planOpenvr (b : Build) : Build :=
  let runtime := joinPath (nativeDirOf s) kOpenvr in
  let original := joinPath (nativeDirOf s) originalName in
  let current := openvrCurrent s in
  let saved := openvrOrig s in
  let b := setNext (fun n => n <| openvrOrigName := originalName |>
             <| openvrOrigSha := if isKind (dll_kind saved) OpenVrRuntime then sha256 saved else [] |>) b in
  let b :=
    if isKind (dll_kind current) Edvr && bool_decide (sha256 current = p_openvrSha p) && negb (repair o) then
      note (lit "Native OpenXR runtime is already this build -- left alone.") b
    else
      let b :=
        if isKind (dll_kind current) Absent then b
        else
          let b := backupExact bdir runtime (lit "the previous VR library, for recovery") (sha256 current) b in
          if isKind (dll_kind current) OpenVrRuntime &&
             (isKind (dll_kind saved) Absent || (isKind (dll_kind saved) OpenVrRuntime && negb (bool_decide (sha256 saved = sha256 current)))) then
            let b := if isKind (dll_kind saved) OpenVrRuntime then
                note (lit "The game updated its VR library; keeping the newer original for uninstall.")
                  (backupExact bdir original (lit "the superseded original runtime") (sha256 saved) b)
              else b in
            let b := rename runtime original (lit "preserves the original runtime for uninstall") (sha256 current) b in
            setNext (fun n => n <| openvrOrigSha := sha256 current |>) b
          else b in
      let b := writePayload (lit "openvr") runtime (lit "installs native OpenXR using the Windows-selected runtime") b in
      note (lit "Installing native OpenXR. The original VR library is not used at runtime.") b in
  setNext (fun n => n <| openvrInstalled := true |> <| openvrSha := p_openvrSha p |>
    <| nativeGraphicsSha := p_d3d11Sha p |> <| nativeRuntimeSha := p_openvrSha p |>
    <| nativeOriginalName := openvrOrigName n |> <| nativeOriginalSha := openvrOrigSha n |>) b.

Definition nativeAsset (current : DllInfo) (name : wstr) (it wanted : str) (b : Build) : Build :=
  let destination := joinPath (nativeDirOf s) name in
  let there := negb (isKind (dll_kind current) Absent) in
  if there && bool_decide (sha256 current = wanted) && negb (repair o) then b
  else
    let b := if there then backupExact bdir destination (lit "the previous native OpenXR file") (sha256 current) b else b in
    writePayload it destination (lit "installs the bundled OpenXR dependency") b.

Definition nativeConfigText : str :=
  lit "[openxr]" ++ crlf ++ lit "version=1" ++ crlf ++ lit "loader=" ++
  toUtf8 (joinPath (nativeDirOf s) (wlit "openxr_loader.dll")) ++ crlf ++ lit "graphics=" ++
  toUtf8 (joinPath (dir (game s)) kD3d11) ++ crlf ++ lit "runtime=system" ++ crlf ++ lit "separate_device=1" ++ crlf.

Definition planAssets (b : Build) : Build :=
  let b := nativeAsset (openxrLoader s) (wlit "openxr_loader.dll") (lit "openxr_loader") (p_openxrLoaderSha p) b in
  let b := nativeAsset (openxrLicense s) (wlit "OPENXR-LOADER-LICENSE.txt") (lit "openxr_license") (p_openxrLicenseSha p) b in
  let b := setNext (fun n => n <| openxrLoaderSha := p_openxrLoaderSha p |> <| openxrLicenseSha := p_openxrLicenseSha p |>) b in
  let configSha := sha256Bytes nativeConfigText in
  let b := setNext (fun n => n <| nativeConfigSha := configSha |>) b in
  if negb (bool_decide (sha256 (nativeConfig s) = configSha)) || repair o then
    let destination := joinPath (nativeDirOf s) (wlit "edvr_openxr.ini") in
    let b := if negb (isKind (dll_kind (nativeConfig s)) Absent)
             then backupExact bdir destination (lit "the previous OpenXR startup configuration") (sha256 (nativeConfig s)) b
             else b in
    (writeText nativeConfigText destination (lit "selects the Windows OpenXR runtime") b) <| changed := true |>
  else b.

(** *** edvr.ini *)
Definition number (n : nat) : str := map Ascii.ascii_of_N (decimal (Z.of_nat n)).
Definition mergeLine (r : MergeReport) : str :=
  lit "Updating edvr.ini: " ++ number (length (kept r)) ++ lit " of your settings kept, " ++ number (length (adopted r)) ++
  lit " new defaults adopted" ++
  (if twoWay r then lit " (no record of which version you had, so anything that differs from the new defaults was treated as yours)" else []) ++ lit ".".

Definition mergedIni (b : Build) : str * MergeReport :=
  if negb (iniPresent s) || negb (keepSettings o) then mergeIni (p_iniText p) [] None (forced b) (b_merge b)
  else mergeIni (p_iniText p) (s_iniText s) (if sempty (baseIniText s) then None else Some (baseIniText s)) (forced b) (b_merge b).

(** What is said and put aside before the merged settings are written. *)
Definition beforeIni (same : bool) (r : MergeReport) (b : Build) : Build :=
  let iniPath := joinPath (dir (game s)) kIni in
  if negb (iniPresent s) then note (lit "Writing edvr.ini (every setting at its default).") b
  else if negb (keepSettings o) then
    note (lit "Replacing edvr.ini with the shipped defaults. Your old file is in the backup folder.")
      (backup bdir iniPath (lit "your edvr.ini, before it is replaced") b)
  else if negb same then
    let b := backup bdir iniPath (lit "your edvr.ini, before it is updated") b in
    let b := note (mergeLine r) b in
    match retired r with
    | [] => b
    | _ => note (lit "Some settings you had set no longer exist in this version; they were carried to the end of their section with a note rather than dropped.") b
    end
  else b.

Definition planIni (b : Build) : Build :=
  if sempty (p_iniText p) then problem (lit "This installer carries no edvr.ini.") b
  else
    let iniPath := joinPath (dir (game s)) kIni in
    let '(merged, r) := mergedIni b in
    let same := bool_decide (merged = s_iniText s) in
    let b := beforeIni same r (b <| b_merge := r |>) in
    let b := if negb same then (writeText merged iniPath (lit "writes edvr.ini") b) <| changed := true |>
             else note (lit "edvr.ini already says what it should -- left alone.") b in
    setNext (fun n => n <| iniSha := sha256Bytes merged |>) b.

(** *** Assembling the plan: directories, the body, and the record last *)
Definition recordSteps (n : InstallState) : list Step :=
  [makeDirStep (stateDirPath (dir (game s))) (lit "holds the install record");
   textStep (p_iniText p) (baseIniPath (dir (game s)))
     (lit "keeps this version's default edvr.ini, so the next update can tell your changes from a changed default");
   textStep (serializeState n) (statePath (dir (game s))) (lit "records what was installed")].

Definition assemble (b : Build) : Plan :=
  let nothing := negb (changed b) && negb (repair o) in
  let plan := plan0 <| backupDir := bdir |> <| problems := b_problems b |> <| merge := b_merge b |>
                <| nextState := next b |> <| nothingToDo := nothing |>
                <| notes := b_notes b ++ (if nothing then [lit "Everything is already in place. Nothing to do."] else []) |> in
  if nothing then plan
  else plan <| steps :=
    (if wantBackupDir b then [makeDirStep bdir (lit "keeps a copy of everything replaced")] else []) ++
    [makeDirStep (nativeDirOf s) (lit "holds the native OpenXR runtime and loader")] ++ body b ++ recordSteps (next b) |>.

Definition buildInstall : Build :=
  planIni (planAssets (planOpenvr (planNgx (planChain (planD3d11 (firstBuild s o p)))))).

Definition planInstall : Plan :=
  match refusal s p with
  | Some why => plan0 <| backupDir := bdir |> <| blocked := true |> <| problems := [why] |>
  | None => assemble buildInstall
  end.
End Install.

(** ** Uninstalling *)
Section Uninstall.
Variables (s : Survey) (o : Options).
(** [fileExists] for the record and for the kept default settings. *)
Variables (recordThere baseThere : bool).
Let ubdir : wstr := backupDirFor s o.

Definition removeD3d11 (b : Build) : Build :=
  let path := joinPath (dir (game s)) kD3d11 in
  match dll_kind (d3d11 s) with
  | Edvr =>
      let b := backup ubdir path (lit "EDVR's d3d11.dll") b in
      let b := remove path (lit "removes EDVR's d3d11.dll") (sha256 (d3d11 s)) b in
      let chain := safeSiblingName (chainTarget (state s)) kD3d11 in
      let chain := if wempty chain then safeSiblingName (fromUtf8 (iniValue (s_iniText s) (lit "advanced.real_dll") [])) kD3d11 else chain in
      match (if wempty chain then None else isThere (siblingNamed (otherD3d11 s) chain)) with
      | Some target =>
          let b := rename (dll_path target) path
            (lit "puts " ++ (if wempty (chainMod (state s)) then lit "the other mod" else say (chainMod (state s))) ++ lit " back under its own name")
            (sha256 target) b in
          note (lit "Removing EDVR's d3d11.dll and restoring " ++ say chain ++ lit " as d3d11.dll.") b
      | None =>
          let b := note (lit "Removing EDVR's d3d11.dll.") b in
          if wempty chain then b
          else problem (lit "edvr.ini pointed at " ++ say chain ++ lit ", but that file is not there any more, so there is nothing to put back.") b
      end
  | Absent => note (lit "No d3d11.dll to remove.") b
  | _ => note (lit "The d3d11.dll here is not EDVR's (" ++ say (describeDll (d3d11 s)) ++ lit ") -- left alone.") b
  end.

Definition removeOpenvr (b : Build) : Build :=
  if negb (haveOpenvrDir s) then b
  else
    let dst := joinPath (openvrDir (game s)) kOpenvr in
    let origPath := joinPath (openvrDir (game s)) (originalName s) in
    if isKind (dll_kind (openvrCurrent s)) Edvr then
      if isKind (dll_kind (openvrOrig s)) OpenVrRuntime then
        let b := backup ubdir dst (lit "EDVR's openvr_api.dll") b in
        let b := remove dst (lit "removes EDVR's openvr_api.dll") (sha256 (openvrCurrent s)) b in
        let b := rename origPath dst (lit "puts the game's own openvr_api.dll back") (sha256 (openvrOrig s)) b in
        note (lit "Removing EDVR's openvr_api.dll and renaming the game's original back.") b
      else match openvrOrigInBackups s with
      | copy :: _ =>
          let b := backup ubdir dst (lit "EDVR's openvr_api.dll") b in
          let b := restore copy dst (lit "puts the game's own openvr_api.dll back from an EDVR backup") b in
          note (lit "The renamed original is missing, so the game's own openvr_api.dll is being restored from the backup this installer made before it first renamed it.") b
      | [] => problem (lit "EDVR's openvr_api.dll has been left in place: the game's original is not there to put back, and no backup of it was found, so removing ours would leave that folder with no openvr_api.dll at all. Verify or repair the game files in your launcher -- that restores the original -- and then uninstall again.") b
      end
    else if isKind (dll_kind (openvrCurrent s)) OpenVrRuntime && isKind (dll_kind (openvrOrig s)) OpenVrRuntime then
      note (lit "The game's own openvr_api.dll is already in place; the spare copy at openvr_api_orig.dll was left where it is.") b
    else note (lit "No EDVR openvr_api.dll to remove.") b.

Definition retire (info : DllInfo) (owned : str) (b : Build) : Build :=
  if isKind (dll_kind info) Absent then b
  else if sempty owned || negb (bool_decide (sha256 info = owned)) then
    note (lit "Keeping a changed OpenXR file: " ++ say (leafOf (dll_path info))) b
  else
    let b := backup ubdir (dll_path info) (lit "the native OpenXR file being removed") b in
    remove (dll_path info) (lit "removes EDVR's OpenXR dependency") (sha256 info) b.

Definition removeAssets (b : Build) : Build :=
  if nativeInstalled (state s) then
    let b := retire (openxrLoader s) (openxrLoaderSha (state s)) b in
    let b := retire (openxrLicense s) (openxrLicenseSha (state s)) b in
    retire (nativeConfig s) (nativeConfigSha (state s)) b
  else b.

Definition removeNgx (b : Build) : Build :=
  let there := negb (isKind (dll_kind (ngx s)) Absent) in
  if ngxInstalled (state s) && negb (sempty (ngxSha (state s))) && there &&
     negb (isKind (dll_kind (ngx s)) Unreadable) && bool_decide (sha256 (ngx s) = ngxSha (state s)) then
    let b := remove (joinPath (dir (game s)) kNgx) (lit "removes NVIDIA's DLSS runtime, which EDVR placed") (sha256 (ngx s)) b in
    note (lit "Removing nvngx_dlss.dll (NVIDIA's DLSS runtime, which EDVR placed).") b
  else if there then
    note (lit "The nvngx_dlss.dll beside the game is not the copy EDVR placed -- left alone.") b
  else b.

Definition removeRecord (b : Build) : Build :=
  let iniPath := joinPath (dir (game s)) kIni in
  let b := if iniPresent s then
      if removeSettings o then
        let b := backup ubdir iniPath (lit "your edvr.ini") b in
        let b := remove iniPath (lit "removes edvr.ini") [] b in
        note (lit "Removing edvr.ini (a copy is kept in the backup folder).") b
      else note (lit "Leaving edvr.ini in place, so a reinstall finds your settings again.") b
    else b in
  let b := if recordThere then remove (statePath (dir (game s))) (lit "removes the install record") [] b else b in
  if baseThere then remove (baseIniPath (dir (game s))) (lit "removes the kept default edvr.ini") [] b else b.

Definition uninstallRefused : bool :=
  (nativeInstalled (state s) || nativeRuntimeExports (openvrCurrent s)) && isKind (dll_kind (openvrCurrent s)) Edvr &&
  negb (isKind (dll_kind (openvrOrig s)) OpenVrRuntime) && bool_decide (openvrOrigInBackups s = []).

Definition buildUninstall : Build :=
  removeRecord (removeNgx (removeAssets (removeOpenvr (removeD3d11
    (mkBuild [] [] false false state0 (if gameRunningElsewhere s then [kRunningElsewhere] else []) [] report0))))).

Definition planUninstall : Plan :=
  if uninstallRefused then
    plan0 <| blocked := true |> <| problems := [lit "The original VR library is missing. Repair the game files before uninstalling; the native pair was left intact."] |>
  else if gameRunningHere s then
    plan0 <| backupDir := ubdir |> <| blocked := true |> <| problems := [lit "Elite Dangerous is running. Close it first."] |>
  else
    let b := buildUninstall in
    let plan := plan0 <| backupDir := ubdir |> <| problems := b_problems b |> in
    if negb (changed b) then
      plan <| nothingToDo := true |> <| notes := b_notes b ++ [lit "EDVR does not appear to be installed here."] |>
    else
      plan <| steps := (if wantBackupDir b then [makeDirStep ubdir (lit "keeps a copy of everything removed")] else []) ++ body b |>
           <| notes := b_notes b ++ [lit "Logs in edvr_logs\ and the backups in edvr_backup\ are left where they are; delete them by hand if you want them gone."] |>.
End Uninstall.

Definition planSummary (plan : Plan) : str :=
  concat (map (fun n => lit "  - " ++ n ++ crlf) (notes plan)) ++
  match problems plan with
  | [] => []
  | ps => crlf ++ concat (map (fun q => lit "  ! " ++ q ++ crlf) ps)
  end.
End Planning.

(** ** What a step overwrites, and what keeps a file first *)
Definition overwrites (st : Step) : option wstr :=
  match action st with WritePayload | WriteText | Rename => Some (to st) | _ => None end.
(** A copy of the file at [path], or the file itself moved elsewhere. *)
Definition keeps (path : wstr) (st : Step) : Prop :=
  (action st = Backup \/ action st = Rename) /\ from st = path.

Section Covered.
(** [occ]: a file was at that path when the folder was surveyed. *)
Context (occ : wstr -> Prop).

Definition covered (l : list Step) : Prop := forall pre st post path,
  l = pre ++ st :: post -> overwrites st = Some path -> occ path -> Exists (keeps path) pre.

Lemma covered_nil : covered [].
Proof. intros [] ? ? ? E; discriminate. Qed.

Lemma covered_snoc l st : covered l -> (forall path, overwrites st = Some path -> occ path -> Exists (keeps path) l) ->
  covered (l ++ [st]).
Proof.
  intros Hl Hst pre st' post path E Ho Hocc. destruct post as [|x post _] using rev_ind.
  - apply app_inj_tail in E as [-> ->]. by apply Hst.
  - rewrite app_comm_cons, app_assoc in E. apply app_inj_tail in E as [-> _]. by eapply Hl.
Qed.

Lemma covered_app l1 l2 : covered l1 ->
  (forall pre st post path, l2 = pre ++ st :: post -> overwrites st = Some path -> occ path -> Exists (keeps path) (l1 ++ pre)) ->
  covered (l1 ++ l2).
Proof.
  intros H1 H2. induction l2 as [|st l2 IH] using rev_ind; [by rewrite app_nil_r|].
  rewrite app_assoc. apply covered_snoc.
  - apply IH. intros pre st' post path ->. apply (H2 pre st' (post ++ [st])). by rewrite <- app_assoc.
  - intros path. by apply (H2 l2 st [] path).
Qed.

(** A step that overwrites nothing that was there. *)
Lemma covered_free l st : covered l -> (forall path, overwrites st = Some path -> ~ occ path) -> covered (l ++ [st]).
Proof. intros Hl Hn. apply covered_snoc; [done|]. intros path Ho Hocc. by destruct (Hn path Ho). Qed.

Lemma covered_kept l st k : covered l -> In k l -> (forall path, overwrites st = Some path -> keeps path k) ->
  covered (l ++ [st]).
Proof.
  intros Hl Hk Hst. apply covered_snoc; [done|]. intros path Ho _. apply Exists_exists. exists k.
  split; [by apply list_elem_of_In | by apply Hst].
Qed.

Lemma keeps_backup dir path why_ : keeps path (backupStep dir path why_).
Proof. split; [by left | done]. Qed.

(** *** On a plan under construction *)
Definition covB (b : Build) : Prop := covered (body b).
Definition kept_in (path : wstr) (b : Build) : Prop := Exists (keeps path) (body b).

Lemma kept_push path st b : kept_in path b \/ keeps path st -> kept_in path (push st b).
Proof. intros [H|H]; apply Exists_app; [by left | right; by constructor]. Qed.
Lemma kept_backup dir path w b : kept_in path (backup dir path w b).
Proof. apply kept_push. right. split; [by left | done]. Qed.
Lemma kept_exact dir path w sha b : kept_in path (backupExact dir path w sha b).
Proof. apply kept_push. right. split; [by left | done]. Qed.
Lemma kept_rename path a w sha b : kept_in path (rename path a w sha b).
Proof. apply kept_push. right. split; [by right | done]. Qed.

Lemma kept_more path b st : kept_in path b -> kept_in path (push st b).
Proof. intros H. apply kept_push. by left. Qed.

Lemma cov_push st b : covB b -> (forall path, overwrites st = Some path -> occ path -> kept_in path b) -> covB (push st b).
Proof. intros. by apply covered_snoc. Qed.
Lemma cov_backup dir path w b : covB b -> covB (backup dir path w b).
Proof. intros. by apply cov_push. Qed.
Lemma cov_exact dir path w sha b : covB b -> covB (backupExact dir path w sha b).
Proof. intros. by apply cov_push. Qed.
Lemma cov_rename a c w sha b : covB b -> (occ c -> kept_in c b) -> covB (rename a c w sha b).
Proof. intros H Hk. apply (cov_push (renameStep a c w sha)); [done|]. intros path [= <-]. exact Hk. Qed.
Lemma cov_payload it c w b : covB b -> (occ c -> kept_in c b) -> covB (writePayload it c w b).
Proof. intros H Hk. apply (cov_push (payloadStep it c w)); [done|]. intros path [= <-]. exact Hk. Qed.
Lemma cov_text t c w b : covB b -> (occ c -> kept_in c b) -> covB (writeText t c w b).
Proof. intros H Hk. apply (cov_push (textStep t c w)); [done|]. intros path [= <-]. exact Hk. Qed.
Lemma cov_body b b' : covB b -> body b' = body b -> covB b'.
Proof. unfold covB. by intros H ->. Qed.
End Covered.

(** [note], [problem], [force] and [setNext] leave the steps alone. *)
Lemma body_note t b : body (note t b) = body b. Proof. done. Qed.
Lemma body_problem t b : body (problem t b) = body b. Proof. done. Qed.
Lemma body_force k v b : body (force k v b) = body b. Proof. done. Qed.
Lemma body_setNext f b : body (setNext f b) = body b. Proof. done. Qed.

Create HintDb plan.
#[export] Hint Resolve kept_backup kept_exact kept_rename cov_backup cov_exact : plan.

Ltac plan_quiet :=
  repeat match goal with
  | |- covB _ (note _ _) => apply (cov_body _ _ _); [|reflexivity]
  | |- covB ?o (note ?t ?b) => apply (cov_body o b (note t b)); [|reflexivity]
  | |- covB ?o (problem ?t ?b) => apply (cov_body o b (problem t b)); [|reflexivity]
  | |- covB ?o (force ?k ?v ?b) => apply (cov_body o b (force k v b)); [|reflexivity]
  | |- covB ?o (setNext ?f ?b) => apply (cov_body o b (setNext f b)); [|reflexivity]
  | |- covB ?o (if ?c then _ else _) => destruct c eqn:?
  | |- covB ?o (match ?c with _ => _ end) => destruct c eqn:?
  | |- covB _ (backup _ _ _ _) => apply cov_backup
  | |- covB _ (backupExact _ _ _ _ _) => apply cov_exact
  end.

(** ** The survey and the folder it was made of *)
Section Faithful.
Context {utf8 : Utf8} (sha256Bytes : str -> str).
Variables (s : Survey) (o : Options) (p : PayloadInfo).
(** [here path]: a file was at [path] when the folder was surveyed. *)
Variable here : wstr -> bool.
Definition present_ (d : DllInfo) : bool := negb (isKind (dll_kind d) Absent).
Definition game_file (n : wstr) : wstr := joinPath (dir (game s)) n.
Definition native_file (n : wstr) : wstr := joinPath (nativeDirOf s) n.
Definition chainNames : list wstr :=
  [wlit "d3d11_reshade.dll"; wlit "d3d11_edhm.dll"; wlit "d3d11_dxvk.dll"; wlit "d3d11_specialk.dll"; wlit "d3d11_other.dll"].

(** What [surveyTarget] establishes: each record says whether its file is there,
    and every [d3d11_*.dll] of the game folder is among the siblings. *)
Record SurveyOf : Prop := {
  here_d3d11 : here (game_file kD3d11) = present_ (d3d11 s);
  here_ngx : here (game_file kNgx) = present_ (ngx s);
  here_openvr : here (native_file kOpenvr) = present_ (openvrCurrent s);
  here_orig : here (native_file (originalName s)) = present_ (openvrOrig s);
  here_loader : here (native_file (wlit "openxr_loader.dll")) = present_ (openxrLoader s);
  here_license : here (native_file (wlit "OPENXR-LOADER-LICENSE.txt")) = present_ (openxrLicense s);
  here_config : here (native_file (wlit "edvr_openxr.ini")) = present_ (nativeConfig s);
  here_ini : here (game_file kIni) = iniPresent s;
  here_chain n : In n chainNames ->
    here (game_file n) = match isThere (siblingNamed (otherD3d11 s) n) with Some _ => true | None => false end }.

(** A file that is not part of the installer's own record. *)
Definition foreign (path : wstr) : Prop :=
  here path = true /\ path <> statePath (dir (game s)) /\ path <> baseIniPath (dir (game s)).
Context (survey : SurveyOf).

Lemma chainName_known d : In (chainNameFor d) chainNames.
Proof. unfold chainNameFor, chainNames. repeat case_match; simpl; tauto. Qed.

Lemma absent_free path d : here path = present_ d -> isKind (dll_kind d) Absent = true -> ~ foreign path.
Proof. unfold present_, foreign. intros -> ->. by intros [? _]. Qed.

Lemma kept_after_park b : foreign (game_file (chainNameFor (d3d11 s))) ->
  kept_in (game_file (chainNameFor (d3d11 s)))
    (parkedCopy s o (chainNameFor (d3d11 s)) (game_file (chainNameFor (d3d11 s))) (modNameOf (d3d11 s))
       (if wempty (modNameOf (d3d11 s)) then lit "That mod" else say (modNameOf (d3d11 s))) b).
Proof.
  intros [Hh _]. rewrite (here_chain survey) in Hh by apply chainName_known. unfold parkedCopy.
  destruct (isThere _); [|done]. case_match; [apply kept_backup|]. unfold kept_in. rewrite body_problem. apply kept_backup.
Qed.

Lemma kept_quiet path b b' : kept_in path b -> body b' = body b -> kept_in path b'.
Proof. unfold kept_in. by intros ? ->. Qed.

Lemma kept_step path b b' st : kept_in path b -> body b' = body b ++ [st] -> kept_in path b'.
Proof. unfold kept_in. intros H ->. apply Exists_app. by left. Qed.

Lemma cov_park leaf path name said b : covB foreign b -> covB foreign (parkedCopy s o leaf path name said b).
Proof. intros Hb. unfold parkedCopy. plan_quiet; auto. Qed.

Lemma cov_write_absent d it path w b : here path = present_ d -> isKind (dll_kind d) Absent = true ->
  covB foreign b -> covB foreign (writePayload it path w b).
Proof. intros Hh Ha Hb. apply cov_payload; [done|]. intros Hf. by destruct (absent_free _ _ Hh Ha). Qed.

Lemma cov_takeSlot b : covB foreign b -> covB foreign (takeSlot s o p b).
Proof.
  intros Hb. unfold takeSlot, previousChain. cbv zeta. plan_quiet.
  all: apply cov_payload; [|intros _; apply kept_rename].
  all: apply cov_rename; [apply cov_backup, cov_park, Hb|].
  all: intros Hf; eapply kept_step; [by apply kept_after_park | reflexivity].
Qed.

Lemma cov_planD3d11 b : covB foreign b -> covB foreign (planD3d11 s o p b).
Proof.
  intros Hb. unfold planD3d11. cbv zeta. plan_quiet; auto using cov_takeSlot.
  - eapply cov_write_absent; [apply (here_d3d11 survey) | by rewrite Heqd | done].
  - apply cov_payload; [by apply cov_backup | intros _; apply kept_backup].
Qed.

Lemma cov_planChain b : covB foreign b -> covB foreign (planChain s b).
Proof. intros Hb. unfold planChain. cbv zeta. plan_quiet; auto. Qed.

Lemma cov_planNgx b : covB foreign b -> covB foreign (planNgx s o p b).
Proof.
  intros Hb. unfold planNgx. cbv zeta. plan_quiet; auto.
  apply cov_payload; [by plan_quiet|]. intros Hf. case_match; [apply kept_backup|].
  destruct Hf as [Hh _]. change (joinPath _ _) with (game_file kNgx) in Hh. rewrite (here_ngx survey) in Hh.
  unfold present_ in Hh. bool_solve; congruence.
Qed.

Lemma cov_planOpenvr b : covB foreign b -> covB foreign (planOpenvr s o p b).
Proof.
  intros Hb. unfold planOpenvr. cbv zeta. plan_quiet; auto.
  destruct (isKind (dll_kind (openvrCurrent s)) Absent) eqn:Ha.
  { eapply cov_write_absent; [apply (here_openvr survey) | done | done]. }
  apply cov_payload; [|intros _; case_match; [eapply kept_quiet; [apply kept_rename | reflexivity] | apply kept_exact]].
  plan_quiet; auto. apply cov_rename; [plan_quiet; by auto|]. intros Hf.
  destruct (isKind (dll_kind (openvrOrig s)) OpenVrRuntime) eqn:Ho.
  - eapply kept_quiet; [apply kept_exact | reflexivity].
  - destruct Hf as [Hh _]. change (joinPath _ _) with (native_file (originalName s)) in Hh.
    rewrite (here_orig survey) in Hh. unfold present_ in Hh. bool_solve; congruence.
Qed.

Lemma cov_asset d name it wanted b : here (native_file name) = present_ d -> covB foreign b ->
  covB foreign (nativeAsset s o d name it wanted b).
Proof.
  intros Hh Hb. unfold nativeAsset. cbv zeta. plan_quiet; auto.
  destruct (isKind (dll_kind d) Absent) eqn:Ha; simpl.
  - by eapply cov_write_absent.
  - apply cov_payload; [by apply cov_exact | intros _; apply kept_exact].
Qed.

Lemma cov_text_absent_or_kept t path w b b' (there : bool) : here path = there -> covB foreign b -> covB foreign b' ->
  kept_in path b' -> covB foreign (writeText t path w (if there then b' else b)).
Proof.
  intros Hh Hb Hb' Hk. destruct there; apply cov_text; auto. by intros [? _]; congruence.
Qed.

Lemma cov_planAssets b : covB foreign b -> covB foreign (planAssets sha256Bytes s o p b).
Proof.
  intros Hb. unfold planAssets. cbv zeta.
  assert (covB foreign (nativeAsset s o (openxrLicense s) (wlit "OPENXR-LOADER-LICENSE.txt") (lit "openxr_license") (p_openxrLicenseSha p)
    (nativeAsset s o (openxrLoader s) (wlit "openxr_loader.dll") (lit "openxr_loader") (p_openxrLoaderSha p) b))) as Ha.
  { apply cov_asset; [apply (here_license survey)|]. by apply cov_asset; [apply (here_loader survey)|]. }
  plan_quiet; [|done]. eapply cov_body; [|reflexivity].
  apply cov_text_absent_or_kept; [apply (here_config survey) | by plan_quiet.. | apply kept_exact].
Qed.

Lemma cov_beforeIni same r b : covB foreign b -> covB foreign (beforeIni s o same r b).
Proof. intros Hb. unfold beforeIni. cbv zeta. by plan_quiet; auto; apply cov_backup. Qed.

Lemma kept_beforeIni r b : foreign (game_file kIni) -> kept_in (game_file kIni) (beforeIni s o false r b).
Proof.
  intros [Hh _]. rewrite (here_ini survey) in Hh. unfold beforeIni. rewrite Hh. cbv zeta. simpl.
  case_match; [eapply kept_quiet; [apply kept_backup | reflexivity]|].
  case_match; (eapply kept_quiet; [apply kept_backup | reflexivity]).
Qed.

Lemma cov_planIni b : covB foreign b -> covB foreign (planIni sha256Bytes s o p b).
Proof.
  intros Hb. unfold planIni. cbv zeta. destruct (sempty (p_iniText p)); [by plan_quiet|].
  destruct (mergedIni s o p b) as [merged r]. assert (covB foreign (b <| b_merge := r |>)) as Hb' by (by eapply cov_body).
  plan_quiet; [|by apply cov_beforeIni]. eapply cov_body; [|reflexivity].
  apply cov_text; [by apply cov_beforeIni|]. apply negb_true_iff in Heqb0. rewrite Heqb0. apply kept_beforeIni.
Qed.

Lemma cov_install : covB foreign (buildInstall sha256Bytes s o p).
Proof. apply cov_planIni, cov_planAssets, cov_planOpenvr, cov_planNgx, cov_planChain, cov_planD3d11, covered_nil. Qed.

(** Directories in front of a covered list, and the record behind it. *)
Lemma covered_dirs l ds : covered foreign l -> Forall (fun st => action st = MakeDir) ds -> covered foreign (ds ++ l).
Proof.
  intros Hl Hd. apply covered_app.
  - intros pre st post path -> Ho _. apply Forall_app in Hd as [_ Hd]. apply Forall_cons in Hd as [Hd _].
    unfold overwrites in Ho. by rewrite Hd in Ho.
  - intros pre st post path E Ho Hocc. apply Exists_app. right. by eapply Hl.
Qed.

Lemma covered_record l n : covered foreign l -> covered foreign (l ++ recordSteps s p n).
Proof.
  intros Hl. unfold recordSteps.
  change [?a; ?b; ?c] with ([a] ++ [b] ++ [c]).
  rewrite !app_assoc. repeat apply covered_free; try done; intros path [= <-]; by intros (_ & ? & ?).
Qed.

Lemma steps_assemble b : changed b = true \/ repair o = true ->
  steps (assemble s o p b) = (if wantBackupDir b then [makeDirStep (bdir s o) (lit "keeps a copy of everything replaced")] else []) ++
    [makeDirStep (nativeDirOf s) (lit "holds the native OpenXR runtime and loader")] ++ body b ++ recordSteps s p (next b).
Proof. intros H. unfold assemble. cbv zeta. destruct H as [-> | ->]; rewrite ?andb_false_r; done. Qed.

Lemma steps_nothing b : changed b = false -> repair o = false -> steps (assemble s o p b) = [].
Proof. intros H1 H2. unfold assemble. rewrite H1, H2. done. Qed.

Lemma covered_assemble b : covB foreign b -> covered foreign (steps (assemble s o p b)).
Proof.
  intros Hb. destruct (changed b) eqn:Hc, (repair o) eqn:Hr.
  4: { rewrite steps_nothing by done. apply covered_nil. }
  all: rewrite steps_assemble by auto; apply covered_dirs; [|by case_match; repeat constructor].
  all: apply (covered_dirs _ [_]); [|by repeat constructor]; by apply covered_record.
Qed.
End Faithful.

(** ** A folder that is already as the installer would leave it *)
Section Settled.
Context {utf8 : Utf8} (sha256Bytes : str -> str).
Variables (s : Survey) (o : Options) (p : PayloadInfo).

(** The value the chain forces into the settings when the mod chained to is gone. *)
Definition chainForced : list (str * str) :=
  if negb (wempty (chainTarget (state s))) &&
     match isThere (siblingNamed (otherD3d11 s) (chainTarget (state s))) with Some _ => false | None => true end
  then [(lit "advanced.real_dll", [])] else [].

(** The settings the installer would write over [s_iniText]. *)
Definition wantedIni : str * MergeReport :=
  if negb (iniPresent s) || negb (keepSettings o) then mergeIni (p_iniText p) [] None chainForced report0
  else mergeIni (p_iniText p) (s_iniText s) (if sempty (baseIniText s) then None else Some (baseIniText s)) chainForced report0.

Record Settled : Prop := {
  set_d3d11 : dll_kind (d3d11 s) = Edvr /\ sha256 (d3d11 s) = p_d3d11Sha p;
  set_openvr : dll_kind (openvrCurrent s) = Edvr /\ sha256 (openvrCurrent s) = p_openvrSha p;
  set_loader : dll_kind (openxrLoader s) <> Absent /\ sha256 (openxrLoader s) = p_openxrLoaderSha p;
  set_license : dll_kind (openxrLicense s) <> Absent /\ sha256 (openxrLicense s) = p_openxrLicenseSha p;
  set_config : sha256 (nativeConfig s) = sha256Bytes (nativeConfigText s);
  (** This build's DLSS runtime, or one that is not the copy the installer placed. *)
  set_ngx : haveNgx p = true -> nvidiaAdapter s = true -> dll_kind (ngx s) <> Absent /\
    (dll_kind (ngx s) = Unreadable \/ sha256 (ngx s) = p_ngxSha p \/
     ~ (ngxInstalled (state s) = true /\ ngxSha (state s) <> [] /\ sha256 (ngx s) = ngxSha (state s)));
  set_ini : wantedIni.1 = s_iniText s;
  set_repair : repair o = false }.

(** Nothing added that changes the folder. *)
Definition idle (b b' : Build) : Prop := changed b' = changed b.

Lemma kind_true d k : dll_kind d = k -> isKind (dll_kind d) k = true.
Proof. unfold isKind. by rewrite bool_decide_eq_true. Qed.
Lemma kind_false d k : dll_kind d <> k -> isKind (dll_kind d) k = false.
Proof. unfold isKind. by rewrite bool_decide_eq_false. Qed.
Lemma isKind_spec d k : isKind (dll_kind d) k = true <-> dll_kind d = k.
Proof. unfold isKind. apply bool_decide_eq_true. Qed.

(** [changed] is never taken back. *)
Ltac by_cases := cbv zeta; simpl in *; try done; repeat (case_match; simpl in *; try done).
Lemma changed_previous leaf said b : changed (previousChain s leaf said b) = changed b.
Proof. unfold previousChain. by_cases. Qed.
Lemma changed_takeSlot b : changed (takeSlot s o p b) = true.
Proof. unfold takeSlot. cbv zeta. destruct (is64 _), (d3d11Installed _); cbn -[previousChain]; by rewrite changed_previous. Qed.
Lemma mono_d3d11 b : changed b = true -> changed (planD3d11 s o p b) = true.
Proof.
  intros H. unfold planD3d11. destruct (haveD3d11 p); [|done]. cbn [negb].
  destruct (dll_kind (d3d11 s)); try apply changed_takeSlot; by_cases.
Qed.
Lemma mono_ngx b : changed b = true -> changed (planNgx s o p b) = true.
Proof. intros H. unfold planNgx. by_cases. Qed.
Lemma mono_openvr b : changed b = true -> changed (planOpenvr s o p b) = true.
Proof. intros H. unfold planOpenvr. by_cases. Qed.
Lemma mono_asset d n it w b : changed b = true -> changed (nativeAsset s o d n it w b) = true.
Proof. intros H. unfold nativeAsset. by_cases. Qed.
Lemma changed_chain b : changed (planChain s b) = changed b.
Proof. unfold planChain. by_cases. Qed.

Context (package : refusal s p = None).

Lemma package_whole : haveD3d11 p = true /\ sempty (p_iniText p) = false /\ dll_kind (d3d11 s) <> Unreadable.
Proof.
  unfold refusal in package. repeat case_match; try done. bool_solve.
  repeat match goal with H : negb _ = false |- _ => apply negb_false_iff in H end.
  match goal with H : existsb _ _ = false |- _ => apply not_true_iff_false in H end.
  split_and!; try done. intros Hu.
  match goal with H : ~ existsb _ _ = true |- _ => apply H end. simpl. by rewrite (proj2 (isKind_spec _ _) Hu).
Qed.

Context (no_repair : repair o = false).

Lemma idle_d3d11 b : changed b = false ->
  (changed (planD3d11 s o p b) = false <-> dll_kind (d3d11 s) = Edvr /\ sha256 (d3d11 s) = p_d3d11Sha p).
Proof.
  intros Hb. destruct package_whole as (Hp & _ & Hu). unfold planD3d11.
  rewrite Hp, no_repair. cbn [negb]. rewrite andb_true_r.
  destruct (dll_kind (d3d11 s)); try done; try (rewrite changed_takeSlot; by split; [|intros []]); try (by split; [|intros []]).
  cbv zeta. case_bool_decide; simpl; naive_solver.
Qed.

Lemma idle_d3d11_next b : dll_kind (d3d11 s) = Edvr -> forced (planD3d11 s o p b) = forced b /\
  chainTarget (next (planD3d11 s o p b)) = chainTarget (next b) /\ b_merge (planD3d11 s o p b) = b_merge b.
Proof. intros Hk. unfold planD3d11. rewrite Hk. by_cases. Qed.

Lemma chain_next b : chainTarget (next b) = [] ->
  forced (planChain s b) = forced b ++ chainForced /\ b_merge (planChain s b) = b_merge b.
Proof.
  intros Hc. unfold planChain, chainForced. rewrite Hc. simpl. destruct (wempty (chainTarget (state s))); simpl.
  - by rewrite app_nil_r.
  - destruct (isThere _); simpl; by rewrite ?app_nil_r.
Qed.

Lemma idle_ngx b : changed b = false ->
  (changed (planNgx s o p b) = false <-> (haveNgx p = true -> nvidiaAdapter s = true -> dll_kind (ngx s) <> Absent /\
    (dll_kind (ngx s) = Unreadable \/ sha256 (ngx s) = p_ngxSha p \/
     ~ (ngxInstalled (state s) = true /\ ngxSha (state s) <> [] /\ sha256 (ngx s) = ngxSha (state s))))).
Proof.
  intros Hb. unfold planNgx. rewrite no_repair. cbv zeta. destruct (haveNgx p); [|case_match; naive_solver].
  destruct (nvidiaAdapter s); [|by by_cases]. unfold isKind, sempty.
  destruct (decide (dll_kind (ngx s) = Unreadable)) as [E|E].
  { rewrite E. simpl. split; [intros _ _ _|done]. split; [done | by left]. }
  rewrite (bool_decide_false _ E). destruct (decide (dll_kind (ngx s) = Absent)) as [A|A].
  { rewrite A. simpl. naive_solver. }
  rewrite (bool_decide_false _ A). simpl.
  destruct (decide (sha256 (ngx s) = p_ngxSha p)) as [P|P]; [rewrite (bool_decide_true _ P); naive_solver|].
  rewrite (bool_decide_false _ P). simpl. destruct (ngxInstalled (state s)); [|naive_solver]. simpl.
  destruct (decide (ngxSha (state s) = [])) as [N|N]; [rewrite (bool_decide_true _ N); naive_solver|].
  rewrite (bool_decide_false _ N). simpl.
  destruct (decide (sha256 (ngx s) = ngxSha (state s))) as [M|M];
    [rewrite (bool_decide_true _ M) | rewrite (bool_decide_false _ M)]; simpl; naive_solver.
Qed.

Lemma ngx_next b : forced (planNgx s o p b) = forced b /\ b_merge (planNgx s o p b) = b_merge b.
Proof. unfold planNgx. by_cases. Qed.

Lemma idle_openvr b : changed b = false ->
  (changed (planOpenvr s o p b) = false <-> dll_kind (openvrCurrent s) = Edvr /\ sha256 (openvrCurrent s) = p_openvrSha p).
Proof.
  intros Hb. unfold planOpenvr. rewrite no_repair. cbv zeta. rewrite andb_true_r. rewrite <- isKind_spec.
  destruct (isKind (dll_kind (openvrCurrent s)) Edvr) eqn:E; simpl.
  - case_bool_decide; simpl; [naive_solver|]. split; [|naive_solver]. intros. by_cases.
  - split; [|naive_solver]. intros. by_cases.
Qed.

Lemma openvr_next b : forced (planOpenvr s o p b) = forced b /\ b_merge (planOpenvr s o p b) = b_merge b.
Proof. unfold planOpenvr. by_cases. Qed.

Lemma idle_asset d n it w b : changed b = false ->
  (changed (nativeAsset s o d n it w b) = false <-> dll_kind d <> Absent /\ sha256 d = w).
Proof.
  intros Hb. unfold nativeAsset. rewrite no_repair. cbv zeta. rewrite andb_true_r.
  assert (isKind (dll_kind d) Absent = false <-> dll_kind d <> Absent) as <-.
  { rewrite <- isKind_spec, not_true_iff_false. done. }
  destruct (isKind (dll_kind d) Absent) eqn:E; simpl; [naive_solver|]. case_bool_decide; simpl; naive_solver.
Qed.

Lemma asset_next d n it w b : forced (nativeAsset s o d n it w b) = forced b /\ b_merge (nativeAsset s o d n it w b) = b_merge b.
Proof. unfold nativeAsset. by_cases. Qed.

Lemma idle_assets b : changed b = false ->
  (changed (planAssets sha256Bytes s o p b) = false <->
    (dll_kind (openxrLoader s) <> Absent /\ sha256 (openxrLoader s) = p_openxrLoaderSha p) /\
    (dll_kind (openxrLicense s) <> Absent /\ sha256 (openxrLicense s) = p_openxrLicenseSha p) /\
    sha256 (nativeConfig s) = sha256Bytes (nativeConfigText s)).
Proof.
  intros Hb. unfold planAssets. cbv zeta. rewrite no_repair, orb_false_r.
  set (b1 := nativeAsset s o (openxrLoader s) _ _ _ b). set (b2 := nativeAsset s o (openxrLicense s) _ _ _ b1).
  pose proof (idle_asset (openxrLoader s) (wlit "openxr_loader.dll") (lit "openxr_loader") (p_openxrLoaderSha p) b Hb) as H1.
  fold b1 in H1. case_bool_decide as Hc; cbn [negb]; [|split; [done | by intros (_ & _ & ?)]].
  change (changed b2 = false <-> (dll_kind (openxrLoader s) <> Absent /\ sha256 (openxrLoader s) = p_openxrLoaderSha p) /\
    (dll_kind (openxrLicense s) <> Absent /\ sha256 (openxrLicense s) = p_openxrLicenseSha p) /\
    sha256 (nativeConfig s) = sha256Bytes (nativeConfigText s)).
  rewrite <- H1. destruct (changed b1) eqn:E1.
  - rewrite (mono_asset (openxrLicense s) _ _ _ b1 E1 : changed b2 = true). by split; [|intros []].
  - rewrite (idle_asset (openxrLicense s) _ _ (p_openxrLicenseSha p) b1 E1 : changed b2 = false <-> _). tauto.
Qed.

Lemma assets_next b : forced (planAssets sha256Bytes s o p b) = forced b /\ b_merge (planAssets sha256Bytes s o p b) = b_merge b.
Proof.
  unfold planAssets. cbv zeta. set (b1 := nativeAsset s o (openxrLoader s) _ _ _ b).
  destruct (asset_next (openxrLoader s) (wlit "openxr_loader.dll") (lit "openxr_loader") (p_openxrLoaderSha p) b) as [F1 M1].
  destruct (asset_next (openxrLicense s) (wlit "OPENXR-LOADER-LICENSE.txt") (lit "openxr_license") (p_openxrLicenseSha p) b1) as [F2 M2].
  fold b1 in F1, M1. repeat case_match; simpl; by rewrite F2, M2, F1, M1.
Qed.

Lemma idle_ini b : changed b = false -> forced b = chainForced -> b_merge b = report0 ->
  (changed (planIni sha256Bytes s o p b) = false <-> wantedIni.1 = s_iniText s).
Proof.
  intros Hb Hf Hm. destruct package_whole as (_ & Hi & _). unfold planIni, wantedIni, mergedIni. rewrite Hi, Hf, Hm.
  assert (forall same r b0, changed b0 = false -> changed (beforeIni s o same r b0) = false) as Hbefore.
  { intros same r b0 H0. unfold beforeIni. by_cases. }
  destruct (if negb (iniPresent s) || negb (keepSettings o) then _ else _) as [merged r]. cbn [fst].
  case_bool_decide; cbn [negb]; split; try done. intros _. by apply Hbefore.
Qed.

Lemma mono_assets b : changed b = true -> changed (planAssets sha256Bytes s o p b) = true.
Proof.
  intros H. unfold planAssets. cbv zeta. case_match; [done|].
  by apply (mono_asset (openxrLicense s)), (mono_asset (openxrLoader s)).
Qed.
Lemma mono_ini b : changed b = true -> changed (planIni sha256Bytes s o p b) = true.
Proof.
  intros H. unfold planIni. case_match; [done|]. destruct (mergedIni s o p b) as [merged r].
  case_bool_decide; cbn [negb]; [|done]. unfold beforeIni. by_cases.
Qed.

Lemma mono_false (f : Build -> Build) b : (changed b = true -> changed (f b) = true) -> changed (f b) = false -> changed b = false.
Proof. intros Hm H. apply not_true_iff_false. intros Hb. by rewrite Hm in H. Qed.

Lemma settled_iff : changed (buildInstall sha256Bytes s o p) = false <-> Settled.
Proof.
  unfold buildInstall. set (b0 := firstBuild s o p). set (b1 := planD3d11 s o p b0). set (b2 := planChain s b1).
  set (b3 := planNgx s o p b2). set (b4 := planOpenvr s o p b3). set (b5 := planAssets sha256Bytes s o p b4).
  assert (changed b0 = false) as C0 by done.
  destruct (ngx_next b2) as [F3 M3], (openvr_next b3) as [F4 M4], (assets_next b4) as [F5 M5].
  fold b3 in F3, M3. fold b4 in F4, M4. fold b5 in F5, M5.
  assert (dll_kind (d3d11 s) = Edvr -> forced b5 = chainForced /\ b_merge b5 = report0) as Hini.
  { intros Hk. destruct (idle_d3d11_next b0 Hk) as (F1 & T1 & M1). fold b1 in F1, T1, M1.
    destruct (chain_next b1) as [F2 M2]; [by rewrite T1|]. fold b2 in F2, M2.
    by rewrite F5, F4, F3, F2, F1, M5, M4, M3, M2, M1. }
  split.
  - intros C6. pose proof (mono_false _ _ (mono_ini b5) C6) as C5. pose proof (mono_false _ _ (mono_assets b4) C5) as C4.
    pose proof (mono_false _ _ (mono_openvr b3) C4) as C3. pose proof (mono_false _ _ (mono_ngx b2) C3) as C2.
    assert (changed b1 = false) as C1 by (by rewrite <- (changed_chain b1)).
    destruct (proj1 (idle_d3d11 b0 C0) C1) as [Hk Hs]. destruct (Hini Hk) as [HF HM].
    destruct (proj1 (idle_assets b4 C4) C5) as (? & ? & ?). split; try done.
    + by apply (idle_openvr b3 C3).
    + by apply (idle_ngx b2 C2).
    + by apply (idle_ini b5).
  - intros [[Hk Hs] Hv Hl Hli Hc Hn Hi _]. destruct (Hini Hk) as [HF HM].
    assert (changed b1 = false) as C1 by (by apply (idle_d3d11 b0 C0)).
    assert (changed b2 = false) as C2 by (unfold b2; by rewrite changed_chain).
    assert (changed b3 = false) as C3 by (by apply (idle_ngx b2 C2)).
    assert (changed b4 = false) as C4 by (by apply (idle_openvr b3 C3)).
    assert (changed b5 = false) as C5 by (by apply (idle_assets b4 C4)).
    by apply (idle_ini b5).
Qed.
End Settled.

(** ** What the record says after an install *)
Section Recorded.
Context {utf8 : Utf8} (sha256Bytes : str -> str).
Variables (s : Survey) (o : Options) (p : PayloadInfo).

(** What the record must say about this build's files. *)
Definition describes (n : InstallState) : Prop :=
  st_present n = true /\ edvrVersion n = version p /\ installedUtc n = nowUtc o /\ nativeInstalled n = true.
Definition describes_d3d11 (n : InstallState) : Prop := d3d11Installed n = true /\ d3d11Sha n = p_d3d11Sha p.
Definition describes_native (n : InstallState) : Prop :=
  openvrInstalled n = true /\ openvrSha n = p_openvrSha p /\ nativeGraphicsSha n = p_d3d11Sha p /\
  nativeRuntimeSha n = p_openvrSha p /\ openvrOrigName n = originalName s /\
  nativeOriginalName n = openvrOrigName n /\ nativeOriginalSha n = openvrOrigSha n.
Definition describes_assets (n : InstallState) : Prop :=
  openxrLoaderSha n = p_openxrLoaderSha p /\ openxrLicenseSha n = p_openxrLicenseSha p /\
  nativeConfigSha n = sha256Bytes (nativeConfigText s).

(** A phase that leaves a fact about the record alone. *)
Ltac by_next := unfold describes, describes_d3d11, describes_native in *; cbv zeta;
  repeat (case_match; cbn -[lit]; try done); cbn -[lit originalName]; destruct_and?; split_and?; done.

Lemma next_previous leaf said b : next (previousChain s leaf said b) = next b.
Proof. unfold previousChain. by_next. Qed.
Lemma next_parked l pth m said b : next (parkedCopy s o l pth m said b) = next b.
Proof. unfold parkedCopy. by_next. Qed.
Lemma next_asset d n it w b : next (nativeAsset s o d n it w b) = next b.
Proof. unfold nativeAsset. by_next. Qed.

Lemma takeSlot_next b : describes (next b) -> describes (next (takeSlot s o p b)) /\ describes_d3d11 (next (takeSlot s o p b)).
Proof.
  unfold takeSlot. cbv zeta. destruct (is64 _), (d3d11Installed (state s)); cbn -[lit previousChain parkedCopy describes describes_d3d11];
    rewrite next_previous; cbn -[lit parkedCopy describes describes_d3d11]; rewrite next_parked; done.
Qed.

Lemma d3d11_next b : haveD3d11 p = true -> dll_kind (d3d11 s) <> Unreadable -> describes (next b) ->
  describes (next (planD3d11 s o p b)) /\ describes_d3d11 (next (planD3d11 s o p b)).
Proof.
  intros Hp Hu Hb. unfold planD3d11. rewrite Hp. cbn [negb].
  destruct (dll_kind (d3d11 s)); try done; try by apply takeSlot_next. by_next.
Qed.

Lemma chain_facts b : describes (next b) /\ describes_d3d11 (next b) ->
  describes (next (planChain s b)) /\ describes_d3d11 (next (planChain s b)).
Proof. intros Hb. unfold planChain. by_next. Qed.
Lemma ngx_facts b : describes (next b) /\ describes_d3d11 (next b) ->
  describes (next (planNgx s o p b)) /\ describes_d3d11 (next (planNgx s o p b)).
Proof. intros Hb. unfold planNgx. by_next. Qed.
Lemma openvr_facts b : describes (next b) /\ describes_d3d11 (next b) ->
  describes (next (planOpenvr s o p b)) /\ describes_d3d11 (next (planOpenvr s o p b)) /\ describes_native (next (planOpenvr s o p b)).
Proof. intros Hb. unfold planOpenvr. by_next. Qed.
Definition described (n : InstallState) : Prop := describes n /\ describes_d3d11 n /\ describes_native n /\ describes_assets n.
Lemma assets_facts b : describes (next b) /\ describes_d3d11 (next b) /\ describes_native (next b) ->
  described (next (planAssets sha256Bytes s o p b)).
Proof.
  intros Hb. unfold described, describes_assets, planAssets. cbv zeta.
  assert (forall b0 x y z, next b0 = next b -> let n := (next b0) <| openxrLoaderSha := x |> <| openxrLicenseSha := y |> <| nativeConfigSha := z |> in
    describes n /\ describes_d3d11 n /\ describes_native n) as Hn.
  { intros b0 x y z E. cbv zeta. rewrite E. exact Hb. }
  set (b2 := nativeAsset s o (openxrLicense s) _ _ _ _).
  assert (next b2 = next b) as E2 by (unfold b2; by rewrite !next_asset).
  destruct (Hn b2 (p_openxrLoaderSha p) (p_openxrLicenseSha p) (sha256Bytes (nativeConfigText s)) E2) as (H1 & H2 & H3).
  destruct (negb (bool_decide _) || repair o), (negb (isKind (dll_kind (nativeConfig s)) Absent));
    (split; [exact H1|split; [exact H2|split; [exact H3|done]]]).
Qed.
Lemma ini_facts b : described (next b) -> described (next (planIni sha256Bytes s o p b)).
Proof.
  intros Hb. unfold planIni. case_match; [done|]. destruct (mergedIni s o p b) as [merged r].
  assert (forall same r b0, next (beforeIni s o same r b0) = next b0) as Hbefore by (intros; unfold beforeIni; by_next).
  cbn -[lit mergedIni described beforeIni]. case_match; cbn -[lit described beforeIni]; rewrite Hbefore; exact Hb.
Qed.

Lemma install_facts : refusal s p = None -> described (next (buildInstall sha256Bytes s o p)).
Proof.
  intros Hr. destruct (package_whole s p Hr) as (Hp & _ & Hu).
  apply ini_facts, assets_facts, openvr_facts, ngx_facts, chain_facts, d3d11_next; done.
Qed.

(** *** The chain to the other mod *)
Definition slotTaken : Prop := dll_kind (d3d11 s) <> Absent /\ dll_kind (d3d11 s) <> Unreadable /\ dll_kind (d3d11 s) <> Edvr.
Lemma chainTarget_takeSlot b : chainTarget (next (takeSlot s o p b)) = chainNameFor (d3d11 s).
Proof.
  unfold takeSlot. cbv zeta. destruct (is64 _), (d3d11Installed (state s)); cbn -[lit previousChain parkedCopy chainNameFor];
    by rewrite next_previous.
Qed.
Lemma chainTarget_chain b : chainTarget (next b) <> [] -> chainTarget (next (planChain s b)) = chainTarget (next b).
Proof. intros H. unfold planChain, wempty. by rewrite (bool_decide_false _ H). Qed.
Lemma chainTarget_ngx b : chainTarget (next (planNgx s o p b)) = chainTarget (next b).
Proof. unfold planNgx. cbv zeta. repeat (case_match; cbn -[lit]; try done). Qed.
Lemma chainTarget_openvr b : chainTarget (next (planOpenvr s o p b)) = chainTarget (next b).
Proof. unfold planOpenvr. cbv zeta. repeat (case_match; cbn -[lit]; try done). Qed.
Lemma chainTarget_assets b : chainTarget (next (planAssets sha256Bytes s o p b)) = chainTarget (next b).
Proof.
  unfold planAssets. cbv zeta. set (b2 := nativeAsset s o (openxrLicense s) _ _ _ _).
  assert (next b2 = next b) as E2 by (unfold b2; by rewrite !next_asset). rewrite <- E2.
  destruct (negb (bool_decide _) || repair o), (negb (isKind (dll_kind (nativeConfig s)) Absent)); done.
Qed.
Lemma chainTarget_ini b : chainTarget (next (planIni sha256Bytes s o p b)) = chainTarget (next b).
Proof.
  unfold planIni. case_match; [done|]. destruct (mergedIni s o p b) as [merged r].
  assert (forall same r b0, next (beforeIni s o same r b0) = next b0) as Hbefore.
  { intros. unfold beforeIni. cbv zeta. repeat (case_match; cbn -[lit]; try done). }
  cbn -[lit beforeIni]. case_match; cbn -[lit beforeIni]; by rewrite Hbefore.
Qed.

Lemma chainNameFor_ne d : chainNameFor d <> [].
Proof. unfold chainNameFor. repeat case_match; done. Qed.

Lemma install_chain : haveD3d11 p = true -> slotTaken ->
  chainTarget (next (buildInstall sha256Bytes s o p)) = chainNameFor (d3d11 s).
Proof.
  intros Hp (H1 & H2 & H3). unfold buildInstall.
  rewrite chainTarget_ini, chainTarget_assets, chainTarget_openvr, chainTarget_ngx.
  assert (planD3d11 s o p (firstBuild s o p) = takeSlot s o p (firstBuild s o p)) as ->.
  { unfold planD3d11. rewrite Hp. cbn [negb]. by destruct (dll_kind (d3d11 s)). }
  by rewrite chainTarget_chain, chainTarget_takeSlot; [|rewrite chainTarget_takeSlot; apply chainNameFor_ne].
Qed.

(** The name the installer gives a mod is one the uninstaller accepts. *)
Lemma chainNameFor_safe d : safeSiblingName (chainNameFor d) kD3d11 = chainNameFor d.
Proof.
  assert (forall n, In n chainNames -> safeSiblingName n kD3d11 = n) as H; [|apply H, chainName_known].
  intros n Hn. repeat destruct Hn as [<-|Hn]; try (vm_compute; reflexivity). destruct Hn.
Qed.
End Recorded.


(** ** Uninstalling: what is removed and what is put back *)
Section Removing.
Context {utf8 : Utf8} (s : Survey) (o : Options) (recordThere baseThere : bool).

(** Everything the installer may delete: its own libraries, the files whose hash
    it recorded when it placed them, and, on request, the settings. *)
Definition ownFile (st : Step) : Prop :=
  (exists d, In d [d3d11 s; openvrCurrent s] /\ dll_kind d = Edvr /\ expectSha st = sha256 d) \/
  (exists d owned, In (d, owned) [(openxrLoader s, openxrLoaderSha (state s)); (openxrLicense s, openxrLicenseSha (state s));
       (nativeConfig s, nativeConfigSha (state s)); (ngx s, ngxSha (state s))] /\
     dll_kind d <> Absent /\ sha256 d = owned /\ owned <> [] /\ expectSha st = owned) \/
  (from st = joinPath (dir (game s)) kIni /\ removeSettings o = true) \/
  (from st = statePath (dir (game s)) \/ from st = baseIniPath (dir (game s))).

(** Every deletion of the list is of such a file. *)
Definition ownOnly (l : list Step) : Prop := Forall (fun st => action st = Delete -> ownFile st) l.

Definition ownB (b : Build) : Prop := ownOnly (body b).
Lemma own_push st b : ownB b -> (action st = Delete -> ownFile st) -> ownB (push st b).
Proof. intros Hb Hst. apply Forall_app. split; [done|]. by constructor. Qed.
Lemma own_backup d path w b : ownB b -> ownB (backup d path w b).
Proof. intros Hb. by apply own_push. Qed.
Lemma own_rename a c w sha b : ownB b -> ownB (rename a c w sha b).
Proof. intros Hb. by apply (own_push (renameStep a c w sha)). Qed.
Lemma own_restore a c w b : ownB b -> ownB (restore a c w b).
Proof. intros Hb. by eapply (own_push _ b). Qed.
Lemma own_remove path w sha b : ownB b -> ownFile (removeStep path w sha) -> ownB (remove path w sha b).
Proof. intros Hb Ho. by apply (own_push (removeStep path w sha)). Qed.
Lemma own_quiet b b' : ownB b -> body b' = body b -> ownB b'.
Proof. unfold ownB. by intros H ->. Qed.

Ltac own_go :=
  repeat match goal with
  | |- ownB (note ?t ?b) => apply (own_quiet b (note t b)); [|reflexivity]
  | |- ownB (problem ?t ?b) => apply (own_quiet b (problem t b)); [|reflexivity]
  | |- ownB (if ?c then _ else _) => destruct c eqn:?
  | |- ownB (match ?c with _ => _ end) => destruct c eqn:?
  | |- ownB (backup _ _ _ _) => apply own_backup
  | |- ownB (rename _ _ _ _ _) => apply own_rename
  | |- ownB (restore _ _ _ _) => apply own_restore
  | |- ownB (remove _ _ _ _) => apply own_remove
  end; try done.

Lemma own_d3d11 b : ownB b -> ownB (removeD3d11 s o b).
Proof.
  intros Hb. unfold removeD3d11. cbv zeta. own_go.
  all: left; exists (d3d11 s); simpl; split; [by left | done].
Qed.
Lemma own_openvr b : ownB b -> ownB (removeOpenvr s o b).
Proof.
  intros Hb. unfold removeOpenvr. cbv zeta. own_go.
  left. exists (openvrCurrent s). split; [right; by left|]. split; [by apply isKind_spec | done].
Qed.
Lemma own_retire info owned b : In (info, owned) [(openxrLoader s, openxrLoaderSha (state s));
    (openxrLicense s, openxrLicenseSha (state s)); (nativeConfig s, nativeConfigSha (state s)); (ngx s, ngxSha (state s))] ->
  ownB b -> ownB (retire s o info owned b).
Proof.
  intros Hin Hb. unfold retire. cbv zeta. own_go. right; left. exists info, owned.
  unfold sempty in *. bool_solve. repeat match goal with H : negb _ = false |- _ => apply negb_false_iff in H end. bool_solve.
  split_and!; try done. intros Ha. apply isKind_spec in Ha. congruence.
Qed.
Lemma own_assets b : ownB b -> ownB (removeAssets s o b).
Proof.
  intros Hb. unfold removeAssets. cbv zeta. case_match; [|done].
  repeat (apply own_retire; [simpl; tauto|]). done.
Qed.
Lemma own_ngx b : ownB b -> ownB (removeNgx s b).
Proof.
  intros Hb. unfold removeNgx. cbv zeta. own_go. right; left. exists (ngx s), (ngxSha (state s)).
  unfold sempty in *. bool_solve. split; [simpl; tauto|]. split_and!; try done.
  intros Ha. apply isKind_spec in Ha. congruence.
Qed.
Lemma own_record b : ownB b -> ownB (removeRecord s o recordThere baseThere b).
Proof.
  intros Hb. unfold removeRecord. cbv zeta. own_go.
  all: right; right; first [by left | right; by left | right; by right].
Qed.

Lemma own_uninstall : ownB (buildUninstall s o recordThere baseThere).
Proof. apply own_record, own_ngx, own_assets, own_openvr, own_d3d11. constructor. Qed.
End Removing.

(** ** Where each file comes from after a plan has run

    [exec f l q]: the path whose file is at [q] once the steps [l] have run, [f]
    giving it before them; [None] when nothing or a written file is there. *)
Definition place (f : wstr -> option wstr) (q : wstr) (v : option wstr) : wstr -> option wstr :=
  fun x => if bool_decide (x = q) then v else f x.
Definition effect (f : wstr -> option wstr) (st : Step) : wstr -> option wstr :=
  match action st with
  | MakeDir => f
  | Backup => place f (to st) (f (from st))
  | Rename => place (place f (from st) None) (to st) (f (from st))
  | WritePayload | WriteText => place f (to st) None
  | Delete => place f (from st) None
  end.
Definition exec (f : wstr -> option wstr) (l : list Step) : wstr -> option wstr := foldl effect f l.

(** The paths a step changes. *)
Definition touched (st : Step) : list wstr :=
  match action st with
  | MakeDir => []
  | Backup | WritePayload | WriteText => [to st]
  | Rename => [from st; to st]
  | Delete => [from st]
  end.

Lemma place_ne f q v x : x <> q -> place f q v x = f x.
Proof. intros. unfold place. by rewrite bool_decide_false. Qed.
Lemma place_eq f q v : place f q v q = v.
Proof. unfold place. by rewrite bool_decide_true. Qed.

Lemma effect_untouched f st q : q ∉ touched st -> effect f st q = f q.
Proof.
  unfold effect, touched. intros Hq. destruct (action st); rewrite ?place_ne; set_solver.
Qed.

Section Restoring.
Context {utf8 : Utf8} (s : Survey) (o : Options) (recordThere baseThere : bool) (f : wstr -> option wstr).
Definition slotPath : wstr := joinPath (dir (game s)) kD3d11.
Definition dstPath : wstr := joinPath (openvrDir (game s)) kOpenvr.
Definition origFile : wstr := joinPath (openvrDir (game s)) (originalName s).
(** The files an uninstall may delete besides the two libraries. *)
Definition otherFiles : list wstr :=
  [dll_path (openxrLoader s); dll_path (openxrLicense s); dll_path (nativeConfig s);
   joinPath (dir (game s)) kNgx; joinPath (dir (game s)) kIni; statePath (dir (game s)); baseIniPath (dir (game s))].

Definition at_ (b : Build) (q : wstr) : option wstr := exec f (body b) q.
Lemma at_push st b q : at_ (push st b) q = effect (at_ b) st q.
Proof. unfold at_, exec, push. simpl. by rewrite foldl_app. Qed.
Lemma at_quiet b b' q : body b' = body b -> at_ b' q = at_ b q.
Proof. unfold at_. by intros ->. Qed.

Lemma at_backup d path w b q : q <> joinPath d (leafOf path) -> at_ (backup d path w b) q = at_ b q.
Proof. intros Hq. rewrite (at_quiet (push (backupStep d path w) b)) by done. rewrite at_push. by apply place_ne. Qed.
Lemma at_remove path w sha b q : q <> path -> at_ (remove path w sha b) q = at_ b q.
Proof. intros Hq. rewrite (at_quiet (push (removeStep path w sha) b)) by done. rewrite at_push. by apply place_ne. Qed.
Lemma at_rename a c w sha b q : q <> a -> q <> c -> at_ (rename a c w sha b) q = at_ b q.
Proof. intros. rewrite (at_quiet (push (renameStep a c w sha) b)) by done. rewrite at_push. cbn. by rewrite !place_ne. Qed.
Lemma at_rename_to a c w sha b : at_ (rename a c w sha b) c = at_ b a.
Proof. rewrite (at_quiet (push (renameStep a c w sha) b)) by done. rewrite at_push. cbn. by rewrite place_eq. Qed.
Lemma at_restore a c w b q : at_ (restore a c w b) q = if bool_decide (q = c) then at_ b a else at_ b q.
Proof.
  unfold restore. rewrite (at_quiet (push (step0 <| action := Backup |> <| from := a |> <| to := c |> <| why := w |> <| required := true |>) b)) by done.
  by rewrite at_push.
Qed.

Lemma at_note t b q : at_ (note t b) q = at_ b q.
Proof. done. Qed.
Lemma at_problem t b q : at_ (problem t b) q = at_ b q.
Proof. done. Qed.
Ltac at_step := repeat (rewrite at_note || rewrite at_problem).

Lemma untouched_retire info owned b q : q <> dll_path info -> (forall n, q <> joinPath (backupDirFor s o) n) ->
  at_ (retire s o info owned b) q = at_ b q.
Proof.
  intros Hq Hn. unfold retire. cbv zeta. do 2 (case_match; [done|]). by rewrite at_remove, at_backup.
Qed.

(** A path the record, the settings, NVIDIA's runtime and the dependencies are not at. *)
Definition apart (q : wstr) : Prop := (forall p, In p otherFiles -> q <> p) /\ (forall n, q <> joinPath (backupDirFor s o) n).

Lemma untouched_assets b q : apart q -> at_ (removeAssets s o b) q = at_ b q.
Proof.
  intros [Ho Hn]. unfold removeAssets. cbv zeta. case_match; [|done].
  rewrite !untouched_retire; try done; apply Ho; simpl; tauto.
Qed.
Lemma untouched_ngx b q : apart q -> at_ (removeNgx s b) q = at_ b q.
Proof.
  intros [Ho Hn]. unfold removeNgx. cbv zeta. case_match; [|by case_match]. at_step.
  apply at_remove, Ho. simpl; tauto.
Qed.
Lemma untouched_record b q : apart q -> at_ (removeRecord s o recordThere baseThere b) q = at_ b q.
Proof.
  intros [Ho Hn].
  assert (q <> joinPath (dir (game s)) kIni /\ q <> statePath (dir (game s)) /\ q <> baseIniPath (dir (game s))) as (Hi & Hs & Hb)
    by (split_and!; apply Ho; simpl; tauto).
  unfold removeRecord. cbv zeta. destruct baseThere, recordThere, (iniPresent s), (removeSettings o); at_step.
  all: repeat (rewrite at_remove by done); at_step; repeat (rewrite at_remove by done); rewrite ?at_backup by done; done.
Qed.

(** The mod an uninstall puts back, as [removeD3d11] finds it. *)
Definition chainOf : wstr :=
  let c := safeSiblingName (chainTarget (state s)) kD3d11 in
  if wempty c then safeSiblingName (fromUtf8 (iniValue (s_iniText s) (lit "advanced.real_dll") [])) kD3d11 else c.
Definition modBack : option DllInfo := if wempty chainOf then None else isThere (siblingNamed (otherD3d11 s) chainOf).

(** The files this is about are different files. *)
Record Layout : Prop := {
  lay_slot : apart slotPath; lay_dst : apart dstPath; lay_orig : apart origFile;
  lay_slot_dst : slotPath <> dstPath; lay_slot_orig : slotPath <> origFile; lay_dst_orig : dstPath <> origFile;
  lay_mod t : modBack = Some t -> dll_path t <> slotPath /\ dll_path t <> dstPath /\ dll_path t <> origFile /\
    (forall n, dll_path t <> joinPath (backupDirFor s o) n);
  lay_copies c : In c (openvrOrigInBackups s) -> c <> slotPath /\ c <> dstPath /\ (forall n, c <> joinPath (backupDirFor s o) n) /\
    (forall t, modBack = Some t -> c <> dll_path t) }.
Context (layout : Layout).

Definition emptyBuild : Build :=
  mkBuild [] [] false false state0 (if gameRunningElsewhere s then [kRunningElsewhere] else []) [] report0.

Lemma removed_d3d11_slot b : (forall q, at_ b q = f q) -> at_ (removeD3d11 s o b) slotPath =
  if isKind (dll_kind (d3d11 s)) Edvr then match modBack with Some t => f (dll_path t) | None => None end else f slotPath.
Proof.
  intros Hb. unfold removeD3d11, modBack. fold chainOf. cbv zeta. unfold isKind. destruct (dll_kind (d3d11 s)); at_step; try done.
  rewrite bool_decide_true by done. destruct (if wempty chainOf then _ else _) as [t|] eqn:Ht.
  - destruct (lay_mod layout t Ht) as (H1 & _ & _ & H2). at_step. fold slotPath. rewrite at_rename_to, at_remove, at_backup by done. done.
  - assert (forall b0, at_ (remove slotPath (lit "removes EDVR's d3d11.dll") (sha256 (d3d11 s)) b0) slotPath = None) as Hr.
    { intros b0. rewrite (at_quiet (push (removeStep slotPath (lit "removes EDVR's d3d11.dll") (sha256 (d3d11 s))) b0)) by done.
      rewrite at_push. apply place_eq. }
    case_match; at_step; apply Hr.
Qed.

Lemma removed_d3d11_other b q : q <> slotPath -> (forall t, modBack = Some t -> q <> dll_path t) ->
  (forall n, q <> joinPath (backupDirFor s o) n) -> at_ (removeD3d11 s o b) q = at_ b q.
Proof.
  intros H1 H2 H3. unfold removeD3d11, modBack in *. fold chainOf. cbv zeta. destruct (dll_kind (d3d11 s)); at_step; try done.
  destruct (if wempty chainOf then _ else _) as [t|] eqn:Ht.
  - at_step. fold slotPath. rewrite at_rename, at_remove, at_backup by auto. done.
  - case_match; at_step; fold slotPath; rewrite at_remove, at_backup by auto; done.
Qed.

Definition openvrAfter : option wstr :=
  if haveOpenvrDir s && isKind (dll_kind (openvrCurrent s)) Edvr then
    if isKind (dll_kind (openvrOrig s)) OpenVrRuntime then f origFile
    else match openvrOrigInBackups s with c :: _ => f c | [] => f dstPath end
  else f dstPath.

Lemma removed_openvr_dst b : (forall q, q = dstPath \/ q = origFile \/ In q (openvrOrigInBackups s) -> at_ b q = f q) ->
  at_ (removeOpenvr s o b) dstPath = openvrAfter.
Proof.
  intros Hb. unfold removeOpenvr, openvrAfter. cbv zeta. destruct (haveOpenvrDir s); cbn [negb andb]; [|apply Hb; auto].
  destruct (isKind (dll_kind (openvrCurrent s)) Edvr); [|case_match; at_step; apply Hb; auto].
  destruct (lay_orig layout) as [_ Hn]. pose proof (lay_dst_orig layout) as Hdo.
  destruct (isKind (dll_kind (openvrOrig s)) OpenVrRuntime).
  - at_step. fold dstPath origFile. rewrite at_rename_to, at_remove, at_backup by auto. auto.
  - destruct (openvrOrigInBackups s) as [|c l] eqn:E; at_step; [apply Hb; auto|].
    destruct (lay_copies layout c) as (_ & _ & Hc & _); [rewrite E; by left|].
    fold dstPath. rewrite at_restore, bool_decide_true, at_backup by auto. apply Hb. right; right. by left.
Qed.

Lemma removed_openvr_other b q : q <> dstPath -> q <> origFile -> (forall n, q <> joinPath (backupDirFor s o) n) ->
  at_ (removeOpenvr s o b) q = at_ b q.
Proof.
  intros H1 H2 H3. unfold removeOpenvr. cbv zeta. destruct (haveOpenvrDir s); cbn [negb]; [|done].
  destruct (isKind (dll_kind (openvrCurrent s)) Edvr); [|by case_match].
  destruct (isKind (dll_kind (openvrOrig s)) OpenVrRuntime).
  - at_step. fold dstPath origFile. by rewrite at_rename, at_remove, at_backup by auto.
  - destruct (openvrOrigInBackups s) as [|c l]; at_step; [done|]. fold dstPath.
    by rewrite at_restore, bool_decide_false, at_backup by auto.
Qed.

Definition slotAfter : option wstr :=
  if isKind (dll_kind (d3d11 s)) Edvr then match modBack with Some t => f (dll_path t) | None => None end else f slotPath.

Lemma uninstall_body : at_ (buildUninstall s o recordThere baseThere) slotPath = slotAfter /\
  at_ (buildUninstall s o recordThere baseThere) dstPath = openvrAfter.
Proof.
  unfold buildUninstall. fold emptyBuild.
  rewrite !untouched_record, !untouched_ngx, !untouched_assets by apply layout. split.
  - destruct (lay_slot layout) as [_ Hn]. rewrite removed_openvr_other; [|apply (lay_slot_dst layout)|apply (lay_slot_orig layout)|exact Hn]. by apply removed_d3d11_slot.
  - apply removed_openvr_dst. intros q Hq. transitivity (at_ emptyBuild q); [|done]. apply removed_d3d11_other.
    + destruct Hq as [->|[->|Hq]]; [apply not_eq_sym, (lay_slot_dst layout) | apply not_eq_sym, (lay_slot_orig layout) |].
      by destruct (lay_copies layout q Hq).
    + intros t Ht. destruct (lay_mod layout t Ht) as (_ & M1 & M2 & _).
      destruct Hq as [->|[->|Hq]]; [by apply not_eq_sym..|]. destruct (lay_copies layout q Hq) as (_ & _ & _ & Hc). by apply Hc.
    + destruct Hq as [->|[->|Hq]]; [apply (lay_dst layout) | apply (lay_orig layout) |]. by destruct (lay_copies layout q Hq) as (_ & _ & ? & _).
Qed.

(** A phase that does not set [changed] adds no step. *)
Definition inert (b b' : Build) : Prop := (changed b = true -> changed b' = true) /\ (changed b' = false -> body b' = body b).
Lemma inert_trans b1 b2 b3 : inert b1 b2 -> inert b2 b3 -> inert b1 b3.
Proof.
  intros [M1 B1] [M2 B2]. split; [auto|]. intros H. rewrite B2 by done. apply B1.
  apply not_true_iff_false. intros H2. by rewrite M2 in H.
Qed.
Ltac by_inert := intros; split; cbv zeta; repeat (case_match; simpl in *; try done).
Lemma inert_retire info owned b : inert b (retire s o info owned b).
Proof. unfold retire. by_inert. Qed.

Lemma uninstall_idle : changed (buildUninstall s o recordThere baseThere) = false ->
  body (buildUninstall s o recordThere baseThere) = [].
Proof.
  intros H. unfold buildUninstall in *. fold emptyBuild in *.
  assert (forall b, inert b (removeD3d11 s o b)) as Hd by (unfold removeD3d11; by_inert).
  assert (forall b, inert b (removeOpenvr s o b)) as Ho by (unfold removeOpenvr; by_inert).
  assert (forall b, inert b (removeAssets s o b)) as Ha.
  { intros b. unfold removeAssets. case_match; [|done].
    exact (inert_trans _ _ _ (inert_trans _ _ _ (inert_retire _ _ _) (inert_retire _ _ _)) (inert_retire _ _ _)). }
  assert (forall b, inert b (removeNgx s b)) as Hn by (unfold removeNgx; by_inert).
  assert (forall b, inert b (removeRecord s o recordThere baseThere b)) as Hr by (unfold removeRecord; by_inert).
  pose proof (inert_trans _ _ _ (inert_trans _ _ _ (inert_trans _ _ _ (inert_trans _ _ _ (Hd emptyBuild) (Ho _)) (Ha _)) (Hn _)) (Hr _)) as [_ Hi].
  by apply Hi.
Qed.
End Restoring.

(** ** The properties *)
Section Theorems.
Context {utf8 : Utf8} (sha256Bytes : str -> str).
Implicit Types (s : Survey) (o : Options) (p : PayloadInfo).

(** C11. An install never overwrites somebody else's file without keeping it: in
    every plan, for any survey of the folder, a step that writes or renames onto a
    path where a file was found (the installer's own record apart) comes after a
    step that copied that file away or moved it aside. *)
Theorem install_keeps_what_it_overwrites s o p here pre st post path :
  SurveyOf s here -> steps (planInstall sha256Bytes s o p) = pre ++ st :: post ->
  overwrites st = Some path -> foreign s here path -> exists k, In k pre /\ keeps path k.
Proof.
  intros Hs Hst Ho Hf. unfold planInstall in Hst. destruct (refusal s p); [by destruct pre|].
  pose proof (covered_assemble s o p here _ (cov_install sha256Bytes s o p here Hs) _ _ _ _ Hst Ho Hf) as H.
  apply Exists_exists in H as (k & Hk & Hkeep). exists k. split; [by apply list_elem_of_In | done].
Qed.

(** An install that is not refused has no steps exactly when the folder is
    already as this build would leave it: every library is this build's, the
    configuration and the merged settings are already what would be written, and
    no repair was asked for. *)
Theorem install_nothing_to_do s o p :
  refusal s p = None ->
  (steps (planInstall sha256Bytes s o p) = [] <-> Settled sha256Bytes s o p) /\
  (nothingToDo (planInstall sha256Bytes s o p) = true <-> Settled sha256Bytes s o p).
Proof.
  intros Hr. unfold planInstall. rewrite Hr. destruct (repair o) eqn:Hrep.
  - assert (~ Settled sha256Bytes s o p) as Hn by (intros []; congruence).
    rewrite steps_assemble by auto. unfold assemble. rewrite Hrep, andb_false_r.
    split; (split; [|done]); [|done]. by destruct (wantBackupDir _).
  - rewrite <- (settled_iff sha256Bytes s o p Hr Hrep). destruct (changed _) eqn:Hc.
    + rewrite steps_assemble by auto. unfold assemble. rewrite Hc. split; (split; [|done]); [|done].
      by destruct (wantBackupDir _).
    + rewrite steps_nothing by done. unfold assemble. by rewrite Hc, Hrep.
Qed.

(** C12. An install is refused exactly in the listed situations, and a refused
    plan has no step and says why. *)
Theorem install_refused_iff s o p :
  (blocked (planInstall sha256Bytes s o p) = true <->
    dir (game s) = [] \/ gameRunningHere s = true \/
    ~ (haveD3d11 p = true /\ haveOpenvr p = true /\ haveOpenxrLoader p = true /\ haveOpenxrLicense p = true /\
       nativePairValid p = true /\ p_iniText p <> []) \/
    eliteProfileValid s = false \/
    (exists d, In d [d3d11 s; openvrCurrent s; openxrLoader s; nativeConfig s; openxrLicense s] /\ dll_kind d = Unreadable)) /\
  (blocked (planInstall sha256Bytes s o p) = true ->
    steps (planInstall sha256Bytes s o p) = [] /\ exists why_, problems (planInstall sha256Bytes s o p) = [why_]).
Proof.
  unfold planInstall. split.
  - transitivity (refusal s p <> None).
    { destruct (refusal s p); [done|]. unfold assemble. cbv zeta. by case_match. }
    unfold refusal, wempty, sempty. case_bool_decide as Hd; [by split; [left|]|].
    destruct (gameRunningHere s); [split; [right; by left | done]|].
    destruct (negb (haveD3d11 p) || _ || _ || _ || _ || _) eqn:Hp.
    { split; [intros _; right; right; left | done]. intros (H1 & H2 & H3 & H4 & H5 & H6).
      rewrite H1, H2, H3, H4, H5, (bool_decide_false _ H6) in Hp. done. }
    destruct (eliteProfileValid s); cbn [negb]; [|split; [do 3 right; by left | done]].
    repeat (apply orb_false_iff in Hp as [Hp ?]). bool_solve.
    repeat match goal with H : negb _ = false |- _ => apply negb_false_iff in H end.
    destruct (existsb _ _) eqn:Hu.
    + split; [intros _|done]. do 4 right. apply existsb_exists in Hu as (d & Hin & Hk). exists d. split; [done|]. by apply isKind_spec.
    + split; [done|]. intros [?|[?|[Hn|[?|(d & Hin & Hk)]]]]; try done; [by destruct Hn|].
      apply not_true_iff_false in Hu. exfalso. apply Hu, existsb_exists. exists d. split; [done|]. by apply isKind_spec.
  - destruct (refusal s p) as [why_|]; [intros _; split; [done|]; by exists why_|].
    unfold assemble. cbv zeta. by case_match.
Qed.


(** A mod that an install moves aside is the one an uninstall puts back: the
    name it is parked under goes into the record, and an uninstall that reads that
    record looks for exactly that name. *)
Theorem chained_mod_found_again s o p s' :
  refusal s p = None -> slotTaken s ->
  chainTarget (state s') = chainTarget (nextState (planInstall sha256Bytes s o p)) ->
  chainTarget (state s') = chainNameFor (d3d11 s) /\ chainOf s' = chainNameFor (d3d11 s) /\
  modBack s' = isThere (siblingNamed (otherD3d11 s') (chainNameFor (d3d11 s))).
Proof.
  intros Hr Ht E. destruct (package_whole s p Hr) as (Hp & _). unfold planInstall in E. rewrite Hr in E.
  assert (chainTarget (state s') = chainNameFor (d3d11 s)) as H1.
  { rewrite E, <- (install_chain sha256Bytes s o p Hp Ht). unfold assemble. cbv zeta. by case_match. }
  assert (chainOf s' = chainNameFor (d3d11 s)) as H2.
  { unfold chainOf. rewrite H1, chainNameFor_safe. unfold wempty. by rewrite bool_decide_false by apply chainNameFor_ne. }
  split_and!; [done..|]. unfold modBack. rewrite H2. unfold wempty. by rewrite bool_decide_false by apply chainNameFor_ne.
Qed.


(** C15. An uninstall puts the game's own files back: after its steps, what is at
    openvr_api.dll is the runtime found under the kept name (or, when that is
    lost, the copy from the newest backup, or what was there when there is neither
    or when it is not ours), and what is at d3d11.dll is the mod that was moved
    aside, nothing when there was none, and what was there when it is not ours. *)
Theorem uninstall_puts_back s o recordThere baseThere f :
  Layout s o -> uninstallRefused s = false -> gameRunningHere s = false ->
  exec f (steps (planUninstall s o recordThere baseThere)) (slotPath s) = slotAfter s f /\
  exec f (steps (planUninstall s o recordThere baseThere)) (dstPath s) = openvrAfter s f.
Proof.
  intros Hl Hr Hg. unfold planUninstall. rewrite Hr, Hg. cbv zeta.
  destruct (uninstall_body s o recordThere baseThere f Hl) as [H1 H2]. unfold at_ in *.
  destruct (changed _) eqn:Hc; cbn [negb].
  - assert (forall q, exec f (steps (plan0 <| steps := (if wantBackupDir (buildUninstall s o recordThere baseThere)
      then [makeDirStep (backupDirFor s o) (lit "keeps a copy of everything removed")] else []) ++
      body (buildUninstall s o recordThere baseThere) |>)) q = exec f (body (buildUninstall s o recordThere baseThere)) q) as E.
    { intros q. cbn [steps]. unfold exec. simpl. rewrite foldl_app. by case_match. }
    split; [rewrite <- H1 | rewrite <- H2]; apply E.
  - rewrite (uninstall_idle _ _ _ _ Hc) in H1, H2. done.
Qed.
End Theorems.

(** ** Witnesses *)
Module Demo.
#[local] Existing Instance ascii_utf8.
Definition hash (t : str) : str := lit "h" ++ number (length t).
Definition demo_game : GameInstall := mkGame (wlit "G:\ED") (wlit "G:\ED\Openvr\win64") [] [] true.
Definition at_ed (n : String.string) : wstr := joinPath (wlit "G:\ED") (wlit n).
Definition at_vr (n : String.string) : wstr := joinPath (wlit "G:\ED\Openvr\win64") (wlit n).
Arguments at_ed n%_string. Arguments at_vr n%_string.
Definition dll (k : DllKind) (q : wstr) (sha : String.string) : DllInfo :=
  dll0 <| dll_kind := k |> <| dll_path := q |> <| is64 := true |> <| sha256 := lit sha |>.
Arguments dll k q sha%_string.
Definition demo_payload : PayloadInfo := mkPayload (lit "0.9.41") true (lit "d-new") true (lit "v-new") false [] true true (lit "l-new")
  true (lit "c-new") (lit "[fix]" ++ crlf ++ lit "glow = 1" ++ crlf ++ lit "[advanced]" ++ crlf ++ lit "real_dll =" ++ crlf).
Definition demo_options : Options := mkOptions true false false (wlit "20260917-120000") (lit "2026-09-17T12:00:00Z").
(** EDHM in the d3d11.dll slot, the game's own OpenVR runtime, no settings yet. *)
Definition edhm : DllInfo := (dll D3d11Provider (at_ed "d3d11.dll") "edhm") <| product := wlit "EDHM 3.5" |>.
Definition fresh : Survey := mkSurvey demo_game false false edhm
  (dll Absent (at_vr "openxr_loader.dll") "") (dll Absent (at_vr "edvr_openxr.ini") "") (dll Absent (at_vr "OPENXR-LOADER-LICENSE.txt") "")
  [] false [] [] (dll Absent (at_ed "nvngx_dlss.dll") "") false [] true
  (dll OpenVrRuntime (at_vr "openvr_api.dll") "game") (dll Absent (at_vr "openvr_api_orig.dll") "") kOpenvrOrig [] state0 true.
Abbreviation demo_plan := (planInstall hash fresh demo_options demo_payload).
Definition there (q : wstr) : bool := bool_decide (q = at_ed "d3d11.dll") || bool_decide (q = at_vr "openvr_api.dll").

Lemma fresh_survey : SurveyOf fresh there.
Proof.
  split; try (vm_compute; reflexivity). intros n Hn.
  repeat destruct Hn as [<-|Hn]; try (vm_compute; reflexivity). destruct Hn.
Qed.

(** The write of our d3d11.dll comes after EDHM's was copied and moved. *)
Lemma install_keeps_what_it_overwrites_witness :
  exists k, In k (take 4 (steps demo_plan)) /\ keeps (at_ed "d3d11.dll") k.
Proof.
  apply (install_keeps_what_it_overwrites hash fresh demo_options demo_payload there (take 4 (steps demo_plan))
    (payloadStep (lit "d3d11") (at_ed "d3d11.dll") (lit "installs EDVR's d3d11.dll in its place"))
    (drop 5 (steps demo_plan))).
  - exact fresh_survey.
  - vm_compute. reflexivity.
  - reflexivity.
  - split; [vm_compute; reflexivity|]. split; intros E; vm_compute in E; discriminate E.
Defined.

(** The folder after that install. *)
Definition installed : Survey := mkSurvey demo_game false false (dll Edvr (at_ed "d3d11.dll") "d-new")
  (dll Foreign (at_vr "openxr_loader.dll") "l-new")
  ((dll Foreign (at_vr "edvr_openxr.ini") "") <| sha256 := nativeConfigSha (nextState demo_plan) |>)
  (dll Foreign (at_vr "OPENXR-LOADER-LICENSE.txt") "c-new")
  [(dll D3d11Provider (at_ed "d3d11_edhm.dll") "edhm") <| product := wlit "EDHM 3.5" |>] true
  (lit "[fix]" ++ crlf ++ lit "glow = 1" ++ crlf ++ lit "[advanced]" ++ crlf ++ lit "real_dll = d3d11_edhm.dll" ++ crlf)
  (p_iniText demo_payload) (dll Absent (at_ed "nvngx_dlss.dll") "") false [] true
  (dll Edvr (at_vr "openvr_api.dll") "v-new") (dll OpenVrRuntime (at_vr "openvr_api_orig.dll") "game") kOpenvrOrig []
  (nextState demo_plan) true.

(** Installing again there does nothing. *)
Lemma install_nothing_to_do_witness : Settled hash installed demo_options demo_payload.
Proof.
  apply (install_nothing_to_do hash installed demo_options demo_payload); vm_compute; reflexivity.
Defined.


Lemma chained_mod_found_again_witness : chainOf installed = wlit "d3d11_edhm.dll".
Proof.
  refine (eq_trans (proj1 (proj2 (chained_mod_found_again hash fresh demo_options demo_payload installed _ _ _))) _).
  - vm_compute. reflexivity.
  - split_and!; discriminate.
  - reflexivity.
  - vm_compute. reflexivity.
Defined.


Lemma joinPath_prefix d n : d <> [] -> wprefix d (joinPath d n) = true.
Proof.
  assert (forall a b, wprefix a (a ++ b) = true) as Ha by (induction a as [|x a IH]; intros b; simpl; [done|]; by rewrite N.eqb_refl, IH).
  intros Hd. unfold joinPath, wempty. rewrite (bool_decide_false _ Hd). case_bool_decide; [rewrite <- (app_nil_r d) at 2; apply Ha|].
  destruct (last d) eqn:E; [|by apply last_None in E]. case_match; [apply Ha | rewrite <- app_assoc; apply Ha].
Qed.
Lemma not_in d q : d <> [] -> wprefix d q = false -> forall n, q <> joinPath d n.
Proof. intros Hd Hq n ->. by rewrite joinPath_prefix in Hq. Qed.

Lemma installed_layout : Layout installed demo_options.
Proof.
  assert (forall q, wprefix (backupDirFor installed demo_options) q = false -> forall n, q <> joinPath (backupDirFor installed demo_options) n) as Hb.
  { intros q. apply not_in. vm_compute. discriminate. }
  assert (forall q, existsb (fun x => bool_decide (q = x)) (otherFiles installed) = false -> forall x, In x (otherFiles installed) -> q <> x) as Hf.
  { intros q Hq x Hx E. apply not_true_iff_false in Hq. apply Hq, existsb_exists. exists x. split; [done|]. by apply bool_decide_eq_true. }
  split; try (split; [apply Hf; vm_compute; reflexivity | apply Hb; vm_compute; reflexivity]); try (vm_compute; discriminate).
  - intros t Ht. assert (dll_path t = at_ed "d3d11_edhm.dll") as ->.
    { replace (modBack installed) with (head (otherD3d11 installed)) in Ht by (vm_compute; reflexivity). by injection Ht as <-. }
    split; [|split; [|split]]; [vm_compute; discriminate..|]. apply Hb. vm_compute. reflexivity.
  - intros c [].
Qed.

(** Uninstalling gives EDHM its name back and the game its runtime. *)
Lemma uninstall_puts_back_witness :
  exec Some (steps (planUninstall installed demo_options true true)) (slotPath installed) = Some (at_ed "d3d11_edhm.dll") /\
  exec Some (steps (planUninstall installed demo_options true true)) (dstPath installed) = Some (at_vr "openvr_api_orig.dll").
Proof.
  assert (uninstallRefused installed = false) as Hr by (vm_compute; reflexivity).
  pose proof (uninstall_puts_back installed demo_options true true Some installed_layout Hr eq_refl) as H.
  rewrite (proj1 H), (proj2 H). vm_compute. split; reflexivity.
Defined.

(** Replacing the settings with defaults that are already there says both that
    they are being replaced and that they are left alone. *)
Lemma contradictory_notes :
  let s := mkSurvey demo_game false false (d3d11 installed) (openxrLoader installed) (nativeConfig installed) (openxrLicense installed)
    [] true (p_iniText demo_payload) (p_iniText demo_payload) (ngx installed) false [] true (openvrCurrent installed) (openvrOrig installed)
    kOpenvrOrig [] state0 true in
  notes (planInstall hash s (mkOptions false false false [] []) demo_payload) =
  [lit "d3d11.dll is already this build -- left alone."; lit "Native OpenXR runtime is already this build -- left alone.";
   lit "Replacing edvr.ini with the shipped defaults. Your old file is in the backup folder.";
   lit "edvr.ini already says what it should -- left alone."; lit "Everything is already in place. Nothing to do."] /\
  steps (planInstall hash s (mkOptions false false false [] []) demo_payload) = [].
Proof. vm_compute. split; reflexivity. Qed.

(** With the game's openvr_api.dll beside the executable, the record holds an
    absolute path where a relative one is meant. *)
Lemma record_holds_absolute_dir : relativeOpenvr (wlit "G:\Games #2\ED") (wlit "G:\Games #2\ED") = wlit "G:\Games #2\ED".
Proof. reflexivity. Qed.
End Demo.
