(* ===== verification/InstallApply.v ===== *)
(** Carrying out an installation plan and undoing it when a step fails
    (src/src/installer/apply.cpp).

    The Windows calls are parameters ([Win32]) whose every call may fail; what the
    code relies on is [Win32Laws], stated on the files of the disk.  [FaultyDisk]
    at the end is a concrete disk that fails any chosen calls. *)
From S2P Require Import Prelude Ini InstallData.
From Stdlib Require Import Ascii.
Local Open Scope Z_scope.

(** ** The Windows calls *)
Class Win32 (W : Type) := {
  GetFileAttributesW : wstr -> W -> option Z;       (* None: INVALID_FILE_ATTRIBUTES *)
  SetFileAttributesW : wstr -> Z -> M W bool;
  CreateDirectoryW : wstr -> M W bool;
  RemoveDirectoryW : wstr -> M W bool;
  DeleteFileW : wstr -> M W bool;
  CopyFileW : wstr -> wstr -> M W bool;              (* bFailIfExists = FALSE *)
  MoveFileExW : wstr -> wstr -> M W bool;            (* MOVEFILE_REPLACE_EXISTING *)
  GetTempFileNameW : wstr -> M W (option wstr);      (* prefix "evr", uUnique = 0 *)
  CreateFileW : wstr -> M W bool;                    (* GENERIC_WRITE, CREATE_ALWAYS; the handle is named by its path *)
  WriteFile : wstr -> str -> M W (bool * nat);
  FlushFileBuffers : wstr -> M W unit;
  CloseHandle : wstr -> M W unit;
  GetLastError : W -> Z;
  FormatMessageA : Z -> str;                         (* empty when the system has no text *)
  sha256File : wstr -> M W str }.                    (* probe.cpp: empty when the file cannot be read *)

Definition ERROR_FILE_NOT_FOUND : Z := 2.
Definition ERROR_CRC : Z := 23.
Definition ERROR_WRITE_FAULT : Z := 29.
Definition ERROR_ALREADY_EXISTS : Z := 183.
Definition ERROR_RESOURCE_DATA_NOT_FOUND : Z := 1812.

Inductive Undo :=
  | RemoveDir (a : wstr)
  | DeleteFile (a : wstr)
  | MoveBack (a b : wstr) (sha : str)
  | RestoreFile (a b : wstr) (sha : str).

Record ApplyResult := mkResult { ok : bool; rolledBack : bool; r_overwrote : bool; r_done : list str; error : str }.
#[export] Instance eta_ApplyResult : Settable ApplyResult := fun r =>
  mkResult (ok r) (rolledBack r) (r_overwrote r) (r_done r) (error r).
Definition result0 : ApplyResult := mkResult false false false [] [].

(** The locals of [applyPlan] and the machine they act on. *)
Record Run (W : Type) := mkRun {
  undo : list Undo; err : Z; overwrote : bool; failedAt : wstr; failed : bool; done : list str; os : W }.
Arguments mkRun {W}. Arguments undo {W}. Arguments err {W}. Arguments overwrote {W}.
Arguments failedAt {W}. Arguments failed {W}. Arguments done {W}. Arguments os {W}.
#[export] Instance eta_Run W : Settable (Run W) := fun r =>
  mkRun (undo r) (err r) (overwrote r) (failedAt r) (failed r) (done r) (os r).

Section Apply.
Context {W : Type} {win32 : Win32 W} {utf8 : Utf8}.

Definition errorText (e : Z) : str :=
  let out := rev (dropWhile (fun c => isEol c || eqc c " "%char) (rev (FormatMessageA e))) in
  if sempty out then lit "Windows error " ++ map Ascii.ascii_of_N (decimal e) else out.

(** detect.cpp; the directory bit is 0x10, the read-only bit 1. *)
Definition fileExists (p : wstr) (w : W) : bool :=
  match GetFileAttributesW p w with Some a => negb (Z.testbit a 4) | None => false end.
Definition dirExists (p : wstr) (w : W) : bool :=
  match GetFileAttributesW p w with Some a => Z.testbit a 4 | None => false end.

(** *** Writing one file *)
Inductive Written := Complete | WriteFailed (e : Z) | OutOfFuel.

Definition chunkSize : nat := Z.to_nat (2 ^ 20).
Definition chunkOf (left : str) : str :=
  if Z.of_nat (length left) <=? 2 ^ 20 then left else take chunkSize left.

Fixpoint writeChunks (fuel : nat) (temp : wstr) (left : str) : M W Written :=
  match left, fuel with
  | [], _ => mret Complete
  | _, O => mret OutOfFuel
  | _, S fuel =>
      r ← WriteFile temp (chunkOf left);
      let '(good, written) := r : bool * nat in
      if negb good || Nat.eqb written 0 then
        w ← getM;
        let e := GetLastError w in
        let e := if e =? 0 then ERROR_WRITE_FAULT else e in
        _ ← CloseHandle temp;
        _ ← DeleteFileW temp;
        mret (WriteFailed e)
      else writeChunks fuel temp (drop written left)
  end.

Definition newName (path : wstr) : wstr := path ++ wlit ".edvrnew".

(** [None] is success, [Some e] failure with that code. *)
Definition writeWholeFile (path : wstr) (data : str) : M W (option Z) :=
  let temp := newName path in
  f ← CreateFileW temp;
  if negb f then w ← getM; mret (Some (GetLastError w))
  else
    r ← writeChunks (length data) temp data;
    match r with
    | WriteFailed e => mret (Some e)
    | OutOfFuel => mret (Some 0)
    | Complete =>
        _ ← FlushFileBuffers temp;
        _ ← CloseHandle temp;
        moved ← MoveFileExW temp path;
        if negb (moved : bool) then
          w ← getM;
          _ ← DeleteFileW temp;
          mret (Some (GetLastError w))
        else mret None
    end.

Definition clearReadOnly (path : wstr) : M W unit :=
  w ← getM;
  match GetFileAttributesW path w with
  | None => mret tt
  | Some attrs =>
      if Z.testbit attrs 0 then _ ← SetFileAttributesW path (Z.land attrs (Z.lnot 1)); mret tt
      else mret tt
  end.

(** *** The run *)
Definition win {A} (m : M W A) : M (Run W) A := liftM os (fun w r => r <| os := w |>) m.
Definition ask {A} (f : W -> A) : M (Run W) A := fun r => (f (os r), r).
Definition pushUndo (u : Undo) : M (Run W) unit := modM (fun r => r <| undo := undo r ++ [u] |>).
Definition say (line : str) : M (Run W) unit := modM (fun r => r <| done := done r ++ [line] |>).
Definition setErr (e : Z) : M (Run W) unit := modM (fun r => r <| err := e |>).
Definition fail (what : wstr) (code : Z) : M (Run W) unit :=
  modM (fun r => r <| failed := true |> <| err := code |> <| failedAt := what |>).

(** The recursion is on the path's length: the parent is shorter. *)
Fixpoint ensureDirTree (fuel : nat) (path : wstr) (record : bool) : M (Run W) bool :=
  there ← ask (dirExists path);
  if wempty path || there then mret true
  else
    up ← match lastSlash path, fuel with
         | Some (parent, _), S fuel => if Nat.ltb 2 (length parent) then ensureDirTree fuel parent record else mret true
         | _, _ => mret true
         end;
    if negb up then mret false
    else
      made ← win (CreateDirectoryW path);
      if made : bool then
        _ ← (if record then pushUndo (RemoveDir path) else mret tt);
        mret true
      else
        e ← ask GetLastError;
        there ← ask (dirExists path);
        mret ((e =? ERROR_ALREADY_EXISTS) && there).
Definition makeDirs (path : wstr) (record : bool) : M (Run W) bool := ensureDirTree (length path) path record.

Definition dirOf (path : wstr) : option wstr := match lastSlash path with Some (a, _) => Some a | None => None end.

(** Whether it succeeded, and the snapshot's name (empty when there was nothing
    to copy).  The serial number it is passed is not used. *)
Definition snapshotFile (source backups : wstr) : M (Run W) (bool * wstr) :=
  there ← ask (fileExists source);
  if negb there then mret (true, [])
  else
    let dir := if wempty backups then default (wlit ".") (dirOf source) else backups in
    made ← makeDirs dir false;
    if negb made then e ← ask GetLastError; _ ← setErr e; mret (false, [])
    else
      temporary ← win (GetTempFileNameW dir);
      match temporary with
      | None => e ← ask GetLastError; _ ← setErr e; mret (false, [])
      | Some snapshot =>
          copied ← win (CopyFileW source snapshot);
          if negb copied then
            e ← ask GetLastError; _ ← setErr e; _ ← win (DeleteFileW snapshot); mret (false, snapshot)
          else
            expected ← win (sha256File source);
            if sempty expected then _ ← setErr ERROR_CRC; _ ← win (DeleteFileW snapshot); mret (false, snapshot)
            else
              got ← win (sha256File snapshot);
              if bool_decide (got = expected) then mret (true, snapshot)
              else _ ← setErr ERROR_CRC; _ ← win (DeleteFileW snapshot); mret (false, snapshot)
      end.

Definition protectTarget (backups target : wstr) : M (Run W) bool :=
  there ← ask (fileExists target);
  if negb there then mret true
  else
    r ← snapshotFile target backups;
    let '(good, snapshot) := r : bool * wstr in
    if negb good then mret false
    else
      sha ← win (sha256File snapshot);
      _ ← pushUndo (RestoreFile snapshot target sha);
      mret true.

Definition failErr (what : wstr) : M (Run W) unit := r ← getM; fail what (err r).
Definition failLast (what : wstr) : M (Run W) unit := e ← ask GetLastError; fail what e.

Definition doMakeDir (st : Step) : M (Run W) unit :=
  made ← makeDirs (to st) true;
  if made : bool then mret tt else failLast (to st).

Definition doBackup (backups : wstr) (st : Step) : M (Run W) unit :=
  _ ← match dirOf (to st) with Some d => makeDirs d true | None => mret true end;
  there ← ask (fileExists (from st));
  if negb there then (if required st then fail (from st) ERROR_FILE_NOT_FOUND else mret tt)
  else
    _ ← win (clearReadOnly (to st));
    safe ← protectTarget backups (to st);
    if negb safe then failErr (to st)
    else
      copied ← win (CopyFileW (from st) (to st));
      if negb copied then failLast (to st)
      else say (lit "copied " ++ toUtf8 (leafOf (from st)) ++ lit " -> " ++ toUtf8 (to st)).

Definition doRename (backups : wstr) (st : Step) : M (Run W) unit :=
  there ← ask (fileExists (from st));
  if negb there then (if required st then fail (from st) ERROR_FILE_NOT_FOUND else mret tt)
  else
    _ ← win (clearReadOnly (from st));
    _ ← win (clearReadOnly (to st));
    safe ← protectTarget backups (to st);
    if negb safe then failErr (to st)
    else
      before ← win (sha256File (from st));
      if sempty before then fail (from st) ERROR_CRC
      else
        moved ← win (MoveFileExW (from st) (to st));
        if negb moved then failLast (from st)
        else
          _ ← pushUndo (MoveBack (to st) (from st) before);
          say (lit "renamed " ++ toUtf8 (leafOf (from st)) ++ lit " -> " ++ toUtf8 (leafOf (to st))).

Definition doWrite (backups : wstr) (st : Step) (data : str) : M (Run W) unit :=
  existed ← ask (fileExists (to st));
  _ ← win (clearReadOnly (to st));
  safe ← (if existed : bool then protectTarget backups (to st) else mret true);
  if negb safe then failErr (to st)
  else
    e ← win (writeWholeFile (to st) data);
    match e with
    | Some code => _ ← setErr code; fail (to st) code
    | None =>
        _ ← (if negb existed then pushUndo (DeleteFile (to st)) else modM (fun r => r <| overwrote := true |>));
        say (lit "wrote " ++ toUtf8 (leafOf (to st)))
    end.

Definition doDelete (backups : wstr) (st : Step) : M (Run W) unit :=
  there ← ask (fileExists (from st));
  if negb there then mret tt
  else
    _ ← win (clearReadOnly (from st));
    safe ← protectTarget backups (from st);
    if negb safe then failErr (from st)
    else
      gone ← win (DeleteFileW (from st));
      if negb gone then failLast (from st)
      else say (lit "removed " ++ toUtf8 (leafOf (from st))).

(** An empty [std::function] is [None]; a provider that fails, hands back no data
    or no bytes gives [None] or the empty list. *)
Definition PayloadProvider : Type := option (str -> option str).
Definition payloadOf (payload : PayloadProvider) (item : str) : option str :=
  match payload with
  | None => None
  | Some p => match p item with Some (c :: r) => Some (c :: r) | _ => None end
  end.

Definition doStep (backups : wstr) (payload : PayloadProvider) (st : Step) : M (Run W) unit :=
  match action st with
  | MakeDir => doMakeDir st
  | Backup => doBackup backups st
  | Rename => doRename backups st
  | WritePayload => match payloadOf payload (item st) with
                    | None => fail (to st) ERROR_RESOURCE_DATA_NOT_FOUND
                    | Some data => doWrite backups st data
                    end
  | WriteText => doWrite backups st (step_text st)
  | Delete => doDelete backups st
  end.

Fixpoint runSteps (backups : wstr) (payload : PayloadProvider) (l : list Step) : M (Run W) unit :=
  match l with
  | [] => mret tt
  | st :: l => _ ← doStep backups payload st; r ← getM; if failed r then mret tt else runSteps backups payload l
  end.

(** *** Before the first step: does the folder still match the plan? *)
Definition changedWhileWaiting (st : Step) (what : str) : str :=
  lit "The folder changed while this was waiting to be confirmed: " ++ toUtf8 (leafOf (from st)) ++ what.

Fixpoint stale (l : list Step) : M W (option str) :=
  match l with
  | [] => mret None
  | st :: l =>
      if wempty (from st) then stale l
      else
        w ← getM;
        let there := fileExists (from st) w in
        if negb there && (required st || negb (sempty (expectSha st))) then
          mret (Some (changedWhileWaiting st (lit " is not there any more. Nothing was done -- look at it again.")))
        else if there && negb (sempty (expectSha st)) then
          sha ← sha256File (from st);
          if bool_decide (sha = expectSha st) then stale l
          else mret (Some (changedWhileWaiting st
                 (lit " is not the file this plan was made for. Nothing was done -- close any other installer window and look at it again.")))
        else stale l
  end.

(** *** Undoing: the list walked backwards *)
Definition undoOne (u : Undo) (st : bool * list wstr) : M W (bool * list wstr) :=
  let '(rollbackOk, retained) := st in
  match u with
  | RemoveDir a => _ ← RemoveDirectoryW a; mret st
  | DeleteFile a =>
      _ ← clearReadOnly a;
      w ← getM;
      if fileExists a w then gone ← DeleteFileW a; mret (rollbackOk && (gone : bool), retained) else mret st
  | MoveBack a b sha =>
      _ ← clearReadOnly a;
      moved ← MoveFileExW a b;
      if negb (moved : bool) then mret (false, retained ++ [a])
      else
        now ← sha256File b;
        if bool_decide (now = sha) then mret st else mret (false, retained ++ [a])
  | RestoreFile a b sha =>
      if bool_decide (b ∈ retained) then mret (false, retained)
      else
        _ ← clearReadOnly b;
        copied ← CopyFileW a b;
        if negb (copied : bool) then mret (false, retained)
        else
          now ← sha256File b;
          if negb (bool_decide (now = sha)) then mret (false, retained)
          else _ ← DeleteFileW a; mret st
  end.

Fixpoint rollback (us : list Undo) (st : bool * list wstr) : M W (bool * list wstr) :=
  match us with
  | [] => mret st
  | u :: us => st ← undoOne u st; rollback us st
  end.

Fixpoint dropSnapshots (us : list Undo) : M W unit :=
  match us with
  | [] => mret tt
  | RestoreFile a _ _ :: us => _ ← DeleteFileW a; dropSnapshots us
  | _ :: us => dropSnapshots us
  end.

Definition applyPlan (plan : Plan) (payload : PayloadProvider) : M W ApplyResult :=
  if blocked plan then mret (result0 <| error := lit "The plan is blocked; nothing was done." |>)
  else
    why ← stale (steps plan);
    match why with
    | Some text => mret (result0 <| error := text |>)
    | None =>
        w ← getM;
        let r := (runSteps (backupDir plan) payload (steps plan) (mkRun [] 0 false [] false [] w)).2 in
        _ ← modM (fun _ => os r);
        let result := result0 <| r_done := done r |> in
        if negb (failed r) then
          _ ← dropSnapshots (undo r);
          mret (result <| ok := true |>)
        else
          let message := lit "Could not finish: " ++ errorText (err r) ++ lit " (at " ++ toUtf8 (failedAt r) ++ lit ")" in
          st ← rollback (rev (undo r)) (true, []);
          let rollbackOk := (st : bool * list wstr).1 in
          mret (result <| error := if rollbackOk then message
                                   else message ++ lit " Recovery is incomplete; retained snapshots and backups must be kept." |>
                       <| rolledBack := rollbackOk |>
                       <| r_overwrote := overwrote r |>)
    end.

End Apply.

(** ** What the code relies on

    [files] is the content of every file; names are compared through [key], so two
    spellings of one path are one file.  A failed [CopyFileW] or [WriteFile] may
    leave its target with any content; a failed move, deletion or creation changes
    nothing.  [temporary] are the names [GetTempFileNameW] makes. *)
Definition except (k : wstr) (f g : gmap wstr str) : Prop := forall q, q <> k -> g !! q = f !! q.
Definition move (a b : wstr) (f : gmap wstr str) : gmap wstr str :=
  match f !! a with Some c => <[b := c]> (delete a f) | None => f end.

Class Win32Laws (W : Type) {win32 : Win32 W} := {
  key : wstr -> wstr;
  files : W -> gmap wstr str;
  temporary : wstr -> Prop;
  fileExists_files p w : fileExists p w = true <-> is_Some (files w !! key p);
  SetFileAttributesW_law p a w : wp (SetFileAttributesW p a) (fun _ w' => files w' = files w) w;
  CreateDirectoryW_law p w : wp (CreateDirectoryW p) (fun _ w' => files w' = files w) w;
  RemoveDirectoryW_law p w : wp (RemoveDirectoryW p) (fun _ w' => files w' = files w) w;
  DeleteFileW_law p w : wp (DeleteFileW p) (fun ok w' =>
    files w' = if ok : bool then delete (key p) (files w) else files w) w;
  CopyFileW_law a b w : wp (CopyFileW a b) (fun ok w' =>
    if ok : bool then exists c, files w !! key a = Some c /\ files w' = <[key b := c]> (files w)
    else except (key b) (files w) (files w')) w;
  MoveFileExW_law a b w : is_Some (files w !! key a) ->
    wp (MoveFileExW a b) (fun ok w' => files w' = if ok : bool then move (key a) (key b) (files w) else files w) w;
  GetTempFileNameW_law d w : wp (GetTempFileNameW d) (fun r w' =>
    match r with
    | Some n => files w !! key n = None /\ temporary (key n) /\ files w' = <[key n := []]> (files w)
    | None => files w' = files w
    end) w;
  temporary_new k p : temporary k -> k <> key (newName p);
  CreateFileW_law p w : wp (CreateFileW p) (fun ok w' =>
    if ok : bool then files w' = <[key p := []]> (files w) else except (key p) (files w) (files w')) w;
  WriteFile_law p c d w : files w !! key p = Some c ->
    wp (WriteFile p d) (fun r w' =>
      if (r : bool * nat).1 then (r.2 <= length d)%nat /\ files w' = <[key p := c ++ take r.2 d]> (files w)
      else except (key p) (files w) (files w')) w;
  FlushFileBuffers_law p w : wp (FlushFileBuffers p) (fun _ w' => files w' = files w) w;
  CloseHandle_law p w : wp (CloseHandle p) (fun _ w' => files w' = files w) w;
  sha256File_law p w : wp (sha256File p) (fun _ w' => files w' = files w) w }.

#[local] Arguments wp : simpl never.
Lemma wp_get {W} (Q : W -> W -> Prop) w : Q w w -> wp getM Q w.
Proof. done. Qed.

Lemma wp_use_both {W A} (m : M W A) (P Q R : A -> W -> Prop) w :
  wp m P w -> wp m Q w -> (forall a w', P a w' -> Q a w' -> R a w') -> wp m R w.
Proof. unfold wp. destruct (m w). auto. Qed.

Lemma wp_win {W A} (m : M W A) Q (r : Run W) : wp m (fun a w' => Q a (r <| os := w' |>)) (os r) -> wp (win m) Q r.
Proof. unfold wp, win, liftM. by destruct (m (os r)). Qed.
Lemma wp_peek {W A} (f : W -> A) Q (r : Run W) : Q (f (os r)) r -> wp (ask f) Q r.
Proof. done. Qed.
Lemma wp_mod {W} (f : Run W -> Run W) Q (r : Run W) : Q tt (f r) -> wp (modM f) Q r.
Proof. done. Qed.

Ltac run :=
  match goal with
  | |- wp (_ ≫= _) _ _ => apply wp_bind
  | |- wp (mret _) _ _ => apply wp_ret
  | |- wp getM _ _ => apply wp_get
  | |- wp (ask _) _ _ => apply wp_peek
  | |- wp (modM _) _ _ => apply wp_mod
  | |- wp (pushUndo _) _ _ => apply wp_mod
  | |- wp (setErr _) _ _ => apply wp_mod
  | |- wp (say _) _ _ => apply wp_mod
  | |- wp (fail _ _) _ _ => apply wp_mod
  | |- wp (failErr _) _ _ => unfold failErr
  | |- wp (failLast _) _ _ => unfold failLast
  | |- wp (if ?b then _ else _) _ _ => destruct b eqn:?
  | |- wp (match ?x with _ => _ end) _ _ => destruct x eqn:?
  end.

Ltac use_wp L := eapply wp_mono; [apply L | ].

Lemma wp_result {W A} (m : M W A) w : wp m (fun a _ => a = (m w).1) w.
Proof. unfold wp. by destruct (m w). Qed.

Section Laws.
Context {W : Type} {win32 : Win32 W} {laws : Win32Laws W} {utf8 : Utf8}.
Implicit Types (f g : gmap wstr str) (w : W).

Lemma fileExists_false p w : fileExists p w = false <-> files w !! key p = None.
Proof.
  rewrite <- not_true_iff_false, fileExists_files. rewrite <- eq_None_not_Some. done.
Qed.

Lemma clearReadOnly_wp p w : wp (clearReadOnly p) (fun _ w' => files w' = files w) w.
Proof.
  unfold clearReadOnly. apply wp_bind, wp_get.
  repeat wp_base; try done. eapply wp_mono; [apply SetFileAttributesW_law|]. done.
Qed.

(** ** Writing one file: all of it or nothing *)
Lemma chunkSize_pos : (0 < chunkSize)%nat.
Proof. unfold chunkSize. change 0%nat with (Z.to_nat 0). apply Z2Nat.inj_lt; lia. Qed.
#[local] Opaque chunkSize.

Lemma length_chunk d : d <> [] -> (0 < length (chunkOf d) <= length d)%nat.
Proof. unfold chunkOf. destruct d; [done|]. pose proof chunkSize_pos. case_match; simpl in *; [lia|]. intros _. destruct chunkSize; simpl; [lia|]. rewrite length_take. lia. Qed.

Lemma take_chunk n d : (n <= length (chunkOf d))%nat -> take n (chunkOf d) = take n d.
Proof. unfold chunkOf. case_match; [done|]. rewrite length_take. intros. rewrite take_take. f_equal. lia. Qed.

Lemma except_refl k f : except k f f.
Proof. done. Qed.
Lemma except_trans k f g h : except k f g -> except k g h -> except k f h.
Proof. intros H1 H2 q Hq. rewrite H2, H1; done. Qed.
Lemma except_insert k c f : except k f (<[k := c]> f).
Proof. intros q Hq. by rewrite lookup_insert_ne. Qed.
Lemma except_delete k f : except k f (delete k f).
Proof. intros q Hq. by rewrite lookup_delete_ne. Qed.

(** The loop ends within one turn per byte, with every byte written or with the
    temporary file gone or left over. *)
Lemma writeChunks_wp fuel : forall temp c d w, (length d <= fuel)%nat -> files w !! key temp = Some c ->
  wp (writeChunks fuel temp d) (fun r w' =>
    match r with
    | Complete => files w' = <[key temp := c ++ d]> (files w)
    | WriteFailed _ => except (key temp) (files w) (files w')
    | OutOfFuel => False
    end) w.
Proof.
  induction fuel as [|n IH]; intros temp c d w Hl Hc; destruct d as [|x d]; simpl in *; try lia.
  1,2: apply wp_ret; rewrite app_nil_r; by rewrite insert_id.
  apply wp_bind. eapply wp_mono; [by apply (WriteFile_law temp c)|].
  intros [good k] w1 Hw. simpl in Hw. wp_base.
  - apply wp_bind, wp_get.
    apply wp_bind. eapply wp_mono; [apply CloseHandle_law|]. intros ? w2 H2; simpl in H2.
    apply wp_bind. eapply wp_mono; [apply DeleteFileW_law|]. intros gone w3 H3. apply wp_ret.
    assert (except (key temp) (files w) (files w1)).
    { destruct good; [|done]. destruct Hw as [_ ->]. apply except_insert. }
    rewrite H3, H2. destruct gone; [|done]. eapply except_trans; [done|]. apply except_delete.
  - apply orb_false_iff in Heqb as [Hg Hk]. apply negb_false_iff in Hg as ->. apply Nat.eqb_neq in Hk.
    destruct Hw as [Hk' Hf]. pose proof (length_chunk (x :: d) ltac:(done)).
    eapply wp_mono; [apply (IH temp (c ++ take k (x :: d)))|].
    + change (length (drop k (x :: d)) <= n)%nat. rewrite length_drop. simpl. lia.
    + rewrite Hf, take_chunk by done. apply lookup_insert_eq.
    + simpl. intros [] w2; [|intros He; eapply except_trans; [|exact He]; rewrite Hf; apply except_insert|done].
      intros ->. rewrite Hf, insert_insert_eq. by rewrite <- app_assoc, take_drop.
Qed.

Definition newFile (k : wstr) : Prop := exists p, k = key (newName p).

Lemma writeWholeFile_wp p d w : key p <> key (newName p) ->
  wp (writeWholeFile p d) (fun e w' =>
    match e with
    | None => files w' = <[key p := d]> (delete (key (newName p)) (files w))
    | Some _ => except (key (newName p)) (files w) (files w')
    end) w.
Proof.
  intros Hp. unfold writeWholeFile.
  apply wp_bind. eapply wp_mono; [apply CreateFileW_law|]. intros [] w1 H1; simpl; [|by repeat wp_base].
  apply wp_bind. eapply wp_mono; [apply (writeChunks_wp _ _ []); [done|]|].
  { rewrite H1. apply lookup_insert_eq. }
  intros [] w2 H2; simpl in H2; [|apply wp_ret|done].
  2:{ eapply except_trans; [|exact H2]. rewrite H1. apply except_insert. }
  apply wp_bind. eapply wp_mono; [apply FlushFileBuffers_law|]. intros ? w3 H3; simpl in H3.
  apply wp_bind. eapply wp_mono; [apply CloseHandle_law|]. intros ? w4 H4; simpl in H4.
  assert (files w4 = <[key (newName p) := d]> (files w)) as E.
  { rewrite H4, H3, H2, H1. apply insert_insert_eq. }
  apply wp_bind. eapply wp_mono; [apply MoveFileExW_law|].
  { rewrite E, lookup_insert_eq. eauto. }
  intros [] w5 H5; simpl.
  - apply wp_ret. rewrite H5, E. unfold move. rewrite lookup_insert_eq. f_equal.
    apply delete_insert_eq.
  - apply wp_bind, wp_get. apply wp_bind. eapply wp_mono; [apply DeleteFileW_law|].
    intros gone w6 H6. apply wp_ret. rewrite H6, H5, E. destruct gone.
    + eapply except_trans; [apply except_insert|apply except_delete].
    + apply except_insert.
Qed.

(** ** The undo list as a function of the files

    [back us Q f]: undoing [us] (latest first) from the files [f] finds every
    snapshot and every moved file it needs, and ends in files satisfying [Q]. *)
Definition junk (k : wstr) : Prop := temporary k \/ newFile k.

Definition snapOf (u : Undo) : option wstr := match u with RestoreFile a _ _ => Some (key a) | _ => None end.
Definition snapsOf (us : list Undo) : list wstr := omap snapOf us.

Fixpoint back (us : list Undo) (Q : gmap wstr str -> Prop) (f : gmap wstr str) : Prop :=
  match us with
  | [] => Q f
  | RemoveDir _ :: us => back us Q f
  | DeleteFile a :: us => back us Q (delete (key a) f)
  | MoveBack a b _ :: us => is_Some (f !! key a) /\ back us Q (move (key a) (key b) f)
  | RestoreFile a b _ :: us => exists c, f !! key a = Some c /\ back us Q (delete (key a) (<[key b := c]> f))
  end.

Section Undoing.
(** [copies]: where a [Backup] step writes.  No copy is a temporary file. *)
Context (copies : wstr -> Prop) (copies_kept : forall k, copies k -> ~ junk k).
(** The files at the start. *)
Context (start : gmap wstr str).

Definition itemOk (u : Undo) : Prop :=
  match u with
  | RemoveDir _ => True
  | DeleteFile a => ~ junk (key a)
  | MoveBack a b _ => ~ junk (key a) /\ ~ junk (key b) /\ ~ copies (key a) /\ ~ copies (key b)
  | RestoreFile a b _ => temporary (key a) /\ ~ junk (key b)
  end.

(** Every file is as at the start, temporary files and new copies apart. *)
Definition asFound (f : gmap wstr str) : Prop :=
  forall k, ~ junk k -> (copies k -> start !! k <> None) -> f !! k = start !! k.

(** Two states of the disk that undoing [us] does not tell apart. *)
Definition sim (us : list Undo) (f g : gmap wstr str) : Prop :=
  forall k, g !! k = f !! k \/ (junk k /\ k ∉ snapsOf us) \/ (copies k /\ f !! k = None).

Lemma asFound_sim f g : sim [] f g -> asFound f -> asFound g.
Proof.
  intros Hs Hf k Hj Hc. destruct (Hs k) as [-> | [[? _] | [Hk Hn]]]; [by apply Hf | done |].
  specialize (Hf k Hj Hc). rewrite Hn in Hf. by destruct (Hc Hk).
Qed.

Lemma sim_equal us f g k : sim us f g -> ~ junk k -> ~ copies k -> g !! k = f !! k.
Proof. intros Hs Hj Hc. destruct (Hs k) as [? | [[? _] | [? _]]]; done. Qed.

Lemma sim_tail u us f g : sim (u :: us) f g -> snapOf u = None -> sim us f g.
Proof.
  intros Hs Hu k. destruct (Hs k) as [? | [[? Hk] | ?]]; auto. right; left. split; [done|].
  unfold snapsOf in *. simpl in Hk. rewrite Hu in Hk. done.
Qed.

Lemma sim_insert us f g k c : sim us f g -> sim us (<[k := c]> f) (<[k := c]> g).
Proof.
  intros Hs q. destruct (decide (k = q)) as [->|Hq]; [left; by rewrite !lookup_insert_eq|].
  rewrite !lookup_insert_ne by done. apply Hs.
Qed.
Lemma sim_delete us f g k : sim us f g -> sim us (delete k f) (delete k g).
Proof.
  intros Hs q. destruct (decide (k = q)) as [->|Hq]; [left; by rewrite !lookup_delete_eq|].
  rewrite !lookup_delete_ne by done. apply Hs.
Qed.

Lemma snapsOf_cons a b sha us : snapsOf (RestoreFile a b sha :: us) = key a :: snapsOf us.
Proof. done. Qed.

Lemma sim_snap a b sha us f g : sim (RestoreFile a b sha :: us) f g -> temporary (key a) -> g !! key a = f !! key a.
Proof.
  intros Hs Ht. destruct (Hs (key a)) as [? | [[_ Hk] | [Hk _]]]; [done | |].
  - rewrite snapsOf_cons in Hk. set_solver.
  - destruct (copies_kept _ Hk). by left.
Qed.

Lemma back_sim us : forall f g, Forall itemOk us -> NoDup (snapsOf us) -> sim us f g ->
  back us asFound f -> back us asFound g.
Proof.
  induction us as [|u us IH]; intros f g Hok Hnd Hs Hb.
  { by eapply asFound_sim. }
  apply Forall_cons in Hok as [Hu Hok]. destruct u as [a|a|a b sha|a b sha]; simpl in *.
  - eapply IH; [done..| |exact Hb]. by eapply sim_tail.
  - eapply IH; [done..| |exact Hb]. apply sim_delete. by eapply sim_tail.
  - destruct Hu as (Ha & Hb' & Hca & Hcb), Hb as [Hm Hb].
    rewrite (sim_equal _ _ _ _ Hs Ha Hca). split; [done|].
    destruct Hm as [c Hm]. eapply IH; [done..| |exact Hb]. unfold move.
    rewrite (sim_equal _ _ _ _ Hs Ha Hca), Hm. apply sim_insert, sim_delete. by eapply sim_tail.
  - destruct Hu as [Ht Hjb], Hb as (c & Hc & Hb). exists c.
    rewrite (sim_snap _ _ _ _ _ _ Hs Ht). split; [done|].
    apply NoDup_cons in Hnd as [Hna Hnd]. eapply IH; [done..| |exact Hb].
    intros k. destruct (decide (key a = k)) as [->|Hk]; [left; by rewrite !lookup_delete_eq|].
    rewrite !lookup_delete_ne by done. destruct (decide (key b = k)) as [->|Hk'].
    { left. by rewrite !lookup_insert_eq. }
    rewrite !lookup_insert_ne by done. destruct (Hs k) as [? | [[? Hn] | ?]]; auto.
    right; left. split; [done|]. rewrite snapsOf_cons in Hn. set_solver.
Qed.

(** ** The rollback undoes what it says it undid *)
Lemma undoOne_false u ret w : wp (undoOne u (false, ret)) (fun st _ => st.1 = false) w.
Proof.
  unfold undoOne, wp, mbind, M_bind, mret, M_ret, getM. destruct u; simpl; repeat (case_match; simplify_eq/=; try done).
Qed.

Lemma rollback_false us : forall ret w, wp (rollback us (false, ret)) (fun st _ => st.1 = false) w.
Proof.
  induction us as [|u us IH]; intros ret w; [done|]. simpl. apply wp_bind.
  eapply wp_mono; [apply undoOne_false|]. intros [o ret'] w' Ho. simpl in Ho. subst. apply IH.
Qed.

Ltac ro := eapply wp_mono; [apply clearReadOnly_wp|]; intros ? ?w ?Hw; simpl in *.

(** One undo step from where the list says it can be undone: either it reports
    that it failed, or the rest of the list can be undone from where it ends. *)
Lemma undoOne_back u us w : Forall itemOk (u :: us) -> NoDup (snapsOf (u :: us)) -> back (u :: us) asFound (files w) ->
  wp (undoOne u (true, [])) (fun st w' => st.1 = false \/ (st = (true, []) /\ back us asFound (files w'))) w.
Proof.
  intros Hok Hnd Hb. apply Forall_cons in Hok as [Hu Hok]. destruct u as [a|a|a b sha|a b sha]; simpl in *.
  - apply wp_bind. eapply wp_mono; [apply RemoveDirectoryW_law|]. intros ? w1 H1. simpl in H1. apply wp_ret. right. by rewrite H1.
  - apply wp_bind. ro. apply wp_bind, wp_get. wp_base.
    + apply wp_bind. eapply wp_mono; [apply DeleteFileW_law|]. intros gone w1 H1. simpl in H1. apply wp_ret.
      destruct gone; [|by left]. right. by rewrite H1, Hw.
    + apply wp_ret. right. split; [done|]. apply fileExists_false in Heqb. rewrite Hw in *. by rewrite delete_id in Hb.
  - destruct Hb as [Hm Hb]. apply wp_bind. ro. apply wp_bind.
    eapply wp_mono; [apply MoveFileExW_law; by rewrite Hw|]. simpl. intros [] w1 H1; simpl; [|by left].
    apply wp_bind. eapply wp_mono; [apply sha256File_law|]. intros now w2 H2. simpl in H2.
    repeat wp_base; [right; by rewrite H2, H1, Hw | by left].
  - destruct Hb as (c & Hc & Hb). apply wp_bind. ro. apply wp_bind.
    eapply wp_mono; [apply CopyFileW_law|]. simpl. intros [] w1 H1; simpl; [|by left].
    destruct H1 as (c' & Hc' & H1). rewrite Hw, Hc in Hc'. injection Hc' as <-.
    apply wp_bind. eapply wp_mono; [apply sha256File_law|]. simpl. intros now w2 H2.
    repeat wp_base; [by left|]. eapply wp_mono; [apply DeleteFileW_law|].
    intros gone w3 H3. simpl in H3. apply wp_ret. right. split; [done|]. rewrite H3, H2, H1, Hw. destruct gone; [done|].
    destruct Hu as [Ht _]. apply NoDup_cons in Hnd as [Hna Hnd].
    eapply back_sim; [done..| |exact Hb]. intros k. destruct (decide (key a = k)) as [<-|Hk].
    + right; left. split; [by left | done].
    + left. by rewrite lookup_delete_ne.
Qed.

Lemma rollback_back us : forall w, Forall itemOk us -> NoDup (snapsOf us) -> back us asFound (files w) ->
  wp (rollback us (true, [])) (fun st w' => st.1 = true -> asFound (files w')) w.
Proof.
  induction us as [|u us IH]; intros w Hok Hnd Hb; [by apply wp_ret|]. simpl. apply wp_bind.
  eapply wp_mono; [by apply (undoOne_back u us)|]. intros [o ret] w1 [Ho | [E Hb1]].
  - simpl in Ho. subst. eapply wp_mono; [apply rollback_false|]. intros st ? Hf Ht. simpl in Hf. congruence.
  - injection E as -> ->. apply IH; [by apply Forall_cons in Hok as [_ ?] | | done].
    destruct u; try done. rewrite snapsOf_cons in Hnd. by apply NoDup_cons in Hnd as [_ ?].
Qed.

(** ** Every step keeps the folder recoverable *)
Record Inv (us : list Undo) (f : gmap wstr str) : Prop := {
  inv_back : back us asFound f;
  inv_items : Forall itemOk us;
  inv_distinct : NoDup (snapsOf us);
  inv_snaps : forall k, k ∈ snapsOf us -> is_Some (f !! k) /\ temporary k }.

Lemma snap_of_back us f g : (forall k, k ∈ snapsOf us -> g !! k = f !! k) ->
  (forall k, k ∈ snapsOf us -> is_Some (f !! k) /\ temporary k) ->
  forall k, k ∈ snapsOf us -> is_Some (g !! k) /\ temporary k.
Proof. intros H1 H2 k Hk. rewrite H1 by done. by apply H2. Qed.

Lemma inv_at_start : Inv [] start.
Proof. split; simpl; [done | constructor | constructor | set_solver]. Qed.

Lemma inv_snap_present us f a b sha : Inv (RestoreFile a b sha :: us) f -> is_Some (f !! key a) /\ temporary (key a).
Proof. intros HI. apply (inv_snaps _ _ HI). rewrite snapsOf_cons. set_solver. Qed.

(** Temporary files other than the snapshots, and a copy where no file was. *)
Lemma inv_sim us f g : Inv us f -> sim us f g -> Inv us g.
Proof.
  intros [Hb Hi Hd Hs] Hsim. split; [by eapply back_sim | done | done |].
  eapply snap_of_back; [|done]. intros k Hk. destruct (Hs k Hk) as [_ Ht].
  destruct (Hsim k) as [? | [[_ ?] | [Hc _]]]; [done | done |]. destruct (copies_kept k Hc). by left.
Qed.

Lemma inv_junk us f g k : Inv us f -> junk k -> k ∉ snapsOf us -> except k f g -> Inv us g.
Proof.
  intros HI Hj Hk He. eapply inv_sim; [done|]. intros q. destruct (decide (q = k)) as [->|Hq]; [auto|].
  left. by apply He.
Qed.

Lemma inv_copy us f g k : Inv us f -> copies k -> f !! k = None -> except k f g -> Inv us g.
Proof.
  intros HI Hj Hk He. eapply inv_sim; [done|]. intros q. destruct (decide (q = k)) as [->|Hq]; [auto|].
  left. by apply He.
Qed.

Lemma inv_removeDir us f a : Inv us f -> Inv (RemoveDir a :: us) f.
Proof. intros [Hb Hi Hd Hs]. split; simpl; [done | by constructor | done | done]. Qed.

Lemma inv_snapshot us f t b c sha : Inv us f -> f !! key t = None -> temporary (key t) -> f !! key b = Some c ->
  ~ junk (key b) -> Inv (RestoreFile t b sha :: us) (<[key t := c]> f).
Proof.
  intros [Hb Hi Hd Hs] Hn Ht Hc Hj. assert (key t <> key b) by congruence.
  assert (key t ∉ snapsOf us) as Hnt. { intros Hk. destruct (Hs _ Hk) as [[? ?] _]. congruence. }
  split.
  - simpl. exists c. rewrite lookup_insert_eq. split; [done|].
    rewrite (insert_id (<[key t := c]> f) (key b)) by (by rewrite lookup_insert_ne).
    by rewrite delete_insert_id.
  - by constructor.
  - rewrite snapsOf_cons. by constructor.
  - intros k. rewrite snapsOf_cons. intros [->|Hk]%elem_of_cons.
    + rewrite lookup_insert_eq. eauto.
    + rewrite lookup_insert_ne; [by apply Hs|]. intros Heq. by rewrite Heq in Hnt.
Qed.

(** A protected file may then change in any way. *)
Lemma inv_overwrite us f g a b sha : Inv (RestoreFile a b sha :: us) f -> except (key b) f g ->
  Inv (RestoreFile a b sha :: us) g.
Proof.
  intros HI He. pose proof HI as [Hb Hi Hd Hs].
  apply Forall_cons in Hi as [[Ht Hj] _]. split; [| by apply (inv_items _ _ HI) | done |].
  - destruct Hb as (c & Hc & Hb). exists c. rewrite He.
    2:{ intros Heq. apply Hj. rewrite <- Heq. by left. }
    split; [done|]. replace (<[key b := c]> g) with (<[key b := c]> f); [done|].
    apply map_eq. intros q. destruct (decide (q = key b)) as [->|Hq]; [by rewrite !lookup_insert_eq|].
    rewrite !lookup_insert_ne by done. by rewrite He.
  - eapply snap_of_back; [|done]. intros k Hk. apply He. intros ->. apply Hj. left. by apply (Hs (key b)).
Qed.

Lemma inv_create us f b c : Inv us f -> f !! key b = None -> ~ junk (key b) ->
  Inv (DeleteFile b :: us) (<[key b := c]> f).
Proof.
  intros [Hb Hi Hd Hs] Hn Hj. split; simpl; [by rewrite delete_insert_id | by constructor | done |].
  intros k Hk. destruct (Hs k Hk) as [? ?]. rewrite lookup_insert_ne; [done|]. intros Heq. apply Hj. rewrite Heq. by left.
Qed.

Definition protected (us : list Undo) (f : gmap wstr str) (b : wstr) : Prop :=
  f !! key b = None \/ exists a sha us', us = RestoreFile a b sha :: us'.

Lemma move_back_except a b f c : f !! a = Some c ->
  except b f (move b a (move a b f)) /\ (f !! b = None -> move b a (move a b f) = f).
Proof.
  intros Hc. unfold move at 2 4. rewrite Hc. unfold move. rewrite lookup_insert_eq. split.
  - intros q Hq. destruct (decide (q = a)) as [->|Ha]; [by rewrite lookup_insert_eq|].
    by rewrite lookup_insert_ne, lookup_delete_ne, lookup_insert_ne, lookup_delete_ne.
  - intros Hb. assert (a <> b) by congruence. apply map_eq. intros q.
    destruct (decide (q = a)) as [->|Ha]; [by rewrite lookup_insert_eq|]. rewrite lookup_insert_ne by done.
    destruct (decide (q = b)) as [->|Hq]; [by rewrite lookup_delete_eq|].
    by rewrite lookup_delete_ne, lookup_insert_ne, lookup_delete_ne.
Qed.

Lemma inv_move us f a b c sha : Inv us f -> f !! key a = Some c -> protected us f b ->
  itemOk (MoveBack b a sha) -> Inv (MoveBack b a sha :: us) (move (key a) (key b) f).
Proof.
  intros HI Hc Hp Hok. destruct (move_back_except _ (key b) _ _ Hc) as [He Hid].
  assert (Inv us (move (key b) (key a) (move (key a) (key b) f))) as HI'.
  { destruct Hp as [Hn | (s & sh & us' & ->)]; [by rewrite Hid | by eapply inv_overwrite]. }
  split; simpl.
  - split; [|by apply HI']. unfold move. rewrite Hc, lookup_insert_eq. eauto.
  - constructor; [done | by apply HI].
  - by apply HI.
  - intros k Hk. destruct (inv_snaps _ _ HI k Hk) as [Hs Ht]. split; [|done].
    destruct Hok as (Hb & Ha & _). unfold move. rewrite Hc. rewrite lookup_insert_ne, lookup_delete_ne.
    + exact Hs.
    + intros Heq. apply Ha. rewrite Heq. by left.
    + intros Heq. apply Hb. rewrite Heq. by left.
Qed.

(** *** Steps of a run *)
Definition RInv (r : Run W) : Prop := Inv (rev (undo r)) (files (os r)).
Definition tracks (f g : gmap wstr str) : Prop := forall k, ~ junk k -> g !! k = f !! k.
(** What happens around a step: temporary files and directories only. *)
Definition quiet (r r' : Run W) : Prop :=
  RInv r' /\ tracks (files (os r)) (files (os r')) /\ failed r' = failed r.

Lemma quiet_refl r : RInv r -> quiet r r.
Proof. done. Qed.
Lemma quiet_trans r1 r2 r3 : quiet r1 r2 -> quiet r2 r3 -> quiet r1 r3.
Proof. intros (_ & T1 & F1) (I2 & T2 & F2). split; [done|]. split; [|congruence]. intros k Hk. by rewrite T2, T1. Qed.

Lemma tracks_except f g k : junk k -> except k f g -> tracks f g.
Proof. intros Hj He q Hq. apply He. by intros ->. Qed.

(** A call that changes no file. *)
Lemma quiet_win {A} (m : M W A) (r0 r : Run W) : (forall w, wp m (fun _ w' => files w' = files w) w) ->
  quiet r0 r -> wp (win m) (fun _ r' => quiet r0 r' /\ files (os r') = files (os r) /\ undo r' = undo r) r.
Proof.
  intros Hm Hq. apply wp_win. eapply wp_mono; [apply Hm|]. intros a w' E. simpl in E.
  destruct Hq as (HI & HT & HF). unfold quiet, RInv in *. simpl. rewrite E. done.
Qed.

Lemma ensureDirTree_wp fuel : forall path record r0 r, quiet r0 r ->
  wp (ensureDirTree fuel path record) (fun _ r' => quiet r0 r' /\ files (os r') = files (os r)) r.
Proof.
  induction fuel as [|n IH]; intros path record r0 r Hq; simpl; run; run; run; [by run| |by run|].
  - run. destruct (lastSlash path) as [[]|]; run; simpl; run.
    all: eapply wp_mono; [by apply (quiet_win _ r0 r (CreateDirectoryW_law path))|].
    all: intros made r1 (Hq1 & Hf1 & Hu1); repeat run; try done.
    all: destruct Hq1 as (HI & HT & HF); split; [|done]; split; [|done].
    all: unfold RInv in *; simpl; rewrite rev_unit; by apply inv_removeDir.
  - run. apply (wp_mono _ (fun _ r' => quiet r0 r' /\ files (os r') = files (os r))).
    { destruct (lastSlash path) as [[parent ?]|]; [|by run]. run; [by apply IH | by run]. }
    intros up r1 [Hq1 Hf1]. run; [by run|]. run.
    eapply wp_mono; [by apply (quiet_win _ r0 r1 (CreateDirectoryW_law path))|].
    intros made r2 (Hq2 & Hf2 & Hu2); repeat run; simpl; try (split; [done|]; congruence).
    destruct Hq2 as (HI & HT & HF). split; [|simpl; congruence]. split; [|done].
    unfold RInv in *. simpl. rewrite rev_unit. by apply inv_removeDir.
Qed.


Definition snapTaken (us : list Undo) (f : gmap wstr str) (t b : wstr) : Prop :=
  exists g c, Inv us g /\ g !! key t = None /\ temporary (key t) /\ g !! key b = Some c /\ f = <[key t := c]> g.

(** A temporary file that is not a snapshot may take any content. *)
Lemma quiet_except (r0 r : Run W) t w' : quiet r0 r -> temporary (key t) -> key t ∉ snapsOf (rev (undo r)) ->
  except (key t) (files (os r)) (files w') -> quiet r0 (r <| os := w' |>).
Proof.
  intros (HI & HT & HF) Ht Hn He. split; [|split; [|done]].
  - eapply inv_junk; [exact HI | by left | done | done].
  - intros k Hk. simpl. rewrite (tracks_except _ _ _ (or_introl Ht) He k Hk). by apply HT.
Qed.

Lemma delete_except t w : wp (DeleteFileW t) (fun _ w' => except (key t) (files w) (files w')) w.
Proof. use_wp (DeleteFileW_law t w). intros [] w' E; simpl in E; rewrite E; [apply except_delete | done]. Qed.

Lemma copy_except a b w : wp (CopyFileW a b) (fun _ w' => except (key b) (files w) (files w')) w.
Proof.
  use_wp (CopyFileW_law a b w). intros [] w' E; simpl in E; [|done].
  destruct E as (? & _ & ->). apply except_insert.
Qed.

Definition snapPost (r0 : Run W) (source : wstr) (res : bool * wstr) (r' : Run W) : Prop :=
  quiet r0 r' /\ (res.1 = true -> snapTaken (rev (undo r')) (files (os r')) res.2 source).

(** Giving up after the name was made. *)
Lemma abandon_wp r0 source t r : quiet r0 r -> temporary (key t) -> key t ∉ snapsOf (rev (undo r)) ->
  wp (_ ← win (DeleteFileW t); mret (false, t)) (snapPost r0 source) r.
Proof.
  intros Hq Ht Hn. run. apply wp_win. use_wp (delete_except t). intros ? w' He. run.
  split; [by eapply quiet_except | done].
Qed.

Lemma snapshotChecks_wp r0 source t r : quiet r0 r -> temporary (key t) -> key t ∉ snapsOf (rev (undo r)) ->
  snapTaken (rev (undo r)) (files (os r)) t source ->
  wp (expected ← win (sha256File source);
      if sempty expected then _ ← setErr ERROR_CRC; _ ← win (DeleteFileW t); mret (false, t)
      else
        got ← win (sha256File t);
        if bool_decide (got = expected) then mret (true, t)
        else _ ← setErr ERROR_CRC; _ ← win (DeleteFileW t); mret (false, t)) (snapPost r0 source) r.
Proof.
  intros Hq Ht Hn Hs. run. use_wp (quiet_win _ r0 r (sha256File_law source) Hq). intros expected r1 (Hq1 & Hf1 & Hu1).
  run; [do 2 run; apply abandon_wp; simpl; by rewrite ?Hu1|].
  run. use_wp (quiet_win _ r0 r1 (sha256File_law t) Hq1). intros got r2 (Hq2 & Hf2 & Hu2).
  run; [run | do 2 run; apply abandon_wp; simpl; by rewrite ?Hu2, ?Hu1].
  split; [done|]. simpl. by rewrite Hu2, Hu1, Hf2, Hf1.
Qed.

Lemma snapshotFile_wp source backups r0 r : quiet r0 r -> ~ junk (key source) -> fileExists source (os r) = true ->
  wp (snapshotFile source backups) (snapPost r0 source) r.
Proof.
  intros Hq Hj Hex. unfold snapshotFile. do 2 run. rewrite Hex. simpl. run.
  set (d := if wempty backups then _ else _). use_wp (ensureDirTree_wp (length d) d false r0 r Hq).
  intros made r1 [Hq1 Hf1]. run; [repeat run; done|]. run.
  apply wp_win. use_wp GetTempFileNameW_law. intros [t|] w2 H2; simpl in H2.
  2:{ repeat run. destruct Hq1 as (HI & HT & HF). split; [|done]. unfold quiet, RInv in *. simpl. by rewrite H2. }
  destruct H2 as (Hn & Ht & H2). pose proof Hq1 as (HI1 & _ & _).
  assert (key t ∉ snapsOf (rev (undo r1))) as Hnt.
  { intros Hk. destruct (inv_snaps _ _ HI1 _ Hk) as [[? ?] _]. congruence. }
  assert (quiet r0 (r1 <| os := w2 |>)) as Hq2 by (eapply quiet_except; [done..|]; rewrite H2; apply except_insert).
  run. apply wp_win. simpl. eapply wp_use_both; [apply copy_except | apply CopyFileW_law |].
  intros copied w3 He3 H3. simpl in H3.
  pose proof (quiet_except _ (r1 <| os := w2 |>) _ w3 Hq2 Ht Hnt He3) as Hq3.
  destruct copied; simpl; [|do 4 run; by apply abandon_wp].
  apply snapshotChecks_wp; [done..|]. destruct H3 as (c & Hc & H3).
  apply fileExists_files in Hex as [c0 Hc0]. assert (key t <> key source) by (rewrite <- Hf1 in Hc0; congruence).
  exists (files (os r1)), c. simpl. rewrite H3, H2, insert_insert_eq. split_and!; try done.
  by rewrite H2, lookup_insert_ne in Hc.
Qed.

Lemma protectTarget_wp backups target r0 r : quiet r0 r -> ~ junk (key target) ->
  wp (protectTarget backups target) (fun safe r' => quiet r0 r' /\
    (safe = true -> protected (rev (undo r')) (files (os r')) target)) r.
Proof.
  intros Hq Hj. unfold protectTarget. do 2 run. destruct (fileExists target (os r)) eqn:Hex; simpl.
  2:{ run. split; [done|]. intros _. left. by apply fileExists_false. }
  run. use_wp (snapshotFile_wp target backups r0 r Hq Hj Hex). intros [good t] r1 [Hq1 Hs1]. simpl in *.
  destruct good; simpl; [|by run]. specialize (Hs1 eq_refl).
  run. use_wp (quiet_win _ r0 r1 (sha256File_law t) Hq1). intros sha r2 (Hq2 & Hf2 & Hu2).
  do 3 run. split.
  - destruct Hq2 as (HI2 & HT2 & HF2). split; [|done]. unfold RInv. simpl. rewrite rev_unit.
    destruct Hs1 as (g & c & Hg & Hn & Ht & Hc & E). rewrite Hu2, Hf2, E. by apply inv_snapshot.
  - intros _. right. simpl. rewrite rev_unit. eauto.
Qed.

(** A step of a well-formed plan names no temporary file, and renames nothing
    from or to where a copy goes. *)
Definition okStep (st : Step) : Prop :=
  match action st with
  | MakeDir => True
  | Backup => ~ junk (key (from st)) /\ copies (key (to st))
  | Rename => ~ junk (key (from st)) /\ ~ junk (key (to st)) /\ ~ copies (key (from st)) /\ ~ copies (key (to st))
  | WritePayload | WriteText => ~ junk (key (to st))
  | Delete => ~ junk (key (from st))
  end.

Lemma tracks_insert f g k c : tracks f g -> tracks (<[k := c]> f) (<[k := c]> g).
Proof.
  intros HT q Hq. destruct (decide (k = q)) as [->|?]; [by rewrite !lookup_insert_eq|].
  rewrite !lookup_insert_ne by done. by apply HT.
Qed.
Lemma tracks_delete f g k : tracks f g -> tracks (delete k f) (delete k g).
Proof.
  intros HT q Hq. destruct (decide (k = q)) as [->|?]; [by rewrite !lookup_delete_eq|].
  rewrite !lookup_delete_ne by done. by apply HT.
Qed.
Lemma tracks_move f g a b : tracks f g -> ~ junk a -> tracks (move a b f) (move a b g).
Proof.
  intros HT Ha. unfold move. rewrite (HT a Ha). case_match; [|done]. by apply tracks_insert, tracks_delete.
Qed.
Lemma tracks_refl f : tracks f f.
Proof. done. Qed.
Lemma tracks_trans f g h : tracks f g -> tracks g h -> tracks f h.
Proof. intros H1 H2 k Hk. by rewrite H2, H1. Qed.

(** A step's outcome: recoverable, and if it did not fail, what was asked for. *)
Definition stepPost (want : option (gmap wstr str)) (r' : Run W) : Prop :=
  RInv r' /\ (failed r' = false -> exists g, want = Some g /\ tracks g (files (os r'))).

Lemma post_failed want r : RInv r -> failed r = true -> stepPost want r.
Proof. intros HI HF. split; [done | congruence]. Qed.

Lemma except_overwrite us f g b : Inv us f -> protected us f b -> copies (key b) \/ f !! key b <> None ->
  except (key b) f g -> Inv us g.
Proof.
  intros HI [Hn | (a & sha & us' & ->)] Hc He; [|by eapply inv_overwrite].
  destruct Hc as [Hc|]; [|done]. by eapply inv_copy.
Qed.

Lemma failLast_wp want what r : RInv r -> wp (failLast what) (fun _ r' => stepPost want r') r.
Proof. intros HI. unfold failLast. do 3 run. by apply post_failed. Qed.
Lemma failErr_wp want what r : RInv r -> wp (failErr what) (fun _ r' => stepPost want r') r.
Proof. intros HI. unfold failErr. do 3 run. by apply post_failed. Qed.

Lemma doMakeDir_wp st r : RInv r -> wp (doMakeDir st) (fun _ r' => stepPost (Some (files (os r))) r') r.
Proof.
  intros HI. unfold doMakeDir. run. use_wp (ensureDirTree_wp (length (to st)) (to st) true r r); [done|].
  intros made r1 [(HI1 & HT1 & _) _]. run; [run|by apply failLast_wp]. split; [done|]. eauto.
Qed.

Definition copySpec (f : gmap wstr str) (st : Step) : option (gmap wstr str) :=
  match f !! key (from st) with
  | Some c => Some (<[key (to st) := c]> f)
  | None => if required st then None else Some f
  end.
Definition renameSpec (f : gmap wstr str) (st : Step) : option (gmap wstr str) :=
  match f !! key (from st) with
  | Some _ => Some (move (key (from st)) (key (to st)) f)
  | None => if required st then None else Some f
  end.

Lemma doBackup_wp backups st r : RInv r -> ~ junk (key (from st)) -> copies (key (to st)) ->
  wp (doBackup backups st) (fun _ r' => stepPost (copySpec (files (os r)) st) r') r.
Proof.
  intros HI Hjf Hct. unfold doBackup. run.
  apply (wp_mono _ (fun _ r' => quiet r r' /\ files (os r') = files (os r))).
  { destruct (dirOf (to st)) as [d|]; [|by run]. by apply ensureDirTree_wp. }
  intros ? r1 [Hq1 Hf1]. do 2 run. unfold copySpec. run.
  { apply negb_true_iff, fileExists_false in Heqb. rewrite Hf1 in Heqb. rewrite Heqb. pose proof Hq1 as (HI1 & HT1 & _).
    run; [run; by apply post_failed | run; split; [done|eauto]]. }
  apply negb_false_iff, fileExists_files in Heqb as [c Hc].
  run. use_wp (quiet_win _ r r1 (clearReadOnly_wp (to st)) Hq1). intros ? r2 (Hq2 & Hf2 & _).
  run. use_wp (protectTarget_wp backups (to st) r r2 Hq2 (copies_kept _ Hct)).
  intros safe r3 [(HI3 & HT3 & HF3) Hp]. destruct safe; simpl; [|by apply failErr_wp].
  specialize (Hp eq_refl). run. apply wp_win. eapply wp_use_both; [apply copy_except | apply CopyFileW_law |].
  intros copied r4 He H4. simpl in He, H4.
  assert (RInv (r3 <| os := r4 |>)) as HI4 by (eapply except_overwrite; eauto).
  destruct copied; simpl; [|by apply failLast_wp]. run. split; [done|]. intros _.
  destruct H4 as (c' & Hc' & H4). rewrite (HT3 _ Hjf) in Hc'. rewrite Hc'. eexists; split; [done|].
  simpl. rewrite H4. by apply tracks_insert.
Qed.

Lemma doRename_wp backups st r : RInv r -> ~ junk (key (from st)) -> ~ junk (key (to st)) ->
  ~ copies (key (from st)) -> ~ copies (key (to st)) ->
  wp (doRename backups st) (fun _ r' => stepPost (renameSpec (files (os r)) st) r') r.
Proof.
  intros HI Hjf Hjt Hcf Hct. unfold doRename. do 2 run. unfold renameSpec. run.
  { apply negb_true_iff, fileExists_false in Heqb. rewrite Heqb.
    run; [run; by apply post_failed | run; split; [done|eauto using tracks_refl]]. }
  apply negb_false_iff, fileExists_files in Heqb as [c Hc].
  run. use_wp (quiet_win _ r r (clearReadOnly_wp (from st)) (quiet_refl _ HI)). intros ? r1 (Hq1 & _ & _).
  run. use_wp (quiet_win _ r r1 (clearReadOnly_wp (to st)) Hq1). intros ? r2 (Hq2 & _ & _).
  run. use_wp (protectTarget_wp backups (to st) r r2 Hq2 Hjt).
  intros safe r3 [Hq3 Hp]. destruct safe; simpl; [|apply failErr_wp; apply Hq3].
  specialize (Hp eq_refl). run. use_wp (quiet_win _ r r3 (sha256File_law (from st)) Hq3). intros before r4 ((HI4 & HT4 & HF4) & Hf4 & Hu4).
  run; [run; by apply post_failed|]. rewrite <- Hu4, <- Hf4 in Hp.
  assert (files (os r4) !! key (from st) = Some c) as Hc4 by (by rewrite (HT4 _ Hjf)).
  run. apply wp_win. use_wp MoveFileExW_law; [eauto|]. intros moved r5 H5. simpl in H5.
  destruct moved; simpl.
  - do 3 run. split.
    + unfold RInv. simpl. rewrite rev_unit, H5. by eapply inv_move.
    + intros _. rewrite Hc. eexists; split; [done|]. simpl. rewrite H5. by apply tracks_move.
  - apply failLast_wp. unfold RInv in *. simpl. by rewrite H5.
Qed.

Lemma doDelete_wp backups st r : RInv r -> ~ junk (key (from st)) ->
  wp (doDelete backups st) (fun _ r' => stepPost (Some (delete (key (from st)) (files (os r)))) r') r.
Proof.
  intros HI Hj. unfold doDelete. do 2 run. run.
  { apply negb_true_iff, fileExists_false in Heqb. run. split; [done|]. intros _. eexists; split; [done|].
    by rewrite delete_id. }
  apply negb_false_iff, fileExists_files in Heqb as [c Hc].
  run. use_wp (quiet_win _ r r (clearReadOnly_wp (from st)) (quiet_refl _ HI)). intros ? r1 (Hq1 & _ & _).
  run. use_wp (protectTarget_wp backups (from st) r r1 Hq1 Hj).
  intros safe r2 [(HI2 & HT2 & HF2) Hp]. destruct safe; simpl; [|by apply failErr_wp]. specialize (Hp eq_refl).
  run. apply wp_win. use_wp DeleteFileW_law. intros gone r3 H3. simpl in H3. destruct gone; simpl.
  - run. split.
    + eapply except_overwrite; [done|done| |]; simpl; rewrite ?H3; [|apply except_delete].
      right. by rewrite (HT2 _ Hj), Hc.
    + intros _. eexists; split; [done|]. simpl. rewrite H3. by apply tracks_delete.
  - apply failLast_wp. unfold RInv in *. simpl. by rewrite H3.
Qed.

Lemma newName_junk p : junk (key (newName p)).
Proof. right. by exists p. Qed.
Lemma newName_snap us f p : Inv us f -> key (newName p) ∉ snapsOf us.
Proof. intros HI Hk. destruct (inv_snaps _ _ HI _ Hk) as [_ Ht]. by eapply temporary_new. Qed.

Lemma doWrite_wp backups st data r : RInv r -> ~ junk (key (to st)) ->
  wp (doWrite backups st data) (fun _ r' => stepPost (Some (<[key (to st) := data]> (files (os r)))) r') r.
Proof.
  intros HI Hj. unfold doWrite. do 2 run.
  run. use_wp (quiet_win _ r r (clearReadOnly_wp (to st)) (quiet_refl _ HI)). intros ? r1 (Hq1 & Hf1 & _).
  run. apply (wp_mono _ (fun safe r' => quiet r r' /\ (safe = true -> protected (rev (undo r')) (files (os r')) (to st)))).
  { run; [by apply protectTarget_wp|]. run. split; [done|]. intros _. left. rewrite Hf1. by apply fileExists_false. }
  intros safe r2 [(HI2 & HT2 & HF2) Hp]. destruct safe; simpl; [|by apply failErr_wp]. specialize (Hp eq_refl).
  assert (key (to st) <> key (newName (to st))) as Hne by (intros E; apply Hj; rewrite E; apply newName_junk).
  run. apply wp_win. use_wp (writeWholeFile_wp (to st) data (os r2) Hne). intros [code|] w3 H3; simpl in H3.
  - do 3 run. apply post_failed; [|done].
    eapply inv_junk; [exact HI2 | apply newName_junk | by eapply newName_snap | done].
  - set (f3 := delete (key (newName (to st))) (files (os r2))) in *.
    assert (except (key (newName (to st))) (files (os r2)) f3) as He by apply except_delete.
    assert (Inv (rev (undo r2)) f3) as HI3.
    { eapply inv_junk; [exact HI2 | apply newName_junk | by eapply newName_snap | done]. }
    assert (tracks (files (os r)) f3) as HT3.
    { eapply tracks_trans; [done|]. eapply tracks_except; [apply newName_junk | done]. }
    assert (tracks (<[key (to st) := data]> (files (os r))) (files w3)) as HT4 by (rewrite H3; by apply tracks_insert).
    run. destruct (fileExists (to st) (os r)) eqn:Hex; simpl; run; run; (split; [|by eauto]).
    + unfold RInv. simpl. rewrite H3. apply fileExists_files in Hex as [c Hc].
      destruct Hp as [Hn | (t & sha & us' & E)]; [rewrite (HT2 _ Hj), Hc in Hn; done|].
      rewrite E in *. eapply inv_overwrite; [done | apply except_insert].
    + unfold RInv. simpl. rewrite rev_unit, H3. apply inv_create; [done | | done].
      apply fileExists_false in Hex. by rewrite (HT3 _ Hj).
Qed.

(** What a step asks of the files; [None] when it cannot be done. *)
Definition stepSpec (payload : PayloadProvider) (f : gmap wstr str) (st : Step) : option (gmap wstr str) :=
  match action st with
  | MakeDir => Some f
  | Backup => copySpec f st
  | Rename => renameSpec f st
  | WritePayload => data ← payloadOf payload (item st); Some (<[key (to st) := data]> f)
  | WriteText => Some (<[key (to st) := step_text st]> f)
  | Delete => Some (delete (key (from st)) f)
  end.
Fixpoint planSpec (payload : PayloadProvider) (f : gmap wstr str) (l : list Step) : option (gmap wstr str) :=
  match l with [] => Some f | st :: l => g ← stepSpec payload f st; planSpec payload g l end.

Lemma doStep_wp backups payload st r : RInv r -> okStep st ->
  wp (doStep backups payload st) (fun _ r' => stepPost (stepSpec payload (files (os r)) st) r') r.
Proof.
  intros HI Hst. unfold doStep, stepSpec, okStep in *. destruct (action st).
  - by apply doMakeDir_wp.
  - destruct Hst. by apply doBackup_wp.
  - destruct Hst as (? & ? & ? & ?). by apply doRename_wp.
  - destruct (payloadOf payload (item st)); simpl; [by apply doWrite_wp | run; by apply post_failed].
  - by apply doWrite_wp.
  - by apply doDelete_wp.
Qed.

Lemma stepSpec_tracks payload f g f' st : tracks f g -> okStep st -> stepSpec payload g st = Some f' ->
  exists h, stepSpec payload f st = Some h /\ tracks h f'.
Proof.
  intros HT Hst. unfold stepSpec, okStep, copySpec, renameSpec in *. destruct (action st).
  - intros [= <-]. eauto.
  - destruct Hst as [Hf _]. rewrite (HT _ Hf). repeat case_match; intros; simplify_eq; eauto using tracks_insert.
  - destruct Hst as [Hf _]. rewrite (HT _ Hf). repeat case_match; intros; simplify_eq; eauto using tracks_move.
  - destruct (payloadOf payload (item st)); simpl; intros; simplify_eq; eauto using tracks_insert.
  - intros [= <-]. eauto using tracks_insert.
  - intros [= <-]. eauto using tracks_delete.
Qed.

Lemma planSpec_tracks payload l : forall f g f', tracks f g -> Forall okStep l -> planSpec payload g l = Some f' ->
  exists h, planSpec payload f l = Some h /\ tracks h f'.
Proof.
  induction l as [|st l IH]; intros f g f' HT Hok; simpl; [intros [= <-]; eauto|].
  apply Forall_cons in Hok as [Hst Hok]. destruct (stepSpec payload g st) as [g1|] eqn:E; [|done]. simpl.
  destruct (stepSpec_tracks _ _ _ _ _ HT Hst E) as (h & -> & Hh). simpl. by apply IH.
Qed.

Lemma runSteps_wp backups payload l : forall r, RInv r -> Forall okStep l -> failed r = false ->
  wp (runSteps backups payload l) (fun _ r' => stepPost (planSpec payload (files (os r)) l) r') r.
Proof.
  induction l as [|st l IH]; intros r HI Hok HF; simpl.
  { run. split; [done|]. eauto using tracks_refl. }
  apply Forall_cons in Hok as [Hst Hok]. run. eapply wp_mono; [by apply doStep_wp|].
  intros ? r1 [HI1 H1]. run. run. run; [run; by apply post_failed|].
  destruct (H1 eq_refl) as (g & Hg & HT). eapply wp_mono; [by apply IH|]. intros ? r2 [HI2 H2]. split; [done|].
  intros HF2. destruct (H2 HF2) as (h & Hh & HT2). rewrite Hg. simpl.
  destruct (planSpec_tracks payload l g _ _ HT Hok Hh) as (h' & Hh' & HT'). exists h'. split; [done|].
  by eapply tracks_trans.
Qed.
End Undoing.


Lemma dropSnapshots_wp us : forall w, Forall (fun k => temporary k) (snapsOf us) ->
  wp (dropSnapshots us) (fun _ w' => tracks (files w) (files w')) w.
Proof.
  induction us as [|u us IH]; intros w Ht; simpl; [by apply wp_ret|].
  destruct u as [?|?|? ? ?|a b sha]; [by apply IH..|]. rewrite snapsOf_cons in Ht. apply Forall_cons in Ht as [Ha Ht].
  apply wp_bind. eapply wp_mono; [apply delete_except|]. intros ? w1 He. simpl in He.
  eapply wp_mono; [by apply IH|]. intros ? w2 HT k Hk. simpl in HT. rewrite HT by done.
  by apply (tracks_except _ _ (key a)); [left|..].
Qed.

(** A step whose source is gone, or is not the file the plan was made for. *)
Definition staleStep (w : W) (st : Step) : Prop :=
  from st <> [] /\
  ((fileExists (from st) w = false /\ (required st = true \/ expectSha st <> [])) \/
   (fileExists (from st) w = true /\ expectSha st <> [] /\
    forall w', files w' = files w -> (sha256File (from st) w').1 <> expectSha st)).

Lemma fileExists_same p w w' : files w' = files w -> fileExists p w' = fileExists p w.
Proof. intros E. apply eq_true_iff_eq. by rewrite !fileExists_files, E. Qed.

Lemma staleStep_same w w' st : files w' = files w -> staleStep w st -> staleStep w' st.
Proof.
  intros E (Hf & H). split; [done|]. rewrite (fileExists_same _ _ _ E).
  destruct H as [?|(? & ? & H)]; [by left|right]. split_and!; try done. intros w2 E2. apply H. congruence.
Qed.

Lemma stale_wp l : forall w, wp (stale l) (fun why w' => files w' = files w /\
  ((exists st, In st l /\ staleStep w st) -> why <> None)) w.
Proof.
  induction l as [|st l IH]; intros w; simpl.
  { apply wp_ret. split; [done|]. by intros (? & [] & _). }
  assert (forall w1, files w1 = files w -> (staleStep w st -> False) -> wp (stale l) (fun why w' => files w' = files w /\
    ((exists st', (st = st' \/ In st' l) /\ staleStep w st') -> why <> None)) w1) as Hgo.
  { intros w1 E Hst. eapply wp_mono; [apply IH|]. intros why w2 [E2 H2]. split; [congruence|].
    intros (st' & [->|Hin] & Hs); [done|]. apply H2. exists st'. split; [done|]. by eapply staleStep_same. }
  run; [apply Hgo; [done|]; intros (Hf & _); by apply bool_decide_eq_true in Heqb|].
  run; run. run; [by run|]. run.
  - apply andb_true_iff in Heqb1 as [Hy _]. run. eapply wp_use_both; [apply sha256File_law | apply wp_result |].
    intros v w1 E Hv. simpl in E, Hv. run; [|by run]. apply bool_decide_eq_true in Heqb1.
    apply Hgo; [done|]. intros (_ & [[? _] | (_ & _ & Hne)]); [congruence|]. apply (Hne w eq_refl). congruence.
  - apply Hgo; [done|]. intros (_ & [[Hn Hr] | (Hy & Hr & _)]).
    + clear Heqb1. rewrite Hn in Heqb0. unfold sempty in Heqb0. simpl in Heqb0.
      apply orb_false_iff in Heqb0 as [Hr1 Hr2]. bool_solve. destruct Hr; congruence.
    + clear Heqb0. rewrite Hy in Heqb1. unfold sempty in Heqb1. bool_solve; done.
Qed.

(** Where a plan's copies go, and when a plan can be carried out as described:
    it names no temporary file, and renames nothing from or to where a copy goes. *)
Definition copyTarget (l : list Step) (k : wstr) : Prop :=
  exists st, In st l /\ action st = Backup /\ key (to st) = k.
Definition wfPlan (plan : Plan) : Prop :=
  (forall k, copyTarget (steps plan) k -> ~ junk k) /\ Forall (okStep (copyTarget (steps plan))) (steps plan).

(** Everything [applyPlan] can do to the files, in one statement. *)
Lemma applyPlan_wp plan payload w : wfPlan plan ->
  wp (applyPlan plan payload) (fun res w' =>
    (ok res = true -> exists g, planSpec payload (files w) (steps plan) = Some g /\ tracks g (files w')) /\
    (rolledBack res = true -> asFound (copyTarget (steps plan)) (files w) (files w'))) w.
Proof.
  intros [Hkept Hok]. unfold applyPlan. run; [by run|]. run.
  eapply wp_mono; [apply stale_wp|]. intros why w1 [E _]. destruct why; [by run|]. do 2 run. rewrite <- E.
  set (r0 := mkRun [] 0 false [] false [] w1).
  pose proof (runSteps_wp _ Hkept (files w1) (backupDir plan) payload (steps plan) r0 (inv_at_start _ Hkept _) Hok eq_refl) as Hr.
  apply wp_run in Hr. destruct (runSteps (backupDir plan) payload (steps plan) r0) as [u r]. simpl in Hr |- *.
  destruct Hr as [HI Hspec]. apply wp_bind. apply (wp_mono _ (fun _ w' => w' = os r)); [done|]. intros ? w2 ->.
  destruct (failed r) eqn:HF; simpl.
  - run. use_wp (rollback_back _ Hkept (files w1) (rev (undo r)) (os r)); [apply HI..|].
    intros [good ret] w3 Hg. run. split; [done|]. simpl in *. intros ->. by apply Hg.
  - run. use_wp dropSnapshots_wp.
    { apply Forall_forall. intros k Hk. apply (inv_snaps _ _ _ _ HI). unfold snapsOf in *.
      apply list_elem_of_omap in Hk as (x & Hx & Hk). apply list_elem_of_omap. exists x. split; [|done].
      apply list_elem_of_In. rewrite <- in_rev. by apply list_elem_of_In. }
    intros ? w3 HT. run. split; [|done]. intros _. destruct (Hspec eq_refl) as (g & Hg & HT2). exists g.
    split; [done|]. by eapply tracks_trans.
Qed.
End Laws.

(** ** A disk that fails the calls it is told to fail *)
Module FaultyDisk.
Record Disk := mkDisk { disk : gmap wstr str; dirs : list wstr; calls : nat; faults : list nat }.
Definition norm (p : wstr) : wstr := map wlower p.

(** One call: [body] when it is not to fail, [broken] when it is. *)
Definition call {A} (body broken : Disk -> A * Disk) : M Disk A := fun d =>
  let d' := mkDisk (disk d) (dirs d) (S (calls d)) (faults d) in
  if bool_decide (calls d ∈ faults d) then broken d' else body d'.
Definition put (d : Disk) (f : gmap wstr str) : Disk := mkDisk f (dirs d) (calls d) (faults d).
Definition refuse {A} (a : A) (d : Disk) : A * Disk := (a, d).

Definition tempName (dir : wstr) (n : nat) : wstr :=
  joinPath dir (wlit "evr" ++ decimal (Z.of_nat n) ++ wlit ".tmp").

#[export] Instance faulty : Win32 Disk := {
  GetFileAttributesW p d := match disk d !! norm p with
                            | Some _ => Some 128
                            | None => if bool_decide (norm p ∈ dirs d) then Some 16 else None
                            end;
  SetFileAttributesW p a := call (refuse true) (refuse false);
  CreateDirectoryW p := call (fun d => if bool_decide (norm p ∈ dirs d) || bool_decide (is_Some (disk d !! norm p))
                                       then (false, d) else (true, mkDisk (disk d) (norm p :: dirs d) (calls d) (faults d)))
                             (refuse false);
  RemoveDirectoryW p := call (fun d => (true, mkDisk (disk d) (List.filter (fun q => negb (bool_decide (q = norm p))) (dirs d)) (calls d) (faults d)))
                             (refuse false);
  DeleteFileW p := call (fun d => match disk d !! norm p with
                                  | Some _ => (true, put d (delete (norm p) (disk d)))
                                  | None => (false, d)
                                  end) (refuse false);
  CopyFileW a b := call (fun d => match disk d !! norm a with
                                  | Some c => (true, put d (<[norm b := c]> (disk d)))
                                  | None => (false, d)
                                  end) (fun d => (false, put d (<[norm b := lit "cut short"]> (disk d))));
  MoveFileExW a b := call (fun d => match disk d !! norm a with
                                    | Some c => (true, put d (move (norm a) (norm b) (disk d)))
                                    | None => (false, d)
                                    end) (refuse false);
  GetTempFileNameW dir := call (fun d =>
      let n := tempName dir (calls d) in
      match disk d !! norm n with
      | None => (Some n, put d (<[norm n := []]> (disk d)))
      | Some _ => (None, d)
      end) (refuse None);
  CreateFileW p := call (fun d => (true, put d (<[norm p := []]> (disk d)))) (refuse false);
  WriteFile p data := call (fun d => match disk d !! norm p with
      | Some c => ((true, length (take 3 data)), put d (<[norm p := c ++ take 3 data]> (disk d)))
      | None => ((false, 0%nat), d)
      end) (refuse (false, 0%nat));
  FlushFileBuffers p := call (refuse tt) (refuse tt);
  CloseHandle p := call (refuse tt) (refuse tt);
  GetLastError d := 5;
  FormatMessageA e := lit "Access is denied.";
  sha256File p := call (fun d => match disk d !! norm p with Some c => (lit "sha of " ++ c, d) | None => ([], d) end) (refuse []) }.

Lemma call_wp {A} (body broken : Disk -> A * Disk) (Q : A -> Disk -> Prop) d :
  (forall d', disk d' = disk d -> Q (body d').1 (body d').2) ->
  (forall d', disk d' = disk d -> Q (broken d').1 (broken d').2) -> wp (call body broken) Q d.
Proof.
  intros H1 H2. unfold wp, call. case_bool_decide.
  - specialize (H2 (mkDisk (disk d) (dirs d) (S (calls d)) (faults d)) eq_refl). by destruct (broken _).
  - specialize (H1 (mkDisk (disk d) (dirs d) (S (calls d)) (faults d)) eq_refl). by destruct (body _).
Qed.

Lemma tmp_name dir n : exists q, norm (tempName dir n) = norm (q ++ wlit ".tmp").
Proof.
  unfold tempName. generalize (decimal (Z.of_nat n)) as m. intros m. unfold joinPath.
  change (wempty (wlit "evr" ++ m ++ wlit ".tmp")) with false. cbv iota.
  case_match; [exists (wlit "evr" ++ m); by rewrite <- app_assoc|].
  destruct (last dir) as [c|]; [|exists (wlit "evr" ++ m); by rewrite <- app_assoc].
  case_match; eexists; f_equal; rewrite app_assoc; rewrite (app_assoc _ m); reflexivity.
Qed.

(** A law of the form "the files are the same", or decided by one lookup. *)
Ltac by_call := intros; apply call_wp; simpl; intros d' E; rewrite <- ?E in *; repeat case_match; simpl;
  eauto using except_refl, except_insert.

#[export] Instance faulty_laws : Win32Laws Disk.
Proof.
  refine {| key := norm; files := disk; temporary := fun k => exists p, k = norm (p ++ wlit ".tmp") |}; try (by by_call).
  - intros p d. unfold fileExists. simpl. destruct (disk d !! norm p); simpl; [by split; eauto|].
    case_bool_decide; simpl; split; try done; by intros [? ?].
  - intros dir d. apply call_wp; simpl; intros d' E; rewrite <- ?E; [|done].
    destruct (disk d' !! norm (tempName dir (calls d'))) eqn:En; simpl; [done|].
    split_and!; [done | apply tmp_name | done].
  - intros k p [q ->] E. apply (f_equal last) in E. unfold norm, newName in E.
    rewrite !fmap_last, !last_app in E. done.
  - intros p c x d Hc. apply call_wp; simpl; intros d' E; rewrite <- ?E in *; [|apply except_refl].
    rewrite Hc. change (length (take 3 x) <= length x /\ <[norm p := c ++ take 3 x]> (disk d') =
      <[norm p := c ++ take (length (take 3 x)) x]> (disk d'))%nat.
    rewrite length_take. split; [lia|]. do 2 f_equal. destruct (Nat.le_gt_cases 3 (length x)) as [Hl|Hl].
    + by rewrite Nat.min_l.
    + rewrite !take_ge; [done | rewrite Nat.min_r; lia | lia].
Defined.

Lemma sha_result p d : (sha256File p d).1 = [] \/
  (sha256File p d).1 = match disk d !! norm p with Some c => lit "sha of " ++ c | None => [] end.
Proof. unfold sha256File, faulty, call. case_bool_decide; [by left|right]. simpl. by case_match. Qed.
End FaultyDisk.

(** ** The properties *)
Section Theorems.
Context {W : Type} {win32 : Win32 W} {laws : Win32Laws W} {utf8 : Utf8}.

(** C7. A run that reports [rolledBack] leaves every file of the disk with the
    content it had before: whichever of the calls failed, and at whatever step,
    every file the plan renamed, overwrote or deleted is back, and no file the
    plan created is left.  Only the copies the plan made where no file was (the
    backup folder) and temporary files may be new. *)
Theorem apply_rolled_back_restores plan payload w :
  wfPlan plan -> rolledBack (applyPlan plan payload w).1 = true ->
  forall k, ~ junk k -> ~ copyTarget (steps plan) k \/ files w !! k <> None ->
  files (applyPlan plan payload w).2 !! k = files w !! k.
Proof.
  intros Hwf Hrb k Hj Hk. pose proof (wp_run _ _ _ (applyPlan_wp plan payload w Hwf)) as [_ H].
  apply (H Hrb k Hj). by destruct Hk.
Qed.

(** C8. A run that reports success has done exactly what the plan asks, step by
    step: every copy, rename, write and deletion of the plan applied in order to
    the files found at the start gives the files at the end, every required source
    was there and every payload item existed. *)
Theorem apply_ok_refines_plan plan payload w :
  wfPlan plan -> ok (applyPlan plan payload w).1 = true ->
  exists g, planSpec payload (files w) (steps plan) = Some g /\
    forall k, ~ junk k -> files (applyPlan plan payload w).2 !! k = g !! k.
Proof.
  intros Hwf Hok. pose proof (wp_run _ _ _ (applyPlan_wp plan payload w Hwf)) as [H _]. by apply H.
Qed.

(** A blocked plan, and a plan one of whose sources has gone or is no longer
    the file the plan was made for, change no file at all, and the run reports
    neither success nor a rollback nor a single step done. *)
Theorem apply_stale_untouched plan payload w :
  blocked plan = true \/ (exists st, In st (steps plan) /\ staleStep w st) ->
  let res := (applyPlan plan payload w).1 in
  files (applyPlan plan payload w).2 = files w /\ ok res = false /\ rolledBack res = false /\ r_done res = [].
Proof.
  intros Hs. apply (wp_run (applyPlan plan payload) (fun res w' => files w' = files w /\ ok res = false /\
    rolledBack res = false /\ r_done res = [])).
  unfold applyPlan. run; [by run|]. destruct Hs as [?|Hs]; [congruence|].
  run. eapply wp_mono; [apply stale_wp|]. intros why w1 [E Hw]. destruct why; [by run|]. by destruct (Hw Hs).
Qed.

(** C9. Writing a file replaces it whole or not at all: however the writes are
    cut up and wherever they fail, the target holds all of the new bytes when the
    call reports success and what it held before when it reports an error, and no
    other file but the temporary one beside it changes.  The write loop ends within
    one turn per byte. *)
Theorem writeWholeFile_all_or_nothing path data w :
  key path <> key (newName path) ->
  (forall k, k <> key (newName path) ->
    files (writeWholeFile path data w).2 !! k =
    (match (writeWholeFile path data w).1 with
     | None => <[key path := data]> (files w)
     | Some _ => files w
     end) !! k) /\
  (forall temp c w', files w' !! key temp = Some c -> (writeChunks (length data) temp data w').1 <> OutOfFuel).
Proof.
  intros Hne. pose proof (wp_run _ _ _ (writeWholeFile_wp path data w Hne)) as H. simpl in H. split.
  - intros k Hk. destruct (writeWholeFile path data w).1; [by apply H|]. rewrite H.
    destruct (decide (key path = k)) as [->|?]; [by rewrite !lookup_insert_eq|].
    by rewrite !lookup_insert_ne, lookup_delete_ne.
  - intros temp c w' Hc. pose proof (wp_run _ _ _ (writeChunks_wp (length data) temp c data w' (le_n _) Hc)) as Hw.
    simpl in Hw. by destruct (writeChunks (length data) temp data w').1.
Qed.
End Theorems.

(** ** Witnesses: a plan over a disk that fails *)
Module Demo.
Import FaultyDisk.
#[local] Existing Instance ascii_utf8.

Definition at_game (s : String.string) : wstr := wlit "G:\ED\" ++ wlit s.
Arguments at_game s%_string.
Definition demo_plan : Plan := plan0 <| backupDir := at_game "edvr_backup" |> <| steps := [
  step0 <| action := MakeDir |> <| to := at_game "edvr_backup" |>;
  step0 <| action := Backup |> <| from := at_game "d3d11.dll" |> <| to := at_game "edvr_backup\d3d11.dll" |>;
  step0 <| action := Rename |> <| from := at_game "d3d11.dll" |> <| to := at_game "d3d11_edhm.dll" |>
        <| required := true |> <| expectSha := lit "sha of EDHM" |>;
  step0 <| action := WritePayload |> <| item := lit "d3d11" |> <| to := at_game "d3d11.dll" |>;
  step0 <| action := Delete |> <| from := at_game "old.txt" |>;
  step0 <| action := WriteText |> <| step_text := lit "glow = 1" |> <| to := at_game "edvr.ini" |>] |>.
Definition demo_payload : PayloadProvider := Some (fun i => if bool_decide (i = lit "d3d11") then Some (lit "EDVR proxy") else None).
Definition demo_files : gmap wstr str := list_to_map [
  (norm (at_game "D3D11.dll"), lit "EDHM"); (norm (at_game "d3d11_edhm.dll"), lit "older EDHM");
  (norm (at_game "old.txt"), lit "gone"); (norm (at_game "edvr.ini"), lit "glow = 0")].
(** The calls numbered in [faults] fail. *)
Definition demo_disk (faults : list nat) : Disk := mkDisk demo_files [norm (wlit "G:\ED")] 0 faults.

Lemma last_not_junk p : last (norm p) <> Some 112%N -> last (norm p) <> Some 119%N -> ~ junk (norm p).
Proof.
  intros H1 H2 [[q E]|[q E]]; simpl in E; unfold norm, newName in *; rewrite E, fmap_last, last_app in *; done.
Qed.

(** A sufficient check of [wfPlan] on this disk. *)
Definition plainName (p : wstr) : bool :=
  negb (bool_decide (last (norm p) = Some 112%N)) && negb (bool_decide (last (norm p) = Some 119%N)).
Definition copiesOf (l : list Step) : list wstr :=
  map (fun st => norm (to st)) (List.filter (fun st => bool_decide (action st = Backup)) l).
Definition stepChecks (l : list Step) (st : Step) : bool :=
  match action st with
  | MakeDir => true
  | Backup => plainName (from st) && plainName (to st)
  | Rename => plainName (from st) && plainName (to st) && negb (bool_decide (norm (from st) ∈ copiesOf l)) &&
              negb (bool_decide (norm (to st) ∈ copiesOf l))
  | WritePayload | WriteText => plainName (to st)
  | Delete => plainName (from st)
  end.

Lemma plainName_junk p : plainName p = true -> ~ junk (norm p).
Proof. unfold plainName. intros H. bool_solve. by apply last_not_junk. Qed.

Lemma copiesOf_target l k : copyTarget l k -> k ∈ copiesOf l.
Proof.
  intros (st & Hin & Ha & <-). apply list_elem_of_In, in_map_iff. exists st. split; [done|].
  apply filter_In. split; [done|]. by apply bool_decide_eq_true.
Qed.

Lemma checked_wf plan : forallb (stepChecks (steps plan)) (steps plan) = true -> wfPlan plan.
Proof.
  rewrite forallb_forall. intros H. split.
  - intros k (st & Hin & Ha & <-). specialize (H st Hin). unfold stepChecks in H. rewrite Ha in H.
    apply andb_true_iff in H as [_ H]. by apply plainName_junk.
  - apply Forall_forall. intros st Hin%list_elem_of_In. specialize (H st Hin). unfold stepChecks, okStep in *.
    destruct (action st) eqn:Ha; bool_solve; try done; split_and?; try (by apply plainName_junk).
    + exists st. done.
    + by intros ?%copiesOf_target.
    + by intros ?%copiesOf_target.
Qed.

Lemma demo_wf : wfPlan demo_plan.
Proof. apply checked_wf. vm_compute. reflexivity. Qed.

Abbreviation run_with faults := (applyPlan demo_plan demo_payload (demo_disk faults)).

(** The last write fails: the mod's DLL is back under its name. *)
Lemma apply_rolled_back_restores_witness :
  rolledBack (run_with [35%nat]).1 = true /\ disk (run_with [35%nat]).2 !! norm (at_game "d3d11.dll") = Some (lit "EDHM").
Proof.
  assert (rolledBack (run_with [35%nat]).1 = true) as H by (vm_compute; reflexivity). split; [exact H|].
  refine (eq_trans (apply_rolled_back_restores demo_plan demo_payload (demo_disk [35%nat]) demo_wf H _ _ _) _).
  - apply plainName_junk. vm_compute. reflexivity.
  - right. vm_compute. congruence.
  - vm_compute. reflexivity.
Defined.

Lemma apply_ok_refines_plan_witness :
  exists g, planSpec demo_payload demo_files (steps demo_plan) = Some g /\
    disk (run_with []).2 !! norm (at_game "d3d11.dll") = g !! norm (at_game "d3d11.dll").
Proof.
  destruct (apply_ok_refines_plan demo_plan demo_payload (demo_disk []) demo_wf) as (g & Hg & H).
  - vm_compute. reflexivity.
  - exists g. split; [exact Hg|]. apply H. apply plainName_junk. vm_compute. reflexivity.
Defined.

(** The DLL was replaced while the dialog was open. *)
Definition changed_disk : Disk := mkDisk (<[norm (at_game "d3d11.dll") := lit "EDHM 2"]> demo_files) [] 0 [].
Lemma apply_stale_untouched_witness :
  files (applyPlan demo_plan demo_payload changed_disk).2 = files changed_disk /\
  error (applyPlan demo_plan demo_payload changed_disk).1 <> [].
Proof.
  split; [|vm_compute; discriminate].
  apply (apply_stale_untouched demo_plan demo_payload changed_disk). right.
  eexists. split; [right; right; left; reflexivity|]. split; [discriminate|]. right.
  split; [vm_compute; reflexivity|]. split; [discriminate|].
  intros d E. change (disk d = disk changed_disk) in E.
  change ((sha256File (at_game "d3d11.dll") d).1 <> lit "sha of EDHM").
  destruct (sha_result (at_game "d3d11.dll") d) as [H|H]; rewrite H; [|rewrite E]; vm_compute; discriminate.
Defined.

Lemma writeWholeFile_all_or_nothing_witness :
  (writeWholeFile (at_game "edvr.ini") (lit "glow = 1") (demo_disk [2%nat])).1 = Some 5 /\
  disk (writeWholeFile (at_game "edvr.ini") (lit "glow = 1") (demo_disk [2%nat])).2 !! norm (at_game "edvr.ini") = Some (lit "glow = 0").
Proof.
  split; [vm_compute; reflexivity|].
  refine (eq_trans (proj1 (writeWholeFile_all_or_nothing (at_game "edvr.ini") (lit "glow = 1") (demo_disk [2%nat]) _) _ _) _).
  - vm_compute. congruence.
  - vm_compute. congruence.
  - vm_compute. reflexivity.
Defined.
End Demo.
