(* ===== verification/RuntimeGate.v ===== *)
(** The two gates that decide when the OpenXR runtime's resources may go.

    [RuntimeGate] (src/src/openxr/runtime_gate.h): one lease at a time on the
    current generation, none once it is stopping, and no generation finished
    under a lease.  [PresentQuiescence] (src/src/openxr/present_quiescence.h):
    the stop request and the render thread's one acknowledgement.

    Every method body holds the object's mutex from end to end, so a method is
    one atomic step and the interleavings of any number of threads are the
    sequences of steps.  A [Lease] belongs to one thread at a time; of a move
    only [RuntimeGate::release] touches shared state, so it too is one step. *)
From S2P Require Import Prelude.
Local Open Scope Z_scope.

(** ** The gate *)
Inductive GateState := Inactive | Running | Stopping.
#[export] Instance GateState_eq_dec : EqDecision GateState.
Proof. solve_decision. Defined.

Record RuntimeGate := mkGate { generation_ : Z; activeLeases_ : Z; state_ : GateState }.
#[export] Instance eta_Gate : Settable RuntimeGate := fun g => mkGate (generation_ g) (activeLeases_ g) (state_ g).
Definition gate0 : RuntimeGate := mkGate 0 0 Inactive.

(** [gate_] is whether the pointer is set. *)
Record Lease := mkLease { gate_ : bool; lease_generation : Z }.
Definition lease0 : Lease := mkLease false 0.
Definition valid (l : Lease) : bool := gate_ l.
Definition generation (l : Lease) : Z := if valid l then lease_generation l else 0.

Definition beginGeneration (g : RuntimeGate) : Z * RuntimeGate :=
  if negb (bool_decide (state_ g = Inactive)) || negb (activeLeases_ g =? 0) || (generation_ g =? u64_max)
  then (0, g)
  else let g := g <| generation_ := u64 (generation_ g + 1) |> <| state_ := Running |> in
       (generation_ g, g).

Definition tryEnter (gen : Z) (g : RuntimeGate) : Lease * RuntimeGate :=
  if negb (bool_decide (state_ g = Running)) || (gen =? 0) || negb (gen =? generation_ g) || negb (activeLeases_ g =? 0)
  then (lease0, g)
  else (mkLease true gen, g <| activeLeases_ := 1 |>).

Definition requestStop (gen : Z) (g : RuntimeGate) : bool * RuntimeGate :=
  if negb (bool_decide (state_ g = Running)) || (gen =? 0) || negb (gen =? generation_ g)
  then (false, g) else (true, g <| state_ := Stopping |>).

Definition canDestroy (gen : Z) (g : RuntimeGate) : bool :=
  negb (gen =? 0) && (gen =? generation_ g) && bool_decide (state_ g = Stopping) && (activeLeases_ g =? 0).

Definition finishGeneration (gen : Z) (g : RuntimeGate) : bool * RuntimeGate :=
  if (gen =? 0) || negb (gen =? generation_ g) || negb (bool_decide (state_ g = Stopping)) || negb (activeLeases_ g =? 0)
  then (false, g) else (true, g <| state_ := Inactive |>).

Definition release (gen : Z) (g : RuntimeGate) : RuntimeGate :=
  if (gen =? generation_ g) && negb (activeLeases_ g =? 0) then g <| activeLeases_ := 0 |> else g.

(** [Lease::release], [Lease(Lease&&)] (the new lease, what is left of the
    old) and [operator=(Lease&&)] between two different leases. *)
Definition leaseRelease (l : Lease) (g : RuntimeGate) : Lease * RuntimeGate :=
  if gate_ l then (lease0, release (lease_generation l) g) else (l, g).
Definition moveConstruct (other : Lease) : Lease * Lease := (other, lease0).
Definition moveAssign (this other : Lease) (g : RuntimeGate) : Lease * Lease * RuntimeGate :=
  let '(_, g) := leaseRelease this g in (other, lease0, g).

(** *** Every program over one gate: the live leases by name, and the
    generations handed out, latest first. *)
Record World := mkWorld { gate : RuntimeGate; leases : gmap nat Lease; handed : list Z }.
#[export] Instance eta_World : Settable World := fun w => mkWorld (gate w) (leases w) (handed w).
Definition world0 : World := mkWorld gate0 ∅ [].

Inductive gate_step : World -> World -> Prop :=
| step_begin w gen g :
    beginGeneration (gate w) = (gen, g) ->
    gate_step w (w <| gate := g |> <| handed := if gen =? 0 then handed w else gen :: handed w |>)
| step_enter w x gen l g :
    leases w !! x = None -> tryEnter gen (gate w) = (l, g) ->
    gate_step w (w <| gate := g |> <| leases := <[x := l]> (leases w) |>)
| step_stop w gen ok g :
    requestStop gen (gate w) = (ok, g) -> gate_step w (w <| gate := g |>)
| step_finish w gen ok g :
    finishGeneration gen (gate w) = (ok, g) -> gate_step w (w <| gate := g |>)
| step_move_new w x y l l' o :
    leases w !! x = None -> leases w !! y = Some o -> moveConstruct o = (l, l') ->
    gate_step w (w <| leases := <[y := l']> (<[x := l]> (leases w)) |>)
| step_move_assign w x y t o t' o' g :
    x <> y -> leases w !! x = Some t -> leases w !! y = Some o ->
    moveAssign t o (gate w) = (t', o', g) ->
    gate_step w (w <| gate := g |> <| leases := <[y := o']> (<[x := t']> (leases w)) |>)
| step_drop w x l l' g :
    leases w !! x = Some l -> leaseRelease l (gate w) = (l', g) ->
    gate_step w (w <| gate := g |> <| leases := delete x (leases w) |>).

(** The gate is [idle], or one lease [holds] it. *)
Definition idle (w : World) : Prop := forall x l, leases w !! x = Some l -> gate_ l = false.
Definition holds (w : World) (x : nat) : Prop :=
  leases w !! x = Some (mkLease true (generation_ (gate w))) /\
  forall y l, leases w !! y = Some l -> gate_ l = true -> y = x.

Record Inv (w : World) : Prop := {
  inv_leases : (activeLeases_ (gate w) = 0 /\ idle w) \/
               (activeLeases_ (gate w) = 1 /\ state_ (gate w) <> Inactive /\ exists x, holds w x);
  inv_running : state_ (gate w) <> Inactive -> generation_ (gate w) <> 0;
  inv_gen : is_u64 (generation_ (gate w));
  inv_handed : Forall (fun g => 0 < g <= generation_ (gate w)) (handed w) /\ NoDup (handed w) }.

Ltac gate_cases :=
  repeat match goal with
  | H : (if ?b then _ else _) = _ |- _ => destruct b eqn:?; simplify_eq/=
  | H : orb _ _ = true |- _ => clear H
  end; bool_solve.

Lemma gate_inv0 : Inv world0.
Proof.
  split; unfold holds, idle in *; simpl in *; try done.
  - left. split; [done|]. intros x l Hx. cbn in Hx. by rewrite lookup_empty in Hx.
  - split; [by constructor|constructor].
Qed.

(** What a released lease leaves behind: the gate is idle if it was held. *)
Lemma leaseRelease_spec l g l' g' :
  leaseRelease l g = (l', g') ->
  (gate_ l = false /\ g' = g) \/
  (gate_ l = true /\ generation_ g' = generation_ g /\ state_ g' = state_ g /\
   activeLeases_ g' = if lease_generation l =? generation_ g then 0 else activeLeases_ g).
Proof.
  unfold leaseRelease, release. destruct (gate_ l) eqn:E; intros; simplify_eq/=; [right|by left].
  split; [done|]. destruct (lease_generation l =? generation_ g) eqn:Eg; simpl; [|done].
  destruct (activeLeases_ g =? 0) eqn:Ea; simpl; [|done]. bool_solve. done.
Qed.

Lemma held_valid w x l : Inv w -> leases w !! x = Some l -> gate_ l = true ->
  activeLeases_ (gate w) = 1 /\ holds w x /\ lease_generation l = generation_ (gate w).
Proof.
  intros [HL _ _ _] Hx Hv. destruct HL as [[_ Hi]|(Ha & _ & y & Hy & Hu)].
  - by rewrite (Hi _ _ Hx) in Hv.
  - assert (x = y) as -> by eauto. split_and!; [done|by split|]. by simplify_eq/=.
Qed.

Lemma inv_begin w gen g : Inv w -> beginGeneration (gate w) = (gen, g) ->
  Inv (w <| gate := g |> <| handed := if gen =? 0 then handed w else gen :: handed w |>).
Proof.
  intros HI. unfold beginGeneration. intros E. gate_cases; [by destruct w, HI|].
  destruct HI as [HL HR HG [HF HN]].
  assert (u64 (generation_ (gate w) + 1) = generation_ (gate w) + 1) as Hu
    by (apply u64_small; unfold is_u64, u64_max in *; lia).
  unfold is_u64 in HG. rewrite Hu. destruct (generation_ (gate w) + 1 =? 0) eqn:E0; bool_solve; [lia|].
  split; unfold holds, idle in *; simpl in *; try done.
  - left. split; [done|]. destruct HL as [[? ?]|[? ?]]; [done|congruence].
  - unfold is_u64, u64_max in *. lia.
  - split.
    + constructor; [lia|]. eapply Forall_impl; [exact HF|]. simpl. lia.
    + constructor; [|done]. intros Hin. rewrite Forall_forall in HF. apply HF in Hin. lia.
Qed.

Lemma gate_inv_enter w x gen l g : Inv w -> leases w !! x = None -> tryEnter gen (gate w) = (l, g) ->
  Inv (w <| gate := g |> <| leases := <[x := l]> (leases w) |>).
Proof.
  intros [HL HR HG HH] Hx. unfold tryEnter. intros E. gate_cases; split; unfold holds, idle in *; simpl in *; try done.
  - destruct HL as [[? Hi]|(? & ? & y & Hy & Hu)]; [left|right]; split_and!; try done.
    + intros z m. rewrite lookup_insert_Some. intros [[? ?]|[? ?]]; simplify_eq/=; eauto.
    + exists y. split; [by rewrite lookup_insert_ne by congruence|].
      intros z m. rewrite lookup_insert_Some. intros [[? ?]|[? ?]] ?; simplify_eq/=; eauto.
  - destruct HL as [[? Hi]|(? & ? & y & Hy & Hu)]; [right|lia]. split_and!; [done|congruence|]; subst gen.
    exists x. split; [by rewrite lookup_insert_eq|].
    intros z m. rewrite lookup_insert_Some. intros [[? ?]|[? Hm]] Hv; simplify_eq/=; [done|].
    apply Hi in Hm. congruence.
Qed.

(** A lease that gives way leaves the gate idle, and one that was empty leaves
    it as it was. *)
Lemma inv_drop w x l l' g : Inv w -> leases w !! x = Some l -> leaseRelease l (gate w) = (l', g) ->
  Inv (w <| gate := g |> <| leases := delete x (leases w) |>) /\
  (gate_ l = true -> activeLeases_ g = 0).
Proof.
  intros HI Hx E. apply leaseRelease_spec in E as [[Hv ->]|(Hv & Eg & Es & Ea)].
  - split; [|congruence]. destruct HI as [HL HR HG HH]. split; unfold holds, idle in *; simpl in *; try done.
    destruct HL as [[? Hi]|(? & ? & y & Hy & Hu)]; [left|right]; split_and!; try done.
    + intros z m. rewrite lookup_delete_Some. intros [? ?]. eauto.
    + exists y. split.
      * rewrite lookup_delete_ne; [done|]. intros ->. simplify_eq/=.
      * intros z m. rewrite lookup_delete_Some. intros [? ?]. eauto.
  - destruct (held_valid _ _ _ HI Hx Hv) as (_ & [_ Hu] & Hg). rewrite Hg, Z.eqb_refl in Ea.
    destruct HI as [HL HR HG HH]. split; [|done]. split; simpl; try by rewrite ?Eg, ?Es.
    left. split; [done|]. intros z m. cbn. rewrite lookup_delete_Some. intros [Hne Hm].
    destruct (gate_ m) eqn:Em; [|done]. apply Hu in Hm; congruence.
Qed.

(** Moving the lease [o] of [y] into the fresh name [x]. *)
Lemma gate_inv_move w x y o : Inv w -> leases w !! x = None -> leases w !! y = Some o ->
  Inv (w <| leases := <[y := lease0]> (<[x := o]> (leases w)) |>).
Proof.
  intros [HL HR HG HH] Hx Hy. split; unfold holds, idle in *; simpl in *; try done.
  destruct HL as [[? Hi]|(? & ? & h & Hh & Hu)]; [left|right]; split_and!; try done.
  - intros z m. rewrite !lookup_insert_Some.
    intros [[? ?]|[? [[? ?]|[? ?]]]]; simplify_eq/=; eauto.
  - destruct (decide (y = h)) as [->|Hne].
    + exists x. simplify_eq. split.
      * rewrite lookup_insert_ne by congruence. by rewrite lookup_insert_eq.
      * intros z m. rewrite !lookup_insert_Some.
        intros [[? ?]|[? [[? ?]|[? Hm]]]] ?; simplify_eq/=; [done|]. apply Hu in Hm; congruence.
    + exists h. split.
      * by rewrite !lookup_insert_ne by congruence.
      * intros z m. rewrite !lookup_insert_Some.
        intros [[? ?]|[? [[? ?]|[? Hm]]]] Hv; simplify_eq/=; eauto.
        apply Hu in Hy; congruence.
Qed.

Lemma gate_inv_step w w' : gate_step w w' -> Inv w -> Inv w'.
Proof.
  intros Hs HI. destruct Hs as [w gen g E|w x gen l g Hx E|w gen ok g E|w gen ok g E|w x y l l' o Hx Hy E|w x y t o t' o' g Hne Hx Hy E|w x l l' g Hx E].
  - by apply inv_begin.
  - eapply gate_inv_enter; eauto.
  - revert E. unfold requestStop. intros E. gate_cases; [by destruct w, HI|].
    destruct HI as [HL HR HG HH]. split; unfold holds, idle in *; simpl in *; try done; [|intros _; apply HR; congruence].
    destruct HL as [?|(? & ? & ?)]; [by left|right]. by split_and!.
  - revert E. unfold finishGeneration. intros E. gate_cases; [by destruct w, HI|].
    destruct HI as [HL HR HG HH]. split; unfold holds, idle in *; simpl in *; try done.
    left. destruct HL as [?|(? & ? & ?)]; [done|lia].
  - unfold moveConstruct in E. simplify_eq. by apply gate_inv_move.
  - unfold moveAssign in E. destruct (leaseRelease t (gate w)) as [l0 g0] eqn:Er. simplify_eq.
    destruct (inv_drop _ _ _ _ _ HI Hx Er) as [HI' _].
    pose proof (gate_inv_move _ x y t' HI') as HM. simpl in HM.
    rewrite lookup_delete_eq, lookup_delete_ne in HM by done. specialize (HM eq_refl Hy).
    destruct w as [gw lw hw]; simpl in *.
    replace (<[x:=t']> (delete x lw)) with (<[x:=t']> lw) in HM; [exact HM|].
    by rewrite insert_delete_eq.
  - by apply (inv_drop _ _ _ _ _ HI Hx E).
Qed.

Lemma gate_inv_reachable w : rtc gate_step world0 w -> Inv w.
Proof. intros Hr. eapply rtc_invariant; [exact gate_inv_step|exact Hr|exact gate_inv0]. Qed.

(** C16. However the threads interleave and however leases are moved about,
    the gate is exclusive and exact: two valid leases are the same lease; while
    there is one its generation is the current one, nobody enters, and nothing
    lets that generation be destroyed or finished; with none, a stopping
    generation can be destroyed and finished at once.  No generation number is
    zero or ever handed out twice. *)
Theorem gate_exclusive w (Hr : rtc gate_step world0 w) :
  (forall x y lx ly, leases w !! x = Some lx -> leases w !! y = Some ly -> valid lx = true -> valid ly = true -> x = y) /\
  (forall x l, leases w !! x = Some l -> valid l = true ->
     state_ (gate w) <> Inactive /\ generation l = generation_ (gate w) /\
     forall gen, tryEnter gen (gate w) = (lease0, gate w) /\ canDestroy gen (gate w) = false /\
                 finishGeneration gen (gate w) = (false, gate w)) /\
  ((forall x l, leases w !! x = Some l -> valid l = false) -> state_ (gate w) = Stopping ->
     let gen := generation_ (gate w) in
     canDestroy gen (gate w) = true /\ finishGeneration gen (gate w) = (true, (gate w) <| state_ := Inactive |>)) /\
  NoDup (handed w) /\ Forall (fun gen => 0 < gen <= u64_max) (handed w).
Proof.
  pose proof (gate_inv_reachable _ Hr) as HI. split_and!.
  - intros x y lx ly Hx Hy Vx Vy.
    destruct (held_valid _ _ _ HI Hy Vy) as (_ & [_ Hu] & _). eauto.
  - intros x l Hx Hv. destruct (held_valid _ _ _ HI Hx Hv) as (Ha & _ & Hg).
    destruct HI as [[[? _]|(_ & Hs & _)] _ _ _]; [lia|].
    split_and!; [done|by unfold generation; rewrite Hv|]. intros gen.
    unfold tryEnter, canDestroy, finishGeneration. rewrite Ha, !orb_true_r, andb_false_r. done.
  - intros Hi Hs. destruct HI as [HL HR _ _].
    assert (activeLeases_ (gate w) = 0) as Ha.
    { destruct HL as [[? _]|(_ & _ & x & Hx & _)]; [done|]. by apply Hi in Hx. }
    assert (generation_ (gate w) <> 0) as Hg by (apply HR; congruence).
    unfold canDestroy, finishGeneration. rewrite Ha, Hs, Z.eqb_refl.
    by rewrite (proj2 (Z.eqb_neq _ _) Hg).
  - apply HI.
  - destruct HI as [_ _ [_ HG] [HF _]]. eapply Forall_impl; [exact HF|]. simpl. lia.
Qed.

(** One thread enters a generation, moves its lease and is asked to stop. *)
Definition demo_world : World :=
  let '(gen, g) := beginGeneration gate0 in
  let '(l, g) := tryEnter gen g in
  let '(_, g) := requestStop gen g in
  mkWorld g (<[0%nat := lease0]> (<[1%nat := l]> (<[0%nat := l]> ∅))) [gen].

Lemma gate_exclusive_witness :
  rtc gate_step world0 demo_world /\ activeLeases_ (gate demo_world) = 1 /\
  NoDup (handed demo_world).
Proof.
  assert (rtc gate_step world0 demo_world) as Hr.
  { eapply rtc_l; [eapply (step_begin _ 1); reflexivity|].
    eapply rtc_l; [eapply (step_enter _ 0%nat 1); reflexivity|].
    eapply rtc_l; [eapply (step_stop _ 1); reflexivity|].
    eapply rtc_l; [eapply (step_move_new _ 1%nat 0%nat); reflexivity|]. apply rtc_refl. }
  split; [exact Hr|]. split; [reflexivity|]. apply (gate_exclusive demo_world Hr).
Defined.

(** ** Stop request and acknowledgement *)
Record PresentQuiescence := mkQ {
  renderThread_ : nat; stopRequested_ : bool; acknowledged_ : bool; acknowledgementSucceeded_ : bool; stopped_ : bool }.
#[export] Instance eta_Q : Settable PresentQuiescence := fun q =>
  mkQ (renderThread_ q) (stopRequested_ q) (acknowledged_ q) (acknowledgementSucceeded_ q) (stopped_ q).
Definition quiescence (this_thread : nat) : PresentQuiescence := mkQ this_thread false false false false.

(** [requestAndWait] up to its wait: the answer, or [None] to wait. *)
Definition requestEnter (this_thread : nat) (timeout : Z) (q : PresentQuiescence) : option bool * PresentQuiescence :=
  if bool_decide (this_thread = renderThread_ q) then (Some false, q)
  else let q := q <| stopRequested_ := true |> in
       (if acknowledged_ q then Some (acknowledgementSucceeded_ q)
        else if timeout <=? 0 then Some false else None, q).
(** What the wait answers when it ends; it ends early only acknowledged. *)
Definition requestWoken (q : PresentQuiescence) : bool :=
  if negb (acknowledged_ q) then false else acknowledgementSucceeded_ q.

Definition acknowledge (this_thread : nat) (success : bool) (q : PresentQuiescence) : bool * PresentQuiescence :=
  if negb (bool_decide (this_thread = renderThread_ q)) then (false, q)
  else if negb (stopRequested_ q) || acknowledged_ q then (false, q)
  else (true, q <| acknowledged_ := true |> <| acknowledgementSucceeded_ := success |> <| stopped_ := success |>).

(** The calls that returned, latest first; [waiting] are the threads inside
    [requestAndWait]. *)
Inductive QEv := QAck (t : nat) (success accepted : bool) | QAnswer (t : nat) (answer : bool).
Record QWorld := mkQWorld { qs : PresentQuiescence; waiting : list nat; qlog : list QEv }.
Inductive quiet_step : QWorld -> QWorld -> Prop :=
| quiet_answer q ws l t timeout b q' :
    requestEnter t timeout q = (Some b, q') ->
    quiet_step (mkQWorld q ws l) (mkQWorld q' ws (QAnswer t b :: l))
| quiet_wait q ws l t timeout q' :
    requestEnter t timeout q = (None, q') -> quiet_step (mkQWorld q ws l) (mkQWorld q' (t :: ws) l)
| quiet_woken q ws1 ws2 l t :
    quiet_step (mkQWorld q (ws1 ++ t :: ws2) l) (mkQWorld q (ws1 ++ ws2) (QAnswer t (requestWoken q) :: l))
| quiet_ack q ws l t success b q' :
    acknowledge t success q = (b, q') -> quiet_step (mkQWorld q ws l) (mkQWorld q' ws (QAck t success b :: l)).

Definition accepted_acks (rt : nat) (l : list QEv) : list bool :=
  omap (fun e => match e with QAck t s true => if decide (t = rt) then Some s else None | _ => None end) l.

Record QInv (rt : nat) (w : QWorld) : Prop := {
  qi_thread : renderThread_ (qs w) = rt;
  qi_acks : accepted_acks rt (qlog w) = if acknowledged_ (qs w) then [acknowledgementSucceeded_ (qs w)] else [];
  qi_state : stopped_ (qs w) = acknowledged_ (qs w) && acknowledgementSucceeded_ (qs w);
  qi_request : acknowledged_ (qs w) = true -> stopRequested_ (qs w) = true;
  qi_answers : forall t, QAnswer t true ∈ qlog w -> t <> rt /\ stopped_ (qs w) = true;
  qi_render : forall t s, QAck t s true ∈ qlog w -> t = rt;
  qi_waiting : forall t, t ∈ waiting w -> t <> rt /\ stopRequested_ (qs w) = true }.

Ltac q_solve Han Hre Hw :=
  split; simpl in *; try done; intros;
  repeat match goal with
  | H : _ ∈ _ :: _ |- _ => apply elem_of_cons in H as [?|?]; simplify_eq/=
  | H : QAnswer _ true ∈ _ |- _ => apply Han in H as [? ?]
  | H : QAck _ _ true ∈ _ |- _ => apply Hre in H
  | H : _ ∈ _ |- _ => apply Hw in H as [? ?]
  end; subst; simplify_eq/=; try split; try done; try congruence; auto.

Lemma qinv_step rt w w' : quiet_step w w' -> QInv rt w -> QInv rt w'.
Proof.
  intros Hs [Ht Ha Hst Hrq Han Hre Hw].
  destruct Hs as [q ws l t timeout b q' E|q ws l t timeout q' E|q ws1 ws2 l t|q ws l t success b q' E]; simpl in *.
  - unfold requestEnter in E. destruct q as [r sr ak as_ st]; simpl in *.
    case_bool_decide; simplify_eq/=; [q_solve Han Hre Hw|]. destruct ak; simplify_eq/=; [q_solve Han Hre Hw|].
    case_match; simplify_eq/=. q_solve Han Hre Hw.
  - unfold requestEnter in E. destruct q as [r sr ak as_ st]; simpl in *.
    case_bool_decide; simplify_eq/=. destruct ak; simplify_eq/=.
    case_match; simplify_eq/=. q_solve Han Hre Hw.
  - split; simpl in *; try done.
    + intros t0 [[= -> Hb]|?]%elem_of_cons; [|by apply Han].
      split; [apply (Hw t); set_solver|]. unfold requestWoken in Hb. rewrite Hst.
      by destruct (acknowledged_ q).
    + intros t0 s [?|?]%elem_of_cons; [done|by eapply Hre].
    + intros t0 ?. apply (Hw t0). set_solver.
  - unfold acknowledge in E. destruct q as [r sr ak as_ st]; simpl in *.
    case_bool_decide; simplify_eq/=; [|q_solve Han Hre Hw].
    destruct sr, ak; simplify_eq/=; q_solve Han Hre Hw. rewrite decide_True by done. by rewrite Ha.
Qed.

(** The acknowledgement is given once and by the render thread after a
    request, and is final: for every interleaving, [requestAndWait] answers
    true to another thread, and only if that one acknowledgement reported
    success, which is exactly when [stopped] holds; later calls of either kind
    change nothing. *)
Theorem quiescence_one_shot rt w
  (Hr : rtc quiet_step (mkQWorld (quiescence rt) [] []) w) :
  (forall t s, QAck t s true ∈ qlog w -> t = rt) /\
  (length (accepted_acks rt (qlog w)) <= 1)%nat /\
  (stopped_ (qs w) = true <-> accepted_acks rt (qlog w) = [true]) /\
  (forall t, QAnswer t true ∈ qlog w -> t <> rt /\ accepted_acks rt (qlog w) = [true]) /\
  (acknowledged_ (qs w) = true -> stopRequested_ (qs w) = true /\ forall t s d,
     acknowledge t s (qs w) = (false, qs w) /\ (requestEnter t d (qs w)).2 = qs w).
Proof.
  assert (QInv rt w) as [Ht Ha Hst Hrq Han Hre Hw].
  { eapply rtc_invariant; [exact (qinv_step rt)|exact Hr|]. split; unfold holds, idle in *; simpl in *; try done; intros; set_solver. }
  assert (stopped_ (qs w) = true <-> accepted_acks rt (qlog w) = [true]) as Hiff.
  { rewrite Ha, Hst. destruct (acknowledged_ (qs w)), (acknowledgementSucceeded_ (qs w)); naive_solver. }
  split_and!; [done| |done| |].
  - rewrite Ha. destruct (acknowledged_ (qs w)); simpl; lia.
  - intros t Hin. destruct (Han t Hin) as [? ?]. split; [done|by apply Hiff].
  - intros Hk. specialize (Hrq Hk). split; [done|]. intros t s d. unfold acknowledge, requestEnter.
    destruct (qs w) as [r sr ak as_ st]; simpl in *. subst. split_ifs.
Qed.

(** The host waits, the render thread acknowledges, the host is answered. *)
Lemma quiescence_one_shot_witness :
  let w := mkQWorld (mkQ 7 true true true true) [] [QAnswer 3 true; QAck 7 true true] in
  rtc quiet_step (mkQWorld (quiescence 7) [] []) w /\ accepted_acks 7 (qlog w) = [true].
Proof.
  intros w.
  assert (rtc quiet_step (mkQWorld (quiescence 7) [] []) w) as Hr.
  { eapply rtc_l; [eapply (quiet_wait _ _ _ 3%nat 5000); reflexivity|].
    eapply rtc_l; [eapply (quiet_ack _ _ _ 7%nat true); reflexivity|].
    eapply rtc_l; [eapply (quiet_woken _ [] [] _ 3%nat)|]. apply rtc_refl. }
  split; [exact Hr|]. apply (quiescence_one_shot 7 w Hr). reflexivity.
Defined.
