(* ===== verification/RuntimeLifecycle.v ===== *)
(** VR_InitInternal and VR_ShutdownInternal behind one coordinator
    (src/src/openxr/runtime_lifecycle.h, class [RuntimeLifecycle]).

    [init] and [shutdown] drop the mutex around the backend's [start] and
    [stop], so each is cut into its locked sections; a thread between two of
    them is inside the backend.  [life_step] interleaves the sections of any
    number of threads, with an arbitrary backend.  [getInterface] compares the
    caller's version string in bounded reads, over the readable bytes. *)
From S2P Require Import Prelude.
Local Open Scope Z_scope.

(** ** Data *)
Definition VRInitError_None : Z := 0.
Definition VRInitError_Init_InterfaceNotFound : Z := 105.
Definition VRInitError_Init_InvalidInterface : Z := 106.
Definition VRInitError_Init_NotInitialized : Z := 109.
Definition VRInitError_Init_Retry : Z := 115.
Definition VRInitError_Init_ShuttingDown : Z := 119.
Definition VRInitError_Init_TooManyObjects : Z := 120.
Definition VRInitError_Init_NotSupportedWithCompositor : Z := 122.
Definition VRInitError_Init_Internal : Z := 124.
Definition VRApplication_Scene : Z := 1.

(** Pointers are addresses, 0 the null pointer. *)
Record RuntimeInterfaces := mkInterfaces { system : Z; compositor : Z; chaperone : Z; display : Z }.
Definition interfaces0 : RuntimeInterfaces := mkInterfaces 0 0 0 0.
Definition complete (i : RuntimeInterfaces) : bool :=
  negb (system i =? 0) && negb (compositor i =? 0) && negb (chaperone i =? 0) && negb (display i =? 0).

Inductive LifeState := Idle | Starting | Running | Stopping | Failed.
#[export] Instance LifeState_eq_dec : EqDecision LifeState.
Proof. solve_decision. Defined.

Record RuntimeLifecycle := mkLife {
  interfaces_ : RuntimeInterfaces; state_ : LifeState; token_ : Z; cancelled_ : bool }.
#[export] Instance eta_Life : Settable RuntimeLifecycle := fun s =>
  mkLife (interfaces_ s) (state_ s) (token_ s) (cancelled_ s).
Definition life0 (initialToken : Z) : RuntimeLifecycle := mkLife interfaces0 Idle initialToken false.

(** The caller's [EVRInitError*]: [None] is null, [Some v] points to [v]. *)
Definition set (error : option Z) (value : Z) : option Z :=
  match error with Some _ => Some value | None => None end.
Definition fail (error : option Z) (value : Z) : Z * option Z := (0, set error value).

(** ** init: before [start], after it, and after the [stop] of a failed start *)
Definition initEnter (error : option Z) (application : Z) (s : RuntimeLifecycle)
  : (Z * option Z + Z) * RuntimeLifecycle :=
  if negb (application =? VRApplication_Scene)
  then (inl (fail error VRInitError_Init_NotSupportedWithCompositor), s)
  else match state_ s with
  | Running => (inl (token_ s, set error VRInitError_None), s)
  | Starting => (inl (fail error VRInitError_Init_Retry), s)
  | Stopping => (inl (fail error VRInitError_Init_ShuttingDown), s)
  | Failed => (inl (fail error VRInitError_Init_Internal), s)
  | Idle =>
      if u32_max - 2 <? token_ s then (inl (fail error VRInitError_Init_TooManyObjects), s)
      else let attempt := u32 (token_ s + 1) in
           (inr attempt, s <| token_ := attempt |> <| cancelled_ := false |> <| state_ := Starting |>)
  end.

(** [result] is what [start] returned, [Init_Internal] when it threw. *)
Definition startResult (returned : option Z) : Z :=
  match returned with Some r => r | None => VRInitError_Init_Internal end.

Definition initStarted (error : option Z) (result : Z) (candidate : RuntimeInterfaces) (s : RuntimeLifecycle)
  : (Z * option Z + Z) * RuntimeLifecycle :=
  if bool_decide (state_ s = Starting) && (result =? VRInitError_None) && complete candidate then
    let s := s <| interfaces_ := candidate |> <| state_ := Running |> in
    (inl (token_ s, set error VRInitError_None), s)
  else
    let result := if cancelled_ s then VRInitError_Init_ShuttingDown
                  else if result =? VRInitError_None then VRInitError_Init_InterfaceNotFound else result in
    (inr result, s <| state_ := Stopping |> <| interfaces_ := interfaces0 |>).

Definition afterStop (stopped : bool) (s : RuntimeLifecycle) : RuntimeLifecycle :=
  s <| state_ := if stopped then Idle else Failed |>.

Definition initStopped (error : option Z) (result : Z) (stopped : bool) (s : RuntimeLifecycle)
  : Z * option Z * RuntimeLifecycle := (fail error result, afterStop stopped s).

(** ** shutdown: whether it goes on to [stop], and after it *)
Definition shutdownEnter (s : RuntimeLifecycle) : bool * RuntimeLifecycle :=
  match state_ s with
  | Idle | Failed | Stopping => (false, s)
  | _ =>
      let starting := bool_decide (state_ s = Starting) in
      let s := s <| state_ := Stopping |> <| interfaces_ := interfaces0 |>
                 <| token_ := u32 (token_ s + 1) |> <| cancelled_ := true |> in
      (negb starting, s)
  end.
Definition shutdownStopped (stopped : bool) (s : RuntimeLifecycle) : RuntimeLifecycle := afterStop stopped s.

Definition token (s : RuntimeLifecycle) : Z := token_ s.
Definition running (s : RuntimeLifecycle) : bool := bool_decide (state_ s = Running).

(** ** getInterface.  [strncmp n a b] on the bytes readable at [a] and [b]:
    [None] if it would read past them. *)
Fixpoint strncmp (n : nat) (a b : list Z) : option Z :=
  match n with
  | O => Some 0
  | S n => match a, b with
           | x :: a, y :: b => if negb (x =? y) then Some (x - y) else if x =? 0 then Some 0 else strncmp n a b
           | _, _ => None
           end
  end.

Definition bytes (s : string) : list Z := map (fun c => Z.of_nat (Ascii.nat_of_ascii c)) (String.list_ascii_of_string s).
Definition IVRSystem_Version : string := "IVRSystem_012".
Definition IVRCompositor_Version : string := "IVRCompositor_014".
Definition IVRChaperone_Version : string := "IVRChaperone_003".
Definition IVRExtendedDisplay_Version : string := "IVRExtendedDisplay_001".
Definition names : list string :=
  [IVRSystem_Version; IVRCompositor_Version; IVRChaperone_Version; IVRExtendedDisplay_Version].

(** [None]: a read outside of the caller's string. *)
Fixpoint slotFrom (i : Z) (ns : list string) (version : list Z) : option Z :=
  match ns with
  | [] => Some (-1)
  | n :: ns =>
      match strncmp (length (bytes n) + 1) version (bytes n ++ [0]) with
      | None => None
      | Some 0 => Some i
      | Some _ => slotFrom (i + 1) ns version
      end
  end.
Definition slot (version : option (list Z)) : option Z :=
  match version with None => Some (-1) | Some v => slotFrom 0 names v end.

Definition interfaceAt (index : Z) (i : RuntimeInterfaces) : Z :=
  if index =? 0 then system i else if index =? 1 then compositor i
  else if index =? 2 then chaperone i else display i.
Definition getInterface (version : option (list Z)) (error : option Z) (s : RuntimeLifecycle) : option (Z * option Z) :=
  index ← slot version;
  mret (if index <? 0 then
          (0, set error (match version with Some _ => VRInitError_Init_InterfaceNotFound
                                          | None => VRInitError_Init_InvalidInterface end))
        else if negb (bool_decide (state_ s = Running)) then (0, set error VRInitError_Init_NotInitialized)
        else (interfaceAt index (interfaces_ s), set error VRInitError_None)).

(** ** Threads.  A thread is outside, or inside the backend: starting for
    [init], cleaning up for [init], or stopping for [shutdown]. *)
Inductive Pc := InStart (error : option Z) (attempt : Z) | InCleanup (error : option Z) (result : Z) | InStop.
Inductive LEv :=
| EStart (attempt : Z) | EStarted (result : Z) | EStop | EStopped (ok : bool)
| EInit (result : Z * option Z) | EShutdown.
Record LW := mkLW { life : RuntimeLifecycle; threads : gmap nat Pc; events : list LEv }.

Inductive life_step : LW -> LW -> Prop :=
| life_init s ts l t error app r s' :
    ts !! t = None -> initEnter error app s = (inl r, s') ->
    life_step (mkLW s ts l) (mkLW s' ts (EInit r :: l))
| life_start s ts l t error app attempt s' :
    ts !! t = None -> initEnter error app s = (inr attempt, s') ->
    life_step (mkLW s ts l) (mkLW s' (<[t := InStart error attempt]> ts) (EStart attempt :: l))
| life_started s ts l t error attempt returned candidate r s' :
    ts !! t = Some (InStart error attempt) ->
    initStarted error (startResult returned) candidate s = (inl r, s') ->
    life_step (mkLW s ts l) (mkLW s' (delete t ts) (EInit r :: EStarted (startResult returned) :: l))
| life_cleanup s ts l t error attempt returned candidate result s' :
    ts !! t = Some (InStart error attempt) ->
    initStarted error (startResult returned) candidate s = (inr result, s') ->
    life_step (mkLW s ts l) (mkLW s' (<[t := InCleanup error result]> ts) (EStop :: EStarted (startResult returned) :: l))
| life_cleaned s ts l t error result ok r s' :
    ts !! t = Some (InCleanup error result) -> initStopped error result ok s = (r, s') ->
    life_step (mkLW s ts l) (mkLW s' (delete t ts) (EInit r :: EStopped ok :: l))
| life_shutdown s ts l t s' :
    ts !! t = None -> shutdownEnter s = (false, s') ->
    life_step (mkLW s ts l) (mkLW s' ts (EShutdown :: l))
| life_stop s ts l t s' :
    ts !! t = None -> shutdownEnter s = (true, s') ->
    life_step (mkLW s ts l) (mkLW s' (<[t := InStop]> ts) (EStop :: l))
| life_stopped s ts l t ok :
    ts !! t = Some InStop ->
    life_step (mkLW s ts l) (mkLW (shutdownStopped ok s) (delete t ts) (EShutdown :: EStopped ok :: l)).

(** *** What the backend is promised: [start] only when down, [stop] only
    after a [start] returned, nothing while either runs, nothing after a
    [stop] failed. *)
Inductive Phase := Down | InsideStart | Up | InsideStop | Dead.
#[export] Instance Phase_eq_dec : EqDecision Phase.
Proof. solve_decision. Defined.
Definition next (p : Phase) (e : LEv) : option Phase :=
  match e, p with
  | EStart _, Down => Some InsideStart
  | EStarted _, InsideStart => Some Up
  | EStop, Up => Some InsideStop
  | EStopped ok, InsideStop => Some (if ok then Down else Dead)
  | EStart _, _ | EStarted _, _ | EStop, _ | EStopped _, _ => None
  | EInit _, p | EShutdown, p => Some p
  end.
Fixpoint phase (l : list LEv) : option Phase :=
  match l with [] => Some Down | e :: l => p ← phase l; next p e end.

Definition attempts (l : list LEv) : list Z := omap (fun e => match e with EStart a => Some a | _ => None end) l.

(** ** Invariant *)
Record Tokens (w : LW) : Prop := {
  tk_bound : 0 <= token_ (life w) <= (if decide (state_ (life w) = Starting \/ state_ (life w) = Running)
                                      then u32_max - 1 else u32_max);
  tk_attempts : Forall (fun a => 0 < a <= token_ (life w)) (attempts (events w)) /\ NoDup (attempts (events w));
  tk_current : state_ (life w) = Starting \/ state_ (life w) = Running -> token_ (life w) ∈ attempts (events w);
  tk_answers : forall tok e, EInit (tok, e) ∈ events w -> tok <> 0 ->
    tok ∈ attempts (events w) /\ (tok < token_ (life w) \/ tok = token_ (life w) /\ state_ (life w) = Running) }.

(** [Where w]: which thread is inside the backend, for each state. *)
Definition Where (w : LW) : Prop :=
  match state_ (life w) with
  | Idle => threads w = ∅ /\ phase (events w) = Some Down
  | Failed => threads w = ∅ /\ phase (events w) = Some Dead
  | Running => threads w = ∅ /\ phase (events w) = Some Up /\ complete (interfaces_ (life w)) = true
  | Starting => exists t e, threads w = {[t := InStart e (token_ (life w))]} /\ cancelled_ (life w) = false /\
                            phase (events w) = Some InsideStart
  | Stopping => exists t pc, threads w = {[t := pc]} /\
      phase (events w) = Some (match pc with InStart _ _ => InsideStart | _ => InsideStop end) /\
      (match pc with InStart _ a => cancelled_ (life w) = true /\ a < token_ (life w) | _ => True end)
  end.

Definition Inv (w : LW) : Prop :=
  Where w /\ Tokens w /\ (state_ (life w) <> Running -> interfaces_ (life w) = interfaces0).

Lemma life_inv0 tok0 : is_u32 tok0 -> Inv (mkLW (life0 tok0) ∅ []).
Proof.
  unfold is_u32. intros H. split; [by split|]. split; [|done].
  split; simpl.
  - exact H.
  - split; constructor.
  - intros [?|?]; done.
  - intros tok e Hin. by apply elem_of_nil in Hin.
Qed.

(** Events that end a call without a token change neither the phase nor the
    tokens. *)
Definition quiet (e : LEv) : Prop :=
  match e with EInit (tok, _) => tok = 0 | EShutdown => True | _ => False end.

Lemma phase_quiet e l : quiet e -> phase (e :: l) = phase l.
Proof. destruct e as [| | | |[tok er]|]; simpl; try done; intros; by destruct (phase l) as [[]|]. Qed.

Lemma inv_quiet s ts l e : quiet e -> Inv (mkLW s ts l) -> Inv (mkLW s ts (e :: l)).
Proof.
  intros Hq (HW & HT & HI). split_and!; [| |done].
  - revert HW. unfold Where; simpl life; simpl threads; simpl events. by rewrite (phase_quiet _ _ Hq).
  - destruct HT as [Hb Ha Hc Han]. simpl in *.
    assert (attempts (e :: l) = attempts l) as Ea by (by destruct e).
    split; simpl events; simpl life; rewrite ?Ea; try done.
    intros tok er [<-|Hin]%elem_of_cons Hn; [done|]. by eapply Han.
Qed.

Lemma fail_quiet error v : quiet (EInit (fail error v)).
Proof. done. Qed.

Lemma initEnter_inl error app s r s' : initEnter error app s = (inl r, s') ->
  s' = s /\ (r.1 = 0 \/ state_ s = Running /\ r = (token_ s, set error VRInitError_None)).
Proof. unfold initEnter. split_ifs; intros; simplify_eq/=; auto. Qed.

Lemma initEnter_inr error app s a s' : initEnter error app s = (inr a, s') -> is_u32 (token_ s) ->
  app = VRApplication_Scene /\ state_ s = Idle /\ a = token_ s + 1 /\ a <= u32_max - 1 /\
  s' = mkLife (interfaces_ s) Starting a false.
Proof.
  unfold initEnter. intros H Hu. repeat case_match; simplify_eq/=. bool_solve.
  unfold is_u32, u32_max in *. rewrite u32_small by (unfold is_u32, u32_max; lia).
  split_and!; try done; lia.
Qed.

Lemma tokens_u32 w : Tokens w -> is_u32 (token_ (life w)).
Proof. intros [Hb _ _ _]. unfold is_u32, u32_max in *. case_decide; lia. Qed.

(** A locked section that keeps the token, starts nothing and returns no
    token keeps [Tokens], unless it leaves [Running] alone. *)
Lemma tokens_keep s ts l s' ts' l' :
  Tokens (mkLW s ts l) -> token_ s' = token_ s -> state_ s' <> Running -> state_ s' <> Starting ->
  (state_ s <> Running) ->
  attempts l' = attempts l -> (forall tok e, EInit (tok, e) ∈ l' -> tok <> 0 -> EInit (tok, e) ∈ l) ->
  Tokens (mkLW s' ts' l').
Proof.
  intros HT Et Hr Hs Hn Ea Hl. pose proof (tokens_u32 _ HT) as Hu. destruct HT as [Hb Ha Hc Han]; simpl in *.
  unfold is_u32 in Hu. split; simpl; rewrite ?Et, ?Ea; try done.
  - rewrite decide_False by (intros [?|?]; congruence). lia.
  - intros [?|?]; congruence.
  - intros tok e Hin Hz. destruct (Han tok e) as [? [?|[? ?]]]; eauto; congruence.
Qed.

(** shutdown's invalidation: every token given out so far is now stale. *)
Lemma tokens_bump s ts l ts' l' c :
  Tokens (mkLW s ts l) -> state_ s = Starting \/ state_ s = Running ->
  attempts l' = attempts l -> (forall tok e, EInit (tok, e) ∈ l' -> tok <> 0 -> EInit (tok, e) ∈ l) ->
  u32 (token_ s + 1) = token_ s + 1 /\
  Tokens (mkLW (mkLife interfaces0 Stopping (u32 (token_ s + 1)) c) ts' l').
Proof.
  intros HT Hs Ea Hl. destruct HT as [Hb [Ha Hnd] Hc Han]; simpl in *.
  rewrite decide_True in Hb by done.
  assert (u32 (token_ s + 1) = token_ s + 1) as Eu by (apply u32_small; unfold is_u32; lia).
  split; [done|]. split; simpl; rewrite ?Eu, ?Ea; try done.
  - lia.
  - split; [|done]. eapply Forall_impl; [exact Ha|]. simpl. lia.
  - intros [?|?]; congruence.
  - intros tok e Hin Hz. destruct (Han tok e) as [? Ht]; eauto. split; [done|]. left. lia.
Qed.

(** An answer with the running token. *)
Lemma inv_current s ts l er : Inv (mkLW s ts l) -> state_ s = Running ->
  Inv (mkLW s ts (EInit (token_ s, er) :: l)).
Proof.
  intros (HW & [Hb Ha Hc Han] & HI) Hs. simpl in *. split_and!; [| |done].
  - revert HW. unfold Where; simpl. rewrite Hs. intros (? & Hp & ?). by rewrite Hp.
  - split; simpl; try done. intros tok e [Heq|Hin]%elem_of_cons Hz; [|by eapply Han].
    simplify_eq. split; [apply Hc; by right|by right].
Qed.

Lemma where_thread s ts l t pc : Where (mkLW s ts l) -> ts !! t = Some pc ->
  ts = {[t := pc]} /\ delete t ts = ∅ /\
  match pc with
  | InStart e a => phase l = Some InsideStart /\
      ((state_ s = Starting /\ a = token_ s /\ cancelled_ s = false) \/
       (state_ s = Stopping /\ cancelled_ s = true /\ a < token_ s))
  | _ => phase l = Some InsideStop /\ state_ s = Stopping
  end.
Proof.
  unfold Where; simpl. destruct (state_ s) eqn:Es; intros HW Ht; destruct_and?; subst;
    try by rewrite lookup_empty in Ht.
  - destruct HW as (t' & e' & -> & Hc & Hp). apply lookup_singleton_Some in Ht as [-> <-].
    split_and!; try done; [by rewrite delete_singleton_eq|by left].
  - destruct HW as (t' & pc' & -> & Hp & Hpc). apply lookup_singleton_Some in Ht as [-> <-].
    split_and!; [done|by rewrite delete_singleton_eq|].
    destruct pc' as [e a| |]; try done. split; [done|]. right. by destruct Hpc.
Qed.

Lemma life_inv_start s ts l t error app a s' : Inv (mkLW s ts l) -> initEnter error app s = (inr a, s') ->
  Inv (mkLW s' (<[t := InStart error a]> ts) (EStart a :: l)).
Proof.
  intros (HW & HT & HI) E. pose proof (tokens_u32 _ HT) as Hu.
  apply initEnter_inr in E as (_ & Hs & Ea & Hm & ->); [|done].
  unfold Where in HW; simpl in *. rewrite Hs in HW. destruct HW as [-> Hp].
  destruct HT as [Hb [Ha Hnd] Hc Han]; simpl in *. unfold is_u32 in Hu. split_and!.
  - unfold Where; simpl. exists t, error. by rewrite insert_empty, Hp.
  - split; simpl.
    + lia.
    + split; [constructor; [lia|]; eapply Forall_impl; [exact Ha|simpl; lia]|].
      constructor; [|done]. intros Hin. rewrite Forall_forall in Ha. apply Ha in Hin. lia.
    + intros _. left.
    + intros tok e [?|Hin]%elem_of_cons Hz; [done|]. destruct (Han tok e Hin Hz) as [? ?].
      split; [by right|]. left. intuition lia.
  - simpl. intros _. apply HI. congruence.
Qed.

Lemma inv_started s ts l t error a result cand r s' : Inv (mkLW s ts l) -> ts !! t = Some (InStart error a) ->
  initStarted error result cand s = (inl r, s') ->
  r = (a, set error VRInitError_None) /\ Inv (mkLW s' (delete t ts) (EInit r :: EStarted result :: l)).
Proof.
  intros (HW & [Hb [Ha Hnd] Hc Han] & HI) Ht E. unfold initStarted in E. case_match; simplify_eq/=.
  bool_solve. destruct (where_thread _ _ _ _ _ HW Ht) as (_ & -> & Hp & [(_ & -> & _)|(? & _)]); [|congruence].
  rewrite decide_True in Hb by auto. split; [done|]. split_and!.
  - unfold Where; simpl. by rewrite Hp.
  - split; simpl; try done; [by auto|].
    intros tok e [Heq|[?|Hin]%elem_of_cons]%elem_of_cons Hz; [|done|].
    + simplify_eq. split; [by auto|by right].
    + destruct (Han tok e Hin Hz) as [? [?|[_ ?]]]; [by auto|congruence].
  - simpl. congruence.
Qed.

Lemma inv_cleanup s ts l t error a result cand result' s' : Inv (mkLW s ts l) ->
  ts !! t = Some (InStart error a) -> initStarted error result cand s = (inr result', s') ->
  Inv (mkLW s' (<[t := InCleanup error result']> ts) (EStop :: EStarted result :: l)).
Proof.
  intros (HW & HT & HI) Ht E. unfold initStarted in E. case_match; simplify_eq/=.
  destruct (where_thread _ _ _ _ _ HW Ht) as (-> & _ & Hp & Hcase). split_and!.
  - unfold Where; simpl. exists t, (InCleanup error (if cancelled_ s then VRInitError_Init_ShuttingDown
      else if result =? VRInitError_None then VRInitError_Init_InterfaceNotFound else result)).
    by rewrite insert_singleton_eq, Hp.
  - destruct HT as [Hb [Ha Hnd] Hc Han]; simpl in *. split; simpl; try done.
    + case_decide; lia.
    + intros [?|?]; congruence.
    + intros tok e [?|[?|Hin]%elem_of_cons]%elem_of_cons Hz; [done..|].
      destruct (Han tok e Hin Hz) as [? [?|[_ ?]]]; [by auto|].
      destruct Hcase as [[? _]|[? _]]; congruence.
  - done.
Qed.

(** Either [stop] returned: init's cleanup or shutdown's. *)
Lemma inv_stopped s ts l t pc ok e : Inv (mkLW s ts l) -> ts !! t = Some pc ->
  (match pc with InStart _ _ => False | _ => True end) -> quiet e ->
  Inv (mkLW (afterStop ok s) (delete t ts) (e :: EStopped ok :: l)).
Proof.
  intros (HW & HT & HI) Ht Hpc Hq. apply inv_quiet; [done|].
  assert (phase l = Some InsideStop /\ state_ s = Stopping /\ delete t ts = ∅) as (Hp & Hs & ->).
  { destruct (where_thread _ _ _ _ _ HW Ht) as (_ & Hd & Hm). by destruct pc; destruct_and?. }
  split_and!.
  - unfold Where; simpl. destruct ok; by rewrite Hp.
  - eapply tokens_keep; [exact HT|done|by destruct ok..|congruence|done|].
    intros tok e' [?|?]%elem_of_cons ?; [done|by auto].
  - intros _. simpl. apply HI. simpl. congruence.
Qed.

Lemma shutdownEnter_cases s : let '(go, s') := shutdownEnter s in
  (go = false /\ s' = s /\ state_ s <> Starting /\ state_ s <> Running) \/
  (go = bool_decide (state_ s = Running) /\ (state_ s = Starting \/ state_ s = Running) /\
   s' = mkLife interfaces0 Stopping (u32 (token_ s + 1)) true).
Proof. unfold shutdownEnter. destruct (state_ s) eqn:?; simpl; auto 6. Qed.

Lemma inv_shutdown s ts l t go s' : Inv (mkLW s ts l) -> shutdownEnter s = (go, s') ->
  Inv (mkLW s' (if go then <[t := InStop]> ts else ts) ((if go then EStop else EShutdown) :: l)).
Proof.
  intros HInv E. pose proof (shutdownEnter_cases s) as HC. rewrite E in HC.
  destruct HC as [(-> & -> & _)|(-> & Hs & ->)]; [by apply inv_quiet|].
  destruct HInv as (HW & HT & HI).
  destruct (tokens_bump _ _ _ ts l true HT Hs eq_refl ltac:(auto)) as [Eu HT'].
  destruct (decide (state_ s = Running)) as [Hr|Hr].
  - rewrite bool_decide_true by done. unfold Where in HW; simpl in *. rewrite Hr in HW.
    destruct HW as (-> & Hp & _). split_and!; [| |done].
    + unfold Where; simpl. exists t, InStop. by rewrite insert_empty, Hp.
    + destruct HT' as [Hb Ha Hc Han]; simpl in *. split; simpl; try done.
      intros tok e [?|?]%elem_of_cons ?; [done|by eapply Han].
  - rewrite bool_decide_false by done. apply inv_quiet; [done|].
    unfold Where in HW; simpl in *. destruct Hs as [Hs|?]; [|done]. rewrite Hs in HW.
    destruct HW as (t' & e & -> & _ & Hp). split; [|by split].
    unfold Where; simpl. eexists _, _. split; [done|]. split; [done|]. split; [done|lia].
Qed.

Lemma life_inv_step w w' : life_step w w' -> Inv w -> Inv w'.
Proof.
  intros Hs HI. destruct Hs as [s ts l t error app r s' Ht E|s ts l t error app a s' Ht E
    |s ts l t error a returned cand r s' Ht E|s ts l t error a returned cand result s' Ht E
    |s ts l t error result ok r s' Ht E|s ts l t s' Ht E|s ts l t s' Ht E|s ts l t ok Ht].
  - apply initEnter_inl in E as [-> [Hz|[Hr ->]]]; [|by apply inv_current].
    apply inv_quiet; [|done]. by destruct r.
  - by eapply life_inv_start.
  - by eapply inv_started.
  - by eapply inv_cleanup.
  - unfold initStopped in E. simplify_eq. by eapply inv_stopped.
  - by apply (inv_shutdown _ _ _ t _ _ HI E).
  - by apply (inv_shutdown _ _ _ t _ _ HI E).
  - by eapply inv_stopped.
Qed.

Lemma life_inv_reachable tok0 w : is_u32 tok0 -> rtc life_step (mkLW (life0 tok0) ∅ []) w -> Inv w.
Proof. intros H0 Hr. eapply rtc_invariant; [exact life_inv_step|exact Hr|by apply life_inv0]. Qed.

(** C17. Whatever threads call init and shutdown, in any interleaving, and
    whatever the backend answers: [start] and [stop] never overlap and
    alternate, [start] is only called on a backend that is down and [stop] only
    on one that a [start] left to clean up, and nothing follows a [stop] that
    failed.  The state tells which; at most one thread is inside the backend,
    and there is one exactly while the state is Starting or Stopping, so
    neither state can be left without a thread to end it.  A running
    coordinator has all four interfaces, any other has none. *)
Theorem backend_calls_conform tok0 w (H0 : is_u32 tok0)
  (Hr : rtc life_step (mkLW (life0 tok0) ∅ []) w) :
  (exists p, phase (events w) = Some p /\
     (state_ (life w) = Idle <-> p = Down) /\ (state_ (life w) = Running <-> p = Up) /\
     (state_ (life w) = Failed <-> p = Dead)) /\
  (forall t1 t2, is_Some (threads w !! t1) -> is_Some (threads w !! t2) -> t1 = t2) /\
  ((exists t, is_Some (threads w !! t)) <-> state_ (life w) = Starting \/ state_ (life w) = Stopping) /\
  (if running (life w) then complete (interfaces_ (life w)) = true else interfaces_ (life w) = interfaces0).
Proof.
  destruct (life_inv_reachable _ _ H0 Hr) as (HW & _ & HI). destruct w as [s ts l].
  unfold Where, running in *; simpl in *.
  assert (forall t1 t2 t (pc : Pc), is_Some (({[t := pc]} : gmap nat Pc) !! t1) ->
    is_Some (({[t := pc]} : gmap nat Pc) !! t2) -> t1 = t2) as Hone.
  { intros t1 t2 t pc [? H1%lookup_singleton_Some] [? H2%lookup_singleton_Some]. by destruct_and?; subst. }
  assert (forall t (pc : Pc), is_Some (({[t := pc]} : gmap nat Pc) !! t)) as Hin.
  { intros t pc. rewrite lookup_singleton_eq. eauto. }
  assert (forall t, ~ is_Some ((∅ : gmap nat Pc) !! t)) as Hno.
  { intros t [x Hx]. by rewrite lookup_empty in Hx. }
  destruct (state_ s) eqn:Es; simpl.
  - destruct HW as [-> Hp]. split; [by exists Down|]. split; [by intros ?? ?%Hno|].
    split; [|by apply HI]. split; [by intros [? ?%Hno]|by intros [?|?]].
  - destruct HW as (t & e & -> & _ & Hp). split; [by exists InsideStart|].
    split; [eauto|]. split; [|by apply HI]. split; [by left|eauto].
  - destruct HW as (-> & Hp & Hc). split; [by exists Up|]. split; [by intros ?? ?%Hno|].
    split; [|done]. split; [by intros [? ?%Hno]|by intros [?|?]].
  - destruct HW as (t & pc & -> & Hp & _). split; [eexists; split; [exact Hp|by destruct pc]|].
    split; [eauto|]. split; [|by apply HI]. split; [by right|eauto].
  - destruct HW as [-> Hp]. split; [by exists Dead|]. split; [by intros ?? ?%Hno|].
    split; [|by apply HI]. split; [by intros [? ?%Hno]|by intros [?|?]].
Qed.

(** The 32-bit token never wraps and is never used twice: every start has
    its own positive token, every token init answers is the one a start was
    made with, and it stops being the current token for good the moment its
    session is shut down or fails. *)
Theorem tokens_never_reused tok0 w (H0 : is_u32 tok0)
  (Hr : rtc life_step (mkLW (life0 tok0) ∅ []) w) :
  0 <= token (life w) <= u32_max /\
  NoDup (attempts (events w)) /\ Forall (fun a => 0 < a <= token (life w)) (attempts (events w)) /\
  (forall tok e, EInit (tok, e) ∈ events w -> tok <> 0 ->
     tok ∈ attempts (events w) /\ (running (life w) = false -> tok < token (life w))) /\
  (running (life w) = true -> token (life w) ∈ attempts (events w)).
Proof.
  destruct (life_inv_reachable _ _ H0 Hr) as (_ & HT & _). pose proof (tokens_u32 _ HT) as Hu.
  destruct HT as [_ [Ha Hnd] Hc Han]. unfold running, token. split; [exact Hu|]. split_and!; try done.
  - intros tok e Hin Hz. destruct (Han tok e Hin Hz) as [? Ht]. split; [done|].
    intros Hb%bool_decide_eq_false. destruct Ht as [?|[_ ?]]; [done|congruence].
  - intros Hb%bool_decide_eq_true. auto.
Qed.

(** init answered, then shut down while another init was under way. *)
Definition demo : LW :=
  mkLW (mkLife interfaces0 Stopping 4 true) {[1%nat := InStart (Some 9) 3]}
       [EShutdown; EStart 3; EShutdown; EStopped true; EStop; EInit (1, Some 0); EStarted 0; EStart 1].

Lemma life_demo_reachable : rtc life_step (mkLW (life0 0) ∅ []) demo.
Proof.
  eapply rtc_l; [eapply (life_start _ _ _ 0%nat (Some 9) 1); reflexivity|].
  eapply rtc_l; [eapply (life_started _ _ _ 0%nat _ _ (Some 0) (mkInterfaces 11 12 13 14)); reflexivity|].
  eapply rtc_l; [eapply (life_stop _ _ _ 0%nat); reflexivity|].
  eapply rtc_l; [eapply (life_stopped _ _ _ 0%nat true); reflexivity|].
  eapply rtc_l; [eapply (life_start _ _ _ 1%nat (Some 9) 1); reflexivity|].
  eapply rtc_l; [eapply (life_shutdown _ _ _ 0%nat); reflexivity|]. apply rtc_refl.
Defined.

Lemma backend_calls_conform_witness : is_u32 0 /\ exists p, phase (events demo) = Some p.
Proof.
  assert (is_u32 0) as H0 by (unfold is_u32, u32_max; lia). split; [exact H0|].
  destruct (backend_calls_conform 0 demo H0 life_demo_reachable) as [(p & Hp & _) _]. by exists p.
Defined.

Lemma tokens_never_reused_witness : is_u32 0 /\ NoDup (attempts (events demo)).
Proof.
  assert (is_u32 0) as H0 by (unfold is_u32, u32_max; lia). split; [exact H0|].
  apply (tokens_never_reused 0 demo H0 life_demo_reachable).
Defined.

(** ** The version strings *)
(** The C string at the readable bytes [r]. *)
Fixpoint ctext (r : list Z) : list Z :=
  match r with [] => [] | x :: r => if x =? 0 then [] else x :: ctext r end.

(** The interface names as they are, compared as whole strings. *)
Definition slotRef (v : list Z) : Z :=
  match list_find (fun n => v = bytes n) names with Some (i, _) => Z.of_nat i | None => -1 end.

Lemma strncmp_spec b : Forall (fun x => x <> 0) b -> forall a,
  0 ∈ a \/ (length b + 1 <= length a)%nat ->
  exists c, strncmp (length b + 1) a (b ++ [0]) = Some c /\ (c = 0 <-> ctext a = b).
Proof.
  induction 1 as [|y b Hy Hb IH]; intros a Ha.
  - destruct a as [|x a]; [simpl in Ha; destruct Ha as [?%elem_of_nil|?]; [done|lia]|].
    simpl. destruct (x =? 0) eqn:E; bool_solve; simpl; [by exists 0|].
    exists (x - 0). split; [done|]. split; [lia|done].
  - destruct a as [|x a]; [simpl in Ha; destruct Ha as [?%elem_of_nil|?]; [done|lia]|].
    simpl. destruct (x =? y) eqn:E; bool_solve; subst; simpl.
    + rewrite (proj2 (Z.eqb_neq y 0) Hy). destruct (IH a) as (c & Hc & Hiff).
      { destruct Ha as [[?|?]%elem_of_cons|Hl]; [congruence|by left|right; simpl in Hl; lia]. }
      exists c. split; [done|]. rewrite Hiff. split; [by intros ->|by intros [= ->]].
    + exists (x - y). split; [done|]. split; [lia|].
      destruct (x =? 0); [done|]. intros [= ? ?]. lia.
Qed.

Definition longest : nat := 22.
Lemma names_fit : Forall (fun n => Forall (fun x => x <> 0) (bytes n) /\ (length (bytes n) <= longest)%nat) names.
Proof. repeat constructor; try done; unfold longest; simpl; lia. Qed.

Lemma slotFrom_spec i ns r :
  Forall (fun n => Forall (fun x => x <> 0) (bytes n) /\ (length (bytes n) <= longest)%nat) ns ->
  0 ∈ r \/ (longest + 1 <= length r)%nat ->
  slotFrom i ns r = Some (match list_find (fun n => ctext r = bytes n) ns with
                          | Some (k, _) => i + Z.of_nat k | None => -1 end).
Proof.
  intros HF Hr. revert i. induction HF as [|n ns [Hn Hl] _ IH]; intros i; [done|]. simpl.
  destruct (strncmp_spec (bytes n) Hn r) as (c & -> & Hiff); [destruct Hr; [by left|right; lia]|].
  destruct (decide (ctext r = bytes n)) as [Heq|Hne].
  - rewrite (proj2 Hiff Heq). f_equal. lia.
  - assert (c <> 0) by (intros ?; by apply Hne, Hiff). rewrite IH.
    destruct c; [done|..]; destruct (list_find _ ns) as [[k m]|]; simpl; f_equal; lia.
Qed.

(** [getInterface] never reads past the caller's string (terminated, or
    with the 23 bytes of the longest name readable) and answers as a whole-string
    comparison would: an interface for one of the four supported names while
    the coordinator is running, and then never null; otherwise null with the
    error that says which of the three was wrong. *)
Theorem getInterface_whole_string tok0 w r error (H0 : is_u32 tok0)
  (Hr : rtc life_step (mkLW (life0 tok0) ∅ []) w)
  (Hread : 0 ∈ r \/ (longest + 1 <= length r)%nat) :
  getInterface None error (life w) = Some (0, set error VRInitError_Init_InvalidInterface) /\
  slot (Some r) = Some (slotRef (ctext r)) /\
  getInterface (Some r) error (life w) =
    Some (if slotRef (ctext r) <? 0 then (0, set error VRInitError_Init_InterfaceNotFound)
          else if running (life w) then (interfaceAt (slotRef (ctext r)) (interfaces_ (life w)), set error VRInitError_None)
          else (0, set error VRInitError_Init_NotInitialized)) /\
  (forall k n, names !! k = Some n -> ctext r = bytes n -> slotRef (ctext r) = Z.of_nat k) /\
  (running (life w) = true -> forall k, interfaceAt k (interfaces_ (life w)) <> 0).
Proof.
  assert (slot (Some r) = Some (slotRef (ctext r))) as Es.
  { unfold slot, slotRef. by rewrite (slotFrom_spec 0 names r names_fit Hread). }
  split_and!; [done|done| | |].
  - unfold getInterface. rewrite Es. simpl. unfold running. destruct (bool_decide (state_ (life w) = Running)); by destruct (slotRef (ctext r) <? 0).
  - intros k n Hk ->.
    destruct k as [|[|[|[|k]]]]; simpl in Hk; simplify_eq; reflexivity.
  - intros Hrun k. destruct (life_inv_reachable _ _ H0 Hr) as (HW & _ & _). unfold Where, running in *.
    apply bool_decide_eq_true in Hrun. rewrite Hrun in HW. destruct HW as (_ & _ & Hc).
    unfold complete in Hc. bool_solve. unfold interfaceAt. by repeat case_match.
Qed.

Lemma getInterface_whole_string_witness :
  getInterface (Some (bytes "IVRCompositor_014" ++ [0; 77])) (Some 9) (mkLife (mkInterfaces 11 12 13 14) Running 1 false)
    = Some (12, Some 0) /\
  slot (Some (bytes "IVRCompositor_0145" ++ [0])) = Some (-1).
Proof.
  assert (rtc life_step (mkLW (life0 0) ∅ []) (mkLW (mkLife (mkInterfaces 11 12 13 14) Running 1 false) ∅
    [EInit (1, Some 0); EStarted 0; EStart 1])) as Hr.
  { eapply rtc_l; [eapply (life_start _ _ _ 0%nat (Some 9) 1); reflexivity|].
    eapply rtc_l; [eapply (life_started _ _ _ 0%nat _ _ (Some 0) (mkInterfaces 11 12 13 14)); reflexivity|].
    apply rtc_refl. }
  assert (is_u32 0) as H0 by (unfold is_u32, u32_max; lia). split.
  - assert (0 ∈ bytes "IVRCompositor_014" ++ [0; 77]) as Hz by (apply elem_of_app; right; left).
    destruct (getInterface_whole_string 0 _ _ (Some 9) H0 Hr (or_introl Hz)) as (_ & _ & E & _). etransitivity; [exact E|reflexivity].
  - assert (0 ∈ bytes "IVRCompositor_0145" ++ [0]) as Hz by (apply elem_of_app; right; left).
    destruct (getInterface_whole_string 0 _ _ None H0 Hr (or_introl Hz)) as (_ & E & _). etransitivity; [exact E|reflexivity].
Defined.
