(* ===== verification/WorkQueue.v ===== *)
(** Work handed to the bound render thread
    (src/src/openxr/present_work_queue.h, class [PresentWorkQueue]).

    The code drops the mutex around the callbacks and around the destruction of
    their captures, so every method is cut into its locked sections.
    [queue_step] interleaves the sections of any number of calls: an [Act] is a
    call that is between two of its sections, and a callback may itself be the
    caller.  Allocation, the callbacks' outcome and the passing of deadlines are
    arbitrary. *)
From S2P Require Import Prelude.
From Stdlib Require Import Sorting.Sorted.
Local Open Scope Z_scope.

(** ** Data.  A [Request] is a shared object, named by its place in the store
    [requests_], which follows the order of acceptance. *)
Record Request := mkReq { callback : bool; r_running : bool; cancelled : bool; r_done : bool; success : bool }.
Definition request (fn : bool) : Request := mkReq fn false false false false.
#[export] Instance eta_Request : Settable Request := fun r =>
  mkReq (callback r) (r_running r) (cancelled r) (r_done r) (success r).

Record PresentWorkQueue := mkQueue {
  requests_ : list Request; queue_ : list nat; renderThread_ : nat; bound_ : bool; closed_ : bool;
  active_ : bool; activeInvokers_ : Z }.
#[export] Instance eta_Queue : Settable PresentWorkQueue := fun q =>
  mkQueue (requests_ q) (queue_ q) (renderThread_ q) (bound_ q) (closed_ q) (active_ q) (activeInvokers_ q).
Definition queue0 : PresentWorkQueue := mkQueue [] [] 0 false false false 0.
Definition kQueueCapacity : nat := 16.

Definition updReq (r : nat) (f : Request -> Request) (q : PresentWorkQueue) : PresentWorkQueue :=
  q <| requests_ := alter f r (requests_ q) |>.
Definition reqAt (r : nat) (q : PresentWorkQueue) : Request := default (request false) (requests_ q !! r).

Definition bindCurrentThread (this_thread : nat) (q : PresentWorkQueue) : bool * PresentWorkQueue :=
  if bound_ q || closed_ q then (false, q)
  else (true, q <| bound_ := true |> <| renderThread_ := this_thread |>).
Definition isRenderThread (this_thread : nat) (q : PresentWorkQueue) : bool :=
  bound_ q && bool_decide (renderThread_ q = this_thread).

(** ** invoke: up to its wait.  [fn]: the callback is not empty; [made],
    [pushed]: the two allocations succeed. *)
Definition invokeEnter (this_thread : nat) (fn made pushed : bool) (q : PresentWorkQueue) : option nat * PresentWorkQueue :=
  if negb fn then (None, q)
  else if negb made then (None, q)
  else if negb (bound_ q) || closed_ q || bool_decide (renderThread_ q = this_thread) ||
          (kQueueCapacity <=? length (queue_ q))%nat then (None, q)
  else if negb pushed then (None, q)
  else let r := length (requests_ q) in
       (Some r, q <| requests_ := requests_ q ++ [request fn] |> <| queue_ := queue_ q ++ [r] |>
                  <| activeInvokers_ := u64 (activeInvokers_ q + 1) |>).

Definition leave (q : PresentWorkQueue) : PresentWorkQueue := q <| activeInvokers_ := u64 (activeInvokers_ q - 1) |>.

(** The wait is over: [done] holds. *)
Definition invokeWoken (r : nat) (q : PresentWorkQueue) : option bool * PresentWorkQueue :=
  if r_done (reqAt r q) then (Some (success (reqAt r q)), leave q) else (None, q).

Fixpoint erase (r : nat) (l : list nat) : list nat :=
  match l with [] => [] | x :: l => if decide (x = r) then l else x :: erase r l end.

(** The deadline passed without [done]: whether the call claims the
    cancellation (the request is still queued), or keeps waiting. *)
Definition invokeTimeout (r : nat) (q : PresentWorkQueue) : bool * PresentWorkQueue :=
  if negb (r_running (reqAt r q)) && negb (r_done (reqAt r q)) then
    if decide (r ∈ queue_ q)
    then (true, updReq r (fun x => x <| cancelled := true |> <| callback := false |>)
                  (q <| queue_ := erase r (queue_ q) |>))
    else (false, q)
  else (false, q).
(** The captures are released; the call answers false. *)
Definition invokeCancelled (r : nat) (q : PresentWorkQueue) : PresentWorkQueue :=
  leave (updReq r (fun x => x <| r_done := true |> <| success := false |>) q).

(** ** pump: up to the callback, and after it *)
Definition pumpEnter (this_thread : nat) (q : PresentWorkQueue) : option nat * PresentWorkQueue :=
  if negb (bound_ q) || closed_ q || negb (bool_decide (renderThread_ q = this_thread)) || active_ q then (None, q)
  else match queue_ q with
  | [] => (None, q)
  | r :: rest => (Some r, updReq r (fun x => x <| r_running := true |>) (q <| queue_ := rest |> <| active_ := true |>))
  end.
Definition pumpLeave (r : nat) (ok : bool) (q : PresentWorkQueue) : bool * PresentWorkQueue :=
  (ok, updReq r (fun x => x <| callback := false |> <| success := ok |> <| r_running := false |> <| r_done := true |>)
         (q <| active_ := false |>)).

(** ** close: one turn of its loop, and after the captures are released *)
Definition closeEnter (q : PresentWorkQueue) : option nat * PresentWorkQueue :=
  let q := q <| closed_ := true |> in
  match queue_ q with
  | [] => (None, q)
  | r :: rest => (Some r, updReq r (fun x => x <| cancelled := true |>) (q <| queue_ := rest |>))
  end.
Definition closeRetired (r : nat) (q : PresentWorkQueue) : PresentWorkQueue :=
  updReq r (fun x => x <| callback := false |> <| r_done := true |> <| success := false |>) q.

(** The loop of one close call, alone. *)
Fixpoint close (fuel : nat) (q : PresentWorkQueue) : option PresentWorkQueue :=
  match fuel with
  | O => None
  | S fuel => match closeEnter q with
              | (None, q) => Some q
              | (Some r, q) => close fuel (closeRetired r q)
              end
  end.

Definition pending (q : PresentWorkQueue) : nat := length (queue_ q).
(** The destructor terminates the program unless this holds. *)
Definition destructorOk (q : PresentWorkQueue) : bool :=
  negb (negb (closed_ q) || negb (bool_decide (queue_ q = [])) || active_ q || negb (activeInvokers_ q =? 0)).

(** ** Calls in progress *)
Inductive Act :=
| Waiting (r : nat)      (* invoke, before its deadline *)
| WaitingLate (r : nat)  (* invoke, past it: a pump has the request *)
| Cancelling (r : nat)   (* invoke, releasing the captures it cancelled *)
| Pumping (r : nat)      (* pump, running the callback *)
| Looping                (* close, between two turns *)
| Closing (r : nat).     (* close, releasing the captures it cancelled *)
#[export] Instance Act_eq_dec : EqDecision Act.
Proof. solve_decision. Defined.

Inductive QEv := Start (r : nat) | Ran (r : nat) (ok : bool) | Answer (r : nat) (result : bool) | Refused | Closed.
Record QW := mkQW { q_ : PresentWorkQueue; acts : list Act; log : list QEv }.
Definition world0 : QW := mkQW queue0 [] [].

Inductive queue_step : QW -> QW -> Prop :=
| q_bind q as_ l t b q' : bindCurrentThread t q = (b, q') -> queue_step (mkQW q as_ l) (mkQW q' as_ l)
| q_refused q as_ l t fn made pushed q' :
    invokeEnter t fn made pushed q = (None, q') -> queue_step (mkQW q as_ l) (mkQW q' as_ (Refused :: l))
| q_enter q as_ l t fn made pushed r q' :
    invokeEnter t fn made pushed q = (Some r, q') -> queue_step (mkQW q as_ l) (mkQW q' (Waiting r :: as_) l)
| q_woken q a1 a a2 l r b q' :
    a = Waiting r \/ a = WaitingLate r -> invokeWoken r q = (Some b, q') ->
    queue_step (mkQW q (a1 ++ a :: a2) l) (mkQW q' (a1 ++ a2) (Answer r b :: l))
| q_timeout q a1 a2 l r b q' :
    r_done (reqAt r q) = false -> invokeTimeout r q = (b, q') ->
    queue_step (mkQW q (a1 ++ Waiting r :: a2) l)
               (mkQW q' (a1 ++ (if b then Cancelling r else WaitingLate r) :: a2) l)
| q_cancelled q a1 a2 l r :
    queue_step (mkQW q (a1 ++ Cancelling r :: a2) l) (mkQW (invokeCancelled r q) (a1 ++ a2) (Answer r false :: l))
| q_pump_none q as_ l t q' : pumpEnter t q = (None, q') -> queue_step (mkQW q as_ l) (mkQW q' as_ l)
| q_pump q as_ l t r q' :
    pumpEnter t q = (Some r, q') -> queue_step (mkQW q as_ l) (mkQW q' (Pumping r :: as_) (Start r :: l))
| q_pumped q a1 a2 l r ok b q' :
    pumpLeave r ok q = (b, q') ->
    queue_step (mkQW q (a1 ++ Pumping r :: a2) l) (mkQW q' (a1 ++ a2) (Ran r b :: l))
| q_close q as_ l : queue_step (mkQW q as_ l) (mkQW q (Looping :: as_) l)
| q_close_done q a1 a2 l q' :
    closeEnter q = (None, q') -> queue_step (mkQW q (a1 ++ Looping :: a2) l) (mkQW q' (a1 ++ a2) (Closed :: l))
| q_close_turn q a1 a2 l r q' :
    closeEnter q = (Some r, q') -> queue_step (mkQW q (a1 ++ Looping :: a2) l) (mkQW q' (a1 ++ Closing r :: a2) l)
| q_close_next q a1 a2 l r :
    queue_step (mkQW q (a1 ++ Closing r :: a2) l) (mkQW (closeRetired r q) (a1 ++ Looping :: a2) l).

(** ** Counting: how often [r] is queued, held by a call, waited for,
    started, run and answered. *)
Definition hit (r x : nat) : nat := if decide (x = r) then 1%nat else 0%nat.
Definition b2n (b : bool) : nat := if b then 1%nat else 0%nat.
Definition queued (r : nat) (l : list nat) : nat := sum_list_with (hit r) l.
Definition pumping (r : nat) (l : list Act) : nat :=
  sum_list_with (fun a => match a with Pumping x => hit r x | _ => 0%nat end) l.
Definition retiring (r : nat) (l : list Act) : nat :=
  sum_list_with (fun a => match a with Cancelling x | Closing x => hit r x | _ => 0%nat end) l.
Definition waiters (r : nat) (l : list Act) : nat :=
  sum_list_with (fun a => match a with Waiting x | WaitingLate x | Cancelling x => hit r x | _ => 0%nat end) l.
Definition pumps (l : list Act) : nat := sum_list_with (fun a => match a with Pumping _ => 1%nat | _ => 0%nat end) l.
Definition invokers (l : list Act) : nat :=
  sum_list_with (fun a => match a with Waiting _ | WaitingLate _ | Cancelling _ => 1%nat | _ => 0%nat end) l.
Definition starts (r : nat) (l : list QEv) : nat :=
  sum_list_with (fun e => match e with Start x => hit r x | _ => 0%nat end) l.
Definition runs (r : nat) (l : list QEv) : nat :=
  sum_list_with (fun e => match e with Ran x _ => hit r x | _ => 0%nat end) l.
Definition goodRuns (r : nat) (l : list QEv) : nat :=
  sum_list_with (fun e => match e with Ran x true => hit r x | _ => 0%nat end) l.
Definition answers (b : bool) (r : nat) (l : list QEv) : nat :=
  sum_list_with (fun e => match e with Answer x b' => if eqb b b' then hit r x else 0%nat | _ => 0%nat end) l.
Definition order (l : list QEv) : list nat := omap (fun e => match e with Start r => Some r | _ => None end) l.

(** What holds of one accepted request [x], named [r]. *)
Record ReqInv (w : QW) (r : nat) (x : Request) : Prop := {
  ri_place : (queued r (queue_ (q_ w)) + pumping r (acts w) + retiring r (acts w) + b2n (r_done x) = 1)%nat;
  ri_wait : (waiters r (acts w) + answers true r (log w) + answers false r (log w) = 1)%nat;
  ri_running : b2n (r_running x) = pumping r (acts w);
  ri_start : (starts r (log w) + b2n (cancelled x) + queued r (queue_ (q_ w)) = 1)%nat;
  ri_runs : starts r (log w) = (pumping r (acts w) + runs r (log w))%nat;
  ri_retiring : (retiring r (acts w) <= b2n (cancelled x))%nat;
  ri_success : goodRuns r (log w) = b2n (success x);
  ri_good : (goodRuns r (log w) <= runs r (log w))%nat;
  ri_true : (answers true r (log w) <= b2n (r_done x && success x))%nat;
  ri_false : (answers false r (log w) <= b2n (r_done x && negb (success x)))%nat;
  ri_callback : (queued r (queue_ (q_ w)) + pumping r (acts w) <= b2n (callback x))%nat }.

Record Inv (w : QW) : Prop := {
  inv_req : forall r x, requests_ (q_ w) !! r = Some x -> ReqInv w r x;
  inv_fresh : forall r, requests_ (q_ w) !! r = None ->
    queued r (queue_ (q_ w)) = 0%nat /\ pumping r (acts w) = 0%nat /\ retiring r (acts w) = 0%nat /\
    waiters r (acts w) = 0%nat /\ starts r (log w) = 0%nat /\ runs r (log w) = 0%nat /\ goodRuns r (log w) = 0%nat /\
    answers true r (log w) = 0%nat /\ answers false r (log w) = 0%nat;
  inv_active : b2n (active_ (q_ w)) = pumps (acts w);
  inv_invokers : activeInvokers_ (q_ w) = u64 (Z.of_nat (invokers (acts w)));
  inv_capacity : (length (queue_ (q_ w)) <= kQueueCapacity)%nat;
  inv_closed : Closed ∈ log w -> closed_ (q_ w) = true /\ queue_ (q_ w) = [] }.

Lemma queue_inv0 : Inv world0.
Proof.
  split; simpl; try done.
  - lia.
  - intros H. by apply elem_of_nil in H.
Qed.

Ltac counts :=
  cbv [queued pumping retiring waiters pumps invokers starts runs goodRuns answers] in *; simpl in *;
  repeat match goal with
  | |- context [sum_list_with _ (_ ++ _)] => rewrite sum_list_with_app
  | H : context [sum_list_with _ (_ ++ _)] |- _ => rewrite sum_list_with_app in H
  end; simpl in *.

Lemma queued_erase r s l : r ∈ l -> queued s l = (queued s (erase r l) + hit s r)%nat.
Proof.
  unfold queued. induction l as [|x l IH]; [by intros ?%elem_of_nil|]. simpl.
  destruct (decide (x = r)) as [->|Hne]; [intros _; simpl; lia|].
  intros [?|Hin]%elem_of_cons; [congruence|]. simpl. rewrite (IH Hin). lia.
Qed.

Lemma length_erase r l : r ∈ l -> length l = S (length (erase r l)).
Proof.
  induction l as [|x l IH]; [by intros ?%elem_of_nil|]. simpl.
  destruct (decide (x = r)) as [->|Hne]; [done|].
  intros [?|Hin]%elem_of_cons; [congruence|]. simpl. by rewrite (IH Hin).
Qed.

Lemma hit_eq r : hit r r = 1%nat.
Proof. unfold hit. by rewrite decide_True. Qed.
Lemma hit_ne r x : x <> r -> hit r x = 0%nat.
Proof. unfold hit. intros. by rewrite decide_False. Qed.

(** A section that changes one request [r] and nothing of the others: the
    other requests' counts and the fresh names' counts are as before. *)
Lemma inv_at w w' r f :
  Inv w ->
  requests_ (q_ w') = alter f r (requests_ (q_ w)) ->
  is_Some (requests_ (q_ w) !! r) ->
  (forall s, s <> r ->
     queued s (queue_ (q_ w')) = queued s (queue_ (q_ w)) /\ pumping s (acts w') = pumping s (acts w) /\
     retiring s (acts w') = retiring s (acts w) /\ waiters s (acts w') = waiters s (acts w) /\
     starts s (log w') = starts s (log w) /\ runs s (log w') = runs s (log w) /\
     goodRuns s (log w') = goodRuns s (log w) /\ answers true s (log w') = answers true s (log w) /\
     answers false s (log w') = answers false s (log w)) ->
  (forall x, requests_ (q_ w) !! r = Some x -> ReqInv w r x -> ReqInv w' r (f x)) ->
  b2n (active_ (q_ w')) = pumps (acts w') ->
  activeInvokers_ (q_ w') = u64 (Z.of_nat (invokers (acts w'))) ->
  (length (queue_ (q_ w')) <= kQueueCapacity)%nat ->
  (Closed ∈ log w' -> closed_ (q_ w') = true /\ queue_ (q_ w') = []) ->
  Inv w'.
Proof.
  intros [HR HF _ _ _ _] Er Hr Hs Hat. intros. split; try done.
  - intros s x. rewrite Er. destruct (decide (s = r)) as [->|Hne].
    + rewrite list_lookup_alter_eq. intros (y & Hy & ->)%fmap_Some. eauto.
    + rewrite list_lookup_alter_ne by done. intros Hx.
      destruct (Hs s Hne) as (? & ? & ? & ? & ? & ? & ? & ? & ?).
      destruct (HR _ _ Hx). split; congruence.
  - intros s. rewrite Er. destruct (decide (s = r)) as [->|Hne].
    + rewrite list_lookup_alter_eq. destruct Hr as [y ->]. done.
    + rewrite list_lookup_alter_ne by done. intros Hx.
      destruct (Hs s Hne) as (-> & -> & -> & -> & -> & -> & -> & -> & ->). by apply HF.
Qed.

Lemma inv_some w r : Inv w -> (queued r (queue_ (q_ w)) + pumping r (acts w) + retiring r (acts w) + waiters r (acts w) > 0)%nat ->
  is_Some (requests_ (q_ w) !! r).
Proof.
  intros HI Hp. destruct (requests_ (q_ w) !! r) eqn:E; [by eexists|].
  destruct (inv_fresh _ HI _ E) as (? & ? & ? & ? & _). lia.
Qed.

Lemma queued_in r l : r ∈ l -> (queued r l > 0)%nat.
Proof. intros H. rewrite (queued_erase r r l H), hit_eq. lia. Qed.

Lemma u64_succ n : u64 (u64 (Z.of_nat n) + 1) = u64 (Z.of_nat (S n)).
Proof. unfold u64. rewrite Zplus_mod_idemp_l. f_equal. lia. Qed.
Lemma u64_pred n : u64 (u64 (Z.of_nat (S n)) - 1) = u64 (Z.of_nat n).
Proof. unfold u64. rewrite Zminus_mod_idemp_l. f_equal. lia. Qed.

Lemma reqAt_eq r q x : requests_ q !! r = Some x -> reqAt r q = x.
Proof. unfold reqAt. by intros ->. Qed.

(** The counts of a request the section does not touch. *)
Ltac others :=
  intros s Hs; counts;
  repeat match goal with H : s <> ?r |- _ => rewrite (hit_ne s r) in * by congruence; clear H end;
  repeat match goal with
  | b : bool |- _ => destruct b
  | |- context [success ?x] => destruct (success x)
  end; simpl in *; split_and!; lia.

(** The counts of the request it does touch: booleans, then [lia]. *)
Ltac this_one :=
  intros x Hx [];
  repeat match goal with H : context [reqAt ?r ?q] |- _ => rewrite (reqAt_eq r q x Hx) in H end;
  try rewrite !(reqAt_eq _ _ x Hx);
  counts; rewrite ?hit_eq in *;
  destruct x as [cb ru ca dn su]; simpl in *; simplify_eq/=;
  split; simpl; counts; rewrite ?hit_eq in *;
  repeat match goal with b : bool |- _ => destruct b; simpl in *; simplify_eq/= end; try done; lia.

Ltac use_some HI :=
  apply (inv_some _ _ HI); simpl; counts; rewrite ?hit_eq; lia.

Lemma inv_woken q a1 a a2 l r b q' : Inv (mkQW q (a1 ++ a :: a2) l) ->
  a = Waiting r \/ a = WaitingLate r -> invokeWoken r q = (Some b, q') ->
  Inv (mkQW q' (a1 ++ a2) (Answer r b :: l)).
Proof.
  intros HI Ha E. unfold invokeWoken in E. destruct (r_done (reqAt r q)) eqn:Ed; simplify_eq/=.
  apply (inv_at _ _ r (fun x => x) HI); simpl.
  - by rewrite list_alter_id.
  - destruct Ha as [-> | ->]; use_some HI.
  - destruct Ha as [-> | ->]; others.
  - destruct Ha as [-> | ->]; this_one.
  - pose proof (inv_active _ HI) as H. destruct Ha as [-> | ->]; counts; lia.
  - pose proof (inv_invokers _ HI) as Hn; simpl in Hn; rewrite Hn.
    replace (invokers (a1 ++ a :: a2)) with (S (invokers (a1 ++ a2))) by (destruct Ha as [-> | ->]; counts; lia).
    apply u64_pred.
  - apply HI.
  - intros [?|?]%elem_of_cons; [done|by apply HI].
Qed.

Lemma inv_timeout q a1 a2 l r b q' : Inv (mkQW q (a1 ++ Waiting r :: a2) l) ->
  r_done (reqAt r q) = false -> invokeTimeout r q = (b, q') ->
  Inv (mkQW q' (a1 ++ (if b then Cancelling r else WaitingLate r) :: a2) l).
Proof.
  intros HI Hd E.
  assert (is_Some (requests_ q !! r)) as Hr by use_some HI.
  assert (q' = q /\ b = false \/
    b = true /\ r ∈ queue_ q /\ q' = updReq r (fun x => x <| cancelled := true |> <| callback := false |>)
                  (q <| queue_ := erase r (queue_ q) |>)) as [[-> ->]|(-> & Hin & ->)].
  { unfold invokeTimeout in E. destruct (negb _ && _); [|simplify_eq; auto].
    destruct (decide (r ∈ queue_ q)); simplify_eq; auto. }
  - apply (inv_at _ _ r (fun x => x) HI); simpl; [by rewrite list_alter_id|done|others|this_one|..].
    + pose proof (inv_active _ HI) as H. counts; lia.
    + pose proof (inv_invokers _ HI) as Hn; simpl in Hn; rewrite Hn. do 2 f_equal. counts; lia.
    + apply HI.
    + apply HI.
  - apply (inv_at _ _ r (fun x => x <| cancelled := true |> <| callback := false |>) HI); simpl; [done|done|..].
    + pose proof (fun s => queued_erase r s _ Hin) as Hq. intros s Hs. specialize (Hq s).
      rewrite (hit_ne s r) in Hq by congruence. revert s Hs Hq. intros s Hs Hq. counts.
      rewrite (hit_ne s r) in * by congruence. split_and!; lia.
    + pose proof (queued_erase r r _ Hin) as Hq. rewrite hit_eq in Hq. this_one.
    + pose proof (inv_active _ HI) as H. counts; lia.
    + pose proof (inv_invokers _ HI) as Hn; simpl in Hn; rewrite Hn. do 2 f_equal. counts; lia.
    + pose proof (inv_capacity _ HI) as Hc. simpl in Hc. rewrite (length_erase _ _ Hin) in Hc. lia.
    + intros Hc. destruct (inv_closed _ HI Hc) as [? Hq]. simpl in *. rewrite Hq in Hin. by apply elem_of_nil in Hin.
Qed.

Lemma inv_cancelled q a1 a2 l r : Inv (mkQW q (a1 ++ Cancelling r :: a2) l) ->
  Inv (mkQW (invokeCancelled r q) (a1 ++ a2) (Answer r false :: l)).
Proof.
  intros HI. apply (inv_at _ _ r (fun x => x <| r_done := true |> <| success := false |>) HI); simpl.
  - done.
  - use_some HI.
  - others.
  - this_one.
  - pose proof (inv_active _ HI) as H. counts; lia.
  - pose proof (inv_invokers _ HI) as Hn; simpl in Hn; rewrite Hn.
    replace (invokers (a1 ++ Cancelling r :: a2)) with (S (invokers (a1 ++ a2))) by (counts; lia).
    apply u64_pred.
  - apply HI.
  - intros [?|?]%elem_of_cons; [done|by apply HI].
Qed.

Lemma inv_pump q as_ l t r q' : Inv (mkQW q as_ l) -> pumpEnter t q = (Some r, q') ->
  Inv (mkQW q' (Pumping r :: as_) (Start r :: l)).
Proof.
  intros HI E. unfold pumpEnter in E. destruct (_ || _) eqn:Eg; [done|].
  destruct q as [reqs qu rt bo cl ac ai]; simpl in *. destruct qu as [|r' rest]; simplify_eq. bool_solve.
  assert (is_Some (reqs !! r)) as Hr by use_some HI.
  apply (inv_at _ _ r (fun x => x <| r_running := true |>) HI); simpl; [done|done|others|this_one|..].
  - pose proof (inv_active _ HI) as Ha. counts. subst ac. simpl in Ha. lia.
  - pose proof (inv_invokers _ HI) as Hn; simpl in Hn; rewrite Hn. by counts.
  - pose proof (inv_capacity _ HI) as Hc. simpl in Hc. lia.
  - intros [?|Hc]%elem_of_cons; [done|]. destruct (inv_closed _ HI Hc). simpl in *. congruence.
Qed.

Lemma inv_pumped q a1 a2 l r ok b q' : Inv (mkQW q (a1 ++ Pumping r :: a2) l) -> pumpLeave r ok q = (b, q') ->
  Inv (mkQW q' (a1 ++ a2) (Ran r b :: l)).
Proof.
  intros HI E. unfold pumpLeave in E. simplify_eq.
  apply (inv_at _ _ r (fun x => x <| callback := false |> <| success := b |> <| r_running := false |> <| r_done := true |>) HI); simpl.
  - done.
  - use_some HI.
  - others.
  - this_one.
  - pose proof (inv_active _ HI) as Ha. counts. destruct (active_ q); simpl in *; lia.
  - pose proof (inv_invokers _ HI) as Hn; simpl in Hn; rewrite Hn. do 2 f_equal. counts; lia.
  - apply HI.
  - intros [?|?]%elem_of_cons; [done|by apply HI].
Qed.

Lemma inv_close_turn q a1 a2 l r q' : Inv (mkQW q (a1 ++ Looping :: a2) l) -> closeEnter q = (Some r, q') ->
  Inv (mkQW q' (a1 ++ Closing r :: a2) l).
Proof.
  intros HI E. unfold closeEnter in E. simpl in E.
  destruct q as [reqs qu rt bo cl ac ai]; simpl in *. destruct qu as [|r' rest]; simplify_eq.
  assert (is_Some (reqs !! r)) as Hr by use_some HI.
  apply (inv_at _ _ r (fun x => x <| cancelled := true |>) HI); simpl; [done|done|others|this_one|..].
  - pose proof (inv_active _ HI) as Ha. counts. lia.
  - pose proof (inv_invokers _ HI) as Hn; simpl in Hn; rewrite Hn. do 2 f_equal. counts; lia.
  - pose proof (inv_capacity _ HI) as Hc. simpl in Hc. lia.
  - intros Hc. destruct (inv_closed _ HI Hc). simpl in *. congruence.
Qed.

Lemma inv_close_next q a1 a2 l r : Inv (mkQW q (a1 ++ Closing r :: a2) l) ->
  Inv (mkQW (closeRetired r q) (a1 ++ Looping :: a2) l).
Proof.
  intros HI.
  apply (inv_at _ _ r (fun x => x <| callback := false |> <| r_done := true |> <| success := false |>) HI); simpl.
  - done.
  - use_some HI.
  - others.
  - this_one.
  - pose proof (inv_active _ HI) as Ha. counts. lia.
  - pose proof (inv_invokers _ HI) as Hn; simpl in Hn; rewrite Hn. do 2 f_equal. counts; lia.
  - apply HI.
  - apply HI.
Qed.

Lemma invokeEnter_some t fn made pushed q r q' : invokeEnter t fn made pushed q = (Some r, q') ->
  bound_ q = true /\ closed_ q = false /\ renderThread_ q <> t /\ (length (queue_ q) < kQueueCapacity)%nat /\
  r = length (requests_ q) /\
  q' = q <| requests_ := requests_ q ++ [request true] |> <| queue_ := queue_ q ++ [r] |>
         <| activeInvokers_ := u64 (activeInvokers_ q + 1) |>.
Proof.
  unfold invokeEnter. repeat case_match; intros; simplify_eq. bool_solve. subst.
  match goal with H : (_ <=? _)%nat = false |- _ => apply Nat.leb_gt in H end. auto 10.
Qed.

Lemma invokeEnter_none t fn made pushed q q' : invokeEnter t fn made pushed q = (None, q') -> q' = q.
Proof. unfold invokeEnter. repeat case_match; intros; by simplify_eq. Qed.

Lemma queue_inv_enter q as_ l t fn made pushed r q' : Inv (mkQW q as_ l) ->
  invokeEnter t fn made pushed q = (Some r, q') -> Inv (mkQW q' (Waiting r :: as_) l).
Proof.
  intros HI E. apply invokeEnter_some in E as (_ & Hcl & _ & Hlen & -> & ->).
  assert (requests_ q !! length (requests_ q) = None) as Hnone by (apply lookup_ge_None; lia).
  destruct (inv_fresh _ HI _ Hnone) as (? & ? & ? & ? & ? & ? & ? & ? & ?).
  pose proof HI as [HR HF HA HN HC HCl]. simpl in *. split; simpl.
  - intros s x [Hx|[Hx Hs]]%lookup_app_Some.
    + assert (s < length (requests_ q))%nat by (by eapply lookup_lt_Some).
      destruct (HR _ _ Hx). split; simpl in *; counts; rewrite ?(hit_ne s _) by lia; lia.
    + apply list_lookup_singleton_Some in Hs as [Hs <-].
      assert (s = length (requests_ q)) as -> by lia.
      split; simpl; counts; rewrite ?hit_eq; lia.
  - intros s Hs. apply lookup_ge_None in Hs. rewrite length_app in Hs. simpl in Hs.
    assert (requests_ q !! s = None) as Hn by (apply lookup_ge_None; lia).
    destruct (HF _ Hn) as (? & ? & ? & ? & ? & ? & ? & ? & ?).
    counts; rewrite ?(hit_ne s _) by lia. split_and!; lia.
  - counts. lia.
  - rewrite HN. rewrite u64_succ. by counts.
  - rewrite length_app. simpl. lia.
  - intros Hc. destruct (HCl Hc). congruence.
Qed.

(** A section that leaves the requests, the queue and the counts alone. *)
Lemma queue_inv_same q as_ l q' as' l' : Inv (mkQW q as_ l) ->
  requests_ q' = requests_ q -> queue_ q' = queue_ q -> active_ q' = active_ q ->
  activeInvokers_ q' = activeInvokers_ q -> (closed_ q = true -> closed_ q' = true) ->
  (forall r, pumping r as' = pumping r as_ /\ retiring r as' = retiring r as_ /\ waiters r as' = waiters r as_) ->
  pumps as' = pumps as_ -> invokers as' = invokers as_ ->
  (l' = l \/ l' = Refused :: l \/ (l' = Closed :: l /\ closed_ q' = true /\ queue_ q' = [])) ->
  Inv (mkQW q' as' l').
Proof.
  intros [HR HF HA HN HC HCl] Er Eq Ea Ei Ec Hs Hp Hi Hl.
  assert ((forall r, starts r l' = starts r l /\ runs r l' = runs r l /\ goodRuns r l' = goodRuns r l /\
    answers true r l' = answers true r l /\ answers false r l' = answers false r l) /\
    (Closed ∈ l' -> Closed ∈ l \/ closed_ q' = true /\ queue_ q' = [])) as [He Hcl].
  { destruct Hl as [->|[->|(-> & ? & ?)]]; split; auto.
    - intros [?|?]%elem_of_cons; auto; done. }
  split; simpl in *.
  - intros r x Hx. rewrite Er in Hx. specialize (Hs r). specialize (He r). destruct_and?.
    destruct (HR _ _ Hx). split; simpl in *; congruence.
  - intros r Hx. rewrite Er in Hx. specialize (Hs r). specialize (He r). destruct_and?.
    specialize (HF _ Hx). destruct_and?. split_and!; congruence.
  - congruence.
  - congruence.
  - congruence.
  - intros [H|[? ?]]%Hcl; [|done]. destruct (HCl H). split; [auto|congruence].
Qed.

Lemma queue_inv_step w w' : queue_step w w' -> Inv w -> Inv w'.
Proof.
  intros Hs HI. destruct Hs as [q as_ l t b q' E|q as_ l t fn made pushed q' E|q as_ l t fn made pushed r q' E
    |q a1 a a2 l r b q' Ha E|q a1 a2 l r b q' Hd E|q a1 a2 l r|q as_ l t q' E|q as_ l t r q' E
    |q a1 a2 l r ok b q' E|q as_ l|q a1 a2 l q' E|q a1 a2 l r q' E|q a1 a2 l r].
  - unfold bindCurrentThread in E. case_match; simplify_eq; [done|]. eapply queue_inv_same; eauto.
  - apply invokeEnter_none in E as ->. eapply queue_inv_same; eauto.
  - by eapply queue_inv_enter.
  - by eapply inv_woken.
  - by eapply inv_timeout.
  - by apply inv_cancelled.
  - unfold pumpEnter in E. repeat case_match; simplify_eq; exact HI.
  - by eapply inv_pump.
  - by eapply inv_pumped.
  - eapply queue_inv_same; eauto.
  - unfold closeEnter in E. simpl in E. destruct (queue_ q) eqn:Eq; simplify_eq.
    eapply queue_inv_same; eauto; [intros r; counts; split_and!; lia|counts; lia..].
  - by eapply inv_close_turn.
  - by apply inv_close_next.
Qed.

Lemma queue_inv_reachable w : rtc queue_step world0 w -> Inv w.
Proof. intros Hr. eapply rtc_invariant; [exact queue_inv_step|exact Hr|exact queue_inv0]. Qed.

(** ** Order: requests are named in the order of acceptance *)
Record Fifo (w : QW) : Prop := {
  ff_queue : StronglySorted lt (queue_ (q_ w));
  ff_bound : Forall (fun r => r < length (requests_ (q_ w)))%nat (queue_ (q_ w));
  ff_started : Forall (fun r => r < length (requests_ (q_ w)))%nat (order (log w));
  ff_order : StronglySorted gt (order (log w));
  ff_next : forall s r, s ∈ order (log w) -> r ∈ queue_ (q_ w) -> (s < r)%nat }.

Lemma fifo_sub w w' : Fifo w -> sublist (queue_ (q_ w')) (queue_ (q_ w)) ->
  (length (requests_ (q_ w)) <= length (requests_ (q_ w')))%nat -> order (log w') = order (log w) -> Fifo w'.
Proof.
  intros [Hq Hb Hst Ho Hn] Hs Hl El. split; rewrite ?El; try done.
  - clear -Hq Hs. induction Hs as [|x l1 l2 Hs IH|x l1 l2 Hs IH].
    + done.
    + apply StronglySorted_inv in Hq as [Hq Hx]. constructor; [by apply IH|].
      rewrite Forall_forall in Hx |- *. intros y Hy. apply Hx. by eapply elem_of_sublist.
    + apply StronglySorted_inv in Hq as [Hq _]. by apply IH.
  - rewrite Forall_forall in Hb |- *. intros y Hy. eapply Nat.lt_le_trans; [|exact Hl].
    apply Hb. by eapply elem_of_sublist.
  - eapply Forall_impl; [exact Hst|]. simpl. lia.
  - intros s r Hin Hr. apply Hn; [done|]. by eapply elem_of_sublist.
Qed.

Lemma erase_sublist r l : sublist (erase r l) l.
Proof.
  induction l as [|x l IH]; simpl; [done|]. destruct (decide (x = r)).
  - by apply sublist_cons.
  - by apply sublist_skip.
Qed.

Lemma fifo_step w w' : queue_step w w' -> Fifo w -> Fifo w'.
Proof.
  intros Hs HF. destruct Hs as [q as_ l t b q' E|q as_ l t fn made pushed q' E|q as_ l t fn made pushed r q' E
    |q a1 a a2 l r b q' Ha E|q a1 a2 l r b q' Hd E|q a1 a2 l r|q as_ l t q' E|q as_ l t r q' E
    |q a1 a2 l r ok b q' E|q as_ l|q a1 a2 l q' E|q a1 a2 l r q' E|q a1 a2 l r].
  - unfold bindCurrentThread in E. case_match; simplify_eq; eapply fifo_sub; eauto; done.
  - apply invokeEnter_none in E as ->. eapply fifo_sub; eauto; done.
  - apply invokeEnter_some in E as (_ & _ & _ & _ & -> & ->). destruct HF as [Hq Hb Hst Ho Hn].
    split; simpl in *; rewrite ?length_app; simpl; [| | |done|].
    + clear -Hq Hb. induction (queue_ q) as [|x qu IH]; simpl; [by repeat constructor|].
      apply StronglySorted_inv in Hq as [Hq Hx]. apply Forall_cons in Hb as [Hx' Hb].
      constructor; [by apply IH|]. apply Forall_app; split; [done|by repeat constructor].
    + apply Forall_app; split; [|repeat constructor; lia].
      eapply Forall_impl; [exact Hb|]. simpl. lia.
    + eapply Forall_impl; [exact Hst|]. simpl. lia.
    + intros s r Hs [Hr| ->%list_elem_of_singleton]%elem_of_app; [by apply Hn|].
      rewrite Forall_forall in Hst. by apply Hst.
  - unfold invokeWoken in E. case_match; simplify_eq. eapply fifo_sub; eauto; done.
  - unfold invokeTimeout in E. repeat case_match; simplify_eq; eapply fifo_sub; eauto; simpl;
      rewrite ?length_alter; try done. apply erase_sublist.
  - eapply fifo_sub; eauto; simpl; rewrite ?length_alter; done.
  - unfold pumpEnter in E. repeat case_match; simplify_eq; exact HF.
  - unfold pumpEnter in E. destruct q as [reqs qu rt bo cl ac ai]; simpl in *.
    repeat case_match; simplify_eq. destruct HF as [Hq Hb Hst Ho Hn]; simpl in *.
    apply StronglySorted_inv in Hq as [Hq Hx]. apply Forall_cons in Hb as [Hx' Hb].
    rewrite Forall_forall in Hx. split; simpl; rewrite ?length_alter; try done.
    + by constructor.
    + constructor; [done|]. rewrite Forall_forall. intros s Hs. apply Hn; [done|left].
    + intros s x [->|Hs]%elem_of_cons Hin; [by apply Hx|]. apply Hn; [done|by right].
  - unfold pumpLeave in E. simplify_eq. eapply fifo_sub; eauto; simpl; rewrite ?length_alter; done.
  - eapply fifo_sub; eauto; done.
  - unfold closeEnter in E. simpl in E. destruct (queue_ q) eqn:Eq; simplify_eq.
    eapply fifo_sub; eauto; done.
  - unfold closeEnter in E. simpl in E. destruct (queue_ q) eqn:Eq; simplify_eq.
    eapply fifo_sub; eauto; simpl; rewrite ?length_alter; try done. rewrite Eq. by apply sublist_cons.
  - eapply fifo_sub; eauto; simpl; rewrite ?length_alter; done.
Qed.

Lemma fifo_reachable w : rtc queue_step world0 w -> Fifo w.
Proof.
  intros Hr. eapply rtc_invariant; [exact fifo_step|exact Hr|].
  split; simpl; try constructor. by intros s r ?%elem_of_nil.
Qed.

(** ** What invoke, pump and close promise *)
(** C18. For every interleaving of binds, invokes, pumps and closes, nested
    calls included: an accepted request is in exactly one place - queued, held
    by the one call that runs or retires it, or done - and is awaited or
    answered exactly once; its callback is started at most once, with its
    captures intact, and never if it was cancelled; one callback runs at a
    time; invoke answers true exactly if the callback ran and did not throw,
    and false only once it is certain not to run or to have thrown; the queue
    holds at most 16 requests. *)
Theorem invoke_exactly_once w (Hr : rtc queue_step world0 w) :
  (forall r x, requests_ (q_ w) !! r = Some x ->
     (queued r (queue_ (q_ w)) + pumping r (acts w) + retiring r (acts w) + b2n (r_done x) = 1)%nat /\
     (waiters r (acts w) + answers true r (log w) + answers false r (log w) = 1)%nat /\
     (starts r (log w) + b2n (cancelled x) <= 1)%nat /\
     ((queued r (queue_ (q_ w)) + pumping r (acts w) > 0)%nat -> callback x = true) /\
     ((answers true r (log w) > 0)%nat -> (goodRuns r (log w) = 1)%nat) /\
     ((answers false r (log w) > 0)%nat ->
        r_done x = true /\ goodRuns r (log w) = 0%nat /\ (runs r (log w) + b2n (cancelled x) = 1)%nat)) /\
  (forall r, requests_ (q_ w) !! r = None ->
     (starts r (log w) + answers true r (log w) + answers false r (log w) = 0)%nat) /\
  (pumps (acts w) <= 1)%nat /\ active_ (q_ w) = negb (pumps (acts w) =? 0)%nat /\
  (pending (q_ w) <= kQueueCapacity)%nat.
Proof.
  destruct (queue_inv_reachable _ Hr) as [HR HF HA HN HC HCl]. split_and!.
  - intros r x Hx. destruct (HR r x Hx).
    destruct x as [cb ru ca dn su]; destruct cb, ru, ca, dn, su; simpl in *;
      split_and!; try lia; intros; split_and?; try lia; try done.
  - intros r Hx. destruct (HF r Hx) as (? & ? & ? & ? & ? & ? & ? & ? & ?). lia.
  - destruct (active_ (q_ w)); simpl in HA; lia.
  - destruct (active_ (q_ w)); simpl in HA; by rewrite <-HA.
  - exact HC.
Qed.

(** First in, first out: the requests' names follow the order in which
    invoke accepted them; the callbacks are started in that order, and one that
    is still queued comes after every one started before it. *)
Theorem callbacks_in_order w (Hr : rtc queue_step world0 w) :
  StronglySorted gt (order (log w)) /\ StronglySorted lt (queue_ (q_ w)) /\
  (forall s r, s ∈ order (log w) -> r ∈ queue_ (q_ w) -> (s < r)%nat) /\
  (forall w' r, queue_step w w' -> order (log w') = r :: order (log w) -> head (queue_ (q_ w)) = Some r).
Proof.
  destruct (fifo_reachable _ Hr) as [Hq Hb Hst Ho Hn]. split_and!; [done..|].
  intros w' r Hs Hor.
  destruct Hs as [| | | | | | |q as_ l t r' q' E|q a1 a2 l r' ok b q' E| | | |]; simpl in Hor;
    try by apply (f_equal length) in Hor; simpl in Hor; lia.
  unfold pumpEnter in E. repeat case_match; simplify_eq; simpl.
  by match goal with H : queue_ q = _ |- _ => rewrite H end.
Qed.

Lemma pumpEnter_none t q q' : pumpEnter t q = (None, q') -> q' = q.
Proof. unfold pumpEnter. repeat case_match; intros; by simplify_eq. Qed.

Lemma close_step_queue w w' : queue_step w w' -> closed_ (q_ w) = true ->
  closed_ (q_ w') = true /\ sublist (queue_ (q_ w')) (queue_ (q_ w)) /\
  length (requests_ (q_ w')) = length (requests_ (q_ w)).
Proof.
  intros Hs Hc. destruct Hs as [q as_ l t b q' E|q as_ l t fn made pushed q' E|q as_ l t fn made pushed r q' E
    |q a1 a a2 l r b q' Ha E|q a1 a2 l r b q' Hd E|q a1 a2 l r|q as_ l t q' E|q as_ l t r q' E
    |q a1 a2 l r ok b q' E|q as_ l|q a1 a2 l q' E|q a1 a2 l r q' E|q a1 a2 l r]; simpl in *.
  - unfold bindCurrentThread in E. by case_match; simplify_eq.
  - by apply invokeEnter_none in E as ->.
  - apply invokeEnter_some in E as (_ & ? & _). congruence.
  - unfold invokeWoken in E. by case_match; simplify_eq.
  - unfold invokeTimeout in E. repeat case_match; simplify_eq; simpl; rewrite ?length_alter; try done.
    split_and!; [done|apply erase_sublist|done].
  - by rewrite length_alter.
  - by apply pumpEnter_none in E as ->.
  - unfold pumpEnter in E. rewrite Hc, orb_true_r in E. by simpl in E.
  - unfold pumpLeave in E. simplify_eq. simpl. by rewrite length_alter.
  - done.
  - unfold closeEnter in E. simpl in E. destruct (queue_ q) eqn:Eq; simplify_eq. simpl. by rewrite Eq.
  - unfold closeEnter in E. simpl in E. destruct (queue_ q) eqn:Eq; simplify_eq. simpl.
    rewrite length_alter. split_and!; [done|by apply sublist_cons|done].
  - by rewrite length_alter.
Qed.

Lemma close_runs fuel q : (length (queue_ q) < fuel)%nat ->
  exists q', close fuel q = Some q' /\ queue_ q' = [] /\ closed_ q' = true /\
    (forall r, r ∈ queue_ q -> (r < length (requests_ q))%nat ->
       exists x, requests_ q' !! r = Some x /\ r_done x = true /\ success x = false) /\
    length (requests_ q') = length (requests_ q) /\
    (forall r x, requests_ q !! r = Some x -> r_done x = true -> success x = false ->
       exists x', requests_ q' !! r = Some x' /\ r_done x' = true /\ success x' = false).
Proof.
  revert q. induction fuel as [|fuel IH]; intros q Hf; [lia|]. simpl.
  unfold closeEnter. simpl. destruct q as [reqs [|r qu] rt bo cl ac ai]; simpl in *.
  - eexists. split; [done|]. split_and!; [done..| | |]; simpl; [by intros r ?%elem_of_nil|done|eauto].
  - unfold closeRetired, updReq; simpl.
    match goal with |- context [close fuel ?q0] => destruct (IH q0) as (q' & Hc & He & Hcl & Hd & Hlen & Hk) end.
    { simpl. lia. }
    exists q'. simpl in Hd, Hlen, Hk. rewrite !length_alter in Hlen. split_and!; try done.
    + intros s Hs Hl. destruct (decide (s = r)) as [->|Hne].
      * destruct (lookup_lt_is_Some_2 reqs r Hl) as [x Hx].
        eapply (Hk r); [by rewrite !list_lookup_alter_eq, Hx|done..].
      * apply Hd; [by apply elem_of_cons in Hs as [?|?]|by rewrite !length_alter].
    + intros s x Hx Hdn Hsu. destruct (decide (s = r)) as [->|Hne].
      * eapply (Hk r); [by rewrite !list_lookup_alter_eq, Hx|done..].
      * eapply (Hk s); [by rewrite !list_lookup_alter_ne by done|done..].
Qed.

(** close ends, and is final.  Alone, its loop takes one turn per queued
    request and retires each, answered false.  Among other calls: once closed
    nothing is accepted or started and the queue only shrinks, so the loop's
    turns are bounded by what was queued; every waiting invoke then has its
    request done or held by a call in progress; and once one close returned and
    every call is over, all requests are done and the destructor passes. *)
Theorem close_ends w (Hr : rtc queue_step world0 w) :
  (exists q', close (S (pending (q_ w))) (q_ w) = Some q' /\ queue_ q' = [] /\ closed_ q' = true /\
     forall r, r ∈ queue_ (q_ w) -> exists x, requests_ q' !! r = Some x /\ r_done x = true /\ success x = false) /\
  (forall w', queue_step w w' -> closed_ (q_ w) = true ->
     closed_ (q_ w') = true /\ length (requests_ (q_ w')) = length (requests_ (q_ w)) /\
     (pending (q_ w') <= pending (q_ w))%nat) /\
  (forall r q', closeEnter (q_ w) = (Some r, q') -> (pending q' < pending (q_ w))%nat) /\
  (Closed ∈ log w -> forall r x, requests_ (q_ w) !! r = Some x ->
     r_done x = true \/ Pumping r ∈ acts w \/ Cancelling r ∈ acts w \/ Closing r ∈ acts w) /\
  (Closed ∈ log w -> acts w = [] ->
     destructorOk (q_ w) = true /\ forall r x, requests_ (q_ w) !! r = Some x -> r_done x = true).
Proof.
  destruct (queue_inv_reachable _ Hr) as [HR HF HA HN HC HCl]. split_and!.
  - destruct (close_runs (S (pending (q_ w))) (q_ w)) as (q' & Hc & He & Hcl & Hd & _ & _); [unfold pending; lia|].
    exists q'. split_and!; try done. intros r Hin. apply Hd; [done|].
    pose proof (ff_bound _ (fifo_reachable _ Hr)) as Hb. rewrite Forall_forall in Hb. by apply Hb.
  - intros w' Hs Hc. destruct (close_step_queue _ _ Hs Hc) as (? & Hsub & ?). split_and!; [done..|].
    by apply sublist_length.
  - intros r q' E. unfold closeEnter in E. simpl in E. unfold pending.
    destruct (queue_ (q_ w)) eqn:Eq; simplify_eq. simpl. lia.
  - intros Hc r x Hx. destruct (HCl Hc) as [_ Hq]. destruct (HR _ _ Hx) as [Hp _ _ _ _ _ _ _ _ _ _].
    rewrite Hq in Hp. destruct (r_done x); [by left|right]. simpl in Hp.
    clear -Hp. induction (acts w) as [|a l IH]; [done|]. counts.
    destruct (decide (Pumping r = a \/ Cancelling r = a \/ Closing r = a)) as [Hd|Hd].
    + destruct Hd as [<-|[<-|<-]]; [left|right; left|right; right]; left.
    + destruct IH as [?|[?|?]]; [|left; by right|right; left; by right|right; right; by right].
      destruct a; simpl in *; rewrite ?(hit_ne r) in Hp by (intros ->; apply Hd; auto); lia.
  - intros Hc Hno. destruct (HCl Hc) as [Hcl Hq]. rewrite Hno in *. simpl in *. split.
    + unfold destructorOk. rewrite Hcl, HN. rewrite bool_decide_true by done.
      by destruct (active_ (q_ w)).
    + intros r x Hx. destruct (HR _ _ Hx) as [Hp _ _ _ _ _ _ _ _ _ _]. rewrite Hq, Hno in Hp. simpl in Hp.
      by destruct (r_done x).
Qed.

(** Two requests; close arrives while the first one's callback runs. *)
Definition demo1 := Eval vm_compute in (bindCurrentThread 7 queue0).2.
Definition demo2 := Eval vm_compute in (invokeEnter 1 true true true demo1).2.
Definition demo3 := Eval vm_compute in (pumpEnter 7 demo2).2.
Definition demo4 := Eval vm_compute in (invokeEnter 2 true true true demo3).2.
Definition demo5 := Eval vm_compute in (closeEnter demo4).2.
Definition demo6 := Eval vm_compute in (pumpLeave 0 true demo5).2.
Definition demo7 := Eval vm_compute in closeRetired 1 demo6.
Definition demo8 := Eval vm_compute in (invokeWoken 0 demo7).2.
Definition demo9 := Eval vm_compute in (invokeWoken 1 demo8).2.
Definition demo : QW := mkQW demo9 [] [Closed; Answer 1 false; Answer 0 true; Ran 0 true; Start 0].

Lemma queue_demo_reachable : rtc queue_step world0 demo.
Proof.
  trans (mkQW demo3 [Pumping 0; Waiting 0] [Start 0]).
  { eapply rtc_l; [by eapply (q_bind _ _ _ 7%nat _ demo1)|].
    eapply rtc_l; [by eapply (q_enter _ _ _ 1%nat true true true 0%nat demo2)|].
    apply rtc_once. by eapply (q_pump _ _ _ 7%nat 0%nat demo3). }
  trans (mkQW demo6 [Closing 1; Waiting 1; Waiting 0] [Ran 0 true; Start 0]).
  { eapply rtc_l; [by eapply (q_enter _ _ _ 2%nat true true true 1%nat demo4)|].
    eapply rtc_l; [by eapply q_close|].
    eapply rtc_l; [by eapply (q_close_turn _ [] _ _ 1%nat demo5)|].
    apply rtc_once. by eapply (q_pumped _ [_; _] [_] _ 0%nat true true demo6). }
  eapply rtc_l; [eapply (q_close_next _ [] [_; _])|].
  eapply rtc_l; [eapply (q_woken demo7 [_; _] _ [] _ 0%nat true demo8); [by left|done]|].
  eapply rtc_l; [eapply (q_woken _ [_] _ [] _ 1%nat false demo9); [by left|done]|].
  apply rtc_once. by eapply (q_close_done _ [] [] _ demo9).
Defined.

Lemma invoke_exactly_once_witness :
  rtc queue_step world0 demo /\
  (starts 0 (log demo) + starts 1 (log demo) = 1)%nat /\ (pending (q_ demo) <= kQueueCapacity)%nat.
Proof.
  split; [exact queue_demo_reachable|]. split; [reflexivity|]. apply (invoke_exactly_once demo queue_demo_reachable).
Defined.

Lemma callbacks_in_order_witness : rtc queue_step world0 demo /\ StronglySorted gt (order (log demo)).
Proof. split; [exact queue_demo_reachable|]. apply (callbacks_in_order demo queue_demo_reachable). Defined.

Lemma close_ends_witness : rtc queue_step world0 demo /\ destructorOk (q_ demo) = true.
Proof.
  split; [exact queue_demo_reachable|].
  apply (close_ends demo queue_demo_reachable); [left|reflexivity].
Defined.
