(* ===== verification/DisjointClock.v ===== *)
(** The clock shared by independent timestamp pairs
    (src/src/common/gpu_disjoint_clock.h, class [DisjointClock]): a ring of
    disjoint queries and the inert tokens that borrow them.

    The driver behind [DisjointBackend] is an arbitrary function of the calls
    made so far; its legal use is [GpuSpan.protocol], which the timestamp spans
    obey too.  [currentOwner] is an argument of each operation: its answer is
    taken to be the same throughout one call.  An array is a function of the
    index. *)
From S2P Require Import Prelude.
From S2P Require Import GpuSpan.
Local Open Scope Z_scope.

(** ** Data *)
Inductive DisjointStatus := StPending | StReady | StFailed.
#[export] Instance DisjointStatus_eq_dec : EqDecision DisjointStatus.
Proof. solve_decision. Defined.
Inductive DisjointReason :=
| RNone | InvalidLease | RWrongOwner | RIncomplete | RDriverFailure | RDisjoint | RZeroFrequency | RStale.
Record DisjointResult := mkDisjoint { status : DisjointStatus; dr_frequency : Z; dr_disjoint : bool; dr_reason : DisjointReason }.
Definition pendingResult : DisjointResult := mkDisjoint StPending 0 false RNone.
Definition failure (why : DisjointReason) : DisjointResult := mkDisjoint StFailed 0 false why.

Record DisjointBackend := mkBackend {
  b_create : list DEv -> nat -> bool; b_begin : list DEv -> nat -> bool;
  b_end : list DEv -> nat -> bool; b_poll : list DEv -> nat -> DisjointResult }.

Definition kRecords : nat := 8.
Definition kLeases : nat := 32.
Definition kClockMaxAgeMs : Z := 2000.

Record Lease := mkLease { l_clock : Z; l_generation : Z; l_serial : Z; l_record : nat; l_index : nat }.
Definition lease0 : Lease := mkLease 0 0 0 0 0.
Definition lease_bool (t : Lease) : bool := negb (l_clock t =? 0).
#[export] Instance Lease_eq_dec : EqDecision Lease.
Proof. solve_decision. Defined.

Inductive Kind := Borrowed | Standalone | Frame.
#[export] Instance Kind_eq_dec : EqDecision Kind.
Proof. solve_decision. Defined.
Inductive RecState := Idle | ROpen | RPending | RComplete.
#[export] Instance RecState_eq_dec : EqDecision RecState.
Proof. solve_decision. Defined.

Record LeaseState := mkLS { ls_serial : Z; kind : Kind; occupied : bool; ls_ended : bool; invalid : bool }.
Definition leaseState0 : LeaseState := mkLS 0 Borrowed false false false.
#[export] Instance eta_LS : Settable LeaseState := fun l => mkLS (ls_serial l) (kind l) (occupied l) (ls_ended l) (invalid l).

Record Rec := mkRec {
  r_state : RecState; r_created : bool; r_generation : Z; nextSerial : Z; closedAt : Z; refs : Z;
  result : DisjointResult; leases : nat -> LeaseState }.
Definition rec0 : Rec := mkRec Idle false 0 0 0 0 pendingResult (fun _ => leaseState0).
#[export] Instance eta_Rec : Settable Rec := fun r =>
  mkRec (r_state r) (r_created r) (r_generation r) (nextSerial r) (closedAt r) (refs r) (result r) (leases r).

(** [active_]: [None] is -1. *)
Record DisjointClock := mkClock {
  dc_owner : GpuSpanOwner; id_ : Z; records_ : nat -> Rec; active_ : option nat; stopped_ : bool; dc_shut : bool }.
#[export] Instance eta_Clock : Settable DisjointClock := fun c =>
  mkClock (dc_owner c) (id_ c) (records_ c) (active_ c) (stopped_ c) (dc_shut c).

(** [fetch_add(1) + 1] on the shared counter. *)
Definition nextId (counter : Z) : Z * Z := (u64 (counter + 1), u64 (counter + 1)).
Definition clock0 (owner : GpuSpanOwner) (id : Z) : DisjointClock :=
  mkClock owner id (fun _ => rec0) None false false.

(** [issued]: every token handed out, latest first. *)
Record CW := mkCW { clk : DisjointClock; dcalls : list DEv; issued : list Lease }.
#[export] Instance eta_CW : Settable CW := fun w => mkCW (clk w) (dcalls w) (issued w).

Definition getC : M CW DisjointClock := fun w => (clk w, w).
Definition getRec (i : nat) : M CW Rec := fun w => (records_ (clk w) i, w).
Definition updC (f : DisjointClock -> DisjointClock) : M CW unit := fun w => (tt, w <| clk := f (clk w) |>).
Definition setAt {A} (i : nat) (x : A) (a : nat -> A) : nat -> A := fun j => if decide (j = i) then x else a j.
Definition updRec (i : nat) (f : Rec -> Rec) : M CW unit :=
  updC (fun c => c <| records_ := setAt i (f (records_ c i)) (records_ c) |>).
Definition call {A} (a : list DEv -> A) (ev : A -> DEv) : M CW A := fun w =>
  let x := a (dcalls w) in (x, w <| dcalls := ev x :: dcalls w |>).
Definition issue (t : Lease) : M CW unit := fun w => (tt, w <| issued := t :: issued w |>).

Section Clock.
Context (b : DisjointBackend).
Definition be_create i : M CW bool := call (fun l => b_create b l i) (DCreate i).
Definition be_begin i : M CW bool := call (fun l => b_begin b l i) (DBegin i).
Definition be_end i : M CW bool := call (fun l => b_end b l i) (DEnd i).
Definition be_poll i : M CW DisjointResult := call (fun l => b_poll b l i) (fun _ => DPoll i).
Definition be_destroy i : M CW unit := call (fun _ => tt) (fun _ => DDestroy i).

(** ** Private operations *)
Definition ownerOk (actual : GpuSpanOwner) (c : DisjointClock) : bool :=
  let o := dc_owner c in
  negb (device o =? 0) && negb (context o =? 0) && negb (thread o =? 0) && immediate o &&
  (device actual =? device o) && (context actual =? context o) && (thread actual =? thread o) && immediate actual.

Definition validLease (t : Lease) (c : DisjointClock) : bool :=
  if negb (l_clock t =? id_ c) || (kRecords <=? l_record t)%nat || (kLeases <=? l_index t)%nat then false
  else
    let r := records_ c (l_record t) in
    let l := leases r (l_index t) in
    negb (bool_decide (r_state r = Idle)) && (r_generation r =? l_generation t) && occupied l && (ls_serial l =? l_serial t).

(** The first lease of [j, j + n) that is free. *)
Fixpoint freeLease (n j : nat) (r : Rec) : option nat :=
  match n with O => None | S n => if occupied (leases r j) then freeLease n (S j) r else Some j end.

Definition allocate (i : nat) (k : Kind) : M CW Lease :=
  c ← getC; r ← getRec i;
  match freeLease kLeases 0 r with
  | None => mret lease0
  | Some j =>
      if nextSerial r =? u64_max then mret lease0
      else
        let serial := u64 (nextSerial r + 1) in
        updRec i (fun r => r <| nextSerial := serial |> <| leases := setAt j (mkLS serial k true false false) (leases r) |>
                             <| refs := u32 (refs r + 1) |>);;
        let t := mkLease (id_ c) (r_generation r) serial i j in
        issue t;; mret t
  end.

(** The first record of [i, i + n) that can be opened. *)
Fixpoint idleRecord (n i : nat) (c : DisjointClock) : option nat :=
  match n with
  | O => None
  | S n => if negb (bool_decide (r_state (records_ c i) = Idle)) || (r_generation (records_ c i) =? u64_max)
           then idleRecord n (S i) c else Some i
  end.

Definition beginRecord (i : nat) (k : Kind) : M CW Lease :=
  ok ← be_begin i;
  if negb ok then
    be_destroy i;; updRec i (fun r => r <| r_created := false |>);; mret lease0
  else
    updRec i (fun r => r <| r_generation := u64 (r_generation r + 1) |> <| r_state := ROpen |> <| result := pendingResult |>);;
    updC (fun c => c <| active_ := Some i |>);;
    allocate i k.
Definition open (k : Kind) : M CW Lease :=
  c ← getC;
  match idleRecord kRecords 0 c with
  | None => mret lease0
  | Some i =>
      r ← getRec i;
      if r_created r then beginRecord i k
      else
        ok ← be_create i;
        if negb ok then mret lease0
        else updRec i (fun r => r <| r_created := true |>);; beginRecord i k
  end.

Definition abandon (l : LeaseState) : LeaseState :=
  if occupied l && negb (ls_ended l) then l <| invalid := true |> else l.
Definition closeRec (i : nat) (now : Z) : M CW bool :=
  ok ← be_end i;
  updC (fun c => c <| active_ := None |>);;
  updRec i (fun r => r <| closedAt := now |> <| r_state := if (ok : bool) then RPending else RComplete |>);;
  (if negb ok then
     updC (fun c => c <| stopped_ := true |>);;
     updRec i (fun r => r <| result := failure RDriverFailure |>)
   else mret tt);;
  updRec i (fun r => r <| leases := fun j => abandon (leases r j) |>);;
  mret ok.

Definition retireRec (i : nat) : M CW unit :=
  r ← getRec i;
  if negb (refs r =? 0) || negb (bool_decide (r_state r = RComplete)) then mret tt
  else
    let keep := r_created r && bool_decide (status (result r) = StReady) in
    (if r_created r && negb keep then be_destroy i else mret tt);;
    updRec i (fun _ => rec0 <| r_created := keep |> <| r_generation := r_generation r |>).

(** What [update] makes of the driver's answer. *)
Definition judge (q : DisjointResult) : DisjointResult :=
  match status q with
  | StReady => if dr_disjoint q then failure RDisjoint
               else if dr_frequency q =? 0 then failure RZeroFrequency else q
  | StFailed => failure RDriverFailure
  | StPending => q
  end.
Definition update (now : Z) (i : nat) : M CW unit :=
  c ← getC; r ← getRec i;
  if negb (bool_decide (r_state r = RPending)) then mret tt
  else
    q ← (if stopped_ c then mret (failure RDriverFailure)
         else if (closedAt r <=? now) && (kClockMaxAgeMs <? now - closedAt r) then mret (failure RStale)
         else q ← be_poll i; mret (judge q));
    updRec i (fun r => r <| result := q |> <| r_state := if decide (status q = StPending) then r_state r else RComplete |>);;
    retireRec i.

(** ** Public operations *)
Fixpoint forEachRecord (ids : list nat) (f : nat -> M CW unit) : M CW unit :=
  match ids with [] => mret tt | i :: ids => f i;; forEachRecord ids f end.
Definition collect (now : Z) (o : GpuSpanOwner) : M CW bool :=
  c ← getC;
  if negb (ownerOk o c) || dc_shut c then mret false
  else forEachRecord (seq 0 kRecords) (update now);; mret true.

Definition startFrame (now : Z) (o : GpuSpanOwner) : M CW Lease :=
  c ← getC;
  if negb (ownerOk o c) || stopped_ c || dc_shut c || negb (bool_decide (active_ c = None)) then mret lease0
  else collect now o;; open Frame.
Definition acquireInterval (now : Z) (o : GpuSpanOwner) : M CW Lease :=
  c ← getC;
  if negb (ownerOk o c) || stopped_ c || dc_shut c then mret lease0
  else match active_ c with
  | Some i => allocate i Borrowed
  | None => collect now o;; open Standalone
  end.

Definition liveFrame (r : Rec) : bool :=
  existsb (fun j => let l := leases r j in
    occupied l && bool_decide (kind l = Frame) && negb (ls_ended l) && negb (invalid l)) (seq 0 kLeases).
Definition acquireBorrowedFrame (o : GpuSpanOwner) : M CW Lease :=
  c ← getC;
  if negb (ownerOk o c) || stopped_ c || dc_shut c then mret lease0
  else match active_ c with
  | None => mret lease0
  | Some i => if liveFrame (records_ c i) then allocate i Borrowed else mret lease0
  end.

Definition markEnded (t : Lease) : M CW unit :=
  updRec (l_record t) (fun r => r <| leases := setAt (l_index t) ((leases r (l_index t)) <| ls_ended := true |>) (leases r) |>).
Definition endInterval (t : Lease) (now : Z) (o : GpuSpanOwner) : M CW bool :=
  c ← getC;
  if negb (ownerOk o c) || dc_shut c || negb (validLease t c) then mret false
  else
    let r := records_ c (l_record t) in let l := leases r (l_index t) in
    if negb (bool_decide (r_state r = ROpen)) || bool_decide (kind l = Frame) || ls_ended l || invalid l then mret false
    else
      markEnded t;;
      if decide (kind l = Standalone) then closeRec (l_record t) now else mret true.
Definition finishDisjointFrame (t : Lease) (now : Z) (o : GpuSpanOwner) : M CW bool :=
  c ← getC;
  if negb (ownerOk o c) || dc_shut c || negb (validLease t c) then mret false
  else
    let r := records_ c (l_record t) in let l := leases r (l_index t) in
    if negb (bool_decide (r_state r = ROpen)) || negb (bool_decide (kind l = Frame)) || ls_ended l then mret false
    else markEnded t;; closeRec (l_record t) now.

Definition pollLease (t : Lease) (now : Z) (o : GpuSpanOwner) : M CW DisjointResult :=
  c ← getC;
  if negb (ownerOk o c) then mret (failure RWrongOwner)
  else if dc_shut c || negb (validLease t c) then mret (failure InvalidLease)
  else
    let l := leases (records_ c (l_record t)) (l_index t) in
    if invalid l then mret (failure RIncomplete)
    else if negb (ls_ended l) then mret pendingResult
    else update now (l_record t);; r ← getRec (l_record t); mret (result r).

Definition releaseLease (t : Lease) (now : Z) (o : GpuSpanOwner) : M CW bool :=
  c ← getC;
  if negb (ownerOk o c) || dc_shut c || negb (validLease t c) then mret false
  else
    let r := records_ c (l_record t) in let l := leases r (l_index t) in
    (if bool_decide (r_state r = ROpen) && negb (bool_decide (kind l = Borrowed))
     then closeRec (l_record t) now;; mret tt else mret tt);;
    updRec (l_record t) (fun r => r <| leases := setAt (l_index t) ((leases r (l_index t)) <| occupied := false |>) (leases r) |>
                                    <| refs := u32 (refs r - 1) |>);;
    retireRec (l_record t);;
    mret true.

Definition destroyRecord (i : nat) : M CW unit :=
  r ← getRec i;
  (if r_created r then be_destroy i else mret tt);;
  updRec i (fun _ => rec0).
Definition shutdownClock (now : Z) (o : GpuSpanOwner) : M CW bool :=
  c ← getC;
  if negb (ownerOk o c) || dc_shut c then mret false
  else
    (match active_ c with Some i => closeRec i now;; mret tt | None => mret tt end);;
    forEachRecord (seq 0 kRecords) destroyRecord;;
    updC (fun c => c <| dc_shut := true |>);;
    mret true.
End Clock.

(** ** Programs *)
Inductive COp :=
| CStart (now : Z) | CAcquire (now : Z) | CBorrow | CEnd (t : Lease) (now : Z) | CFinish (t : Lease) (now : Z)
| CPoll (t : Lease) (now : Z) | CRelease (t : Lease) (now : Z) | CCollect (now : Z) | CShutdown (now : Z).
Definition runCOp (b : DisjointBackend) (o : GpuSpanOwner) (op : COp) : M CW unit :=
  match op with
  | CStart now => _ ← startFrame b now o; mret tt
  | CAcquire now => _ ← acquireInterval b now o; mret tt
  | CBorrow => _ ← acquireBorrowedFrame o; mret tt
  | CEnd t now => _ ← endInterval b t now o; mret tt
  | CFinish t now => _ ← finishDisjointFrame b t now o; mret tt
  | CPoll t now => _ ← pollLease b t now o; mret tt
  | CRelease t now => _ ← releaseLease b t now o; mret tt
  | CCollect now => _ ← collect b now o; mret tt
  | CShutdown now => _ ← shutdownClock b now o; mret tt
  end.
Definition runCOps (b : DisjointBackend) (os : list (GpuSpanOwner * COp)) (w : CW) : CW :=
  foldl (fun w '(o, op) => (runCOp b o op w).2) w os.

(** ** Symbolic execution *)
Lemma wp_getC Q w : Q (clk w) w -> wp getC Q w. Proof. done. Qed.
Lemma wp_getRec i Q w : Q (records_ (clk w) i) w -> wp (getRec i) Q w. Proof. done. Qed.
Lemma wp_updC f (Q : unit -> CW -> Prop) w : Q tt (mkCW (f (clk w)) (dcalls w) (issued w)) -> wp (updC f) Q w.
Proof. done. Qed.
Lemma wp_updRec i f (Q : unit -> CW -> Prop) w :
  Q tt (mkCW ((clk w) <| records_ := setAt i (f (records_ (clk w) i)) (records_ (clk w)) |>) (dcalls w) (issued w)) ->
  wp (updRec i f) Q w.
Proof. done. Qed.
Lemma wp_call {A} (a : list DEv -> A) ev (Q : A -> CW -> Prop) w :
  (forall x, Q x (mkCW (clk w) (ev x :: dcalls w) (issued w))) -> wp (call a ev) Q w.
Proof. intros H. apply H. Qed.
Lemma wp_issue t (Q : unit -> CW -> Prop) w : Q tt (mkCW (clk w) (dcalls w) (t :: issued w)) -> wp (issue t) Q w.
Proof. done. Qed.

Ltac cx :=
  cbv beta zeta;
  match goal with
  | |- wp (_ ≫= _) _ _ => apply wp_bind
  | |- wp (mret _) _ _ => apply wp_ret
  | |- wp getC _ _ => apply wp_getC
  | |- wp (getRec _) _ _ => apply wp_getRec
  | |- wp (updC _) _ _ => apply wp_updC
  | |- wp (updRec _ _) _ _ => apply wp_updRec
  | |- wp (be_create _ _) _ _ => apply wp_call; intros ?ok
  | |- wp (be_begin _ _) _ _ => apply wp_call; intros ?ok
  | |- wp (be_end _ _) _ _ => apply wp_call; intros ?ok
  | |- wp (be_poll _ _) _ _ => apply wp_call; intros ?q
  | |- wp (be_destroy _ _) _ _ => apply wp_call; intros []
  | |- wp (issue _) _ _ => apply wp_issue
  end; cbv beta zeta.

Lemma setAt_eq {A} i (x : A) a : setAt i x a i = x.
Proof. unfold setAt. by rewrite decide_True. Qed.
Lemma setAt_ne {A} i j (x : A) a : j <> i -> setAt i x a j = a j.
Proof. unfold setAt. intros. by rewrite decide_False. Qed.

(** ** Counting the occupied leases *)
Definition occ (ls : nat -> LeaseState) (js : list nat) : nat :=
  sum_list_with (fun j => if occupied (ls j) then 1%nat else 0%nat) js.

Lemma occ_ext ls ls' js : (forall j, occupied (ls' j) = occupied (ls j)) -> occ ls' js = occ ls js.
Proof. intros H. unfold occ. induction js as [|j js IH]; simpl; [done|]. by rewrite H, IH. Qed.

Lemma occ_none ls js : (forall j, occupied (ls j) = false) -> occ ls js = 0%nat.
Proof. intros H. unfold occ. induction js as [|j js IH]; simpl; [done|]. by rewrite H, IH. Qed.

Lemma occ_zero ls js j : occ ls js = 0%nat -> j ∈ js -> occupied (ls j) = false.
Proof.
  unfold occ. induction js as [|k js IH]; [by intros _ ?%elem_of_nil|]. simpl.
  intros H [->|Hin]%elem_of_cons; [by destruct (occupied (ls k))|]. apply IH; [lia|done].
Qed.

Lemma occ_set_out ls i x js : i ∉ js -> occ (setAt i x ls) js = occ ls js.
Proof.
  unfold occ. induction js as [|k js IH]; simpl; [done|]. intros Hn.
  rewrite setAt_ne by (intros ->; apply Hn; left). rewrite IH; [done|].
  intros ?. apply Hn. by right.
Qed.

Lemma occ_set ls i x js : NoDup js -> i ∈ js ->
  (occ (setAt i x ls) js + (if occupied (ls i) then 1 else 0) = occ ls js + (if occupied x then 1 else 0))%nat.
Proof.
  induction 1 as [|k js Hk Hnd IH]; [by intros ?%elem_of_nil|].
  intros [->|Hin]%elem_of_cons; unfold occ in *; simpl.
  - rewrite setAt_eq. fold (occ (setAt k x ls) js). rewrite (occ_set_out ls k x js Hk). unfold occ. lia.
  - rewrite (setAt_ne i k) by (intros ->; done). specialize (IH Hin). lia.
Qed.

Lemma occ_bound ls js : (occ ls js <= length js)%nat.
Proof. unfold occ. induction js as [|j js IH]; simpl; [lia|]. destruct (occupied (ls j)); lia. Qed.

Definition slots32 : list nat := seq 0 kLeases.
Lemma in_slots32 j : j ∈ slots32 <-> (j < kLeases)%nat.
Proof. unfold slots32. rewrite elem_of_seq. lia. Qed.

#[local] Arguments occ : simpl never.
#[local] Arguments slots32 : simpl never.

(** ** The invariant *)
(** [validIn t r]: the token [t] opens a lease of the record [r]. *)
Definition validIn (t : Lease) (r : Rec) : Prop :=
  r_state r <> Idle /\ r_generation r = l_generation t /\ occupied (leases r (l_index t)) = true /\
  ls_serial (leases r (l_index t)) = l_serial t.

Record RI (id : Z) (i : nat) (iss : list Lease) (r : Rec) : Prop := {
  ri_refs : refs r = Z.of_nat (occ (leases r) slots32);
  ri_idle : r_state r = Idle -> forall j, occupied (leases r j) = false;
  ri_occ : forall j, occupied (leases r j) = true ->
    (j < kLeases)%nat /\ ls_serial (leases r j) <= nextSerial r /\
    mkLease id (r_generation r) (ls_serial (leases r j)) i j ∈ iss;
  ri_next : is_u64 (nextSerial r);
  ri_gen : is_u64 (r_generation r);
  ri_result : r_state r = RComplete <-> status (result r) <> StPending;
  ri_ready : status (result r) = StReady -> dr_disjoint (result r) = false /\ dr_frequency (result r) <> 0;
  ri_closed : r_state r <> ROpen -> forall j, occupied (leases r j) = true ->
    ls_ended (leases r j) = true \/ invalid (leases r j) = true;
  ri_made : r_state r <> Idle -> r_created r = true;
  ri_high : r_created r = true -> (i < kRecords)%nat }.

(** The tokens of earlier generations and earlier serials of record [i]. *)
Definition Older (i : nat) (iss : list Lease) (r : Rec) : Prop :=
  forall t, t ∈ iss -> l_record t = i ->
    l_generation t <= r_generation r /\
    (l_generation t = r_generation r -> r_state r <> Idle -> l_serial t <= nextSerial r).

Record CI (w : CW) : Prop := {
  ci_rec : forall i, RI (id_ (clk w)) i (issued w) (records_ (clk w) i);
  ci_old : dc_shut (clk w) = false -> forall i, Older i (issued w) (records_ (clk w) i);
  ci_prot : exists p, protocol (dcalls w) = Some p /\ scope p = active_ (clk w) /\ dead p = stopped_ (clk w) /\
              forall j, j ∈ made p <-> r_created (records_ (clk w) j) = true;
  ci_open : forall i, r_state (records_ (clk w) i) = ROpen <-> active_ (clk w) = Some i;
  ci_bound : forall i, active_ (clk w) = Some i -> (i < kRecords)%nat;
  ci_stopped : stopped_ (clk w) = true -> active_ (clk w) = None;
  ci_tokens : NoDup (issued w) /\
    Forall (fun t => l_clock t = id_ (clk w) /\ (l_record t < kRecords)%nat /\ (l_index t < kLeases)%nat) (issued w) }.

(** What every operation promises of the tokens handed out before it: none
    comes back to life, and a record's verdict is not changed under a token. *)
Record Rel (w w' : CW) : Prop := {
  rel_id : id_ (clk w') = id_ (clk w) /\ dc_owner (clk w') = dc_owner (clk w);
  rel_iss : forall t, t ∈ issued w -> t ∈ issued w';
  rel_valid : forall t, t ∈ issued w -> validIn t (records_ (clk w') (l_record t)) ->
    validIn t (records_ (clk w) (l_record t)) /\
    (r_state (records_ (clk w) (l_record t)) = RComplete ->
       r_state (records_ (clk w') (l_record t)) = RComplete /\ result (records_ (clk w') (l_record t)) = result (records_ (clk w) (l_record t))) }.

Definition Good (w w' : CW) : Prop := CI w' /\ Rel w w'.

Lemma rel_refl w : Rel w w.
Proof. by split. Qed.

Lemma validIn_state t r : validIn t r -> r_state r <> Idle.
Proof. by intros [? _]. Qed.

Lemma rel_trans w1 w2 w3 : Rel w1 w2 -> Rel w2 w3 -> Rel w1 w3.
Proof.
  intros [[E1 O1] I1 V1] [[E2 O2] I2 V2]. split; [split; congruence|eauto|].
  intros t Ht Hv. destruct (V2 t (I1 t Ht) Hv) as [Hv2 Hc2]. destruct (V1 t Ht Hv2) as [Hv1 Hc1].
  split; [done|]. intros Hs. destruct (Hc1 Hs) as [Hs2 E]. destruct (Hc2 Hs2) as [Hs3 E']. split; congruence.
Qed.

Lemma good_trans w1 w2 w3 : Good w1 w2 -> Good w2 w3 -> Good w1 w3.
Proof. intros [_ R1] [C2 R2]. split; [done|by eapply rel_trans]. Qed.


(** ** Effects: [Put] says a run changed record [i] to [x], logged [ev] and
    left the identity, the other records and the tokens alone. *)
Record Put (i : nat) (x : Rec) (ev : list DEv) (ac : option nat) (st : bool) (w w' : CW) : Prop := {
  put_id : id_ (clk w') = id_ (clk w);
  put_owner : dc_owner (clk w') = dc_owner (clk w);
  put_shut : dc_shut (clk w') = dc_shut (clk w);
  put_rec : records_ (clk w') i = x;
  put_other : forall j, j <> i -> records_ (clk w') j = records_ (clk w) j;
  put_calls : dcalls w' = ev ++ dcalls w;
  put_issued : issued w' = issued w;
  put_active : active_ (clk w') = ac;
  put_stopped : stopped_ (clk w') = st }.

Ltac put_done := split; simpl; intros; rewrite ?setAt_eq; rewrite ?setAt_ne by done; done.

Definition closedRec (ok : bool) (now : Z) (r : Rec) : Rec :=
  mkRec (if ok then RPending else RComplete) (r_created r) (r_generation r) (nextSerial r) now (refs r)
    (if ok then result r else failure RDriverFailure) (fun j => abandon (leases r j)).

Lemma put_closeRec b i now w :
  wp (closeRec b i now)
    (fun ok => Put i (closedRec ok now (records_ (clk w) i)) [DEnd i ok] None (stopped_ (clk w) || negb ok) w) w.
Proof.
  unfold closeRec. do 6 cx. apply wp_bind. destruct ok; simpl; repeat cx.
  - split; simpl; intros; rewrite ?setAt_eq; rewrite ?setAt_ne by done; try done. by rewrite orb_false_r.
  - split; simpl; intros; rewrite ?setAt_eq; rewrite ?setAt_ne by done; try done. by rewrite orb_true_r.
Qed.

Lemma put_markEnded t w :
  let r := records_ (clk w) (l_record t) in
  wp (markEnded t)
    (fun _ => Put (l_record t) (r <| leases := setAt (l_index t) ((leases r (l_index t)) <| ls_ended := true |>) (leases r) |>)
                  [] (active_ (clk w)) (stopped_ (clk w)) w) w.
Proof. intros r. unfold markEnded. cx. put_done. Qed.

(** What [retireRec] leaves of a record. *)
Definition retired (r : Rec) : bool := (refs r =? 0) && bool_decide (r_state r = RComplete).
Definition keeps (r : Rec) : bool := r_created r && bool_decide (status (result r) = StReady).
Definition afterRetire (r : Rec) : Rec :=
  if retired r then rec0 <| r_created := keeps r |> <| r_generation := r_generation r |> else r.

Lemma put_retireRec i w :
  let r := records_ (clk w) i in
  wp (retireRec i)
    (fun _ => Put i (afterRetire r) (if retired r && r_created r && negb (keeps r) then [DDestroy i] else [])
                  (active_ (clk w)) (stopped_ (clk w)) w) w.
Proof.
  intros r. unfold retireRec, afterRetire, retired. do 2 cx. fold r.
  destruct (refs r =? 0) eqn:Er; simpl; [|cx; by split].
  destruct (bool_decide (r_state r = RComplete)) eqn:Es; simpl; [|cx; by split].
  apply wp_bind. fold (keeps r). destruct (r_created r) eqn:Ec; simpl.
  - destruct (keeps r) eqn:Ek; simpl; repeat cx; split; simpl; intros; rewrite ?setAt_eq; rewrite ?setAt_ne by done; try done.
  - unfold keeps. rewrite Ec. repeat cx. split; simpl; intros; rewrite ?setAt_eq; rewrite ?setAt_ne by done; try done.
Qed.

(** A change of one record within the invariant is [Good]. *)
Lemma good_put i x ev ac st w w' p :
  CI w -> dc_shut (clk w) = false -> (i < kRecords)%nat -> Put i x ev ac st w w' ->
  let r := records_ (clk w) i in
  RI (id_ (clk w)) i (issued w) x ->
  r_generation r <= r_generation x ->
  (r_generation x = r_generation r -> r_state x <> Idle -> r_state r <> Idle /\ nextSerial r <= nextSerial x) ->
  (forall t, t ∈ issued w -> validIn t x -> validIn t r /\
     (r_state r = RComplete -> r_state x = RComplete /\ result x = result r)) ->
  protocol (ev ++ dcalls w) = Some p -> scope p = ac -> dead p = st ->
  (forall j, j ∈ made p <-> if decide (j = i) then r_created x = true else r_created (records_ (clk w) j) = true) ->
  (r_state x = ROpen <-> ac = Some i) ->
  (forall j, j <> i -> ac = Some j <-> active_ (clk w) = Some j) ->
  (st = true -> ac = None) ->
  Good w w'.
Proof.
  intros HC Hsh Hi [Eid Eow Esh Ex Hother Eca Eis Eac Est] r HRI Hg Hn Hval Hp Hs Hd Hm Hopen Hact Hst. subst r. split.
  - destruct HC as [HR HO HP HOp HB HSt HT]. split; rewrite ?Eid, ?Eis, ?Eac, ?Est, ?Eca.
    + intros j. destruct (decide (j = i)) as [->|Hne]; [by rewrite Ex|]. rewrite Hother by done. apply HR.
    + intros _ j. destruct (decide (j = i)) as [->|Hne]; [|rewrite Hother by done; by apply HO].
      rewrite Ex. intros t Ht Hr. destruct (HO Hsh i t Ht Hr) as [Hle Hse].
      split; [lia|]. intros He Hx. destruct (decide (r_generation x = r_generation (records_ (clk w) i))) as [Eg|Eg].
      * destruct (Hn Eg Hx). specialize (Hse ltac:(congruence) ltac:(done)). lia.
      * lia.
    + exists p. split_and!; try done. intros j. rewrite Hm. destruct (decide (j = i)) as [->|Hne]; [by rewrite Ex|].
      by rewrite Hother.
    + intros j. destruct (decide (j = i)) as [->|Hne]; [by rewrite Ex|]. rewrite Hother by done.
      rewrite Hact by done. apply HOp.
    + intros j Hj. destruct (decide (j = i)) as [->|Hne]; [done|]. apply HB. by apply Hact.
    + done.
    + done.
  - split; [done| |].
    + intros t. by rewrite Eis.
    + intros t Ht. destruct (decide (l_record t = i)) as [Et|Hne].
      * rewrite Et, Ex. by apply Hval.
      * rewrite Hother by done. by auto.
Qed.

(** Changes that keep the tokens of a record: what is left to show is the
    verdict and the closed leases. *)
Lemma RI_same id i iss r x : RI id i iss r -> r_state r <> Idle -> r_state x <> Idle ->
  refs x = refs r -> nextSerial x = nextSerial r -> r_generation x = r_generation r -> r_created x = r_created r ->
  (forall j, occupied (leases x j) = occupied (leases r j) /\ ls_serial (leases x j) = ls_serial (leases r j)) ->
  (r_state x = RComplete <-> status (result x) <> StPending) ->
  (status (result x) = StReady -> dr_disjoint (result x) = false /\ dr_frequency (result x) <> 0) ->
  (r_state x <> ROpen -> forall j, occupied (leases x j) = true ->
     ls_ended (leases x j) = true \/ invalid (leases x j) = true) ->
  RI id i iss x.
Proof.
  intros [Hrf Hid Hoc Hnx Hge Hrs Hrd Hcl Hmd Hhi] Hs Hx Er En Eg Em Hl Hres Hrdy Hclo.
  split; rewrite ?Er, ?En, ?Eg, ?Em; try done.
  - rewrite Hrf. f_equal. symmetry. apply occ_ext. intros j. apply Hl.
  - intros j Hj. destruct (Hl j) as [Eo Es]. rewrite Es. apply Hoc. by rewrite <-Eo.
  - intros _. by apply Hmd.
Qed.

Lemma valid_same t r x : r_state r <> Idle ->
  r_generation x = r_generation r ->
  (forall j, occupied (leases x j) = occupied (leases r j) /\ ls_serial (leases x j) = ls_serial (leases r j)) ->
  validIn t x -> validIn t r.
Proof.
  intros Hs Eg Hl (_ & Hg & Ho & Hse). destruct (Hl (l_index t)) as [Eo Es]. split_and!; congruence.
Qed.

Lemma dc_prot w : CI w -> exists p, protocol (dcalls w) = Some p /\ scope p = active_ (clk w) /\ dead p = stopped_ (clk w) /\
  forall j, j ∈ made p <-> r_created (records_ (clk w) j) = true.
Proof. apply ci_prot. Qed.

Lemma made_same i x r (m : gset nat) (rs : nat -> Rec) : (forall j, j ∈ m <-> r_created (rs j) = true) ->
  rs i = r -> r_created x = r_created r ->
  forall j, j ∈ m <-> if decide (j = i) then r_created x = true else r_created (rs j) = true.
Proof. intros Hm Hr Hx j. rewrite Hm. destruct (decide (j = i)) as [->|]; [by rewrite Hr, Hx|done]. Qed.

Lemma open_state i w : CI w -> active_ (clk w) = Some i ->
  (i < kRecords)%nat /\ r_state (records_ (clk w) i) = ROpen /\ stopped_ (clk w) = false /\
  status (result (records_ (clk w) i)) = StPending.
Proof.
  intros HC Ha. pose proof (proj2 (ci_open _ HC i) Ha) as Ho. split_and!; [by apply (ci_bound _ HC)|done| |].
  - destruct (stopped_ (clk w)) eqn:E; [|done]. rewrite (ci_stopped _ HC E) in Ha. done.
  - destruct (decide (status (result (records_ (clk w) i)) = StPending)) as [?|Hn]; [done|].
    apply (ri_result _ _ _ _ (ci_rec _ HC i)) in Hn. congruence.
Qed.

Lemma abandon_done l : occupied (abandon l) = true -> ls_ended (abandon l) = true \/ invalid (abandon l) = true.
Proof. destruct l as [se k o e v]. unfold abandon. destruct o, e; simpl; auto; done. Qed.

Lemma good_close i ok now w w' : CI w -> dc_shut (clk w) = false -> active_ (clk w) = Some i ->
  Put i (closedRec ok now (records_ (clk w) i)) [DEnd i ok] None (stopped_ (clk w) || negb ok) w w' -> Good w w'.
Proof.
  intros HC Hsh Ha HP. destruct (open_state _ _ HC Ha) as (Hi & Ho & Hst & Hpe).
  destruct (dc_prot _ HC) as (p & Hp & Hs & Hd & Hm). pose proof (ci_rec _ HC i) as HR.
  assert (forall j, occupied (abandon (leases (records_ (clk w) i) j)) = occupied (leases (records_ (clk w) i) j) /\
    ls_serial (abandon (leases (records_ (clk w) i) j)) = ls_serial (leases (records_ (clk w) i) j)) as Hl.
  { intros j. unfold abandon. by case_match. }
  eapply (good_put i _ _ _ _ _ _ (mkProt (made p) None (negb ok)) HC Hsh Hi HP).
  - eapply RI_same; [exact HR|congruence|by destruct ok|done..| | |].
    + simpl. destruct ok; simpl; [|done]. by split.
    + simpl. destruct ok; simpl; [|done]. by rewrite Hpe.
    + simpl. intros _ j. apply abandon_done.
  - simpl. lia.
  - simpl. intros _ _. split; [congruence|lia].
  - intros t _ Hv. split; [|congruence]. eapply valid_same; [congruence| | |exact Hv]; done.
  - simpl. apply p_end; [exact Hp|congruence|congruence].
  - done.
  - simpl. by rewrite Hst.
  - simpl. eapply made_same; [exact Hm|done|done].
  - simpl. destruct ok; by split.
  - intros j Hj. rewrite Ha. split; [done|]. intros [= ->]. done.
  - done.
Qed.

(** A change of one record that touches neither the driver nor [active_]. *)
Lemma good_quiet i x w w' : CI w -> dc_shut (clk w) = false -> (i < kRecords)%nat ->
  Put i x [] (active_ (clk w)) (stopped_ (clk w)) w w' ->
  let r := records_ (clk w) i in
  RI (id_ (clk w)) i (issued w) x -> r_state x = r_state r -> r_state r <> Idle ->
  r_generation x = r_generation r -> nextSerial x = nextSerial r -> r_created x = r_created r -> result x = result r ->
  (forall t, t ∈ issued w -> validIn t x -> validIn t r) -> Good w w'.
Proof.
  intros HC Hsh Hi HP r HRI Es Hs Eg En Ec Er Hv. subst r. destruct (dc_prot _ HC) as (p & Hp & Hsc & Hd & Hm).
  eapply (good_put i _ _ _ _ _ _ p HC Hsh Hi HP); try done.
  - lia.
  - intros _ _. split; [done|lia].
  - intros t Ht Hx. split; [by apply Hv|]. intros Hc. split; [congruence|done].
  - eapply made_same; [exact Hm|done|done].
  - rewrite Es. apply HC.
  - apply HC.
Qed.

Lemma validLease_in t w : CI w -> validLease t (clk w) = true ->
  (l_record t < kRecords)%nat /\ (l_index t < kLeases)%nat /\ l_clock t = id_ (clk w) /\
  validIn t (records_ (clk w) (l_record t)) /\ t ∈ issued w.
Proof.
  intros HC. unfold validLease. destruct (_ || _ || _) eqn:E; [done|]. intros Hv. bool_solve.
  repeat match goal with H : (_ <=? _)%nat = false |- _ => apply Nat.leb_gt in H end.
  split_and!; try done.
  destruct (ri_occ _ _ _ _ (ci_rec _ HC (l_record t)) (l_index t)) as (_ & _ & Hin); [done|].
  destruct t as [cl ge se re ix]; simpl in *. congruence.
Qed.

Lemma good_markEnded t w w' : CI w -> dc_shut (clk w) = false -> validLease t (clk w) = true ->
  r_state (records_ (clk w) (l_record t)) = ROpen ->
  let r := records_ (clk w) (l_record t) in
  Put (l_record t) (r <| leases := setAt (l_index t) ((leases r (l_index t)) <| ls_ended := true |>) (leases r) |>)
      [] (active_ (clk w)) (stopped_ (clk w)) w w' -> Good w w'.
Proof.
  intros HC Hsh Hv Ho r HP. destruct (validLease_in _ _ HC Hv) as (Hi & _ & _ & (Hs & _) & _).
  pose proof (ci_rec _ HC (l_record t)) as HR.
  assert (forall j, occupied (setAt (l_index t) ((leases r (l_index t)) <| ls_ended := true |>) (leases r) j) = occupied (leases r j) /\
    ls_serial (setAt (l_index t) ((leases r (l_index t)) <| ls_ended := true |>) (leases r) j) = ls_serial (leases r j)) as Hl.
  { intros j. unfold setAt. by case_decide; subst. }
  eapply (good_quiet _ _ _ _ HC Hsh Hi HP); try done.
  - eapply RI_same; [exact HR|done|done|done..| | |]; [apply HR|apply HR|].
    simpl. intros Hne. by destruct Hne.
  - intros t' _. by apply valid_same.
Qed.

(** [release]'s own part: the lease is given up. *)
Lemma in_slots j : (j < kLeases)%nat -> j ∈ slots32.
Proof. apply in_slots32. Qed.
Lemma slots_nodup : NoDup slots32.
Proof. apply NoDup_seq. Qed.

Definition freedRec (j : nat) (r : Rec) : Rec :=
  r <| leases := setAt j ((leases r j) <| occupied := false |>) (leases r) |> <| refs := u32 (refs r - 1) |>.

Lemma RI_freed id i iss r j : RI id i iss r -> r_state r <> Idle -> (j < kLeases)%nat -> occupied (leases r j) = true ->
  RI id i iss (freedRec j r).
Proof.
  intros [Hrf Hid Hoc Hnx Hge Hrs Hrd Hcl Hmd Hhi] Hs Hj Ho.
  pose proof (occ_set (leases r) j ((leases r j) <| occupied := false |>) slots32 slots_nodup (in_slots _ Hj)) as Hc.
  rewrite Ho in Hc. simpl in Hc. pose proof (occ_bound (leases r) slots32) as Hb. unfold slots32 in Hb at 2. rewrite length_seq in Hb.
  unfold kLeases in Hb.
  split; simpl; try done.
  - rewrite Hrf. rewrite u32_small by (unfold is_u32, u32_max; lia). lia.
  - intros k. unfold setAt. case_decide; [done|apply Hoc].
  - intros Hn k. unfold setAt. case_decide; [done|by apply Hcl].
Qed.

Lemma good_freed t w w' : CI w -> dc_shut (clk w) = false -> (l_record t < kRecords)%nat -> (l_index t < kLeases)%nat ->
  validIn t (records_ (clk w) (l_record t)) ->
  Put (l_record t) (freedRec (l_index t) (records_ (clk w) (l_record t))) [] (active_ (clk w)) (stopped_ (clk w)) w w' ->
  Good w w' /\ ~ validIn t (records_ (clk w') (l_record t)).
Proof.
  intros HC Hsh Hi Hj (Hs & Hg & Ho & Hse) HP. split.
  - eapply (good_quiet _ _ _ _ HC Hsh Hi HP); try done.
    + apply RI_freed; try done. apply HC.
    + intros t' _ (Hs' & Hg' & Ho' & Hse'). simpl in *. unfold setAt in *. case_decide; [done|].
      by split_and!.
  - rewrite (put_rec _ _ _ _ _ _ _ HP). intros (_ & _ & Ho' & _). simpl in Ho'. by rewrite setAt_eq in Ho'.
Qed.

(** *** Retirement *)
Lemma RI_rec0 id i iss r : RI id i iss r ->
  RI id i iss (rec0 <| r_created := keeps r |> <| r_generation := r_generation r |>).
Proof.
  intros HR. split; simpl; try done; [apply HR|].
  unfold keeps. intros Hk. bool_solve. by apply HR.
Qed.

Lemma good_retire i w w' : CI w -> dc_shut (clk w) = false -> (i < kRecords)%nat ->
  let r := records_ (clk w) i in
  Put i (afterRetire r) (if retired r && r_created r && negb (keeps r) then [DDestroy i] else [])
      (active_ (clk w)) (stopped_ (clk w)) w w' -> Good w w'.
Proof.
  intros HC Hsh Hi r HP. subst r. destruct (dc_prot _ HC) as (p & Hp & Hsc & Hd & Hm). pose proof (ci_rec _ HC i) as HR.
  unfold afterRetire in HP. destruct (retired (records_ (clk w) i)) eqn:Er; simpl in HP.
  - unfold retired in Er. bool_solve.
    assert (r_created (records_ (clk w) i) = true) as Hc by (apply HR; congruence). rewrite Hc in HP. simpl in HP.
    assert (active_ (clk w) <> Some i) as Hna by (intros Ha; apply (ci_open _ HC) in Ha; congruence).
    set (k := keeps (records_ (clk w) i)) in *.
    eapply (good_put i _ _ _ _ _ _ (mkProt (if k then made p else made p ∖ {[i]}) (scope p) (dead p)) HC Hsh Hi HP); try done.
    + by apply RI_rec0.
    + simpl. by intros t _ [? _].
    + destruct k; simpl; [destruct p; exact Hp|]. apply p_destroy; [exact Hp|by apply Hm|congruence].
    + intros j. simpl. destruct k; simpl.
      * destruct (decide (j = i)) as [->|]; [by rewrite Hm|apply Hm].
      * rewrite elem_of_difference, elem_of_singleton, Hm.
        destruct (decide (j = i)) as [->|]; [by split; [intros [_ []]|]|by split; [intros [? _]|]].
    + apply HC.
  - eapply (good_put i _ _ _ _ _ _ p HC Hsh Hi HP); try done.
    + intros j. rewrite Hm. by destruct (decide (j = i)) as [->|].
    + apply HC.
    + apply HC.
Qed.

(** What the frame of an operation keeps besides the tokens. *)
Definition Kept (w w' : CW) : Prop :=
  Good w w' /\ dc_shut (clk w') = dc_shut (clk w) /\ active_ (clk w') = active_ (clk w) /\
  stopped_ (clk w') = stopped_ (clk w).

Lemma kept_trans w1 w2 w3 : Kept w1 w2 -> Kept w2 w3 -> Kept w1 w3.
Proof.
  intros (G1 & S1 & A1 & T1) (G2 & S2 & A2 & T2). split; [by eapply good_trans|]. split_and!; congruence.
Qed.

Lemma kept_refl w : CI w -> Kept w w.
Proof. intros HC. split; [split; [done|apply rel_refl]|done]. Qed.

Lemma put_kept i x ev w w' : Put i x ev (active_ (clk w)) (stopped_ (clk w)) w w' -> Good w w' -> Kept w w'.
Proof. intros HP HG. split; [done|]. split_and!; apply HP. Qed.

Lemma run_retire i w : CI w -> dc_shut (clk w) = false -> (i < kRecords)%nat ->
  wp (retireRec i) (fun _ w' => Kept w w' /\
    records_ (clk w') i = afterRetire (records_ (clk w) i)) w.
Proof.
  intros HC Hsh Hi. eapply wp_mono; [apply put_retireRec|]. intros a w' HP. cbv beta in HP.
  split; [|apply HP]. eapply put_kept; [exact HP|]. by eapply good_retire.
Qed.

Lemma judge_ready q : status (judge q) = StReady ->
  judge q = q /\ dr_disjoint q = false /\ dr_frequency q <> 0.
Proof.
  unfold judge. destruct (status q) eqn:Es; simpl; [congruence| |done].
  destruct (dr_disjoint q) eqn:Ed; [done|]. destruct (dr_frequency q =? 0) eqn:Ef; bool_solve; [done|]. by intros _.
Qed.

(** [update] on the driver's side: what became of the record before it may be
    retired. *)
Definition updated (q : DisjointResult) (r : Rec) : Rec :=
  r <| result := q |> <| r_state := if decide (status q = StPending) then r_state r else RComplete |>.

Lemma good_updated i q ev w w' : CI w -> dc_shut (clk w) = false -> (i < kRecords)%nat ->
  r_state (records_ (clk w) i) = RPending ->
  (status q = StReady -> dr_disjoint q = false /\ dr_frequency q <> 0) ->
  ev = [] \/ ev = [DPoll i] /\ stopped_ (clk w) = false ->
  Put i (updated q (records_ (clk w) i)) ev (active_ (clk w)) (stopped_ (clk w)) w w' -> Good w w'.
Proof.
  intros HC Hsh Hi Hst Hq Hev HP. destruct (dc_prot _ HC) as (p & Hp & Hsc & Hd & Hm). pose proof (ci_rec _ HC i) as HR.
  assert (r_created (records_ (clk w) i) = true) as Hc by (apply HR; congruence).
  assert (active_ (clk w) <> Some i) as Hna by (intros Ha; apply (ci_open _ HC) in Ha; congruence).
  assert (r_state (updated q (records_ (clk w) i)) <> ROpen) as Hno by (simpl; case_decide; congruence).
  eapply (good_put i _ _ _ _ _ _ p HC Hsh Hi HP).
  - eapply RI_same; [exact HR|congruence|simpl; case_decide; congruence|reflexivity|reflexivity|reflexivity|reflexivity|done| | |].
    + simpl. case_decide as E; [rewrite Hst, E; done|done].
    + exact Hq.
    + intros _. apply (ri_closed _ _ _ _ HR). congruence.
  - simpl. lia.
  - simpl. intros _ _. split; [congruence|lia].
  - intros t _ Hv. split; [|congruence]. eapply (valid_same t (records_ (clk w) i)); [congruence| | |exact Hv]; done.
  - destruct Hev as [->|[-> Hs]]; [exact Hp|]. simpl. apply p_poll; [exact Hp|by apply Hm|congruence|congruence].
  - done.
  - done.
  - eapply made_same; [exact Hm|done|done].
  - split; [done|]. intros Ha. by apply Hna in Ha.
  - done.
  - apply HC.
Qed.

(** [update] of record [i]: the verdict of a pending record is the driver's,
    judged, or a failure; nothing else has a new verdict. *)
Definition Verdict (b : DisjointBackend) (q : DisjointResult) : Prop :=
  status q <> StReady \/ exists l i, q = b_poll b l i /\ dr_disjoint q = false /\ dr_frequency q <> 0.

Lemma run_update b now i w : CI w -> dc_shut (clk w) = false -> (i < kRecords)%nat ->
  wp (update b now i) (fun _ w' => Kept w w' /\
     exists q, Verdict b q /\
       (records_ (clk w') i = records_ (clk w) i \/
        records_ (clk w') i = afterRetire (updated q (records_ (clk w) i)) /\ r_state (records_ (clk w) i) = RPending)) w.
Proof.
  intros HC Hsh Hi. unfold update. do 4 cx.
  destruct (decide (r_state (records_ (clk w) i) = RPending)) as [Es|Es];
    [rewrite bool_decide_true by done|rewrite bool_decide_false by done]; simpl;
    [|cx; split; [by apply kept_refl|exists (failure RNone); split; [by left|left; reflexivity]]].
  assert (forall q ev w1, (status q = StReady -> dr_disjoint q = false /\ dr_frequency q <> 0) ->
    ev = [] \/ ev = [DPoll i] /\ stopped_ (clk w) = false ->
    Put i (updated q (records_ (clk w) i)) ev (active_ (clk w)) (stopped_ (clk w)) w w1 -> Verdict b q ->
    wp (retireRec i) (fun _ w' => Kept w w' /\ exists q, Verdict b q /\
      (records_ (clk w') i = records_ (clk w) i \/
       records_ (clk w') i = afterRetire (updated q (records_ (clk w) i)) /\ r_state (records_ (clk w) i) = RPending)) w1) as Hrest.
  { intros q ev w1 Hq Hev HP HV. assert (Good w w1) as HG by (exact (good_updated i q ev w w1 HC Hsh Hi Es Hq Hev HP)).
    assert (Kept w w1) as HK by (by eapply put_kept).
    eapply wp_mono; [apply run_retire; [apply HG|by rewrite (put_shut _ _ _ _ _ _ _ HP)|done]|].
    intros a w2 [HK2 E2]. split; [by eapply kept_trans|]. exists q. split; [done|]. right.
    by rewrite E2, (put_rec _ _ _ _ _ _ _ HP). }
  apply wp_bind. destruct (stopped_ (clk w)) eqn:Est.
  - do 2 cx. cx. eapply (Hrest (failure RDriverFailure) []); [done|by left| |by left].
    unfold updated. rewrite <-Est. put_done.
  - destruct ((closedAt (records_ (clk w) i) <=? now) && (kClockMaxAgeMs <? now - closedAt (records_ (clk w) i))).
    + do 2 cx. cx. eapply (Hrest (failure RStale) []); [done|by left| |by left].
      unfold updated. rewrite <-Est. put_done.
    + cx. unfold be_poll, call. apply wp_bind. cbv [wp]. simpl.
      set (q := b_poll b (dcalls w) i).
      assert (status (judge q) = StReady -> dr_disjoint (judge q) = false /\ dr_frequency (judge q) <> 0) as Hq.
      { intros Hr. destruct (judge_ready q Hr) as (-> & ? & ?). done. }
      eapply (Hrest (judge q) [DPoll i]); [exact Hq|by right| |].
      * unfold updated. rewrite <-Est. simpl. put_done.
      * destruct (decide (status (judge q) = StReady)) as [Hr|Hr]; [right|by left].
        destruct (judge_ready q Hr) as (-> & ? & ?). by exists (dcalls w), i.
Qed.

(** *** Handing out a token *)
Lemma freeLease_spec r n : forall j k, freeLease n j r = Some k -> (j <= k < j + n)%nat /\ occupied (leases r k) = false.
Proof.
  induction n as [|n IH]; intros j k; simpl; [done|].
  destruct (occupied (leases r j)) eqn:E; [|intros [= <-]; split; [lia|done]].
  intros H%IH. split; [lia|]. by destruct H.
Qed.

Lemma RI_mono id i iss t r : RI id i iss r -> RI id i (t :: iss) r.
Proof.
  intros [Hrf Hid Hoc Hnx Hge Hrs Hrd Hcl Hmd Hhi]. split; try done.
  intros j Hj. destruct (Hoc j Hj) as (? & ? & ?). split_and!; [done|done|by right].
Qed.

Definition allocated (j : nat) (k : Kind) (r : Rec) : Rec :=
  r <| nextSerial := u64 (nextSerial r + 1) |>
    <| leases := setAt j (mkLS (u64 (nextSerial r + 1)) k true false false) (leases r) |> <| refs := u32 (refs r + 1) |>.

Lemma RI_allocated id i iss j k r : RI id i iss r -> r_state r = ROpen -> (j < kLeases)%nat ->
  occupied (leases r j) = false -> nextSerial r <> u64_max ->
  u64 (nextSerial r + 1) = nextSerial r + 1 /\
  RI id i (mkLease id (r_generation r) (nextSerial r + 1) i j :: iss) (allocated j k r).
Proof.
  intros [Hrf Hid Hoc Hnx Hge Hrs Hrd Hcl Hmd Hhi] Hs Hj Ho Hmax.
  assert (u64 (nextSerial r + 1) = nextSerial r + 1) as Eu by (apply u64_small; unfold is_u64, u64_max in *; lia).
  split; [done|]. unfold allocated. rewrite Eu.
  pose proof (occ_set (leases r) j (mkLS (nextSerial r + 1) k true false false) slots32 slots_nodup (in_slots _ Hj)) as Hc.
  rewrite Ho in Hc. cbn [occupied] in Hc.
  pose proof (occ_bound (leases r) slots32) as Hb. unfold slots32 in Hb at 2. rewrite length_seq in Hb. unfold kLeases in Hb.
  split; simpl; try done.
  - rewrite Hrf. rewrite u32_small by (unfold is_u32, u32_max; lia). lia.
  - congruence.
  - intros l. unfold setAt. case_decide as E.
    + intros _. subst l. split_and!; [done|simpl; lia|by left].
    + intros Hl. destruct (Hoc l Hl) as (? & ? & ?). split_and!; [done|lia|by right].
  - unfold is_u64, u64_max in *. lia.
Qed.

Lemma run_allocate i k w : CI w -> dc_shut (clk w) = false -> active_ (clk w) = Some i ->
  wp (allocate i k) (fun t w' => Kept w w' /\
    (t = lease0 \/ (t ∈ issued w') /\ (t ∉ issued w) /\ validLease t (clk w') = true)) w.
Proof.
  intros HC Hsh Ha. destruct (open_state _ _ HC Ha) as (Hi & Ho & Hst & Hpe). pose proof (ci_rec _ HC i) as HR.
  unfold allocate. do 4 cx. destruct (freeLease kLeases 0 (records_ (clk w) i)) as [j|] eqn:Ef;
    [|cx; split; [by apply kept_refl|by left]].
  apply freeLease_spec in Ef as [Hj Hoc].
  destruct (nextSerial (records_ (clk w) i) =? u64_max) eqn:Em; bool_solve; [cx; split; [by apply kept_refl|by left]|].
  destruct (RI_allocated _ _ _ j k _ HR Ho ltac:(lia) Hoc Em) as [Eu HRI].
  set (t := mkLease (id_ (clk w)) (r_generation (records_ (clk w) i)) (nextSerial (records_ (clk w) i) + 1) i j) in *.
  rewrite Eu. repeat cx. fold t.
  assert (forall t', t' ∈ issued w -> l_record t' = i -> l_generation t' = r_generation (records_ (clk w) i) ->
    l_serial t' <= nextSerial (records_ (clk w) i)) as Hold.
  { intros t' Ht' Er Eg. apply (ci_old _ HC Hsh i t' Ht' Er); congruence. }
  assert (t ∉ issued w) as Hfresh.
  { intros Ht. specialize (Hold t Ht eq_refl eq_refl). simpl in Hold. lia. }
  match goal with |- Kept w ?w1 /\ _ => set (w' := w1) end.
  assert (records_ (clk w') i = allocated j k (records_ (clk w) i)) as Ei.
  { unfold w', allocated. simpl. by rewrite setAt_eq, Eu. }
  assert (forall l, l <> i -> records_ (clk w') l = records_ (clk w) l) as El.
  { intros l Hl. unfold w'. simpl. by rewrite setAt_ne. }
  split; [|right; split_and!; [by left|done|]].
  - split; [|done]. split.
    + destruct HC as [HR' HO HP HOp HB HSt [HN HF]]. split.
      * intros l. simpl. destruct (decide (l = i)) as [->|Hl].
        -- rewrite setAt_eq. unfold t in HRI. unfold allocated in HRI. rewrite Eu in HRI. exact HRI.
        -- rewrite setAt_ne by done. by apply RI_mono.
      * intros _ l t' [->|Ht']%elem_of_cons Hr.
        -- simpl in Hr. subst l. rewrite Ei. simpl. rewrite Eu. split; [lia|]. intros _ _. lia.
        -- destruct (decide (l = i)) as [->|Hl]; [|rewrite El by done; by apply HO].
           rewrite Ei. simpl. rewrite Eu. destruct (HO Hsh i t' Ht' Hr) as [? Hse]. split; [done|].
           intros ? ?. specialize (Hse ltac:(done) ltac:(congruence)). lia.
      * destruct HP as (p & Hp & Hs & Hd & Hm). exists p. split_and!; [done..|]. intros l. rewrite Hm.
        destruct (decide (l = i)) as [->|Hl]; [by rewrite Ei|by rewrite El].
      * intros l. simpl active_. rewrite <-HOp. destruct (decide (l = i)) as [->|Hl]; [by rewrite Ei|by rewrite El].
      * exact HB.
      * exact HSt.
      * split; [by constructor|]. constructor; [simpl; split_and!; [done|done|lia]|done].
    + split; [done|intros t' ?; by right|]. intros t' Ht'. destruct (decide (l_record t' = i)) as [Er|Hl].
      * rewrite Er, Ei. intros (_ & Hg & Hoc' & Hse). simpl in Hg, Hoc', Hse. unfold setAt in *. case_decide as E.
        -- simpl in Hse. rewrite Eu in Hse. specialize (Hold t' Ht' Er ltac:(congruence)). lia.
        -- split; [|congruence]. split_and!; [congruence|done..].
      * rewrite El by done. by intros ?.
  - unfold validLease, t. cbn [l_clock l_record l_index l_generation l_serial].
    assert ((kRecords <=? i)%nat = false) as -> by (apply Nat.leb_gt; lia).
    assert ((kLeases <=? j)%nat = false) as -> by (apply Nat.leb_gt; lia).
    rewrite Ei. cbn. rewrite setAt_eq. cbn. by rewrite Ho, Eu, !Z.eqb_refl.
Qed.

(** *** Opening a record *)
Lemma idleRecord_spec c n : forall i k, idleRecord n i c = Some k ->
  (i <= k < i + n)%nat /\ r_state (records_ c k) = Idle /\ r_generation (records_ c k) <> u64_max.
Proof.
  induction n as [|n IH]; intros i k; simpl; [done|].
  destruct (_ || _) eqn:E; [intros H%IH; split; [lia|by destruct H]|].
  intros [= <-]. bool_solve. split; [lia|done].
Qed.

Definition Handed (w : CW) (t : Lease) (w' : CW) : Prop :=
  Good w w' /\ dc_shut (clk w') = dc_shut (clk w) /\
  (t = lease0 \/ (t ∈ issued w') /\ (t ∉ issued w) /\ validLease t (clk w') = true).

Lemma handed_trans w w1 t w' : Kept w w1 -> Handed w1 t w' -> Handed w t w'.
Proof.
  intros (G1 & S1 & _) (G2 & S2 & Ht). split; [by eapply good_trans|]. split; [congruence|].
  destruct Ht as [?|(? & Hn & ?)]; [by left|right]. split_and!; [done| |done].
  intros Hin. apply Hn. by apply G1.
Qed.

(** An idle record keeps no token: any change of it that stays idle is free. *)
Lemma good_idle i x ev w w' p : CI w -> dc_shut (clk w) = false -> (i < kRecords)%nat ->
  active_ (clk w) = None -> stopped_ (clk w) = false ->
  Put i x ev None false w w' -> r_state (records_ (clk w) i) = Idle ->
  r_state x = Idle -> r_generation x = r_generation (records_ (clk w) i) -> nextSerial x = nextSerial (records_ (clk w) i) ->
  refs x = refs (records_ (clk w) i) -> result x = result (records_ (clk w) i) -> leases x = leases (records_ (clk w) i) ->
  protocol (ev ++ dcalls w) = Some p -> scope p = None -> dead p = false ->
  (forall j, j ∈ made p <-> if decide (j = i) then r_created x = true else r_created (records_ (clk w) j) = true) ->
  Good w w'.
Proof.
  intros HC Hsh Hi Ha Hst HP Hs Hx Eg En Er Eq El Hp Hsc Hd Hm.
  eapply (good_put i _ _ _ _ _ _ p HC Hsh Hi HP); try done.
  - pose proof (ci_rec _ HC i) as [Hrf Hid Hoc Hnx Hge Hrs Hrd Hcl Hmd Hhi].
    split; rewrite ?Eg, ?En, ?Er, ?Eq, ?El, ?Hx; try done; try congruence.
    + intros _. by apply Hid.
    + intros _. apply Hcl. congruence.
  - lia.
  - intros t _ [? _]. done.
  - rewrite Hx. done.
  - intros j Hj. by rewrite Ha.
Qed.

Lemma good_created i w : CI w -> dc_shut (clk w) = false -> (i < kRecords)%nat ->
  active_ (clk w) = None -> stopped_ (clk w) = false -> r_state (records_ (clk w) i) = Idle ->
  r_created (records_ (clk w) i) = false ->
  forall (ok : bool) w', Put i (if (ok : bool) then (records_ (clk w) i) <| r_created := true |> else records_ (clk w) i) [DCreate i ok] None false w w' ->
  Good w w'.
Proof.
  intros HC Hsh Hi Ha Hst Hs Hc ok w' HP. destruct (dc_prot _ HC) as (p & Hp & Hsc & Hd & Hm).
  assert (i ∉ made p) as Hn by (rewrite Hm; congruence).
  eapply (good_idle i _ _ _ _ (mkProt (if ok then {[i]} ∪ made p else made p) (scope p) (dead p)) HC Hsh Hi Ha Hst HP);
    try done; try (by destruct ok); simpl; try congruence.
  - apply p_create; [exact Hp|done|congruence].
  - intros j. destruct ok; simpl.
    + rewrite elem_of_union, elem_of_singleton, Hm. destruct (decide (j = i)); [by split; auto|].
      split; [by intros [?|?]|by right].
    + rewrite Hm. destruct (decide (j = i)) as [->|]; done.
Qed.

Definition begun (r : Rec) : Rec :=
  r <| r_generation := u64 (r_generation r + 1) |> <| r_state := ROpen |> <| result := pendingResult |>.

Lemma good_begun i w w' : CI w -> dc_shut (clk w) = false -> (i < kRecords)%nat ->
  active_ (clk w) = None -> stopped_ (clk w) = false -> r_state (records_ (clk w) i) = Idle ->
  r_generation (records_ (clk w) i) <> u64_max -> r_created (records_ (clk w) i) = true ->
  Put i (begun (records_ (clk w) i)) [DBegin i true] (Some i) false w w' -> Good w w'.
Proof.
  intros HC Hsh Hi Ha Hst Hs Hmax Hc HP. destruct (dc_prot _ HC) as (p & Hp & Hsc & Hd & Hm).
  pose proof (ci_rec _ HC i) as [Hrf Hid Hoc Hnx Hge Hrs Hrd Hcl Hmd Hhi].
  assert (u64 (r_generation (records_ (clk w) i) + 1) = r_generation (records_ (clk w) i) + 1) as Eu
    by (apply u64_small; unfold is_u64, u64_max in *; lia).
  eapply (good_put i _ _ _ _ _ _ (mkProt (made p) (Some i) (dead p)) HC Hsh Hi HP); simpl; rewrite ?Eu; try done.
  - split; simpl; rewrite ?Eu; try done.
    + intros j Hj. rewrite (Hid Hs j) in Hj. done.
    + unfold is_u64, u64_max in *. lia.
  - lia.
  - lia.
  - intros t _ (_ & _ & Ho & _). simpl in Ho. by rewrite (Hid Hs) in Ho.
  - exact (p_begin _ _ Hp i true (proj2 (Hm i) Hc) ltac:(congruence) ltac:(congruence)).
  - congruence.
  - eapply made_same; [exact Hm|done|done].
  - intros j Hj. rewrite Ha. split; [|done]. intros [= ->]. done.
Qed.

Lemma good_notbegun i w w' : CI w -> dc_shut (clk w) = false -> (i < kRecords)%nat ->
  active_ (clk w) = None -> stopped_ (clk w) = false -> r_state (records_ (clk w) i) = Idle ->
  r_created (records_ (clk w) i) = true ->
  Put i ((records_ (clk w) i) <| r_created := false |>) [DDestroy i; DBegin i false] None false w w' -> Good w w'.
Proof.
  intros HC Hsh Hi Ha Hst Hs Hc HP. destruct (dc_prot _ HC) as (p & Hp & Hsc & Hd & Hm).
  assert (protocol (DBegin i false :: dcalls w) = Some (mkProt (made p) None (dead p))) as Hp1
    by (apply p_begin; [exact Hp|by apply Hm|congruence|congruence]).
  eapply (good_idle i _ _ _ _ (mkProt (made p ∖ {[i]}) None (dead p)) HC Hsh Hi Ha Hst HP); try done; simpl; try congruence.
  - exact (p_destroy _ _ Hp1 i (proj2 (Hm i) Hc) ltac:(done)).
  - intros j. rewrite elem_of_difference, elem_of_singleton, Hm.
    destruct (decide (j = i)) as [->|]; [by split; [intros [_ []]|]|by split; [intros [? _]|]].
Qed.

Lemma run_beginRecord b i k w : CI w -> dc_shut (clk w) = false -> (i < kRecords)%nat ->
  active_ (clk w) = None -> stopped_ (clk w) = false -> r_state (records_ (clk w) i) = Idle ->
  r_generation (records_ (clk w) i) <> u64_max -> r_created (records_ (clk w) i) = true ->
  wp (beginRecord b i k) (Handed w) w.
Proof.
  intros HC Hsh Hi Ha Hst Hs Hmax Hc. unfold beginRecord. do 2 cx. destruct ok; simpl; repeat cx.
  - match goal with |- wp _ _ ?w1 => set (w' := w1) end.
    assert (Put i (begun (records_ (clk w) i)) [DBegin i true] (Some i) false w w') as HP
      by (unfold w', begun; put_done).
    assert (Good w w') as HG by (by eapply good_begun).
    eapply wp_mono; [apply run_allocate; [apply HG|by rewrite (put_shut _ _ _ _ _ _ _ HP)|by apply HP]|].
    intros t w2 ((G2 & S2 & A2 & T2) & Ht). split; [by eapply good_trans|].
    split; [rewrite S2; apply HP|]. destruct Ht as [?|(? & Hn & ?)]; [by left|right].
    split_and!; [done| |done]. by rewrite (put_issued _ _ _ _ _ _ _ HP) in Hn.
  - split; [|split; [done|by left]]. eapply good_notbegun; try done. put_done.
Qed.

Lemma run_open b k w : CI w -> dc_shut (clk w) = false -> active_ (clk w) = None -> stopped_ (clk w) = false ->
  wp (open b k) (Handed w) w.
Proof.
  intros HC Hsh Ha Hst. unfold open. do 2 cx.
  assert (Handed w lease0 w) as Hnone by (split; [split; [done|apply rel_refl]|split; [done|by left]]).
  destruct (idleRecord kRecords 0 (clk w)) as [i|] eqn:Ei; [|cx; exact Hnone].
  apply idleRecord_spec in Ei as (Hi & Hs & Hmax). do 2 cx.
  assert (i < kRecords)%nat as Hi' by lia.
  destruct (r_created (records_ (clk w) i)) eqn:Ec; [by apply run_beginRecord|].
  do 2 cx. destruct ok; simpl; repeat cx.
  - match goal with |- wp _ _ ?w0 => set (w2 := w0) end.
    assert (Put i ((records_ (clk w) i) <| r_created := true |>) [DCreate i true] None false w w2) as HP
      by (unfold w2; put_done).
    assert (Good w w2) as HG by (eapply (good_created i w HC Hsh Hi' Ha Hst Hs Ec true); exact HP).
    eapply wp_mono.
    { pose proof (put_rec _ _ _ _ _ _ _ HP) as Er.
      apply run_beginRecord; [apply HG|by rewrite (put_shut _ _ _ _ _ _ _ HP)|done|apply HP|apply HP|by rewrite Er..]. }
    intros t w3 H3. eapply handed_trans; [|exact H3]. split; [done|]. split_and!; [apply HP|by rewrite Ha; apply HP|by rewrite Hst; apply HP].
  - split; [|split; [done|by left]].
    eapply (good_created i w HC Hsh Hi' Ha Hst Hs Ec false). put_done.
Qed.

(** *** Public operations *)
Lemma run_updates b now ids w : Forall (fun i => i < kRecords)%nat ids -> CI w -> dc_shut (clk w) = false ->
  wp (forEachRecord ids (update b now)) (fun _ => Kept w) w.
Proof.
  intros HF. revert w. induction HF as [|i ids Hi _ IH]; intros w HC Hsh; simpl; [cx; by apply kept_refl|].
  cx. eapply wp_mono; [by apply run_update|]. intros a w1 [HK1 _].
  eapply wp_mono; [apply IH; [apply HK1|destruct HK1 as (_ & -> & _); done]|].
  intros a2 w2 HK2. by eapply kept_trans.
Qed.

Lemma all_records : Forall (fun i => i < kRecords)%nat (seq 0 kRecords).
Proof. apply Forall_forall. intros i Hi%elem_of_seq. lia. Qed.

Lemma run_collect b now o w : CI w -> wp (collect b now o) (fun _ => Kept w) w.
Proof.
  intros HC. unfold collect. do 2 cx. destruct (negb (ownerOk o (clk w)) || dc_shut (clk w)) eqn:E; [cx; by apply kept_refl|].
  bool_solve. cx. eapply wp_mono; [apply run_updates; [apply all_records|done..]|].
  intros a w1 HK. by cx.
Qed.

Lemma handed_none w : CI w -> Handed w lease0 w.
Proof. intros HC. split; [split; [done|apply rel_refl]|split; [done|by left]]. Qed.

Lemma handed_kept w t w' : Kept w w' -> (t = lease0 \/ (t ∈ issued w') /\ (t ∉ issued w) /\ validLease t (clk w') = true) ->
  Handed w t w'.
Proof. intros (G & S & _) Ht. by split_and!. Qed.

Lemma run_collect_open b now o k w : CI w -> dc_shut (clk w) = false -> active_ (clk w) = None -> stopped_ (clk w) = false ->
  wp (collect b now o;; open b k) (Handed w) w.
Proof.
  intros HC Hsh Ha Hst. cx. eapply wp_mono; [by apply run_collect|]. intros a w1 HK.
  pose proof HK as (G & S & A & T).
  eapply wp_mono; [apply run_open; [apply G|congruence..]|]. intros t w2 H2. by eapply handed_trans.
Qed.

Lemma run_startFrame b now o w : CI w -> wp (startFrame b now o) (Handed w) w.
Proof.
  intros HC. unfold startFrame. do 2 cx. destruct (_ || _) eqn:E; [cx; by apply handed_none|].
  bool_solve. by apply run_collect_open.
Qed.

Lemma run_acquireInterval b now o w : CI w -> wp (acquireInterval b now o) (Handed w) w.
Proof.
  intros HC. unfold acquireInterval. do 2 cx. destruct (_ || _) eqn:E; [cx; by apply handed_none|].
  bool_solve. destruct (active_ (clk w)) as [i|] eqn:Ea; [|by apply run_collect_open].
  eapply wp_mono; [by apply run_allocate|]. intros t w' [HK Ht]. by apply handed_kept.
Qed.

Lemma run_acquireBorrowedFrame o w : CI w -> wp (acquireBorrowedFrame o) (Handed w) w.
Proof.
  intros HC. unfold acquireBorrowedFrame. do 2 cx. destruct (_ || _) eqn:E; [cx; by apply handed_none|].
  bool_solve. destruct (active_ (clk w)) as [i|] eqn:Ea; [|cx; by apply handed_none].
  destruct (liveFrame (records_ (clk w) i)); [|cx; by apply handed_none].
  eapply wp_mono; [by apply run_allocate|]. intros t w' [HK Ht]. by apply handed_kept.
Qed.

Definition Safe (w w' : CW) : Prop := Good w w' /\ dc_shut (clk w') = dc_shut (clk w).
Lemma safe_refl w : CI w -> Safe w w.
Proof. intros HC. split; [split; [done|apply rel_refl]|done]. Qed.
Lemma safe_trans w1 w2 w3 : Safe w1 w2 -> Safe w2 w3 -> Safe w1 w3.
Proof. intros [G1 S1] [G2 S2]. split; [by eapply good_trans|congruence]. Qed.

Lemma dc_run_close b i now w : CI w -> dc_shut (clk w) = false -> active_ (clk w) = Some i ->
  wp (closeRec b i now) (fun ok w' => Safe w w' /\ active_ (clk w') = None /\
    records_ (clk w') i = closedRec ok now (records_ (clk w) i)) w.
Proof.
  intros HC Hsh Ha. eapply wp_mono; [apply put_closeRec|]. intros ok w' HP. cbv beta in HP.
  split; [|split; apply HP]. split; [by eapply good_close|apply HP].
Qed.

Lemma run_markEnded t w : CI w -> dc_shut (clk w) = false -> validLease t (clk w) = true ->
  r_state (records_ (clk w) (l_record t)) = ROpen ->
  wp (markEnded t) (fun _ w' => Kept w w') w.
Proof.
  intros HC Hsh Hv Ho. eapply wp_mono; [apply put_markEnded|]. intros a w' HP. cbv zeta in HP.
  eapply put_kept; [exact HP|]. by eapply good_markEnded.
Qed.

Lemma open_active t w : CI w -> r_state (records_ (clk w) (l_record t)) = ROpen -> active_ (clk w) = Some (l_record t).
Proof. intros HC. apply HC. Qed.

Lemma run_endInterval b t now o w : CI w -> wp (endInterval b t now o) (fun _ => Safe w) w.
Proof.
  intros HC. unfold endInterval. do 2 cx. destruct (_ || _) eqn:E; [cx; by apply safe_refl|]. bool_solve.
  destruct (_ || _ || _ || _) eqn:E2; [cx; by apply safe_refl|]. bool_solve.
  cx. eapply wp_mono; [by apply run_markEnded|]. intros a w1 HK. pose proof HK as (G & S & A & T).
  assert (Safe w w1) as HS by exact (conj G S).
  destruct (decide _); [|by cx].
  eapply wp_mono; [apply dc_run_close; [apply G|congruence|rewrite A; by apply open_active]|].
  intros ok w2 [HS2 _]. by eapply safe_trans.
Qed.

Lemma run_finishDisjointFrame b t now o w : CI w -> wp (finishDisjointFrame b t now o) (fun _ => Safe w) w.
Proof.
  intros HC. unfold finishDisjointFrame. do 2 cx. destruct (_ || _) eqn:E; [cx; by apply safe_refl|]. bool_solve.
  destruct (_ || _ || _) eqn:E2; [cx; by apply safe_refl|]. bool_solve.
  cx. eapply wp_mono; [by apply run_markEnded|]. intros a w1 HK. pose proof HK as (G & S & A & T).
  eapply wp_mono; [apply dc_run_close; [apply G|congruence|rewrite A; by apply open_active]|].
  intros ok w2 [HS2 _]. eapply safe_trans; [exact (conj G S)|exact HS2].
Qed.

Lemma valid_refs id i iss r j : RI id i iss r -> (j < kLeases)%nat -> occupied (leases r j) = true -> refs r <> 0.
Proof.
  intros [Hrf _ _ _ _ _ _ _ _ _] Hj Ho. rewrite Hrf. intros E.
  assert (occ (leases r) slots32 = 0%nat) as Hz by lia.
  rewrite (occ_zero _ _ j Hz (in_slots _ Hj)) in Ho. done.
Qed.

(** A token keeps its record from being retired. *)
Lemma updated_kept q i w t : CI w -> validIn t (records_ (clk w) i) -> (l_index t < kLeases)%nat ->
  afterRetire (updated q (records_ (clk w) i)) = updated q (records_ (clk w) i).
Proof.
  intros HC (_ & _ & Ho & _) Hj. unfold afterRetire, retired. simpl.
  by rewrite (proj2 (Z.eqb_neq _ _) (valid_refs _ _ _ _ _ (ci_rec _ HC i) Hj Ho)).
Qed.

(** What [pollLease] answers, and what it rests on. *)
Definition Answer (b : DisjointBackend) (w : CW) (t : Lease) (q : DisjointResult) : Prop :=
  status q = StReady ->
  validLease t (clk w) = true /\ dc_shut (clk w) = false /\
  ls_ended (leases (records_ (clk w) (l_record t)) (l_index t)) = true /\
  invalid (leases (records_ (clk w) (l_record t)) (l_index t)) = false /\
  dr_disjoint q = false /\ dr_frequency q <> 0 /\
  (result (records_ (clk w) (l_record t)) = q \/ exists l i, q = b_poll b l i).

Lemma run_pollLease b t now o w : CI w ->
  wp (pollLease b t now o) (fun q w' => Kept w w' /\ Answer b w t q /\
    (status q = StReady -> validLease t (clk w') = true /\ result (records_ (clk w') (l_record t)) = q)) w.
Proof.
  intros HC. unfold pollLease. do 2 cx.
  assert (forall q, status q <> StReady -> Kept w w /\ Answer b w t q /\
    (status q = StReady -> validLease t (clk w) = true /\ result (records_ (clk w) (l_record t)) = q)) as Hno.
  { intros q Hq. split; [by apply kept_refl|]. by split; intros ?. }
  destruct (ownerOk o (clk w)); simpl; [|cx; by apply Hno].
  destruct (dc_shut (clk w) || _) eqn:E; [cx; by apply Hno|]. bool_solve.
  match goal with H : validLease _ _ = true |- _ => rename H into Hv end.
  destruct (validLease_in _ _ HC Hv) as (Hi & Hj & Hid & Hval & Hin).
  destruct (invalid _) eqn:Einv; [cx; by apply Hno|].
  destruct (ls_ended _) eqn:Eend; simpl; [|cx; by apply Hno].
  cx. eapply wp_mono; [by apply run_update|]. intros a w1 (HK & q & HV & Hrec). do 3 cx.
  split; [done|].
  assert (records_ (clk w1) (l_record t) = records_ (clk w) (l_record t) \/
    records_ (clk w1) (l_record t) = updated q (records_ (clk w) (l_record t)) /\
    r_state (records_ (clk w) (l_record t)) = RPending) as [Er|[Er Hp]].
  { destruct Hrec as [?|[Er ?]]; [by left|right]. split; [|done]. rewrite Er. by eapply updated_kept. }
  - split.
    + intros Hr. rewrite Er in *. destruct (ri_ready _ _ _ _ (ci_rec _ HC (l_record t)) Hr). split_and!; try done. by left.
    + intros _. split; [|by rewrite Er]. unfold validLease in *. destruct HK as ([_ [[-> _] _ _]] & _). by rewrite Er.
  - rewrite Er. simpl. split.
    + intros Hr. destruct HV as [?|(l & k & Eq & ? & ?)]; [done|]. split_and!; try done. right. by exists l, k.
    + intros Hr. split; [|done]. unfold validLease in *. destruct HK as ([_ [[-> _] _ _]] & _). rewrite Er.
      unfold updated. simpl. rewrite Hr, decide_False by done. simpl. rewrite Hp in Hv. exact Hv.
Qed.

Lemma run_releaseLease b t now o w : CI w ->
  wp (releaseLease b t now o) (fun ok w' => Safe w w' /\
    (ok = true -> validLease t (clk w) = true /\ validLease t (clk w') = false)) w.
Proof.
  intros HC. unfold releaseLease. do 2 cx. destruct (_ || _) eqn:E; [cx; split; [by apply safe_refl|done]|]. bool_solve.
  match goal with H : validLease _ _ = true |- _ => rename H into Hv end.
  destruct (validLease_in _ _ HC Hv) as (Hi & Hj & Hid & Hval & Hin).
  cx. apply wp_mono with (P := fun _ w1 => Safe w w1 /\ validIn t (records_ (clk w1) (l_record t))).
  { destruct (bool_decide _ && _) eqn:E2; [|cx; split; [by apply safe_refl|done]]. bool_solve.
    cx. eapply wp_mono; [apply dc_run_close; [done|done|by apply open_active]|].
    intros ok w1 (HS & _ & Er). cx. split; [done|]. rewrite Er. destruct Hval as (? & ? & Ho & Hse). split_and!.
    - by destruct ok.
    - done.
    - simpl. unfold abandon. by case_match.
    - simpl. unfold abandon. by case_match. }
  intros a w1 [[G1 S1] Hval1]. cx. cx.
  match goal with |- wp _ _ ?w0 => set (w2 := w0) end.
  assert (Put (l_record t) (freedRec (l_index t) (records_ (clk w1) (l_record t))) [] (active_ (clk w1)) (stopped_ (clk w1)) w1 w2) as HP
    by (unfold w2, freedRec; put_done).
  assert (dc_shut (clk w1) = false) as Hsh1 by congruence.
  destruct (good_freed t w1 w2 (proj1 G1) Hsh1 Hi Hj Hval1 HP) as [G2 Hdead].
  cx. eapply wp_mono; [apply run_retire; [apply G2|rewrite (put_shut _ _ _ _ _ _ _ HP); done|done]|].
  intros a3 w3 ((G3 & S3 & _) & _). cx. split.
  - split; [eapply good_trans; [exact G1|by eapply good_trans]|]. rewrite S3, (put_shut _ _ _ _ _ _ _ HP). congruence.
  - intros _. split; [done|]. destruct (validLease t (clk w3)) eqn:Ev; [|done].
    destruct (validLease_in _ _ (proj1 G3) Ev) as (_ & _ & _ & Hv3 & _).
    assert (t ∈ issued w2) as Hin2 by (apply G2, G1, Hin).
    destruct (rel_valid _ _ (proj2 G3) t Hin2 Hv3) as [Hv2 _]. done.
Qed.

(** *** shutdown *)
Definition shutw (w : CW) : CW := w <| clk := (clk w) <| dc_shut := true |> |>.

Lemma put_destroyRecord i w :
  wp (destroyRecord i)
    (fun _ => Put i rec0 (if r_created (records_ (clk w) i) then [DDestroy i] else []) (active_ (clk w)) (stopped_ (clk w)) w) w.
Proof. unfold destroyRecord. do 2 cx. cx. destruct (r_created (records_ (clk w) i)); repeat cx; put_done. Qed.

Lemma shut_destroyRecord i w w' : CI (shutw w) -> active_ (clk w) = None -> 
  Put i rec0 (if r_created (records_ (clk w) i) then [DDestroy i] else []) (active_ (clk w)) (stopped_ (clk w)) w w' ->
  CI (shutw w').
Proof.
  intros [HR HO (p & Hp & Hs & Hd & Hm) HOp HB HSt HT] Ha [Eid Eow Esh Ex Hother Eca Eis Eac Est]. simpl in *.
  split; simpl; rewrite ?Eid, ?Eis, ?Eac, ?Est, ?Eca; try done.
  - intros j. destruct (decide (j = i)) as [->|Hne]; [|rewrite Hother by done; apply HR].
    rewrite Ex. split; simpl; done.
  - exists (mkProt (if r_created (records_ (clk w) i) then made p ∖ {[i]} else made p) (scope p) (dead p)). split_and!; try done.
    + destruct (r_created (records_ (clk w) i)) eqn:Ec; [|destruct p; exact Hp].
      assert (scope p <> Some i) as Hns by (rewrite Hs, Ha; done).
      exact (p_destroy _ _ Hp i (proj2 (Hm i) Ec) Hns).
    + intros j. simpl. destruct (decide (j = i)) as [->|Hne].
      * rewrite Ex. simpl. destruct (r_created (records_ (clk w) i)) eqn:Ec; [|by rewrite Hm, Ec].
        rewrite elem_of_difference, elem_of_singleton. by split; [intros [_ []]|].
      * rewrite Hother by done. rewrite <-Hm. destruct (r_created (records_ (clk w) i)); [|done].
        rewrite elem_of_difference, elem_of_singleton. split; [by intros [? _]|done].
  - intros j. rewrite Ha. destruct (decide (j = i)) as [->|Hne]; [by rewrite Ex|]. rewrite Hother by done.
    rewrite HOp. by rewrite Ha.
Qed.

Lemma run_destroyRecords ids w : CI (shutw w) -> active_ (clk w) = None ->
  wp (forEachRecord ids destroyRecord) (fun _ w' => CI (shutw w') /\ active_ (clk w') = None /\
    id_ (clk w') = id_ (clk w) /\ dc_owner (clk w') = dc_owner (clk w) /\ issued w' = issued w /\
    forall i, i ∈ ids \/ records_ (clk w) i = rec0 -> records_ (clk w') i = rec0) w.
Proof.
  revert w. induction ids as [|i ids IH]; intros w HC Ha; simpl.
  - cx. split_and!; try done. by intros i [?%elem_of_nil|?].
  - cx. eapply wp_mono; [apply put_destroyRecord|]. intros a w1 HP. cbv beta in HP.
    pose proof (shut_destroyRecord _ _ _ HC Ha HP) as HC1.
    assert (active_ (clk w1) = None) as Ha1 by (rewrite <-Ha; apply HP).
    eapply wp_mono; [by apply IH|]. intros a2 w2 (HC2 & Ha2 & Eid & Eow & Eis & Hr). split_and!; try done.
    + rewrite Eid. apply HP.
    + rewrite Eow. apply HP.
    + rewrite Eis. apply HP.
    + intros j Hj. apply Hr. destruct (decide (j = i)) as [->|Hne]; [right; apply HP|].
      rewrite (put_other _ _ _ _ _ _ _ HP) by done.
      destruct Hj as [[?|?]%elem_of_cons|?]; [done|by left|by right].
Qed.

Lemma ci_shut w : CI w -> CI (shutw w).
Proof. intros [HR HO HP HOp HB HSt HT]. by split. Qed.

Lemma run_shutdownClock b now o w : CI w ->
  wp (shutdownClock b now o) (fun ok w' => Good w w' /\
    (ok = true -> dc_shut (clk w') = true /\ forall i, (i < kRecords)%nat -> records_ (clk w') i = rec0) /\
    (ok = false -> w' = w)) w.
Proof.
  intros HC. unfold shutdownClock. do 2 cx. destruct (_ || _) eqn:E.
  { cx. split; [split; [done|apply rel_refl]|done]. }
  bool_solve. cx.
  apply wp_mono with (P := fun _ w1 => Good w w1 /\ active_ (clk w1) = None).
  { destruct (active_ (clk w)) as [i|] eqn:Ea; [|cx; split; [split; [done|apply rel_refl]|done]].
    cx. eapply wp_mono; [by apply dc_run_close|]. intros ok w1 ([G _] & Ha & _). by cx. }
  intros a w1 [G1 Ha1]. cx.
  eapply wp_mono; [apply run_destroyRecords; [apply ci_shut, G1|done]|].
  intros a2 w2 (HC2 & Ha2 & Eid & Eow & Eis & Hr). do 3 cx.
  assert (forall i, (i < kRecords)%nat -> records_ (clk w2) i = rec0) as Hr2
    by (intros i Hi; apply Hr; left; apply elem_of_seq; lia).
  destruct G1 as [C1 [[I1 O1] R1 V1]].
  split; [split; [exact HC2|]|split; [|done]].
  - split; simpl; [split; congruence|intros t Ht; rewrite Eis; by apply R1|].
    intros t Ht [Hs _]. exfalso. apply Hs. destruct (ci_tokens _ HC) as [_ HF]. rewrite Forall_forall in HF.
    destruct (HF t Ht) as (_ & Hrec & _). by rewrite Hr2.
  - intros _. split; [done|]. exact Hr2.
Qed.

(** *** Whole programs *)
Definition Full (w : CW) : Prop :=
  CI w /\ (dc_shut (clk w) = true -> forall i, (i < kRecords)%nat -> records_ (clk w) i = rec0).

Lemma shut_clock_frozen b o op w : dc_shut (clk w) = true -> (runCOp b o op w).2 = w.
Proof.
  intros Hs. destruct op; simpl; rewrite bind_run; simpl;
    unfold startFrame, acquireInterval, acquireBorrowedFrame, endInterval, finishDisjointFrame, pollLease, releaseLease, collect, shutdownClock;
    rewrite bind_run; simpl; rewrite Hs, ?orb_true_r; simpl; try done.
  by destruct (negb (ownerOk o (clk w))).
Qed.

Lemma run_COp b o op w : CI w -> dc_shut (clk w) = false -> wp (runCOp b o op) (fun _ w' => Good w w' /\ Full w') w.
Proof.
  intros HC Hsh.
  assert (forall w', Safe w w' -> Good w w' /\ Full w') as Hsafe.
  { intros w' [G S]. split; [done|]. split; [apply G|congruence]. }
  assert (forall t w', Handed w t w' -> Good w w' /\ Full w') as Hhanded.
  { intros t w' (G & S & _). split; [done|]. split; [apply G|congruence]. }
  destruct op; simpl; cx;
    [ eapply wp_mono; [by apply run_startFrame|]
    | eapply wp_mono; [by apply run_acquireInterval|]
    | eapply wp_mono; [by apply run_acquireBorrowedFrame|]
    | eapply wp_mono; [by apply run_endInterval|]
    | eapply wp_mono; [by apply run_finishDisjointFrame|]
    | eapply wp_mono; [by apply run_pollLease|]
    | eapply wp_mono; [by apply run_releaseLease|]
    | eapply wp_mono; [by apply run_collect|]
    | eapply wp_mono; [by apply run_shutdownClock|] ]; intros a w' H; cx; try by eauto.
  - destruct H as ((G & S & _) & _). by apply Hsafe.
  - destruct H as [HS _]. by apply Hsafe.
  - destruct H as (G & S & _). by apply Hsafe.
  - destruct H as (G & Ht & Hf). split; [done|]. split; [apply G|]. intros Hs. destruct a; [by apply Ht|].
    rewrite Hf in Hs by done. congruence.
Qed.

Lemma full_op b o op w : Full w -> Rel w (runCOp b o op w).2 /\ Full (runCOp b o op w).2.
Proof.
  intros HF. destruct (dc_shut (clk w)) eqn:Hs.
  - rewrite (shut_clock_frozen b o op w Hs). split; [apply rel_refl|done].
  - destruct (wp_run _ _ _ (run_COp b o op w (proj1 HF) Hs)) as [[_ HR] HF']. done.
Qed.

Lemma full_ops b os : forall w, Full w -> Rel w (runCOps b os w) /\ Full (runCOps b os w).
Proof.
  induction os as [|[o op] os IH]; intros w HF; simpl; [split; [apply rel_refl|done]|].
  destruct (full_op b o op w HF) as [R1 HF1]. destruct (IH _ HF1) as [R2 HF2]. split; [by eapply rel_trans|done].
Qed.

Definition clockWorld (o : GpuSpanOwner) (id : Z) : CW := mkCW (clock0 o id) [] [].
Lemma full0 o id : Full (clockWorld o id).
Proof.
  split; [|done]. split; simpl; try done.
  - intros _ i t Ht. by apply elem_of_nil in Ht.
  - exists (mkProt ∅ None false). split_and!; [done..|]. intros j. split; [by intros ?%elem_of_empty|done].
  - split; [constructor|done].
Qed.

Lemma validLease_of t w : CI w -> t ∈ issued w -> validIn t (records_ (clk w) (l_record t)) -> validLease t (clk w) = true.
Proof.
  intros HC Ht (Hs & Hg & Ho & Hse). destruct (ci_tokens _ HC) as [_ HF]. rewrite Forall_forall in HF.
  destruct (HF t Ht) as (Ec & Er & Ei). unfold validLease.
  assert ((kRecords <=? l_record t)%nat = false) as -> by (apply Nat.leb_gt; lia).
  assert ((kLeases <=? l_index t)%nat = false) as -> by (apply Nat.leb_gt; lia).
  rewrite Ec, Z.eqb_refl, Ho, Hg, Hse, !Z.eqb_refl. simpl. by rewrite bool_decide_false.
Qed.

(** C23. For every driver and every sequence of operations, by any thread, the
    driver's calls are legal: a query is created once, begun only when created
    and with no other scope open, ended only in its own scope, never polled or
    destroyed inside it, and after an end that failed nothing is begun or
    polled.  The clock's [active_], [stopped_] and [created] mirror that state;
    after shutdown no query is left and no operation reaches the driver. *)
Theorem clock_calls_conform b o id os :
  let w := runCOps b os (clockWorld o id) in
  exists p, protocol (dcalls w) = Some p /\ scope p = active_ (clk w) /\ dead p = stopped_ (clk w) /\
    (forall j, j ∈ made p <-> r_created (records_ (clk w) j) = true) /\
    (dc_shut (clk w) = true -> made p = ∅ /\ scope p = None /\ forall o' op, (runCOp b o' op w).2 = w).
Proof.
  intros w. destruct (full_ops b os _ (full0 o id)) as [_ [HC Hz]]. fold w in HC, Hz.
  destruct (ci_prot _ HC) as (p & Hp & Hs & Hd & Hm). exists p. split_and!; try done. intros Hsh.
  assert (forall j, r_created (records_ (clk w) j) = false) as Hno.
  { intros j. destruct (r_created (records_ (clk w) j)) eqn:E; [|done].
    pose proof (ri_high _ _ _ _ (ci_rec _ HC j) E) as Hj. by rewrite (Hz Hsh j Hj) in E. }
  split_and!.
  - apply set_eq. intros j. rewrite Hm, Hno. split; [done|by intros ?%elem_of_empty].
  - rewrite Hs. destruct (active_ (clk w)) as [i|] eqn:Ea; [|done].
    pose proof (ci_bound _ HC i Ea) as Hi. apply (ci_open _ HC) in Ea. by rewrite (Hz Hsh i Hi) in Ea.
  - intros o' op. by apply shut_clock_frozen.
Qed.


(** A measurement is only called ready when it is: poll answers ready to a
    valid token whose interval was ended inside its scope, with a frequency
    the driver reported, non-zero and not disjoint; and the answer is final -
    as long as the token is valid, through any further operations, its record
    keeps that result. *)
Theorem ready_is_final b o id os t now o' os' :
  let w := runCOps b os (clockWorld o id) in
  let '(q, w1) := pollLease b t now o' w in
  let w2 := runCOps b os' w1 in
  status q = StReady ->
  Answer b w t q /\
  (validLease t (clk w2) = true -> result (records_ (clk w2) (l_record t)) = q).
Proof.
  intros w. destruct (full_ops b os _ (full0 o id)) as [_ HF]. fold w in HF.
  pose proof (run_pollLease b t now o' w (proj1 HF)) as Hp.
  destruct (pollLease b t now o' w) as [q w1] eqn:Ep. simpl in Hp.
  intros w2 Hq. destruct (wp_use _ _ _ _ _ Hp Ep) as (((C1 & R1) & S1 & _) & HA & Hr).
  split; [done|]. intros Hv2. destruct (Hr Hq) as [Hv1 Er].
  assert (Full w1) as HF1.
  { split; [done|]. rewrite S1. destruct (HA Hq) as (_ & Hs & _). congruence. }
  destruct (full_ops b os' w1 HF1) as [HR2 [C2 _]]. fold w2 in HR2, C2.
  destruct (validLease_in t w1 C1 Hv1) as (_ & _ & _ & _ & Hin).
  destruct (validLease_in t w2 C2 Hv2) as (_ & _ & _ & Hin2 & _).
  destruct (rel_valid _ _ HR2 t Hin Hin2) as [_ Hc].
  destruct Hc as [_ ->]; [|done].
  apply (ri_result _ _ _ _ (ci_rec _ C1 (l_record t))). rewrite Er, Hq. done.
Qed.

(** A driver that always succeeds, and one standalone interval. *)
Definition demo_backend : DisjointBackend :=
  mkBackend (fun _ _ => true) (fun _ _ => true) (fun _ _ => true) (fun _ _ => mkDisjoint StReady 10000000 false RNone).
Definition demo_thread : GpuSpanOwner := mkOwner 1 2 3 true.
Definition demo_token : Lease := mkLease 7 1 1 0 0.
Definition demo_world : CW :=
  runCOps demo_backend [(demo_thread, CAcquire 0); (demo_thread, CEnd demo_token 5)] (clockWorld demo_thread 7).

Lemma ready_is_final_witness :
  (pollLease demo_backend demo_token 9 demo_thread demo_world).1 = mkDisjoint StReady 10000000 false RNone /\
  Answer demo_backend demo_world demo_token (pollLease demo_backend demo_token 9 demo_thread demo_world).1.
Proof.
  assert ((pollLease demo_backend demo_token 9 demo_thread demo_world).1 = mkDisjoint StReady 10000000 false RNone) as E
    by (vm_compute; reflexivity).
  split; [exact E|].
  assert (let '(q, w1) := pollLease demo_backend demo_token 9 demo_thread demo_world in
          status q = StReady -> Answer demo_backend demo_world demo_token q /\
          (validLease demo_token (clk (runCOps demo_backend [] w1)) = true ->
           result (records_ (clk (runCOps demo_backend [] w1)) (l_record demo_token)) = q)) as H
    by exact (ready_is_final demo_backend demo_thread 7
      [(demo_thread, CAcquire 0); (demo_thread, CEnd demo_token 5)] demo_token 9 demo_thread []).
  destruct (pollLease demo_backend demo_token 9 demo_thread demo_world) as [q w1].
  cbn [fst] in *. subst q. apply H. reflexivity.
Defined.
