(* ===== verification/OwnerService.v ===== *)
(** The thread that owns the OpenXR runtime
    (src/src/openxr/owner_service.h, class [OwnerService]): a bounded queue of
    callbacks, an idle callback between them, and a stop that cancels what is
    queued, runs one finalizer on the owner, and joins.

    Callbacks, completions, captures' destructors and the finalizer run outside
    the service's mutex, so every method is cut into its locked sections.
    [owner_step] interleaves the sections of the worker and of any number of
    callers, who may be callbacks themselves.  Whether a callback throws, an
    allocation or a thread's creation fails and 5 ms have passed is arbitrary.  A
    call that asks twice whether it is on the owner (the check, then the
    section) gets one answer: only the thread itself can change it. *)
From S2P Require Import Prelude.
Local Open Scope Z_scope.

(** ** Data *)
Definition kQueueCapacity : nat := 16.
(** Requests are named by numbers; of a [std::function] it matters whether there is one. *)
Record OwnerService := mkService {
  queue_ : list nat; worker_ : bool; idle_ : bool; ownerId_ : option nat;
  running_ : bool; stopping_ : bool; joining_ : bool;
  cancellationReady_ : bool; idleFailed_ : bool; finalOutcome_ : bool;
  finalizer_ : bool; stopCallers_ : Z }.
Definition service0 : OwnerService := mkService [] false false None false false false false false true false 0.
#[export] Instance eta_Service : Settable OwnerService := fun s =>
  mkService (queue_ s) (worker_ s) (idle_ s) (ownerId_ s) (running_ s) (stopping_ s) (joining_ s)
    (cancellationReady_ s) (idleFailed_ s) (finalOutcome_ s) (finalizer_ s) (stopCallers_ s).

(** ** start *)
(** [spawned]: whether [std::thread] could be created. *)
Definition start (idle spawned : bool) (s : OwnerService) : bool * OwnerService :=
  if running_ s || worker_ s || stopping_ s || negb (stopCallers_ s =? 0) then (false, s)
  else
    let previousOutcome := finalOutcome_ s in
    let s := s <| idle_ := idle |> <| stopping_ := false |> <| cancellationReady_ := false |> <| idleFailed_ := false |>
               <| finalOutcome_ := true |> <| finalizer_ := false |> <| running_ := true |> in
    if spawned then (true, s <| worker_ := true |>)
    else (false, s <| running_ := false |> <| idle_ := false |> <| finalOutcome_ := previousOutcome |>).

(** ** invoke and submit *)
Definition isOwnerLocked (t : nat) (s : OwnerService) : bool := bool_decide (ownerId_ s = Some t).
(** The owner runs its own call at once, if it may. *)
Definition invokeOwner (s : OwnerService) : bool := negb (negb (running_ s) || stopping_ s).
(** Anybody else's request [r] joins the queue; [pushed]: whether [push_back] had the memory. *)
Definition admitRequest (r : nat) (pushed : bool) (s : OwnerService) : bool * OwnerService :=
  if negb (running_ s) || stopping_ s || (kQueueCapacity <=? length (queue_ s))%nat then (false, s)
  else if pushed then (true, s <| queue_ := queue_ s ++ [r] |>) else (false, s).

(** ** stop *)
Inductive StopNext := StopRet (outcome : bool) | StopWaits | StopJoins (joinable : bool).
Definition callerDone (s : OwnerService) : OwnerService := s <| stopCallers_ := u32 (stopCallers_ s - 1) |>.
(** From [if (owner) return false] on. *)
Definition stopTail (owner : bool) (s : OwnerService) : StopNext * OwnerService :=
  if owner then (StopRet false, s)
  else if negb (worker_ s) && negb (running_ s) then (StopRet (finalOutcome_ s), callerDone s)
  else if joining_ s then (StopWaits, s)
  else (StopJoins (worker_ s), s <| joining_ := true |> <| worker_ := false |>).
(** The first section: the first stop takes the queue, to be cancelled outside the mutex. *)
Definition stopEnter (owner fin : bool) (s : OwnerService) : (list nat + StopNext) * OwnerService :=
  let s := if owner then s else s <| stopCallers_ := u32 (stopCallers_ s + 1) |> in
  if (running_ s || worker_ s) && negb (stopping_ s)
  then (inl (queue_ s), s <| stopping_ := true |> <| finalizer_ := fin |> <| queue_ := [] |>)
  else let '(n, s) := stopTail owner s in (inr n, s).
(** The queue is cancelled. *)
Definition stopCancelled (owner : bool) (s : OwnerService) : StopNext * OwnerService :=
  stopTail owner (s <| cancellationReady_ := true |>).
(** Another caller joined. *)
Definition stopWoken (s : OwnerService) : option (bool * OwnerService) :=
  if joining_ s || worker_ s then None else Some (finalOutcome_ s, callerDone s).
(** This caller joined. *)
Definition stopJoined (s : OwnerService) : bool * OwnerService :=
  let s := s <| running_ := false |> <| stopping_ := false |> <| joining_ := false |> <| ownerId_ := None |> in
  (finalOutcome_ s, callerDone s).

(** [~OwnerService] does not terminate the process. *)
Definition destructorOk (s : OwnerService) : bool := negb (worker_ s || joining_ s).
Definition runningNow (s : OwnerService) : bool := running_ s && negb (stopping_ s).
Definition pending (s : OwnerService) : nat := length (queue_ s).

(** ** run: the worker *)
Definition runEntry (t : nat) (s : OwnerService) : OwnerService := s <| ownerId_ := Some t |>.
Inductive Turn := TFinal (fin : bool) | TRun (r : nat) | TIdle | TNothing.
(** One locked turn of the loop; [None] while a stop is still cancelling. *)
Definition runTurn (s : OwnerService) : option (Turn * OwnerService) :=
  if stopping_ s then
    if cancellationReady_ s then Some (TFinal (finalizer_ s), s <| finalizer_ := false |>) else None
  else match queue_ s with
       | r :: q => Some (TRun r, s <| queue_ := q |>)
       | [] => Some (if idle_ s then TIdle else TNothing, s)
       end.
(** After the finalizer, which succeeded or not. *)
Definition runFinal (outcome : bool) (s : OwnerService) : OwnerService :=
  s <| idle_ := false |> <| finalOutcome_ := outcome && negb (idleFailed_ s) |> <| ownerId_ := None |>.
(** An idle callback is due between two requests: may it run? *)
Definition between (s : OwnerService) : bool := idle_ s && negb (stopping_ s).
Definition idleFail (s : OwnerService) : OwnerService := s <| idleFailed_ := true |>.

(** ** The world: the worker's place in [run], the calls between two of their
    sections, the requests' [done] and [success], the generation (successful
    starts) and what happened, latest first. *)
Inductive WPhase := WEntry | WLoop | WRun (r : nat) | WAfter | WIdle | WFinal (fin : bool) | WExit.
Inductive OAct :=
  | AWait (t r : nat)                                       (* invoke, waiting for [done] *)
  | ACancel (t g : nat) (owner : bool) (cancelled : list nat)   (* stop, cancelling *)
  | AStopWait (t g : nat)                                   (* stop, another caller joins *)
  | AJoin (t g : nat) (joinable : bool).                    (* stop, joining *)
Inductive OEv :=
  | EAccept (r : nat) | ERun (r : nat) | ESettle (r : nat) (success : bool) | ECancel (r : nat)
  | EAnswer (t r : nat) (b : bool) | EIdleFailed (g : nat) | EFinal (g : nat)
  | EExit (g : nat) (finalized outcome : bool) | EStop (t g : nat) (b : bool).
Record OW := mkOW {
  sv : OwnerService; wk : option WPhase; acts : list OAct; done_ : gmap nat bool; gen : nat; next : nat; olog : list OEv }.
Definition ow0 : OW := mkOW service0 None [] ∅ 0 0 [].

(** What a stop that reached its tail leaves behind. *)
Definition tailAct (t g : nat) (n : StopNext) : list OAct :=
  match n with StopRet _ => [] | StopWaits => [AStopWait t g] | StopJoins j => [AJoin t g j] end.
Definition tailEv (t g : nat) (owner : bool) (n : StopNext) : list OEv :=
  match n with StopRet b => if owner then [] else [EStop t g b] | _ => [] end.
(** Fewer than 2^32 threads call at once. *)
Definition few (l : list OAct) : Prop := Z.of_nat (length l) < u32_max.

Inductive owner_step : OW -> OW -> Prop :=
  | o_start s k l d g n lg idle s' : start idle true s = (true, s') ->
      owner_step (mkOW s k l d g n lg) (mkOW s' (Some WEntry) l d (S g) n lg)
  | o_start_failed s k l d g n lg idle sp s' : start idle sp s = (false, s') ->
      owner_step (mkOW s k l d g n lg) (mkOW s' k l d g n lg)
  | o_invoke s k l d g n lg t s' : isOwnerLocked t s = false -> admitRequest n true s = (true, s') ->
      owner_step (mkOW s k l d g n lg) (mkOW s' k (AWait t n :: l) d g (S n) (EAccept n :: lg))
  | o_submit s k l d g n lg s' : admitRequest n true s = (true, s') ->
      owner_step (mkOW s k l d g n lg) (mkOW s' k l d g (S n) (EAccept n :: lg))
  | o_answer s k l1 l2 d g n lg t r b : d !! r = Some b ->
      owner_step (mkOW s k (l1 ++ AWait t r :: l2) d g n lg) (mkOW s k (l1 ++ l2) d g n (EAnswer t r b :: lg))
  | o_stop_first s k l d g n lg t owner fin c s' : isOwnerLocked t s = owner -> few l -> stopEnter owner fin s = (inl c, s') ->
      owner_step (mkOW s k l d g n lg) (mkOW s' k (ACancel t g owner c :: l) d g n lg)
  | o_stop_later s k l d g n lg t owner fin x s' : isOwnerLocked t s = owner -> few l -> stopEnter owner fin s = (inr x, s') ->
      owner_step (mkOW s k l d g n lg) (mkOW s' k (tailAct t g x ++ l) d g n (tailEv t g owner x ++ lg))
  | o_cancel s k l1 l2 d g n lg t h owner r c :
      owner_step (mkOW s k (l1 ++ ACancel t h owner (r :: c) :: l2) d g n lg)
                 (mkOW s k (l1 ++ ACancel t h owner c :: l2) (<[r := false]> d) g n (ECancel r :: lg))
  | o_cancelled s k l1 l2 d g n lg t h owner x s' : stopCancelled owner s = (x, s') ->
      owner_step (mkOW s k (l1 ++ ACancel t h owner [] :: l2) d g n lg)
                 (mkOW s' k (l1 ++ tailAct t h x ++ l2) d g n (tailEv t h owner x ++ lg))
  | o_stop_woken s k l1 l2 d g n lg t h b s' : stopWoken s = Some (b, s') ->
      owner_step (mkOW s k (l1 ++ AStopWait t h :: l2) d g n lg) (mkOW s' k (l1 ++ l2) d g n (EStop t h b :: lg))
  | o_joined s k l1 l2 d g n lg t h j b s' : (j = true -> k = Some WExit) -> stopJoined s = (b, s') ->
      owner_step (mkOW s k (l1 ++ AJoin t h j :: l2) d g n lg)
                 (mkOW s' (if j then None else k) (l1 ++ l2) d g n (EStop t h b :: lg))
  | o_entry s l d g n lg t :
      owner_step (mkOW s (Some WEntry) l d g n lg) (mkOW (runEntry t s) (Some WLoop) l d g n lg)
  | o_turn_run s l d g n lg r s' : runTurn s = Some (TRun r, s') ->
      owner_step (mkOW s (Some WLoop) l d g n lg) (mkOW s' (Some (WRun r)) l d g n (ERun r :: lg))
  | o_turn_idle s l d g n lg s' : runTurn s = Some (TIdle, s') ->
      owner_step (mkOW s (Some WLoop) l d g n lg) (mkOW s' (Some WIdle) l d g n lg)
  | o_turn_final s l d g n lg f s' : runTurn s = Some (TFinal f, s') ->
      owner_step (mkOW s (Some WLoop) l d g n lg) (mkOW s' (Some (WFinal f)) l d g n (EFinal g :: lg))
  | o_ran s l d g n lg r b :
      owner_step (mkOW s (Some (WRun r)) l d g n lg) (mkOW s (Some WAfter) l (<[r := b]> d) g n (ESettle r b :: lg))
  | o_after s l d g n lg (due : bool) :
      owner_step (mkOW s (Some WAfter) l d g n lg) (mkOW s (Some (if due && between s then WIdle else WLoop)) l d g n lg)
  | o_idle s l d g n lg :
      owner_step (mkOW s (Some WIdle) l d g n lg) (mkOW s (Some WLoop) l d g n lg)
  | o_idle_failed s l d g n lg :
      owner_step (mkOW s (Some WIdle) l d g n lg) (mkOW (idleFail s) (Some WLoop) l d g n (EIdleFailed g :: lg))
  | o_final s l d g n lg f b : (f = false -> b = true) ->
      owner_step (mkOW s (Some (WFinal f)) l d g n lg)
                 (mkOW (runFinal b s) (Some WExit) l d g n (EExit g b (finalOutcome_ (runFinal b s)) :: lg)).

(** ** The life of a generation *)
Fixpoint countIf (f : OAct -> bool) (l : list OAct) : Z :=
  match l with [] => 0 | a :: l => (if f a then 1 else 0) + countIf f l end.
Definition isCancel (a : OAct) : bool := match a with ACancel _ _ _ _ => true | _ => false end.
Definition isJoin (a : OAct) : bool := match a with AJoin _ _ _ => true | _ => false end.
(** A stop whose caller is counted. *)
Definition isStop (a : OAct) : bool :=
  match a with ACancel _ _ owner _ => negb owner | AStopWait _ _ | AJoin _ _ _ => true | AWait _ _ => false end.
(** The stop belongs to generation [g], and what it joins is a thread. *)
Definition actOk (g : nat) (a : OAct) : Prop :=
  match a with
  | AWait _ _ => True
  | ACancel _ h _ _ | AStopWait _ h => h = g
  | AJoin _ h j => h = g /\ j = true
  end.
Definition normal (k : option WPhase) : Prop :=
  match k with None | Some (WFinal _) | Some WExit => False | _ => True end.

Record LifeInv (s : OwnerService) (k : option WPhase) (l : list OAct) (g : nat) : Prop := {
  li_callers : stopCallers_ s = countIf isStop l;
  li_few : countIf isStop l <= u32_max;
  li_acts : Forall (actOk g) l;
  li_idle : running_ s = false ->
    worker_ s = false /\ stopping_ s = false /\ joining_ s = false /\ k = None /\ queue_ s = [] /\
    countIf isCancel l = 0 /\ countIf isJoin l = 0;
  li_live : running_ s = true -> stopping_ s = false ->
    worker_ s = true /\ joining_ s = false /\ cancellationReady_ s = false /\ normal k /\ countIf isCancel l = 0 /\ countIf isJoin l = 0 /\ countIf isStop l = 0;
  li_stopping : running_ s = true -> stopping_ s = true ->
    worker_ s = negb (joining_ s) /\ k <> None /\ queue_ s = [] /\ (cancellationReady_ s = false -> normal k) /\
    countIf isJoin l = (if joining_ s then 1 else 0) /\ countIf isCancel l = (if cancellationReady_ s then 0 else 1) }.

Lemma countIf_app f l1 l2 : countIf f (l1 ++ l2) = countIf f l1 + countIf f l2.
Proof. induction l1 as [|a l1 IH]; cbn; lia. Qed.
Lemma countIf_range f l : 0 <= countIf f l <= Z.of_nat (length l).
Proof. induction l as [|a l IH]; cbn [countIf length]; [lia|]. destruct (f a); lia. Qed.

Ltac acts_norm :=
  rewrite ?countIf_app in *; cbn [countIf isCancel isJoin isStop negb] in *; rewrite ?countIf_app in *.
Ltac life_split :=
  repeat match goal with
  | H : _ /\ _ |- _ => destruct H
  | H : Forall _ (_ ++ _) |- _ => apply Forall_app in H
  | H : Forall _ (_ :: _) |- _ => apply Forall_cons in H
  end.

Lemma life0 : LifeInv service0 None [] 0.
Proof. split; cbn; unfold u32_max; try done; lia. Qed.

Lemma acts_restart g l : Forall (actOk g) l -> countIf isStop l = 0 -> countIf isCancel l = 0 -> Forall (actOk (S g)) l.
Proof.
  induction 1 as [|a l Ha _ IH]; [constructor|]. cbn [countIf]. intros H1 H2.
  pose proof (countIf_range isStop l). pose proof (countIf_range isCancel l).
  destruct a; cbn [isStop isCancel] in *; try lia. constructor; [done|]. apply IH; lia.
Qed.
(** The section's conditions first, then the flags. *)
Ltac sections E :=
  repeat (match type of E with context [if ?b then _ else _] =>
    lazymatch b with context [if _ then _ else _] => fail | _ => destruct b eqn:? end end; cbn in E);
  repeat match type of E with context [match ?x with _ => _ end] => is_var x; destruct x; cbn in E end;
  simplify_eq/=; bool_solve.
Ltac life_case s :=
  destruct s as [q wo id ow ru st jo re idf fo fi sc]; intros [Hca Hfw Hac Hid Hli Hst]; cbn in *.
Ltac life_flags :=
  simplify_eq/=;
  repeat match goal with
  | H : true = true -> _ |- _ => specialize (H eq_refl)
  | H : false = false -> _ |- _ => specialize (H eq_refl)
  | H : true = false -> _ |- _ => clear H
  | H : false = true -> _ |- _ => clear H
  | b : bool, H : ?x = true -> _ |- _ => constr_eq b x; destruct b; cbn in *
  | b : bool, H : ?x = false -> _ |- _ => constr_eq b x; destruct b; cbn in *
  end; life_split; simplify_eq/=.
Lemma u32_inc z : 0 <= z < u32_max -> u32 (z + 1) = z + 1.
Proof. intros. apply u32_small. unfold is_u32. lia. Qed.
Lemma u32_dec z : 0 < z <= u32_max -> u32 (z - 1) = z - 1.
Proof. intros. apply u32_small. unfold is_u32. lia. Qed.
Ltac life_close :=
  acts_norm; rewrite ?u32_inc, ?u32_dec in * by (unfold u32_max in *; lia);
  split; cbn; intros; acts_norm; life_split; repeat split; try done; try lia; try (by intros ->);
  try (by repeat first [apply Forall_app_2 | apply Forall_cons_2]).
Lemma admit_true r b s s' : admitRequest r b s = (true, s') ->
  running_ s = true /\ stopping_ s = false /\ s' = s <| queue_ := queue_ s ++ [r] |>.
Proof. unfold admitRequest. intros E. repeat case_match; simplify_eq; bool_solve. by destruct (running_ s). Qed.
Lemma admit_room r b s s' : admitRequest r b s = (true, s') -> (length (queue_ s) < kQueueCapacity)%nat.
Proof.
  unfold admitRequest. intros E. destruct (kQueueCapacity <=? length (queue_ s))%nat eqn:Eq; [|by apply Nat.leb_gt in Eq].
  by rewrite !orb_true_r in E.
Qed.
Lemma life_step w w' : owner_step w w' -> LifeInv (sv w) (wk w) (acts w) (gen w) -> LifeInv (sv w') (wk w') (acts w') (gen w').
Proof.
  intros Hs. destruct Hs as
    [s k l d g n lg idle s' E | s k l d g n lg idle sp s' E | s k l d g n lg t s' Ho E | s k l d g n lg s' E
    | s k l1 l2 d g n lg t r b E | s k l d g n lg t owner fin c s' Ho Hf E | s k l d g n lg t owner fin x s' Ho Hf E
    | s k l1 l2 d g n lg t h owner r c | s k l1 l2 d g n lg t h owner x s' E | s k l1 l2 d g n lg t h b s' E
    | s k l1 l2 d g n lg t h j b s' Hj E | s l d g n lg t | s l d g n lg r s' E | s l d g n lg s' E | s l d g n lg f s' E
    | s l d g n lg r b | s l d g n lg due | s l d g n lg | s l d g n lg | s l d g n lg f b Hb];
  cbn [sv wk acts gen].
  - unfold start in E. life_case s. sections E. life_flags. life_close. by apply acts_restart.
  - unfold start in E. life_case s. sections E; life_flags; life_close.
  - apply admit_true in E as (Hr & Ht & ->). life_case s. life_flags. life_close; by constructor.
  - apply admit_true in E as (Hr & Ht & ->). life_case s. life_flags. life_close.
  - life_case s. life_flags; life_close; by apply Forall_app.
  - unfold stopEnter, stopTail, few in *. pose proof (countIf_range isStop l). life_case s.
    sections E; life_flags; life_close.
  - unfold stopEnter, stopTail, few, callerDone in *. pose proof (countIf_range isStop l). life_case s.
    sections E; life_flags; life_close.
  - life_case s. life_flags; life_close.
  - unfold stopCancelled, stopTail, callerDone in *. 
    pose proof (countIf_range isStop l1). pose proof (countIf_range isStop l2).
    pose proof (countIf_range isCancel l1). pose proof (countIf_range isCancel l2). life_case s.
    sections E; life_flags; life_close; try (destruct re; lia).
  - unfold stopWoken, callerDone in *. pose proof (countIf_range isStop l1). pose proof (countIf_range isStop l2).
    life_case s. sections E; life_flags; life_close.
  - unfold stopJoined, callerDone in *. pose proof (countIf_range isStop l1). pose proof (countIf_range isStop l2).
    pose proof (countIf_range isJoin l1). pose proof (countIf_range isJoin l2).
    life_case s. sections E; life_flags; life_close; destruct jo, re; cbn in *; try done; try lia; by exfalso; auto.
  - life_case s. life_flags; life_close.
  - unfold runTurn in E. life_case s. sections E; life_flags; life_close.
  - unfold runTurn in E. life_case s. sections E; life_flags; life_close.
  - unfold runTurn in E. life_case s. sections E; life_flags; life_close.
  - life_case s. life_flags; life_close.
  - destruct (due && between s); life_case s; life_flags; life_close.
  - life_case s. life_flags; life_close.
  - life_case s. life_flags; life_close.
  - life_case s. life_flags; life_close.
Qed.

(** ** Requests *)
Fixpoint times (x : nat) (l : list nat) : nat :=
  match l with [] => 0 | y :: l => (if decide (x = y) then 1 else 0) + times x l end%nat.
Definition acceptedOf : list OEv -> list nat := omap (fun e => match e with EAccept r => Some r | _ => None end).
Definition ranOf : list OEv -> list nat := omap (fun e => match e with ERun r => Some r | _ => None end).
Definition settledOf : list OEv -> list nat := omap (fun e => match e with ESettle r _ => Some r | _ => None end).
Definition cancelledOf : list OEv -> list nat := omap (fun e => match e with ECancel r => Some r | _ => None end).
Definition runningReq (k : option WPhase) : list nat := match k with Some (WRun r) => [r] | _ => [] end.
Definition cancels (a : OAct) : list nat := match a with ACancel _ _ _ c => c | _ => [] end.
Definition beingCancelled (l : list OAct) : list nat := flat_map cancels l.

Record ReqInv (s : OwnerService) (k : option WPhase) (l : list OAct) (d : gmap nat bool) (n : nat) (lg : list OEv) : Prop := {
  rq_fresh : forall r, (times r (acceptedOf lg) <= if decide (r < n)%nat then 1 else 0)%nat;
  rq_place : forall r, (times r (acceptedOf lg) = times r (queue_ s) + times r (runningReq k) + times r (beingCancelled l)
    + times r (settledOf lg) + times r (cancelledOf lg))%nat;
  rq_ran : forall r, (times r (ranOf lg) = times r (runningReq k) + times r (settledOf lg))%nat;
  rq_done : forall r b, d !! r = Some b <-> ESettle r b ∈ lg \/ b = false /\ ECancel r ∈ lg;
  rq_answer : forall t r b, EAnswer t r b ∈ lg -> d !! r = Some b }.

Lemma times_app x l1 l2 : (times x (l1 ++ l2) = times x l1 + times x l2)%nat.
Proof. induction l1 as [|y l1 IH]; cbn; [done|]. rewrite IH. lia. Qed.
Lemma times_in x l : (0 < times x l)%nat <-> x ∈ l.
Proof.
  induction l as [|y l IH]; cbn; [split; [lia | intros H; by apply elem_of_nil in H]|].
  rewrite elem_of_cons, <-IH. case_decide; subst; [split; [by left | lia] | intuition lia].
Qed.
Lemma settled_in r lg : r ∈ settledOf lg <-> exists b, ESettle r b ∈ lg.
Proof.
  unfold settledOf. rewrite list_elem_of_omap. split.
  - intros (e & He & E). destruct e; simplify_eq. eauto.
  - intros [b H]. eauto.
Qed.
Lemma cancelled_in r lg : r ∈ cancelledOf lg <-> ECancel r ∈ lg.
Proof.
  unfold cancelledOf. rewrite list_elem_of_omap. split; [|eauto].
  intros (e & He & E). by destruct e; simplify_eq.
Qed.
(** Whoever is still somewhere is not done. *)
Lemma not_done s k l d n lg r : ReqInv s k l d n lg -> (0 < times r (runningReq k) + times r (beingCancelled l))%nat -> d !! r = None.
Proof.
  intros [Hf Hp _ Hd _] H. destruct (d !! r) as [b|] eqn:E; [|done]. exfalso. apply Hd in E.
  specialize (Hf r). specialize (Hp r). case_decide; destruct E as [E|[_ E]]; 
    (assert (0 < times r (settledOf lg) \/ 0 < times r (cancelledOf lg))%nat by
      (rewrite !times_in, settled_in, cancelled_in; eauto)); lia.
Qed.
Lemma req0 : ReqInv service0 None [] ∅ 0 [].
Proof.
  split; cbn; try done; try lia.
  - intros r b. rewrite lookup_empty. split; [done|]. intros [H|[_ H]]; by apply elem_of_nil in H.
  - intros t r b H. by apply elem_of_nil in H.
Qed.

Lemma start_queue i sp s b s' : start i sp s = (b, s') -> queue_ s' = queue_ s.
Proof. unfold start. intros E. repeat case_match; by simplify_eq/=. Qed.
Lemma stopTail_same o s x s' : stopTail o s = (x, s') -> queue_ s' = queue_ s /\ finalOutcome_ s' = finalOutcome_ s /\ running_ s' = running_ s /\
  idleFailed_ s' = idleFailed_ s.
Proof. unfold stopTail. intros E. repeat case_match; by simplify_eq/=. Qed.
Lemma stopEnter_first o f s c s' : stopEnter o f s = (inl c, s') ->
  c = queue_ s /\ queue_ s' = [] /\ finalOutcome_ s' = finalOutcome_ s /\ running_ s' = running_ s /\
  idleFailed_ s' = idleFailed_ s.
Proof.
  unfold stopEnter. set (s1 := if o then s else _). intros E. case_match; [|by destruct (stopTail o s1)].
  simplify_eq/=. by unfold s1; destruct o.
Qed.
Lemma stopEnter_later o f s x s' : stopEnter o f s = (inr x, s') -> exists s1,
  queue_ s1 = queue_ s /\ finalOutcome_ s1 = finalOutcome_ s /\ running_ s1 = running_ s /\
  idleFailed_ s1 = idleFailed_ s /\ stopTail o s1 = (x, s').
Proof.
  unfold stopEnter. set (s1 := if o then s else _). intros E. exists s1. case_match; [done|].
  destruct (stopTail o s1) as [n s2] eqn:Et. simplify_eq. by unfold s1; destruct o.
Qed.
Lemma beingCancelled_app l1 l2 : beingCancelled (l1 ++ l2) = beingCancelled l1 ++ beingCancelled l2.
Proof. apply flat_map_app. Qed.
Lemma cancels_tail t h x : beingCancelled (tailAct t h x) = [].
Proof. by destruct x. Qed.
(** No event of a tail is one of the requests'. *)
Lemma events_tail {A} (f : OEv -> option A) t h o x lg :
  (forall b, f (EStop t h b) = None) -> omap f (tailEv t h o x ++ lg) = omap f lg.
Proof. intros Hf. destruct x; try done. destruct o; [done|]. cbn. by rewrite Hf. Qed.

Lemma req_same s s' k k' l l' d n lg lg' : ReqInv s k l d n lg ->
  (forall r, times r (queue_ s') + times r (runningReq k') + times r (beingCancelled l') =
             times r (queue_ s) + times r (runningReq k) + times r (beingCancelled l))%nat ->
  (forall r, times r (runningReq k') = times r (runningReq k)) ->
  acceptedOf lg' = acceptedOf lg -> ranOf lg' = ranOf lg -> settledOf lg' = settledOf lg -> cancelledOf lg' = cancelledOf lg ->
  (forall r b, ESettle r b ∈ lg' <-> ESettle r b ∈ lg) ->
  (forall t r b, EAnswer t r b ∈ lg' -> EAnswer t r b ∈ lg \/ d !! r = Some b) ->
  ReqInv s' k' l' d n lg'.
Proof.
  intros [Hf Hp Hr Hd Ha] Hq Hk Eacc Eran Eset Ecan Es Ean. split.
  - by rewrite Eacc.
  - intros r. rewrite Eacc, Eset, Ecan. specialize (Hp r). specialize (Hq r). lia.
  - intros r. rewrite Eran, Eset, Hk. done.
  - intros r b. rewrite Hd, Es, <-!cancelled_in, Ecan. done.
  - intros t r b H. apply Ean in H as [H|H]; [by eapply Ha | done].
Qed.
Lemma in_tail e t h o x lg : e ∈ tailEv t h o x ++ lg -> (exists b, e = EStop t h b) \/ e ∈ lg.
Proof.
  rewrite elem_of_app. intros [H|H]; [|by right]. left. destruct x; [|by apply elem_of_nil in H..].
  destruct o; [by apply elem_of_nil in H|]. apply list_elem_of_singleton in H. eauto.
Qed.
Lemma tail_in e t h o x lg : e ∈ lg -> e ∈ tailEv t h o x ++ lg.
Proof. rewrite elem_of_app. by right. Qed.

Lemma req_accept s k l l' d n lg : ReqInv s k l d n lg -> beingCancelled l' = beingCancelled l ->
  ReqInv (s <| queue_ := queue_ s ++ [n] |>) k l' d (S n) (EAccept n :: lg).
Proof.
  intros [Hf Hp Hr Hd Ha] Hl. split; cbn [acceptedOf ranOf settledOf cancelledOf omap list_omap times].
  - intros r. specialize (Hf r). repeat case_decide; subst; try lia.
  - intros r. cbn. rewrite Hl, times_app. cbn. specialize (Hp r). lia.
  - done.
  - intros r b. rewrite Hd, !elem_of_cons. intuition congruence.
  - intros t r b H. apply elem_of_cons in H as [?|H]; [done|]. by eapply Ha.
Qed.
(** A request is done: it ran and left the worker, or a stop cancelled it. *)
Lemma req_settle s k k' l l' d n lg r b e : ReqInv s k l d n lg ->
  e = ESettle r b /\ k = Some (WRun r) /\ runningReq k' = [] /\ l' = l \/
  e = ECancel r /\ b = false /\ k' = k /\ (forall x, times x (beingCancelled l) = times x (r :: beingCancelled l')) ->
  ReqInv s k' l' (<[r := b]> d) n (e :: lg).
Proof.
  intros HR H.
  assert (d !! r = None) as Hn.
  { eapply not_done; [exact HR|]. destruct H as [(-> & -> & _)|(-> & _ & _ & Hc)]; cbn; [|rewrite Hc; cbn];
      rewrite decide_True by done; lia. }
  destruct HR as [Hf Hp Hr Hd Ha].
  assert (forall x c, <[r:=b]> d !! x = Some c <-> (x = r /\ c = b) \/ d !! x = Some c) as Hi.
  { intros x c. rewrite lookup_insert_Some. destruct (decide (x = r)) as [->|]; [rewrite Hn|]; intuition congruence. }
  split.
  - destruct H as [(-> & _)|(-> & _)]; done.
  - intros x. specialize (Hp x). destruct H as [(-> & -> & Hk & ->)|(-> & -> & -> & Hc)];
      cbn [acceptedOf settledOf cancelledOf omap list_omap times].
    + rewrite Hk. cbn [runningReq times] in *. fold settledOf cancelledOf acceptedOf in *. lia.
    + rewrite Hc in Hp. cbn [times] in Hp. lia.
  - intros x. specialize (Hr x). destruct H as [(-> & -> & Hk & ->)|(-> & -> & -> & Hc)];
      cbn [ranOf settledOf omap list_omap times]; [|done]. rewrite Hk. cbn [runningReq times] in *. lia.
  - intros x c. rewrite Hi, Hd, !elem_of_cons. destruct H as [(-> & _)|(-> & -> & _)]; intuition congruence.
  - intros t x c Hx. rewrite Hi. right. apply elem_of_cons in Hx as [Hx|Hx]; [|by eapply Ha].
    by destruct H as [(-> & _)|(-> & _)].
Qed.
Ltac req_quiet HR :=
  eapply req_same; [exact HR | intros ?; rewrite ?beingCancelled_app, ?cancels_tail; cbn; change (flat_map cancels) with beingCancelled;
      rewrite ?beingCancelled_app, ?cancels_tail, ?times_app; cbn; try lia
    | try done | first [done | apply events_tail; done].. | intros ? ?; rewrite ?elem_of_cons; try (intuition congruence)
    | intros ? ? ?; rewrite ?elem_of_cons; try (intuition congruence) ].
Lemma req_step w w' : owner_step w w' -> LifeInv (sv w) (wk w) (acts w) (gen w) ->
  ReqInv (sv w) (wk w) (acts w) (done_ w) (next w) (olog w) ->
  ReqInv (sv w') (wk w') (acts w') (done_ w') (next w') (olog w').
Proof.
  intros Hs. destruct Hs as
    [s k l d g n lg idle s' E | s k l d g n lg idle sp s' E | s k l d g n lg t s' Ho E | s k l d g n lg s' E
    | s k l1 l2 d g n lg t r b E | s k l d g n lg t owner fin c s' Ho Hf E | s k l d g n lg t owner fin x s' Ho Hf E
    | s k l1 l2 d g n lg t h owner r c | s k l1 l2 d g n lg t h owner x s' E | s k l1 l2 d g n lg t h b s' E
    | s k l1 l2 d g n lg t h j b s' Hj E | s l d g n lg t | s l d g n lg r s' E | s l d g n lg s' E | s l d g n lg f s' E
    | s l d g n lg r b | s l d g n lg due | s l d g n lg | s l d g n lg | s l d g n lg f b Hb];
  cbn [sv wk acts gen done_ next olog]; intros HL HR.
  - eapply req_same; [exact HR| | |done..|auto]; rewrite ?(start_queue _ _ _ _ _ E);
      destruct (li_idle _ _ _ _ HL) as (_ & _ & _ & -> & _); try done; unfold start in E; by repeat case_match; bool_solve.
  - req_quiet HR; by rewrite ?(start_queue _ _ _ _ _ E).
  - apply admit_true in E as (_ & _ & ->). by eapply req_accept.
  - apply admit_true in E as (_ & _ & ->). by eapply req_accept.
  - req_quiet HR.
  - apply stopEnter_first in E as (-> & Eq & _). req_quiet HR; rewrite Eq; cbn; lia.
  - apply stopEnter_later in E as (s1 & Eq & _ & _ & _ & Et). destruct (stopTail_same _ _ _ _ Et) as (Eq' & _).
    rewrite Eq in Eq'. req_quiet HR; try (by rewrite Eq').
    + split; [intros [[c ?]|?]%in_tail; done | apply tail_in].
    + intros [[c ?]|?]%in_tail; [done | by left].
  - eapply req_settle; [exact HR|]. right. split_and!; try done. intros y. rewrite !beingCancelled_app, !times_app.
    cbn. change (flat_map cancels) with beingCancelled. rewrite !times_app. cbn. lia.
  - unfold stopCancelled in E. destruct (stopTail_same _ _ _ _ E) as (Eq & _). cbn in Eq. req_quiet HR; try (rewrite Eq; lia).
    + split; [intros [[c ?]|?]%in_tail; done | apply tail_in].
    + intros [[c ?]|?]%in_tail; [done | by left].
  - unfold stopWoken in E. case_match; simplify_eq/=. req_quiet HR.
  - unfold stopJoined in E. simplify_eq/=. assert (runningReq (if j then None else k) = runningReq k) as Ek
      by (destruct j; [by rewrite Hj|done]). req_quiet HR; rewrite Ek; done || lia.
  - req_quiet HR.
  - unfold runTurn in E. repeat case_match; simplify_eq/=.
    destruct HR as [Hf Hp Hr Hd Ha]. split; try done.
    + intros x. specialize (Hp x). rewrite H0 in Hp. cbn in *. lia.
    + intros x. specialize (Hr x). cbn in *. lia.
    + intros x c. rewrite Hd, !elem_of_cons. intuition congruence.
    + intros t x c Hx. apply elem_of_cons in Hx as [?|Hx]; [done | by eapply Ha].
  - unfold runTurn in E. repeat case_match; simplify_eq/=; req_quiet HR.
  - unfold runTurn in E. repeat case_match; simplify_eq/=; req_quiet HR.
  - eapply req_settle; [exact HR|]. by left.
  - destruct (due && between s); req_quiet HR.
  - req_quiet HR.
  - req_quiet HR.
  - req_quiet HR.
Qed.

(** ** Outcomes *)
Definition exitsOf : list OEv -> list nat := omap (fun e => match e with EExit g _ _ => Some g | _ => None end).
Definition finalsOf : list OEv -> list nat := omap (fun e => match e with EFinal g => Some g | _ => None end).
(** The generation's finalizer has begun; it is over. *)
Definition begunFinal (s : OwnerService) (k : option WPhase) : bool :=
  negb (running_ s) || match k with Some (WFinal _) | Some WExit => true | _ => false end.
Definition over_ (s : OwnerService) (k : option WPhase) : bool :=
  negb (running_ s) || match k with Some WExit => true | _ => false end.
(** The last generation's outcome, true before the first. *)
Definition outcomeIs (g : nat) (b : bool) (lg : list OEv) : Prop :=
  g = 0%nat /\ b = true \/ exists f, EExit g f b ∈ lg.
Record OutInv (s : OwnerService) (k : option WPhase) (g : nat) (lg : list OEv) : Prop := {
  ot_exits : forall h, (times h (exitsOf lg) <= if decide (h < g \/ h = g /\ over_ s k = true)%nat then 1 else 0)%nat;
  ot_finals : forall h, (times h (finalsOf lg) <= if decide (h < g \/ h = g /\ begunFinal s k = true)%nat then 1 else 0)%nat;
  ot_outcome : over_ s k = true -> outcomeIs g (finalOutcome_ s) lg;
  ot_failed : forall h, EIdleFailed h ∈ lg -> (h <= g)%nat;
  ot_idle : over_ s k = false -> (idleFailed_ s = true <-> EIdleFailed g ∈ lg);
  ot_true : forall h f b, EExit h f b ∈ lg -> (b = true <-> f = true /\ EIdleFailed h ∉ lg);
  ot_stop : forall t h b, EStop t h b ∈ lg -> outcomeIs h b lg }.

Lemma exits_in h f b lg : EExit h f b ∈ lg -> (0 < times h (exitsOf lg))%nat.
Proof. intros H. apply times_in. unfold exitsOf. rewrite list_elem_of_omap. eauto. Qed.
Lemma out0 : OutInv service0 None 0 [].
Proof.
  split; cbn; try done; try (intros; case_decide; lia); intros; try (by apply not_elem_of_nil in H).
  all: try by left. all: exfalso; by eapply not_elem_of_nil.
Qed.
Lemma outcome_mono g b lg lg' : (forall f, EExit g f b ∈ lg -> EExit g f b ∈ lg') -> outcomeIs g b lg -> outcomeIs g b lg'.
Proof. intros H [?|[f Hf]]; [by left | right; eauto]. Qed.
Lemma out_same s s' k k' g lg lg' : OutInv s k g lg ->
  over_ s' k' = over_ s k -> begunFinal s' k' = begunFinal s k ->
  (over_ s k = true -> finalOutcome_ s' = finalOutcome_ s) -> (over_ s k = false -> idleFailed_ s' = idleFailed_ s) ->
  exitsOf lg' = exitsOf lg -> finalsOf lg' = finalsOf lg ->
  (forall h, EIdleFailed h ∈ lg' <-> EIdleFailed h ∈ lg) -> (forall h f b, EExit h f b ∈ lg' <-> EExit h f b ∈ lg) ->
  (forall t h b, EStop t h b ∈ lg' -> EStop t h b ∈ lg \/ outcomeIs h b lg) -> OutInv s' k' g lg'.
Proof.
  intros [H1 H2 H3 H4 H5 H6 H7] Ho Hb Hf Hi Ex Ef Hif He Hs. split.
  - by rewrite Ex, Ho.
  - by rewrite Ef, Hb.
  - rewrite Ho. intros E. rewrite Hf by done. eapply outcome_mono; [|by apply H3]. intros f. by rewrite He.
  - intros h. rewrite Hif. apply H4.
  - rewrite Ho. intros E. rewrite Hi, Hif by done. by apply H5.
  - intros h f b. rewrite He, Hif. apply H6.
  - intros t h b Hx. eapply outcome_mono; [|destruct (Hs _ _ _ Hx) as [?|?]; [by eapply H7 | done]].
    intros f. by rewrite He.
Qed.
Lemma life_worker s k l g : LifeInv s k l g -> k <> None -> running_ s = true.
Proof. intros H Hk. destruct (running_ s) eqn:E; [done|]. by destruct (li_idle _ _ _ _ H E) as (_ & _ & _ & ? & _). Qed.
Lemma life_ended s k l g : LifeInv s k l g -> joining_ s = false -> worker_ s = false -> running_ s = false.
Proof.
  intros H Hj Hw. destruct (running_ s) eqn:E; [|done]. destruct (stopping_ s) eqn:Es.
  - destruct (li_stopping _ _ _ _ H E Es) as (? & _). rewrite Hj, Hw in *. done.
  - destruct (li_live _ _ _ _ H E Es) as (? & _). congruence.
Qed.
(** A tail that answers: the worker is joined, or the caller is the owner. *)
Lemma tail_answer s k g lg s1 o x s' t : OutInv s k g lg ->
  finalOutcome_ s1 = finalOutcome_ s -> running_ s1 = running_ s ->
  stopTail o s1 = (x, s') -> forall u h b, EStop u h b ∈ tailEv t g o x ++ lg -> EStop u h b ∈ lg \/ outcomeIs h b lg.
Proof.
  intros HO Hf Hr E u h b Hx. apply elem_of_app in Hx as [Hx|Hx]; [|by left]. right.
  unfold stopTail in E. destruct o; [simplify_eq; by apply not_elem_of_nil in Hx|].
  destruct (negb (worker_ s1) && negb (running_ s1)) eqn:Eb; simplify_eq.
  - apply list_elem_of_singleton in Hx. simplify_eq. bool_solve. rewrite Hf. apply (ot_outcome _ _ _ _ HO).
    unfold over_. rewrite <-Hr. by destruct (running_ s1).
  - destruct (joining_ s1); simplify_eq; by apply not_elem_of_nil in Hx.
Qed.
Ltac out_quiet HO :=
  eapply out_same; [exact HO | try done | try done | try done | try done | first [done | apply events_tail; done].. |
    intros ?; rewrite ?elem_of_cons; try (intuition congruence) | intros ? ? ?; rewrite ?elem_of_cons; try (intuition congruence)
    | intros ? ? ?; rewrite ?elem_of_cons; try (intuition congruence) ].
(** The finalizer begins; an idle callback fails; the worker leaves. *)
Lemma out_final s s' k k' g lg : OutInv s k g lg -> begunFinal s k = false -> idleFailed_ s' = idleFailed_ s ->
  begunFinal s' k' = true /\ over_ s' k' = false -> OutInv s' k' g (EFinal g :: lg).
Proof.
  intros [H1 H2 H3 H4 H5 H6 H7] Hb Hi [Hb' Ho']. assert (over_ s k = false) as Ho.
  { unfold begunFinal, over_ in *. destruct (negb (running_ s)); [done|]. by destruct k as [[]|]. }
  rewrite Ho, Hb in *. split; rewrite ?Ho', ?Hb'.
  - done.
  - intros h. cbn. specialize (H2 h). unfold finalsOf in *. repeat case_decide; subst; lia.
  - done.
  - intros h [?|Hh]%elem_of_cons; [done | by apply H4].
  - intros _. rewrite Hi, elem_of_cons, H5 by done. intuition congruence.
  - intros h f b [?|Hh]%elem_of_cons; [done|]. rewrite (H6 _ _ _ Hh), !elem_of_cons. intuition congruence.
  - intros t h b [?|Hh]%elem_of_cons; [done|]. eapply outcome_mono; [|by eapply H7]. intros f. rewrite elem_of_cons. by right.
Qed.
Lemma out_fail s k k' g lg : OutInv s k g lg -> 
  over_ s k = false /\ over_ (idleFail s) k' = false /\ begunFinal (idleFail s) k' = begunFinal s k ->
  OutInv (idleFail s) k' g (EIdleFailed g :: lg).
Proof.
  intros [H1 H2 H3 H4 H5 H6 H7] (Ho & Ho' & Hb). rewrite Ho in *. split; rewrite ?Ho', ?Hb.
  - done.
  - done.
  - done.
  - intros h [?|Hh]%elem_of_cons; [simplify_eq; lia | by apply H4].
  - intros _. cbn. split; [by left | done].
  - intros h f b [?|Hh]%elem_of_cons; [done|]. rewrite (H6 _ _ _ Hh), !elem_of_cons.
    assert (h <> g) by (intros ->; pose proof (exits_in _ _ _ _ Hh); specialize (H1 g); case_decide; [lia|lia]).
    intuition congruence.
  - intros t h b [?|Hh]%elem_of_cons; [done|]. eapply outcome_mono; [|by eapply H7]. intros f. rewrite elem_of_cons. by right.
Qed.
Lemma out_exit s k g lg b : OutInv s k g lg -> over_ s k = false /\ begunFinal s k = true /\ running_ s = true ->
  OutInv (runFinal b s) (Some WExit) g (EExit g b (finalOutcome_ (runFinal b s)) :: lg).
Proof.
  intros [H1 H2 H3 H4 H5 H6 H7] (Ho & Hb & Hr). rewrite Ho, Hb in *.
  assert (over_ (runFinal b s) (Some WExit) = true /\ begunFinal (runFinal b s) (Some WExit) = true) as [Ho' Hb'].
  { unfold over_, begunFinal. cbn. by rewrite Hr. }
  split; rewrite ?Ho', ?Hb'.
  - intros h. cbn. specialize (H1 h). unfold exitsOf in *. repeat case_decide; subst; try lia.
  - done.
  - intros _. right. exists b. by left.
  - intros h [?|Hh]%elem_of_cons; [done | by apply H4].
  - done.
  - intros h f c [Hh|Hh]%elem_of_cons; rewrite !elem_of_cons.
    + simplify_eq. cbn. rewrite andb_true_iff, negb_true_iff. destruct (idleFailed_ s); intuition congruence.
    + rewrite (H6 _ _ _ Hh). intuition congruence.
  - intros t h c [?|Hh]%elem_of_cons; [done|]. eapply outcome_mono; [|by eapply H7]. intros f. rewrite elem_of_cons. by right.
Qed.
Lemma out_step w w' : owner_step w w' -> LifeInv (sv w) (wk w) (acts w) (gen w) ->
  OutInv (sv w) (wk w) (gen w) (olog w) -> OutInv (sv w') (wk w') (gen w') (olog w').
Proof.
  intros Hs. destruct Hs as
    [s k l d g n lg idle s' E | s k l d g n lg idle sp s' E | s k l d g n lg t s' Ho E | s k l d g n lg s' E
    | s k l1 l2 d g n lg t r b E | s k l d g n lg t owner fin c s' Ho Hf E | s k l d g n lg t owner fin x s' Ho Hf E
    | s k l1 l2 d g n lg t h owner r c | s k l1 l2 d g n lg t h owner x s' E | s k l1 l2 d g n lg t h b s' E
    | s k l1 l2 d g n lg t h j b s' Hj E | s l d g n lg t | s l d g n lg r s' E | s l d g n lg s' E | s l d g n lg f s' E
    | s l d g n lg r b | s l d g n lg due | s l d g n lg | s l d g n lg | s l d g n lg f b Hb];
  cbn [sv wk acts gen done_ next olog]; intros HL HO.
  - unfold start in E. repeat case_match; simplify_eq/=. destruct HO as [H1 H2 H3 H4 H5 H6 H7]. split; try done.
    + intros h. specialize (H1 h). repeat case_decide; lia.
    + intros h. specialize (H2 h). repeat case_decide; lia.
    + intros h Hh. specialize (H4 h Hh). lia.
    + intros _. cbn. split; [done|]. intros Hh. specialize (H4 _ Hh). lia.
  - unfold start in E. repeat case_match; simplify_eq/=; [out_quiet HO|]. bool_solve.
    assert (running_ s = false) as Hr by by destruct (running_ s).
    destruct (li_idle _ _ _ _ HL Hr) as (_ & _ & _ & -> & _). out_quiet HO; unfold over_, begunFinal; cbn; by rewrite Hr.
  - apply admit_true in E as (_ & _ & ->). out_quiet HO.
  - apply admit_true in E as (_ & _ & ->). out_quiet HO.
  - out_quiet HO.
  - apply stopEnter_first in E as (_ & _ & Ef & Er & Ei). out_quiet HO; unfold over_, begunFinal; by rewrite Er.
  - apply stopEnter_later in E as (s1 & _ & Ef & Er & Ei & Et).
    destruct (stopTail_same _ _ _ _ Et) as (_ & Ef' & Er' & Ei'). rewrite Ef in Ef'. rewrite Er in Er'. rewrite Ei in Ei'.
    out_quiet HO; try (unfold over_, begunFinal; by rewrite Er').
    + split; [intros [[c ?]|?]%in_tail; done | apply tail_in].
    + split; [intros [[c ?]|?]%in_tail; done | apply tail_in].
    + eapply tail_answer; [exact HO|exact Ef|exact Er|exact Et].
  - out_quiet HO.
  - assert (owner = true \/ h = g) as Hg by (pose proof (li_acts _ _ _ _ HL) as Ha; life_split; by right).
    unfold stopCancelled in E. destruct (stopTail_same _ _ _ _ E) as (_ & Ef & Er & Ei). cbn in *.
    out_quiet HO; try (unfold over_, begunFinal; by rewrite Er).
    + split; [intros [[c ?]|?]%in_tail; done | apply tail_in].
    + split; [intros [[c ?]|?]%in_tail; done | apply tail_in].
    + assert (h = g) as -> by (pose proof (li_acts _ _ _ _ HL) as Ha; life_split; done).
      eapply tail_answer; [exact HO| | |exact E]; done.
  - unfold stopWoken in E. destruct (joining_ s || worker_ s) eqn:Eb; [done|]. simplify_eq/=. bool_solve.
    out_quiet HO. intros [Hx|Hx]; [|by left]. right. simplify_eq.
    assert (h = g) as -> by (pose proof (li_acts _ _ _ _ HL) as Ha; life_split; done).
    apply (ot_outcome _ _ _ _ HO). unfold over_. by rewrite (life_ended _ _ _ _ HL).
  - unfold stopJoined in E. simplify_eq/=.
    pose proof (li_acts _ _ _ _ HL) as Ha. life_split. cbn in *. life_split. subst. rewrite Hj in * by done.
    pose proof (life_worker _ _ _ _ HL) as Hr. specialize (Hr ltac:(done)).
    out_quiet HO; unfold over_, begunFinal; cbn; rewrite ?Hr; try done.
    intros [Hx|Hx]; [|by left]. right. simplify_eq. apply (ot_outcome _ _ _ _ HO). unfold over_. by rewrite Hr.
  - out_quiet HO.
  - unfold runTurn in E. repeat case_match; simplify_eq/=. out_quiet HO.
  - unfold runTurn in E. repeat case_match; simplify_eq/=. out_quiet HO.
  - pose proof (life_worker _ _ _ _ HL ltac:(done)) as Hr.
    unfold runTurn in E. repeat case_match; simplify_eq/=.
    eapply out_final; [done | unfold begunFinal; by rewrite Hr | done | unfold begunFinal, over_; cbn; by rewrite Hr].
  - out_quiet HO.
  - destruct (due && between s); out_quiet HO.
  - out_quiet HO.
  - pose proof (life_worker _ _ _ _ HL ltac:(done)) as Hr. eapply out_fail; [done | unfold begunFinal, over_; cbn; by rewrite Hr].
  - pose proof (life_worker _ _ _ _ HL ltac:(done)) as Hr. eapply out_exit; [done | unfold begunFinal, over_; cbn; by rewrite Hr].
Qed.

(** ** Every interleaving *)
Record OwnerInv (w : OW) : Prop := {
  oi_life : LifeInv (sv w) (wk w) (acts w) (gen w);
  oi_req : ReqInv (sv w) (wk w) (acts w) (done_ w) (next w) (olog w);
  oi_out : OutInv (sv w) (wk w) (gen w) (olog w);
  oi_capacity : (length (queue_ (sv w)) <= kQueueCapacity)%nat }.
Lemma capacity_step w w' : owner_step w w' -> (length (queue_ (sv w)) <= kQueueCapacity)%nat ->
  (length (queue_ (sv w')) <= kQueueCapacity)%nat.
Proof.
  intros Hs. destruct Hs; cbn [sv]; intros Hq; try done.
  - by rewrite (start_queue _ _ _ _ _ H).
  - by rewrite (start_queue _ _ _ _ _ H).
  - apply admit_room in H0 as ?. apply admit_true in H0 as (_ & _ & ->). cbn. rewrite length_app. cbn. lia.
  - apply admit_room in H as ?. apply admit_true in H as (_ & _ & ->). cbn. rewrite length_app. cbn. lia.
  - apply stopEnter_first in H1 as (_ & -> & _). cbn. lia.
  - apply stopEnter_later in H1 as (s1 & Eq & _ & _ & _ & Et). destruct (stopTail_same _ _ _ _ Et) as (-> & _). by rewrite Eq.
  - unfold stopCancelled in H. by destruct (stopTail_same _ _ _ _ H) as (-> & _).
  - unfold stopWoken in H. by case_match; simplify_eq/=.
  - unfold stopJoined in H0. by simplify_eq/=.
  - unfold runTurn in H. destruct (stopping_ s), (queue_ s) eqn:Eq; repeat case_match; simplify_eq/=. lia.
  - unfold runTurn in H. destruct (stopping_ s), (queue_ s) eqn:Eq; repeat case_match; simplify_eq/=; rewrite ?Eq; cbn; try lia; done.
  - unfold runTurn in H. destruct (stopping_ s), (queue_ s) eqn:Eq; repeat case_match; simplify_eq/=; rewrite ?Eq; cbn; try lia; done.
Qed.
Lemma owner_reachable w : rtc owner_step ow0 w -> OwnerInv w.
Proof.
  intros Hr. eapply rtc_invariant; [|exact Hr|split; [apply life0 | apply req0 | apply out0 | cbn; lia]].
  intros x y Hs [HL HR HO HC]. split; [by eapply life_step | by eapply req_step | by eapply out_step | by eapply capacity_step].
Qed.
Lemma none_cancelling l : countIf isCancel l = 0 -> beingCancelled l = [].
Proof.
  induction l as [|a l IH]; [done|]. cbn. pose proof (countIf_range isCancel l). destruct a; cbn; try lia; intros; apply IH; lia.
Qed.
Lemma life_final s k l g : LifeInv s k l g -> begunFinal s k = true ->
  queue_ s = [] /\ runningReq k = [] /\ beingCancelled l = [].
Proof.
  intros H Hb. destruct (running_ s) eqn:E.
  - destruct (stopping_ s) eqn:Es.
    + destruct (li_stopping _ _ _ _ H E Es) as (_ & Hk & Hq & Hn & _ & Hc). unfold begunFinal in Hb. rewrite E in Hb.
      destruct (cancellationReady_ s); [|by destruct k as [[]|]; try done; specialize (Hn eq_refl)].
      split; [done|]. split; [by destruct k as [[]|] | by apply none_cancelling].
    + destruct (li_live _ _ _ _ H E Es) as (_ & _ & _ & Hn & _). unfold begunFinal in Hb. rewrite E in Hb.
      by destruct k as [[]|].
  - destruct (li_idle _ _ _ _ H E) as (_ & _ & _ & -> & -> & Hc & _). split_and!; try done. by apply none_cancelling.
Qed.

(** C19. However the callers, the callbacks and the stops interleave, each
    accepted request is in exactly one place, runs at most once and never after
    it was cancelled; the answer of [invoke] is what happened to its request; the
    queue stays within its capacity; and once the finalizer has begun nothing
    accepted is waiting, running or being cancelled. *)
Theorem owner_requests_settled w (Hr : rtc owner_step ow0 w) :
  (forall r, times r (acceptedOf (olog w)) <= 1 /\
     times r (acceptedOf (olog w)) = times r (queue_ (sv w)) + times r (runningReq (wk w)) + times r (beingCancelled (acts w))
       + times r (settledOf (olog w)) + times r (cancelledOf (olog w)) /\
     times r (ranOf (olog w)) = times r (runningReq (wk w)) + times r (settledOf (olog w)))%nat /\
  (forall t r b, EAnswer t r b ∈ olog w -> if b then ESettle r true ∈ olog w else ESettle r false ∈ olog w \/ ECancel r ∈ olog w) /\
  (length (queue_ (sv w)) <= 16)%nat /\
  (begunFinal (sv w) (wk w) = true -> queue_ (sv w) = [] /\ runningReq (wk w) = [] /\ beingCancelled (acts w) = []).
Proof.
  destruct (owner_reachable w Hr) as [HL [Hf Hp Hn Hd Ha] HO HC]. split_and!; [|..|done|by eapply life_final].
  - intros r. split_and!; [|apply Hp|apply Hn]. specialize (Hf r). case_decide; lia.
  - intros t r b H. apply Ha, Hd in H. destruct b; destruct H as [H|[? H]]; try done; [by left | by right].
Qed.

(** C20. Stopping is exact: every caller from another thread is answered with the
    outcome of the very generation it stopped, true only if the finalizer (if
    any) and every idle callback succeeded; a generation ends and is finalized
    once; no generation starts while a stop of the last one is unanswered; and an
    owner that is not running can be destroyed. *)
Theorem owner_stop_outcome w (Hr : rtc owner_step ow0 w) :
  (forall t h b, EStop t h b ∈ olog w -> outcomeIs h b (olog w)) /\
  (forall h f b, EExit h f b ∈ olog w -> (b = true <-> f = true /\ EIdleFailed h ∉ olog w)) /\
  (forall h, times h (exitsOf (olog w)) <= 1 /\ times h (finalsOf (olog w)) <= 1)%nat /\
  Forall (actOk (gen w)) (acts w) /\
  (forall a idle spawned, a ∈ acts w -> isStop a = true -> (start idle spawned (sv w)).1 = false) /\
  (running_ (sv w) = false -> destructorOk (sv w) = true).
Proof.
  destruct (owner_reachable w Hr) as [HL HR [H1 H2 H3 H4 H5 H6 H7] HC]. split_and!; try done.
  - intros h. specialize (H1 h). specialize (H2 h). repeat case_decide; lia.
  - apply HL.
  - intros a i sp Ha Hs. unfold start. rewrite (li_callers _ _ _ _ HL).
    apply list_elem_of_split in Ha as (l1 & l2 & ->). rewrite countIf_app. cbn [countIf]. rewrite Hs.
    pose proof (countIf_range isStop l1). pose proof (countIf_range isStop l2).
    destruct (running_ _ || worker_ _ || stopping_ _); [done|]. cbn [orb].
    destruct (Z.eqb_spec (countIf isStop l1 + (1 + countIf isStop l2)) 0); [lia | done].
  - intros E. destruct (li_idle _ _ _ _ HL E) as (Hw & _ & Hj & _). unfold destructorOk. by rewrite Hw, Hj.
Qed.

(** Thread 5 has its request run, then stops the service while another of its
    requests is queued; thread 6 stops it as well. *)
Definition owner_demo : list OEv :=
  [EStop 6 1 true; EStop 5 1 true; EExit 1 true true; EFinal 1; ECancel 1; EAnswer 5 0 true; EAccept 1; ESettle 0 true;
   ERun 0; EAccept 0]%nat.
Definition owner_end : OW :=
  mkOW (mkService [] false false None false false false true false true false 0) None [] (<[1%nat := false]> (<[0%nat := true]> ∅)) 1 2 owner_demo.
Lemma owner_demo_reachable : rtc owner_step ow0 owner_end.
Proof.
  eapply rtc_l; [eapply (o_start _ _ _ _ _ _ _ false); cbv; reflexivity|].
  eapply rtc_l; [eapply o_entry with (t := 9%nat)|].
  eapply rtc_l; [eapply (o_invoke _ _ _ _ _ _ _ 5); cbv; reflexivity|].
  eapply rtc_l; [eapply o_turn_run; cbv; reflexivity|].
  eapply rtc_l; [eapply o_ran with (b := true)|].
  eapply rtc_l; [eapply o_submit; cbv; reflexivity|].
  eapply rtc_l; [eapply (o_answer _ _ [] []) with (b := true); cbv; reflexivity|].
  eapply rtc_l; [eapply o_after with (due := false)|].
  eapply rtc_l; [eapply (o_stop_first _ _ _ _ _ _ _ 5 false true); cbv; reflexivity|].
  eapply rtc_l; [eapply (o_cancel _ _ [] [])|].
  eapply rtc_l; [eapply (o_cancelled _ _ [] []); cbv; reflexivity|].
  eapply rtc_l; [eapply (o_stop_later _ _ _ _ _ _ _ 6 false false); cbv; reflexivity|].
  eapply rtc_l; [eapply o_turn_final; cbv; reflexivity|].
  eapply rtc_l; [eapply (o_final _ _ _ _ _ _ _ true); done|].
  eapply rtc_l; [eapply (o_joined _ _ [AStopWait 6 1] []); cbv; reflexivity|].
  eapply rtc_l; [eapply (o_stop_woken _ _ [] []); cbv; reflexivity|].
  apply rtc_refl.
Defined.
Lemma owner_requests_settled_witness : rtc owner_step ow0 owner_end /\ (times 1 (acceptedOf (olog owner_end)) <= 1)%nat.
Proof. split; [exact owner_demo_reachable|]. apply (owner_requests_settled owner_end owner_demo_reachable). Defined.
Lemma owner_stop_outcome_witness : rtc owner_step ow0 owner_end /\ outcomeIs 1 true (olog owner_end).
Proof.
  split; [exact owner_demo_reachable|]. destruct (owner_stop_outcome owner_end owner_demo_reachable) as [H _].
  apply (H 6%nat). by left.
Defined.
