(* ===== verification/Rendezvous.v ===== *)
(** The rendezvous of the render thread with the owner thread
    (src/src/openxr/render_thread_dispatcher.h, class [RenderThreadDispatcher]).

    The render thread submits a callback to the owner and waits; while that
    callback runs, the owner may ask for graphics work, which the waiting render
    thread executes.  Every locked section is a step; callbacks run between
    steps.  What the owner service promises its client is [OwnerService]'s: an
    accepted request runs at most once, on the one owner thread, and its
    completion is called once, after it ran or instead of it
    ([d_begin], [d_drop], [d_complete]). *)
From S2P Require Import Prelude.

(** ** Data *)
Record GraphicsJob := mkJob { j_running : bool; j_done : bool; j_success : bool }.
Definition job0 : GraphicsJob := mkJob false false false.
#[export] Instance eta_Job : Settable GraphicsJob := fun j => mkJob (j_running j) (j_done j) (j_success j).
Record Boundary := mkBoundary { ownerExecuting : bool; b_done : bool; b_success : bool; cancelled : bool }.
Definition boundary0 : Boundary := mkBoundary false false false false.
#[export] Instance eta_Boundary : Settable Boundary := fun b =>
  mkBoundary (ownerExecuting b) (b_done b) (b_success b) (cancelled b).
(** Boundaries and jobs are shared objects: [heapB] and [heapJ] hold them by address. *)
Record State := mkState {
  renderThread : option nat; closed : bool; boundary : option nat; graphics : option nat;
  heapB : gmap nat Boundary; heapJ : gmap nat GraphicsJob }.
Definition state0 : State := mkState None false None None ∅ ∅.
#[export] Instance eta_State : Settable State := fun s =>
  mkState (renderThread s) (closed s) (boundary s) (graphics s) (heapB s) (heapJ s).
Definition getB (b : nat) (s : State) : Boundary := default boundary0 (heapB s !! b).
Definition getJ (j : nat) (s : State) : GraphicsJob := default job0 (heapJ s !! j).
Definition setB (b : nat) (f : Boundary -> Boundary) (s : State) : State := s <| heapB := <[b := f (getB b s)]> (heapB s) |>.
Definition setJ (j : nat) (f : GraphicsJob -> GraphicsJob) (s : State) : State := s <| heapJ := <[j := f (getJ j s)]> (heapJ s) |>.

(** ** Operations *)
Definition destructorRefuses (s : State) : bool := bool_decide (is_Some (boundary s)) || bool_decide (is_Some (graphics s)).
(** [bound] is [renderThread] being set. *)
Definition bindCurrentThread (t : nat) (s : State) : bool * State :=
  if bool_decide (is_Some (renderThread s)) || closed s then (false, s) else (true, s <| renderThread := Some t |>).
Definition isRenderThread (t : nat) (s : State) : bool := bool_decide (renderThread s = Some t).

(** invoke, by the owner thread [t], up to its wait; [j] is the new job. *)
Definition invokeJob (t j : nat) (s : State) : bool * State :=
  let refused := match boundary s with
    | Some b => closed s || negb (ownerExecuting (getB b s)) || bool_decide (is_Some (graphics s)) || isRenderThread t s
    | None => true
    end in
  if refused then (false, s) else (true, setJ j (fun _ => job0) (s <| graphics := Some j |>)).
(** The wait: the job's success once it is done. *)
Definition jobWoken (j : nat) (s : State) : option bool := if j_done (getJ j s) then Some (j_success (getJ j s)) else None.

(** invokeOwner, by thread [t], up to the submission; [b] is the new boundary. *)
Definition invokeOwnerEnter (t b : nat) (s : State) : bool * State :=
  if closed s || bool_decide (is_Some (boundary s)) || negb (isRenderThread t s) then (false, s)
  else (true, setB b (fun _ => boundary0) (s <| boundary := Some b |>)).
Definition submitRefused (s : State) : State := s <| boundary := None |>.
(** The submitted callback's first section: run the work, or not. *)
Definition ownerBegin (b : nat) (s : State) : bool * State :=
  if closed s then (false, setB b (fun x => x <| cancelled := true |>) s)
  else (true, setB b (fun x => x <| ownerExecuting := true |>) s).
Definition endOwnerWork (b : nat) (s : State) : State := setB b (fun x => x <| ownerExecuting := false |>) s.
Definition completion (b : nat) (success : bool) (s : State) : State :=
  setB b (fun x => x <| b_success := success && negb (cancelled x) |> <| b_done := true |>) s.
(** One turn of the render thread's loop. *)
Inductive Wake := TakeJob (j : nat) | Retire (success : bool).
Definition renderWake (b : nat) (s : State) : option (Wake * State) :=
  match graphics s with
  | Some j => Some (TakeJob j, setJ j (fun x => x <| j_running := true |>) s)
  | None => if b_done (getB b s) then Some (Retire (b_success (getB b s)), s <| boundary := None |>) else None
  end.
Definition jobDone (j : nat) (success : bool) (s : State) : State :=
  (setJ j (fun x => x <| j_success := success |> <| j_done := true |>) s) <| graphics := None |>.

(** close: the flags it sets; its first section also takes a job that has not started. *)
Definition closing (s : State) : State :=
  let s := s <| closed := true |> in
  match boundary s with Some b => setB b (fun x => x <| cancelled := true |>) s | None => s end.
Definition close (s : State) : option nat * State :=
  let s := closing s in
  match graphics s with
  | Some j => if j_running (getJ j s) then (None, s) else (Some j, s <| graphics := None |>)
  | None => (None, s)
  end.
Definition closeCancelled (j : nat) (s : State) : State := setJ j (fun x => x <| j_success := false |> <| j_done := true |>) s.

(** ** The world: where the render thread and the owner are, the closes between
    their sections, the next address, and what happened, latest first. *)
Inductive RPhase := RIdle | RSubmit (b : nat) | RWait (b : nat) | RJob (b j : nat).
Inductive OPhase := ONone | OQueued (b : nat) | OExec (b : nat) | OWait (b j : nat) | OEnd (b : nat) (success : bool).
Inductive DEv :=
  | DBegin (b : nat) | DEnd (b : nat) (success : bool) | DRetire (b : nat) (success : bool)
  | DAsk (b j : nat) | DRun (j : nat) | DRan (j : nat) (success : bool) | DCancel (j : nat) | DAnswer (j : nat) (success : bool).
Record DW := mkDW { st : State; rp : RPhase; op : OPhase; closers : list nat; fresh_ : nat; dlog : list DEv }.
Definition dw0 : DW := mkDW state0 RIdle ONone [] 0 [].

Inductive meet_step : DW -> DW -> Prop :=
  | d_bind s r o c n lg t s' : bindCurrentThread t s = (true, s') -> meet_step (mkDW s r o c n lg) (mkDW s' r o c n lg)
  | d_enter s o c n lg t s' : invokeOwnerEnter t n s = (true, s') ->
      meet_step (mkDW s RIdle o c n lg) (mkDW s' (RSubmit n) o c (S n) lg)
  | d_refused s b o c n lg : meet_step (mkDW s (RSubmit b) o c n lg) (mkDW (submitRefused s) RIdle o c n lg)
  | d_accepted s b c n lg : meet_step (mkDW s (RSubmit b) ONone c n lg) (mkDW s (RWait b) (OQueued b) c n lg)
  | d_begin s r b c n lg s' : ownerBegin b s = (true, s') ->
      meet_step (mkDW s r (OQueued b) c n lg) (mkDW s' r (OExec b) c n (DBegin b :: lg))
  | d_late s r b c n lg s' : ownerBegin b s = (false, s') ->
      meet_step (mkDW s r (OQueued b) c n lg) (mkDW s' r (OEnd b true) c n lg)
  | d_drop s r b c n lg : meet_step (mkDW s r (OQueued b) c n lg) (mkDW s r (OEnd b false) c n lg)
  | d_ask s r b c n lg t s' : renderThread s <> Some t -> invokeJob t n s = (true, s') ->
      meet_step (mkDW s r (OExec b) c n lg) (mkDW s' r (OWait b n) c (S n) (DAsk b n :: lg))
  | d_answer s r b j c n lg v : jobWoken j s = Some v ->
      meet_step (mkDW s r (OWait b j) c n lg) (mkDW s r (OExec b) c n (DAnswer j v :: lg))
  | d_end s r b c n lg v :
      meet_step (mkDW s r (OExec b) c n lg) (mkDW (endOwnerWork b s) r (OEnd b v) c n (DEnd b v :: lg))
  | d_complete s r b v c n lg : meet_step (mkDW s r (OEnd b v) c n lg) (mkDW (completion b v s) r ONone c n lg)
  | d_take s b j o c n lg s' : renderWake b s = Some (TakeJob j, s') ->
      meet_step (mkDW s (RWait b) o c n lg) (mkDW s' (RJob b j) o c n (DRun j :: lg))
  | d_ran s b j o c n lg v :
      meet_step (mkDW s (RJob b j) o c n lg) (mkDW (jobDone j v s) (RWait b) o c n (DRan j v :: lg))
  | d_retire s b o c n lg v s' : renderWake b s = Some (Retire v, s') ->
      meet_step (mkDW s (RWait b) o c n lg) (mkDW s' RIdle o c n (DRetire b v :: lg))
  | d_close s r o c n lg x s' : close s = (x, s') ->
      meet_step (mkDW s r o c n lg) (mkDW s' r o (match x with Some j => j :: c | None => c end) n lg)
  | d_cancel s r o c1 j c2 n lg :
      meet_step (mkDW s r o (c1 ++ j :: c2) n lg) (mkDW (closeCancelled j s) r o (c1 ++ c2) n (DCancel j :: lg)).

#[local] Arguments getB : simpl never.
#[local] Arguments getJ : simpl never.

(** ** What holds at every moment *)
Definition aboutBoundary (b : nat) (o : OPhase) : Prop :=
  match o with ONone => False | OQueued c | OExec c | OWait c _ | OEnd c _ => c = b end.
Definition executing (o : OPhase) : option nat := match o with OExec b | OWait b _ => Some b | _ => None end.
Record Met (w : DW) : Prop := {
  mt_place : match rp w with
    | RIdle => boundary (st w) = None /\ op w = ONone
    | RSubmit b => boundary (st w) = Some b /\ op w = ONone /\ b_done (getB b (st w)) = false
    | RWait b | RJob b _ => boundary (st w) = Some b /\
        (aboutBoundary b (op w) /\ b_done (getB b (st w)) = false \/ op w = ONone /\ b_done (getB b (st w)) = true)
    end;
  mt_exec : forall b, ownerExecuting (getB b (st w)) = true <-> executing (op w) = Some b;
  (** The job in [graphics] is what the owner waits for; the render thread may be running it. *)
  mt_job : forall j, graphics (st w) = Some j ->
    exists b, op w = OWait b j /\ (rp w = RWait b /\ j_running (getJ j (st w)) = false \/ rp w = RJob b j /\ j_running (getJ j (st w)) = true);
  mt_running : forall b j, rp w = RJob b j -> graphics (st w) = Some j;
  mt_waits : forall b j, op w = OWait b j -> graphics (st w) = Some j \/ j_done (getJ j (st w)) = true \/ j ∈ closers w;
  mt_closers : forall j, j ∈ closers w -> graphics (st w) = None /\ (exists b, op w = OWait b j) /\
    j_running (getJ j (st w)) = false /\ j_done (getJ j (st w)) = false;
  mt_one_closer : (length (closers w) <= 1)%nat;
  mt_open : forall j, graphics (st w) = Some j -> j_done (getJ j (st w)) = false }.
(** What the log says of the jobs is what the jobs record. *)
Record JobsTold (g : nat -> GraphicsJob) (lg : list DEv) : Prop := {
  jt_run : forall j, DRun j ∈ lg <-> j_running (g j) = true;
  jt_ran : forall j v, DRan j v ∈ lg <-> j_running (g j) = true /\ j_done (g j) = true /\ j_success (g j) = v;
  jt_cancel : forall j, DCancel j ∈ lg <-> j_running (g j) = false /\ j_done (g j) = true;
  jt_refused : forall j, DCancel j ∈ lg -> j_success (g j) = false;
  jt_answer : forall j v, DAnswer j v ∈ lg -> j_done (g j) = true /\ j_success (g j) = v }.
(** A boundary that succeeded ran to its end; one that was retired is gone. *)
Record BoundariesTold (g : nat -> Boundary) (cur : option nat) (o : OPhase) (n : nat) (lg : list DEv) : Prop := {
  bt_end : forall b, o = OEnd b true -> DEnd b true ∈ lg \/ cancelled (g b) = true;
  bt_success : forall b, b_success (g b) = true -> DEnd b true ∈ lg;
  bt_retire : forall b v, DRetire b v ∈ lg -> (v = true -> DEnd b true ∈ lg) /\ (b < n)%nat /\
    cur <> Some b /\ ~ aboutBoundary b o }.
Record Told (w : DW) : Prop := {
  td_new : forall x, (fresh_ w <= x)%nat -> heapB (st w) !! x = None /\ heapJ (st w) !! x = None;
  td_boundary : forall b, boundary (st w) = Some b -> (b < fresh_ w)%nat;
  td_job : forall b j, op w = OWait b j -> (j < fresh_ w)%nat;
  td_jobs : JobsTold (fun j => getJ j (st w)) (dlog w);
  td_boundaries : BoundariesTold (fun b => getB b (st w)) (boundary (st w)) (op w) (fresh_ w) (dlog w) }.

Lemma getJ_set j k f s : getJ j (setJ k f s) = if decide (j = k) then f (getJ k s) else getJ j s.
Proof. unfold getJ at 1, setJ. cbn. case_decide; subst; [by rewrite lookup_insert_eq | by rewrite lookup_insert_ne]. Qed.
Lemma getB_set b c f s : getB b (setB c f s) = if decide (b = c) then f (getB c s) else getB b s.
Proof. unfold getB at 1, setB. cbn. case_decide; subst; [by rewrite lookup_insert_eq | by rewrite lookup_insert_ne]. Qed.
(** Assigning to a boundary or a job leaves everything else alone. *)
Lemma other_setJ j f s : renderThread (setJ j f s) = renderThread s /\ closed (setJ j f s) = closed s /\
  boundary (setJ j f s) = boundary s /\ graphics (setJ j f s) = graphics s /\ heapB (setJ j f s) = heapB s.
Proof. done. Qed.
Lemma other_setB b f s : renderThread (setB b f s) = renderThread s /\ closed (setB b f s) = closed s /\
  boundary (setB b f s) = boundary s /\ graphics (setB b f s) = graphics s /\ heapJ (setB b f s) = heapJ s.
Proof. done. Qed.
Lemma getB_other b s s' : heapB s' = heapB s -> getB b s' = getB b s.
Proof. unfold getB. by intros ->. Qed.
Lemma getJ_other j s s' : heapJ s' = heapJ s -> getJ j s' = getJ j s.
Proof. unfold getJ. by intros ->. Qed.
Lemma getJ_new j n s : heapJ s !! n = None -> getJ j (setJ n (fun _ => job0) s) = getJ j s.
Proof. intros H. rewrite getJ_set. case_decide; [subst; unfold getJ; by rewrite H | done]. Qed.
Lemma getB_new b n s : heapB s !! n = None -> getB b (setB n (fun _ => boundary0) s) = getB b s.
Proof. intros H. rewrite getB_set. case_decide; [subst; unfold getB; by rewrite H | done]. Qed.
Lemma met0 : Met dw0 /\ Told dw0.
Proof.
  split; split; cbn; try done; try split; cbn; intros; try (by apply not_elem_of_nil in H); try (unfold getJ, getB; cbn); try done.
  all: try (split; [intros H; by apply not_elem_of_nil in H | done || intros [? ?]; done]); try lia.
Qed.
(** Read through an assignment. *)
Ltac reads :=
  repeat match goal with
  | |- context [getB ?b (setJ ?j ?f ?s)] => rewrite (getB_other b s (setJ j f s) eq_refl)
  | |- context [getJ ?j (setB ?b ?f ?s)] => rewrite (getJ_other j s (setB b f s) eq_refl)
  | |- context [getJ ?j (setJ ?k ?f ?s)] => rewrite (getJ_set j k f s)
  | |- context [getB ?j (setB ?k ?f ?s)] => rewrite (getB_set j k f s)
  | |- context [getB ?b ?x] => lazymatch x with @over _ _ _ _ _ ?s => rewrite (getB_other b s x eq_refl) end
  | |- context [getJ ?b ?x] => lazymatch x with @over _ _ _ _ _ ?s => rewrite (getJ_other b s x eq_refl) end
  end.
(** What the invariant says of the job, of the waiting owner, of a close under way. *)
Ltac meet_use :=
  match goal with
  | H3 : forall j, graphics _ = Some j -> exists _, _, H : graphics _ = Some ?j |- _ =>
      destruct (H3 j H) as (? & ? & [[? ?]|[? ?]]); clear H3
  | H6 : forall j, _ ∈ _ -> graphics _ = None /\ _, H : ?j ∈ _ |- _ =>
      destruct (H6 j H) as (? & (? & ?) & ? & ?); clear H6
  end.
Ltac meet :=
  unfold endOwnerWork, completion, jobDone, submitRefused, closeCancelled in *; split; cbn [st rp op closers]; intros; reads; repeat case_decide; subst; cbn in *;
  try done; try congruence;
  try solve [match goal with H : _ |- _ => by apply H | H : _ |- _ => by eapply H end];
  try solve [match goal with H2 : forall b, ownerExecuting _ = true <-> _ |- _ => rewrite H2; intuition congruence end];
  try solve [repeat meet_use; simplify_eq/=; eauto 6];
  try solve [exfalso; repeat match goal with H8 : forall j, graphics _ = Some j -> j_done _ = false, H : graphics _ = Some ?j |- _ =>
      pose proof (H8 j H); clear H8 end; repeat meet_use; simplify_eq/=; congruence].
Lemma closing_same s : boundary (closing s) = boundary s /\ graphics (closing s) = graphics s /\
  (forall j, getJ j (closing s) = getJ j s) /\ heapJ (closing s) = heapJ s /\
  (forall b, ownerExecuting (getB b (closing s)) = ownerExecuting (getB b s) /\ b_done (getB b (closing s)) = b_done (getB b s) /\
     b_success (getB b (closing s)) = b_success (getB b s) /\
     (cancelled (getB b s) = true -> cancelled (getB b (closing s)) = true)).
Proof.
  unfold closing. destruct (boundary s) as [b0|] eqn:E; cbn; rewrite E; split_and!; try done; intros b; reads; case_decide; by subst.
Qed.
Lemma met_closing s r o c n lg lg' : Met (mkDW s r o c n lg) -> Met (mkDW (closing s) r o c n lg').
Proof.
  intros [H1 H2 H3 H4 H5 H6 H7 H8]. destruct (closing_same s) as (Eb & Eg & Ej & _ & Ex). cbn in *.
  split; cbn; rewrite ?Eb, ?Eg; try done.
  - destruct r as [|b|b|b ?]; try done; destruct (Ex b) as (_ & -> & _); done.
  - intros b. destruct (Ex b) as (-> & _). apply H2.
  - intros j. rewrite Ej. apply H3.
  - intros b j. rewrite Ej. apply H5.
  - intros j. rewrite Ej. apply H6.
  - intros j. rewrite Ej. apply H8.
Qed.
(** Where the render thread is while the owner has its boundary. *)
Ltac at_render r H1 :=
  destruct r as [|?|?|? ?]; cbn [aboutBoundary] in H1; destruct_and?; destruct_or?; destruct_and?; simplify_eq; try done.
Lemma met_step w w' : meet_step w w' -> Told w -> Met w -> Met w'.
Proof.
  intros Hs HT. destruct Hs as
    [s r o c n lg t s' E | s o c n lg t s' E | s b o c n lg | s b c n lg | s r b c n lg s' E | s r b c n lg s' E | s r b c n lg
    | s r b c n lg t s' Ht E | s r b j c n lg v E | s r b c n lg v | s r b v c n lg | s b j o c n lg s' E | s b j o c n lg v
    | s b o c n lg v s' E | s r o c n lg x s' E | s r o c1 j c2 n lg];
  intros [H1 H2 H3 H4 H5 H6 H7 H8]; cbn [st rp op closers] in *.
  - unfold bindCurrentThread in E. repeat case_match; simplify_eq; by split.
  - unfold invokeOwnerEnter in E. repeat case_match; simplify_eq. destruct H1 as [Hb ->].
    destruct (td_new _ HT n (le_n _)) as [Hn _]. cbn in Hn.
    meet.
  - destruct H1 as (Hb & -> & Hd). meet.
  - destruct H1 as (Hb & _ & Hd). meet.
  - unfold ownerBegin in E. destruct (closed s) eqn:Ec; simplify_eq. at_render r H1; meet.
  - unfold ownerBegin in E. destruct (closed s) eqn:Ec; simplify_eq. at_render r H1; meet.
  - at_render r H1; meet.
  - unfold invokeJob in E. destruct (boundary s) as [b0|] eqn:Eb; [|done].
    destruct (closed s || _ || _ || _) eqn:Ec; simplify_eq. bool_solve.
    destruct (td_new _ HT n (le_n _)) as [_ Hn]. cbn in Hn.
    assert (getJ n s = job0) as Hj by (unfold getJ; by rewrite Hn).
    at_render r H1; meet; by exfalso; match goal with G : ~ is_Some _ |- _ => apply G; rewrite (H4 _ _ eq_refl); eauto end.
  - unfold jobWoken in E. destruct (j_done (getJ j s)) eqn:Ed; simplify_eq. at_render r H1; meet.
  - at_render r H1; meet.
  - at_render r H1; meet.
  - unfold renderWake in E. destruct (graphics s) as [j'|] eqn:Eg; [|by repeat case_match]. simplify_eq.
    destruct (H3 _ eq_refl) as (b' & -> & [[? Hr]|[? _]]); simplify_eq. meet.
    all: match goal with G : _ ∈ _ |- _ => by destruct (H6 _ G) end.
  - pose proof (H4 _ _ eq_refl) as Eg. destruct (H3 _ Eg) as (b' & -> & [[? Hr]|[? Hr]]); simplify_eq. meet.
  - unfold renderWake in E. destruct (graphics s) as [j'|] eqn:Eg; [done|]. destruct (b_done (getB b s)) eqn:Ed; [|done].
    simplify_eq. destruct H1 as [Hb [[_ ?]|[-> _]]]; [done|]. meet.
    match goal with G : _ ∈ _ |- _ => by destruct (H6 _ G) as (_ & [? ?] & _) end.
  - assert (Met (mkDW (closing s) r o c n lg)) as HM by (apply (met_closing _ _ _ _ _ lg); by split).
    unfold close in E. destruct (graphics (closing s)) as [j|] eqn:Eg; simplify_eq; [|done].
    destruct (j_running (getJ j (closing s))) eqn:Er; simplify_eq; [done|].
    clear H1 H2 H3 H4 H5 H6 H7 H8. destruct HM as [H1 H2 H3 H4 H5 H6 H7 H8]. cbn in *. revert H1 H2 H3 H4 H5 H6 H7 H8 Eg Er.
    generalize (closing s) as z. intros. destruct (H3 _ Eg) as (b & -> & [[-> _]|[_ ?]]); [|congruence].
    assert (c = []) as -> by (destruct c as [|k c']; [done|]; destruct (H6 k (list_elem_of_here _ _)) as [? _]; congruence).
    meet; simplify_eq; [right; right; by left|].
    match goal with G : _ ∈ [_] |- _ => apply list_elem_of_singleton in G as -> end. eauto 6.
  - assert (j ∈ c1 ++ j :: c2) as Hj by (apply elem_of_app; right; by left).
    destruct (H6 j Hj) as (Hg & [b ->] & Hr & Hd). rewrite length_app in H7.
    destruct c1, c2; cbn in H7; try lia. meet.
    all: match goal with G : _ ∈ [] |- _ => by apply not_elem_of_nil in G end.
Qed.

(** An owner in a boundary is in the current one. *)
Lemma met_about w b : Met w -> aboutBoundary b (op w) -> boundary (st w) = Some b.
Proof.
  intros H Hb. pose proof (mt_place _ H) as Hp. destruct (op w), (rp w); cbn in *; destruct_and?; destruct_or?; destruct_and?;
    simplify_eq; done.
Qed.
(** The events about jobs. *)
Definition jobEvent (e : DEv) : bool := match e with DRun _ | DRan _ _ | DCancel _ | DAnswer _ _ => true | _ => false end.
Lemma jobs_same g g' lg lg' : JobsTold g lg -> (forall j, g' j = g j) ->
  (forall e, jobEvent e = true -> (e ∈ lg' <-> e ∈ lg)) -> JobsTold g' lg'.
Proof.
  intros [J1 J2 J3 J4 J5] Hg He.
  split; intros *; rewrite Hg, He by done; [apply J1 | apply J2 | apply J3 | apply J4 | apply J5].
Qed.
Lemma in_cons_ne (e x : DEv) lg : e <> x -> (e ∈ x :: lg <-> e ∈ lg).
Proof. intros H. rewrite elem_of_cons. tauto. Qed.
(** One job changed, one event about it was added. *)
Ltac job_told :=
  let J1 := fresh in let J2 := fresh in let J3 := fresh in let J4 := fresh in let J5 := fresh in let k := fresh "k" in
  intros [J1 J2 J3 J4 J5]; split; intros k *; rewrite elem_of_cons; case_decide as Hk; try subst k; cbn;
  match goal with
  | |- context [DAnswer ?k ?v] => pose proof (J5 k v)
  | |- context [DCancel ?k = _] => pose proof (J4 k)
  | _ => idtac
  end; rewrite ?J1, ?J2, ?J3 in *; intuition congruence.
Lemma jobs_take g j lg : j_done (g j) = false -> j_running (g j) = false -> JobsTold g lg ->
  JobsTold (fun k => if decide (k = j) then (g j) <| j_running := true |> else g k) (DRun j :: lg).
Proof. intros Hd Hr. job_told. Qed.
Lemma jobs_ran g j v lg : j_done (g j) = false -> j_running (g j) = true -> JobsTold g lg ->
  JobsTold (fun k => if decide (k = j) then (g j) <| j_success := v |> <| j_done := true |> else g k) (DRan j v :: lg).
Proof. intros Hd Hr. job_told. Qed.
Lemma jobs_cancel g j lg : j_done (g j) = false -> j_running (g j) = false -> JobsTold g lg ->
  JobsTold (fun k => if decide (k = j) then (g j) <| j_success := false |> <| j_done := true |> else g k) (DCancel j :: lg).
Proof. intros Hd Hr. job_told. Qed.
Lemma jobs_answer g j v lg : j_done (g j) = true -> j_success (g j) = v -> JobsTold g lg -> JobsTold g (DAnswer j v :: lg).
Proof.
  intros Hd Hv [J1 J2 J3 J4 J5]. split; intros k *; rewrite ?(in_cons_ne _ (DAnswer j v)) by done; auto.
  rewrite elem_of_cons. intros [?|?]; [by simplify_eq | auto].
Qed.
(** Boundaries change little: a callback that ends says so, one that is called off is marked. *)
Lemma boundaries_same g g' cur cur' o o' n n' lg lg' : BoundariesTold g cur o n lg -> (n <= n')%nat ->
  (forall b, b_success (g' b) = b_success (g b) /\ (cancelled (g b) = true -> cancelled (g' b) = true)) ->
  (forall b v, (DEnd b v ∈ lg -> DEnd b v ∈ lg') /\ (DRetire b v ∈ lg' -> DRetire b v ∈ lg)) ->
  (forall b, o' = OEnd b true -> o = OEnd b true \/ DEnd b true ∈ lg' \/ cancelled (g' b) = true) ->
  (forall b, cur' = Some b -> cur = Some b \/ (n <= b)%nat) ->
  (forall b, aboutBoundary b o' -> aboutBoundary b o \/ cur = Some b) -> BoundariesTold g' cur' o' n' lg'.
Proof.
  intros [B1 B2 B3] Hn Hg Hl Ho Hc Ha. split.
  - intros b Hb. destruct (Ho b Hb) as [H|[H|H]]; [|by left|by right].
    destruct (B1 b H); [left; by apply Hl | right; by apply Hg].
  - intros b. rewrite (proj1 (Hg b)). intros H. by apply Hl, B2.
  - intros b v H. apply Hl, B3 in H as (H1 & H2 & H3 & H4). split_and!; [|lia| |by intros [?|?]%Ha].
    + intros ?. by apply Hl, H1.
    + intros [?|?]%Hc; [done|lia].
Qed.
(** Addresses not given out yet stay unused. *)
Ltac fresh_at :=
  let x := fresh "x" in let Hx := fresh "Hx" in
  intros x Hx; match goal with T0 : forall x, (_ <= x)%nat -> _ |- _ => destruct (T0 x ltac:(lia)) end;
  split; cbn; try done; (rewrite lookup_insert_ne; [done | lia]).
Ltac jobs_still TJ :=
  apply (jobs_same _ _ _ _ TJ); [intros ?; reads; done | intros ? ?; try done; (rewrite in_cons_ne; [done | by intros ->])].
(** The step said nothing of the boundaries that matters. *)
Ltac boundaries_still TB :=
  eapply (boundaries_same _ _ _ _ _ _ _ _ _ _ TB); [lia | intros ?; cbn beta; rewrite ?getB_new by done; reads; repeat case_decide; subst; auto | intros ? ?; rewrite ?elem_of_cons; intuition congruence | | | ]; cbn; intros ? ?; simplify_eq; auto.
Lemma told_step w w' : meet_step w w' -> Met w -> Told w -> Told w'.
Proof.
  intros Hs HM. destruct Hs as
    [s r o c n lg t s' E | s o c n lg t s' E | s b o c n lg | s b c n lg | s r b c n lg s' E | s r b c n lg s' E | s r b c n lg
    | s r b c n lg t s' Ht E | s r b j c n lg v E | s r b c n lg v | s r b v c n lg | s b j o c n lg s' E | s b j o c n lg v
    | s b o c n lg v s' E | s r o c n lg x s' E | s r o c1 j c2 n lg];
  intros [T0 T1 T2 TJ TB]; cbn [st rp op closers dlog fresh_] in *.
  - unfold bindCurrentThread in E. repeat case_match; simplify_eq; by split.
  - unfold invokeOwnerEnter in E. repeat case_match; simplify_eq.
    destruct (T0 n (le_n _)) as [Hn _]. split; cbn [st rp op closers dlog fresh_].
    + fresh_at.
    + intros b Hb. cbn in Hb. simplify_eq. lia.
    + intros b j Hj. specialize (T2 b j Hj). lia.
    + jobs_still TJ.
    + destruct (mt_place _ HM) as [Hcur Ho]; cbn in Hcur, Ho; subst o. boundaries_still TB.
  - split; cbn [st rp op closers dlog fresh_]; try done. boundaries_still TB.
  - pose proof (mt_place _ HM) as Hcur; cbn in Hcur. destruct Hcur as (Hcur & _).
    split; cbn [st rp op closers dlog fresh_]; try done. boundaries_still TB.
  - unfold ownerBegin in E. destruct (closed s) eqn:Ec; simplify_eq. pose proof (met_about _ b HM eq_refl) as Hb. cbn in Hb.
    specialize (T1 _ Hb) as Hn. split; cbn [st rp op closers dlog fresh_]; try solve [done | fresh_at | jobs_still TJ]; boundaries_still TB.
  - unfold ownerBegin in E. destruct (closed s) eqn:Ec; simplify_eq. pose proof (met_about _ b HM eq_refl) as Hb. cbn in Hb.
    specialize (T1 _ Hb) as Hn. split; cbn [st rp op closers dlog fresh_]; try solve [done | fresh_at | jobs_still TJ]; boundaries_still TB.
    right; right. reads. by rewrite decide_True.
  - split; cbn [st rp op closers dlog fresh_]; try done. boundaries_still TB.
  - unfold invokeJob in E. destruct (boundary s) as [b1|] eqn:Eb; [|done]. repeat case_match; simplify_eq.
    destruct (T0 n (le_n _)) as [_ Hn]. split; cbn [st rp op closers dlog fresh_]; [fresh_at | | | | boundaries_still TB].
    + cbn. rewrite Eb. intros b0 Hb. specialize (T1 b0 Hb). lia.
    + intros b0 j Hj. simplify_eq. lia.
    + apply (jobs_same _ _ _ _ TJ); [intros ?; rewrite getJ_new by done; by reads | intros ? ?; rewrite in_cons_ne; [done | by intros ->]].
  - unfold jobWoken in E. destruct (j_done (getJ j s)) eqn:Ed; simplify_eq.
    split; cbn [st rp op closers dlog fresh_]; try done; [by apply jobs_answer | boundaries_still TB].
  - pose proof (met_about _ b HM eq_refl) as Hb. cbn in Hb. specialize (T1 _ Hb) as Hn. unfold endOwnerWork.
    split; cbn [st rp op closers dlog fresh_]; try solve [done | fresh_at | jobs_still TJ]; boundaries_still TB.
    right; left. by left.
  - pose proof (met_about _ b HM eq_refl) as Hb. cbn in Hb. specialize (T1 _ Hb) as Hn. unfold completion.
    split; cbn [st rp op closers dlog fresh_]; try solve [done | fresh_at | jobs_still TJ].
    destruct TB as [B1 B2 B3]. split; [done | | intros b' v' H; destruct (B3 _ _ H) as (? & ? & ? & ?); split_and!; auto].
    intros b'. reads. case_decide; subst; [|apply B2]. cbn. intros (-> & ?%negb_true_iff)%andb_true_iff.
    destruct (B1 b eq_refl); congruence.
  - unfold renderWake in E. destruct (graphics s) as [j'|] eqn:Eg; [|by repeat case_match]. simplify_eq.
    destruct (mt_job _ HM _ Eg) as (b' & Ho & [[_ Hr]|[? _]]); [|done]. pose proof (mt_open _ HM _ Eg) as Hd. cbn in *.
    specialize (T2 _ _ Ho) as Hn. split; cbn [st rp op closers dlog fresh_]; try done; [fresh_at | | boundaries_still TB].
    eapply jobs_same; [apply (jobs_take _ j lg Hd Hr TJ) | intros ?; by reads | done].
  - pose proof (mt_running _ HM _ _ eq_refl) as Eg. destruct (mt_job _ HM _ Eg) as (b' & Ho & [[? _]|[_ Hr]]); [done|].
    pose proof (mt_open _ HM _ Eg) as Hd. cbn in *. specialize (T2 _ _ Ho) as Hn. unfold jobDone.
    split; cbn [st rp op closers dlog fresh_]; try done; [fresh_at | | boundaries_still TB].
    eapply jobs_same; [apply (jobs_ran _ j v lg Hd Hr TJ) | intros ?; by reads | done].
  - unfold renderWake in E. destruct (graphics s) as [j'|] eqn:Eg; [done|]. destruct (b_done (getB b s)) eqn:Ed; [|done].
    simplify_eq. destruct (mt_place _ HM) as [Hb Ho]; cbn in Hb, Ho. destruct Ho as [[_ ?]|[-> _]]; [congruence|].
    specialize (T1 _ Hb) as Hn. split; cbn [st rp op closers dlog fresh_]; try solve [done | jobs_still TJ].
    destruct TB as [B1 B2 B3]. split; [done | intros ? ?; right; by apply B2 |].
    intros b' v'. rewrite elem_of_cons. intros [?|H].
    + simplify_eq. split_and!; auto. intros ?. right. by apply B2.
    + destruct (B3 _ _ H) as (? & ? & ? & ?). split_and!; auto. intros ?. right; auto.
  - destruct (closing_same s) as (Eb & _ & Ej & Eh & Ex).
    assert (exists g', s' = (closing s) <| graphics := g' |>) as [g' ->].
    { exists (graphics s'). unfold close in E. revert E. destruct (closing s). repeat case_match; intros E; by simplify_eq/=. }
    split; cbn [st rp op closers dlog fresh_].
    + intros y Hy. destruct (T0 y Hy) as [? ?]. cbn. rewrite Eh. split; [|done].
      unfold closing. destruct (boundary s) as [b0|] eqn:Eb0; cbn; rewrite Eb0; [|done].
      specialize (T1 _ eq_refl). cbn. rewrite lookup_insert_ne; [done|lia].
    + cbn. rewrite Eb. apply T1.
    + apply T2.
    + apply (jobs_same _ _ _ _ TJ); [intros ?; reads; apply Ej | done].
    + apply (boundaries_same _ _ _ _ _ _ _ _ _ _ TB); try done; try (by left); cbn; [|rewrite Eb; by left].
      intros b. reads. by destruct (Ex b) as (_ & _ & ? & ?).
  - assert (j ∈ c1 ++ j :: c2) as Hj by (apply elem_of_app; right; by left).
    destruct (mt_closers _ HM j Hj) as (Hg & [b Ho] & Hr & Hd). cbn in *. specialize (T2 _ _ Ho) as Hn. unfold closeCancelled.
    split; cbn [st rp op closers dlog fresh_]; try done; [fresh_at | | boundaries_still TB].
    eapply jobs_same; [apply (jobs_cancel _ j lg Hd Hr TJ) | intros ?; by reads | done].
Qed.

(** ** What holds in every run *)
(** How many times the render thread started a job. *)
Fixpoint runs (j : nat) (lg : list DEv) : nat :=
  match lg with [] => 0 | DRun k :: t => (if Nat.eqb k j then 1 else 0) + runs j t | _ :: t => runs j t end.
Lemma runs_in j lg : DRun j ∉ lg -> runs j lg = 0%nat.
Proof.
  induction lg as [|[] lg IH]; cbn; rewrite ?not_elem_of_cons; intros H; try tauto.
  destruct H as [H1 H2]. rewrite (proj2 (Nat.eqb_neq _ _)) by congruence. by apply IH.
Qed.
Record Rendez (w : DW) : Prop := { rz_met : Met w; rz_told : Told w; rz_once : forall j, (runs j (dlog w) <= 1)%nat }.
Lemma rendez_step w w' : meet_step w w' -> Rendez w -> Rendez w'.
Proof.
  intros Hs [HM HT HO]. split; [by eapply met_step | by eapply told_step|].
  intros i. specialize (HO i). destruct Hs; cbn in *; try done.
  destruct (Nat.eqb_spec j i) as [->|]; [|cbn; lia]. rewrite (runs_in i); [lia|].
  unfold renderWake in *. destruct (graphics s) as [k|] eqn:Eg; [|by repeat case_match]. simplify_eq. intros Hin. apply (jt_run _ _ (td_jobs _ HT)) in Hin. cbn in *.
  destruct (mt_job _ HM i Eg) as (? & ? & [[_ ?]|[? _]]); cbn in *; congruence.
Qed.
Lemma rendezvous_reachable w : rtc meet_step dw0 w -> Rendez w.
Proof.
  intros Hr. eapply rtc_invariant; [|exact Hr|split; [apply met0 | apply met0 | intros j; cbn; lia]].
  intros x y. apply rendez_step.
Qed.

(** C22. No wait of the rendezvous is lost: an owner that waits for graphics work
    has its job in front of the render thread, or running there, or in the hands
    of a close, or already decided; and the render thread finds its boundary
    finished as soon as the owner is through with it. *)
Theorem rendezvous_progress w (Hr : rtc meet_step dw0 w) :
  (forall b j, op w = OWait b j ->
    (rp w = RWait b /\ exists s', renderWake b (st w) = Some (TakeJob j, s')) \/ rp w = RJob b j \/
    j ∈ closers w \/ is_Some (jobWoken j (st w))) /\
  (forall b, rp w = RWait b -> op w = ONone -> exists v s', renderWake b (st w) = Some (Retire v, s')) /\
  (rp w = RIdle -> op w = ONone /\ boundary (st w) = None /\ graphics (st w) = None /\ destructorRefuses (st w) = false).
Proof.
  destruct (rendezvous_reachable w Hr) as [HM _ _]. split_and!.
  - intros b j Ho. destruct (mt_waits _ HM _ _ Ho) as [Hg|[Hd|Hc]].
    + destruct (mt_job _ HM _ Hg) as (b' & Ho' & [[? _]|[? _]]); assert (b' = b) as -> by congruence; [left|by right; left].
      split; [done|]. unfold renderWake. rewrite Hg. eauto.
    + do 3 right. unfold jobWoken. rewrite Hd. eauto.
    + by do 2 right; left.
  - intros b Hb Ho. pose proof (mt_place _ HM) as Hp. rewrite Hb, Ho in Hp. destruct Hp as [_ [[[] _]|[_ Hd]]].
    unfold renderWake. destruct (graphics (st w)) as [j|] eqn:Eg; [|rewrite Hd; eauto].
    destruct (mt_job _ HM _ Eg) as (b' & ? & _). congruence.
  - intros Hi. pose proof (mt_place _ HM) as Hp. rewrite Hi in Hp. destruct Hp as [Hb Ho].
    assert (graphics (st w) = None) as Hg.
    { destruct (graphics (st w)) as [j|] eqn:Eg; [|done]. destruct (mt_job _ HM _ Eg) as (b' & ? & _). congruence. }
    split_and!; try done. unfold destructorRefuses. by rewrite Hb, Hg.
Qed.

(** ** A run: bind, a boundary, one graphics job inside it, the answer, the end *)
Definition meet_asked : DW :=
  mkDW (mkState (Some 7%nat) false (Some 0%nat) (Some 1%nat) {[0%nat := mkBoundary true false false false]} {[1%nat := job0]})
    (RWait 0) (OWait 0 1) [] 2 [DAsk 0 1; DBegin 0].
Definition meet_left : DW :=
  mkDW (mkState (Some 7%nat) false None None {[0%nat := mkBoundary false true true false]} {[1%nat := mkJob true true true]})
    RIdle ONone [] 2 [DRetire 0 true; DEnd 0 true; DAnswer 1 true; DRan 1 true; DRun 1; DAsk 0 1; DBegin 0].
(** One step of the demo, its state computed. *)
Ltac meets step :=
  eapply rtc_l; [step | match goal with |- rtc _ ?x _ =>
    let y := eval vm_compute in x in replace x with y by (vm_compute; reflexivity) end].
Lemma meet_asked_reachable : rtc meet_step dw0 meet_asked.
Proof.
  meets ltac:(eapply (d_bind _ _ _ _ _ _ 7%nat); cbv; reflexivity).
  meets ltac:(eapply (d_enter _ _ _ _ _ 7%nat); cbv; reflexivity).
  meets ltac:(eapply d_accepted).
  meets ltac:(eapply d_begin; cbv; reflexivity).
  meets ltac:(eapply (d_ask _ _ _ _ _ _ 8%nat); [cbv; congruence | cbv; reflexivity]).
  apply rtc_refl.
Qed.
Lemma meet_left_reachable : rtc meet_step dw0 meet_left.
Proof.
  transitivity meet_asked; [exact meet_asked_reachable|].
  meets ltac:(eapply d_take; cbv; reflexivity).
  meets ltac:(eapply d_ran with (v := true)).
  meets ltac:(eapply d_answer with (v := true); cbv; reflexivity).
  meets ltac:(eapply d_end with (v := true)).
  meets ltac:(eapply d_complete).
  meets ltac:(eapply (d_retire _ _ _ _ _ _ true); cbv; reflexivity).
  apply rtc_refl.
Qed.
Lemma rendezvous_progress_witness :
  rtc meet_step dw0 meet_asked /\ exists s', renderWake 0 (st meet_asked) = Some (TakeJob 1, s').
Proof.
  split; [exact meet_asked_reachable|]. destruct (rendezvous_progress meet_asked meet_asked_reachable) as (H & _).
  destruct (H 0%nat 1%nat eq_refl) as [[_ G]|[G|[G|[x G]]]]; [exact G | cbv in G; congruence | | vm_compute in G; discriminate G].
  by apply not_elem_of_nil in G.
Defined.
