(* ===== verification/Rounding.v ===== *)
(** Bounds on binary32 rounding, over the Standard Library's [spec_float]: what an
    operation may add to the exact result, and what a conversion to an integer
    yields.  Magnitudes are integers, scaled by 2^200: the smallest float is
    2^-149. *)
From S2P Require Import Prelude.
From Stdlib Require Import Floats.SpecFloat.
Open Scope Z_scope.

Definition mag (m e : Z) : Z := m * 2 ^ (e + 200).
(** A finite float, not negative, of exponent at least [lo] and magnitude at most [B]. *)
Definition atMost (lo B : Z) (f : float) : Prop :=
  match f with S754_zero _ => True | S754_finite s m e => s = false /\ lo <= e /\ mag (Zpos m) e <= B | _ => False end.
(** A value of the float type. *)
Definition is_float (f : float) : Prop := valid_binary 24 128 f = true.

(** ** Shifts *)
Lemma digits_low m : 2 ^ (Zpos (digits2_pos m) - 1) <= Zpos m.
Proof.
  induction m as [m IH|m IH|]; cbn [digits2_pos]; [..|done]; rewrite Pos2Z.inj_succ;
    replace (Z.succ (Zpos (digits2_pos m)) - 1) with (Z.succ (Zpos (digits2_pos m) - 1)) by lia;
    rewrite Z.pow_succ_r by lia; lia.
Qed.
Lemma digits_high m : Zpos m < 2 ^ Zpos (digits2_pos m).
Proof.
  induction m as [m IH|m IH|]; cbn [digits2_pos]; [..|done]; rewrite Pos2Z.inj_succ, Z.pow_succ_r by lia; lia.
Qed.
Lemma shr_1_half r : 0 <= shr_m r -> shr_m (shr_1 r) = shr_m r / 2.
Proof.
  destruct r as [m b c]. cbn. intros. destruct m as [|[p|p|]|p]; cbn; try done; try lia.
  - rewrite Pos2Z.inj_xI. apply (Z.div_unique _ _ _ 1); lia.
  - rewrite Pos2Z.inj_xO. apply (Z.div_unique _ _ _ 0); lia.
Qed.
Lemma shr_iter n : forall r, 0 <= shr_m r -> shr_m (iter_pos shr_1 n r) = shr_m r / 2 ^ Zpos n.
Proof.
  induction n as [n IH|n IH|]; intros r Hr; cbn [iter_pos].
  - pose proof (shr_1_half r Hr) as H1. assert (0 <= shr_m (shr_1 r)) as Hp by (rewrite H1; apply Z.div_pos; lia).
    rewrite IH by (rewrite IH by done; apply Z.div_pos; lia). rewrite IH, H1 by done.
    rewrite !Z.div_div by lia. rewrite Pos2Z.inj_xI.
    rewrite <-(Z.add_diag (Zpos n)), !Z.pow_add_r by lia. f_equal. ring.
  - rewrite IH by (rewrite IH by done; apply Z.div_pos; lia). rewrite IH by done.
    rewrite Z.div_div by lia. by rewrite (Pos2Z.inj_xO n), <-(Z.add_diag (Zpos n)), Z.pow_add_r by lia.
  - by apply shr_1_half.
Qed.
Lemma shr_spec r e n : 0 <= shr_m r ->
  let '(r', e') := shr r e n in shr_m r' = shr_m r / 2 ^ Z.max 0 n /\ e' = e + Z.max 0 n.
Proof.
  intros Hr. destruct n as [|n|n]; cbn [shr].
  - rewrite Z.max_id, Z.div_1_r. lia.
  - rewrite shr_iter by done. rewrite Z.max_r by lia. done.
  - rewrite Z.max_l, Z.div_1_r by lia. lia.
Qed.
Lemma mag_shift m e k : 0 <= m -> 0 <= k -> -200 <= e -> mag (m / 2 ^ k) (e + k) <= mag m e.
Proof.
  intros. unfold mag. replace (e + k + 200) with (k + (e + 200)) by lia. rewrite Z.pow_add_r by lia.
  pose proof (Z.mul_div_le m (2 ^ k)). nia.
Qed.
(** ** Rounding *)
(** A rounding of a magnitude below 2^K adds at most 2^(K-24). *)
Lemma round_atMost K M E : 0 <= K <= 100 -> -200 <= E <= K - 24 -> mag (Zpos M) E < 2 ^ (200 + K) ->
  atMost E (mag (Zpos M) E + 2 ^ (176 + K)) (binary_round_aux 24 128 false (Zpos M) E loc_Exact).
Proof.
  intros HK HE HM. unfold binary_round_aux, shr_fexp. set (d := Zdigits2 (Zpos M)).
  assert (d + E <= K) as Hd.
  { destruct (Z_le_gt_dec (d + E) K) as [|Hgt]; [done|]. exfalso.
    pose proof (digits_low M) as Hl. unfold mag in HM.
    assert (2 ^ (200 + K) <= 2 ^ (d - 1 + (E + 200))) as Hp by (apply Z.pow_le_mono_r; lia).
    assert (0 < d) by (unfold d; cbn; lia).
    rewrite (Z.pow_add_r 2 (d - 1)) in Hp by lia. cbn [Zdigits2] in d. fold d in Hl.
    assert (2 ^ (d - 1) * 2 ^ (E + 200) <= Zpos M * 2 ^ (E + 200)) by (apply Z.mul_le_mono_nonneg_r; lia).
    lia. }
  match goal with |- context [shr ?r ?e ?n] => pose proof (shr_spec r e n) as H1; destruct (shr r e n) as [r1 e1];
    set (n1 := n) in * end.
  cbn [shr_record_of_loc shr_m] in H1. destruct H1 as [Hm1 He1]; [lia|].
  assert (n1 <= K - 24 - E) as Hn1 by (unfold n1, fexp, emin; lia).
  set (m1 := round_nearest_even _ _).
  assert (0 <= shr_m r1) by (rewrite Hm1; apply Z.div_pos; lia).
  assert (shr_m r1 <= m1 <= shr_m r1 + 1) as Hr by (unfold m1, round_nearest_even; repeat case_match; lia).
  match goal with |- context [shr ?r ?e ?n] => pose proof (shr_spec r e n) as H2; destruct (shr r e n) as [r2 e2];
    set (n2 := n) in * end.
  cbn [shr_record_of_loc shr_m] in H2. destruct H2 as [Hm2 He2]; [lia|].
  assert (0 <= shr_m r2) as Hpos by (rewrite Hm2; apply Z.div_pos; lia).
  assert (mag m1 e1 <= mag (Zpos M) E + 2 ^ (176 + K)) as Hb.
  { assert (mag (shr_m r1) e1 <= mag (Zpos M) E) as Ha by (rewrite Hm1, He1; apply mag_shift; lia).
    assert (2 ^ (e1 + 200) <= 2 ^ (176 + K)) by (apply Z.pow_le_mono_r; lia). unfold mag in *. nia. }
  assert (mag (shr_m r2) e2 <= mag (Zpos M) E + 2 ^ (176 + K)) as Hb2.
  { rewrite Hm2, He2. etransitivity; [apply mag_shift; lia | done]. }
  destruct (shr_m r2) as [|p|p] eqn:Ep; cbn [atMost]; try done.
  assert (e2 <= 101) as He.
  { destruct (Z_le_gt_dec e2 101) as [|Hgt]; [done|]. exfalso. unfold mag in Hb2, HM.
    assert (2 ^ (202 + K) <= 2 ^ (e2 + 200)) by (apply Z.pow_le_mono_r; lia).
    assert (2 ^ (176 + K) <= 2 ^ (200 + K)) by (apply Z.pow_le_mono_r; lia).
    replace (202 + K) with (2 + (200 + K)) in * by lia. rewrite (Z.pow_add_r 2 2) in * by lia. nia. }
  rewrite (proj2 (Z.leb_le _ _)) by lia. cbn [atMost]. split_and!; [done|lia|done].
Qed.
Lemma iter_xO d m : Zpos (Pos.iter xO m d) = Zpos m * 2 ^ Zpos d.
Proof.
  revert m. induction d as [|d IH] using Pos.peano_ind; intros m; [cbn; lia|].
  rewrite Pos.iter_succ, Pos2Z.inj_xO, IH, Pos2Z.inj_succ, Z.pow_succ_r by lia. lia.
Qed.
Lemma shl_align_mag m e e' : -200 <= e' -> -200 <= e ->
  let '(m', ez) := shl_align m e e' in mag (Zpos m') ez = mag (Zpos m) e /\ ez = Z.min e e'.
Proof.
  intros. unfold shl_align. destruct (e' - e) as [|d|d] eqn:E; [split; [done|lia]..|].
  rewrite iter_xO. unfold mag. split; [|lia].
  replace (e + 200) with (Zpos d + (e' + 200)) by lia. rewrite (Z.pow_add_r 2 (Zpos d)) by lia. ring.
Qed.
Lemma atMost_mono lo lo' B B' f : atMost lo B f -> lo' <= lo -> B <= B' -> atMost lo' B' f.
Proof. destruct f; cbn; try done. intuition lia. Qed.
Lemma llround_atMost k f : 0 <= k -> atMost (-200) (k * 2 ^ 200 + 2 ^ 199 - 1) f -> 0 <= llround f <= k.
Proof.
  intros Hk. destruct f as [| | |[] m e]; cbn [atMost llround]; [lia..|intros [? _]; done|]. intros (_ & He & Hm).
  unfold mag in Hm. case_match; bool_solve.
  - replace (e + 200) with (200 + e) in Hm by lia. rewrite Z.pow_add_r in Hm by lia.
    assert (0 < 2 ^ e) by (apply Z.pow_pos_nonneg; lia). nia.
  - assert (0 < 2 ^ (- e)) by (apply Z.pow_pos_nonneg; lia). split; [apply Z.div_pos; lia|].
    apply Z.lt_succ_r, Z.div_lt_upper_bound; [lia|].
    assert (0 < 2 ^ (e + 200)) by (apply Z.pow_pos_nonneg; lia).
    assert (2 ^ (- e) * 2 ^ (e + 200) = 2 ^ 200) as Hp by (rewrite <-Z.pow_add_r by lia; f_equal; lia).
    apply (Z.mul_lt_mono_pos_r (2 ^ (e + 200))); [done|]. nia.
Qed.


(** ** Values, scaled by 2^200, and comparisons of them *)
Definition sgn (s : bool) (x : Z) : Z := if s then - x else x.
Definition val (f : float) : Z := match f with S754_finite s m e => sgn s (mag (Zpos m) e) | _ => 0 end.
Lemma is_float_low s m e : is_float (S754_finite s m e) -> -149 <= e /\ Zpos m < 2 ^ 24 /\ (e = -149 \/ 2 ^ 23 <= Zpos m).
Proof.
  unfold is_float. cbn. unfold bounded, canonical_mantissa. intros H. bool_solve. pose proof (digits_low m) as Hl.
  pose proof (digits_high m) as Hh. unfold fexp, emin in *.
  assert (2 ^ Zpos (digits2_pos m) <= 2 ^ 24) by (apply Z.pow_le_mono_r; lia). split_and!; [lia..|].
  destruct (Z.eq_dec e (-149)) as [|Hne]; [by left|right]. by replace (Zpos (digits2_pos m) - 1) with 23 in Hl by lia.
Qed.
(** Canonical mantissas order like the values. *)
Lemma mag_lt s s' m e m' e' : is_float (S754_finite s m e) -> is_float (S754_finite s' m' e') -> e < e' -> mag (Zpos m) e < mag (Zpos m') e'.
Proof.
  intros H1%is_float_low H2%is_float_low He. unfold mag. replace (e' + 200) with (1 + (e + 200) + (e' - e - 1)) by lia.
  rewrite (Z.pow_add_r 2 _ (e' - e - 1)), (Z.pow_add_r 2 1) by lia. assert (0 < 2 ^ (e + 200)) by (apply Z.pow_pos_nonneg; lia).
  assert (1 <= 2 ^ (e' - e - 1)) by (apply (Z.pow_le_mono_r 2 0); lia). change (2 ^ 24) with 16777216 in *. change (2 ^ 23) with 8388608 in *.
  assert (8388608 <= Zpos m') by lia. generalize dependent (2 ^ (e + 200)). generalize dependent (2 ^ (e' - e - 1)). intros U HU T HT.
  assert (8388608 <= Zpos m' * U) by nia. replace (Zpos m' * (2 ^ 1 * T * U)) with (2 * T * (Zpos m' * U)) by ring. nia.
Qed.
Lemma compare_mag s s' m e m' e' : is_float (S754_finite s m e) -> is_float (S754_finite s' m' e') ->
  match (e ?= e')%Z with Lt => Lt | Gt => Gt | Eq => Pos.compare_cont Eq m m' end = (mag (Zpos m) e ?= mag (Zpos m') e')%Z.
Proof.
  intros H1 H2. destruct (Z.compare_spec e e') as [->|He|He].
  - change (Pos.compare_cont Eq m m') with (m ?= m')%positive. unfold mag. apply is_float_low in H1.
    assert (0 < 2 ^ (e' + 200)) by (apply Z.pow_pos_nonneg; lia). rewrite <-Zmult_compare_compat_r by lia. done.
  - symmetry. apply Z.compare_lt_iff. by eapply mag_lt.
  - symmetry. apply Z.compare_gt_iff. by eapply mag_lt.
Qed.
Lemma compare_val f g : is_float f -> is_float g -> f_finite f = true -> f_finite g = true -> SFcompare f g = Some (val f ?= val g).
Proof.
  intros Hf Hg Hff Hfg. assert (forall s m e, is_float (S754_finite s m e) -> 0 < mag (Zpos m) e) as Hpos.
  { intros s m e H%is_float_low. unfold mag. apply Z.mul_pos_pos; [lia|]. apply Z.pow_pos_nonneg; lia. }
  destruct f as [| | |s m e], g as [| | |s' m' e']; try done; cbn -[mag Z.compare].
  - specialize (Hpos _ _ _ Hg). destruct s'; cbn [sgn]; f_equal; symmetry; [apply Z.compare_gt_iff | apply Z.compare_lt_iff]; lia.
  - specialize (Hpos _ _ _ Hf). destruct s; cbn [sgn]; f_equal; symmetry; [apply Z.compare_lt_iff | apply Z.compare_gt_iff]; lia.
  - pose proof (Hpos _ _ _ Hf). pose proof (Hpos _ _ _ Hg). pose proof (compare_mag _ _ _ _ _ _ Hf Hg) as Hc.
    destruct s, s'; cbn [sgn]; f_equal; symmetry.
    + rewrite Z.compare_opp, Z.compare_antisym, <-Hc. by destruct (e ?= e').
    + apply Z.compare_lt_iff. lia.
    + apply Z.compare_gt_iff. lia.
    + rewrite <-Hc. by destruct (e ?= e').
Qed.
Lemma fltb_val f g : is_float f -> is_float g -> f_finite f = true -> f_finite g = true -> SFltb f g = (val f <? val g).
Proof. intros. unfold SFltb, Z.ltb. by rewrite compare_val. Qed.
Lemma fleb_val f g : is_float f -> is_float g -> f_finite f = true -> f_finite g = true -> SFleb f g = (val f <=? val g).
Proof. intros. unfold SFleb, Z.leb. by rewrite compare_val. Qed.

(** ** Operations *)
Definition withSign (s : bool) (f : float) : float :=
  match f with S754_zero _ => S754_zero s | S754_infinity _ => S754_infinity s | S754_finite _ m e => S754_finite s m e | x => x end.
Definition nonneg (f : float) : Prop :=
  match f with S754_zero _ => True | S754_infinity s | S754_finite s _ _ => s = false | S754_nan => False end.
(** At most 24 bits of mantissa. *)
Definition short (f : float) : Prop := match f with S754_finite _ m _ => Zpos m < 2 ^ 24 | _ => True end.
Lemma round_sign s M E l : binary_round_aux 24 128 s M E l = withSign s (binary_round_aux 24 128 false M E l).
Proof.
  unfold binary_round_aux. destruct (shr_fexp _ _ M E l) as [r1 e1]. destruct (shr_fexp _ _ _ e1 loc_Exact) as [r2 e2].
  destruct (shr_m r2); cbn; try done. by case_match.
Qed.
Lemma round_shape M E : nonneg (binary_round_aux 24 128 false (Zpos M) E loc_Exact) /\ short (binary_round_aux 24 128 false (Zpos M) E loc_Exact).
Proof.
  unfold binary_round_aux, shr_fexp.
  match goal with |- context [shr ?r ?e ?n] => pose proof (shr_spec r e n) as H1; destruct (shr r e n) as [r1 e1] end.
  cbn [shr_record_of_loc shr_m] in H1. destruct H1 as [Hm1 _]; [lia|].
  set (m1 := round_nearest_even _ _).
  assert (0 <= m1) by (assert (0 <= shr_m r1) by (rewrite Hm1; apply Z.div_pos; lia); unfold m1, round_nearest_even; repeat case_match; lia).
  match goal with |- context [shr ?r ?e ?n] => pose proof (shr_spec r e n) as H2; destruct (shr r e n) as [r2 e2];
    set (n2 := n) in * end.
  cbn [shr_record_of_loc shr_m] in H2. destruct H2 as [Hm2 _]; [lia|].
  assert (shr_m r2 < 2 ^ 24) as Hs.
  { rewrite Hm2. apply Z.div_lt_upper_bound; [lia|]. destruct m1 as [|p|p]; [lia| |lia]. pose proof (digits_high p) as Hh.
    eapply Z.lt_le_trans; [exact Hh|]. rewrite <-Z.pow_add_r by lia. apply Z.pow_le_mono_r; [lia|].
    unfold n2, fexp, emin. cbn [Zdigits2]. lia. }
  assert (0 <= shr_m r2) by (rewrite Hm2; apply Z.div_pos; lia).
  destruct (shr_m r2); [done| |lia]. by case_match.
Qed.
Lemma normalize_shape M E b : nonneg (binary_normalize 24 128 (Zpos M) E b) /\ short (binary_normalize 24 128 (Zpos M) E b).
Proof. cbn. unfold binary_round. destruct (shl_align _ _ _). apply round_shape. Qed.
Lemma normalize_atMost K M E b : 0 <= K <= 100 -> -163 <= E -> mag (Zpos M) E < 2 ^ (200 + K) ->
  atMost (-163) (mag (Zpos M) E + 2 ^ (176 + K)) (binary_normalize 24 128 (Zpos M) E b).
Proof.
  intros HK HE HM. cbn [binary_normalize]. unfold binary_round. set (x := fexp _ _ _).
  assert (-149 <= x) by (unfold x, fexp, emin; lia).
  assert (Zpos (digits2_pos M) + E <= K) as Hd.
  { destruct (Z_le_gt_dec (Zpos (digits2_pos M) + E) K) as [|Hgt]; [done|]. exfalso. pose proof (digits_low M) as Hl. unfold mag in HM.
    assert (2 ^ (200 + K) <= 2 ^ (Zpos (digits2_pos M) - 1 + (E + 200))) as Hp by (apply Z.pow_le_mono_r; lia).
    rewrite (Z.pow_add_r 2 (_ - 1)) in Hp by lia. assert (0 < 2 ^ (E + 200)) by (apply Z.pow_pos_nonneg; lia). nia. }
  pose proof (shl_align_mag M E x) as Hb. destruct (shl_align M E x) as [mz ez]. destruct Hb as [Hb Hez]; [lia..|].
  rewrite <-Hb in HM |- *. eapply atMost_mono; [apply (round_atMost K); [done| |done] | lia | lia].
  unfold x, fexp, emin in *. lia.
Qed.
(** Multiplying by a constant integer: [k * 2^ek] is [N]. *)
Lemma fmul_const K N k ek B c : 0 <= K <= 100 -> -50 <= ek <= 0 -> 2 ^ 23 <= Zpos k -> Zpos k = N * 2 ^ (- ek) ->
  is_float c -> f_finite c = true -> Z.abs (val c) <= B -> N * B < 2 ^ (200 + K) ->
  exists f, atMost (-149 + ek) (N * B + 2 ^ (176 + K)) f /\
    (fmul c (S754_finite false k ek) = f \/ val c <= 0 /\ fmul c (S754_finite false k ek) = withSign true f).
Proof.
  intros HK Hek Hk HN Hc Hfin HB HKB. assert (0 < 2 ^ (- ek)) by (apply Z.pow_pos_nonneg; lia). assert (0 < N) by nia.
  destruct c as [s| | |s m e]; try done.
  { exists (S754_zero false). split; [done|]. destruct s; [right|left]; cbn; auto with lia. }
  pose proof (is_float_low _ _ _ Hc) as (Hlo & _). unfold fmul. cbn [SFmul val sgn] in *. rewrite xorb_false_r, round_sign.
  assert (mag (Zpos (m * k)) (e + ek) = N * mag (Zpos m) e) as Em.
  { unfold mag. rewrite Pos2Z.inj_mul, HN. replace (e + 200) with (- ek + (e + ek + 200)) by lia. rewrite (Z.pow_add_r 2 (- ek)) by lia. ring. }
  assert (0 <= mag (Zpos m) e) as Hp by (unfold mag; apply Z.mul_nonneg_nonneg; [lia|]; apply Z.pow_nonneg; lia).
  assert (mag (Zpos m) e <= B) as Hm by (destruct s; cbn in HB; lia).
  exists (binary_round_aux 24 128 false (Zpos (m * k)) (e + ek) loc_Exact). split.
  - assert (mag (Zpos (m * k)) (e + ek) < 2 ^ (200 + K)) as HM by (rewrite Em; nia).
    eapply atMost_mono; [apply (round_atMost K); [done| |done] | lia | rewrite Em; nia].
    split; [lia|]. destruct (Z_le_gt_dec (e + ek) (K - 24)) as [|Hgt]; [done|]. exfalso. unfold mag in HM. rewrite Pos2Z.inj_mul in HM.
    assert (2 ^ (200 + K) <= 2 ^ (23 + (e + ek + 200))) as Hpw by (apply Z.pow_le_mono_r; lia). rewrite (Z.pow_add_r 2 23) in Hpw by lia.
    assert (0 < 2 ^ (e + ek + 200)) by (apply Z.pow_pos_nonneg; lia).
    assert (2 ^ 23 <= Zpos m * Zpos k) by nia. assert (2 ^ 23 * 2 ^ (e + ek + 200) <= Zpos m * Zpos k * 2 ^ (e + ek + 200)) by (apply Z.mul_le_mono_nonneg_r; lia). lia.
  - destruct s; [right|left]; cbn [sgn] in *; [split; [lia|done]|].
    symmetry. apply round_sign.
Qed.
(** Adding a half. *)
Definition f_half : float := S754_finite false 8388608 (-24).
Lemma fadd_half K B a : 0 <= K <= 100 -> 0 <= B -> atMost (-163) B a -> B + 2 ^ 199 < 2 ^ (200 + K) ->
  atMost (-163) (B + 2 ^ 199 + 2 ^ (176 + K)) (SFadd 24 128 a f_half).
Proof.
  intros HK HB Ha HKB. unfold f_half. destruct a as [s| | |s m e]; try done.
  { cbn. split_and!; [done|lia|]. unfold mag. change (8388608 * 2 ^ (-24 + 200)) with (2 ^ 199). assert (0 < 2 ^ (176 + K)) by (apply Z.pow_pos_nonneg; lia). lia. }
  destruct Ha as (-> & Hlo & Hm). unfold SFadd. cbn [cond_Zopp].
  pose proof (shl_align_mag m e (Z.min e (-24))) as H1. pose proof (shl_align_mag 8388608 (-24) (Z.min e (-24))) as H2.
  destruct (shl_align m e _) as [m1 e1], (shl_align 8388608 _ _) as [m2 e2]. cbn [fst]. destruct H1 as [H1 E1]; [lia..|]. destruct H2 as [H2 E2]; [lia..|].
  assert (e1 = Z.min e (-24)) as -> by lia. assert (e2 = Z.min e (-24)) as -> by lia.
  change (mag 8388608 (-24)) with (2 ^ 199) in H2. change (Zpos m1 + Zpos m2) with (Zpos (m1 + m2)).
  assert (mag (Zpos (m1 + m2)) (Z.min e (-24)) <= B + 2 ^ 199) as Hs by (rewrite <-H2; rewrite <-H1 in Hm; unfold mag in *; lia).
  eapply atMost_mono; [apply (normalize_atMost K); [done|lia|lia] | lia | lia].
Qed.
Lemma fadd_half_shape a : nonneg a -> nonneg (SFadd 24 128 a f_half) /\ short (SFadd 24 128 a f_half).
Proof.
  unfold f_half. destruct a as [s|s| |s m e]; cbn [nonneg]; [done|by intros ->|done|intros ->]. unfold SFadd. cbn [cond_Zopp]. apply normalize_shape.
Qed.
Lemma fmul_shape a k ek : nonneg a -> nonneg (fmul a (S754_finite false k ek)).
Proof.
  destruct a as [s|s| |s m e]; cbn [nonneg]; [done|by intros ->|done|intros ->]. unfold fmul. cbn [SFmul xorb]. apply round_shape.
Qed.
Lemma fsub_shape a k ek : is_float a -> is_float (S754_finite false k ek) -> SFltb (S754_finite false k ek) a = true ->
  nonneg (fsub a (S754_finite false k ek)).
Proof.
  intros Ha Hk Hlt. destruct a as [s|s| |s m e]; try done; [by destruct s|]. rewrite fltb_val in Hlt by done. apply Z.ltb_lt in Hlt.
  pose proof (is_float_low _ _ _ Ha). pose proof (is_float_low _ _ _ Hk). assert (forall m e, 0 <= mag (Zpos m) e) as Hp.
  { intros. unfold mag. apply Z.mul_nonneg_nonneg; [lia|]. apply Z.pow_nonneg; lia. }
  destruct s; cbn [val sgn] in Hlt; [pose proof (Hp m e); pose proof (Hp k ek); lia|]. unfold fsub, SFsub. cbn [cond_Zopp].
  pose proof (shl_align_mag m e (Z.min e ek)) as H1. pose proof (shl_align_mag k ek (Z.min e ek)) as H2.
  destruct (shl_align m e _) as [m1 e1], (shl_align k _ _) as [m2 e2]. cbn [fst]. destruct H1 as [H1 E1]; [lia..|]. destruct H2 as [H2 E2]; [lia..|].
  assert (e1 = Z.min e ek) as -> by lia. assert (e2 = Z.min e ek) as -> by lia. rewrite <-H1, <-H2 in Hlt. unfold mag in Hlt.
  assert (0 < 2 ^ (Z.min e ek + 200)) by (apply Z.pow_pos_nonneg; lia).
  destruct (Zpos m1 - Zpos m2) as [|z|z] eqn:Ez; [done|apply normalize_shape|nia].
Qed.

(** ** To integers, towards zero *)
Lemma ftrunc_atMost lo k f : 0 <= k -> -200 <= lo -> atMost lo ((k + 1) * 2 ^ 200 - 1) f -> 0 <= ftrunc f <= k /\ - k <= ftrunc (withSign true f) <= 0.
Proof.
  intros Hk Hlo. destruct f as [| | |s m e]; cbn [atMost]; try done; [cbn; lia|]. intros (-> & He & Hm). cbn [withSign ftrunc].
  enough (0 <= (if 0 <=? e then Zpos m * 2 ^ e else Zpos m / 2 ^ (- e)) <= k) by lia. unfold mag in Hm. case_match; bool_solve.
  - replace (e + 200) with (200 + e) in Hm by lia. rewrite Z.pow_add_r in Hm by lia.
    assert (0 < 2 ^ e) by (apply Z.pow_pos_nonneg; lia). nia.
  - assert (0 < 2 ^ (- e)) by (apply Z.pow_pos_nonneg; lia). split; [apply Z.div_pos; lia|].
    apply Z.lt_succ_r, Z.div_lt_upper_bound; [lia|].
    assert (0 < 2 ^ (e + 200)) by (apply Z.pow_pos_nonneg; lia).
    assert (2 ^ (- e) * 2 ^ (e + 200) = 2 ^ 200) as Hp by (rewrite <-Z.pow_add_r by lia; f_equal; lia).
    apply (Z.mul_lt_mono_pos_r (2 ^ (e + 200))); [done|]. nia.
Qed.
