(* ===== verification/LodPolicy.v ===== *)
(** The settlement level-of-detail policy
    (src/src/d3d11/lod_governor.h and lod_governor.cpp, class [lodgov::Policy]).

    Once a frame [update] takes the frame boundary's signals and moves the
    factor k in steps of 1/20, within [1, k_max].  The model follows the code
    field for field; the members are grouped the way their declarations are
    commented.  An early [return] is a [Some]: [andThen] runs the next part only
    if the part before did not return.  Doubles and floats are IEEE values. *)
From S2P Require Import Prelude Rounding.
From Stdlib Require Import Floats.SpecFloat.
Local Open Scope Z_scope.

(** ** Floats *)
Definition d_neg1 : double := d_of_Z (-1).

(** ** Parameters *)
Definition kQuantaPerUnit : Z := 20.
Definition kCoarseQuanta : Z := 5.
Definition kSettlementRecords : Z := 200.
Definition kSettlementBand : Z := 50.
Definition kMissFactor : double := d_lit 3 2.
Definition kGpuBoundMarginMs : double := d_lit 1 2.
Definition kUnexplainedMarginMs : double := d_lit 3 10.
Definition kUnderMarginMs : double := d_of_Z 1.
Definition kSampleWindow : nat := 30.
Definition kWindowMs : Z := 1000.
Definition kWindowMinCycles : Z := 20.
Definition kTriggerDivisor : Z := 10.
Definition kCoarseDivisor : Z := 4.
Definition kCoarseExcessMs : double := d_of_Z 1.
Definition kConsecutive : Z := 30.
Definition kCleanWindows : Z := 5.
Definition kCleanWindowsMax : Z := 60.
Definition kTrialMs : Z := 10000.
Definition kBackoffResetMs : Z := 60000.
Definition kKickWindows : Z := 10.
Definition kKickIntervalMs : Z := 30000.
Definition kKickTrialWindows : Z := 5.
Definition kKickBlockMs : Z := 60000.
Definition kCeilingWindows : Z := 5.
Definition kEffectFrames : nat := 30.
Definition kEffectMin : Z := 10.
Definition kStableRecordsShare : double := d_lit 5 100.
Definition kStableTestedShare : double := d_lit 10 100.
Definition kSceneGrowShare : double := d_lit 2 100.
Definition kSameViewM : double := d_of_Z 2.
Definition kBenefitShare : double := d_lit 1 100.
Definition kBenefitCallerMs : double := d_lit 2 10.
Definition kJudgeMinTested : double := d_of_Z 200.
Definition kInertUnits : Z := 4.
Definition kRearmShare : double := d_lit 20 100.
Definition kRetryMs : Z := 30000.
Definition kAboardMs : Z := 5000.
Definition kMaxCeiling : float := f_of_Z 8.

(** ** Signals and results *)
Inductive Work := WNone | WInvalid | WValid.
#[export] Instance Work_eq_dec : EqDecision Work.
Proof. solve_decision. Defined.
Inductive WorkSource := SrcNone | SrcCaller | SrcApp.
#[export] Instance WorkSource_eq_dec : EqDecision WorkSource.
Proof. solve_decision. Defined.
Definition Cam : Type := (float * float * float)%type.
Definition cam0 : Cam := (S754_zero false, S754_zero false, S754_zero false).

Record FrameSignals := mkSignals {
  records : Z; s_onFoot : bool; work : Work; source : WorkSource; callerAbsent : bool; expired : bool;
  timingVersion : Z; workMs : double; s_periodMs : double;
  nowMs : Z; clockMs : double; gpuValid : bool; s_gpuMs : double; tested : Z; passed : Z; dropped : Z;
  s_camValid : bool; s_cam : Cam }.

Inductive Step := SNone | SUp | SDown | SReset | SClamp | SEnter | SFoot | SKick | SRestore | SAboard.
#[export] Instance Step_eq_dec : EqDecision Step.
Proof. solve_decision. Defined.
Record Cycle := mkCycle { measured : bool; missed : bool; gpuBound : bool; unexplained : bool; c_ms : double }.
Definition cycle0 : Cycle := mkCycle false false false false d_zero.
#[export] Instance eta_Cycle : Settable Cycle := fun c =>
  mkCycle (measured c) (missed c) (gpuBound c) (unexplained c) (c_ms c).
Record WindowResult := mkWindow {
  decided : bool; w_cycles : Z; w_misses : Z; w_gpuBound : Z; w_unexplained : Z; w_anyMisses : Z;
  w_meanExcessMs : double; triggered : bool; headroom : bool }.
Definition window0 : WindowResult := mkWindow false 0 0 0 0 0 d_zero false false.
Inductive Effect := NotJudged | Benefit | NoBenefit.
#[export] Instance Effect_eq_dec : EqDecision Effect.
Proof. solve_decision. Defined.
(** [tested], [passed] and [caller] before and after. *)
Record EffectFigures := mkFigures {
  f_tested : double * double; f_passed : double * double; f_caller : double * double; f_baseline : bool }.
Definition figures0 : EffectFigures := mkFigures (d_neg1, d_neg1) (d_neg1, d_neg1) (d_neg1, d_neg1) false.
Inductive Outcome := Reached | Residual | ONoBenefit | Unknown.

(** ** The policy's state *)
Record Gather := mkGather { g_cycles : Z; g_misses : Z; g_gpuBound : Z; g_unexplained : Z; g_anyMisses : Z; excessSum : double }.
Definition gather0 : Gather := mkGather 0 0 0 0 0 d_zero.
#[export] Instance eta_Gather : Settable Gather := fun g =>
  mkGather (g_cycles g) (g_misses g) (g_gpuBound g) (g_unexplained g) (g_anyMisses g) (excessSum g).
Inductive Opened := OUp | OKick | OEnter.
#[export] Instance Opened_eq_dec : EqDecision Opened.
Proof. solve_decision. Defined.
Record Cohort := mkCohort {
  n : Z; h_records : double; h_tested : double; h_passed : double;
  recordsLo : double; recordsHi : double; testedLo : double; testedHi : double }.
Definition cohort0 : Cohort := mkCohort 0 d_zero d_zero d_zero d_zero d_zero d_zero d_zero.
Record Baseline := mkBaseline {
  b_valid : bool; b_camValid : bool; b_records : double; b_tested : double; b_passed : double; b_caller : double; b_cam : Cam }.
Definition baseline0 : Baseline := mkBaseline false false d_zero d_zero d_zero d_neg1 cam0.

(** One sample of the ring. *)
Record Sample := mkSample { excess : double; gpuMs : double; miss : bool; gpu : bool; unex : bool }.
Definition sample0 : Sample := mkSample d_zero d_zero false false false.
Record Ring := mkRing { samples_ : list Sample; next_ : nat; count_ : Z; missCount_ : Z; gpuCount_ : Z; unexCount_ : Z }.
Definition ring0 : Ring := mkRing (replicate kSampleWindow sample0) 0 0 0 0 0.
#[export] Instance eta_Ring : Settable Ring := fun r =>
  mkRing (samples_ r) (next_ r) (count_ r) (missCount_ r) (gpuCount_ r) (unexCount_ r).

Record Windows := mkWindows {
  started_ : bool; windowClosed_ : bool; winStartMs_ : Z; gather_ : Gather; lastWin_ : WindowResult;
  windows_ : Z; trigRun_ : Z; cleanRun_ : Z; ceilRun_ : Z; lastTriggerMs_ : Z }.
Definition windows0 : Windows := mkWindows false false 0 gather0 window0 0 0 0 0 0.
#[export] Instance eta_Windows : Settable Windows := fun w =>
  mkWindows (started_ w) (windowClosed_ w) (winStartMs_ w) (gather_ w) (lastWin_ w) (windows_ w) (trigRun_ w)
    (cleanRun_ w) (ceilRun_ w) (lastTriggerMs_ w).

Record Kick := mkKick {
  kicked_ : bool; relaxing_ : bool; kickTrial_ : bool; lastKickMs_ : Z; kickBlockedUntilMs_ : Z;
  trialWindows_ : Z; preKickSteps_ : Z; relaxTarget_ : Z }.
Definition kick0 : Kick := mkKick false false false 0 0 0 0 0.
#[export] Instance eta_Kick : Settable Kick := fun k =>
  mkKick (kicked_ k) (relaxing_ k) (kickTrial_ k) (lastKickMs_ k) (kickBlockedUntilMs_ k) (trialWindows_ k)
    (preKickSteps_ k) (relaxTarget_ k).

Record Trial := mkTrial {
  good_ : Z; lastDownMs_ : Z; downWait_ : Z; restoreKick_ : bool; upQuanta_ : Z; downQuanta_ : Z;
  upHeld_ : bool; upNear_ : bool; relaxStep_ : bool }.
Definition trial0 : Trial := mkTrial (-1) 0 kCleanWindows false 0 0 false false false.
#[export] Instance eta_Trial : Settable Trial := fun t =>
  mkTrial (good_ t) (lastDownMs_ t) (downWait_ t) (restoreKick_ t) (upQuanta_ t) (downQuanta_ t) (upHeld_ t)
    (upNear_ t) (relaxStep_ t).

(** One frame of the parts ring: tested, passed, dropped, records. *)
Record Parts := mkParts { p_tested : double; p_passed : double; p_dropped : double; p_records : double }.
Definition parts0 : Parts := mkParts d_zero d_zero d_zero d_zero.
Record Open := mkOpen {
  effectOpen_ : bool; effectCoarse_ : bool; effectRetry_ : bool; effectCamValid_ : bool; effectKind_ : Opened;
  effectBefore_ : Cohort; effectAfter_ : Cohort; effectBeforeCaller_ : double; effectCallerSum_ : double;
  effectCallerN_ : Z; effectCam_ : Cam }.
Definition open0 : Open := mkOpen false false false false OUp cohort0 cohort0 d_neg1 d_zero 0 cam0.
#[export] Instance eta_Open : Settable Open := fun o =>
  mkOpen (effectOpen_ o) (effectCoarse_ o) (effectRetry_ o) (effectCamValid_ o) (effectKind_ o) (effectBefore_ o)
    (effectAfter_ o) (effectBeforeCaller_ o) (effectCallerSum_ o) (effectCallerN_ o) (effectCam_ o).
Record Lever := mkLever {
  parts_ : list Parts; partsNext_ : nat; partsCount_ : Z; open_ : Open; lastEffect_ : Effect; lastFig_ : EffectFigures;
  runFig_ : EffectFigures; judged_ : Z * Z * Z; inertUnits_ : Z; runCoarse_ : Z; runFine_ : Z; base_ : Baseline;
  inert_ : bool; inertStarted_ : bool; rearmed_ : bool; retry_ : bool; retryArmed_ : bool; inertSinceMs_ : Z;
  testedAtHold_ : double; inertHolds_ : Z; retries_ : Z; rearms_ : Z }.
Definition lever0 : Lever :=
  mkLever (replicate kEffectFrames parts0) 0 0 open0 NotJudged figures0 figures0 (0, 0, 0) 0 0 0 baseline0
    false false false false false 0 d_zero 0 0 0.
#[export] Instance eta_Lever : Settable Lever := fun l =>
  mkLever (parts_ l) (partsNext_ l) (partsCount_ l) (open_ l) (lastEffect_ l) (lastFig_ l) (runFig_ l) (judged_ l)
    (inertUnits_ l) (runCoarse_ l) (runFine_ l) (base_ l) (inert_ l) (inertStarted_ l) (rearmed_ l) (retry_ l)
    (retryArmed_ l) (inertSinceMs_ l) (testedAtHold_ l) (inertHolds_ l) (retries_ l) (rearms_ l).

Record Policy := mkPolicy {
  steps_ : Z; maxSteps_ : Z; fixed_ : bool; inSettlement_ : bool; clampPending_ : bool; sparse_ : Z;
  ring : Ring; periodMs_ : double; holding_ : bool; expiries_ : Z;
  haveClock_ : bool; lastClockMs_ : double; cycle_ : Cycle;
  win : Windows; kick : Kick; trial : Trial; camValid_ : bool; cam_ : Cam; lever : Lever;
  onFoot_ : bool; footSteps_ : Z; boardedMs_ : Z }.
(** [static_cast<int>((6.0f - 1.0f) * 20)]. *)
Definition defaultMaxSteps : Z := 100.
Definition policy0 : Policy :=
  mkPolicy 0 defaultMaxSteps false false false 0 ring0 d_zero false 0 false d_zero cycle0 windows0 kick0 trial0
    false cam0 lever0 false 0 0.
#[export] Instance eta_Policy : Settable Policy := fun p =>
  mkPolicy (steps_ p) (maxSteps_ p) (fixed_ p) (inSettlement_ p) (clampPending_ p) (sparse_ p) (ring p) (periodMs_ p)
    (holding_ p) (expiries_ p) (haveClock_ p) (lastClockMs_ p) (cycle_ p) (win p) (kick p) (trial p) (camValid_ p)
    (cam_ p) (lever p) (onFoot_ p) (footSteps_ p) (boardedMs_ p).

(** ** Configuration *)
Definition configure (kMax : float) (p : Policy) : Policy :=
  let kMax := if negb (SFleb (f_of_Z 1) kMax) then f_of_Z 1 else kMax in
  let kMax := if SFltb kMaxCeiling kMax then kMaxCeiling else kMax in
  let p := p <| maxSteps_ := llround (fmul (fsub kMax (f_of_Z 1)) (f_of_Z kQuantaPerUnit)) |> in
  if maxSteps_ p <? steps_ p then p <| clampPending_ := true |> else p.
Definition setFixed (fixed : bool) (p : Policy) : Policy := p <| fixed_ := fixed |>.
Definition reset (p : Policy) : Policy := policy0 <| maxSteps_ := maxSteps_ p |> <| fixed_ := fixed_ p |>.
(** The factor itself. *)
Definition kOf (steps : Z) : float := SFdiv 24 128 (f_of_Z (kQuantaPerUnit + steps)) (f_of_Z kQuantaPerUnit).

(** ** The rings *)
(** The latest [count] entries of a ring of 30, newest first:
    [ring[(next + 30 - 1 - i) % 30]] for [i = 0 ..]. *)
Definition latest {A} (d : A) (l : list A) (next : nat) (count : Z) : list A :=
  map (fun i => nth (Nat.modulo (next + 30 - 1 - i) 30) l d) (seq 0 (Z.to_nat count)).
Definition dsum (l : list double) : double := fold_left dadd l d_zero.

Definition partsMean (field : Parts -> double) (p : Policy) : double :=
  let l := lever p in
  if partsCount_ l =? 0 then d_zero
  else ddiv (dsum (map field (latest parts0 (parts_ l) (partsNext_ l) (partsCount_ l)))) (d_of_Z (partsCount_ l)).
Definition ringSamples (r : Ring) : list Sample := latest sample0 (samples_ r) (next_ r) (count_ r).
Definition meanExcessMs (p : Policy) : double :=
  let r := ring p in
  if count_ r =? 0 then d_zero else ddiv (dsum (map excess (ringSamples r))) (d_of_Z (count_ r)).
Definition meanGpuMs (p : Policy) : double :=
  let g := filter (fun x => dleb d_zero x) (map gpuMs (ringSamples (ring p))) in
  match g with [] => d_neg1 | _ => ddiv (dsum g) (d_of_Z (Z.of_nat (length g))) end.
Definition emptyRing (p : Policy) : Policy :=
  p <| ring ::= fun r => r <| count_ := 0 |> <| missCount_ := 0 |> <| gpuCount_ := 0 |> <| unexCount_ := 0 |> |>.

(** One valid sample into the ring; once it is full the oldest leaves. *)
Definition incIf (b : bool) (n : Z) : Z := if b then u32 (n + 1) else n.
Definition decIf (b : bool) (n : Z) : Z := if b then u32 (n - 1) else n.
Definition pushRing (x : Sample) (r : Ring) : Ring :=
  let old := nth (next_ r) (samples_ r) sample0 in
  let r := if count_ r =? Z.of_nat kSampleWindow
           then r <| missCount_ ::= decIf (miss old) |> <| gpuCount_ ::= decIf (gpu old) |>
                  <| unexCount_ ::= decIf (unex old) |>
           else r <| count_ ::= incIf true |> in
  r <| samples_ ::= <[next_ r := x]> |>
    <| missCount_ ::= incIf (miss x) |> <| gpuCount_ ::= incIf (gpu x) |> <| unexCount_ ::= incIf (unex x) |>
    <| next_ := Nat.modulo (next_ r + 1) kSampleWindow |>.
Definition push (excessMs : double) (m g u : bool) (gpuMs : double) (p : Policy) : Policy :=
  p <| ring ::= pushRing (mkSample excessMs gpuMs m g u) |>.

(** ** Cohorts: sums with their extremes *)
Definition addCohort (r t q : double) (c : Cohort) : Cohort :=
  let '(rLo, rHi, tLo, tHi) :=
    if n c =? 0 then (r, r, t, t)
    else (if dltb r (recordsLo c) then r else recordsLo c, if dltb (recordsHi c) r then r else recordsHi c,
          if dltb t (testedLo c) then t else testedLo c, if dltb (testedHi c) t then t else testedHi c) in
  mkCohort (u32 (n c + 1)) (dadd (h_records c) r) (dadd (h_tested c) t) (dadd (h_passed c) q) rLo rHi tLo tHi.
Definition doneCohort (c : Cohort) : Cohort :=
  if n c =? 0 then c
  else let d x := ddiv x (d_of_Z (n c)) in
    mkCohort (n c) (d (h_records c)) (d (h_tested c)) (d (h_passed c)) (recordsLo c) (recordsHi c) (testedLo c) (testedHi c).
(** [share * mean + 0.5] *)
Definition slack (share mean : double) : double := dadd (dmul share mean) (d_lit 1 2).
Definition stable (c : Cohort) : bool :=
  (kEffectMin <=? n c)
  && dleb (dsub (recordsHi c) (h_records c)) (slack kStableRecordsShare (h_records c))
  && dleb (dsub (h_records c) (recordsLo c)) (slack kStableRecordsShare (h_records c))
  && dleb (dsub (testedHi c) (h_tested c)) (slack kStableTestedShare (h_tested c))
  && dleb (dsub (h_tested c) (testedLo c)) (slack kStableTestedShare (h_tested c)).
Definition ringCohort (p : Policy) : Cohort :=
  let l := lever p in
  doneCohort (fold_left (fun c q => addCohort (p_records q) (p_tested q) (p_passed q) c)
    (latest parts0 (parts_ l) (partsNext_ l) (partsCount_ l)) cohort0).
Definition callerNow (p : Policy) : double :=
  if kEffectMin <=? count_ (ring p) then dadd (periodMs_ p) (meanExcessMs p) else d_neg1.
Definition sameCam (a : Cam) (aValid : bool) (p : Policy) : bool :=
  if negb aValid || negb (camValid_ p) then false
  else
    let '(a0, a1, a2) := a in let '(c0, c1, c2) := cam_ p in
    let dx := dsub (d_of_f a0) (d_of_f c0) in
    let dy := dsub (d_of_f a1) (d_of_f c1) in
    let dz := dsub (d_of_f a2) (d_of_f c2) in
    dleb (dadd (dadd (dmul dx dx) (dmul dy dy)) (dmul dz dz)) (dmul kSameViewM kSameViewM).

(** ** The effect of a step *)
Definition classifyEffect (testedBefore testedAfter passedBefore passedAfter callerBefore callerAfter : double) : Effect :=
  let partsJudged := dleb kJudgeMinTested testedBefore && dleb d_zero testedAfter && dleb d_zero passedAfter in
  let callerJudged := dleb d_zero callerBefore && dleb d_zero callerAfter in
  let partsFell := partsJudged &&
    (dleb (dmul kBenefitShare testedBefore) (dsub testedBefore testedAfter)
     || (dltb d_zero passedBefore && dleb (dmul kBenefitShare passedBefore) (dsub passedBefore passedAfter))) in
  let callerFell := callerJudged && dleb kBenefitCallerMs (dsub callerBefore callerAfter) in
  if partsFell || callerFell then Benefit
  else if partsJudged && callerJudged then NoBenefit else NotJudged.
(** [base * (1.0 + kSceneGrowShare) + 0.5] *)
Definition grown (base : double) : double := dadd (dmul base (dadd (d_of_Z 1) kSceneGrowShare)) (d_lit 1 2).
(** The outcome at k_max with the figures behind it. *)
Definition ceilingOutcome (p : Policy) : EffectFigures * Outcome :=
  let l := lever p in
  let f0 := mkFigures (f_tested (lastFig_ l)) (f_passed (lastFig_ l)) (f_caller (lastFig_ l)) false in
  let b := base_ l in
  let '(f, e) :=
    if b_valid b && sameCam (b_cam b) (b_camValid b) p then
      let now := ringCohort p in
      if stable now && dleb (h_records now) (grown (b_records b)) && dleb (h_tested now) (grown (b_tested b)) then
        (mkFigures (b_tested b, h_tested now) (b_passed b, h_passed now) (b_caller b, callerNow p) true,
         classifyEffect (b_tested b) (h_tested now) (b_passed b) (h_passed now) (b_caller b) (callerNow p))
      else (f0, lastEffect_ l)
    else (f0, lastEffect_ l) in
  let w := lastWin_ (win p) in
  (f, if negb (decided w) then Unknown
      else if negb (triggered w) then Reached
      else match e with Benefit => Residual | NoBenefit => ONoBenefit | NotJudged => Unknown end).
Definition ceilingMissing (p : Policy) : bool :=
  (steps_ p =? maxSteps_ p) && (kCeilingWindows <=? ceilRun_ (win p)).

(** ** Restarting and expiring *)
Definition restart (nowMs : Z) (p : Policy) : Policy :=
  p <| win ::= fun w => w <| winStartMs_ := nowMs |> <| gather_ := gather0 |> <| lastWin_ := window0 |>
         <| trigRun_ := 0 |> <| cleanRun_ := 0 |> <| ceilRun_ := 0 |> |>
    <| kick ::= fun k => k <| relaxing_ := false |> <| kickTrial_ := false |> |>
    <| trial ::= fun t => t <| good_ := -1 |> <| lastDownMs_ := 0 |> <| downWait_ := kCleanWindows |> |>
    <| lever ::= fun l => l <| partsNext_ := 0%nat |> <| partsCount_ := 0 |>
         <| open_ ::= fun o => o <| effectOpen_ := false |> |> <| inert_ := false |> <| retryArmed_ := false |>
         <| inertUnits_ := 0 |> |>.
Definition expire (nowMs : Z) (p : Policy) : Policy :=
  (emptyRing p) <| haveClock_ := false |> <| cycle_ := cycle0 |>
    <| win ::= fun w => w <| winStartMs_ := nowMs |> <| gather_ := gather0 |> <| lastWin_ := window0 |>
         <| trigRun_ := 0 |> <| cleanRun_ := 0 |> <| ceilRun_ := 0 |> |>
    <| lever ::= fun l => l <| open_ ::= fun o => o <| effectOpen_ := false |> |> |>
    <| kick ::= fun k => k <| kickTrial_ := false |> |>
    <| expiries_ ::= incIf true |>.

(** ** The window of a second *)
Definition windowOf (holding : bool) (g : Gather) : WindowResult :=
  let mean := if g_cycles g =? 0 then d_zero else ddiv (excessSum g) (d_of_Z (g_cycles g)) in
  let dec := kWindowMinCycles <=? g_cycles g in
  mkWindow dec (g_cycles g) (g_misses g) (g_gpuBound g) (g_unexplained g) (g_anyMisses g) mean
    (dec && (negb holding && (g_cycles g <=? u32 (g_misses g * kTriggerDivisor))))
    (dec && ((g_anyMisses g =? 0) && dltb mean (SFopp kUnderMarginMs))).
Definition closeWindow (nowMs : Z) (p : Policy) : Policy :=
  let w := windowOf (holding_ p) (gather_ (win p)) in
  let run (b : bool) (n : Z) := if b then u32 (n + 1) else 0 in
  let p :=
    if decided w then
      let p := p <| win ::= fun v => v <| trigRun_ ::= run (triggered w) |> <| cleanRun_ ::= run (headroom w) |>
                      <| ceilRun_ ::= run (triggered w && (steps_ p =? maxSteps_ p)) |> |> in
      if triggered w && negb (kickTrial_ (kick p)) then p <| kick ::= fun k => k <| relaxing_ := false |> |> else p
    else p in
  p <| win ::= fun v => v <| lastWin_ := w |> <| windows_ ::= incIf true |> <| windowClosed_ := true |>
         <| winStartMs_ := nowMs |> <| gather_ := gather0 |> |>.

(** ** Opening and judging a step's effect *)
Definition openEffect (kind : Opened) (coarse : bool) (p : Policy) : Policy :=
  p <| lever ::= fun l => l <| open_ :=
    mkOpen true coarse (bool_decide (kind = OUp) && retry_ l) (camValid_ p) kind (ringCohort p) cohort0
      (callerNow p) d_zero 0 (cam_ p) |> |>.

(** The figures of the step being judged. *)
Definition effectFigures (before after : Cohort) (callerBefore callerAfter : double) : EffectFigures :=
  let t0 := if n before =? 0 then d_neg1 else h_tested before in
  let q0 := if n before =? 0 then d_neg1 else h_passed before in
  let t1 := if n after =? 0 then d_neg1 else h_tested after in
  let q1 := if n after =? 0 then d_neg1 else h_passed after in
  mkFigures (t0, t1) (q0, q1) (callerBefore, callerAfter) false.
Definition judgedAs (p : Policy) : EffectFigures * Effect :=
  let o := open_ (lever p) in
  let after := doneCohort (effectAfter_ o) in
  let before := effectBefore_ o in
  let caller := if kEffectMin <=? effectCallerN_ o then ddiv (effectCallerSum_ o) (d_of_Z (effectCallerN_ o)) else d_neg1 in
  let stable := stable before && stable after in
  let grew := dltb (grown (h_records before)) (h_records after) || dltb (grown (h_tested before)) (h_tested after) in
  let moved := effectCamValid_ o && camValid_ p && negb (sameCam (effectCam_ o) true p) in
  (effectFigures before after (effectBeforeCaller_ o) caller,
   if stable && negb grew && negb moved
   then classifyEffect (h_tested before) (h_tested after) (h_passed before) (h_passed after) (effectBeforeCaller_ o) caller
   else NotJudged).
Definition countJudged (e : Effect) (j : Z * Z * Z) : Z * Z * Z :=
  let '(b, o, u) := j in
  match e with Benefit => (u32 (b + 1), o, u) | NoBenefit => (b, u32 (o + 1), u) | NotJudged => (b, o, u32 (u + 1)) end.
(** A step without a benefit: the run it extends, and the hold at 4 units. *)
Definition noBenefit (nowMs : Z) (p : Policy) (l : Lever) : Lever :=
  let fig := lastFig_ l in
  let l := if inertUnits_ l =? 0 then l <| runFig_ := fig |> <| runCoarse_ := 0 |> <| runFine_ := 0 |> else l in
  let l := l <| runFig_ ::= fun f => mkFigures ((f_tested f).1, (f_tested fig).2) ((f_passed f).1, (f_passed fig).2)
                  ((f_caller f).1, (f_caller fig).2) (f_baseline f) |> in
  let coarse := effectCoarse_ (open_ l) in
  let l := if coarse then l <| runCoarse_ ::= incIf true |> else l <| runFine_ ::= incIf true |> in
  let l := l <| inertUnits_ ::= fun u => u32 (u + if coarse then 2 else 1) |> in
  if (kInertUnits <=? inertUnits_ l) && negb (inert_ l) then
    l <| inert_ := true |> <| inertStarted_ := true |> <| retryArmed_ := false |> <| inertSinceMs_ := nowMs |>
      <| testedAtHold_ := partsMean p_tested p |> <| inertHolds_ ::= incIf true |>
  else l.
Definition judgeEffect (nowMs : Z) (p : Policy) : Policy :=
  let '(fig, e) := judgedAs p in
  let l := (lever p) <| open_ ::= fun o => o <| effectOpen_ := false |> |> <| lastFig_ := fig |> <| lastEffect_ := e |> in
  let l :=
    if negb (bool_decide (effectKind_ (open_ l) = OUp)) then l   (* a kick's or reduced's effect: the outcome only *)
    else
      let l := l <| judged_ ::= countJudged e |> in
      if effectRetry_ (open_ l) then
        if bool_decide (e = Benefit) && inert_ l then
          l <| inert_ := false |> <| retryArmed_ := false |> <| rearmed_ := true |> <| rearms_ ::= incIf true |>
            <| inertUnits_ := 0 |>
        else l
      else match e with
           | Benefit => l <| inertUnits_ := 0 |>
           | NoBenefit => noBenefit nowMs p l
           | NotJudged => l
           end in
  p <| lever := l |>.

(** ** [update], part by part *)
Definition Upd : Type := Policy -> Policy * option Step.
Definition pass (f : Policy -> Policy) : Upd := fun p => (f p, None).
Definition andThen (u v : Upd) : Upd := fun p =>
  match u p with (p, Some r) => (p, Some r) | (p, None) => v p end.
Notation "u ;;; v" := (andThen u v) (at level 60, right associativity) : edvr_scope.

Definition prologue (s : FrameSignals) (p : Policy) : Policy :=
  let p := if started_ (win p) then p else p <| win ::= fun w => w <| started_ := true |> <| winStartMs_ := nowMs s |> |> in
  let p := p <| cycle_ := cycle0 |> <| win ::= fun w => w <| windowClosed_ := false |> |>
             <| lever ::= fun l => l <| inertStarted_ := false |> <| rearmed_ := false |> |>
             <| camValid_ := s_camValid s |> in
  if s_camValid s then p <| cam_ := s_cam s |> else p.
(** k to 1 at once, with [r], when it was above. *)
Definition dropToOne (r : Step) (p : Policy) : Policy * option Step :=
  if 0 <? steps_ p then (p <| steps_ := 0 |>, Some r) else (p, Some SNone).
Definition onFoot (s : FrameSignals) : Upd := fun p =>
  if s_onFoot s then
    let p := if onFoot_ p then p
             else let p := p <| onFoot_ := true |> in
               if 0 <? steps_ p then p <| footSteps_ := steps_ p |> else p in
    let p := (emptyRing (p <| clampPending_ := false |> <| inSettlement_ := false |> <| sparse_ := 0 |>))
               <| haveClock_ := false |> in
    dropToOne SFoot (restart (nowMs s) p)
  else (if onFoot_ p then p <| onFoot_ := false |> <| boardedMs_ := nowMs s |> else p, None).
Definition clock (s : FrameSignals) (p : Policy) : Policy :=
  let p :=
    if dleb d_zero (clockMs s) then
      let p := if haveClock_ p
               then p <| cycle_ ::= fun c => c <| measured := true |> <| c_ms := dsub (clockMs s) (lastClockMs_ p) |> |>
               else p in
      p <| lastClockMs_ := clockMs s |> <| haveClock_ := true |>
    else p <| haveClock_ := false |> in
  let period := if bool_decide (work s = WValid) then s_periodMs s else periodMs_ p in
  if measured (cycle_ p) && dltb d_zero period && dltb (dmul kMissFactor period) (c_ms (cycle_ p)) then
    p <| cycle_ ::= fun c => c <| missed := true |> |>
      <| win ::= fun w => w <| gather_ ::= fun g => g <| g_anyMisses ::= incIf true |> |> |>
  else p.
Definition expiry (s : FrameSignals) (p : Policy) : Policy :=
  if expired s || bool_decide (work s = WInvalid) then expire (nowMs s) p else p.
Definition density (s : FrameSignals) : Upd := fun p =>
  if kSettlementRecords <=? records s then (p <| inSettlement_ := true |> <| sparse_ := 0 |>, None)
  else if inSettlement_ p && (u32 (records s + kSettlementBand) <? kSettlementRecords) then
    let p := p <| sparse_ ::= incIf true |> in
    if kConsecutive <=? sparse_ p then
      let p := (emptyRing (p <| inSettlement_ := false |> <| sparse_ := 0 |>)) <| haveClock_ := false |> in
      dropToOne SReset (restart (nowMs s) p)
    else (p, None)
  else (p <| sparse_ := 0 |>, None).

(** The class of this boundary's two-slot cycle. *)
Definition classify (s : FrameSignals) (c : Cycle) : Cycle :=
  if missed c then
    if gpuValid s && dleb (dsub (s_periodMs s) kGpuBoundMarginMs) (s_gpuMs s) then c <| gpuBound := true |>
    else if dltb (workMs s) (dsub (s_periodMs s) kUnexplainedMarginMs) then c <| unexplained := true |> else c
  else c.
Definition gatherCycle (s : FrameSignals) (c : Cycle) (g : Gather) : Gather :=
  let g := g <| g_cycles ::= incIf true |> <| excessSum ::= fun x => dadd x (dsub (workMs s) (s_periodMs s)) |> in
  if gpuBound c then g <| g_gpuBound ::= incIf true |>
  else if unexplained c then g <| g_unexplained ::= incIf true |>
  else if missed c then g <| g_misses ::= incIf true |> else g.
Definition sample (s : FrameSignals) (p : Policy) : Policy :=
  if bool_decide (work s = WValid) then
    let p := p <| periodMs_ := s_periodMs s |> <| holding_ := bool_decide (source s = SrcApp) |>
               <| cycle_ ::= classify s |> in
    let c := cycle_ p in
    let ours := missed c && negb (gpuBound c) && negb (unexplained c) in
    let p := push (dsub (workMs s) (s_periodMs s)) ours (gpuBound c) (unexplained c)
               (if gpuValid s then s_gpuMs s else d_neg1) p in
    let p := if measured c then p <| win ::= fun w => w <| gather_ ::= gatherCycle s c |> |> else p in
    if effectOpen_ (open_ (lever p)) then
      p <| lever ::= fun l => l <| open_ ::= fun o =>
        o <| effectCallerSum_ ::= fun x => dadd x (workMs s) |> <| effectCallerN_ ::= incIf true |> |> |>
    else p
  else p.
(** The frame's parts into the ring and the open step's after side. *)
Definition partsFrame (s : FrameSignals) (p : Policy) : Policy :=
  if (0 <? records s) || (0 <? tested s) then
    let p := p <| lever ::= fun l =>
      l <| parts_ ::= <[partsNext_ l := mkParts (d_of_Z (tested s)) (d_of_Z (passed s)) (d_of_Z (dropped s)) (d_of_Z (records s))]> |>
        <| partsNext_ := Nat.modulo (partsNext_ l + 1) kEffectFrames |>
        <| partsCount_ ::= fun c => if c <? Z.of_nat kEffectFrames then c + 1 else c |> |> in
    if effectOpen_ (open_ (lever p)) then
      p <| lever ::= fun l => l <| open_ ::= fun o => o <| effectAfter_ ::=
        addCohort (d_of_Z (records s)) (d_of_Z (tested s)) (d_of_Z (passed s)) |> |> |>
    else p
  else p.
(** The open step judged once 30 samples, and 30 frames if it had any before it, followed. *)
Definition judgeFull (s : FrameSignals) (p : Policy) : Policy :=
  let o := open_ (lever p) in
  if effectOpen_ o && (Z.of_nat kEffectFrames <=? effectCallerN_ o)
     && ((Z.of_nat kEffectFrames <=? n (effectAfter_ o)) || (n (effectBefore_ o) =? 0))
  then judgeEffect (nowMs s) p else p.
Definition retryWhenInert (s : FrameSignals) (p : Policy) : Policy :=
  let l := lever p in
  if inert_ l && negb (retryArmed_ l) && negb (effectOpen_ (open_ l)) then
    let tested := partsMean p_tested p in
    if (kRetryMs <=? u64 (nowMs s - inertSinceMs_ l))
       || (dltb d_zero (testedAtHold_ l)
           && dltb (dmul kRearmShare (testedAtHold_ l)) (dabs (dsub tested (testedAtHold_ l))))
    then p <| lever ::= fun l => l <| retryArmed_ := true |> |> else p
  else p.

Definition aboard (s : FrameSignals) : Upd := fun p =>
  if 0 <? footSteps_ p then
    if fixed_ p || (kAboardMs <? u64 (nowMs s - boardedMs_ p)) then (p <| footSteps_ := 0 |>, None)
    else if inSettlement_ p && (kSettlementRecords <=? records s) then
      let to := if footSteps_ p <? maxSteps_ p then footSteps_ p else maxSteps_ p in
      let p := p <| footSteps_ := 0 |> in
      if steps_ p <? to then (p <| steps_ := to |>, Some SAboard) else (p, None)
    else (p, None)
  else (p, None).
Definition clamp : Upd := fun p =>
  if clampPending_ p then
    let p := p <| clampPending_ := false |> in
    if maxSteps_ p <? steps_ p then (p <| steps_ := maxSteps_ p |>, Some SClamp) else (p, None)
  else (p, None).

Definition closes (s : FrameSignals) (p : Policy) : bool := kWindowMs <=? u64 (nowMs s - winStartMs_ (win p)).
(** reduced: k_max for as long as the settlement lasts. *)
Definition reduced : Upd := fun p =>
  if fixed_ p then
    if inSettlement_ p && negb (steps_ p =? maxSteps_ p)
    then (openEffect OEnter false (p <| steps_ := maxSteps_ p |>), Some SEnter) else (p, Some SNone)
  else (p, None).
(** The k = 1 baseline of this view. *)
Definition baseline (p : Policy) : Policy :=
  if (steps_ p =? 0) && inSettlement_ p then
    let c := ringCohort p in
    let caller := callerNow p in
    if stable c && dleb d_zero caller then
      p <| lever ::= fun l => l <| base_ :=
        mkBaseline true (camValid_ p) (h_records c) (h_tested c) (h_passed c) caller (cam_ p) |> |>
    else p
  else p.
Definition backoff (s : FrameSignals) (p : Policy) : Policy :=
  if triggered (lastWin_ (win p)) then p <| win ::= fun w => w <| lastTriggerMs_ := nowMs s |> |>
  else if negb (lastDownMs_ (trial p) =? 0) && (lastTriggerMs_ (win p) <? lastDownMs_ (trial p))
          && (kBackoffResetMs <=? u64 (nowMs s - lastDownMs_ (trial p)))
  then p <| trial ::= fun t => t <| downWait_ := kCleanWindows |> |> else p.
Definition judgeKick (s : FrameSignals) : Upd := fun p =>
  if kickTrial_ (kick p) then
    let p := p <| kick ::= fun k => k <| trialWindows_ ::= incIf true |> |> in
    if kKickTrialWindows <=? trialWindows_ (kick p) then
      let p := p <| kick ::= fun k => k <| kickTrial_ := false |> |> in
      if triggered (lastWin_ (win p)) then
        (p <| steps_ := (if preKickSteps_ (kick p) <? maxSteps_ p then preKickSteps_ (kick p) else maxSteps_ p) |>
           <| kick ::= fun k => k <| relaxing_ := false |> <| kickBlockedUntilMs_ := u64 (nowMs s + kKickBlockMs) |> |>
           <| win ::= fun w => w <| trigRun_ := 0 |> <| ceilRun_ := 0 |> |>
           <| trial ::= fun t => t <| restoreKick_ := true |> |>, Some SRestore)
      else (p, None)
    else (p, None)
  else (p, None).
Definition restoreGood (s : FrameSignals) : Upd := fun p =>
  let t := trial p in
  if negb (lastDownMs_ t =? 0) && (u64 (nowMs s - lastDownMs_ t) <=? kTrialMs) && (steps_ p <? good_ t) then
    (p <| steps_ := (if good_ t <? maxSteps_ p then good_ t else maxSteps_ p) |>
       <| trial ::= fun t => t
            <| downWait_ := (if u32 (downWait_ t * 2) <? kCleanWindowsMax then u32 (downWait_ t * 2) else kCleanWindowsMax) |>
            <| lastDownMs_ := 0 |> <| restoreKick_ := false |> |>
       <| kick ::= fun k => k <| relaxing_ := false |> |>, Some SRestore)
  else (p, None).
Definition forgetGood (p : Policy) : Policy :=
  if (0 <=? good_ (trial p)) && (good_ (trial p) <=? steps_ p) then p <| trial ::= fun t => t <| good_ := -1 |> |> else p.
Definition holdInert : Upd := fun p =>
  if inert_ (lever p) && negb (retryArmed_ (lever p)) then (p <| win ::= fun w => w <| trigRun_ := 0 |> |>, Some SNone)
  else (p, None).
Definition dense (s : FrameSignals) (p : Policy) : bool := inSettlement_ p && (kSettlementRecords <=? records s).
Definition kickUp (s : FrameSignals) : Upd := fun p =>
  let k := kick p in
  if negb (inert_ (lever p)) && dense s p && (steps_ p <? maxSteps_ p) && (kKickWindows <=? trigRun_ (win p))
     && (kickBlockedUntilMs_ k <=? nowMs s) && (negb (kicked_ k) || (kKickIntervalMs <=? u64 (nowMs s - lastKickMs_ k))) then
    let near := steps_ p + kCoarseQuanta in
    (openEffect OKick false
      (p <| kick := mkKick true true true (nowMs s) (kickBlockedUntilMs_ k) 0 (steps_ p)
              (if near <? maxSteps_ p then near else maxSteps_ p) |>
         <| steps_ := maxSteps_ p |>), Some SKick)
  else (p, None).
Definition up (s : FrameSignals) : Upd := fun p =>
  if dense s p && (steps_ p <? maxSteps_ p) then
    let w := lastWin_ (win p) in
    let near := (steps_ p <? good_ (trial p)) && (good_ (trial p) - steps_ p <=? kCoarseQuanta) in
    let coarse := negb near && ((w_cycles w <=? u32 (w_misses w * kCoarseDivisor)) || dltb kCoarseExcessMs (w_meanExcessMs w)) in
    let q := if coarse then kCoarseQuanta else 1 in
    let held := maxSteps_ p <? steps_ p + q in
    let p := p <| trial ::= fun t => t <| upNear_ := near |> <| upQuanta_ := q |> <| upHeld_ := held |> |>
               <| steps_ := (if held then maxSteps_ p else steps_ p + q) |>
               <| lever ::= fun l => l <| retry_ := inert_ l |> |> in
    let p := if retry_ (lever p)
             then p <| lever ::= fun l => l <| retryArmed_ := false |> <| retries_ ::= incIf true |>
                         <| inertSinceMs_ := nowMs s |> <| testedAtHold_ := partsMean p_tested p |> |>
             else p in
    (openEffect OUp coarse p, Some SUp)
  else (p, Some SNone).
Definition down (s : FrameSignals) : Upd := fun p =>
  if (0 <? steps_ p) && (downWait_ (trial p) <=? cleanRun_ (win p)) then
    let target := relaxTarget_ (kick p) in
    let relax := relaxing_ (kick p) && (target <? steps_ p) in
    let q := if relax then (if steps_ p - target <? kCoarseQuanta then steps_ p - target else kCoarseQuanta) else 1 in
    let p := p <| trial ::= fun t => t <| good_ := steps_ p |> <| lastDownMs_ := nowMs s |> <| relaxStep_ := relax |>
                    <| downQuanta_ := q |> |>
               <| steps_ := steps_ p - q |> in
    let p := if negb relax || (steps_ p <=? target) then p <| kick ::= fun k => k <| relaxing_ := false |> |> else p in
    (p <| win ::= fun w => w <| cleanRun_ := 0 |> |>, Some SDown)
  else (p, Some SNone).
(** What a decided window does. *)
Definition decideWindow (s : FrameSignals) : Upd :=
  pass (fun p => if effectOpen_ (open_ (lever p)) then judgeEffect (nowMs s) p else p) ;;;
  pass baseline ;;; pass (backoff s) ;;; judgeKick s ;;;
  fun p => if triggered (lastWin_ (win p))
           then (restoreGood s ;;; pass forgetGood ;;; holdInert ;;; kickUp s ;;; up s) p
           else down s p.
Definition windowEnd (s : FrameSignals) : Upd := fun p =>
  let closed := closes s p in
  let p := if closed then closeWindow (nowMs s) p else p in
  (reduced ;;; fun p => if negb closed || negb (decided (lastWin_ (win p))) then (p, Some SNone) else decideWindow s p) p.
Definition update (s : FrameSignals) (p : Policy) : Policy * Step :=
  let '(p, r) :=
    (pass (prologue s) ;;; onFoot s ;;; pass (clock s) ;;; pass (expiry s) ;;; density s ;;; pass (sample s) ;;;
     pass (partsFrame s) ;;; pass (judgeFull s) ;;; pass (retryWhenInert s) ;;; aboard s ;;; clamp ;;; windowEnd s) p in
  (p, default SNone r).

(** ** Runs *)
Inductive POp := OpConfigure (kMax : float) | OpSetFixed (fixed : bool) | OpReset | OpUpdate (s : FrameSignals).
Definition papply (o : POp) (p : Policy) : Policy :=
  match o with
  | OpConfigure k => configure k p
  | OpSetFixed b => setFixed b p
  | OpReset => reset p
  | OpUpdate s => (update s p).1
  end.
Definition prun (os : list POp) (p : Policy) : Policy := fold_left (fun p o => papply o p) os p.

(** ** What each result means *)
(** The second of the decision is over, at least a second after the last, and counts. *)
Definition decisive (s : FrameSignals) (p p' : Policy) : Prop :=
  fixed_ p = false /\ kWindowMs <= u64 (nowMs s - winStartMs_ (win p)) /\ windowClosed_ (win p') = true /\
  exists g, lastWin_ (win p') = windowOf (holding_ p') g /\ kWindowMinCycles <= g_cycles g.
Definition stepMeans (s : FrameSignals) (p p' : Policy) (r : Step) : Prop :=
  let k := steps_ p in let k' := steps_ p' in let w := lastWin_ (win p') in let kmax := maxSteps_ p in
  match r with
  | SNone => k' = k
  | SFoot => s_onFoot s = true /\ 0 < k /\ k' = 0
  | SReset => records s < 150 /\ 0 < k /\ k' = 0 /\ inSettlement_ p' = false
  | SClamp => k' = kmax /\ kmax < k
  | SEnter => fixed_ p = true /\ inSettlement_ p' = true /\ k' = kmax /\ k' <> k
  | SAboard => fixed_ p = false /\ 200 <= records s /\ k < k' /\ k' = Z.min (footSteps_ p) kmax
  | SUp => decisive s p p' /\ triggered w = true /\ 200 <= records s /\ retry_ (lever p') = inert_ (lever p') /\
           (upQuanta_ (trial p') = 1 \/ upQuanta_ (trial p') = 5) /\ k < k' /\ k' = Z.min (k + upQuanta_ (trial p')) kmax
  | SKick => decisive s p p' /\ triggered w = true /\ 200 <= records s /\ inert_ (lever p') = false /\ k < k' /\ k' = kmax
  | SDown => decisive s p p' /\ triggered w = false /\ headroom w = true /\ good_ (trial p') = k /\
             1 <= downQuanta_ (trial p') <= 5 /\ k' = k - downQuanta_ (trial p')
  | SRestore => decisive s p p' /\ triggered w = true /\
             (if restoreKick_ (trial p') then k' = Z.min (preKickSteps_ (kick p')) kmax
              else k <= k' /\ k' = Z.min (good_ (trial p')) kmax)
  end.

(** ** What the parts leave alone *)
(** The members the factor's bounds depend on. *)
Record Core := mkCore {
  c_steps : Z; c_max : Z; c_fixed : bool; c_in : bool; c_clamp : bool; c_onFoot : bool; c_foot : Z;
  c_trial : bool; c_pre : Z; c_target : Z; c_good : Z; c_wait : Z }.
Definition core (p : Policy) : Core :=
  mkCore (steps_ p) (maxSteps_ p) (fixed_ p) (inSettlement_ p) (clampPending_ p) (onFoot_ p) (footSteps_ p)
    (kickTrial_ (kick p)) (preKickSteps_ (kick p)) (relaxTarget_ (kick p)) (good_ (trial p)) (downWait_ (trial p)).

Ltac frame f := unfold f; repeat case_match; reflexivity.
Lemma core_prologue s p : core (prologue s p) = core p.
Proof. frame prologue. Qed.
Lemma core_clock s p : core (clock s p) = core p.
Proof. frame clock. Qed.
Lemma core_sample s p : core (sample s p) = core p.
Proof. frame sample. Qed.
Lemma core_judgeEffect t p : core (judgeEffect t p) = core p.
Proof. unfold judgeEffect. destruct (judgedAs p). reflexivity. Qed.
Lemma core_partsFrame s p : core (partsFrame s p) = core p.
Proof. frame partsFrame. Qed.
Lemma core_judgeFull s p : core (judgeFull s p) = core p.
Proof. unfold judgeFull. cbv zeta. case_match; [apply core_judgeEffect | done]. Qed.
Lemma core_retryWhenInert s p : core (retryWhenInert s p) = core p.
Proof. frame retryWhenInert. Qed.
Lemma core_baseline p : core (baseline p) = core p.
Proof. frame baseline. Qed.
Lemma core_openEffect k c p : core (openEffect k c p) = core p.
Proof. reflexivity. Qed.
Lemma core_closeWindow t p : core (closeWindow t p) = core p.
Proof. frame closeWindow. Qed.

(** ** The invariant *)
Record CoreOk (c : Core) : Prop := {
  co_max : 0 <= c_max c;
  co_steps : 0 <= c_steps c;
  co_clamp : c_max c < c_steps c -> c_clamp c = true;
  co_in : 0 < c_steps c -> c_in c = true;
  co_onFoot : c_onFoot c = true -> c_in c = false;
  co_trial : c_trial c = true -> c_in c = true;
  co_good : 0 <= c_good c -> c_in c = true;
  co_foot : 0 <= c_foot c;
  co_pre : 0 <= c_pre c;
  co_target : 0 <= c_target c;
  co_wait : kCleanWindows <= c_wait c <= kCleanWindowsMax }.
Definition Inv (p : Policy) : Prop := CoreOk (core p).

(** A part keeps a precondition or returns within a postcondition. *)
Definition ok (u : Upd) (P N : Policy -> Prop) (R : Policy -> Step -> Prop) : Prop :=
  forall p, P p -> match u p with (p', None) => N p' | (p', Some r) => R p' r end.
Lemma ok_then u v P N N' R : ok u P N R -> ok v N N' R -> ok (u ;;; v) P N' R.
Proof. intros Hu Hv p Hp. unfold andThen. specialize (Hu p Hp). destruct (u p) as [p1 [r|]]; [done|]. by apply Hv. Qed.
Lemma ok_pass f (P N : Policy -> Prop) R : (forall p, P p -> N (f p)) -> ok (pass f) P N R.
Proof. intros H p Hp. by apply H. Qed.

(** Split the innermost conditional first. *)
Ltac split_if :=
  match goal with
  | |- context [if ?b then _ else _] => lazymatch b with context [if _ then _ else _] => fail | _ => destruct b eqn:? end
  end.

Section Update.
Variables (s : FrameSignals) (p0 : Policy).
Hypothesis (Hrec : is_u32 (records s)).

(** What holds between the parts: k as before, the invariant, the window as before or restarted now. *)
Record Mid (aboard : bool) (p : Policy) : Prop := {
  m_aboard : aboard = true -> onFoot_ p = false;
  m_inv : Inv p;
  m_steps : steps_ p = steps_ p0;
  m_max : maxSteps_ p = maxSteps_ p0;
  m_fixed : fixed_ p = fixed_ p0;
  m_foot : footSteps_ p = footSteps_ p0 \/ footSteps_ p = 0;
  m_start : winStartMs_ (win p) = winStartMs_ (win p0) \/ winStartMs_ (win p) = nowMs s }.
Definition Post (p : Policy) (r : Step) : Prop :=
  Inv p /\ steps_ p <= maxSteps_ p /\ maxSteps_ p = maxSteps_ p0 /\ stepMeans s p0 p r.

Lemma mid_core f p : core (f p) = core p -> winStartMs_ (win (f p)) = winStartMs_ (win p) \/ winStartMs_ (win (f p)) = nowMs s ->
  forall b, Mid b p -> Mid b (f p).
Proof.
  intros Hc Hw b [Ha Hi Hs Hm Hf Hft Hst]. split; [|unfold Inv; by rewrite Hc| | | | |].
  - change (b = true -> c_onFoot (core (f p)) = false). by rewrite Hc.
  - change (c_steps (core (f p)) = steps_ p0). by rewrite Hc.
  - change (c_max (core (f p)) = maxSteps_ p0). by rewrite Hc.
  - change (c_fixed (core (f p)) = fixed_ p0). by rewrite Hc.
  - change (c_foot (core (f p)) = footSteps_ p0 \/ c_foot (core (f p)) = 0). by rewrite Hc.
  - destruct Hw as [->| ->]; auto.
Qed.

Ltac open_mid H :=
  destruct H as [Hab [] ? ? ? ? ?]; try specialize (Hab eq_refl); unfold core in *;
  cbn [c_steps c_max c_fixed c_in c_clamp c_onFoot c_foot c_trial c_pre c_target c_good c_wait] in *.
(** Case analysis on a part, then one field at a time. *)
Ltac parts := repeat
  match goal with
  | |- _ /\ _ => split
  | |- CoreOk _ => split
  | |- Inv _ => split
  | |- Mid _ _ => split
  | |- Post _ _ => split
  | |- stepMeans _ _ _ _ => unfold stepMeans; cbn
  end.
Ltac crush := repeat (split_if; cbn [fst snd]); bool_solve; cbn in *; parts; cbn;
  unfold kCleanWindows, kCleanWindowsMax in *; intros; try done; try lia; try congruence; try solve [auto];
  try solve [destruct_or?; first [left; congruence | right; congruence | congruence | lia]];
  try solve [match goal with H : _ -> ?P |- ?P => apply H; lia end].

Lemma band : records s < kSettlementRecords -> u32 (records s + kSettlementBand) < kSettlementRecords -> records s < 150.
Proof.
  unfold kSettlementRecords, kSettlementBand, is_u32 in *. intros. rewrite u32_small in H0; [lia|].
  unfold is_u32, u32_max. lia.
Qed.
Lemma ok_onFoot : ok (onFoot s) (Mid false) (Mid true) Post.
Proof. intros p H. unfold onFoot, dropToOne. open_mid H. crush. Qed.
Lemma ok_density : ok (density s) (Mid true) (Mid true) Post.
Proof. intros p H. pose proof band. unfold density, dropToOne. open_mid H. crush. Qed.
Lemma ok_aboard : ok (aboard s) (Mid true) (Mid true) Post.
Proof. intros p H. unfold aboard, kSettlementRecords. open_mid H. crush. Qed.
(** After the clamp k is within its range. *)
Definition Clamped (p : Policy) : Prop := Mid true p /\ steps_ p <= maxSteps_ p.
Lemma ok_clamp : ok clamp (Mid true) Clamped Post.
Proof. intros p H. unfold clamp, Clamped. open_mid H. crush. Qed.

Lemma mid_expiry b p : Mid b p -> Mid b (expiry s p).
Proof. intros H. unfold expiry, expire. open_mid H. crush. Qed.
Lemma mid_prologue b p : Mid b p -> Mid b (prologue s p).
Proof. apply mid_core; [apply core_prologue | unfold prologue; repeat split_if; auto]. Qed.
Lemma mid_clock b p : Mid b p -> Mid b (clock s p).
Proof. apply mid_core; [apply core_clock | unfold clock; repeat split_if; auto]. Qed.
Lemma mid_sample b p : Mid b p -> Mid b (sample s p).
Proof. apply mid_core; [apply core_sample | unfold sample; repeat split_if; auto]. Qed.
Lemma mid_partsFrame b p : Mid b p -> Mid b (partsFrame s p).
Proof. apply mid_core; [apply core_partsFrame | unfold partsFrame; repeat case_match; auto]. Qed.
Lemma win_judgeEffect t p : win (judgeEffect t p) = win p.
Proof. unfold judgeEffect. by destruct (judgedAs p). Qed.
Lemma mid_judgeFull b p : Mid b p -> Mid b (judgeFull s p).
Proof.
  apply mid_core; [apply core_judgeFull|]. left. unfold judgeFull. cbv zeta. case_match; by rewrite ?win_judgeEffect.
Qed.
Lemma mid_retryWhenInert b p : Mid b p -> Mid b (retryWhenInert s p).
Proof. apply mid_core; [apply core_retryWhenInert | unfold retryWhenInert; repeat split_if; auto]. Qed.

(** In a decided window. *)
Record Dec (p : Policy) : Prop := {
  dc_clamped : Clamped p;
  dc_decisive : decisive s p0 p;
  dc_clean : headroom (lastWin_ (win p)) = false -> cleanRun_ (win p) = 0 }.
Lemma dec_frame f p : core (f p) = core p -> win (f p) = win p -> holding_ (f p) = holding_ p -> Dec p -> Dec (f p).
Proof.
  intros Hc Hw Hh [[Hm Hle] (Hf & Ht & Hcl & g & Hg) Hcr]. split.
  - split; [apply mid_core; [done| |done]; left; by rewrite Hw|].
    change (c_steps (core (f p)) <= c_max (core (f p))). by rewrite Hc.
  - unfold decisive. rewrite Hw, Hh. eauto.
  - by rewrite Hw.
Qed.
Lemma dec_judge p : Dec p -> Dec (if effectOpen_ (open_ (lever p)) then judgeEffect (nowMs s) p else p).
Proof.
  destruct (effectOpen_ _); [|done].
  apply dec_frame; [apply core_judgeEffect | apply win_judgeEffect | unfold judgeEffect; by destruct (judgedAs p)].
Qed.
Lemma dec_baseline p : Dec p -> Dec (baseline p).
Proof. apply dec_frame; [apply core_baseline | |]; unfold baseline; by repeat split_if. Qed.
Ltac open_dec H := destruct H as [[H ?] ? ?]; open_mid H.
Definition Trig (p : Policy) : Prop := Dec p /\ triggered (lastWin_ (win p)) = true.
Definition Free (p : Policy) : Prop := Trig p /\ (inert_ (lever p) = true -> retryArmed_ (lever p) = true).
Ltac settle := repeat match goal with |- _ /\ _ => split | |- Dec _ => split | |- Clamped _ => split | |- Trig _ => split | |- Free _ => split end; crush.
Lemma dec_backoff p : Dec p -> Dec (backoff s p).
Proof. intros H. unfold backoff. open_dec H. repeat split_if; settle. Qed.

Lemma ok_judgeKick : ok (judgeKick s) Dec Dec Post.
Proof. intros p H. unfold judgeKick. open_dec H. repeat split_if; settle. Qed.
Lemma wait_doubled w : 5 <= w <= 60 -> 5 <= (if u32 (w * 2) <? 60 then u32 (w * 2) else 60) <= 60.
Proof. intros. rewrite u32_small; [split_if; bool_solve; lia | unfold is_u32, u32_max; lia]. Qed.
Lemma ok_restoreGood : ok (restoreGood s) Trig Trig Post.
Proof. intros p [H Ht]. unfold restoreGood. open_dec H. pose proof (wait_doubled _ co_wait0) as []. repeat split_if; settle. Qed.
Lemma trig_forgetGood p : Trig p -> Trig (forgetGood p).
Proof. intros [H Ht]. unfold forgetGood. split; [open_dec H; repeat split_if; settle | by repeat split_if]. Qed.
Lemma ok_holdInert : ok holdInert Trig Free Post.
Proof. intros p [H Ht]. unfold holdInert. open_dec H. repeat split_if; settle. Qed.
Lemma ok_kickUp : ok (kickUp s) Free Free Post.
Proof. intros p [[H Ht] Hi]. unfold kickUp, dense, kSettlementRecords, kCoarseQuanta. open_dec H. repeat split_if; settle. Qed.
Lemma ok_up : ok (up s) Free Clamped Post.
Proof. intros p [[H Ht] Hi]. unfold up, dense, kSettlementRecords, kCoarseQuanta. open_dec H. repeat split_if; settle. Qed.
Lemma headroom_run p : Dec p -> downWait_ (trial p) <= cleanRun_ (win p) -> headroom (lastWin_ (win p)) = true.
Proof.
  intros H Hw. destruct (headroom _) eqn:E; [done|]. pose proof (dc_clean _ H E).
  destruct H as [[[? [] ? ? ? ? ?] ?] ? ?]. unfold kCleanWindows in *. cbn in *. lia.
Qed.
Lemma ok_down : ok (down s) (fun p => Dec p /\ triggered (lastWin_ (win p)) = false) Clamped Post.
Proof.
  intros p [H Ht]. pose proof (headroom_run p H). unfold down, kCoarseQuanta. open_dec H. repeat split_if; settle.
Qed.
Lemma ok_decideWindow : ok (decideWindow s) Dec Clamped Post.
Proof.
  unfold decideWindow. eapply ok_then; [apply ok_pass, dec_judge|].
  eapply ok_then; [apply ok_pass, dec_baseline|]. eapply ok_then; [apply ok_pass, dec_backoff|].
  eapply ok_then; [apply ok_judgeKick|]. intros p H. cbn beta. destruct (triggered _) eqn:E; [|by apply ok_down].
  revert p H E. enough (ok (restoreGood s ;;; pass forgetGood ;;; holdInert ;;; kickUp s ;;; up s) Trig Clamped Post) as Hk
    by (intros p H E; by apply Hk).
  eapply ok_then; [apply ok_restoreGood|]. eapply ok_then; [apply ok_pass, trig_forgetGood|].
  eapply ok_then; [apply ok_holdInert|]. eapply ok_then; [apply ok_kickUp | apply ok_up].
Qed.

Lemma closed_start p : Mid true p -> closes s p = true -> kWindowMs <= u64 (nowMs s - winStartMs_ (win p0)).
Proof.
  intros H Hc. unfold closes in Hc. bool_solve. destruct (m_start _ _ H) as [<-|E]; [done|].
  rewrite E, Z.sub_diag in Hc. by vm_compute in Hc.
Qed.
Lemma clamped_close t p : Clamped p -> t = nowMs s -> Clamped (closeWindow t p).
Proof.
  intros [H Hle] ->. split.
  - apply mid_core; [apply core_closeWindow | right; unfold closeWindow; by repeat split_if | done].
  - change (c_steps (core (closeWindow (nowMs s) p)) <= c_max (core (closeWindow (nowMs s) p))). by rewrite core_closeWindow.
Qed.
Lemma last_closeWindow t p : lastWin_ (win (closeWindow t p)) = windowOf (holding_ p) (gather_ (win p)).
Proof. unfold closeWindow. by repeat split_if. Qed.
Lemma dec_close p : Clamped p -> closes s p = true -> fixed_ p = false ->
  decided (lastWin_ (win (closeWindow (nowMs s) p))) = true -> Dec (closeWindow (nowMs s) p).
Proof.
  intros H Hc Hf Hd. split; [by apply clamped_close| |].
  - split; [|split; [|split]].
    + destruct H as [H _]. by rewrite <-(m_fixed _ _ H).
    + apply (closed_start p); [by destruct H | done].
    + unfold closeWindow. by repeat split_if.
    + exists (gather_ (win p)). rewrite last_closeWindow in *. split; [unfold closeWindow; by repeat split_if|].
      cbn in Hd. by bool_solve.
  - rewrite last_closeWindow in *. intros Hh. unfold closeWindow. rewrite Hd, Hh. by case_match.
Qed.
Lemma ok_reduced : ok reduced Clamped (fun p => Clamped p /\ fixed_ p = false) Post.
Proof. intros p H. unfold reduced. destruct H as [H ?]. open_mid H. repeat split_if; settle. Qed.
Lemma post_none p : Clamped p -> Post p SNone.
Proof. intros [H ?]. open_mid H. settle. Qed.
Lemma fixed_closeWindow t p : fixed_ (closeWindow t p) = fixed_ p.
Proof. change (c_fixed (core (closeWindow t p)) = c_fixed (core p)). by rewrite core_closeWindow. Qed.
Lemma ok_windowEnd : ok (windowEnd s) Clamped Clamped Post.
Proof.
  intros p H. unfold windowEnd. cbv zeta.
  set (p1 := if closes s p then _ else _).
  assert (H1 : Clamped p1) by (unfold p1; case_match; [by apply clamped_close | done]).
  unfold andThen. pose proof (ok_reduced p1 H1) as Hr. destruct (reduced p1) as [p2 [r|]] eqn:Er; [done|].
  assert (p2 = p1) as -> by (unfold reduced in Er; repeat case_match; congruence).
  destruct Hr as [_ Hf]. destruct (closes s p) eqn:Hc; cbn [negb orb]; [|by apply post_none].
  destruct (decided _) eqn:Hd; [|by apply post_none].
  apply ok_decideWindow. apply dec_close; try done. by rewrite <-(fixed_closeWindow (nowMs s)).
Qed.

Lemma mid_start : Inv p0 -> Mid false p0.
Proof. split; auto; done. Qed.
Lemma update_post : Inv p0 -> let '(p, r) := update s p0 in Post p r.
Proof.
  intros H. unfold update.
  match goal with |- context [?u p0] => assert (ok u (Mid false) Clamped Post) as Hok end.
  { eapply ok_then; [apply ok_pass, mid_prologue|]. eapply ok_then; [apply ok_onFoot|].
    eapply ok_then; [apply ok_pass, mid_clock|]. eapply ok_then; [apply ok_pass, mid_expiry|].
    eapply ok_then; [apply ok_density|]. eapply ok_then; [apply ok_pass, mid_sample|].
    eapply ok_then; [apply ok_pass, mid_partsFrame|]. eapply ok_then; [apply ok_pass, mid_judgeFull|].
    eapply ok_then; [apply ok_pass, mid_retryWhenInert|]. eapply ok_then; [apply ok_aboard|].
    eapply ok_then; [apply ok_clamp | apply ok_windowEnd]. }
  specialize (Hok p0 (mid_start H)). destruct (andThen _ _ p0) as [p [r|]]; [done | by apply post_none].
Qed.
End Update.

(** ** A bound on rounding *)
Lemma fsub_one m e : -23 <= e <= -20 -> 2 ^ 200 <= mag (Zpos m) e <= 8 * 2 ^ 200 ->
  atMost (-150) (7 * 2 ^ 200 + 2 ^ 184) (fsub (S754_finite false m e) (f_of_Z 1)).
Proof.
  intros He Hm. change (f_of_Z 1) with (S754_finite false 8388608 (-23)). unfold fsub. cbn [SFsub cond_Zopp].
  rewrite Z.min_r by lia. change (shl_align 8388608 (-23) (-23)) with (8388608%positive, -23). cbn [fst].
  pose proof (shl_align_mag m e (-23)) as Ha. destruct (shl_align m e (-23)) as [m' e']. cbn [fst].
  destruct Ha as [Ha He']; [lia..|]. rewrite Z.min_r in He' by lia. subst e'. rewrite <-Ha in Hm.
  unfold mag in Hm. change (-23 + 200) with 177 in Hm.
  destruct (Zpos m' - 8388608) as [|M|M] eqn:EM; cbn [binary_normalize]; [done| |lia].
  unfold binary_round. set (x := fexp _ _ _). assert (-150 <= x) by (unfold x, fexp, emin; lia).
  pose proof (shl_align_mag M (-23) x) as Hb. destruct (shl_align M (-23) x) as [mz ez]. destruct Hb as [Hb Hez]; [lia..|].
  assert (mag (Zpos mz) ez <= 7 * 2 ^ 200) as Hz by (rewrite Hb; unfold mag; change (-23 + 200) with 177; lia).
  eapply atMost_mono; [apply (round_atMost 8); lia | lia | lia].
Qed.
Lemma configure_exact m e : -23 <= e <= -20 -> 2 ^ 200 <= mag (Zpos m) e <= 8 * 2 ^ 200 ->
  0 <= llround (fmul (fsub (S754_finite false m e) (f_of_Z 1)) (f_of_Z kQuantaPerUnit)) <= 140.
Proof.
  intros He Hm. pose proof (fsub_one m e He Hm) as Hx. set (x := fsub _ _) in *.
  change (f_of_Z kQuantaPerUnit) with (S754_finite false 10485760 (-19)).
  destruct x as [| | |[] p ep]; [cbn; lia..|by destruct Hx|]. destruct Hx as (_ & Hlo & Hx).
  unfold fmul. cbn [SFmul xorb].
  assert (ep <= 3) as Hep.
  { destruct (Z_le_gt_dec ep 3); [done|]. exfalso. unfold mag in Hx.
    assert (2 ^ 204 <= 2 ^ (ep + 200)) by (apply Z.pow_le_mono_r; lia). nia. }
  assert (mag (Zpos (p * 10485760)) (ep + -19) = 20 * mag (Zpos p) ep) as Em.
  { unfold mag. rewrite Pos2Z.inj_mul. replace (ep + 200) with (19 + (ep + -19 + 200)) by lia.
    rewrite (Z.pow_add_r 2 19) by lia. change (2 ^ 19) with 524288. ring. }
  apply llround_atMost; [lia|]. eapply atMost_mono; [apply (round_atMost 8); lia | lia | lia].
Qed.
Lemma configure_max kMax p : is_float kMax -> 0 <= maxSteps_ (configure kMax p) <= 140.
Proof.
  intros Hf. unfold configure. set (k1 := if negb _ then _ else _). set (k2 := if SFltb _ k1 then _ else k1).
  enough (0 <= llround (fmul (fsub k2 (f_of_Z 1)) (f_of_Z kQuantaPerUnit)) <= 140) by (case_match; done).
  destruct (SFleb (f_of_Z 1) kMax) eqn:E1; [|by vm_compute].
  cbn [negb] in k1. subst k1. destruct (SFltb kMaxCeiling kMax) eqn:E2; [by vm_compute|].
  subst k2. change (f_of_Z 1) with (S754_finite false 8388608 (-23)) in E1.
  change kMaxCeiling with (S754_finite false 8388608 (-20)) in E2.
  destruct kMax as [[]|[]| |[] m e]; try done. unfold SFleb, SFltb in *. cbn [SFcompare] in *.
  unfold is_float in Hf. cbn in Hf. unfold bounded, canonical_mantissa in Hf. bool_solve.
  assert (-23 <= e) as Hlo by (destruct (Z.compare_spec (-23) e); simplify_eq; try done; lia).
  assert (e < -20 \/ e = -20 /\ Zpos m <= 8388608) as Hhi.
  { destruct (Z.compare_spec (-20) e) as [<-| |]; simplify_eq; try done; [|lia]. right. split; [done|].
    enough ((8388608 ?= m)%positive <> Lt) as Hc by (apply Pos.compare_nlt_iff, Pos.le_nlt, Pos2Z.pos_le_pos in Hc; exact Hc).
    intros E. unfold Pos.compare in E. rewrite E in E2. discriminate. }
  assert (Zpos (digits2_pos m) = 24) as Hd by (unfold fexp, emin in *; lia).
  pose proof (digits_low m) as Hl. pose proof (digits_high m) as Hh. rewrite Hd in Hl, Hh.
  apply configure_exact; [lia|]. unfold mag. split.
  - assert (2 ^ 177 <= 2 ^ (e + 200)) by (apply Z.pow_le_mono_r; lia). nia.
  - destruct Hhi as [Hhi|[-> Hm]]; [|change (-20 + 200) with 180; lia].
    assert (2 ^ (e + 200) <= 2 ^ 179) by (apply Z.pow_le_mono_r; lia). nia.
Qed.

(** ** k stays within its range *)
Definition op_ok (o : POp) : Prop :=
  match o with OpConfigure k => is_float k | OpUpdate s => is_u32 (records s) | _ => True end.
Definition InvMax (p : Policy) : Prop := Inv p /\ maxSteps_ p <= 140.
Lemma inv_policy0 : InvMax policy0.
Proof. split; [split|]; unfold kCleanWindows, kCleanWindowsMax; cbn; done || lia. Qed.
Lemma inv_configure k p : is_float k -> InvMax p -> InvMax (configure k p).
Proof.
  intros Hk [H _]. pose proof (configure_max k p Hk) as Hm. split; [|lia]. revert Hm. unfold configure.
  set (m := llround _). clearbody m. destruct H. cbn in *. case_match; bool_solve; intros Hm; split; cbn in *; try done; lia.
Qed.
Lemma inv_apply o p : op_ok o -> InvMax p -> InvMax (papply o p).
Proof.
  intros Ho [H Hm]. destruct o as [k|b| |s]; cbn [papply op_ok] in *; [by apply inv_configure| | |].
  - split; [|done]. destruct H. by split.
  - split; [|done]. destruct H. unfold kCleanWindows, kCleanWindowsMax in *. split; cbn in *; unfold kCleanWindows, kCleanWindowsMax; done || lia.
  - pose proof (update_post s p Ho H) as Hp. destruct (update s p) as [p' r]. destruct Hp as (Hi & _ & He & _).
    split; [done|]. cbn. lia.
Qed.
Lemma inv_run os p : Forall op_ok os -> InvMax p -> InvMax (prun os p).
Proof. intros Ho. revert p. induction Ho as [|o os Ho _ IH]; intros p H; [done|]. by apply IH, inv_apply. Qed.

Lemma update_onFoot s p : s_onFoot s = true -> steps_ (update s p).1 <= 0.
Proof.
  intros H. unfold update, andThen, pass, onFoot, dropToOne. rewrite H. cbv zeta.
  repeat match goal with |- context [if 0 <? ?x then (_, Some _) else _] => destruct (Z.ltb_spec 0 x) end; cbn in *; lia.
Qed.

Definition kOk (m k : nat) : bool :=
  SFleb (f_of_Z 1) (kOf (Z.of_nat k)) && SFleb (kOf (Z.of_nat k)) (kOf (Z.of_nat m)).
Lemma kSweep : forallb (fun m => forallb (kOk m) (seq 0 (S m))) (seq 0 141) = true.
Proof. by vm_compute. Qed.
Lemma kOf_range k m : 0 <= k <= m -> m <= 140 ->
  SFleb (f_of_Z 1) (kOf k) = true /\ SFleb (kOf k) (kOf m) = true.
Proof.
  intros. apply andb_true_iff. enough (kOk (Z.to_nat m) (Z.to_nat k) = true) as Hk
    by (unfold kOk in Hk; by rewrite !Z2Nat.id in Hk by lia).
  pose proof (proj1 (forallb_forall _ _) kSweep (Z.to_nat m)) as Hs. cbn beta in Hs.
  rewrite forallb_forall in Hs. apply Hs; apply in_seq; lia.
Qed.

(** C33. Whatever the calls before (a new ceiling at any time, reduced on or
    off, a reset, frames of any content), after [update] the factor is within
    its range, 0 <= steps <= max <= 140 and so 1 <= k <= k_max in binary32, and
    it is above 1 only inside a settlement and not on foot. *)
Theorem k_bounded (os : list POp) (s : FrameSignals) :
  Forall op_ok os -> is_u32 (records s) ->
  let p := (update s (prun os policy0)).1 in
  0 <= steps_ p <= maxSteps_ p /\ maxSteps_ p <= 140 /\
  SFleb (f_of_Z 1) (kOf (steps_ p)) = true /\ SFleb (kOf (steps_ p)) (kOf (maxSteps_ p)) = true /\
  (0 < steps_ p -> inSettlement_ p = true /\ s_onFoot s = false).
Proof.
  intros Ho Hs. destruct (inv_run os policy0 Ho inv_policy0) as [Hi Hm].
  pose proof (update_post s _ Hs Hi) as Hp. pose proof (update_onFoot s (prun os policy0)) as Hf.
  destruct (update s _) as [p r]. cbn [fst] in *. destruct Hp as (Hi' & Hle & He & _).
  pose proof (co_steps _ Hi') as H0. pose proof (co_in _ Hi') as Hin. cbn in H0, Hin.
  pose proof (kOf_range (steps_ p) (maxSteps_ p)) as []; [lia..|].
  repeat split; try done; try lia; [by apply Hin|]. destruct (s_onFoot s); [specialize (Hf eq_refl); lia | done].
Qed.


(** ** The ring of samples *)
Definition flagged (f : Sample -> bool) (l : list Sample) : Z := Z.of_nat (length (List.filter f l)).
Record RingOk (r : Ring) : Prop := {
  ro_length : length (samples_ r) = 30%nat;
  ro_next : (next_ r < 30)%nat;
  ro_count : 0 <= count_ r <= 30;
  ro_miss : missCount_ r = flagged miss (ringSamples r);
  ro_gpu : gpuCount_ r = flagged gpu (ringSamples r);
  ro_unex : unexCount_ r = flagged unex (ringSamples r) }.

Lemma ring_index next i : (next < 30)%nat -> (i < 30)%nat ->
  ((next + 30 - 1 - i) mod 30 = if i <? next then next - 1 - i else next + 29 - i)%nat.
Proof.
  intros. destruct (Nat.ltb_spec i next).
  - replace (next + 30 - 1 - i)%nat with (next - 1 - i + 1 * 30)%nat by lia.
    rewrite Nat.Div0.mod_add. apply Nat.mod_small. lia.
  - rewrite Nat.mod_small by lia. lia.
Qed.
Lemma next_index next : (next < 30)%nat -> ((next + 1) mod 30 = if next =? 29 then 0 else next + 1)%nat.
Proof. intros. destruct (Nat.eqb_spec next 29) as [->|]; [done|]. apply Nat.mod_small. lia. Qed.
Lemma latest_push {A} (d : A) l next count x : length l = 30%nat -> (next < 30)%nat -> 0 <= count <= 30 ->
  latest d (<[next := x]> l) (Nat.modulo (next + 1) 30) (Z.min (count + 1) 30) = firstn 30 (x :: latest d l next count).
Proof.
  intros Hl Hn Hc. unfold latest. replace (Z.to_nat (Z.min (count + 1) 30)) with (S (Nat.min 29 (Z.to_nat count))) by lia.
  cbn [seq map firstn]. rewrite firstn_map, take_seq, <-seq_shift, map_map.
  set (next' := Nat.modulo (next + 1) 30). assert (next' < 30)%nat as Hn' by (apply Nat.mod_upper_bound; lia).
  pose proof (next_index next Hn) as He. fold next' in He. f_equal.
  - rewrite ring_index by lia. apply nth_lookup_Some.
    match goal with |- _ !! ?i = _ => replace i with next end.
    2: { repeat case_match; rewrite ?Nat.ltb_lt, ?Nat.ltb_ge, ?Nat.eqb_eq, ?Nat.eqb_neq in *; lia. }
    apply list_lookup_insert_eq. lia.
  - apply map_ext_in. intros i Hi. apply in_seq in Hi. rewrite !ring_index by lia.
    match goal with |- nth ?a _ _ = nth ?b _ _ => assert (a = b /\ a <> next) as [-> Hne] end.
    { repeat case_match; rewrite ?Nat.ltb_lt, ?Nat.ltb_ge, ?Nat.eqb_eq, ?Nat.eqb_neq in *; lia. }
    rewrite !nth_lookup. by rewrite list_lookup_insert_ne.
Qed.
Lemma latest_full {A} (d : A) l next : (next < 30)%nat ->
  latest d l next 30 = firstn 29 (latest d l next 30) ++ [nth next l d].
Proof.
  intros. unfold latest. change (Z.to_nat 30) with (29 + 1)%nat. rewrite seq_app, map_app.
  rewrite firstn_app, length_map, length_seq, firstn_map, take_seq. cbn [Nat.add Nat.sub Nat.min seq map firstn].
  rewrite app_nil_r. f_equal. f_equal. rewrite ring_index by lia. f_equal.
  destruct (Nat.ltb_spec 29 next); lia.
Qed.

Lemma flagged_cons f x l : flagged f (x :: l) = flagged f l + if f x then 1 else 0.
Proof. unfold flagged. cbn [List.filter]. case_match; cbn [length]; lia. Qed.
Lemma flagged_app f l k : flagged f (l ++ k) = flagged f l + flagged f k.
Proof. unfold flagged. rewrite List.filter_app, length_app. lia. Qed.
Lemma flagged_range f l : 0 <= flagged f l <= Z.of_nat (length l).
Proof. unfold flagged. pose proof (List.filter_length_le f l). lia. Qed.
Lemma ringSamples_push x r : RingOk r -> ringSamples (pushRing x r) = firstn 30 (x :: ringSamples r).
Proof.
  intros [Hl Hn Hc _ _ _]. unfold pushRing, ringSamples, kSampleWindow. rewrite <-latest_push by done.
  destruct (count_ r =? _) eqn:E; bool_solve; cbn; f_equal; [lia|]. unfold incIf. rewrite u32_small; [lia|].
  unfold is_u32, u32_max. lia.
Qed.
(** One flag's counter over one push. *)
Lemma count_push (f : Sample -> bool) x r (c : Z) : RingOk r -> c = flagged f (ringSamples r) ->
  incIf (f x) (if count_ r =? 30 then decIf (f (nth (next_ r) (samples_ r) sample0)) c else c)
  = flagged f (firstn 30 (x :: ringSamples r)).
Proof.
  intros [Hl Hn Hc _ _ _] ->. unfold ringSamples in *. cbn [firstn]. rewrite flagged_cons.
  set (l := latest _ _ _ _). assert (length l <= 30)%nat as Hle by (unfold l, latest; rewrite length_map, length_seq; lia).
  assert (forall z, 0 <= z <= 30 -> is_u32 z) as Hu by (unfold is_u32, u32_max; lia).
  pose proof (flagged_range f l). destruct (Z.eqb_spec (count_ r) 30) as [E|E].
  - pose proof (latest_full sample0 (samples_ r) (next_ r) Hn) as Hf. rewrite <-E in Hf. fold l in Hf.
    set (old := nth _ _ _) in *. rewrite Hf at 1. rewrite flagged_app, flagged_cons.
    pose proof (flagged_range f (firstn 29 l)). pose proof (firstn_le_length 29 l). pose proof (length_firstn 29 l).
    change (flagged f []) with 0. unfold incIf, decIf. destruct (f old), (f x); rewrite ?u32_small by (try apply Hu; rewrite ?u32_small by (apply Hu; lia); lia); lia.
  - rewrite firstn_all2 by (unfold l, latest; rewrite length_map, length_seq; lia).
    unfold incIf. destruct (f x); [|lia]. apply u32_small. unfold is_u32, u32_max. lia.
Qed.
Lemma ringOk_push x r : RingOk r -> RingOk (pushRing x r).
Proof.
  intros H. split; [| | |rewrite ringSamples_push, <-(count_push _ x r _ H) by (done || apply H)..];
    unfold pushRing, kSampleWindow; change (Z.of_nat 30) with 30; destruct H as [Hl Hn Hc Hm Hg Hu];
    destruct (count_ r =? 30) eqn:E; bool_solve; cbn; rewrite ?length_insert, ?Hm, ?Hg, ?Hu; try done; try lia;
    try (apply Nat.mod_upper_bound; lia).
  unfold incIf. rewrite u32_small; [lia|]. unfold is_u32, u32_max. lia.
Qed.
Lemma ringOk_empty r : RingOk r -> RingOk (r <| count_ := 0 |> <| missCount_ := 0 |> <| gpuCount_ := 0 |> <| unexCount_ := 0 |>).
Proof. intros []. split; try done. Qed.

Definition keepsRing (u : Upd) : Prop := forall p, RingOk (ring p) -> RingOk (ring (u p).1).
Lemma keeps_then u v : keepsRing u -> keepsRing v -> keepsRing (u ;;; v).
Proof. intros Hu Hv p H. unfold andThen. specialize (Hu p H). destruct (u p) as [p1 [r|]]; [done|]. by apply Hv. Qed.
Lemma keeps_same u : (forall p, ring (u p).1 = ring p) -> keepsRing u.
Proof. intros H p. by rewrite H. Qed.
Ltac same f := apply keeps_same; let q := fresh in intros q; unfold f, pass; cbn [fst]; repeat case_match; simplify_eq; done.
Lemma ring_judgeEffect t p : ring (judgeEffect t p) = ring p.
Proof. unfold judgeEffect. by destruct (judgedAs p). Qed.
Lemma keeps_onFoot s : keepsRing (onFoot s).
Proof. intros p H. unfold onFoot, dropToOne. repeat split_if; done || by apply ringOk_empty in H. Qed.
Lemma keeps_density s : keepsRing (density s).
Proof. intros p H. unfold density, dropToOne. repeat split_if; done || by apply ringOk_empty in H. Qed.
Lemma keeps_expiry s : keepsRing (pass (expiry s)).
Proof. intros p H. unfold pass, expiry. cbn [fst]. split_if; [by apply ringOk_empty in H | done]. Qed.
Lemma keeps_sample s : keepsRing (pass (sample s)).
Proof.
  intros p H. unfold pass, sample. cbn [fst]. split_if; [|done]. cbv zeta.
  repeat case_match; by apply ringOk_push.
Qed.
Lemma keeps_judge (b : Policy -> bool) t : keepsRing (pass (fun p => if b p then judgeEffect t p else p)).
Proof. apply keeps_same. intros p. unfold pass. cbn [fst]. case_match; [apply ring_judgeEffect | done]. Qed.
Lemma keeps_down s : keepsRing (down s).
Proof. same down. Qed.
Lemma keeps_triggered s : keepsRing (restoreGood s ;;; pass forgetGood ;;; holdInert ;;; kickUp s ;;; up s).
Proof.
  apply keeps_then; [same restoreGood|]. apply keeps_then; [same forgetGood|].
  apply keeps_then; [same holdInert|]. apply keeps_then; [same kickUp | same up].
Qed.
Lemma keeps_decideWindow s : keepsRing (decideWindow s).
Proof.
  apply keeps_then; [apply keeps_judge|]. apply keeps_then; [same baseline|]. apply keeps_then; [same backoff|].
  apply keeps_then; [same judgeKick|]. intros q Hq. case_match; [by apply keeps_triggered | by apply keeps_down].
Qed.
Lemma keeps_windowEnd s : keepsRing (windowEnd s).
Proof.
  intros p H. unfold windowEnd. cbv zeta. set (p1 := if closes s p then _ else _).
  assert (ring p1 = ring p) as H1 by (unfold p1, closeWindow; by repeat case_match). rewrite <-H1 in H.
  apply keeps_then; [same reduced| |done]. intros q Hq. case_match; [done | by apply keeps_decideWindow].
Qed.
Lemma keeps_update s p : RingOk (ring p) -> RingOk (ring (update s p).1).
Proof.
  intros H. unfold update.
  match goal with |- context [?u p] => assert (keepsRing u) as Hk end.
  { apply keeps_then; [same prologue|]. apply keeps_then; [apply keeps_onFoot|]. apply keeps_then; [same clock|].
    apply keeps_then; [apply keeps_expiry|]. apply keeps_then; [apply keeps_density|]. apply keeps_then; [apply keeps_sample|].
    apply keeps_then; [same partsFrame|]. apply keeps_then; [unfold judgeFull; apply (keeps_judge (fun p => _))|].
    apply keeps_then; [same retryWhenInert|]. apply keeps_then; [same aboard|].
    apply keeps_then; [same clamp | apply keeps_windowEnd]. }
  specialize (Hk p H). by destruct (andThen _ _ p).
Qed.

Lemma ringOk0 : RingOk ring0.
Proof. split; try done; cbn; lia. Qed.
Lemma keeps_apply o p : RingOk (ring p) -> RingOk (ring (papply o p)).
Proof.
  intros H. destruct o; cbn [papply]; [unfold configure; by repeat case_match | done | apply ringOk0 | by apply keeps_update].
Qed.

(** C35. The ring behind the displayed figures is exact after any history:
    each sample joins at the front, the oldest of more than 30 leaves, and the
    three counters are the numbers of CPU, GPU-bound and unexplained misses among
    the samples held (they never wrap). *)
Theorem ring_exact (os : list POp) :
  let r := ring (prun os policy0) in
  Z.of_nat (length (ringSamples r)) = count_ r /\ count_ r <= 30 /\
  missCount_ r = flagged miss (ringSamples r) /\ gpuCount_ r = flagged gpu (ringSamples r) /\
  unexCount_ r = flagged unex (ringSamples r) /\
  forall x, ringSamples (pushRing x r) = firstn 30 (x :: ringSamples r).
Proof.
  assert (forall p, RingOk (ring p) -> RingOk (ring (prun os p))) as Hr.
  { induction os as [|o os IH]; intros p H; [done|]. by apply IH, keeps_apply. }
  specialize (Hr policy0). destruct (Hr ringOk0) as [Hl Hn Hc Hm Hg Hu].
  repeat split; try done; try lia; [unfold ringSamples, latest; rewrite length_map, length_seq; lia|].
  intros x. by apply ringSamples_push.
Qed.

(** ** Concrete frames *)
(** Frame [i] of a dense settlement at 22 ms a frame, 7 ms of caller work over a period of 11 ms: two slots, the CPU's. *)
Definition demoFrame (i : nat) : FrameSignals :=
  let t := 22 * Z.of_nat i in
  mkSignals 300 false WValid SrcCaller false false 5 (d_of_Z 18) (d_of_Z 11) t (d_of_Z t)
    false d_zero 500 400 100 false cam0.
Definition demo (n : nat) : list POp := OpConfigure (f_of_Z 3) :: map (fun i => OpUpdate (demoFrame i)) (seq 0 n).
Example demo_up : (update (demoFrame 46) (prun (demo 46) policy0)).2 = SUp /\
  steps_ (update (demoFrame 46) (prun (demo 46) policy0)).1 = 5 /\ maxSteps_ (prun (demo 46) policy0) = 40.
Proof. by vm_compute. Qed.
(** Eleven seconds of it: two steps of 0.25 removed nothing, so the lever is inert at this view and k holds. *)
Example demo_inert : let p := prun (demo 500) policy0 in
  steps_ p = 10 /\ inert_ (lever p) = true /\ missCount_ (ring p) = 30.
Proof. by vm_compute. Qed.
Lemma demo_ok n : Forall op_ok (demo n).
Proof.
  constructor; [done|]. induction (seq 0 n) as [|i l IH]; constructor; [|exact IH].
  cbn. unfold is_u32, u32_max. lia.
Defined.
Lemma demo_u32 i : is_u32 (records (demoFrame i)).
Proof. cbn. unfold is_u32, u32_max. lia. Defined.
Lemma k_bounded_witness :
  let p := (update (demoFrame 46) (prun (demo 46) policy0)).1 in
  0 <= steps_ p <= maxSteps_ p /\ maxSteps_ p <= 140 /\ steps_ p = 5.
Proof.
  destruct (k_bounded (demo 46) (demoFrame 46) (demo_ok 46) (demo_u32 46)) as (H1 & H2 & _).
  split; [exact H1|]. split; [exact H2 | by vm_compute].
Defined.
