(* ===== verification/CodeDecoder.v ===== *)
(** The decoder of prologue instructions (src/src/common/code_hook.cpp,
    [codeInstructionLength]): how long the instruction at an address is, and where
    its rip-relative displacement lies.  Memory is a function from addresses to
    bytes.

    [X86] is the reference: the instruction format of the architecture, by table,
    for a set of opcodes that contains those the decoder lists. *)
From S2P Require Import Prelude.
Open Scope Z_scope.

Definition Bytes : Type := Z -> Z.

(** ** The decoder *)
Definition between (a b x : Z) : bool := (a <=? x) && (x <=? b).
Definition isRexPrefix (b : Z) : bool := between 0x40 0x4F b.
(** Whether it can be moved, whether it is rip-relative, and its size. *)
Definition modrmSize (modrm : Z) : bool * bool * Z :=
  let md := Z.shiftr modrm 6 in
  let rm := Z.land modrm 7 in
  if md =? 3 then (true, false, 1)
  else
    let extra := if rm =? 4 then 2 else 1 in
    if md =? 0 then
      if rm =? 5 then (true, true, extra + 4)
      else if rm =? 4 then (false, false, extra)
      else (true, false, extra)
    else if md =? 1 then (true, false, extra + 1)
    else if md =? 2 then (true, false, extra + 4)
    else (true, false, extra).
(** The ModRM byte at [i] and [imm] bytes of immediate: length and the offset of
    a rip-relative displacement. *)
Definition modrmTail (code : Bytes) (available i imm : Z) : Z * Z :=
  if available <=? i then (0, 0)
  else
    let '(ok, rip, extra) := modrmSize (code i) in
    if negb ok then (0, 0)
    else
      let e := i + extra + imm in
      (if e <=? available then e else 0, if rip then i + 1 else 0).
Definition modrmOpcodes : list Z :=
  [0x88; 0x89; 0x8A; 0x8B; 0x8D; 0x00; 0x01; 0x02; 0x03; 0x08; 0x09; 0x0A; 0x0B; 0x20; 0x21; 0x22; 0x23;
   0x28; 0x29; 0x2A; 0x2B; 0x30; 0x31; 0x32; 0x33; 0x38; 0x39; 0x3A; 0x3B; 0xFE; 0xFF; 0x84; 0x85].
(** The instruction whose opcode [op] ends at [i]. *)
Definition opcodeLength (code : Bytes) (available op i : Z) : Z * Z :=
  if between 0x50 0x5F op then (i, 0)
  else if existsb (Z.eqb op) modrmOpcodes then modrmTail code available i 0
  else if op =? 0x83 then modrmTail code available i 1
  else if op =? 0x81 then modrmTail code available i 4
  else if between 0xB8 0xBF op then
    let wide := (2 <=? i) && isRexPrefix (code (i - 2)) && negb (Z.land (code (i - 2)) 0x08 =? 0) in
    let e := i + (if wide then 8 else 4) in
    (if e <=? available then e else 0, 0)
  else if op =? 0x90 then (i, 0)
  else if op =? 0x0F then
    if (i <? available) && (code i =? 0x1F) then modrmTail code available (i + 1) 0 else (0, 0)
  else (0, 0).
(** How many prefix bytes: 66, then REX. *)
Definition prefixLength (code : Bytes) (available : Z) : Z :=
  let i := if (0 <? available) && (code 0 =? 0x66) then 1 else 0 in
  if (i <? available) && isRexPrefix (code i) then i + 1 else i.
(** The length and [*ripDispOffset]; no code is the null pointer. *)
Definition codeInstructionLength (code : option Bytes) (available : Z) : Z * Z :=
  match code with
  | None => (0, 0)
  | Some code =>
      if available =? 0 then (0, 0)
      else
        let i := prefixLength code available in
        if available <=? i then (0, 0) else opcodeLength code available (code i) (i + 1)
  end.

(** ** The reference: the architecture's instruction format (64-bit mode) for a
    table that includes the decoder's opcodes. *)
Module X86.
(** The immediate: none, a byte, 16 or 32 bits, or as wide as the operand. *)
Inductive Imm := NoImm | Ib | Iz | Iv.
(** Has a ModRM byte; its immediate. *)
Definition oneByte (op : Z) : option (bool * Imm) :=
  if (op <? 0x40) && (op mod 8 <? 4) then Some (true, NoImm)            (* the eight ALU operations, r/m and r *)
  else if between 0x50 0x5F op then Some (false, NoImm)                  (* push, pop *)
  else if (op =? 0x80) || (op =? 0x83) then Some (true, Ib)              (* group 1 *)
  else if op =? 0x81 then Some (true, Iz)
  else if between 0x84 0x8B op || (op =? 0x8D) then Some (true, NoImm)   (* test, xchg, mov, lea *)
  else if op =? 0x90 then Some (false, NoImm)
  else if between 0xB8 0xBF op then Some (false, Iv)                     (* mov r, imm *)
  else if (op =? 0xFE) || (op =? 0xFF) then Some (true, NoImm)           (* groups 4 and 5 *)
  else None.
Definition twoByte (op : Z) : option (bool * Imm) := if op =? 0x1F then Some (true, NoImm) else None.
Definition operandSize (p66 w : bool) : Z := if w then 64 else if p66 then 16 else 32.
Definition immBytes (i : Imm) (size : Z) : Z :=
  match i with NoImm => 0 | Ib => 1 | Iz => if size =? 16 then 2 else 4 | Iv => if size =? 64 then 8 else if size =? 16 then 2 else 4 end.
(** SIB and displacement, after the ModRM byte. *)
Definition memBytes (md rm base : Z) : Z :=
  if md =? 3 then 0
  else (if rm =? 4 then 1 else 0) +
       (if md =? 1 then 1 else if md =? 2 then 4 else if (rm =? 5) || (rm =? 4) && (base =? 5) then 4 else 0).
(** The length and where a rip-relative displacement is. *)
Definition instruction (code : Bytes) : option (Z * option Z) :=
  let p66 := code 0 =? 0x66 in
  let i := if p66 then 1 else 0 in
  let rex := between 0x40 0x4F (code i) in
  let w := rex && negb (Z.land (code i) 8 =? 0) in
  let j := if rex then i + 1 else i in
  let '(f, k) := if code j =? 0x0F then (twoByte (code (j + 1)), j + 2) else (oneByte (code j), j + 1) in
  match f with
  | None => None
  | Some (modrm, imm) =>
      let md := Z.shiftr (code k) 6 in
      let rm := Z.land (code k) 7 in
      let m := if modrm then 1 + memBytes md rm (Z.land (code (k + 1)) 7) else 0 in
      Some (k + m + immBytes imm (operandSize p66 w), if modrm && (md =? 0) && (rm =? 5) then Some (k + 1) else None)
  end.
(** An immediate that the 66 prefix makes 16 bits wide. *)
Definition shortImm (code : Bytes) : bool :=
  let i := if code 0 =? 0x66 then 1 else 0 in
  let rex := between 0x40 0x4F (code i) in
  let op := code (if rex then i + 1 else i) in
  (code 0 =? 0x66) && negb (rex && negb (Z.land (code i) 8 =? 0)) && ((op =? 0x81) || between 0xB8 0xBF op).
End X86.
Definition isByte (b : Z) : Prop := 0 <= b < 256.

(** The memory operand, read by the decoder and by the table. *)
Lemma modrmTail_spec code av k imm n d : isByte (code k) -> modrmTail code av k imm = (n, d) -> n <> 0 ->
  n = k + 1 + X86.memBytes (Z.shiftr (code k) 6) (Z.land (code k) 7) (Z.land (code (k + 1)) 7) + imm /\ n <= av /\
  d = (if (Z.shiftr (code k) 6 =? 0) && (Z.land (code k) 7 =? 5) then k + 1 else 0).
Proof.
  intros Hb. assert (0 <= Z.shiftr (code k) 6 <= 3) as Hm.
  { rewrite Z.shiftr_div_pow2 by lia. unfold isByte in Hb. change (2 ^ 6) with 64. Z.div_mod_to_equations. lia. }
  unfold modrmTail, modrmSize, X86.memBytes. intros E Hn. revert E Hm.
  generalize (Z.shiftr (code k) 6) as md, (Z.land (code k) 7) as rm. intros md rm E Hm.
  repeat case_match; bool_solve; simplify_eq/=; try done; try lia.
Qed.

Lemma between_in a b x : between a b x = true -> In x (map (fun k => a + Z.of_nat k) (seq 0 (Z.to_nat (b - a + 1)))).
Proof.
  unfold between. intros. bool_solve. apply in_map_iff. exists (Z.to_nat (x - a)). split; [lia|]. apply in_seq. lia.
Qed.
(** Every opcode of a finite set: the table computes. *)
Ltac each_opcode Hx := cbn in Hx; repeat destruct Hx as [<-|Hx]; try done; cbn; rewrite ?andb_false_r, ?andb_true_r; split_and!; try done; try lia.

(** The opcode, read by the decoder and by the table. *)
Lemma opcodeLength_spec code av j p66 w n d : (forall i, isByte (code i)) -> j + 1 <= av ->
  w = (2 <=? j + 1) && isRexPrefix (code (j + 1 - 2)) && negb (Z.land (code (j + 1 - 2)) 8 =? 0) ->
  opcodeLength code av (code j) (j + 1) = (n, d) -> n <> 0 -> n <= av /\ exists modrm imm k,
    (if code j =? 0x0F then (X86.twoByte (code (j + 1)), j + 2) else (X86.oneByte (code j), j + 1)) = (Some (modrm, imm), k) /\
    n - (if p66 && negb w && ((code j =? 0x81) || between 0xB8 0xBF (code j)) then 2 else 0) =
      k + (if modrm then 1 + X86.memBytes (Z.shiftr (code k) 6) (Z.land (code k) 7) (Z.land (code (k + 1)) 7) else 0) +
      X86.immBytes imm (X86.operandSize p66 w) /\
    d = (if modrm && (Z.shiftr (code k) 6 =? 0) && (Z.land (code k) 7 =? 5) then k + 1 else 0).
Proof.
  intros Hb Hj Hw. unfold opcodeLength. rewrite <-Hw. clear Hw. generalize dependent (code j). intros op.
  destruct (between 0x50 0x5F op) eqn:E1.
  { intros [= <- <-] _. split; [done|]. exists false, X86.NoImm, (j + 1). apply between_in in E1. each_opcode E1. }
  destruct (existsb (Z.eqb op) modrmOpcodes) eqn:E2.
  { apply existsb_exists in E2 as (x & Hx & <-%Z.eqb_eq). intros E Hn.
    destruct (modrmTail_spec _ _ _ _ _ _ (Hb _) E Hn) as (H1 & H2 & H3). split; [done|].
    exists true, X86.NoImm, (j + 1). each_opcode Hx. }
  destruct (Z.eqb_spec op 0x83) as [->|].
  { intros E Hn. destruct (modrmTail_spec _ _ _ _ _ _ (Hb _) E Hn) as (H1 & H2 & H3). split; [done|].
    exists true, X86.Ib, (j + 1). cbn. rewrite ?andb_false_r. split_and!; try done; lia. }
  destruct (Z.eqb_spec op 0x81) as [->|].
  { intros E Hn. destruct (modrmTail_spec _ _ _ _ _ _ (Hb _) E Hn) as (H1 & H2 & H3). split; [done|].
    exists true, X86.Iz, (j + 1). cbn. destruct p66, w; cbn; split_and!; try done; lia. }
  destruct (between 0xB8 0xBF op) eqn:E5.
  { intros [= <- <-] Hn. split; [destruct w; case_match; bool_solve; lia|]. exists false, X86.Iv, (j + 1).
    destruct (_ <=? av); [|done]. apply between_in in E5. destruct p66, w; each_opcode E5. }
  destruct (Z.eqb_spec op 0x90) as [->|].
  { intros [= <- <-] _. split; [done|]. exists false, X86.NoImm, (j + 1). cbn. rewrite ?andb_false_r. split_and!; try done; lia. }
  destruct (Z.eqb_spec op 0x0F) as [->|]; [|by intros [= <- <-]].
  destruct ((j + 1 <? av) && (code (j + 1) =? 0x1F)) eqn:E8; [|by intros [= <- <-]].
  apply andb_true_iff in E8 as [_ E8%Z.eqb_eq]. intros E Hn. destruct (modrmTail_spec _ _ _ _ _ _ (Hb _) E Hn) as (H1 & H2 & H3). split; [done|].
  exists true, X86.NoImm, (j + 2). replace (j + 1 + 1) with (j + 2) in * by lia.
  rewrite E8. cbn. rewrite ?andb_false_r. split_and!; try done; lia.
Qed.

Definition wrongBy (code : Bytes) : Z := if X86.shortImm code then 2 else 0.
(** C25. Where the decoder answers a length, that length lies within the bytes
    offered and is the instruction's own, by the architecture's format table, and
    the offset it reports is that of the rip-relative displacement, if there is
    one; except that an immediate made 16 bits wide by the 66 prefix is taken for
    32 bits, which makes the answer two bytes too long. *)
Theorem decoder_length code av n d (Hav : 0 < av) (Hb : forall i, isByte (code i))
  (E : codeInstructionLength (Some code) av = (n, d)) (Hn : n <> 0) :
  n <= av /\ X86.instruction code = Some (n - wrongBy code, if d =? 0 then None else Some d).
Proof.
  revert E. unfold codeInstructionLength, prefixLength. rewrite (proj2 (Z.eqb_neq av 0)), (proj2 (Z.ltb_lt 0 av)) by lia. cbn [andb].
  unfold X86.instruction, wrongBy, X86.shortImm.
  set (p66 := code 0 =? 0x66). set (i := if p66 then 1 else 0). set (rex := between 0x40 0x4F (code i)).
  set (j := if rex then i + 1 else i). set (w := rex && negb (Z.land (code i) 8 =? 0)).
  unfold isRexPrefix. destruct (Z.ltb_spec i av) as [Hi|Hi]; cbn [andb];
    [|rewrite (proj2 (Z.leb_le _ _)) by done; by intros [= <- <-]].
  fold rex. fold j. destruct (Z.leb_spec av j) as [Hj|Hj]; [by intros [= <- <-]|]. intros E.
  assert (w = (2 <=? j + 1) && isRexPrefix (code (j + 1 - 2)) && negb (Z.land (code (j + 1 - 2)) 8 =? 0)) as Hw.
  { unfold w, isRexPrefix, j, rex. destruct (between 64 79 (code i)) eqn:Er.
    - replace (i + 1 + 1 - 2) with i by lia. rewrite Er, (proj2 (Z.leb_le 2 _)); [done|]. unfold i. destruct p66; lia.
    - unfold i, p66. destruct (code 0 =? 102) eqn:E0; [|done]. apply Z.eqb_eq in E0. change (1 + 1 - 2) with 0. by rewrite E0. }
  destruct (opcodeLength_spec code av j p66 w n d Hb ltac:(lia) Hw E Hn) as (H1 & modrm & imm & k & H2 & H3 & H4).
  split; [done|]. rewrite H2, H3, H4. f_equal. f_equal. destruct (modrm && _ && _); [|done].
  rewrite (proj2 (Z.eqb_neq _ _)); [done|]. assert (0 <= j) by (unfold j, i; destruct rex, p66; lia).
  destruct (code j =? 15); simplify_eq; lia.
Qed.


(** The decoder reads none but the [available] bytes. *)
Lemma modrmTail_local c1 c2 av i imm : (forall i, 0 <= i < av -> c1 i = c2 i) -> 0 <= i -> modrmTail c1 av i imm = modrmTail c2 av i imm.
Proof. intros H Hi. unfold modrmTail. destruct (Z.leb_spec av i); [done|]. by rewrite H by lia. Qed.
Lemma opcodeLength_local c1 c2 av op i : (forall i, 0 <= i < av -> c1 i = c2 i) -> 0 <= i <= av ->
  opcodeLength c1 av op i = opcodeLength c2 av op i.
Proof.
  intros H Hi. unfold opcodeLength. rewrite !(modrmTail_local c1 c2) by (done || lia).
  assert ((i <? av) && (c1 i =? 31) = (i <? av) && (c2 i =? 31)) as ->.
  { destruct (Z.ltb_spec i av); [by rewrite H by lia|done]. }
  destruct (Z.leb_spec 2 i); [by rewrite (H (i - 2)) by lia|done].
Qed.
Lemma prefixLength_local c1 c2 av : (forall i, 0 <= i < av -> c1 i = c2 i) -> prefixLength c1 av = prefixLength c2 av /\ 0 <= prefixLength c1 av.
Proof.
  intros H. assert (forall i (f : Z -> bool), 0 <= i -> (i <? av) && f (c1 i) = (i <? av) && f (c2 i)) as He.
  { intros i f Hi. destruct (Z.ltb_spec i av); [by rewrite H by lia|done]. }
  unfold prefixLength. rewrite (He 0 (fun b => b =? 102)) by lia.
  set (i := if (0 <? av) && (c2 0 =? 102) then 1 else 0). assert (0 <= i) by (unfold i; case_match; lia).
  rewrite (He i) by done. split; [done|]. case_match; lia.
Qed.
(** The decoder never reads past the bytes it is offered: its answer is the
    same for any code that agrees on them. *)
Theorem decoder_reads_in_bounds c1 c2 av (H : forall i, 0 <= i < av -> c1 i = c2 i) :
  0 <= av -> codeInstructionLength (Some c1) av = codeInstructionLength (Some c2) av.
Proof.
  intros Hav. unfold codeInstructionLength. destruct (av =? 0); [done|]. destruct (prefixLength_local c1 c2 av H) as [Hp Hp0].
  rewrite <-Hp. destruct (Z.leb_spec av (prefixLength c1 av)); [done|].
  rewrite (H (prefixLength c1 av)) by lia. apply opcodeLength_local; [done|lia].
Qed.
(** The bytes of a list, zeros after. *)
Definition codeOf (bs : list Z) : Bytes := fun i => if i <? 0 then 0 else nth (Z.to_nat i) bs 0.
(** add sp, 0x100 with a 16-bit immediate has five bytes; the decoder says seven. *)
Theorem size_prefix_misread : let code := codeOf [0x66; 0x81; 0xC4; 0x00; 0x01] in
  X86.instruction code = Some (5, None) /\ codeInstructionLength (Some code) 16 = (7, 0).
Proof. by vm_compute. Qed.
(** jmp and call through memory, which the header says are refused, are moved. *)
Theorem indirect_jump_accepted :
  codeInstructionLength (Some (codeOf [0xFF; 0x25; 0; 0; 0; 0])) 16 = (6, 2) /\
  codeInstructionLength (Some (codeOf [0xFF; 0x15; 0; 0; 0; 0])) 16 = (6, 2).
Proof. by vm_compute. Qed.

Lemma codeOf_bytes bs : Forall isByte bs -> forall i, isByte (codeOf bs i).
Proof.
  intros H i. unfold codeOf. destruct (i <? 0); [unfold isByte; lia|]. rewrite List.Forall_forall in H.
  destruct (nth_in_or_default (Z.to_nat i) bs 0) as [Hi| ->]; [by apply H | unfold isByte; lia].
Qed.
Lemma decoder_length_witness : X86.instruction (codeOf [0x48; 0x83; 0xEC; 0x28]) = Some (4, None).
Proof.
  destruct (decoder_length (codeOf [0x48; 0x83; 0xEC; 0x28]) 16 4 0) as [_ H]; [done| |done|done|exact H].
  apply codeOf_bytes. repeat constructor; done.
Defined.
Lemma decoder_reads_in_bounds_witness :
  codeInstructionLength (Some (codeOf [0x55; 1])) 1 = codeInstructionLength (Some (codeOf [0x55; 2])) 1.
Proof.
  apply decoder_reads_in_bounds; [|done]. intros i Hi. assert (i = 0) as -> by lia. done.
Defined.
