(* ===== verification/CodeHook.v ===== *)
(** Hooks on a function's own code (src/src/common/code_hook.h, code_hook.cpp):
    moving the first instructions of a function to a trampoline, redirecting the
    function to a replacement by one eight-byte store, and putting it back.

    Windows, the faults that [guarded] contains and the caller's [prepare] answer
    as they please, from the log of the calls made.  Threads that run the target
    meanwhile see the one store or not, so they have no step. *)
From S2P Require Import Prelude CodeDecoder.
Open Scope Z_scope.

(** ** Bytes and signed words *)
Definition readN (m : Bytes) (a : Z) (n : nat) : list Z := map (fun i => m (a + Z.of_nat i)) (seq 0 n).
Definition writeN (a : Z) (bs : list Z) (m : Bytes) : Bytes :=
  fun x => if (a <=? x) && (x <? a + Z.of_nat (length bs)) then nth (Z.to_nat (x - a)) bs 0 else m x.
(** Whether it is in the range of [int32_t]. *)
Definition fits32 (x : Z) : bool := (- 2 ^ 31 <=? x) && (x <? 2 ^ 31).

(** ** The class *)
Definition kCodeHookPatchBytes : Z := 5.
Record CodeHook := mkHook { m_target : Z; m_replacement : Z; m_trampoline : Z; m_original : list Z; m_stolen : Z; m_installed : bool }.
Definition hook0 : CodeHook := mkHook 0 0 0 (repeat 0 16) 0 false.
#[export] Instance eta_Hook : Settable CodeHook := fun h =>
  mkHook (m_target h) (m_replacement h) (m_trampoline h) (m_original h) (m_stolen h) (m_installed h).
Record Piece := mkPiece { offset : Z; len : Z; ripDisp : Z }.

(** The machine: memory and the calls made, latest first. *)
Inductive Prot := READWRITE | EXECUTE_READ | EXECUTE_READWRITE | OldProtect.
Inductive Call :=
  | Alloc (hint n : Z) (r : option Z) | Free (a : Z) | Protect (a n : Z) (p : Prot) (ok : bool) | Flush (a n : Z)
  | Access (ok : bool) | Write (a : Z) (bs : list Z) | Prepare (trampoline : Z) (r : option bool).
Record Machine := mkMachine { mem : Bytes; mlog : list Call }.
#[export] Instance eta_Machine : Settable Machine := fun s => mkMachine (mem s) (mlog s).
(** What answers: the allocator, page protection, a fault under [guarded], [prepare]. *)
Record Os := mkOs {
  dwAllocationGranularity : Z;
  virtualAlloc : list Call -> Z -> Z -> option Z;
  virtualProtect : list Call -> bool;
  faults : list Call -> bool;
  prepares : list Call -> option bool }.

Section Hook.
Context (os : Os).

Definition emit (c : Call) : M Machine unit := modM (fun s => s <| mlog ::= cons c |>).
Definition alloc (hint n : Z) : M Machine (option Z) :=
  s ← getM; let r := virtualAlloc os (mlog s) hint n in
  emit (Alloc hint n r);; mret r.
Definition free (a : Z) : M Machine unit := emit (Free a).
Definition protect (a n : Z) (p : Prot) : M Machine bool :=
  s ← getM; let ok := virtualProtect os (mlog s) in emit (Protect a n p ok);; mret ok.
Definition flush (a n : Z) : M Machine unit := emit (Flush a n).
(** A memory access under [guarded]: false when it faulted. *)
Definition access : M Machine bool :=
  s ← getM; let ok := negb (faults os (mlog s)) in emit (Access ok);; mret ok.
Definition write (a : Z) (bs : list Z) : M Machine unit :=
  emit (Write a bs);; modM (fun s => s <| mem ::= writeN a bs |>).
Definition read (a : Z) (n : nat) : M Machine (list Z) := s ← getM; mret (readN (mem s) a n).
Definition runPrepare (tramp : Z) : M Machine (option bool) :=
  s ← getM; let r := prepares os (mlog s) in emit (Prepare tramp r);; mret r.

Definition kReach : Z := 0x7FF00000.
Definition allocGranularity : Z := if dwAllocationGranularity os =? 0 then 0x10000 else dwAllocationGranularity os.
Definition alignDown (x g : Z) : Z := Z.land x (Z.lnot (g - 1)).
(** One distance, downwards then upwards. *)
Definition allocAt (anchor delta n : Z) : M Machine (option Z) :=
  r ← (if anchor <? delta then mret None else alloc (alignDown (u64 (anchor - delta)) allocGranularity) n);
  match r with
  | Some a => mret (Some a)
  | None => alloc (alignDown (u64 (anchor + delta)) allocGranularity) n
  end.
Fixpoint allocateFrom (fuel : nat) (anchor delta n : Z) : M Machine (option Z) :=
  match fuel with
  | O => mret None
  | S fuel =>
      if negb (delta <? kReach) then mret None
      else r ← allocAt anchor delta n;
           match r with Some a => mret (Some a) | None => allocateFrom fuel anchor (delta + allocGranularity) n end
  end.
Definition allocateNear (anchor n : Z) : M Machine (option Z) :=
  allocateFrom (Z.to_nat (kReach / allocGranularity + 1)) anchor allocGranularity n.

(** Whole instructions until the patch is covered; eight at most. *)
Fixpoint decodePieces (room : nat) (target : Z) (pieces : list Piece) (stolen : Z) : M Machine (option (list Piece * Z)) :=
  if negb (stolen <? kCodeHookPatchBytes) then mret (Some (pieces, stolen))
  else match room with
  | O => mret None
  | S room =>
      s ← getM; ok ← access;
      let '(len, rip) := codeInstructionLength (Some (fun i => mem s (target + (stolen + i)))) (16 - stolen) in
      if negb ok || (len =? 0) then mret None
      else decodePieces room target (pieces ++ [mkPiece stolen len rip]) (stolen + len)
  end.

(** The displacement that says from the trampoline what was said from the code. *)
Definition movedDisp (target tramp endAt was : Z) : Z := s64 (u64 (target + endAt + was)) - s64 (u64 (tramp + endAt)).
(** The rewriting loop: what [relocatable] and the absence of a fault end up as. *)
Fixpoint relocate (target tramp : Z) (pieces : list Piece) : M Machine (bool * bool) :=
  match pieces with
  | [] => mret (true, true)
  | p :: pieces =>
      if ripDisp p =? 0 then relocate target tramp pieces
      else
        let dispAt := offset p + ripDisp p in
        let endAt := offset p + len p in
        ok ← access;
        if negb ok then mret (true, false)
        else
          was ← read (target + dispAt) 4;
          let now := movedDisp target tramp endAt (s32 (leValue was)) in
          if negb (fits32 now) then mret (false, true)
          else write (tramp + dispAt) (leBytes 4 now);; relocate target tramp pieces
  end.
(** jmp qword ptr [rip+0] and the address it takes. *)
Definition jumpBack (resume : Z) : list Z := [0xFF; 0x25; 0; 0; 0; 0] ++ leBytes 8 resume.
(** The guarded body that builds the trampoline: [relocatable], [built] and what [m_original] becomes. *)
Definition build (h : CodeHook) (target tramp : Z) (pieces : list Piece) (stolen : Z) : M Machine (bool * bool * CodeHook) :=
  ok ← access;
  if negb ok then mret (true, false, h)
  else
    code ← read target (Z.to_nat stolen);
    write tramp code;;
    '(relocatable, built) ← relocate target tramp pieces;
    if negb relocatable || negb built then mret (relocatable, built, h)
    else
      write (tramp + stolen) (jumpBack (u64 (target + stolen)));;
      ok ← access;
      if negb ok then mret (true, false, h)
      else mret (true, true, h <| m_original := code ++ drop (Z.to_nat stolen) (m_original h) |>).
(** The eight bytes of the entry with the jump in front. *)
Definition patchedWord (word : list Z) (rel : Z) : list Z := 0xE9 :: leBytes 4 rel ++ drop 5 word.
Definition jumpDisplacement (target replacement : Z) : Z := s64 replacement - (s64 target + kCodeHookPatchBytes).

(** From the trampoline on. *)
Definition publish (h : CodeHook) (target replacement tramp stolen : Z) (prepare : bool) : M Machine (bool * CodeHook * option Z) :=
  let refuse := free tramp;; mret (false, h, None) in
  let n := stolen + 14 in
  ok ← protect tramp n EXECUTE_READ;
  if negb ok then refuse
  else
    flush tramp n;;
    let displacement := jumpDisplacement target replacement in
    if negb (fits32 displacement) then refuse
    else
      word ← read target 8;
      let newWord := patchedWord word displacement in
      prepared ← (if prepare then runPrepare tramp else mret (Some true));
      if negb (default false prepared) then refuse
      else
        ok ← protect target 8 EXECUTE_READWRITE;
        if negb ok then refuse
        else
          wrote ← access;
          (if wrote then write target newWord else mret tt);;
          protect target 8 OldProtect;;
          if negb wrote then refuse
          else
            flush target 8;;
            mret (true, mkHook target replacement tramp (m_original h) stolen true, Some tramp).
Definition install (h : CodeHook) (target replacement : Z) (prepare : bool) : M Machine (bool * CodeHook * option Z) :=
  if m_installed h || (target =? 0) || (replacement =? 0) then mret (false, h, None)
  else if negb (target mod 8 =? 0) then mret (false, h, None)
  else
    d ← decodePieces 8 target [] 0;
    match d with
    | None => mret (false, h, None)
    | Some (pieces, stolen) =>
        if 16 <? stolen then mret (false, h, None)
        else
          tr ← allocateNear target (stolen + 14);
          match tr with
          | None => mret (false, h, None)
          | Some tramp =>
              '(relocatable, built, h) ← build h target tramp pieces stolen;
              if negb built || negb relocatable then free tramp;; mret (false, h, None)
              else publish h target replacement tramp stolen prepare
          end
    end.

(** Whether the entry still holds EDVR's jump. *)
Definition isOurs (h : CodeHook) (m : Bytes) : bool :=
  (m (m_target h) =? 0xE9) &&
  (s32 (leValue (readN m (m_target h + 1) 4)) =? s32 (jumpDisplacement (m_target h) (m_replacement h))).
Definition restoredWord (h : CodeHook) (word : list Z) : list Z :=
  let k := Z.to_nat (if m_stolen h <? 8 then m_stolen h else 8) in take k (m_original h) ++ drop k word.
Definition unpatch (h : CodeHook) : M Machine unit :=
  ok ← access;
  word ← (if negb ok then mret (repeat 0 8) else read (m_target h) 8);
  let restored := restoredWord h word in
  ok ← protect (m_target h) 8 EXECUTE_READWRITE;
  if negb ok then mret tt
  else
    ok ← access;
    (if negb ok then mret tt else write (m_target h) restored);;
    protect (m_target h) 8 OldProtect;;
    flush (m_target h) 8.
Definition uninstall (h : CodeHook) : M Machine CodeHook :=
  if negb (m_installed h) then mret h
  else
    ok ← access;
    s ← getM;
    let ours := ok && isOurs h (mem s) in
    (if ours then unpatch h else mret tt);;
    (if ours && negb (m_trampoline h =? 0) then free (m_trampoline h) else mret tt);;
    mret (mkHook 0 0 0 (m_original h) 0 false).
End Hook.

(** ** Memory *)
Lemma length_readN m a n : length (readN m a n) = n.
Proof. unfold readN. by rewrite length_map, length_seq. Qed.
Lemma nth_readN m a n i : (i < n)%nat -> nth i (readN m a n) 0 = m (a + Z.of_nat i).
Proof.
  intros Hi. unfold readN. rewrite (nth_indep _ 0 (m (a + Z.of_nat 0))) by (by rewrite length_map, length_seq).
  rewrite (map_nth (fun i => m (a + Z.of_nat i))). by rewrite seq_nth by done.
Qed.
Lemma writeN_in a bs m x : a <= x < a + Z.of_nat (length bs) -> writeN a bs m x = nth (Z.to_nat (x - a)) bs 0.
Proof. intros H. unfold writeN. by rewrite (proj2 (Z.leb_le _ _)), (proj2 (Z.ltb_lt _ _)) by lia. Qed.
Lemma writeN_out a bs m x : ~ (a <= x < a + Z.of_nat (length bs)) -> writeN a bs m x = m x.
Proof. intros H. unfold writeN. destruct (Z.leb_spec a x), (Z.ltb_spec x (a + Z.of_nat (length bs))); try done. lia. Qed.
Lemma readN_ext m m' a n : (forall x, a <= x < a + Z.of_nat n -> m' x = m x) -> readN m' a n = readN m a n.
Proof. intros H. unfold readN. apply map_ext_in. intros i Hi%in_seq. apply H. lia. Qed.
Lemma readN_writeN a bs m : readN (writeN a bs m) a (length bs) = bs.
Proof.
  apply (nth_ext _ _ 0 0); [apply length_readN|]. intros i Hi. rewrite length_readN in Hi. rewrite nth_readN by done.
  rewrite writeN_in by lia. f_equal. lia.
Qed.
Lemma readN_app m a n k : readN m a (n + k) = readN m a n ++ readN m (a + Z.of_nat n) k.
Proof.
  unfold readN. rewrite seq_app, map_app. f_equal.
  apply (nth_ext _ _ 0 0); rewrite !length_map, !length_seq; [done|]. intros i Hi.
  rewrite (nth_indep _ 0 (m (a + Z.of_nat 0))) by (by rewrite length_map, length_seq).
  rewrite (map_nth (fun i => m (a + Z.of_nat i))), seq_nth by done.
  rewrite (nth_indep _ 0 (m (a + Z.of_nat n + Z.of_nat 0))) by (by rewrite length_map, length_seq).
  rewrite (map_nth (fun i => m (a + Z.of_nat n + Z.of_nat i))), seq_nth by done. f_equal. lia.
Qed.
Lemma signed_mod x : s32 (x mod 256 ^ 4) = s32 x.
Proof. unfold s32, signed. change (256 ^ 4) with (2 ^ 32). by rewrite Zplus_mod_idemp_l. Qed.
Lemma s32_small x : fits32 x = true -> s32 x = x.
Proof. unfold fits32, s32, signed. intros. bool_solve. rewrite Z.mod_small; lia. Qed.
Lemma s32_leBytes x : fits32 x = true -> s32 (leValue (leBytes 4 x)) = x.
Proof. intros. rewrite leValue_leBytes. change (Z.of_nat 4) with 4. by rewrite signed_mod, s32_small. Qed.

(** ** What a decoded instruction looks like *)
Lemma modrmTail_disp code av i imm n d : 0 <= i -> 0 <= imm -> modrmTail code av i imm = (n, d) -> n <> 0 ->
  0 < n <= av /\ (d <> 0 -> 0 < d /\ d + 4 <= n).
Proof.
  intros Hi Hm. unfold modrmTail, modrmSize. generalize (Z.shiftr (code i) 6), (Z.land (code i) 7). intros.
  repeat case_match; bool_solve; simplify_eq/=; try done; lia.
Qed.
Lemma decoder_disp code av n d : 0 <= av -> codeInstructionLength (Some code) av = (n, d) -> n <> 0 ->
  0 < n <= av /\ (d <> 0 -> 0 < d /\ d + 4 <= n).
Proof.
  intros Hav. unfold codeInstructionLength. destruct (av =? 0); [by intros [= <- <-]|].
  assert (0 <= prefixLength code av) as Hp by (unfold prefixLength; repeat case_match; lia).
  generalize dependent (prefixLength code av). intros i Hi. destruct (Z.leb_spec av i); [by intros [= <- <-]|].
  unfold opcodeLength. intros E Hn. repeat case_match; simplify_eq; try done; bool_solve; try lia;
    try (eapply modrmTail_disp; [| |done|done]; lia).
Qed.

(** ** The calls, one by one *)
(** The blocks that the calls so far have reserved and not given back. *)
Fixpoint liveBlocks (lg : list Call) : list (Z * Z) :=
  match lg with
  | [] => []
  | Alloc _ n (Some a) :: lg => (a, n) :: liveBlocks lg
  | Free a :: lg => base.filter (fun b : Z * Z => b.1 <> a) (liveBlocks lg)
  | _ :: lg => liveBlocks lg
  end.
(** What VirtualAlloc promises: a block of one's own, away from the code hooked. *)
Record AllocLaws (os : Os) (target : Z) : Prop := {
  al_some : forall lg h n a, virtualAlloc os lg h n = Some a -> a <> 0;
  al_fresh : forall lg h n a, virtualAlloc os lg h n = Some a -> forall b, b ∈ liveBlocks lg -> b.1 <> a;
  al_apart : forall lg h n a, virtualAlloc os lg h n = Some a -> a + n <= target \/ target + 16 <= a }.
Definition inRange (a n x : Z) : Prop := a <= x < a + n.
(** Memory is the same but in a range. *)
Definition sameBut (a n : Z) (m m' : Bytes) : Prop := forall x, ~ inRange a n x -> m' x = m x.
Definition writesIn (a n : Z) (c : Call) : Prop :=
  match c with Write b bs => a <= b /\ b + Z.of_nat (length bs) <= a + n | Alloc _ _ (Some _) | Free _ => False | _ => True end.
Definition quiet (c : Call) : Prop := match c with Write _ _ | Free _ | Alloc _ _ (Some _) => False | _ => True end.
Definition grew (P : Call -> Prop) (lg lg' : list Call) : Prop := exists l, lg' = l ++ lg /\ Forall P l.
Lemma grew_refl P lg : grew P lg lg.
Proof. by exists []. Qed.
Lemma grew_cons P lg c : P c -> grew P lg (c :: lg).
Proof. intros. exists [c]. split; [done|by constructor]. Qed.
Lemma grew_trans P a b c : grew P a b -> grew P b c -> grew P a c.
Proof. intros (l1 & -> & H1) (l2 & -> & H2). exists (l2 ++ l1). split; [by rewrite app_assoc|by apply Forall_app]. Qed.
Lemma grew_mono (P Q : Call -> Prop) a b : (forall c, P c -> Q c) -> grew P a b -> grew Q a b.
Proof. intros HPQ (l & -> & H). exists l. split; [done|]. by eapply Forall_impl. Qed.
Lemma grew_more (P : Call -> Prop) a b c : P c -> grew P a b -> grew P a (c :: b).
Proof. intros. eapply grew_trans; [done|by apply grew_cons]. Qed.
Lemma live_quiet lg lg' : grew quiet lg lg' -> liveBlocks lg' = liveBlocks lg.
Proof. intros (l & -> & H). induction H as [|[? ? []| | | | | |] l Hc Hl IH]; cbn in *; done. Qed.
Lemma live_writes a n lg lg' : grew (writesIn a n) lg lg' -> liveBlocks lg' = liveBlocks lg.
Proof. intros (l & -> & H). induction H as [|[? ? []| | | | | |] l Hc Hl IH]; cbn in *; done. Qed.
#[local] Hint Resolve grew_refl grew_cons grew_more grew_trans : core.

Section Calls.
Context (os : Os).
Implicit Types m : Bytes.
Lemma wp_alloc h n (Q : option Z -> Machine -> Prop) m lg :
  Q (virtualAlloc os lg h n) (mkMachine m (Alloc h n (virtualAlloc os lg h n) :: lg)) -> wp (alloc os h n) Q (mkMachine m lg).
Proof. done. Qed.
Lemma wp_free a (Q : unit -> Machine -> Prop) m lg : Q tt (mkMachine m (Free a :: lg)) -> wp (free a) Q (mkMachine m lg).
Proof. done. Qed.
Lemma wp_protect a n p (Q : bool -> Machine -> Prop) m lg :
  (forall ok, Q ok (mkMachine m (Protect a n p ok :: lg))) -> wp (protect os a n p) Q (mkMachine m lg).
Proof. intros H. apply H. Qed.
Lemma wp_flush a n (Q : unit -> Machine -> Prop) m lg : Q tt (mkMachine m (Flush a n :: lg)) -> wp (flush a n) Q (mkMachine m lg).
Proof. done. Qed.
Lemma wp_access (Q : bool -> Machine -> Prop) m lg :
  (forall ok, Q ok (mkMachine m (Access ok :: lg))) -> wp (access os) Q (mkMachine m lg).
Proof. intros H. apply H. Qed.
Lemma wp_write a bs (Q : unit -> Machine -> Prop) m lg :
  Q tt (mkMachine (writeN a bs m) (Write a bs :: lg)) -> wp (write a bs) Q (mkMachine m lg).
Proof. done. Qed.
Lemma wp_read a n (Q : list Z -> Machine -> Prop) m lg : Q (readN m a n) (mkMachine m lg) -> wp (read a n) Q (mkMachine m lg).
Proof. done. Qed.
Lemma wp_prepare t (Q : option bool -> Machine -> Prop) m lg :
  (forall r, Q r (mkMachine m (Prepare t r :: lg))) -> wp (runPrepare os t) Q (mkMachine m lg).
Proof. intros H. apply H. Qed.
Lemma wp_getM (Q : Machine -> Machine -> Prop) w : Q w w -> wp getM Q w.
Proof. done. Qed.
End Calls.
Ltac mach :=
  repeat (lazymatch goal with
    | |- wp (_ ≫= _) _ _ => apply wp_bind
    | |- wp (mret _) _ _ => apply wp_ret
    | |- wp (alloc _ _ _) _ _ => apply wp_alloc
    | |- wp (free _) _ _ => apply wp_free
    | |- wp (flush _ _) _ _ => apply wp_flush
    | |- wp (write _ _) _ _ => apply wp_write
    | |- wp (read _ _) _ _ => apply wp_read
    | |- wp getM _ _ => apply wp_getM
    | |- wp (protect _ _ _ _) _ _ => apply wp_protect; intros []
    | |- wp (access _) _ _ => apply wp_access; intros []
    | |- wp (runPrepare _ _) _ _ => apply wp_prepare; intros [[]|]
    end; cbn [negb orb default from_option id mem mlog]).
(** The log grew by calls of the right kind. *)
Ltac calls := first [apply grew_refl | apply grew_more; [done|calls]].

(** ** The parts of an installation *)
(** [ps] are the instructions of the code from [from] to [to]. *)
Fixpoint covers (code : Bytes) (from : Z) (ps : list Piece) (to : Z) : Prop :=
  match ps with
  | [] => from = to
  | p :: ps => offset p = from /\ len p <> 0 /\ from < 16 /\
      codeInstructionLength (Some (fun i => code (from + i))) (16 - from) = (len p, ripDisp p) /\ covers code (from + len p) ps to
  end.
Lemma covers_snoc code from ps p mid : covers code from ps mid -> offset p = mid -> len p <> 0 -> mid < 16 ->
  codeInstructionLength (Some (fun i => code (mid + i))) (16 - mid) = (len p, ripDisp p) -> covers code from (ps ++ [p]) (mid + len p).
Proof.
  revert from. induction ps as [|q ps IH]; intros from; cbn; [intros <- ? ? ? ?; by split_and! |].
  intros (H1 & H2 & H3 & H4 & H5) ? ? ? ?. split_and!; auto.
Qed.
Lemma covers_le code from ps to : covers code from ps to -> from <= to.
Proof.
  revert from. induction ps as [|q ps IH]; intros from; cbn; [lia|]. intros (H1 & H2 & H3 & H4 & H5%IH).
  destruct (decoder_disp _ (16 - from) _ _ ltac:(lia) H4 H2). lia.
Qed.
Section Install.
Context (os : Os) (target : Z).
Definition codeAt (m : Bytes) : Bytes := fun i => m (target + i).

Lemma decodePieces_spec room ps stolen m lg (Q : option (list Piece * Z) -> Machine -> Prop) :
  0 <= stolen <= 16 -> covers (codeAt m) 0 ps stolen ->
  (forall r lg', grew quiet lg lg' ->
     match r with Some (ps', stolen') => covers (codeAt m) 0 ps' stolen' /\ kCodeHookPatchBytes <= stolen' <= 16 | None => True end ->
     Q r (mkMachine m lg')) ->
  wp (decodePieces os room target ps stolen) Q (mkMachine m lg).
Proof.
  revert ps stolen lg. induction room as [|room IH]; intros ps stolen lg Hs Hc HQ; cbn [decodePieces];
    destruct (Z.ltb_spec stolen kCodeHookPatchBytes); cbn [negb]; try (apply wp_ret, HQ; [done|]; by split; [|lia]); try (by apply wp_ret, HQ).
  unfold kCodeHookPatchBytes in *.
  mach; destruct (codeInstructionLength _ _) as [n d] eqn:E; cbn [orb]; [|by mach; apply HQ; [by apply grew_cons|]].
  destruct (Z.eqb_spec n 0) as [->|Hn]; [apply wp_ret, HQ; [by apply grew_cons|done]|]. cbn [mem] in E.
  destruct (decoder_disp _ (16 - stolen) _ _ ltac:(lia) E Hn) as [Hb _].
  apply IH; [lia | apply (covers_snoc (codeAt m) 0 ps (mkPiece stolen n d) stolen); cbn; first [done | lia | exact E] |].
  intros r lg' Hg Hr. apply HQ; [eapply grew_trans; [|done]; by apply grew_cons|done].
Qed.

(** The trampoline is apart from the code. *)
Definition apart (tramp n : Z) : Prop := tramp + n <= target \/ target + 16 <= tramp.
(** One instruction moved: the same bytes but for a displacement, which reaches the same address. *)
Definition movedPiece (m0 m : Bytes) (tramp : Z) (p : Piece) : Prop :=
  (forall i, inRange (offset p) (len p) i -> ripDisp p = 0 \/ ~ inRange (offset p + ripDisp p) 4 i -> m (tramp + i) = m0 (target + i)) /\
  (ripDisp p <> 0 ->
    u64 (tramp + (offset p + len p) + s32 (leValue (readN m (tramp + (offset p + ripDisp p)) 4))) =
    u64 (target + (offset p + len p) + s32 (leValue (readN m0 (target + (offset p + ripDisp p)) 4)))).
Lemma s64_u64 x : exists k, s64 (u64 x) = x + k * 2 ^ 64.
Proof.
  unfold s64, signed, u64. exists (- ((x mod 2 ^ 64 + 2 ^ (64 - 1)) / 2 ^ 64) - x / 2 ^ 64).
  pose proof (Z.mod_eq (x mod 2 ^ 64 + 2 ^ (64 - 1)) (2 ^ 64)). pose proof (Z.mod_eq x (2 ^ 64)). lia.
Qed.
Lemma movedDisp_reaches tramp e was : u64 (tramp + e + movedDisp target tramp e was) = u64 (target + e + was).
Proof.
  unfold movedDisp. destruct (s64_u64 (target + e + was)) as [k1 ->], (s64_u64 (tramp + e)) as [k2 ->]. unfold u64.
  rewrite <-(Z.mod_add (target + e + was) (k1 - k2)) by done. f_equal. lia.
Qed.
Lemma movedPiece_same m0 m m' tramp p : (forall x, inRange (tramp + offset p) (len p) x -> m' x = m x) -> 
  (ripDisp p <> 0 -> 0 < ripDisp p /\ ripDisp p + 4 <= len p) -> movedPiece m0 m tramp p -> movedPiece m0 m' tramp p.
Proof.
  unfold inRange. intros H Hd [H1 H2]. split.
  - intros i Hi Hn. rewrite H by (unfold inRange in *; lia). by apply H1.
  - intros Hr. rewrite (readN_ext m m'); [by apply H2|]. intros x Hx. apply H. specialize (Hd Hr). lia.
Qed.
Lemma relocate_spec m0 tramp n ps from to m lg (Q : bool * bool -> Machine -> Prop) :
  covers (codeAt m0) from ps to -> 0 <= from -> to <= 16 -> to <= n -> apart tramp n -> sameBut tramp n m0 m ->
  (forall i, from <= i < to -> m (tramp + i) = m0 (target + i)) ->
  (forall r m' lg', grew (writesIn tramp n) lg lg' -> sameBut (tramp + from) (to - from) m m' ->
     (r = (true, true) -> forall p, p ∈ ps -> movedPiece m0 m' tramp p) -> Q r (mkMachine m' lg')) ->
  wp (relocate os target tramp ps) Q (mkMachine m lg).
Proof.
  revert from m lg Q. induction ps as [|p ps IH]; intros from m lg Q; cbn [covers relocate].
  { intros -> ? ? ? ? ? ? HQ. apply wp_ret, HQ; [done|done|]. intros _ p Hp. by apply not_elem_of_nil in Hp. }
  intros (Ho & Hl & Hf & Hd & Hc) H0 H16 Hn Ha Hs Hcopy HQ. pose proof (covers_le _ _ _ _ Hc) as Hle.
  destruct (decoder_disp _ (16 - from) _ _ ltac:(lia) Hd Hl) as [Hlen Hdisp].
  assert (forall m1 lg1, grew (writesIn tramp n) lg lg1 -> sameBut (tramp + from) (len p) m m1 -> movedPiece m0 m1 tramp p ->
    wp (relocate os target tramp ps) Q (mkMachine m1 lg1)) as Htail.
  { intros m1 lg1 Hg1 Hs1 Hm1. apply (IH (from + len p)); try done; try lia.
    - intros x Hx. rewrite Hs1; [by apply Hs|]. unfold inRange in *. lia.
    - intros i Hi. rewrite Hs1; [apply Hcopy; lia|]. unfold inRange. lia.
    - intros r m' lg' Hg' Hs' Hr. apply HQ; [by eapply grew_trans | |].
      + intros x Hx. rewrite Hs'; [apply Hs1|]; unfold inRange in *; lia.
      + intros Hok q [->|Hq]%elem_of_cons; [|by apply Hr]. apply (movedPiece_same m0 m1); [|done|done].
        intros x Hx. apply Hs'. unfold inRange in *. lia. }
  destruct (Z.eqb_spec (ripDisp p) 0) as [Hr|Hr].
  { apply Htail; [done|done|]. split; [|done]. intros i Hi _. unfold inRange in Hi. apply Hcopy. lia. }
  destruct (Hdisp Hr) as [Hd1 Hd2]. mach; [|apply HQ; [by apply grew_cons|done|done]].
  assert (readN m (target + (offset p + ripDisp p)) 4 = readN m0 (target + (offset p + ripDisp p)) 4) as Hread.
  { apply readN_ext. intros x Hx. apply Hs. unfold inRange, apart in *. lia. }
  rewrite Hread. destruct (fits32 _) eqn:Hfit; cbn [negb]; mach; [|apply HQ; [by apply grew_cons|done|done]].
  set (now := movedDisp _ _ _ _) in *. apply Htail.
  - apply grew_more; [|by apply grew_cons]. cbn [writesIn]. rewrite length_leBytes. lia.
  - intros x Hx. apply writeN_out. rewrite length_leBytes. unfold inRange in Hx. lia.
  - split.
    + intros i Hi [?|Hn']; [done|]. unfold inRange in *. rewrite writeN_out by (rewrite length_leBytes; lia). apply Hcopy. lia.
    + intros _. replace 4%nat with (length (leBytes 4 now)) at 1 by apply length_leBytes.
      rewrite readN_writeN, s32_leBytes by done. apply movedDisp_reaches.
Qed.
End Install.
Lemma covers_within code from ps to p : covers code from ps to -> p ∈ ps -> from <= offset p /\ offset p + len p <= to.
Proof.
  revert from. induction ps as [|q ps IH]; intros from; cbn [covers]; [by intros _ ?%not_elem_of_nil|].
  intros (H1 & H2 & H3 & H4 & H5) [->|Hp]%elem_of_cons.
  - pose proof (covers_le _ _ _ _ H5). lia.
  - destruct (decoder_disp _ (16 - from) _ _ ltac:(lia) H4 H2) as [? _]. specialize (IH _ H5 Hp). lia.
Qed.
Lemma covers_disp code from ps to p : covers code from ps to -> p ∈ ps -> ripDisp p <> 0 -> 0 < ripDisp p /\ ripDisp p + 4 <= len p.
Proof.
  revert from. induction ps as [|q ps IH]; intros from; cbn [covers]; [by intros _ ?%not_elem_of_nil|].
  intros (H1 & H2 & H3 & H4 & H5) [->|Hp]%elem_of_cons; [|by eapply IH].
  destruct (decoder_disp _ (16 - from) _ _ ltac:(lia) H4 H2) as [_ H]. exact H.
Qed.
Lemma length_patched m a d : length (patchedWord (readN m a 8) d) = 8%nat.
Proof. unfold patchedWord. cbn [length]. by rewrite length_app, length_leBytes, length_drop, length_readN. Qed.
Lemma readN_sub a bs m k n : (k + n <= length bs)%nat -> readN (writeN a bs m) (a + Z.of_nat k) n = take n (drop k bs).
Proof.
  intros H. apply (nth_ext _ _ 0 0); [rewrite length_readN, length_take, length_drop; lia|].
  intros i Hi. rewrite length_readN in Hi. rewrite nth_readN, writeN_in by lia.
  rewrite !nth_lookup, lookup_take_lt, lookup_drop by lia. do 2 f_equal. lia.
Qed.
(** What the entry holds after the patch. *)
Lemma patched_reads m m1 a d : let m' := writeN a (patchedWord (readN m1 a 8) d) m in
  m' a = 0xE9 /\ readN m' (a + 1) 4 = leBytes 4 d /\ (forall i, 5 <= i < 8 -> m' (a + i) = m1 (a + i)).
Proof.
  set (w := patchedWord _ _). assert (length w = 8%nat) as Hw by apply length_patched.
  assert (w = 0xE9 :: leBytes 4 d ++ [m1 (a + 5); m1 (a + 6); m1 (a + 7)]) as Hw' by done. cbv zeta. split_and!.
  - rewrite writeN_in by lia. by rewrite Z.sub_diag, Hw'.
  - change 1 with (Z.of_nat 1). rewrite readN_sub by lia. rewrite Hw'. exact (take_app_length' (leBytes 4 d) _ 4 (eq_sym (length_leBytes 4 d))).
  - intros i Hi. rewrite writeN_in by lia. replace (a + i - a) with i by lia. rewrite Hw'.
    assert (i = 5 \/ i = 6 \/ i = 7) as Hi' by lia. by destruct Hi' as [->|[->| ->]].
Qed.

Section Whole.
Context (os : Os) (target : Z).

Lemma allocAt_spec anchor delta n m lg (Q : option Z -> Machine -> Prop) :
  (forall lg', grew quiet lg lg' -> Q None (mkMachine m lg')) ->
  (forall a h lg1, grew quiet lg lg1 -> virtualAlloc os lg1 h n = Some a -> Q (Some a) (mkMachine m (Alloc h n (Some a) :: lg1))) ->
  wp (allocAt os anchor delta n) Q (mkMachine m lg).
Proof.
  intros HN HS. unfold allocAt.
  assert (forall lg1, grew quiet lg lg1 -> wp (alloc os (alignDown (u64 (anchor + delta)) (allocGranularity os)) n) Q (mkMachine m lg1)) as Hup.
  { intros lg1 Hg. mach. destruct (virtualAlloc _ _ _ _) as [a|] eqn:E; [by apply HS|]. apply HN. by apply grew_more. }
  destruct (anchor <? delta); mach; [by apply Hup|].
  destruct (virtualAlloc _ _ _ _) as [a|] eqn:E; mach; [by apply HS|]. apply Hup. by apply grew_cons.
Qed.
Lemma allocateFrom_spec fuel anchor delta n m lg (Q : option Z -> Machine -> Prop) :
  (forall lg', grew quiet lg lg' -> Q None (mkMachine m lg')) ->
  (forall a h lg1, grew quiet lg lg1 -> virtualAlloc os lg1 h n = Some a -> Q (Some a) (mkMachine m (Alloc h n (Some a) :: lg1))) ->
  wp (allocateFrom os fuel anchor delta n) Q (mkMachine m lg).
Proof.
  revert delta lg. induction fuel as [|fuel IH]; intros delta lg HN HS; cbn [allocateFrom]; [by apply wp_ret, HN|].
  destruct (delta <? kReach); cbn [negb]; [|by apply wp_ret, HN]. apply wp_bind, allocAt_spec.
  - intros lg' Hg. apply IH; intros; [apply HN | apply HS; [|done]]; by eapply grew_trans.
  - intros a h lg1 Hg E. by apply wp_ret, HS.
Qed.

(** The fuel of [allocateNear] is enough: more never tries anything more. *)
Lemma allocateFrom_fuel anchor n fuel extra delta w : 0 < allocGranularity os -> kReach - delta <= Z.of_nat fuel * allocGranularity os ->
  allocateFrom os (fuel + extra) anchor delta n w = allocateFrom os fuel anchor delta n w.
Proof.
  intros Hg. revert delta w. induction fuel as [|fuel IH]; intros delta w Hk; cbn [allocateFrom Nat.add].
  - destruct extra; cbn [allocateFrom]; [done|]. by rewrite (proj2 (Z.ltb_ge delta kReach)) by lia.
  - destruct (delta <? kReach); cbn [negb]; [|done]. rewrite !bind_run. destruct (allocAt _ _ _ _ w).1; [done|]. apply IH. lia.
Qed.
Lemma allocateNear_fuel anchor n extra w : 0 <= dwAllocationGranularity os ->
  allocateFrom os (Z.to_nat (kReach / allocGranularity os + 1) + extra) anchor (allocGranularity os) n w = allocateNear os anchor n w.
Proof.
  intros H. assert (0 < allocGranularity os) as Hg by (unfold allocGranularity; destruct (Z.eqb_spec (dwAllocationGranularity os) 0); lia).
  apply allocateFrom_fuel; [done|]. pose proof (Z.div_pos kReach _ ltac:(done) Hg).
  pose proof (Z.mod_pos_bound kReach _ Hg). pose proof (Z.div_mod kReach (allocGranularity os) ltac:(lia)). lia.
Qed.

Lemma build_spec h tramp ps stolen m lg (Q : bool * bool * CodeHook -> Machine -> Prop) :
  covers (codeAt target m) 0 ps stolen -> 0 <= stolen <= 16 -> apart target tramp (stolen + 14) ->
  (forall relocatable built h' m' lg', grew (writesIn tramp (stolen + 14)) lg lg' -> sameBut tramp (stolen + 14) m m' ->
     h' = h <| m_original := m_original h' |> ->
     (relocatable && built = true -> (forall p, p ∈ ps -> movedPiece target m m' tramp p) /\
        readN m' (tramp + stolen) 14 = jumpBack (u64 (target + stolen)) /\
        m_original h' = readN m target (Z.to_nat stolen) ++ drop (Z.to_nat stolen) (m_original h)) ->
     Q (relocatable, built, h') (mkMachine m' lg')) ->
  wp (build os h target tramp ps stolen) Q (mkMachine m lg).
Proof.
  intros Hc Hs Ha HQ. unfold build. assert (h = h <| m_original := m_original h |>) as Hh by by destruct h.
  mach; [|by apply HQ; [apply grew_cons| | |]].
  set (code := readN m target (Z.to_nat stolen)). assert (length code = Z.to_nat stolen) as Hlen by apply length_readN.
  set (lg1 := Write _ _ :: _). assert (grew (writesIn tramp (stolen + 14)) lg lg1) as Hg1.
  { apply grew_more; [|by apply grew_cons]. cbn [writesIn]. lia. }
  assert (sameBut tramp (stolen + 14) m (writeN tramp code m)) as Hs1.
  { intros x Hx. apply writeN_out. unfold inRange in Hx. lia. }
  apply (relocate_spec os target m tramp (stolen + 14) ps 0 stolen); try done; try lia.
  { intros i Hi. rewrite writeN_in by lia. unfold code. rewrite nth_readN by lia. f_equal. lia. }
  intros [rl bt] m' lg2 Hg2 Hs2 Hok. cbn zeta beta iota.
  assert (sameBut tramp (stolen + 14) m m') as Hs3.
  { intros x Hx. rewrite Hs2 by (unfold inRange in *; lia). by apply Hs1. }
  destruct (negb rl || negb bt) eqn:Erb.
  { apply wp_ret, HQ; [by eapply grew_trans|done|done|]. by destruct rl, bt. }
  assert (rl = true /\ bt = true) as [-> ->] by (by destruct rl, bt). specialize (Hok eq_refl).
  set (back := jumpBack _). assert (length back = 14%nat) as Hback by (unfold back, jumpBack; by rewrite length_app, length_leBytes).
  assert (sameBut tramp (stolen + 14) m (writeN (tramp + stolen) back m')) as Hs4.
  { intros x Hx. rewrite writeN_out by (unfold inRange in *; lia). by apply Hs3. }
  assert (grew (writesIn tramp (stolen + 14)) lg (Write (tramp + stolen) back :: lg2)) as Hg3.
  { apply grew_more; [cbn [writesIn]; lia|]. by eapply grew_trans. }
  mach; apply HQ; try done; try (by apply grew_more). intros _. split_and!; [|rewrite <-Hback; apply readN_writeN|done].
  intros p Hp. apply (movedPiece_same target m m'); [|by eapply covers_disp|by apply Hok].
  intros x Hx. apply writeN_out. pose proof (covers_within _ _ _ _ _ Hc Hp). unfold inRange in Hx. lia.
Qed.

Lemma publish_spec h replacement tramp stolen prepare m lg (Q : bool * CodeHook * option Z -> Machine -> Prop) :
  (forall lg1, grew quiet lg lg1 -> Q (false, h, None) (mkMachine m (Free tramp :: lg1))) ->
  (forall lg1 lg2, let word := patchedWord (readN m target 8) (jumpDisplacement target replacement) in
     fits32 (jumpDisplacement target replacement) = true ->
     grew quiet (Protect tramp (stolen + 14) EXECUTE_READ true :: lg) lg1 -> grew quiet (Write target word :: lg1) lg2 ->
     Q (true, mkHook target replacement tramp (m_original h) stolen true, Some tramp) (mkMachine (writeN target word m) lg2)) ->
  wp (publish os h target replacement tramp stolen prepare) Q (mkMachine m lg).
Proof.
  intros HN HS. unfold publish. mach; [|by apply HN, grew_cons].
  destruct (fits32 _) eqn:Hf; cbn [negb]; [|mach; apply HN; calls].
  assert (forall lg1, grew quiet (Protect tramp (stolen + 14) EXECUTE_READ true :: lg) lg1 -> grew quiet lg lg1) as Hlater.
  { intros lg1 Hg. eapply grew_trans; [|exact Hg]. by apply grew_cons. }
  destruct prepare; mach; try (apply HN, Hlater; calls).
  all: eapply HS; [done | | apply grew_more; [done|]; apply grew_more; [done|]; apply grew_refl]; calls.
Qed.
End Whole.

Section Outcome.
Context (os : Os) (target replacement : Z) (Hlaws : AllocLaws os target).

(** Nothing was reserved, or a block was, written to and given back. *)
Definition Refused (m : Bytes) (lg : list Call) (m' : Bytes) (lg' : list Call) : Prop :=
  (grew quiet lg lg' /\ m' = m) \/
  exists lg1 lg2 hint n tramp, grew quiet lg lg1 /\ virtualAlloc os lg1 hint n = Some tramp /\
    grew (writesIn tramp n) (Alloc hint n (Some tramp) :: lg1) lg2 /\ lg' = Free tramp :: lg2 /\ sameBut tramp n m m'.
Record Installed (h : CodeHook) (m : Bytes) (lg : list Call) (h' : CodeHook) (tramp : Z) (m' : Bytes) (lg' : list Call)
    (ps : list Piece) (stolen : Z) (m1 : Bytes) : Prop := {
  in_aligned : target mod 8 = 0;
  in_hook : h' = mkHook target replacement tramp (readN m target (Z.to_nat stolen) ++ drop (Z.to_nat stolen) (m_original h)) stolen true;
  in_covers : covers (codeAt target m) 0 ps stolen;
  in_stolen : kCodeHookPatchBytes <= stolen <= 16;
  in_apart : apart target tramp (stolen + 14);
  in_built : sameBut tramp (stolen + 14) m m1;
  in_moved : forall p, p ∈ ps -> movedPiece target m m1 tramp p;
  in_back : readN m1 (tramp + stolen) 14 = jumpBack (u64 (target + stolen));
  in_reach : fits32 (jumpDisplacement target replacement) = true;
  in_patched : m' = writeN target (patchedWord (readN m1 target 8) (jumpDisplacement target replacement)) m1;
  in_calls : exists lg1 lg2 lg3 hint, grew quiet lg lg1 /\ virtualAlloc os lg1 hint (stolen + 14) = Some tramp /\
    grew (writesIn tramp (stolen + 14)) (Alloc hint (stolen + 14) (Some tramp) :: lg1) lg2 /\
    grew quiet (Protect tramp (stolen + 14) EXECUTE_READ true :: lg2) lg3 /\
    grew quiet (Write target (patchedWord (readN m1 target 8) (jumpDisplacement target replacement)) :: lg3) lg' }.

Lemma quiet_writes a n c : quiet c -> writesIn a n c.
Proof. by destruct c as [? ? []| | | | | |]. Qed.
Lemma install_spec h prepare m lg (Q : bool * CodeHook * option Z -> Machine -> Prop) :
  (forall h' m' lg', h' = h <| m_original := m_original h' |> -> Refused m lg m' lg' -> Q (false, h', None) (mkMachine m' lg')) ->
  (forall h' tramp m' lg' ps stolen m1, Installed h m lg h' tramp m' lg' ps stolen m1 -> Q (true, h', Some tramp) (mkMachine m' lg')) ->
  wp (install os h target replacement prepare) Q (mkMachine m lg).
Proof.
  intros HN HS. assert (h = h <| m_original := m_original h |>) as Hh by by destruct h.
  unfold install. destruct (_ || _ || _); [apply wp_ret, HN; [done|left; split; [apply grew_refl|done]]|].
  destruct (Z.eqb_spec (target mod 8) 0) as [Hal|]; cbn [negb]; [|apply wp_ret, HN; [done|left; split; [apply grew_refl|done]]].
  apply wp_bind, (decodePieces_spec os target 8 [] 0); [lia|done|]. intros [[ps stolen]|] lg1 Hg1; [|intros _; apply wp_ret, HN; [done|by left]].
  intros [Hc Hs]. destruct (Z.ltb_spec 16 stolen); [lia|]. apply wp_bind, allocateFrom_spec.
  { intros lg2 Hg2. apply wp_ret, HN; [done|left; split; [exact (grew_trans _ _ _ _ Hg1 Hg2)|done]]. }
  intros tramp hint lg2 Hg2 Ha. pose proof (grew_trans _ _ _ _ Hg1 Hg2) as Hg.
  apply wp_bind, (build_spec os target h tramp ps stolen); [done|unfold kCodeHookPatchBytes in *; lia|by eapply al_apart|].
  intros rl bt h' m1 lg3 Hg3 Hm1 Hh' Hok. destruct (negb bt || negb rl) eqn:Erb.
  { mach. apply HN; [done|]. right. by eexists lg2, lg3, hint, _, tramp. }
  assert (rl = true /\ bt = true) as [-> ->] by by destruct rl, bt. destruct (Hok eq_refl) as (Hmv & Hbk & Ho).
  apply publish_spec.
  - intros lg4 Hg4. apply HN; [done|]. right. exists lg2, lg4, hint, (stolen + 14), tramp. split_and!; try done.
    eapply grew_trans; [exact Hg3|]. eapply grew_mono; [apply quiet_writes|exact Hg4].
  - intros lg4 lg5 word Hf Hg4 Hg5. apply (HS _ _ _ _ ps stolen m1). split; try done.
    + by rewrite Ho.
    + by eapply al_apart.
    + by exists lg2, lg3, lg4, hint.
Qed.
End Outcome.

Lemma install_cases os target h replacement prepare m lg ok h' orig m' lg' : AllocLaws os target ->
  install os h target replacement prepare (mkMachine m lg) = ((ok, h', orig), mkMachine m' lg') ->
  (ok = false /\ orig = None /\ h' = h <| m_original := m_original h' |> /\ Refused os m lg m' lg') \/
  (ok = true /\ exists tramp ps stolen m1, orig = Some tramp /\ Installed os target replacement h m lg h' tramp m' lg' ps stolen m1).
Proof.
  intros Hl E. pose (Q := fun (r : bool * CodeHook * option Z) s' => let '(ok, h', orig) := r in
    (ok = false /\ orig = None /\ h' = h <| m_original := m_original h' |> /\ Refused os m lg (mem s') (mlog s')) \/
    (ok = true /\ exists tramp ps stolen m1, orig = Some tramp /\
       Installed os target replacement h m lg h' tramp (mem s') (mlog s') ps stolen m1)).
  assert (wp (install os h target replacement prepare) Q (mkMachine m lg)) as Hwp.
  { apply (install_spec os target replacement Hl); [by left|]. intros h1 t m2 lg2 ps st m1 H. right. split; [done|]. by exists t, ps, st, m1. }
  exact (wp_use _ _ _ _ _ Hwp E).
Qed.
(** A block given back is not live, and the others still are. *)
Lemma refused_live os target m lg m' lg' : AllocLaws os target -> Refused os m lg m' lg' -> liveBlocks lg' = liveBlocks lg.
Proof.
  intros Hl [[H _]|(lg1 & lg2 & hint & n & t & H1 & Ha & H2 & -> & _)]; [by apply live_quiet|].
  cbn [liveBlocks]. rewrite (live_writes _ _ _ _ H2). cbn [liveBlocks]. rewrite filter_cons_False by (cbn; tauto).
  rewrite filter_kept by by eapply al_fresh. by apply live_quiet.
Qed.


(** C27. A hook that is installed does what it says. The entry, aligned, is a jump
    that lands on the replacement and its last three bytes are untouched; whole
    instructions were moved, and in the trampoline each is the same but for a
    rip-relative displacement that reaches the address it reached before, followed
    by a jump to the first instruction left behind. Nothing else in memory has
    changed. One block more is reserved, and once it has been made executable the
    only write is the eight bytes of the entry. *)
Theorem install_redirects os target h replacement prepare m lg h' orig m' lg' (Hlaws : AllocLaws os target)
  (E : install os h target replacement prepare (mkMachine m lg) = ((true, h', orig), mkMachine m' lg')) :
  exists tramp ps stolen, orig = Some tramp /\ m_trampoline h' = tramp /\ m_installed h' = true /\
  target mod 8 = 0 /\ m' target = 0xE9 /\ s64 target + 5 + s32 (leValue (readN m' (target + 1) 4)) = s64 replacement /\
  (forall i, 5 <= i < 8 -> m' (target + i) = m (target + i)) /\
  kCodeHookPatchBytes <= stolen <= 16 /\ covers (codeAt target m) 0 ps stolen /\
  (forall p, p ∈ ps -> movedPiece target m m' tramp p) /\ readN m' (tramp + stolen) 14 = jumpBack (u64 (target + stolen)) /\
  (forall x, ~ inRange target 8 x -> ~ inRange tramp (stolen + 14) x -> m' x = m x) /\
  liveBlocks lg' = (tramp, stolen + 14) :: liveBlocks lg /\
  exists before after, lg' = after ++ Protect tramp (stolen + 14) EXECUTE_READ true :: before /\
    forall a bs, Write a bs ∈ after -> a = target /\ length bs = 8%nat.
Proof.
  destruct (install_cases _ _ _ _ _ _ _ _ _ _ _ _ Hlaws E) as [[? _]|(_ & t & ps & st & m1 & -> & HI)]; [done|].
  destruct HI as [Hal -> Hc Hst Ha Hb Hm Hbk Hf -> (lg1 & lg2 & lg3 & hint & H1 & Hva & H2 & H3 & H4)].
  set (w := patchedWord _ _) in *. assert (length w = 8%nat) as Hw by apply length_patched.
  assert (forall x, ~ inRange target 8 x -> writeN target w m1 x = m1 x) as Hout.
  { intros x Hx. apply writeN_out. unfold inRange in Hx. lia. }
  destruct (patched_reads m1 m1 target (jumpDisplacement target replacement)) as (P1 & P2 & P3). fold w in P1, P2, P3.
  assert (forall x, inRange target 8 x -> ~ inRange t (st + 14) x) as Hapart by (unfold apart, inRange in *; lia).
  exists t, ps, st. do 5 (split; [done|]). repeat match goal with |- kCodeHookPatchBytes <= _ <= _ /\ _ => split; [done|] | |- _ /\ _ => split end; try done.
  - rewrite P2, s32_leBytes by done. unfold jumpDisplacement, kCodeHookPatchBytes. lia.
  - intros i Hi. rewrite P3 by done. apply Hb, Hapart. unfold inRange. lia.
  - intros p Hp. apply (movedPiece_same target m m1); [|by eapply covers_disp|by apply Hm].
    intros x Hx. apply Hout. intros Hx'. apply (Hapart x Hx'). pose proof (covers_within _ _ _ _ _ Hc Hp). unfold inRange in *. lia.
  - rewrite (readN_ext m1); [done|]. intros x Hx. apply Hout. intros Hx'. apply (Hapart x Hx'). unfold inRange, kCodeHookPatchBytes in *. lia.
  - intros x Hx Hx'. rewrite Hout by done. by apply Hb.
  - rewrite (live_quiet _ _ H4). cbn. rewrite (live_quiet _ _ H3). cbn. rewrite (live_writes _ _ _ _ H2). cbn. by rewrite (live_quiet _ _ H1).
  - destruct H3 as (l3 & -> & Hq3), H4 as (l4 & -> & Hq4). exists lg2, (l4 ++ Write target w :: l3). split; [by rewrite <-app_assoc|].
    intros a bs [Hin|[Hin|Hin]%elem_of_cons]%elem_of_app.
    + by rewrite Forall_forall in Hq4; destruct (Hq4 _ Hin).
    + by simplify_eq.
    + by rewrite Forall_forall in Hq3; destruct (Hq3 _ Hin).
Qed.

(** Nothing faults and every page can be made writable. *)
Definition calm (os : Os) : Prop := forall lg, faults os lg = false /\ virtualProtect os lg = true.
Lemma jump_is_ours h m d : readN m (m_target h + 1) 4 = leBytes 4 d -> m (m_target h) = 0xE9 ->
  d = jumpDisplacement (m_target h) (m_replacement h) -> isOurs h m = true.
Proof.
  intros Hr Hm ->. unfold isOurs. rewrite Hm, Hr, leValue_leBytes. change (Z.of_nat 4) with 4. by rewrite signed_mod, !Z.eqb_refl.
Qed.
Lemma uninstall_calm os h m lg : calm os -> m_installed h = true -> m_trampoline h <> 0 -> isOurs h m = true ->
  exists lg', uninstall os h (mkMachine m lg) =
    (mkHook 0 0 0 (m_original h) 0 false, mkMachine (writeN (m_target h) (restoredWord h (readN m (m_target h) 8)) m) (Free (m_trampoline h) :: lg')) /\
    liveBlocks lg' = liveBlocks lg.
Proof.
  intros Hc Hi Ht Ho. unfold uninstall. rewrite Hi. cbn [negb]. rewrite (proj2 (Z.eqb_neq _ _) Ht).
  cbv [unpatch access protect read write flush free emit modM getM mbind M_bind mret M_ret].
  repeat (rewrite (proj1 (Hc _)) || rewrite (proj2 (Hc _)) || rewrite Ho; cbn). eexists. split; [done|]. done.
Qed.
(** The restored word, byte by byte: the saved bytes, then what was there. *)
Lemma restored_spec h m0 m a rest : m_original h = readN m0 a (Z.to_nat (m_stolen h)) ++ rest -> kCodeHookPatchBytes <= m_stolen h ->
  (forall i, 5 <= i < 8 -> m (a + i) = m0 (a + i)) -> restoredWord h (readN m a 8) = readN m0 a 8.
Proof.
  unfold restoredWord, kCodeHookPatchBytes. intros Ho Hs Hm. set (k := Z.to_nat (if m_stolen h <? 8 then m_stolen h else 8)).
  assert (5 <= k <= 8 /\ k <= Z.to_nat (m_stolen h))%nat as [Hk Hk'] by (unfold k; destruct (Z.ltb_spec (m_stolen h) 8); lia).
  replace 8%nat with (k + (8 - k))%nat at 1 2 by lia. rewrite !readN_app, Ho.
  replace (Z.to_nat (m_stolen h)) with (k + (Z.to_nat (m_stolen h) - k))%nat by lia. rewrite readN_app, <-app_assoc.
  rewrite take_app_length', drop_app_length' by (by rewrite length_readN). f_equal.
  apply (nth_ext _ _ 0 0); [by rewrite !length_readN|]. intros i Hi. rewrite length_readN in Hi. rewrite !nth_readN by done.
  rewrite <-Z.add_assoc. apply Hm. lia.
Qed.
(** When Windows will not make the page writable again, the entry keeps its jump
    and yet the trampoline, which the replacement still calls, is given back. *)
Theorem uninstall_frees_live_trampoline os h m lg : (forall lg, faults os lg = false) -> (forall lg, virtualProtect os lg = false) ->
  m_installed h = true -> m_trampoline h <> 0 -> isOurs h m = true ->
  exists lg', uninstall os h (mkMachine m lg) = (mkHook 0 0 0 (m_original h) 0 false, mkMachine m (Free (m_trampoline h) :: lg')).
Proof.
  intros Hf Hp Hi Ht Ho. unfold uninstall. rewrite Hi. cbn [negb]. rewrite (proj2 (Z.eqb_neq _ _) Ht).
  cbv [unpatch access protect read write flush free emit modM getM mbind M_bind mret M_ret].
  repeat (rewrite Hf || rewrite Hp || rewrite Ho; cbn). by eexists.
Qed.

(** ** A hook: sub rsp, 28h; inc dword ptr [rip+10h], and a replacement in reach *)
Definition demo_target : Z := 0x7FF700001000.
Definition demo_code : Bytes := fun x => codeOf [0x48; 0x83; 0xEC; 0x28; 0xFF; 0x05; 0x10; 0; 0; 0; 0xC3] (x - demo_target).
Definition demo_os : Os := {|
  dwAllocationGranularity := 0x10000;
  virtualAlloc := fun lg hint n =>
    if (hint =? 0) || existsb (fun b => b.1 =? hint) (liveBlocks lg) || negb ((hint + n <=? demo_target) || (demo_target + 16 <=? hint))
    then None else Some hint;
  virtualProtect := fun _ => true; faults := fun _ => false; prepares := fun _ => Some true |}.
Lemma demo_laws : AllocLaws demo_os demo_target.
Proof.
  assert (forall lg hint n a, virtualAlloc demo_os lg hint n = Some a -> a = hint /\ hint <> 0 /\
    existsb (fun b => b.1 =? hint) (liveBlocks lg) = false /\ (hint + n <= demo_target \/ demo_target + 16 <= hint)) as H.
  { intros lg hint n a. cbn [virtualAlloc demo_os]. destruct (_ || _) eqn:E; [done|]. intros [= <-]. bool_solve; split_and!; try done; lia. }
  split; intros lg hint n a Ha; destruct (H _ _ _ _ Ha) as (-> & H1 & H2 & H3); try done.
  intros b Hb He. apply not_true_iff_false in H2. apply H2, existsb_exists. exists b. split; [by apply list_elem_of_In|]. by apply Z.eqb_eq.
Qed.
Definition demo_near : Z := demo_target + 0x20000.
Definition demo_installs (replacement : Z) : bool * CodeHook * option Z * Machine :=
  install demo_os hook0 demo_target replacement true (mkMachine demo_code []).
Lemma demo_calm : calm demo_os.
Proof. done. Qed.
Lemma demo_near_ok : (demo_installs demo_near).1.1.1 = true.
Proof. by vm_compute. Qed.
Lemma demo_far_refused : (demo_installs (demo_target + 2 ^ 33)).1.1.1 = false.
Proof. by vm_compute. Qed.

Lemma install_redirects_witness : AllocLaws demo_os demo_target /\
  exists h orig m lg, demo_installs demo_near = ((true, h, orig), mkMachine m lg) /\ m demo_target = 0xE9.
Proof.
  split; [exact demo_laws|]. pose proof demo_near_ok as Hr. unfold demo_installs in *.
  destruct (install _ _ _ _ _ _) as [[[ok h] orig] [m lg]] eqn:E. cbn in Hr. subst ok. exists h, orig, m, lg. split; [done|].
  destruct (install_redirects demo_os demo_target _ _ _ _ _ _ _ _ _ demo_laws E) as (? & ? & ? & H). apply H.
Defined.
