(* ===== verification/OriginEvents.v ===== *)
(** Small owner-side policies about the origin and the head
    (src/src/openxr): pending reference-space changes (reference_changes.h),
    seated resets queued for the game (reset_events.h), the loading screen
    (loading_state.h), the one centring at launch (launch_centre_policy.h,
    seated_origin.h), and the checks on poses they rely on (geometry_snapshot.h,
    space_pose.h).

    Each is shown to be what it is for: the sorted array a bag of pending
    changes, the ring a bounded queue of one generation.  The C library's
    trigonometry is a parameter. *)
From S2P Require Import Prelude.
From stdpp Require Import sorting.
From Stdlib Require Import Floats.SpecFloat.
Open Scope Z_scope.

(** ** Poses *)
Record XrPosef := mkPose { qx : float; qy : float; qz : float; qw : float; px : float; py : float; pz : float }.
Definition sq (f : float) : double := dmul (d_of_f f) (d_of_f f).
Definition poseValid (p : XrPosef) : bool :=
  let q := dadd (dadd (dadd (sq (qx p)) (sq (qy p))) (sq (qz p))) (sq (qw p)) in
  f_finite (qx p) && f_finite (qy p) && f_finite (qz p) && f_finite (qw p) &&
  f_finite (px p) && f_finite (py p) && f_finite (pz p) &&
  dleb (dabs (dsub q (d_of_Z 1))) (d_of_f (f_lit 1 1000)).
Definition POSITION_AND_ORIENTATION_VALID : Z := 3.
Definition POSITION_AND_ORIENTATION_VALID_TRACKED : Z := 15.
Definition hasFlags (flags required : Z) : bool := Z.land flags required =? required.

(** ** Reference-space changes *)
Definition kCapacity : nat := 16.
Record ReferenceChanges := mkRC {
  session_ : Z; pending_ : list Z; count_ : nat; epoch_ : Z; lastTarget_ : Z; advanced_ : bool; active_ : bool }.
Definition changes0 : ReferenceChanges := mkRC 0 (repeat 0 kCapacity) 0 0 0 false false.
#[export] Instance eta_RC : Settable ReferenceChanges := fun s =>
  mkRC (session_ s) (pending_ s) (count_ s) (epoch_ s) (lastTarget_ s) (advanced_ s) (active_ s).
(** XrEventDataReferenceSpaceChangePending: [chained] is a next pointer that is not null. *)
Record ChangeEvent := mkChange {
  rightType : bool; chained : bool; ev_session : Z; localSpace : bool; changeTime : Z; ev_poseValid : Z; poseInPreviousSpace : XrPosef }.
Definition clearState (s : ReferenceChanges) : ReferenceChanges :=
  s <| session_ := 0 |> <| count_ := 0%nat |> <| epoch_ := 0 |> <| lastTarget_ := 0 |> <| advanced_ := false |> <| active_ := false |>.
Definition begin_ (session : Z) (s : ReferenceChanges) : bool * ReferenceChanges :=
  if active_ s || (session =? 0) then (false, s)
  else (true, (clearState s) <| active_ := true |> <| session_ := session |> <| epoch_ := 1 |>).
(** The insertion loop, from slot [at_] downwards. *)
Fixpoint shiftIn (t : Z) (at_ : nat) (l : list Z) : list Z :=
  match at_ with
  | O => <[0%nat := t]> l
  | S k => if t <? nth k l 0 then shiftIn t k (<[S k := nth k l 0]> l) else <[S k := t]> l
  end.
Definition note (e : ChangeEvent) (s : ReferenceChanges) : bool * ReferenceChanges :=
  if negb (active_ s) then (false, s)
  else if negb (ev_session e =? session_ s) || negb (localSpace e) then (true, s)
  else if negb (rightType e) || chained e || negb ((ev_poseValid e =? 0) || (ev_poseValid e =? 1)) then (false, clearState s)
  else if (ev_poseValid e =? 1) && negb (poseValid (poseInPreviousSpace e)) then (false, clearState s)
  else if (count_ s =? kCapacity)%nat then (false, clearState s)
  else (true, s <| pending_ := shiftIn (changeTime e) (count_ s) (pending_ s) |> <| count_ := S (count_ s) |>).
(** How many of the first [count] are due: the while loop. *)
Fixpoint due (target : Z) (l : list Z) (count : nat) : nat :=
  match count, l with
  | S k, t :: l => if t <=? target then S (due target l k) else 0%nat
  | _, _ => 0%nat
  end.
(** The shift down by [n]: for i = n; i < count; ++i. *)
Fixpoint shiftDown (n i left : nat) (l : list Z) : list Z :=
  match left with O => l | S k => shiftDown n (S i) k (<[(i - n)%nat := nth i l 0]> l) end.
(** The answer and the number applied. *)
Definition advance (target : Z) (s : ReferenceChanges) : option nat * ReferenceChanges :=
  if negb (active_ s) || (advanced_ s && (target <? lastTarget_ s)) then (None, clearState s)
  else
    let n := due target (pending_ s) (count_ s) in
    if u64_max - epoch_ s <? Z.of_nat n then (None, clearState s)
    else (Some n, s <| epoch_ ::= fun e => e + Z.of_nat n |> <| pending_ := shiftDown n n (count_ s - n) (pending_ s) |>
                    <| count_ ::= fun c => (c - n)%nat |> <| lastTarget_ := target |> <| advanced_ := true |>).
Definition crosses (from to : Z) (s : ReferenceChanges) : bool :=
  if negb (active_ s) || (to <=? from) then false
  else existsb (fun t => (from <? t) && (t <=? to)) (take (count_ s) (pending_ s)).
Definition epoch (s : ReferenceChanges) : Z := if active_ s then epoch_ s else 0.

(** ** Seated resets *)
Section Resets.
Context {Pose : Type} (pose0 : Pose) (invalidHeadPose : bool -> Pose).
Definition capacity : nat := 16.
Record Item := mkItem { originGeneration : Z; nowMs : Z; item_pose : Pose }.
Record ResetEvents := mkRE { items_ : list Item; head_ : nat; resets_ : nat; generation_ : Z }.
Definition resets0 : ResetEvents := mkRE (repeat (mkItem 0 0 pose0) capacity) 0 0 0.
(** The event and the pose the game receives. *)
Record SeatedZeroPoseReset := mkReset { resetBySystemMenu : bool; eventAgeSeconds : float; event_pose : Pose }.
Definition ageSeconds (now then_ : Z) : float :=
  if then_ <=? now then f_of_d (ddiv (d_of_Z (now - then_)) (d_of_Z 1000)) else f_zero.
Definition resetOf (origin_is_seated : bool) (origin now : Z) (i : Item) : SeatedZeroPoseReset :=
  mkReset false (ageSeconds now (nowMs i))
    (if origin_is_seated && (origin =? originGeneration i) then item_pose i else invalidHeadPose true).
Definition resetBegin (g : Z) (s : ResetEvents) : bool * ResetEvents :=
  if negb (generation_ s =? 0) || (g =? 0) then (false, s) else (true, mkRE (items_ s) 0 0 g).
Definition room (g : Z) (s : ResetEvents) : bool := negb (g =? 0) && (g =? generation_ s) && (resets_ s <? capacity)%nat.
Definition push (g origin now : Z) (p : Pose) (s : ResetEvents) : bool * ResetEvents :=
  if (g =? 0) || negb (g =? generation_ s) || (origin =? 0) || (resets_ s =? capacity)%nat then (false, s)
  else (true, mkRE (<[((head_ s + resets_ s) mod capacity)%nat := mkItem origin now p]> (items_ s)) (head_ s) (S (resets_ s)) (generation_ s)).
Definition pop (g origin : Z) (seated : bool) (now : Z) (s : ResetEvents) : option SeatedZeroPoseReset * ResetEvents :=
  if (g =? 0) || negb (g =? generation_ s) || (resets_ s =? 0)%nat then (None, s)
  else (Some (resetOf seated origin now (nth (head_ s) (items_ s) (mkItem 0 0 pose0))),
        mkRE (items_ s) ((head_ s + 1) mod capacity) (resets_ s - 1) (generation_ s)).
Definition retire (g : Z) (s : ResetEvents) : ResetEvents :=
  if negb (g =? 0) && (g =? generation_ s) then resets0 else s.
End Resets.

(** ** The loading screen *)
Inductive LoadingWork := WorkNone | WorkSkybox | WorkEmpty.
Record LoadingState := mkLS { hasOverride_ : bool; visible_ : bool; clearPending_ : bool; sceneSeen_ : bool }.
Definition loading0 : LoadingState := mkLS false false false false.
#[export] Instance eta_LS : Settable LoadingState := fun s => mkLS (hasOverride_ s) (visible_ s) (clearPending_ s) (sceneSeen_ s).
Definition overrideSet (s : LoadingState) : LoadingState :=
  let s := s <| hasOverride_ := true |> in
  (if negb (sceneSeen_ s) then s <| visible_ := true |> else s) <| clearPending_ := false |>.
Definition overrideCleared (s : LoadingState) : LoadingState :=
  s <| clearPending_ := clearPending_ s || visible_ s |> <| hasOverride_ := false |> <| visible_ := false |>.
Definition sceneCleared (s : LoadingState) : LoadingState :=
  s <| visible_ := hasOverride_ s |> <| clearPending_ := negb (hasOverride_ s) |>.
Definition sceneWaited (s : LoadingState) : LoadingState := s <| clearPending_ := false |>.
Definition sceneSubmitted (s : LoadingState) : bool * LoadingState :=
  (visible_ s, s <| sceneSeen_ := true |> <| visible_ := false |> <| clearPending_ := false |>).
Definition work (gameFrameOpen : bool) (s : LoadingState) : LoadingWork :=
  if gameFrameOpen then WorkNone
  else if clearPending_ s then WorkEmpty
  else if visible_ s && hasOverride_ s then WorkSkybox else WorkNone.
Definition emptyCompleted (s : LoadingState) : LoadingState := s <| clearPending_ := false |>.

(** ** Centring at launch *)
Section Launch.
(** std::atan2, std::sin and std::cos on doubles. *)
Context (atan2 : double -> double -> double) (sin cos : double -> double).
(** The third column of the rotation matrix, first and last entry. *)
Definition r02 (p : XrPosef) : double :=
  dmul (d_of_Z 2) (dadd (dmul (d_of_f (qx p)) (d_of_f (qz p))) (dmul (d_of_f (qy p)) (d_of_f (qw p)))).
Definition r22 (p : XrPosef) : double :=
  dsub (d_of_Z 1) (dmul (d_of_Z 2) (dadd (dmul (d_of_f (qx p)) (d_of_f (qx p))) (dmul (d_of_f (qy p)) (d_of_f (qy p))))).
Definition dneg : double -> double := SFopp.
Definition seatedOriginFromHead (head : XrPosef) (flags : Z) : option XrPosef :=
  if negb (hasFlags flags POSITION_AND_ORIENTATION_VALID) || negb (poseValid head) then None
  else
    let fx := dneg (r02 head) in
    let fz := dneg (r22 head) in
    if dleb (dadd (dmul fx fx) (dmul fz fz)) (d_lit 1 (10 ^ 12)) then None
    else
      let yaw := atan2 (dneg fx) (dneg fz) in
      let half := dmul yaw (d_lit 1 2) in
      Some (mkPose f_zero (f_of_d (sin half)) f_zero (f_of_d (cos half)) (px head) (py head) (pz head)).
Inductive LaunchCentreDecision := Wait | Centre | Expired.
Record LaunchCentrePolicy := mkLC { samples_ : Z; launchPending_ : bool; final_ : LaunchCentreDecision }.
Definition launch0 : LaunchCentrePolicy := mkLC 0 true Wait.
Definition isZero (f : float) : bool := SFeqb f f_zero.
Definition placeholder (p : XrPosef) : bool :=
  if negb (isZero (px p)) || negb (isZero (py p)) || negb (isZero (pz p)) then false
  else isZero (qx p) && isZero (qy p) && isZero (qz p) && (SFeqb (qw p) (f_of_Z 1) || SFeqb (qw p) (f_of_Z (-1))).
Definition decided (d : LaunchCentreDecision) (s : LaunchCentrePolicy) : LaunchCentreDecision * LaunchCentrePolicy :=
  (d, mkLC (samples_ s) false d).
Definition waitSample (s : LaunchCentrePolicy) : LaunchCentreDecision * LaunchCentrePolicy :=
  let s := mkLC (u32 (samples_ s + 1)) (launchPending_ s) (final_ s) in
  if 600 <=? samples_ s then decided Expired s else (Wait, s).
Definition expire (s : LaunchCentrePolicy) : LaunchCentreDecision * LaunchCentrePolicy :=
  if launchPending_ s then decided Expired s else (final_ s, s).
Definition consider (head : XrPosef) (flags : Z) (s : LaunchCentrePolicy) : LaunchCentreDecision * LaunchCentrePolicy :=
  if negb (launchPending_ s) then (final_ s, s)
  else if negb (hasFlags flags POSITION_AND_ORIENTATION_VALID_TRACKED) || negb (poseValid head) || placeholder head then waitSample s
  else match seatedOriginFromHead head flags with None => waitSample s | Some _ => decided Centre s end.
End Launch.

(** ** What the array of pending changes is: a bag *)
Lemma shiftIn_spec t n l : (n < length l)%nat -> StronglySorted Z.le (take n l) ->
  length (shiftIn t n l) = length l /\ take (S n) (shiftIn t n l) ≡ₚ t :: take n l /\
  StronglySorted Z.le (take (S n) (shiftIn t n l)) /\ (forall k, (n < k)%nat -> shiftIn t n l !! k = l !! k).
Proof.
  revert l. induction n as [|n IH]; intros l Hn Hs; cbn [shiftIn].
  { rewrite (take_S_r _ 0 t) by (by apply list_lookup_insert_eq). split_and!; [by rewrite length_insert|done|by repeat constructor|].
    intros k Hk. apply list_lookup_insert_ne. lia. }
  destruct (lookup_lt_is_Some_2 l n) as [x Hx]; [lia|]. rewrite (nth_lookup_Some _ _ 0 _ Hx).
  assert (take (S n) l = take n l ++ [x]) as Ht by by apply take_S_r. rewrite Ht in Hs |- *.
  apply StronglySorted_app in Hs as (Hle & Hs & _).
  destruct (Z.ltb_spec t x) as [Htx|Htx].
  - assert (take n (<[S n:=x]> l) = take n l) as Ht' by (apply take_insert_ge; lia).
    destruct (IH (<[S n:=x]> l)) as (I1 & I2 & I3 & I4); [by rewrite length_insert; lia | by rewrite Ht'|].
    rewrite length_insert in I1. rewrite Ht' in I2.
    assert (shiftIn t n (<[S n:=x]> l) !! S n = Some x) as Hlast by (rewrite I4 by lia; apply list_lookup_insert_eq; lia).
    rewrite (take_S_r _ _ _ Hlast). split_and!; [done|by rewrite I2| |].
    + apply StronglySorted_app_2; [|done|by repeat constructor]. intros a b Ha ->%list_elem_of_singleton. rewrite I2 in Ha.
      apply elem_of_cons in Ha as [->|Ha]; [lia|]. apply Hle; [done|by left].
    + intros k Hk. rewrite I4 by lia. apply list_lookup_insert_ne. lia.
  - rewrite (take_S_r (<[S n:=t]> l) (S n) t) by (apply list_lookup_insert_eq; lia).
    rewrite take_insert_ge, Ht by lia. split_and!; [by rewrite length_insert|by rewrite Permutation_app_comm| |].
    + apply StronglySorted_app_2; [|apply StronglySorted_app_2; [done|done|by repeat constructor]|by repeat constructor].
      intros a b Ha ->%list_elem_of_singleton. apply elem_of_app in Ha as [Ha| ->%list_elem_of_singleton]; [|done].
      specialize (Hle a x Ha ltac:(by left)). lia.
    + intros k Hk. apply list_lookup_insert_ne. lia.
Qed.
Lemma due_spec target l n : StronglySorted Z.le (take n l) -> (n <= length l)%nat -> (due target l n <= n)%nat /\
  take (due target l n) (take n l) = base.filter (fun t => t <= target) (take n l) /\
  drop (due target l n) (take n l) = base.filter (fun t => target < t) (take n l).
Proof.
  revert l. induction n as [|n IH]; intros [|t l] Hs Hn; cbn [take due length drop] in *; try done; try lia.
  apply StronglySorted_cons in Hs as [Hf Hs]. rewrite Forall_forall in Hf. destruct (IH l Hs ltac:(lia)) as (I1 & I2 & I3).
  destruct (Z.leb_spec t target) as [Ht|Ht]; cbn [take drop].
  - rewrite filter_cons_True, filter_cons_False by lia. split_and!; [lia|by f_equal|done].
  - rewrite filter_dropped, filter_kept; [split_and!; [lia|done|done]|..]; intros x [->|Hx]%elem_of_cons; try specialize (Hf x Hx); lia.
Qed.
Lemma length_shiftDown n i k l : length (shiftDown n i k l) = length l.
Proof. revert i l. induction k as [|k IH]; intros i l; cbn [shiftDown]; [done|]. by rewrite IH, length_insert. Qed.
Lemma shiftDown_spec n i k l : (n <= i)%nat -> (i + k <= length l)%nat -> forall j,
  shiftDown n i k l !! j = if decide (i - n <= j < i - n + k)%nat then l !! (j + n)%nat else l !! j.
Proof.
  revert i l. induction k as [|k IH]; intros i l Hn Hl j; cbn [shiftDown]; [case_decide; [lia|done]|].
  destruct (lookup_lt_is_Some_2 l i) as [x Hx]; [lia|]. rewrite (nth_lookup_Some _ _ 0 _ Hx).
  rewrite IH by (rewrite ?length_insert; lia).
  destruct (decide (j = i - n)%nat) as [->|Hj].
  - rewrite (decide_False (P := S i - n <= i - n < _)%nat) by lia. rewrite decide_True by lia. rewrite list_lookup_insert_eq by lia.
    rewrite <-Hx. f_equal. lia.
  - repeat case_decide; try lia; (destruct n as [|n]; [rewrite ?Nat.add_0_r, ?Nat.sub_0_r in *|]);
      try (by rewrite list_lookup_insert_ne by lia).
Qed.
Lemma shiftDown_take n k l : (n + k <= length l)%nat -> take k (shiftDown n n k l) = drop n (take (n + k) l).
Proof.
  intros Hl. apply list_eq. intros j. rewrite lookup_drop. destruct (decide (j < k)%nat).
  - rewrite !lookup_take_lt by lia. rewrite shiftDown_spec by lia. rewrite decide_True by lia. f_equal. lia.
  - rewrite !lookup_take_ge by lia. done.
Qed.

(** The abstract policy: the changes noted and not yet reached, in no order. *)
Record Bag := mkBag { bag_session : Z; bag : list Z; bag_epoch : Z; bag_last : option Z; bag_active : bool }.
Definition bag_off : Bag := mkBag 0 [] 0 None false.
Definition bagBegin (session : Z) (b : Bag) : bool * Bag :=
  if bag_active b || (session =? 0) then (false, b) else (true, mkBag session [] 1 None true).
Definition acceptable (e : ChangeEvent) : bool :=
  rightType e && negb (chained e) && ((ev_poseValid e =? 0) || (ev_poseValid e =? 1) && poseValid (poseInPreviousSpace e)).
Definition bagNote (e : ChangeEvent) (b : Bag) : bool * Bag :=
  if negb (bag_active b) then (false, b)
  else if negb (ev_session e =? bag_session b) || negb (localSpace e) then (true, b)
  else if acceptable e && (length (bag b) <? kCapacity)%nat
       then (true, mkBag (bag_session b) (changeTime e :: bag b) (bag_epoch b) (bag_last b) true)
       else (false, bag_off).
Definition bagAdvance (target : Z) (b : Bag) : option nat * Bag :=
  let reached := length (base.filter (fun t => t <= target) (bag b)) in
  let backwards := match bag_last b with Some l => target <? l | None => false end in
  if negb (bag_active b) || backwards || (u64_max - bag_epoch b <? Z.of_nat reached) then (None, bag_off)
  else (Some reached, mkBag (bag_session b) (base.filter (fun t => target < t) (bag b)) (bag_epoch b + Z.of_nat reached) (Some target) true).
Definition bagCrosses (from to : Z) (b : Bag) : bool := bag_active b && existsb (fun t => (from <? t) && (t <=? to)) (bag b).

Inductive ChangeOp := OBegin (session : Z) | ONote (e : ChangeEvent) | OAdvance (target : Z) | OCrosses (from to : Z) | OEpoch | OClear.
Inductive ChangeOut := AnsBool (b : bool) | AnsApplied (n : option nat) | AnsEpoch (e : Z) | AnsNone.
Definition changeStep (o : ChangeOp) (s : ReferenceChanges) : ChangeOut * ReferenceChanges :=
  match o with
  | OBegin x => let '(r, s) := begin_ x s in (AnsBool r, s)
  | ONote e => let '(r, s) := note e s in (AnsBool r, s)
  | OAdvance t => let '(r, s) := advance t s in (AnsApplied r, s)
  | OCrosses a b => (AnsBool (crosses a b s), s)
  | OEpoch => (AnsEpoch (epoch s), s)
  | OClear => (AnsNone, clearState s)
  end.
Definition bagStep (o : ChangeOp) (b : Bag) : ChangeOut * Bag :=
  match o with
  | OBegin x => let '(r, b) := bagBegin x b in (AnsBool r, b)
  | ONote e => let '(r, b) := bagNote e b in (AnsBool r, b)
  | OAdvance t => let '(r, b) := bagAdvance t b in (AnsApplied r, b)
  | OCrosses x y => (AnsBool (bagCrosses x y b), b)
  | OEpoch => (AnsEpoch (bag_epoch b), b)
  | OClear => (AnsNone, bag_off)
  end.
(** The answers of a sequence of operations. *)
Fixpoint answers {O A S} (step : O -> S -> A * S) (ops : list O) (s : S) : list A :=
  match ops with [] => [] | o :: ops => let '(a, s) := step o s in a :: answers step ops s end.
(** A step by step simulation gives the same answers. *)
Lemma answers_simulated {O A S T} (step : O -> S -> A * S) (spec : O -> T -> A * T) (R : S -> T -> Prop) :
  (forall o s t, R s t -> (step o s).1 = (spec o t).1 /\ R (step o s).2 (spec o t).2) ->
  forall ops s t, R s t -> answers step ops s = answers spec ops t.
Proof.
  intros Hs ops. induction ops as [|o ops IH]; intros s t HR; cbn; [done|]. destruct (Hs o s t HR) as [Ha HR'].
  destruct (step o s) as [a s'], (spec o t) as [b t']. cbn in *. by rewrite Ha, (IH s' t').
Qed.

Record Bagged (s : ReferenceChanges) (b : Bag) : Prop := {
  bg_active : bag_active b = active_ s;
  bg_session : bag_session b = session_ s;
  bg_epoch : bag_epoch b = epoch_ s;
  bg_last : bag_last b = if advanced_ s then Some (lastTarget_ s) else None;
  bg_items : take (count_ s) (pending_ s) ≡ₚ bag b;
  bg_sorted : StronglySorted Z.le (take (count_ s) (pending_ s));
  bg_length : length (pending_ s) = kCapacity;
  bg_count : (count_ s <= kCapacity)%nat;
  bg_off : active_ s = false -> epoch_ s = 0 }.
Lemma bagged_clear s : length (pending_ s) = kCapacity -> Bagged (clearState s) bag_off.
Proof. intros H. split; cbn; try done; try lia; constructor. Qed.
Lemma filter_perm_length {A} (P : A -> Prop) `{!forall x, Decision (P x)} (l l' : list A) :
  l ≡ₚ l' -> length (base.filter P l) = length (base.filter P l').
Proof. intros Hp. by rewrite Hp. Qed.
Lemma existsb_perm {A} (f : A -> bool) l l' : l ≡ₚ l' -> existsb f l = existsb f l'.
Proof. induction 1; cbn; try congruence. destruct (f x), (f y); done. Qed.
Lemma acceptable_spec e : acceptable e =
  negb (negb (rightType e) || chained e || negb ((ev_poseValid e =? 0) || (ev_poseValid e =? 1))) &&
  negb ((ev_poseValid e =? 1) && negb (poseValid (poseInPreviousSpace e))).
Proof.
  unfold acceptable. destruct (rightType e), (chained e); cbn; try done.
  destruct (Z.eqb_spec (ev_poseValid e) 0) as [->|?]; [done|]. destruct (ev_poseValid e =? 1), (poseValid _); done.
Qed.
Lemma bagged_note e s b : Bagged s b -> (changeStep (ONote e) s).1 = (bagStep (ONote e) b).1 /\ Bagged (changeStep (ONote e) s).2 (bagStep (ONote e) b).2.
Proof.
  intros HB. pose proof HB as [Ha Hs He Hl Hi Ho Hn Hc Hf]. cbn [changeStep bagStep]. unfold note, bagNote. rewrite Ha, Hs.
  destruct (active_ s) eqn:Eact; cbn [negb]; [|by split].
  destruct (negb _ || negb (localSpace e)); [by split|].
  assert (length (bag b) = count_ s) as Hlen by (rewrite <-Hi, length_take; lia). rewrite Hlen.
  pose proof (bagged_clear s Hn) as Hclear.
  rewrite acceptable_spec. destruct (negb (rightType e) || _ || _); cbn [negb andb fst snd]; [done|].
  destruct (_ && negb _); cbn [negb andb fst snd]; [done|].
  destruct (Nat.eqb_spec (count_ s) kCapacity) as [Hfull|Hroom]; [by rewrite (proj2 (Nat.ltb_ge _ _)) by lia|].
  rewrite (proj2 (Nat.ltb_lt _ _)) by lia. cbn [fst snd]. split; [done|].
  destruct (shiftIn_spec (changeTime e) (count_ s) (pending_ s)) as (S1 & S2 & S3 & _); [lia|done|].
  split; cbn -[take shiftIn kCapacity]; try done; try lia; [by rewrite S2, Hi | congruence].
Qed.
Lemma bagged_advance t s b : Bagged s b -> (changeStep (OAdvance t) s).1 = (bagStep (OAdvance t) b).1 /\ Bagged (changeStep (OAdvance t) s).2 (bagStep (OAdvance t) b).2.
Proof.
  intros HB. pose proof HB as [Ha Hs He Hl Hi Ho Hn Hc Hf]. cbn [changeStep bagStep]. unfold advance, bagAdvance. rewrite Ha, He, Hl.
  pose proof (bagged_clear s Hn) as Hclear. destruct (due_spec t (pending_ s) (count_ s)) as (D1 & D2 & D3); [done|lia|].
  rewrite <-(filter_perm_length (fun x => x <= t) _ _ Hi), <-D2.
  set (n := due t (pending_ s) (count_ s)) in *. rewrite !length_take. replace (n `min` (count_ s `min` length (pending_ s)))%nat with n by lia.
  destruct (active_ s) eqn:Eact; cbn [negb orb fst snd]; [|done].
  replace (match (if advanced_ s then Some (lastTarget_ s) else None) with Some l => t <? l | None => false end)
    with (advanced_ s && (t <? lastTarget_ s)) by (by destruct (advanced_ s)).
  destruct (advanced_ s && _); cbn [orb fst snd]; [done|]. destruct (_ <? _); cbn [fst snd]; [done|]. split; [done|].
  assert (take (count_ s - n) (shiftDown n n (count_ s - n) (pending_ s)) = drop n (take (count_ s) (pending_ s))) as Hd.
  { rewrite shiftDown_take by lia. f_equal. f_equal. lia. }
  split; cbn; try done; rewrite ?length_shiftDown; try done; try lia.
  - rewrite Hd, D3. by rewrite Hi.
  - rewrite Hd. rewrite <-(take_drop n (take (count_ s) (pending_ s))) in Ho. by apply StronglySorted_app_1_r in Ho.
  - congruence.
Qed.
Lemma bagged_step o s b : Bagged s b -> (changeStep o s).1 = (bagStep o b).1 /\ Bagged (changeStep o s).2 (bagStep o b).2.
Proof.
  intros HB. pose proof HB as [Ha Hs He Hl Hi Ho Hn Hc Hf]. destruct o as [x|e|t|from to| |]; cbn [changeStep bagStep].
  - unfold begin_, bagBegin. rewrite Ha. destruct (active_ s || (x =? 0)) eqn:E; cbn [fst snd].
    + split; [done|]. by split.
    + split; [done|]. split; cbn; try done; try lia; constructor.
  - by apply bagged_note.
  - by apply bagged_advance.
  - split; [|by split]. cbn. f_equal. unfold crosses, bagCrosses. rewrite Ha. destruct (active_ s); cbn; [|done].
    rewrite (existsb_perm _ _ _ Hi). destruct (Z.leb_spec to from); [|done]. symmetry. apply not_true_iff_false.
    intros (t & _ & Ht)%existsb_exists. bool_solve. lia.
  - cbn. split; [|by split]. unfold epoch. rewrite He. destruct (active_ s) eqn:E; [done|]. by rewrite Hf.
  - cbn. split; [done|]. by apply bagged_clear.
Qed.

(** C29. The sorted array of pending reference-space changes answers every sequence
    of operations exactly as a bag of change times would: a noted change is applied
    by the first advance that reaches it and by no other, "crosses" tells whether a
    noted change that is not yet applied lies between two times, the epoch counts
    the changes applied, time that runs backwards, a bad event or a seventeenth
    pending change turns the policy off. *)
Theorem reference_changes_refine ops : answers changeStep ops changes0 = answers bagStep ops bag_off.
Proof. apply (answers_simulated _ _ Bagged bagged_step). split; cbn; try done; try lia; constructor. Qed.

(** ** What the ring of resets is: a bounded queue of one generation *)
Section Queue.
Context {Pose : Type} (pose0 : Pose) (invalidHeadPose : bool -> Pose).
Record Queue := mkQueue { q_generation : Z; queue : list (@Item Pose) }.
Inductive ResetOp := RBegin (g : Z) | RRoom (g : Z) | RPush (g origin now : Z) (p : Pose) | RPop (g origin : Z) (seated : bool) (now : Z) | RRetire (g : Z).
Inductive ResetOut := RBool (b : bool) | REvent (e : option (@SeatedZeroPoseReset Pose)) | RNone.
Definition resetStep (o : ResetOp) (s : ResetEvents) : ResetOut * ResetEvents :=
  match o with
  | RBegin g => let '(r, s) := resetBegin g s in (RBool r, s)
  | RRoom g => (RBool (room g s), s)
  | RPush g og now p => let '(r, s) := push g og now p s in (RBool r, s)
  | RPop g og seated now => let '(r, s) := pop pose0 invalidHeadPose g og seated now s in (REvent r, s)
  | RRetire g => (RNone, retire pose0 g s)
  end.
Definition current (g : Z) (q : Queue) : bool := negb (g =? 0) && (g =? q_generation q).
Definition queueStep (o : ResetOp) (q : Queue) : ResetOut * Queue :=
  match o with
  | RBegin g => if (q_generation q =? 0) && negb (g =? 0) then (RBool true, mkQueue g []) else (RBool false, q)
  | RRoom g => (RBool (current g q && (length (queue q) <? capacity)%nat), q)
  | RPush g og now p =>
      if current g q && negb (og =? 0) && (length (queue q) <? capacity)%nat
      then (RBool true, mkQueue g (queue q ++ [mkItem og now p])) else (RBool false, q)
  | RPop g og seated now =>
      match current g q, queue q with
      | true, i :: rest => (REvent (Some (resetOf invalidHeadPose seated og now i)), mkQueue g rest)
      | _, _ => (REvent None, q)
      end
  | RRetire g => (RNone, if current g q then mkQueue 0 [] else q)
  end.
Record Ring (s : ResetEvents) (q : Queue) : Prop := {
  ri_generation : q_generation q = generation_ s;
  ri_length : length (items_ s) = capacity;
  ri_head : (head_ s < capacity)%nat;
  ri_count : (resets_ s <= capacity)%nat;
  ri_size : length (queue q) = resets_ s;
  ri_items : forall k, (k < resets_ s)%nat -> queue q !! k = items_ s !! ((head_ s + k) mod capacity)%nat }.
Lemma queue_ring_index h k : (h < capacity)%nat -> (k <= capacity)%nat ->
  ((h + k) mod capacity = if decide (h + k < capacity) then h + k else h + k - capacity)%nat.
Proof.
  unfold capacity. intros. case_decide; [apply Nat.mod_small; lia|].
  replace (h + k)%nat with (h + k - 16 + 1 * 16)%nat at 1 by lia. rewrite Nat.Div0.mod_add. apply Nat.mod_small. lia.
Qed.
Lemma ring_step o s q : Ring s q -> (resetStep o s).1 = (queueStep o q).1 /\ Ring (resetStep o s).2 (queueStep o q).2.
Proof.
  intros HR. pose proof HR as [Hg Hl Hh Hc Hs Hi]. destruct o as [g|g|g og now p|g og seated now|g]; cbn [resetStep queueStep]; unfold current; rewrite ?Hg, ?Hs.
  - unfold resetBegin. destruct (generation_ s =? 0), (g =? 0); cbn; try done. split; [done|]. split; cbn; try done; unfold capacity in *; lia.
  - done.
  - unfold push. destruct (g =? 0), (g =? generation_ s) eqn:Eg, (og =? 0); cbn [negb andb orb fst snd]; try done.
    apply Z.eqb_eq in Eg. destruct (Nat.eqb_spec (resets_ s) capacity) as [Hf|Hf]; [by rewrite (proj2 (Nat.ltb_ge _ _)) by lia|].
    rewrite (proj2 (Nat.ltb_lt _ _)) by lia. cbn [fst snd]. split; [done|].
    split; cbn [q_generation generation_ items_ head_ resets_ queue]; try done; [by rewrite length_insert|lia|rewrite length_app; cbn; lia|].
    intros k Hk. destruct (decide (k = resets_ s)) as [->|Hne].
    + rewrite lookup_app_r, Hs, Nat.sub_diag by lia. rewrite list_lookup_insert_eq; [done|].
      rewrite Hl. apply Nat.mod_upper_bound. done.
    + rewrite lookup_app_l by lia. rewrite list_lookup_insert_ne; [apply Hi; lia|]. rewrite !queue_ring_index by lia. repeat case_decide; lia.
  - unfold pop. destruct (g =? 0), (g =? generation_ s) eqn:Eg; cbn [negb andb orb fst snd]; try done. apply Z.eqb_eq in Eg.
    destruct (queue q) as [|i rest] eqn:Eq; cbn in Hs; rewrite <-Hs; cbn [Nat.eqb fst snd]; [done|].
    assert (items_ s !! head_ s = Some i) as H0.
    { rewrite <-(Nat.add_0_r (head_ s)), <-(Nat.mod_small (head_ s + 0) capacity) by lia. rewrite <-Hi by lia. done. }
    rewrite (nth_lookup_Some _ _ _ _ H0). split; [done|].
    split; cbn [q_generation generation_ items_ head_ resets_ queue]; try done; try lia; [apply Nat.mod_upper_bound; done|].
    intros k Hk. pose proof (Hi (S k) ltac:(lia)) as Hk1. change ((i :: rest) !! S k) with (rest !! k) in Hk1. rewrite Hk1. f_equal. unfold capacity in *. rewrite Nat.Div0.add_mod_idemp_l. f_equal. lia.
  - unfold retire. destruct (negb (g =? 0) && (g =? generation_ s)); [|done]. split; [done|]. split; cbn; try done; unfold capacity; lia.
Qed.
(** The ring of seated resets answers every sequence of operations exactly as a
    first-in first-out queue of at most sixteen would, one generation at a time:
    each accepted reset is delivered once, in order, with its own age and pose, to
    its own generation only, and none is delivered after its generation retired. *)
Theorem reset_events_refine ops : answers resetStep ops (resets0 pose0) = answers queueStep ops (mkQueue 0 []).
Proof. apply (answers_simulated _ _ Ring ring_step). split; cbn; try done; unfold capacity; lia. Qed.
End Queue.

(** ** The loading screen *)
Inductive LoadingOp := LOverrideSet | LOverrideCleared | LSceneCleared | LSceneWaited | LSceneSubmitted | LEmptyCompleted.
Definition loadingStep (o : LoadingOp) (s : LoadingState) : LoadingState :=
  match o with
  | LOverrideSet => overrideSet s | LOverrideCleared => overrideCleared s | LSceneCleared => sceneCleared s
  | LSceneWaited => sceneWaited s | LSceneSubmitted => (sceneSubmitted s).2 | LEmptyCompleted => emptyCompleted s
  end.
Definition loadingRun (ops : list LoadingOp) (s : LoadingState) : LoadingState := fold_left (fun s o => loadingStep o s) ops s.
(** The skybox is asked for exactly while it is visible, it is visible only while
    there is an override, and never together with an empty frame owed. *)
Lemma loading_screen ops : let s := loadingRun ops loading0 in
  (visible_ s = true -> hasOverride_ s = true /\ clearPending_ s = false) /\
  (work false s = WorkSkybox <-> visible_ s = true) /\ work true s = WorkNone.
Proof.
  assert (forall s, (visible_ s = true -> hasOverride_ s = true /\ clearPending_ s = false) ->
    (visible_ (loadingRun ops s) = true -> hasOverride_ (loadingRun ops s) = true /\ clearPending_ (loadingRun ops s) = false)) as H.
  { unfold loadingRun. induction ops as [|o ops IH]; intros s Hs; [done|]. apply IH. destruct s as [h v c e].
    destruct o, h, v, c, e; cbn in *; tauto || (intuition congruence). }
  specialize (H loading0 ltac:(done)). cbv zeta. split; [done|]. split; [|done]. unfold work. revert H.
  destruct (loadingRun ops loading0) as [h v c e]. destruct h, v, c; cbn; intuition congruence.
Qed.

(** ** Centring at launch *)
Section LaunchOnce.
Context (atan2 : double -> double -> double) (sin cos : double -> double).
Definition considerAll (l : list (XrPosef * Z)) (s : LaunchCentrePolicy) : list LaunchCentreDecision :=
  answers (fun x s => consider atan2 sin cos x.1 x.2 s) l s.
Lemma decided_stays l s : launchPending_ s = false -> considerAll l s = repeat (final_ s) (length l).
Proof.
  intros Hp. unfold considerAll. induction l as [|x l IH]; cbn; [done|]. unfold consider at 1. rewrite Hp. cbn. by rewrite IH.
Qed.
(** What one sample decides. *)
Definition mayCentre (head : XrPosef) (flags : Z) : Prop :=
  hasFlags flags POSITION_AND_ORIENTATION_VALID_TRACKED = true /\ poseValid head = true /\ placeholder head = false /\
  is_Some (seatedOriginFromHead atan2 sin cos head flags).
Lemma consider_cases head flags s : launchPending_ s = true -> 0 <= samples_ s < 600 -> exists r s', consider atan2 sin cos head flags s = (r, s') /\
  (r = Wait /\ launchPending_ s' = true /\ samples_ s' = samples_ s + 1 /\ samples_ s + 1 < 600 \/
   r <> Wait /\ launchPending_ s' = false /\ final_ s' = r /\ (r = Centre -> mayCentre head flags)).
Proof.
  intros Hp Hs. assert (exists r s', waitSample s = (r, s') /\
    (r = Wait /\ launchPending_ s' = true /\ samples_ s' = samples_ s + 1 /\ samples_ s + 1 < 600 \/
     r <> Wait /\ launchPending_ s' = false /\ final_ s' = r /\ (r = Centre -> mayCentre head flags))) as Hw.
  { unfold waitSample. cbn [samples_]. rewrite u32_small by (unfold is_u32, u32_max; lia).
    destruct (Z.leb_spec 600 (samples_ s + 1)); eexists _, _; (split; [reflexivity|]); [right|left]; cbn; split_and!; done || lia. }
  unfold consider. rewrite Hp. cbn [negb]. destruct (negb _ || negb (poseValid head) || placeholder head) eqn:E; [exact Hw|].
  destruct (seatedOriginFromHead atan2 sin cos head flags) as [o|] eqn:Eo; [|exact Hw].
  bool_solve. eexists _, _. split; [reflexivity|]. right. cbn. split_and!; try done; rewrite Eo; eauto.
Qed.
Lemma take_repeat_more {A} (a d : A) n k : take k (repeat a n ++ repeat d (S k)) = take k (repeat a n ++ repeat d k).
Proof.
  replace (repeat d (S k)) with (repeat d k ++ [d]) by (symmetry; apply (repeat_cons k d)). rewrite app_assoc. apply take_app_le.
  rewrite length_app, !repeat_length. lia.
Qed.
(** The launch decision is made once and within 600 samples: some number of
    waits, fewer than 600, then one decision for good; and "centre" is decided only
    on a tracked, valid pose that is not the runtime's placeholder and has a heading. *)
Theorem launch_decides_once l s (Hp : launchPending_ s = true) (Hs : 0 <= samples_ s < 600) :
  exists n d, Z.of_nat n < 600 - samples_ s /\ d <> Wait /\
  considerAll l s = take (length l) (repeat Wait n ++ repeat d (length l)) /\
  (d = Centre -> (n < length l)%nat -> exists head flags, l !! n = Some (head, flags) /\ mayCentre head flags).
Proof.
  revert s Hp Hs. induction l as [|[head flags] l IH]; intros s Hp Hs.
  { exists 0%nat, Expired. split_and!; try done; lia. }
  destruct (consider_cases head flags s Hp Hs) as (r & s' & E & [(-> & Hp' & Hs' & Hlt)|(Hr & Hp' & Hf & Hc)]).
  - destruct (IH s' Hp' ltac:(lia)) as (n & d & Hn & Hd & Hans & Hcen). exists (S n), d. split_and!; [lia|done| |].
    + unfold considerAll in *. cbn [answers fst snd length]. rewrite E, Hans. exact (f_equal (cons Wait) (eq_sym (take_repeat_more Wait d n (length l)))).
    + intros Hd' Hl. cbn in Hl. destruct (Hcen Hd' ltac:(lia)) as (h & f & Hl' & Hm). by exists h, f.
  - exists 0%nat, r. split_and!; [lia|done| |].
    + unfold considerAll. cbn [answers fst snd length]. rewrite E. pose proof (decided_stays l s' Hp') as Hst. unfold considerAll in Hst. rewrite Hst, Hf.
      cbn [repeat app]. rewrite firstn_all2 by (cbn; by rewrite repeat_length). done.
    + intros Hcen _. exists head, flags. split; [done|auto].
Qed.
End LaunchOnce.
Definition demo_head : XrPosef := mkPose f_zero f_zero f_zero (f_of_Z 1) f_zero (f_of_Z 1) f_zero.
Definition demo_samples : list (XrPosef * Z) := [(demo_head, 3); (demo_head, 15); (demo_head, 0)].
Definition demo_atan2 (y x : double) : double := y.
Lemma launch_decides_once_witness :
  considerAll demo_atan2 id id demo_samples launch0 = [Wait; Centre; Centre] /\
  exists n d, Z.of_nat n < 600 /\ considerAll demo_atan2 id id demo_samples launch0 = take 3 (repeat Wait n ++ repeat d 3).
Proof.
  split; [by vm_compute|]. destruct (launch_decides_once demo_atan2 id id demo_samples launch0) as (n & d & H1 & _ & H3 & _); [done|cbn; lia|].
  exists n, d. by split.
Defined.
