(* ===== verification/SharedChannel.v ===== *)
(** The channel between the two DLLs (src/src/common/frame_flag.h and
    frame_flag.cpp): a block of words in shared memory, mapped by a name that
    carries the layout's version, and the roll-call by which a half finds that its
    partner was built with another layout.

    A half is one of the DLLs; a call is a program of single memory accesses
    ([Prog]), so calls of several halves interleave access by access.  Whether
    Windows maps a block is arbitrary.  A function's own static that C++ initialises
    once is a phase of the half: a thread that finds the initialisation running
    waits for it, here by taking its next step. *)
From S2P Require Import Prelude Rounding.
From stdpp Require Import functions.
From Stdlib Require Import Floats.SpecFloat.
Open Scope Z_scope.

(** ** Programs of atomic steps *)
Inductive Prog (W A : Type) : Type :=
  | Ret (a : A)
  | Act (f : W -> W) (k : W -> Prog W A).
Arguments Ret {W A}. Arguments Act {W A}.
Fixpoint bindP {W A B} (k : A -> Prog W B) (p : Prog W A) : Prog W B :=
  match p with Ret a => k a | Act f g => Act f (fun w => bindP k (g w)) end.
#[export] Instance Prog_ret W : MRet (Prog W) := fun A => Ret.
#[export] Instance Prog_bind W : MBind (Prog W) := fun A B k p => bindP k p.
#[export] Instance Prog_fmap W : FMap (Prog W) := fun A B g p => bindP (fun a => Ret (g a)) p.
(** Alone: nobody else takes a step. *)
Fixpoint run {W A} (p : Prog W A) (w : W) : A * W :=
  match p with Ret a => (a, w) | Act f k => run (k w) (f w) end.
(** Against others, who do the next entry of [env] before each step and the rest
    afterwards. *)
Fixpoint against {W A} (p : Prog W A) (env : list (W -> W)) (w : W) : A * W :=
  match p, env with
  | Ret a, _ => (a, foldl (fun w e => e w) w env)
  | Act f k, [] => run (k w) (f w)
  | Act f k, e :: env => against (k (e w)) env (f (e w))
  end.
(** The loops over arrays, element by element. *)
Fixpoint forEach {W A} (l : list A) (i : nat) (f : nat -> A -> Prog W unit) : Prog W unit :=
  match l with [] => mret tt | a :: l => f i a;; forEach l (S i) f end.
Fixpoint collect {W A} (n i : nat) (g : nat -> Prog W A) : Prog W (list A) :=
  match n with O => mret [] | S n => a ← g i; l ← collect n (S i) g; mret (a :: l) end.

(** ** The shared block *)
Record Shared := mkShared {
  w_flag : Z; w_consumer : Z; w_externalCam : Z; w_externalCamStamp : Z; w_holdFrames : Z; w_eyeSize : Z;
  w_submitTex : nat -> Z; w_fssChromeStamp : Z; w_fssPanelRectSeq : Z; w_fssArrivalStamp : Z; w_headPoseSeq : Z;
  w_headPoseM : nat -> float; w_fssPanelRect : nat -> float; w_cullGuard : Z; w_eyeTangents : Z; w_eyeTangentsV : Z;
  w_headForward : Z; w_gameDev : Z; w_sceneArrived : Z; w_menuAnchorSeq : Z; w_menuAnchorM : nat -> float;
  w_menuAlphaMille : Z; w_menuVisibleStamp : Z; w_menuDrawn : Z; w_menuHeadLock : Z; w_jumpVerdict : Z;
  w_runtimeMaskTri : Z; w_introRecentre : Z; w_poseReaderRequest : Z; w_poseReaderSeq : Z; w_poseReaderRenderPtr : Z;
  w_poseReaderGamePtr : Z; w_poseReaderQpc : Z; w_poseReaderRenderCount : Z; w_poseReaderGameCount : Z;
  w_poseReaderThreadId : Z; w_poseReaderFlags : Z }.
#[export] Instance eta_Shared : Settable Shared := fun s => mkShared
  (w_flag s) (w_consumer s) (w_externalCam s) (w_externalCamStamp s) (w_holdFrames s) (w_eyeSize s)
  (w_submitTex s) (w_fssChromeStamp s) (w_fssPanelRectSeq s) (w_fssArrivalStamp s) (w_headPoseSeq s)
  (w_headPoseM s) (w_fssPanelRect s) (w_cullGuard s) (w_eyeTangents s) (w_eyeTangentsV s)
  (w_headForward s) (w_gameDev s) (w_sceneArrived s) (w_menuAnchorSeq s) (w_menuAnchorM s)
  (w_menuAlphaMille s) (w_menuVisibleStamp s) (w_menuDrawn s) (w_menuHeadLock s) (w_jumpVerdict s)
  (w_runtimeMaskTri s) (w_introRecentre s) (w_poseReaderRequest s) (w_poseReaderSeq s) (w_poseReaderRenderPtr s)
  (w_poseReaderGamePtr s) (w_poseReaderQpc s) (w_poseReaderRenderCount s) (w_poseReaderGameCount s)
  (w_poseReaderThreadId s) (w_poseReaderFlags s).
(** Windows zeroes a new mapping. *)
Definition shared0 : Shared :=
  mkShared 0 0 0 0 0 0 (fun _ => 0) 0 0 0 0 (fun _ => f_zero) (fun _ => f_zero) 0 0 0 0 0 0 0 (fun _ => f_zero)
    0 0 0 0 0 0 0 0 0 0 0 0 0 0 0 0.
Definition kFrameFlagVersion : Z := 35.
Definition kUnsignedLayout : Z := 33.
Definition kHeadLockBias : Z := 1800.

(** ** The halves and the roll-call *)
(** Where the initialisation of the roll-call stands: [Took was] after the first
    exchange, which found [was]. *)
Inductive Phase := NotSigned | Took (was : Z) | Wrote | Signed (mapped : bool).
Record Half := mkHalf {
  version : Z; phase : Phase; g_unsignedPeer : Z; blockMapped : option bool;
  g_worldJump : Z; verdictCount : Z; lastStamp : Z; sinceMoved : Z; everMoved : bool }.
#[export] Instance eta_Half : Settable Half := fun s => mkHalf
  (version s) (phase s) (g_unsignedPeer s) (blockMapped s) (g_worldJump s) (verdictCount s) (lastStamp s) (sinceMoved s) (everMoved s).
Definition half0 (v : Z) : Half := mkHalf v NotSigned 0 None 0 0 0 0 false.
Record World := mkWorld {
  first : Z; other : Z; signers : Z; halves : nat -> Half; blocks : Z -> Shared; created : Z -> bool }.
#[export] Instance eta_World : Settable World := fun s => mkWorld
  (first s) (other s) (signers s) (halves s) (blocks s) (created s).
Definition world0 (versions : nat -> Z) (exists_ : Z -> bool) : World :=
  mkWorld 0 0 0 (fun h => half0 (versions h)) (fun _ => shared0) exists_.
Definition inc32 (x : Z) : Z := s32 (x + 1).

Section Channel.
(** Whether Windows refuses a half the mapping of the roll-call, of the block. *)
Context (rollFails blockFails : nat -> bool).

Definition onHalf (h : nat) (g : Half -> Half) (w : World) : World := w <| halves ::= fun hs => <[h := g (hs h)]> hs |>.
Definition theirs (h : nat) (w : World) : Shared := blocks w (version (halves w h)).
Definition onBlock (h : nat) (u : Shared -> Shared) (w : World) : World :=
  w <| blocks ::= fun bs => <[version (halves w h) := u (bs (version (halves w h)))]> bs |>.
Definition look {A} (g : World -> A) : Prog World A := Act (fun w => w) (fun w => Ret (g w)).
Definition load {A} (h : nat) (g : Shared -> A) : Prog World A := look (fun w => g (theirs h w)).
Definition store (h : nat) (u : Shared -> Shared) : Prog World unit := Act (onBlock h u) (fun _ => Ret tt).
Definition static {A} (h : nat) (g : Half -> A) : Prog World A := look (fun w => g (halves w h)).
Definition setStatic (h : nat) (g : Half -> Half) : Prog World unit := Act (onHalf h g) (fun _ => Ret tt).

(** The next step of the roll-call's initialisation. *)
Definition signStep (h : nat) (w : World) : World :=
  let ours := version (halves w h) in
  match phase (halves w h) with
  | NotSigned =>
      if rollFails h then onHalf h (fun s => s <| phase := Signed false |>) w
      else (onHalf h (fun s => s <| phase := Took (first w) |>) w) <| first := if first w =? 0 then ours else first w |>
  | Took was =>
      let w := onHalf h (fun s => s <| phase := Wrote |>) w in
      if negb (was =? 0) && negb (was =? ours) then w <| other := if other w =? 0 then ours else other w |> else w
  | Wrote => (onHalf h (fun s => s <| phase := Signed true |>) w) <| signers ::= inc32 |>
  | Signed _ => w
  end.
(** The pointer: false is null. *)
Definition rollCall (h : nat) : Prog World bool :=
  let step := Act (signStep h) (fun _ => Ret tt) in
  step;; step;; step;; static h (fun s => match phase s with Signed ok => ok | _ => false end).
Definition peerMismatch (h : nat) : Prog World Z :=
  unsignedPeer ← static h g_unsignedPeer;
  if negb (unsignedPeer =? 0) then mret unsignedPeer
  else
    r ← rollCall h;
    if negb r then mret 0
    else
      ours ← static h version;
      f ← look first; o ← look other;
      if negb (f =? 0) && negb (f =? ours) then mret f
      else if negb (o =? 0) && negb (o =? ours) then mret o
      else mret 0.
(** The block is mapped at its first use; its name carries the half's version. *)
Definition mapBlock (h : nat) (w : World) : World :=
  match blockMapped (halves w h) with
  | Some _ => w
  | None =>
      if blockFails h then onHalf h (fun s => s <| blockMapped := Some false |>) w
      else (onHalf h (fun s => s <| blockMapped := Some true |>) w) <| created ::= fun c => <[version (halves w h) := true]> c |>
  end.
Definition block (h : nat) : Prog World bool :=
  Act (mapBlock h) (fun _ => Ret tt);; static h (fun s => default false (blockMapped s)).
Definition map_ (h : nat) : Prog World bool :=
  m ← peerMismatch h; if negb (m =? 0) then mret false else block h.
Definition frameFlagPeerMismatch (h : nat) : Prog World Z :=
  m ← peerMismatch h;
  if negb (m =? 0) then mret (u32 m)
  else
    r ← rollCall h;
    n ← look signers;
    if r && (2 <=? n) then mret 0
    else
      found ← look (fun w => created w kUnsignedLayout);
      if negb found then mret 0
      else
        setStatic h (fun s => s <| g_unsignedPeer ::= fun u => if u =? 0 then kUnsignedLayout else u |>);;
        mret kUnsignedLayout.
(** Every accessor: [dflt] when there is no map. *)
Definition onMap {A} (h : nat) (dflt : A) (body : Prog World A) : Prog World A :=
  s ← map_ h; if (s : bool) then body else mret dflt.
Definition whenMap (h : nat) (body : Prog World unit) : Prog World unit := onMap h tt body.
Definition isSet (h : nat) (g : Shared -> Z) : Prog World bool :=
  onMap h false (v ← load h g; mret (negb (v =? 0))).

(** ** Marks, stamps and pointers *)
Definition noteWorldJump (h : nat) : Prog World unit := setStatic h (fun s => s <| g_worldJump := 1 |>).
Definition takeWorldJump (h : nat) : Prog World bool :=
  Act (onHalf h (fun s => s <| g_worldJump := 0 |>)) (fun w => Ret (negb (g_worldJump (halves w h) =? 0))).
Definition publishHeadPose (h : nat) (m12 : option (list float)) : Prog World unit :=
  whenMap h (match m12 with
  | None => mret tt
  | Some m => forEach (take 12 m) 0 (fun i x => store h (fun s => s <| w_headPoseM ::= fun a => <[i := x]> a |>));;
              store h (fun s => s <| w_headPoseSeq ::= inc32 |>)
  end).
Definition headPose (h : nat) : Prog World (option (list float)) :=
  onMap h None (seq ← load h w_headPoseSeq;
    if seq =? 0 then mret None else Some <$> collect 12 0 (fun i => load h (fun s => w_headPoseM s i))).
Definition publishFssPanelRect (h : nat) (corners16 : option (list float)) : Prog World unit :=
  whenMap h (match corners16 with
  | None => mret tt
  | Some m => forEach (take 16 m) 0 (fun i x => store h (fun s => s <| w_fssPanelRect ::= fun a => <[i := x]> a |>));;
              store h (fun s => s <| w_fssPanelRectSeq ::= inc32 |>)
  end).
Definition readFssPanelRect (h : nat) : Prog World (option (list float)) :=
  onMap h None (seq ← load h w_fssPanelRectSeq;
    if seq =? 0 then mret None else Some <$> collect 16 0 (fun i => load h (fun s => w_fssPanelRect s i))).
Definition bumpFssArrivalStamp (h : nat) : Prog World unit := whenMap h (store h (fun s => s <| w_fssArrivalStamp ::= inc32 |>)).
Definition fssArrivalStampValue (h : nat) : Prog World Z := onMap h 0 (load h w_fssArrivalStamp).
(** Not interlocked: a read, then a write. *)
Definition bumpFssChromeStamp (h : nat) : Prog World unit :=
  whenMap h (v ← load h w_fssChromeStamp; store h (fun s => s <| w_fssChromeStamp := inc32 v |>)).
Definition fssChromeStampValue (h : nat) : Prog World Z := onMap h 0 (load h w_fssChromeStamp).
Definition publishSubmitTexture (h : nat) (eye texture : Z) : Prog World unit :=
  whenMap h (if (eye <? 0) || (1 <? eye) then mret tt else store h (fun s => s <| w_submitTex ::= fun a => <[Z.to_nat eye := s64 texture]> a |>)).
Definition submittedTexture (h : nat) (eye : Z) : Prog World Z :=
  onMap h 0 (if (eye <? 0) || (1 <? eye) then mret 0 else load h (fun s => u64 (w_submitTex s (Z.to_nat eye)))).
Definition publishGameDevice (h : nat) (device : Z) : Prog World unit := whenMap h (store h (fun s => s <| w_gameDev := s64 device |>)).
Definition gameDevice (h : nat) : Prog World Z := onMap h 0 (load h (fun s => u64 (w_gameDev s))).
Definition announceSceneArrived (h : nat) : Prog World unit := whenMap h (store h (fun s => s <| w_sceneArrived := 1 |>)).
Definition sceneArrived (h : nat) : Prog World bool := isSet h w_sceneArrived.
Definition markGlitchFrame (h : nat) : Prog World unit := whenMap h (store h (fun s => s <| w_flag := 1 |>)).
Definition glitchFrameMarked (h : nat) : Prog World bool := isSet h w_flag.
Definition unmarkGlitchFrame (h : nat) : Prog World unit := whenMap h (store h (fun s => s <| w_flag := 0 |>)).
Definition clearGlitchFrame (h : nat) : Prog World unit := whenMap h (store h (fun s => s <| w_flag := 0 |>)).
Definition announceGlitchConsumer (h : nat) : Prog World unit := whenMap h (store h (fun s => s <| w_consumer := 1 |>)).
Definition retireGlitchConsumer (h : nat) : Prog World unit := whenMap h (store h (fun s => s <| w_consumer := 0 |>)).
Definition glitchConsumerPresent (h : nat) : Prog World bool := isSet h w_consumer.
(** The count is the calling half's own. *)
Definition noteJumpVerdict (h : nat) (verdict : Z) : Prog World unit :=
  whenMap h (
    count ← Act (onHalf h (fun s => s <| verdictCount ::= fun c => u32 (c + 1) |>)) (fun w => Ret (u32 (verdictCount (halves w h) + 1)));
    store h (fun s => s <| w_jumpVerdict := s32 (Z.lor (u32 (Z.shiftl count 2)) (Z.land verdict 3)) |>)).
Definition jumpVerdictPacked (h : nat) : Prog World Z := onMap h 0 (load h (fun s => u32 (w_jumpVerdict s))).
Definition requestIntroRecentre (h : nat) : Prog World unit := whenMap h (store h (fun s => s <| w_introRecentre := 1 |>)).
Definition introRecentreRequested (h : nat) : Prog World bool := isSet h w_introRecentre.
Definition clearIntroRecentreRequest (h : nat) : Prog World unit := whenMap h (store h (fun s => s <| w_introRecentre := 0 |>)).
Definition requestPoseReaderTrace (h : nat) (on : bool) : Prog World unit :=
  whenMap h (store h (fun s => s <| w_poseReaderRequest := if on then 1 else 0 |>)).
Definition poseReaderTraceRequested (h : nat) : Prog World bool := isSet h w_poseReaderRequest.

(** ** On foot in the external camera *)
Definition setExternalCameraOnFoot (h : nat) (on : bool) : Prog World unit :=
  whenMap h (store h (fun s => s <| w_externalCam := if on then 1 else 0 |>);;
             store h (fun s => s <| w_externalCamStamp ::= inc32 |>)).
Definition externalCameraOnFoot (h : nat) : Prog World bool := isSet h w_externalCam.
(** What the reader remembers, having seen [stamp]. *)
Definition noticed (stamp : Z) (s : Half) : Half :=
  if negb (stamp =? lastStamp s) then s <| lastStamp := stamp |> <| sinceMoved := 0 |> <| everMoved := true |>
  else if everMoved s && (sinceMoved s <? u32_max) then s <| sinceMoved ::= Z.succ |> else s.
Definition liveBody (h : nat) (maxAgeFrames : Z) : Prog World bool :=
  stamp ← load h w_externalCamStamp;
  setStatic h (noticed stamp);;
  s ← static h (fun s => s);
  if negb (everMoved s) then mret false
  else if maxAgeFrames <? sinceMoved s then mret false
  else v ← load h w_externalCam; mret (negb (v =? 0)).
Definition externalCameraOnFootLive (h : nat) (maxAgeFrames : Z) : Prog World bool := onMap h false (liveBody h maxAgeFrames).

(** ** Held frames *)
Definition requestSubmitHold (h : nat) (frames : Z) : Prog World unit := whenMap h (store h (fun s => s <| w_holdFrames := s32 frames |>)).
(** Having read [n]. *)
Definition takeRest (h : nat) (n : Z) : Prog World bool :=
  if n <=? 0 then mret false else store h (fun s => s <| w_holdFrames ::= fun n => s32 (n - 1) |>);; mret true.
Definition takeBody (h : nat) : Prog World bool := n ← load h w_holdFrames; takeRest h n.
Definition takeSubmitHoldFrame (h : nat) : Prog World bool := onMap h false (takeBody h).

(** ** Packed pairs *)
Definition announceEyeTextureSize (h : nat) (width height : Z) : Prog World unit :=
  whenMap h (if (width =? 0) || (height =? 0) || (0xFFFF <? width) || (0xFFFF <? height) then mret tt
             else store h (fun s => s <| w_eyeSize := s32 (Z.lor (Z.shiftl width 16) height) |>)).
Definition eyeTextureSize (h : nat) : Prog World (option (Z * Z)) :=
  onMap h None (packed ← load h w_eyeSize;
    if packed =? 0 then mret None else mret (Some (Z.shiftr (u32 packed) 16, Z.land (u32 packed) 0xFFFF))).
Definition f1000 : float := f_of_Z 1000.
(** One factor of the margin, in thousandths above one. *)
Definition perMille (factor : float) : Z :=
  if negb (SFltb (f_of_Z 1) factor) then 0
  else
    let pm := fadd (fmul (fsub factor (f_of_Z 1)) f1000) f_half in
    if SFleb (f_of_Z 4095) pm then 4095 else ftrunc pm.
Definition announceCullGuardState (h : nat) (stage : Z) (factorH factorV : float) : Prog World unit :=
  whenMap h (if stage =? 0 then store h (fun s => s <| w_cullGuard := 0 |>)
             else
               let packed := Z.lor (Z.lor (Z.shiftl (if 2 <? stage then 2 else stage) 24) (Z.shiftl (perMille factorH) 12)) (perMille factorV) in
               store h (fun s => s <| w_cullGuard := s32 packed |>)).
Definition cullGuardStatePacked (h : nat) : Prog World Z := onMap h 0 (load h (fun s => u32 (w_cullGuard s))).
Record CullGuardState := mkCull { stage : Z; hPerMille : Z; vPerMille : Z }.
Definition decodeCullGuardState (packed : Z) : CullGuardState :=
  mkCull (Z.land (Z.shiftr packed 24) 0x3) (Z.land (Z.shiftr packed 12) 0xFFF) (Z.land packed 0xFFF).
(** Thousandths, to the nearest. *)
Definition toMilli (x : float) : Z := ftrunc (fadd (fmul x f1000) f_half).
Definition overMilli (n : Z) : float := SFdiv 24 128 (f_of_Z n) f1000.
Definition announceEyeTangents (h : nat) (outerMag innerMag : float) : Prog World unit :=
  whenMap h (if negb (SFltb f_zero outerMag) || negb (SFltb f_zero innerMag) || SFleb (f_of_Z 65) outerMag || SFltb outerMag innerMag
             then mret tt
             else store h (fun s => s <| w_eyeTangents := s32 (Z.lor (u32 (Z.shiftl (toMilli outerMag) 16)) (Z.land (toMilli innerMag) 0xFFFF)) |>)).
Definition unpackTangents (packed : Z) : option (float * float) :=
  if packed =? 0 then None else Some (overMilli (Z.shiftr (u32 packed) 16), overMilli (Z.land (u32 packed) 0xFFFF)).
Definition eyeTangents (h : nat) : Prog World (option (float * float)) :=
  onMap h None (packed ← load h w_eyeTangents; mret (unpackTangents packed)).
Definition announceEyeTangentsVertical (h : nat) (topMag botMag : float) : Prog World unit :=
  whenMap h (if negb (SFltb f_zero topMag) || negb (SFltb f_zero botMag) || SFleb (f_of_Z 65) topMag || SFleb (f_of_Z 65) botMag
             then mret tt
             else store h (fun s => s <| w_eyeTangentsV := s32 (Z.lor (u32 (Z.shiftl (toMilli topMag) 16)) (Z.land (toMilli botMag) 0xFFFF)) |>)).
Definition eyeTangentsVertical (h : nat) : Prog World (option (float * float)) :=
  onMap h None (packed ← load h w_eyeTangentsV; mret (unpackTangents packed)).
(** Between two bounds; a NaN becomes the lower one. *)
Definition clampTo (lo hi : float) (t : float) : float :=
  let c := if negb (SFltb lo t) then lo else t in if negb (SFltb c hi) then hi else c.
Definition biased (t : float) : Z := Z.land (u32 (ftrunc (fmul (clampTo (f_of_Z (-3)) (f_of_Z 3) t) f1000) + 16384)) 0x7FFF.
Definition announceHeadForward (h : nat) (tx ty : float) : Prog World unit :=
  whenMap h (store h (fun s => s <| w_headForward := s32 (Z.lor (Z.lor 0x80000000 (Z.shiftl (biased tx) 15)) (biased ty)) |>)).
Definition unbiased (n : Z) : float := overMilli (n - 16384).
Definition headForward (h : nat) : Prog World (option (float * float)) :=
  onMap h None (packed ← load h w_headForward;
    if packed =? 0 then mret None
    else mret (Some (unbiased (Z.land (Z.shiftr (u32 packed) 15) 0x7FFF), unbiased (Z.land (u32 packed) 0x7FFF)))).
Definition clamp15 (n : Z) : Z := if 0x7FFF <? n then 0x7FFF else n.
Definition announceRuntimeMaskTriangles (h : nat) (leftTri rightTri : Z) : Prog World unit :=
  whenMap h (store h (fun s => s <| w_runtimeMaskTri := s32 (Z.lor (Z.lor 0x80000000 (Z.shiftl (clamp15 leftTri) 15)) (clamp15 rightTri)) |>)).
Definition runtimeMaskTriangles (h : nat) : Prog World (option (Z * Z)) :=
  onMap h None (packed ← load h w_runtimeMaskTri;
    if Z.land (u32 packed) 0x80000000 =? 0 then mret None
    else mret (Some (Z.land (Z.shiftr (u32 packed) 15) 0x7FFF, Z.land (u32 packed) 0x7FFF))).

(** ** The settings menu *)
Definition publishMenuAnchor (h : nat) (m12 : option (list float)) : Prog World unit :=
  whenMap h (match m12 with
  | None => mret tt
  | Some m => forEach (take 12 m) 0 (fun i x => store h (fun s => s <| w_menuAnchorM ::= fun a => <[i := x]> a |>));;
              store h (fun s => s <| w_menuAnchorSeq ::= inc32 |>)
  end).
(** The pose, when there is one, and the sequence number. *)
Definition menuAnchor (h : nat) : Prog World (option (list float) * Z) :=
  onMap h (None, 0) (q ← load h w_menuAnchorSeq;
    if q =? 0 then mret (None, u32 q)
    else m ← collect 12 0 (fun i => load h (fun s => w_menuAnchorM s i)); mret (Some m, u32 q)).
Definition alphaMille (alpha : float) : Z :=
  let a := if negb (SFltb f_zero alpha) then f_zero else alpha in
  let a := if SFltb (f_of_Z 1) a then f_of_Z 1 else a in toMilli a.
Definition setMenuVisible (h : nat) (alpha : float) : Prog World unit :=
  whenMap h (store h (fun s => s <| w_menuAlphaMille := alphaMille alpha |>);;
             store h (fun s => s <| w_menuVisibleStamp ::= inc32 |>)).
(** Whether it is visible, the alpha and the stamp. *)
Definition menuVisible (h : nat) : Prog World (option (bool * float * Z)) :=
  onMap h None (stamp ← load h w_menuVisibleStamp; mille ← load h w_menuAlphaMille;
    mret (Some (0 <? mille, overMilli mille, u32 stamp))).
Definition bumpMenuDrawn (h : nat) : Prog World unit := whenMap h (store h (fun s => s <| w_menuDrawn ::= inc32 |>)).
Definition menuDrawnValue (h : nat) : Prog World Z := onMap h 0 (load h (fun s => u32 (w_menuDrawn s))).
Definition f10 : float := f_of_Z 10.
Definition tenths (deg : float) : Z :=
  Z.land (u32 (ftrunc (fmul (clampTo (f_of_Z (-180)) (f_of_Z 180) deg) f10) + kHeadLockBias)) 0xFFF.
Definition setMenuHeadLock (h : nat) (on : bool) (yawDeg pitchDeg : float) : Prog World unit :=
  whenMap h (if negb on then store h (fun s => s <| w_menuHeadLock := 0 |>)
             else store h (fun s => s <| w_menuHeadLock := s32 (Z.lor (Z.lor 0x80000000 (Z.shiftl (tenths yawDeg) 12)) (tenths pitchDeg)) |>)).
Definition degrees (n : Z) : float := SFdiv 24 128 (f_of_Z (n - kHeadLockBias)) f10.
Definition menuHeadLock (h : nat) : Prog World (option (float * float)) :=
  onMap h None (v ← load h (fun s => u32 (w_menuHeadLock s));
    if Z.land v 0x80000000 =? 0 then mret None
    else mret (Some (degrees (Z.land (Z.shiftr v 12) 0xFFF), degrees (Z.land v 0xFFF)))).

(** ** The pose readers' trace *)
Record PoseReaderCall := mkPRC {
  renderPtr : Z; gamePtr : Z; qpc : Z; renderCount : Z; gameCount : Z; threadId : Z; seq_ : Z;
  renderOnStack : bool; gameOnStack : bool; wasGetLastPoses : bool }.
Definition bit (b : bool) (n : Z) : Z := if b then n else 0.
Definition publishBody (h : nat) (call : PoseReaderCall) : Prog World unit :=
  store h (fun s => s <| w_poseReaderRenderPtr := s64 (renderPtr call) |>);;
  store h (fun s => s <| w_poseReaderGamePtr := s64 (gamePtr call) |>);;
  store h (fun s => s <| w_poseReaderQpc := s64 (qpc call) |>);;
  store h (fun s => s <| w_poseReaderRenderCount := s32 (renderCount call) |>);;
  store h (fun s => s <| w_poseReaderGameCount := s32 (gameCount call) |>);;
  store h (fun s => s <| w_poseReaderThreadId := s32 (threadId call) |>);;
  store h (fun s => s <| w_poseReaderFlags :=
    Z.lor (Z.lor (bit (renderOnStack call) 1) (bit (gameOnStack call) 2)) (bit (wasGetLastPoses call) 4) |>);;
  store h (fun s => s <| w_poseReaderSeq ::= inc32 |>).
Definition publishPoseReaderCall (h : nat) (call : PoseReaderCall) : Prog World unit := whenMap h (publishBody h call).
Definition readBody (h : nat) : Prog World PoseReaderCall :=
  seq ← load h w_poseReaderSeq;
  rp ← load h w_poseReaderRenderPtr; gp ← load h w_poseReaderGamePtr; q ← load h w_poseReaderQpc;
  rc ← load h w_poseReaderRenderCount; gc ← load h w_poseReaderGameCount; t ← load h w_poseReaderThreadId;
  flags ← load h w_poseReaderFlags;
  mret (mkPRC (u64 rp) (u64 gp) (u64 q) (u32 rc) (u32 gc) (u32 t) (u32 seq)
    (negb (Z.land flags 1 =? 0)) (negb (Z.land flags 2 =? 0)) (negb (Z.land flags 4 =? 0))).
Definition poseReaderCall (h : nat) : Prog World PoseReaderCall :=
  onMap h (mkPRC 0 0 0 0 0 0 0 false false false) (readBody h).

(** ** Any call *)
Inductive Call :=
  | CPeer | CWorldJump | CTakeWorldJump | CHeadPose (m : option (list float)) | CReadHeadPose
  | CPanelRect (m : option (list float)) | CReadPanelRect | CArrival | CReadArrival | CChrome | CReadChrome
  | CSubmit (eye texture : Z) | CReadSubmit (eye : Z) | CDevice (d : Z) | CReadDevice | CScene | CReadScene
  | CMark | CMarked | CUnmark | CClear | CConsumer | CRetireConsumer | CReadConsumer | CVerdict (v : Z) | CReadVerdict
  | CRecentre | CReadRecentre | CClearRecentre | CTrace (on : bool) | CReadTrace | COnFoot (on : bool) | CReadOnFoot
  | CLive (age : Z) | CHold (n : Z) | CTakeHold | CEyeSize (w h : Z) | CReadEyeSize | CCull (stage : Z) (x y : float)
  | CReadCull | CTangents (o i : float) | CReadTangents | CTangentsV (t b : float) | CReadTangentsV
  | CForward (x y : float) | CReadForward | CMask (l r : Z) | CReadMask | CAnchor (m : option (list float)) | CReadAnchor
  | CVisible (a : float) | CReadVisible | CDrawn | CReadDrawn | CHeadLock (on : bool) (y p : float) | CReadHeadLock
  | CPose (c : PoseReaderCall) | CReadPose.
Definition done {A} (p : Prog World A) : Prog World unit := p;; mret tt.
Definition call (h : nat) (c : Call) : Prog World unit :=
  match c with
  | CPeer => done (frameFlagPeerMismatch h) | CWorldJump => noteWorldJump h | CTakeWorldJump => done (takeWorldJump h)
  | CHeadPose m => publishHeadPose h m | CReadHeadPose => done (headPose h) | CPanelRect m => publishFssPanelRect h m
  | CReadPanelRect => done (readFssPanelRect h) | CArrival => bumpFssArrivalStamp h | CReadArrival => done (fssArrivalStampValue h)
  | CChrome => bumpFssChromeStamp h | CReadChrome => done (fssChromeStampValue h) | CSubmit e t => publishSubmitTexture h e t
  | CReadSubmit e => done (submittedTexture h e) | CDevice d => publishGameDevice h d | CReadDevice => done (gameDevice h)
  | CScene => announceSceneArrived h | CReadScene => done (sceneArrived h) | CMark => markGlitchFrame h
  | CMarked => done (glitchFrameMarked h) | CUnmark => unmarkGlitchFrame h | CClear => clearGlitchFrame h
  | CConsumer => announceGlitchConsumer h | CRetireConsumer => retireGlitchConsumer h | CReadConsumer => done (glitchConsumerPresent h)
  | CVerdict v => noteJumpVerdict h v | CReadVerdict => done (jumpVerdictPacked h) | CRecentre => requestIntroRecentre h
  | CReadRecentre => done (introRecentreRequested h) | CClearRecentre => clearIntroRecentreRequest h | CTrace on => requestPoseReaderTrace h on
  | CReadTrace => done (poseReaderTraceRequested h) | COnFoot on => setExternalCameraOnFoot h on | CReadOnFoot => done (externalCameraOnFoot h)
  | CLive age => done (externalCameraOnFootLive h age) | CHold n => requestSubmitHold h n | CTakeHold => done (takeSubmitHoldFrame h)
  | CEyeSize x y => announceEyeTextureSize h x y | CReadEyeSize => done (eyeTextureSize h) | CCull st x y => announceCullGuardState h st x y
  | CReadCull => done (cullGuardStatePacked h) | CTangents o i => announceEyeTangents h o i | CReadTangents => done (eyeTangents h)
  | CTangentsV t b => announceEyeTangentsVertical h t b | CReadTangentsV => done (eyeTangentsVertical h)
  | CForward x y => announceHeadForward h x y | CReadForward => done (headForward h) | CMask l r => announceRuntimeMaskTriangles h l r
  | CReadMask => done (runtimeMaskTriangles h) | CAnchor m => publishMenuAnchor h m | CReadAnchor => done (menuAnchor h)
  | CVisible a => setMenuVisible h a | CReadVisible => done (menuVisible h) | CDrawn => bumpMenuDrawn h | CReadDrawn => done (menuDrawnValue h)
  | CHeadLock on y p => setMenuHeadLock h on y p | CReadHeadLock => done (menuHeadLock h) | CPose c => publishPoseReaderCall h c
  | CReadPose => done (poseReaderCall h)
  end.
(** Threads: each belongs to a half and begins any call when its last one is over. *)
Definition Threads : Type := nat -> nat * Prog World unit.
Inductive step : World * Threads -> World * Threads -> Prop :=
  | step_call w ts t c : (ts t).2 = Ret tt -> step (w, ts) (w, <[t := ((ts t).1, call (ts t).1 c)]> ts)
  | step_act w ts t f k : (ts t).2 = Act f k -> step (w, ts) (f w, <[t := ((ts t).1, k w)]> ts).
Definition reachable (versions : nat -> Z) (exists_ : Z -> bool) (owner : nat -> nat) : World * Threads -> Prop :=
  rtc step (world0 versions exists_, fun t => (owner t, Ret tt)).
(** What the other threads may do from [w], and what a call begun in [w] may answer,
    in which world, while they do. *)
Definition others (versions : nat -> Z) (exists_ : Z -> bool) (w w' : World) : Prop :=
  exists owner ts ts', reachable versions exists_ owner (w, ts) /\ rtc step (w, ts) (w', ts').
Inductive Answers (versions : nat -> Z) (exists_ : Z -> bool) {A} : Prog World A -> World -> A -> World -> Prop :=
  | an_ret a w : Answers versions exists_ (Ret a) w a w
  | an_act f k w w1 a w' : others versions exists_ w w1 -> Answers versions exists_ (k w1) (f w1) a w' -> Answers versions exists_ (Act f k) w a w'.

(** The writer's accesses of [setExternalCameraOnFoot]. *)
Inductive WAct := WValue (on : bool) | WBump.
Definition act (h : nat) (a : WAct) : World -> World :=
  match a with
  | WValue on => onBlock h (fun s => s <| w_externalCam := if on then 1 else 0 |>)
  | WBump => onBlock h (fun s => s <| w_externalCamStamp ::= inc32 |>)
  end.
Definition acts (h : nat) (l : list WAct) (w : World) : World := foldl (fun w a => act h a w) w l.
(** The answers of the reader's calls: for each, what the writer [hw] does before it
    reads the stamp, and between the stamp and the value. *)
Fixpoint liveCalls (h hw : nat) (maxAge : Z) (hist : list (list WAct * list WAct)) (w : World) : list bool :=
  match hist with
  | [] => []
  | (pre, mid) :: hist =>
      let '(a, w) := against (liveBody h maxAge) [acts hw pre; (fun w => w); (fun w => w); acts hw mid] w in
      a :: liveCalls h hw maxAge hist w
  end.
(** What they should be: whether the writer ever spoke and how many calls ago, and
    what it said last. *)
Definition isBump (a : WAct) : bool := match a with WBump => true | _ => false end.
Definition said (l : list WAct) (v : bool) : bool := foldl (fun v a => match a with WValue b => b | WBump => v end) v l.
Fixpoint liveSpec (maxAge : Z) (hist : list (list WAct * list WAct)) (spoke : bool) (age : option Z) (v : bool) : list bool :=
  match hist with
  | [] => []
  | (pre, mid) :: hist =>
      let age := if spoke || existsb isBump pre then Some 0 else Z.succ <$> age in
      let v := said mid (said pre v) in
      (match age with Some a => (a <=? maxAge) && v | None => false end) :: liveSpec maxAge hist (existsb isBump mid) age v
  end.

(** Half [p], and what [q] answers next. *)
Definition afterwards {A} (p : Prog World unit) (q : Prog World A) (w : World) : A := (run q (run p w).2).1.

(** ** One pair of submissions *)
Record SubmitPairLatch := mkLatch { m_latched : bool; m_withhold : bool }.
Definition verdict (markedNow : bool) (l : SubmitPairLatch) : bool * SubmitPairLatch :=
  let l := if negb (m_latched l) then mkLatch true markedNow else l in (m_withhold l, l).
Definition reset (l : SubmitPairLatch) : SubmitPairLatch := mkLatch false false.
End Channel.

(** ** Programs under interference *)
(** Begun in any state of [P], while others keep [P], each step keeps [P] and changes
    the world as [G] allows, and the answer satisfies [Q]. *)
Fixpoint outcome {W A} (P : W -> Prop) (G : W -> W -> Prop) (Q : A -> Prop) (p : Prog W A) : Prop :=
  match p with
  | Ret a => Q a
  | Act f k => (forall w, P w -> P (f w) /\ G w (f w)) /\ (forall w, P w -> outcome P G Q (k w))
  end.
Lemma outcome_bind {W A B} (P : W -> Prop) (G : W -> W -> Prop) (R : A -> Prop) (Q : B -> Prop) (p : Prog W A) k :
  outcome P G R p -> (forall a, R a -> outcome P G Q (k a)) -> outcome P G Q (p ≫= k).
Proof.
  intros Hp Hk. cbv [mbind Prog_bind]. induction p as [a|f g IH]; cbn in *; [by apply Hk|]. destruct Hp as [Hf Hg]. split; [done|].
  intros w Hw. by apply IH, Hg.
Qed.
Abbreviation safe P G := (outcome P G (fun _ => True)).
Lemma safe_bind {W A B} (P : W -> Prop) (G : W -> W -> Prop) (Q : B -> Prop) (p : Prog W A) k :
  safe P G p -> (forall a, outcome P G Q (k a)) -> outcome P G Q (p ≫= k).
Proof. intros Hp Hk. eapply outcome_bind; [exact Hp|]. intros a _. apply Hk. Qed.
Lemma safe_fmap {W A B} (P : W -> Prop) (G : W -> W -> Prop) (p : Prog W A) (g : A -> B) : safe P G p -> safe P G (g <$> p).
Proof. intros Hp. apply (safe_bind P G _ p (fun a => Ret (g a))); done. Qed.
Lemma safe_forEach {W A} (P : W -> Prop) (G : W -> W -> Prop) (l : list A) i f : (forall i a, safe P G (f i a)) -> safe P G (forEach l i f).
Proof. intros Hf. revert i. induction l as [|a l IH]; intros i; cbn [forEach]; [done|]. apply safe_bind; auto. Qed.
Lemma safe_collect {W A} (P : W -> Prop) (G : W -> W -> Prop) n i (g : nat -> Prog W A) : (forall i, safe P G (g i)) -> safe P G (collect n i g).
Proof. intros Hg. revert i. induction n as [|n IH]; intros i; cbn [collect]; [done|]. apply safe_bind; [done|]. intros a. by apply safe_bind. Qed.

Section Roll.
Context (rollFails blockFails : nat -> bool).
(** What a half's private steps leave alone. *)
Definition private (g : Half -> Half) : Prop :=
  forall s, version (g s) = version s /\ phase (g s) = phase s /\ g_unsignedPeer (g s) = g_unsignedPeer s.
(** Properties that no call breaks. *)
Record Closed (F : Prop) (P : World -> Prop) (G : World -> World -> Prop) : Prop := {
  cl_pre : PreOrder G;
  cl_block : forall h u w, P w -> P (onBlock h u w) /\ G w (onBlock h u w);
  cl_private : forall h g w, private g -> P w -> P (onHalf h g w) /\ G w (onHalf h g w);
  cl_sign : forall h w, P w -> P (signStep rollFails h w) /\ G w (signStep rollFails h w);
  cl_map : forall h w, P w -> P (mapBlock blockFails h w) /\ G w (mapBlock blockFails h w);
  cl_found : forall w, P w -> created w kUnsignedLayout = true -> F;
  cl_unsigned : forall h w, F -> P w ->
    let w' := onHalf h (fun s => s <| g_unsignedPeer ::= fun u => if u =? 0 then kUnsignedLayout else u |>) w in P w' /\ G w w' }.

Section ClosedCalls.
Context (F : Prop) (P : World -> Prop) (G : World -> World -> Prop) (HP : Closed F P G).
Lemma safe_look {A} (g : World -> A) : safe P G (look g). Proof. split; [|done]. intros w Hw. split; [done|]. apply (cl_pre F P G HP). Qed.
Lemma safe_store h u : safe P G (store h u). Proof. split; [intros w; apply (cl_block F P G HP)|done]. Qed.
Lemma safe_setStatic h g : private g -> safe P G (setStatic h g).
Proof. intros Hg. split; [intros w; by apply (cl_private F P G HP)|done]. Qed.
Lemma safe_rollCall h : safe P G (rollCall rollFails h).
Proof. repeat (apply safe_bind; [split; [intros w; apply (cl_sign F P G HP)|done]|intros _]). apply safe_look. Qed.
Lemma safe_peer h : safe P G (peerMismatch rollFails h).
Proof.
  unfold peerMismatch. apply safe_bind; [apply safe_look|]. intros u. case_match; [done|]. apply safe_bind; [apply safe_rollCall|].
  intros r. case_match; [done|]. repeat (apply safe_bind; [apply safe_look|intros ?]). by repeat case_match.
Qed.
Lemma safe_map h : safe P G (map_ rollFails blockFails h).
Proof.
  unfold map_. apply safe_bind; [apply safe_peer|]. intros m. case_match; [done|]. unfold block.
  apply safe_bind; [split; [intros w; apply (cl_map F P G HP)|done]|intros _]. apply safe_look.
Qed.
Lemma safe_onMap {A} h (d : A) body : safe P G body -> safe P G (onMap rollFails blockFails h d body).
Proof. intros Hb. apply safe_bind; [apply safe_map|]. by intros []. Qed.
Lemma private_noticed stamp : private (noticed stamp).
Proof. intros s. unfold noticed. by repeat case_match. Qed.
Lemma safe_found h : safe P G (frameFlagPeerMismatch rollFails h).
Proof.
  unfold frameFlagPeerMismatch. apply safe_bind; [apply safe_peer|]. intros m. case_match; [done|].
  apply safe_bind; [apply safe_rollCall|]. intros r. apply safe_bind; [apply safe_look|]. intros n. case_match; [done|].
  apply (outcome_bind P G (fun found : bool => found = true -> F)).
  { split; [intros w Hw; split; [done|apply (cl_pre F P G HP)]|]. intros w Hw. cbn. by apply (cl_found F P G HP). }
  intros [] Hf; cbn [negb]; [|done]. apply safe_bind; [|done]. split; [|done]. intros w Hw. apply (cl_unsigned F P G HP); auto.
Qed.
Ltac headOf p := match p with ?f _ => headOf f | ?c => c end.
Ltac safe_tac := repeat (intros;
  match goal with
  | |- outcome _ _ _ (onMap _ _ _ _ _) => apply safe_onMap
  | |- outcome _ _ _ (whenMap _ _ _ _) => apply safe_onMap
  | |- outcome _ _ _ (isSet _ _ _ _) => apply safe_onMap
  | |- outcome _ _ _ (_ <$> _) => apply safe_fmap
  | |- outcome _ _ _ (forEach _ _ _) => apply safe_forEach
  | |- outcome _ _ _ (collect _ _ _) => apply safe_collect
  | |- outcome _ _ _ (_ ≫= _) => apply safe_bind
  | |- outcome _ _ _ (look _) => apply safe_look
  | |- outcome _ _ _ (load _ _) => apply safe_look
  | |- outcome _ _ _ (static _ _) => apply safe_look
  | |- outcome _ _ _ (store _ _) => apply safe_store
  | |- outcome _ _ _ (setStatic _ _) => apply safe_setStatic; first [apply private_noticed | done]
  | |- outcome _ _ _ (frameFlagPeerMismatch _ _) => apply safe_found
  | |- outcome _ _ _ (Act (onHalf _ _) _) => split; [intros ? ?; by apply (cl_private F P G HP) | ]
  | |- outcome _ _ _ (mret _) => done
  | |- outcome _ _ _ (Ret _) => done
  | |- outcome _ _ _ (match ?x with _ => _ end) => destruct x
  | |- outcome _ _ _ (call _ _ _ _) => fail 1
  | |- outcome _ _ _ ?p => let c := headOf p in unfold c
  end).
Lemma safe_call h c : safe P G (call rollFails blockFails h c).
Proof. destruct c; cbn [call]; unfold done; safe_tac. Qed.
(** So they hold in whatever the threads do. *)
Lemma closed_step w ts w' ts' : step rollFails blockFails (w, ts) (w', ts') ->
  P w -> (forall t, safe P G (ts t).2) -> P w' /\ (forall t, safe P G (ts' t).2) /\ G w w'.
Proof.
  intros Hs Hw Ht. inversion Hs as [? ? t c Hr|? ? t f k Hr]; subst.
  - split; [done|]. split; [|apply (cl_pre F P G HP)].
    intros t'. destruct (decide (t' = t)) as [->|]; [rewrite fn_lookup_insert; apply safe_call | by rewrite fn_lookup_insert_ne].
  - specialize (Ht t) as Htt. rewrite Hr in Htt. destruct Htt as [Hf Hk]. destruct (Hf _ Hw). split; [done|]. split; [|done].
    intros t'. destruct (decide (t' = t)) as [->|]; [rewrite fn_lookup_insert; by apply Hk | by rewrite fn_lookup_insert_ne].
Qed.
Lemma closed_steps c c' : rtc (step rollFails blockFails) c c' ->
  P c.1 -> (forall t, safe P G (c.2 t).2) -> P c'.1 /\ (forall t, safe P G (c'.2 t).2) /\ G c.1 c'.1.
Proof.
  pose proof (cl_pre F P G HP). intros Hr. induction Hr as [c|[w ts] [w' ts'] c Hs Hr IH]; [intros Hw Ht; split; [done|split; [done|reflexivity]]|].
  intros Hw Ht. destruct (closed_step _ _ _ _ Hs Hw Ht) as (Hw' & Ht' & HG). destruct (IH Hw' Ht') as (? & ? & ?).
  split; [done|split; [done|by etransitivity]].
Qed.
End ClosedCalls.

(** ** The roll-call *)
Context (versions : nat -> Z) (exists_ : Z -> bool).
(** A block of the layout that does not sign may be there. *)
Definition unsignedThere : Prop := exists_ kUnsignedLayout = true \/ exists h, versions h = kUnsignedLayout.
(** What a half that got so far knows of the two slots. *)
Definition HalfOk (refused : bool) (f o v : Z) (s : Half) : Prop :=
  version s = v /\ (g_unsignedPeer s = 0 \/ g_unsignedPeer s = kUnsignedLayout /\ unsignedThere) /\
  match phase s with
  | NotSigned => True
  | Signed false => refused = true
  | Took was => f <> 0 /\ (was = 0 /\ v = f \/ was <> 0 /\ was = f)
  | Wrote | Signed true => f <> 0 /\ (v = f \/ o <> 0)
  end.
Definition SlotsOk (f o : Z) : Prop :=
  (f <> 0 -> exists h, versions h = f) /\ (o <> 0 -> f <> 0 /\ o <> f /\ exists h, versions h = o).
Definition RollInv (w : World) : Prop :=
  SlotsOk (first w) (other w) /\ (forall h, HalfOk (rollFails h) (first w) (other w) (versions h) (halves w h)) /\
  (created w kUnsignedLayout = true -> unsignedThere).
(** Two halves of different layouts have signed. *)
Definition Mismatch (w : World) : Prop :=
  exists h h', versions h <> versions h' /\ phase (halves w h) = Signed true /\ phase (halves w h') = Signed true.

Lemma halfOk_mono r f o f' o' v s : (f <> 0 -> f' = f) -> (o <> 0 -> o' <> 0) -> HalfOk r f o v s -> HalfOk r f' o' v s.
Proof. intros Hf Ho (Hv & Hu & Hp). split_and!; [done..|]. destruct (phase s) as [|was| |[]]; intuition subst; auto. Qed.
(** A step that changes one half and the slots. *)
Lemma roll_update h s' f' o' w w' : RollInv w -> first w' = f' -> other w' = o' -> halves w' = <[h := s']> (halves w) ->
  (created w' kUnsignedLayout = true -> created w kUnsignedLayout = true \/ unsignedThere) ->
  (first w <> 0 -> f' = first w) -> (other w <> 0 -> o' <> 0) -> SlotsOk f' o' -> HalfOk (rollFails h) f' o' (versions h) s' -> RollInv w'.
Proof.
  intros (Hs & Hh & Hc) <- <- Eh Hc' Hf Ho Hs' Hh'. split_and!; [done| |intros [|]%Hc'; auto].
  intros h'. rewrite Eh. destruct (decide (h' = h)) as [->|]; [by rewrite fn_lookup_insert|].
  rewrite fn_lookup_insert_ne by done. by eapply halfOk_mono, Hh.
Qed.
Lemma roll_private h g w : private g -> RollInv w -> RollInv (onHalf h g w).
Proof.
  intros Hg Hi. pose proof Hi as (Hs & Hh & _). eapply (roll_update h _ _ _ w _ Hi); try done; [by left|].
  destruct (Hh h) as (H1 & H2 & H3), (Hg (halves w h)) as (G1 & G2 & G3). unfold HalfOk. by rewrite G1, G2, G3.
Qed.
Lemma roll_map h w : RollInv w -> RollInv (mapBlock blockFails h w).
Proof.
  intros Hi. unfold mapBlock. destruct (blockMapped (halves w h)); [done|]. pose proof Hi as (Hs & Hh & Hc).
  destruct (blockFails h); [by apply roll_private|]. eapply (roll_update h _ _ _ w _ Hi); try done; [|apply Hh].
  cbn. destruct (decide (version (halves w h) = kUnsignedLayout)) as [E|E].
  - intros _. right. right. exists h. destruct (Hh h) as [<- _]. done.
  - rewrite fn_lookup_insert_ne by done. by left.
Qed.
Lemma roll_sign h w : (forall h, versions h <> 0) -> RollInv w -> RollInv (signStep rollFails h w).
Proof.
  intros Hv Hi. pose proof Hi as (Hs & Hh & Hc). destruct (Hh h) as (H1 & H2 & H3). unfold signStep. rewrite H1.
  destruct (phase (halves w h)) as [|was| |] eqn:Eph; [destruct (rollFails h) eqn:Er| | |done].
  - eapply (roll_update h _ _ _ w _ Hi); try done; by left.
  - eapply (roll_update h _ _ _ w _ Hi); try done; [by left| | |]; cbn [first other over onHalf].
    + by intros ->%Z.eqb_neq.
    + destruct Hs as [Hf Ho]. destruct (Z.eqb_spec (first w) 0) as [E|E]; [|done]. split; [eauto|]. intros [? _]%Ho. done.
    + split_and!; [done..|]. cbn. destruct (Z.eqb_spec (first w) 0); [auto|]. auto.
  - destruct H3 as [Hf Hw].
    assert (was = first w \/ was = 0 /\ versions h = first w) as Hw' by tauto. destruct Hs as [Hs1 Hs2].
    destruct (_ && _) eqn:Eb.
    + bool_solve. destruct Hw' as [->|[-> _]]; [|done].
      eapply (roll_update h _ _ _ w _ Hi); try done; [by left| | |]; cbn [first other over onHalf].
      * intros Ho. destruct (Z.eqb_spec (other w) 0); [done|done].
      * split; [done|]. destruct (Z.eqb_spec (other w) 0); [|done]. intros _. split; [done|]. split; [congruence|]. by exists h.
      * split_and!; [done..|]. cbn. split; [done|]. right. destruct (Z.eqb_spec (other w) 0); [apply Hv|done].
    + eapply (roll_update h _ _ _ w _ Hi); try done; [by left|]. split_and!; [done..|]. cbn. split; [done|]. left.
      destruct Hw' as [->|[-> ?]]; [|done]. rewrite (proj2 (Z.eqb_neq _ _) Hf) in Eb. cbn in Eb. bool_solve. done.
  - destruct H3 as [Hf Hw]. eapply (roll_update h _ _ _ w _ Hi); try done. by left.
Qed.
(** How far a half has got. *)
Definition rank (p : Phase) : nat := match p with NotSigned => 0 | Took _ => 1 | Wrote => 2 | Signed _ => 3 end.
(** Nobody goes back; a mapping and a slot once taken stay. *)
Definition Ahead (w w' : World) : Prop :=
  (forall h, (rank (phase (halves w h)) <= rank (phase (halves w' h)))%nat /\
             (forall b, phase (halves w h) = Signed b -> phase (halves w' h) = Signed b)) /\
  (first w <> 0 -> first w' = first w).
#[export] Instance ahead_pre : PreOrder Ahead.
Proof.
  split; [by intros w|]. intros w1 w2 w3 [H1 F1] [H2 F2]. split.
  - intros h. destruct (H1 h), (H2 h). split; [lia|auto].
  - intros Hf. rewrite F2; [auto|]. by rewrite F1.
Qed.
Lemma ahead_half h s' w w' : halves w' = <[h := s']> (halves w) -> (first w <> 0 -> first w' = first w) ->
  (rank (phase (halves w h)) <= rank (phase s'))%nat -> (forall b, phase (halves w h) = Signed b -> phase s' = Signed b) -> Ahead w w'.
Proof.
  intros E Hf Hr Hs. split; [|done]. intros h'. rewrite E. destruct (decide (h' = h)) as [->|]; [by rewrite fn_lookup_insert | by rewrite fn_lookup_insert_ne].
Qed.
Lemma ahead_same h s' w w' : halves w' = <[h := s']> (halves w) -> first w' = first w -> phase s' = phase (halves w h) -> Ahead w w'.
Proof. intros E Hf Hp. eapply ahead_half; [done|by intros _|by rewrite Hp|by rewrite Hp]. Qed.
Lemma ahead_sign h w : Ahead w (signStep rollFails h w).
Proof.
  unfold signStep. destruct (phase (halves w h)) as [|was| |] eqn:Eph; [destruct (rollFails h)|destruct (_ && _)| |done];
    (eapply (ahead_half h); [done|cbn; try done|rewrite Eph; cbn; lia|by rewrite Eph]). by intros ->%Z.eqb_neq.
Qed.
Lemma closed_roll : (forall h, versions h <> 0) -> Closed unsignedThere RollInv Ahead.
Proof.
  intros Hv. split; [apply _|..].
  - intros h u w Hi. split; [exact Hi|by split].
  - intros h g w Hg Hi. split; [by apply roll_private|]. eapply (ahead_same h); [done..|apply Hg].
  - intros h w Hi. split; [by apply roll_sign|apply ahead_sign].
  - intros h w Hi. split; [by apply roll_map|]. unfold mapBlock. destruct (blockMapped _), (blockFails h); [done..| |]; by eapply (ahead_same h).
  - intros w (_ & _ & Hc). done.
  - intros h w HF Hi. split; [|by eapply (ahead_same h)]. pose proof Hi as (Hs & Hh & _). eapply (roll_update h _ _ _ w _ Hi); try done; [by left|].
    destruct (Hh h) as (H1 & H2 & H3). split_and!; [done| |done]. cbn. destruct (Z.eqb_spec (g_unsignedPeer (halves w h)) 0); [by right|tauto].
Qed.

Context (Hversions : forall h, kUnsignedLayout < versions h).
Abbreviation answers := (Answers rollFails blockFails versions exists_).
Abbreviation interfere := (others rollFails blockFails versions exists_).
Lemma versions_nonzero h : versions h <> 0.
Proof. specialize (Hversions h). unfold kUnsignedLayout in *. lia. Qed.
Lemma roll_world0 : RollInv (world0 versions exists_).
Proof. split_and!; [by split| |by left]. intros h. split_and!; [done|by left|done]. Qed.
Lemma reachable_roll owner c : reachable rollFails blockFails versions exists_ owner c ->
  RollInv c.1 /\ (forall t, outcome RollInv Ahead (fun _ => True) (c.2 t).2).
Proof.
  intros Hr. destruct (closed_steps _ _ _ (closed_roll versions_nonzero) _ _ Hr) as (H1 & H2 & _); [apply roll_world0|done|done].
Qed.
Lemma others_roll w w' : interfere w w' -> RollInv w -> RollInv w' /\ Ahead w w'.
Proof.
  intros (owner & ts & ts' & Hr & Hs) Hi. destruct (reachable_roll _ _ Hr) as [_ Ht].
  destruct (closed_steps _ _ _ (closed_roll versions_nonzero) _ _ Hs Hi Ht) as (H1 & _ & H2). done.
Qed.
Lemma answers_bind {A B} (p : Prog World A) (k : A -> Prog World B) w b w'' : answers (p ≫= k) w b w'' ->
  exists a w', answers p w a w' /\ answers (k a) w' b w''.
Proof.
  cbv [mbind Prog_bind]. revert w. induction p as [a|f g IH]; intros w H; cbn in H; [exists a, w; split; [constructor|done]|].
  inversion H as [|? ? ? w1 ? ? Ho Hk]; subst. destruct (IH _ _ Hk) as (a & w' & H1 & H2). exists a, w'. split; [|done]. by econstructor.
Qed.
Lemma answers_ret {A} (a b : A) w w' : answers (mret a) w b w' -> b = a /\ w' = w.
Proof. intros H. by inversion H. Qed.
Lemma answers_act {A} f (g : World -> A) w a w' : answers (Act f (fun w => Ret (g w))) w a w' -> exists w1, interfere w w1 /\ a = g w1 /\ w' = f w1.
Proof. intros H. inversion H as [|? ? ? w1 ? ? Ho Hk]; subst. exists w1. inversion Hk; subst. done. Qed.
Lemma sign_rank h w : (S (rank (phase (halves w h))) <= rank (phase (halves (signStep rollFails h w) h)) \/
  3 <= rank (phase (halves (signStep rollFails h w) h)))%nat.
Proof.
  unfold signStep. destruct (phase (halves w h)) as [|was| |] eqn:E; [destruct (rollFails h)|destruct (_ && _)| |]; cbn; rewrite ?fn_lookup_insert; cbn; try lia.
  rewrite E. cbn. lia.
Qed.
Lemma ahead_rank w w' h : Ahead w w' -> (rank (phase (halves w h)) <= rank (phase (halves w' h)))%nat.
Proof. intros [H _]. apply H. Qed.
(** The answer of the roll-call: the half has signed, or Windows refused it. *)
Lemma rollCall_answers h w r w' : RollInv w -> answers (rollCall rollFails h) w r w' ->
  RollInv w' /\ Ahead w w' /\ phase (halves w' h) = Signed r.
Proof.
  intros Hi H. pose proof (closed_roll versions_nonzero) as HC. assert (forall w (x : unit) w', RollInv w -> answers (Act (signStep rollFails h) (fun _ => Ret tt)) w x w' ->
    RollInv w' /\ Ahead w w' /\ ((S (rank (phase (halves w h))) <= rank (phase (halves w' h)))%nat \/ (3 <= rank (phase (halves w' h)))%nat)) as Hstep.
  { clear -Hversions. intros w x w' Hi H%answers_act. destruct H as (w1 & Ho & _ & ->). destruct (others_roll _ _ Ho Hi) as [Hi1 Ha1].
    pose proof (ahead_rank _ _ h Ha1). pose proof (sign_rank h w1). split; [apply roll_sign; [apply versions_nonzero|done]|].
    split; [etransitivity; [exact Ha1|apply ahead_sign]|lia]. }
  apply answers_bind in H as (? & w1 & H1 & H). destruct (Hstep _ _ _ Hi H1) as (I1 & A1 & R1).
  apply answers_bind in H as (? & w2 & H2 & H). destruct (Hstep _ _ _ I1 H2) as (I2 & A2 & R2).
  apply answers_bind in H as (? & w3 & H3 & H). destruct (Hstep _ _ _ I2 H3) as (I3 & A3 & R3).
  apply answers_act in H as (w4 & Ho & -> & ->). destruct (others_roll _ _ Ho I3) as [I4 A4]. pose proof (ahead_rank _ _ h A4).
  pose proof (ahead_rank _ _ h A1). pose proof (ahead_rank _ _ h A2). pose proof (ahead_rank _ _ h A3).
  split; [done|]. split; [do 3 (etransitivity; [eassumption|]); done|].
  destruct (phase (halves w4 h)) as [| | |b]; cbn in *; try lia. done.
Qed.

Lemma look_answers {A} (g : World -> A) w a w' : RollInv w -> answers (look g) w a w' -> RollInv w' /\ Ahead w w' /\ a = g w'.
Proof. intros Hi (w1 & Ho & -> & ->)%answers_act. destruct (others_roll _ _ Ho Hi). done. Qed.
Lemma ahead_signed w w' h b : Ahead w w' -> phase (halves w h) = Signed b -> phase (halves w' h) = Signed b.
Proof. intros [H _]. apply H. Qed.
Lemma mismatch_ahead w w' : Ahead w w' -> Mismatch w -> Mismatch w'.
Proof. intros Ha (h & h' & ? & ? & ?). exists h, h'. split; [done|]. split; by eapply ahead_signed. Qed.
(** With a mismatch on record, a half whose version has the first slot finds the
    other one taken. *)
Lemma mismatch_other w h : RollInv w -> Mismatch w -> versions h = first w -> other w <> 0.
Proof.
  intros (_ & Hh & _) (a & b & Hab & Ha & Hb) E. destruct (Hh a) as (_ & _ & Pa), (Hh b) as (_ & _ & Pb). rewrite Ha in Pa. rewrite Hb in Pb.
  destruct Pa as [_ [Pa|?]]; [|done]. destruct Pb as [_ [Pb|?]]; [|done]. congruence.
Qed.
Lemma mismatch_first w : RollInv w -> Mismatch w -> first w <> 0.
Proof. intros (_ & Hh & _) (a & b & Hab & Ha & _). destruct (Hh a) as (_ & _ & Pa). rewrite Ha in Pa. apply Pa. Qed.
(** What the partner's version may be. *)
Definition Partner (h : nat) (v : Z) : Prop :=
  v <> 0 /\ v <> versions h /\ (v = kUnsignedLayout /\ unsignedThere \/ exists h', versions h' = v).
Lemma peer_answers h w v w' : RollInv w -> answers (peerMismatch rollFails h) w v w' -> RollInv w' /\ Ahead w w' /\
  (v = 0 \/ Partner h v) /\ (rollFails h = false -> Mismatch w -> v <> 0).
Proof.
  intros Hi H. unfold peerMismatch in H. apply answers_bind in H as (u & w1 & H1 & H). apply look_answers in H1 as (I1 & A1 & ->); [|done].
  assert (Partner h kUnsignedLayout \/ g_unsignedPeer (halves w1 h) = 0) as Hu.
  { pose proof I1 as (_ & Hh & _). destruct (Hh h) as (_ & [Hu|[Hu Ht]] & _); [by right|left]. specialize (Hversions h). unfold kUnsignedLayout in *. split_and!; [done|lia|by left]. }
  destruct (Z.eqb_spec (g_unsignedPeer (halves w1 h)) 0) as [Eu|Eu]; cbn [negb] in H.
  2:{ apply answers_ret in H as [-> ->]. pose proof I1 as (_ & Hh & _). pose proof (Hh h) as (_ & [Hz|[Hz Ht]] & _); [done|]. rewrite Hz.
      destruct Hu as [Hp|?]; [|done]. split_and!; auto. }
  apply answers_bind in H as (r & w2 & H2 & H). apply rollCall_answers in H2 as (I2 & A2 & E2); [|done]. assert (Ahead w w2) as A02 by by etransitivity.
  destruct r; cbn [negb] in H.
  2:{ apply answers_ret in H as [-> ->]. split_and!; auto. intros Hr _. destruct I2 as (_ & Hh & _). destruct (Hh h) as (_ & _ & Hp). rewrite E2, Hr in Hp. done. }
  apply answers_bind in H as (ours & w3 & H3 & H). apply look_answers in H3 as (I3 & A3 & ->); [|done].
  apply answers_bind in H as (f & w4 & H4 & H). apply look_answers in H4 as (I4 & A4 & ->); [|done].
  apply answers_bind in H as (o & w5 & H5 & H). apply look_answers in H5 as (I5 & A5 & ->); [|done].
  assert (Ahead w w4) as A04 by (do 2 (etransitivity; [eassumption|]); done). assert (Ahead w w5) as A05 by (etransitivity; [exact A04|done]).
  assert (version (halves w3 h) = versions h) as Ev by (destruct I3 as (_ & Hh & _); apply Hh). rewrite Ev in H.
  assert (first w4 <> 0) as Hf4.
  { destruct I4 as (_ & Hh & _). destruct (Hh h) as (_ & _ & Hp). rewrite (ahead_signed w2 w4 h true) in Hp; [apply Hp| |done]. by etransitivity. }
  rewrite (proj2 (Z.eqb_neq _ _) Hf4) in H. destruct (Z.eqb_spec (first w4) (versions h)) as [E4|E4]; cbn [negb andb] in H.
  2:{ apply answers_ret in H as [-> ->]. destruct I4 as ([Hs _] & _). split_and!; auto. right. split_and!; auto. }
  assert (first w5 = first w4) as E5 by (destruct A5 as [_ Hk]; auto). destruct (proj1 I5) as [_ Hs5].
  destruct (Z.eqb_spec (other w5) 0) as [Eo|Eo]; cbn [negb andb] in H.
  - apply answers_ret in H as [-> ->]. split_and!; auto. intros _ Hm. exfalso. apply (mismatch_other w5 h); [done|by eapply mismatch_ahead|congruence|done].
  - destruct (Hs5 Eo) as (_ & Hne & Hex). rewrite (proj2 (Z.eqb_neq _ _)) in H by congruence. apply answers_ret in H as [-> ->].
    split_and!; auto. right. split_and!; [done|congruence|by right].
Qed.
Lemma map_answers h w b w' : RollInv w -> rollFails h = false -> Mismatch w -> answers (map_ rollFails blockFails h) w b w' -> b = false.
Proof.
  intros Hi Hr Hm H. apply answers_bind in H as (v & w1 & H1 & H). apply peer_answers in H1 as (_ & _ & _ & Hv); [|done].
  rewrite (proj2 (Z.eqb_neq _ _) (Hv Hr Hm)) in H. by apply answers_ret in H as [-> _].
Qed.
(** A call that runs alone answers what [run] computes. *)
Lemma answers_alone {A} (C : Prog World A -> Prog World unit) (p : Prog World A) owner w ts t :
  (forall f g, C (Act f g) = Act f (fun w => C (g w))) -> reachable rollFails blockFails versions exists_ owner (w, ts) -> (ts t).2 = C p ->
  answers p w (run p w).1 (run p w).2.
Proof.
  intros HC. revert w ts. induction p as [a|f g IH]; intros w ts Hr Ht; cbn [run]; [constructor|].
  econstructor; [exists owner, ts, ts; split; [exact Hr|apply rtc_refl]|]. rewrite HC in Ht.
  apply (IH w _ (<[t := ((ts t).1, C (g w))]> ts)); [|by rewrite (fn_lookup_insert (A:=nat) ts t)].
  eapply rtc_r; [exact Hr|]. exact (step_act _ _ w ts t f _ Ht).
Qed.
(** A thread may run its call to the end. *)
Lemma steps_alone (p : Prog World unit) owner w ts t : reachable rollFails blockFails versions exists_ owner (w, ts) -> (ts t).2 = p ->
  exists ts', reachable rollFails blockFails versions exists_ owner ((run p w).2, ts') /\ (ts' t) = ((ts t).1, Ret tt) /\
    forall t', t' <> t -> ts' t' = ts t'.
Proof.
  revert w ts. induction p as [[]|f g IH]; intros w ts Hr Ht; cbn [run].
  - exists ts. split; [done|]. split; [|done]. rewrite <-Ht. by destruct (ts t).
  - destruct (IH w (f w) (<[t := ((ts t).1, g w)]> ts)) as (ts' & H1 & H2 & H3).
    + eapply rtc_r; [exact Hr|]. exact (step_act _ _ w ts t f _ Ht).
    + by rewrite (fn_lookup_insert (A:=nat) ts t).
    + exists ts'. split; [done|]. rewrite (fn_lookup_insert (A:=nat) ts t) in H2. split; [done|]. intros t' Hne. rewrite H3 by done. by rewrite (fn_lookup_insert_ne (A:=nat) ts t).
Qed.
Lemma call_alone c owner w ts t : reachable rollFails blockFails versions exists_ owner (w, ts) -> (ts t).2 = Ret tt ->
  exists ts', reachable rollFails blockFails versions exists_ owner ((run (call rollFails blockFails (ts t).1 c) w).2, ts') /\
    forall t', ts' t' = ts t'.
Proof.
  intros Hr Ht. destruct (steps_alone (call rollFails blockFails (ts t).1 c) owner w (<[t := ((ts t).1, call rollFails blockFails (ts t).1 c)]> ts) t)
    as (ts' & H1 & H2 & H3); [eapply rtc_r; [exact Hr|exact (step_call _ _ w ts t c Ht)]|by rewrite (fn_lookup_insert (A:=nat) ts t)|].
  exists ts'. split; [done|]. intros t'. destruct (decide (t' = t)) as [->|Hne].
  - rewrite H2, (fn_lookup_insert (A:=nat) ts t). cbn. rewrite <-Ht. by destruct (ts t).
  - rewrite H3 by done. by rewrite (fn_lookup_insert_ne (A:=nat) ts t).
Qed.
End Roll.

(** C30. The halves find each other out, whatever they call and however their
    accesses interleave.  A half that is told of a partner is told a version other
    than its own that some half has, or that of the last layout without roll-call
    when its block is there; so halves of one build never refuse each other.  Once
    two halves of different versions have signed, for good, every half whose
    roll-call Windows maps is told of one, and its calls get no map: they answer as
    if nobody had published and write nothing. *)
Theorem roll_call_exact rollFails blockFails versions exists_ owner w ts h
    (Hversions : forall h, kUnsignedLayout < versions h) (Hreach : reachable rollFails blockFails versions exists_ owner (w, ts)) :
  (forall v w', Answers rollFails blockFails versions exists_ (peerMismatch rollFails h) w v w' ->
    (v = 0 \/ v <> versions h /\ (v = kUnsignedLayout /\ exists_ kUnsignedLayout = true \/ exists h', versions h' = v)) /\
    (rollFails h = false -> Mismatch versions w -> v <> 0)) /\
  (rollFails h = false -> Mismatch versions w ->
    (forall b w', Answers rollFails blockFails versions exists_ (map_ rollFails blockFails h) w b w' -> b = false) /\
    (forall w', others rollFails blockFails versions exists_ w w' -> Mismatch versions w')).
Proof.
  destruct (reachable_roll _ _ _ _ Hversions _ _ Hreach) as [Hi _]. split; [|intros Hr Hm; split].
  - intros v w' Ha. eapply peer_answers in Ha as (_ & _ & Hv & Hm); [|done..]. split; [|done].
    destruct Hv as [->|(Hv & Hne & Hp)]; [by left|]. right. split; [done|]. destruct Hp as [(-> & [He|[h' E]])|Hp]; [by left| |by right].
    specialize (Hversions h'). lia.
  - intros b w'. by eapply map_answers.
  - intros w' Ho. eapply others_roll in Ho as [_ Ha]; [|done..]. by eapply mismatch_ahead.
Qed.
(** Halves of versions 35 and 36, each having asked for the mark once. *)
Definition demo_versions (h : nat) : Z := match h with 1%nat => 36 | _ => 35 end.
Definition demo_exists (v : Z) : bool := false.
Definition demo_mismatch : World :=
  let w := (run (call (fun _ => false) (fun _ => false) 0 CMark) (world0 demo_versions demo_exists)).2 in
  (run (call (fun _ => false) (fun _ => false) 1 CMark) w).2.
Lemma demo_reachable : exists ts, reachable (fun _ => false) (fun _ => false) demo_versions demo_exists (fun t => t) (demo_mismatch, ts).
Proof.
  destruct (call_alone (fun _ => false) (fun _ => false) demo_versions demo_exists CMark (fun t => t)
    (world0 demo_versions demo_exists) (fun t => (t, Ret tt)) 0) as (ts & Hr & Hts); [apply rtc_refl|done|].
  destruct (call_alone _ _ _ _ CMark _ _ ts 1 Hr) as (ts' & Hr' & _); [by rewrite Hts|]. rewrite Hts in Hr'. by exists ts'.
Qed.
Lemma demo_is_mismatch : Mismatch demo_versions demo_mismatch.
Proof. exists 0%nat, 1%nat. by vm_compute. Qed.
Lemma roll_call_exact_witness : Mismatch demo_versions demo_mismatch /\
  (forall v w', Answers (fun _ => false) (fun _ => false) demo_versions demo_exists (peerMismatch (fun _ => false) 0) demo_mismatch v w' -> v <> 0) /\
  (run (peerMismatch (fun _ => false) 0) demo_mismatch).1 = 36.
Proof.
  split; [exact demo_is_mismatch|]. split; [|by vm_compute]. intros v w' H. destruct demo_reachable as [ts Hr].
  refine (proj2 (proj1 (roll_call_exact _ _ _ _ _ _ _ 0%nat _ Hr) v w' H) eq_refl demo_is_mismatch).
  intros [|[|h]]; by vm_compute.
Defined.

(** ** Calls that get the map *)
Lemma run_bind {W A B} (p : Prog W A) (k : A -> Prog W B) w : run (p ≫= k) w = run (k (run p w).1) (run p w).2.
Proof. cbv [mbind Prog_bind]. revert w. induction p as [a|f g IH]; intros w; cbn [bindP run]; [done|apply IH]. Qed.
Lemma run_fmap {W A B} (p : Prog W A) (g : A -> B) w : run (g <$> p) w = (g (run p w).1, (run p w).2).
Proof. change (g <$> p) with (p ≫= fun a => Ret (g a)). by rewrite run_bind. Qed.
(** A half that has signed, found no partner of another version, and mapped the block. *)
Definition Open (h : nat) (w : World) : Prop :=
  phase (halves w h) = Signed true /\ blockMapped (halves w h) = Some true /\ g_unsignedPeer (halves w h) = 0 /\
  first w = version (halves w h) /\ (other w = 0 \/ other w = version (halves w h)).
Section Opened.
Context (rollFails blockFails : nat -> bool).
Lemma run_rollCall h w ok : phase (halves w h) = Signed ok -> run (rollCall rollFails h) w = (ok, w).
Proof.
  intros Hp. assert (signStep rollFails h w = w) as Hs by (unfold signStep; by rewrite Hp).
  unfold rollCall. rewrite !run_bind. cbn [run fst snd]. rewrite !Hs. cbn. by rewrite Hp.
Qed.
Lemma run_peer h w : Open h w -> run (peerMismatch rollFails h) w = (0, w).
Proof.
  intros (Hp & Hb & Hu & Hf & Ho). unfold peerMismatch, static, look. rewrite run_bind. cbn [run fst snd]. rewrite Hu. cbn [Z.eqb negb].
  rewrite run_bind, (run_rollCall h w true) by done. cbn [fst snd negb]. do 3 (rewrite ?run_bind; cbn [run fst snd]).
  rewrite Hf, !Z.eqb_refl. cbn [negb]. rewrite andb_false_r.
  destruct Ho as [-> | ->]; rewrite ?Z.eqb_refl; cbn [negb andb]; [done|by rewrite andb_false_r].
Qed.
Lemma open_runs {A} h (d : A) body w : Open h w -> run (onMap rollFails blockFails h d body) w = run body w.
Proof.
  intros HO. pose proof HO as (_ & Hb & _). assert (mapBlock blockFails h w = w) as Hm by (unfold mapBlock; by rewrite Hb).
  unfold onMap, map_. rewrite !run_bind, run_peer by done. cbn [fst snd Z.eqb negb]. unfold block, static, look. rewrite run_bind. cbn [run fst snd].
  rewrite Hm, Hb. done.
Qed.
Lemma open_block h h' u w : Open h w -> Open h (onBlock h' u w).
Proof. done. Qed.
Lemma theirs_onBlock h h' u w : version (halves w h) = version (halves w h') -> theirs h' (onBlock h u w) = u (theirs h w).
Proof. intros E. unfold theirs, onBlock. cbn. rewrite <-E. by rewrite fn_lookup_insert. Qed.
Lemma run_store h u w : run (store h u) w = (tt, onBlock h u w).
Proof. done. Qed.
Lemma run_load {A} h (g : Shared -> A) w : run (load h g) w = (g (theirs h w), w).
Proof. done. Qed.
End Opened.
Lemma u32_s32 x : u32 (s32 x) = u32 x.
Proof. unfold u32, s32, signed. rewrite Zminus_mod_idemp_l. f_equal. lia. Qed.
Lemma s32_zero x : 0 <= x < 2 ^ 32 -> s32 x = 0 -> x = 0.
Proof. intros Hx H. rewrite <-(u32_small x), <-u32_s32, H; [done|]. unfold is_u32, u32_max. lia. Qed.
Lemma mask_mod x k : 0 <= k -> Z.land x (2 ^ k - 1) = x mod 2 ^ k.
Proof. intros Hk. rewrite <-Z.land_ones by done. by rewrite Z.ones_equiv. Qed.
(** Two fields of [k] bits below a tag. *)
Lemma pack_fields k tag a b : 0 <= k -> 0 <= a < 2 ^ k -> 0 <= b < 2 ^ k ->
  let x := Z.lor (Z.lor (Z.shiftl tag (2 * k)) (Z.shiftl a k)) b in
  x = (tag * 2 ^ k + a) * 2 ^ k + b /\ Z.land (Z.shiftr x k) (2 ^ k - 1) = a /\ Z.land x (2 ^ k - 1) = b /\ Z.shiftr x (2 * k) = tag.
Proof.
  intros Hk Ha Hb x. assert (0 < 2 ^ k) as Hp by (apply Z.pow_pos_nonneg; lia).
  assert (x = (tag * 2 ^ k + a) * 2 ^ k + b) as Ex.
  { unfold x. rewrite !Z.shiftl_mul_pow2 by lia. replace (2 * k) with (k + k) by lia. rewrite Z.pow_add_r by lia.
    rewrite (lor_low (k + k) (tag * (2 ^ k * 2 ^ k))); [|lia|by rewrite Z.pow_add_r, Z.mod_mul by (try lia; nia)|rewrite Z.pow_add_r by lia; nia].
    rewrite (lor_low k); [ring|done| |done]. replace (tag * (2 ^ k * 2 ^ k) + a * 2 ^ k) with ((tag * 2 ^ k + a) * 2 ^ k) by ring. apply Z.mod_mul. lia. }
  split; [done|]. rewrite !mask_mod, !Z.shiftr_div_pow2, Ex by lia. replace (2 * k) with (k + k) by lia. rewrite (Z.pow_add_r 2 k k), <-Z.div_div by lia.
  rewrite Z.div_add_l, (Z.div_small b), Z.add_0_r by lia. rewrite Z.div_add_l, (Z.div_small a), Z.add_0_r by lia.
  split_and!; [|rewrite Z.add_comm, Z.mod_add by lia; by apply Z.mod_small|done]. rewrite Z.add_comm, Z.mod_add by lia. by apply Z.mod_small.
Qed.

(** ** What the conversions yield *)
Lemma clamp_range lo hi t : is_float lo -> is_float hi -> is_float t -> f_finite lo = true -> f_finite hi = true -> val lo <= val hi ->
  let c := clampTo lo hi t in is_float c /\ f_finite c = true /\ val lo <= val c <= val hi.
Proof.
  intros Hl Hh Ht Fl Fh Hv c. unfold c, clampTo. destruct (SFltb lo t) eqn:E1; cbn [negb].
  - destruct (SFltb t hi) eqn:E2; cbn [negb]; [|split_and!; done || lia].
    destruct (f_finite t) eqn:Ft; [|by destruct lo as [| | |[]], hi as [| | |[]], t as [|[]| |]].
    rewrite fltb_val in E1, E2 by done. bool_solve. split_and!; done || lia.
  - destruct (SFltb lo hi) eqn:E2; cbn [negb]; split_and!; done || lia.
Qed.
Lemma scaled_range N R K k ek c : 0 <= K <= 23 -> -50 <= ek <= 0 -> 2 ^ 23 <= Zpos k -> Zpos k = N * 2 ^ (- ek) -> 0 <= R -> N * R < 2 ^ K ->
  is_float c -> f_finite c = true -> - (R * 2 ^ 200) <= val c <= R * 2 ^ 200 ->
  - (N * R) <= ftrunc (fmul c (S754_finite false k ek)) <= N * R.
Proof.
  intros HK Hek Hk HN HR HNR Hc Hf Hv. assert (0 < 2 ^ (- ek)) by (apply Z.pow_pos_nonneg; lia). assert (0 < N) by nia.
  assert (2 ^ (200 + K) = 2 ^ K * 2 ^ 200) as Ep by (rewrite Z.pow_add_r by lia; lia).
  destruct (fmul_const K N k ek (R * 2 ^ 200) c) as (f & Ha & Hfm); try done; [lia..| |]; [rewrite Ep; nia|].
  assert (2 ^ (176 + K) <= 2 ^ 199) by (apply Z.pow_le_mono_r; lia).
  assert (2 ^ 200 = 2 * 2 ^ 199) as E2 by done.
  destruct (ftrunc_atMost (-149 + ek) (N * R) f) as [Ht1 Ht2]; [nia|lia|eapply atMost_mono; [exact Ha|lia|lia]|].
  destruct Hfm as [-> | [_ ->]]; lia.
Qed.
Lemma milli_range t : is_float t -> -3000 <= ftrunc (fmul (clampTo (f_of_Z (-3)) (f_of_Z 3) t) f1000) <= 3000.
Proof.
  intros Ht. destruct (clamp_range (f_of_Z (-3)) (f_of_Z 3) t) as (Hc & Hf & Hv); [by vm_compute|by vm_compute|done|by vm_compute..|].
  apply (scaled_range 1000 3 12 16384000 (-14)); try done; lia.
Qed.
Lemma tenths_range t : is_float t -> -1800 <= ftrunc (fmul (clampTo (f_of_Z (-180)) (f_of_Z 180) t) f10) <= 1800.
Proof.
  intros Ht. destruct (clamp_range (f_of_Z (-180)) (f_of_Z 180) t) as (Hc & Hf & Hv); [by vm_compute|by vm_compute|done|by vm_compute..|].
  apply (scaled_range 10 180 11 10485760 (-20)); try done; lia.
Qed.
Lemma toMilli_range R K x : 0 <= K <= 20 -> 0 <= R -> 1000 * R + 1 < 2 ^ K -> is_float x -> f_finite x = true -> 0 < val x <= R * 2 ^ 200 ->
  0 <= toMilli x <= 1000 * R.
Proof.
  intros HK HR HRK Hx Hf Hv. assert (2 ^ (200 + K) = 2 ^ K * 2 ^ 200) as Ep by (rewrite Z.pow_add_r by lia; lia).
  assert (2 ^ (176 + K) < 2 ^ 198) by (apply Z.pow_lt_mono_r; lia). assert (2 ^ 200 = 4 * 2 ^ 198) as E2 by done. assert (2 ^ 199 = 2 * 2 ^ 198) as E3 by done.
  assert ((1000 * R + 2) * 2 ^ 200 <= 2 ^ (200 + K)) as HT by (rewrite Ep; apply Z.mul_le_mono_nonneg_r; lia).
  destruct (fmul_const K 1000 16384000 (-14) (R * 2 ^ 200) x) as (f & Ha & Hfm); try done; [lia..|nia|].
  unfold toMilli. change f1000 with (S754_finite false 16384000 (-14)). destruct Hfm as [-> | [Hle _]]; [|lia].
  pose proof (fadd_half K (1000 * (R * 2 ^ 200) + 2 ^ (176 + K)) f) as Hh. 
  apply (ftrunc_atMost (-163) (1000 * R)); [lia..|]. eapply atMost_mono; [apply Hh; [lia|lia|exact Ha|lia]|lia|lia].
Qed.
Lemma alphaMille_range a : is_float a -> 0 <= alphaMille a <= 1000.
Proof.
  intros Ha. unfold alphaMille. destruct (SFltb f_zero a) eqn:E1; cbn [negb]; [|by vm_compute].
  destruct (SFltb (f_of_Z 1) a) eqn:E2; [by vm_compute|].
  destruct (f_finite a) eqn:Hf; [|by destruct a as [|[]| |]]. rewrite fltb_val in E1, E2 by done. bool_solve.
  change (val f_zero) with 0 in E1. change (val (f_of_Z 1)) with (1 * 2 ^ 200) in E2.
  apply (toMilli_range 1 10); try done; lia.
Qed.
Lemma perMille_range f : is_float f -> 0 <= perMille f <= 4095.
Proof.
  intros Hf. unfold perMille. destruct (SFltb (f_of_Z 1) f) eqn:E1; cbn [negb]; [|lia]. set (pm := fadd _ _).
  assert (nonneg pm /\ short pm) as [Hn Hs].
  { apply fadd_half_shape. change f1000 with (S754_finite false 16384000 (-14)). apply fmul_shape. by apply fsub_shape. }
  clearbody pm. destruct (SFleb (f_of_Z 4095) pm) eqn:E2; [lia|]. change (f_of_Z 4095) with (S754_finite false 16773120 (-12)) in E2.
  destruct pm as [s|[]| |[] m e]; try done. cbn [ftrunc]. cbn [nonneg short] in *. unfold SFleb in E2. cbn [SFcompare] in E2.
  assert (e < -12 \/ e = -12 /\ Zpos m < 16773120) as He.
  { destruct (Z.compare_spec (-12) e) as [<-|Hc|Hc]; [right|done|left; lia]. split; [done|].
    destruct (Pos.compare_cont Eq 16773120 m) eqn:Ec; [done|done|]. change (Pos.compare_cont Eq 16773120 m) with (16773120 ?= m)%positive in Ec.
    apply Pos.compare_gt_iff in Ec. lia. }
  rewrite (proj2 (Z.leb_gt _ _)) by lia. assert (0 < 2 ^ (- e)) by (apply Z.pow_pos_nonneg; lia). split; [apply Z.div_pos; lia|].
  apply Z.lt_succ_r, Z.div_lt_upper_bound; [done|]. destruct He as [He|[-> He]]; [|lia].
  assert (2 ^ 13 <= 2 ^ (- e)) by (apply Z.pow_le_mono_r; lia). lia.
Qed.

Lemma presence_bit p : Z.testbit p 31 = true -> (Z.land p 0x80000000 =? 0) = false.
Proof.
  intros H. apply Z.eqb_neq. intros E. apply (f_equal (fun x => Z.testbit x 31)) in E. by rewrite Z.land_spec, Z.bits_0, H in E.
Qed.
Lemma is_u32_of x : 0 <= x < 2 ^ 32 -> u32 x = x.
Proof. intros. apply u32_small. unfold is_u32, u32_max. lia. Qed.

(** ** One half publishes, the other reads *)
Section Published.
Context (rollFails blockFails : nat -> bool) (w : World) (h h' : nat).
Context (Ho : Open h w) (Ho' : Open h' w) (Hv : version (halves w h) = version (halves w h')).
Lemma after_map {A} (d : A) p body : (forall w', (run p w) = (tt, w') -> Open h' w') ->
  afterwards (whenMap rollFails blockFails h p) (onMap rollFails blockFails h' d body) w = afterwards p body w.
Proof.
  intros Hp. unfold afterwards, whenMap. rewrite (open_runs _ _ h) by done. destruct (run p w) as [[] w'] eqn:E. rewrite open_runs; [done|by apply Hp].
Qed.
Lemma after_store {A} (d : A) u body :
  afterwards (whenMap rollFails blockFails h (store h u)) (onMap rollFails blockFails h' d body) w = (run body (onBlock h u w)).1.
Proof. apply after_map. intros w' [= <-]. by apply open_block. Qed.
Lemma load_after {A B} (g : Shared -> A) u (k : A -> Prog World B) : run (load h' g ≫= k) (onBlock h u w) = run (k (g (u (theirs h w)))) (onBlock h u w).
Proof. rewrite run_bind, run_load. cbn [fst snd]. by rewrite theirs_onBlock. Qed.

Lemma eye_size_back x y : 0 < x < 2 ^ 16 -> 0 < y < 2 ^ 16 ->
  afterwards (announceEyeTextureSize rollFails blockFails h x y) (eyeTextureSize rollFails blockFails h') w = Some (x, y).
Proof.
  intros Hx Hy. unfold announceEyeTextureSize. rewrite !(proj2 (Z.eqb_neq _ _)), !(proj2 (Z.ltb_ge _ _)) by lia. cbn [orb]. unfold eyeTextureSize.
  rewrite after_store, load_after. cbn [w_eyeSize over].
  destruct (pack_fields 16 0 x y) as (Ep & _ & Hl & _); [lia..|]. change (2 ^ 16 - 1) with 0xFFFF in Hl. rewrite Z.shiftl_0_l, Z.lor_0_l in *. set (p := Z.lor _ _) in *.
  assert (p / 2 ^ 16 = x) as Hd by (rewrite Ep; change (2 ^ 16) with 65536 in *; Z.div_mod_to_equations; lia).
  assert (0 < p < 2 ^ 32) by (change (2 ^ 16) with 65536 in *; lia). cbn.
  destruct (Z.eqb_spec (s32 p) 0) as [E|_]; [apply s32_zero in E; lia|]. cbn. rewrite u32_s32, is_u32_of by lia.
  rewrite Z.shiftr_div_pow2, Hd by lia. by rewrite Hl.
Qed.
Lemma mask_back l r : 0 <= l -> 0 <= r ->
  afterwards (announceRuntimeMaskTriangles rollFails blockFails h l r) (runtimeMaskTriangles rollFails blockFails h') w =
  Some (Z.min l 32767, Z.min r 32767).
Proof.
  intros Hl Hr. unfold announceRuntimeMaskTriangles, runtimeMaskTriangles. rewrite after_store, load_after. cbn [w_runtimeMaskTri over].
  assert (forall n, 0 <= n -> clamp15 n = Z.min n 32767) as Hc by (intros n Hn; unfold clamp15; case_match; bool_solve; lia).
  rewrite !Hc by done. destruct (pack_fields 15 2 (Z.min l 32767) (Z.min r 32767)) as (Ep & E1 & E2 & Et); [lia..|].
  change (Z.shiftl 2 (2 * 15)) with 0x80000000 in *. change (2 ^ 15 - 1) with 0x7FFF in *. set (p := Z.lor _ _) in *.
  assert (0 <= p < 2 ^ 32) by (change (2 ^ 15) with 32768 in *; lia). cbn. rewrite u32_s32, is_u32_of by lia.
  rewrite presence_bit; [by rewrite E1, E2|]. change 31 with (1 + 2 * 15). by rewrite <-Z.shiftr_spec, Et.
Qed.
Lemma cull_back st x y : 0 <= st -> is_float x -> is_float y ->
  decodeCullGuardState (afterwards (announceCullGuardState rollFails blockFails h st x y) (cullGuardStatePacked rollFails blockFails h') w) =
  if st =? 0 then mkCull 0 0 0 else mkCull (Z.min st 2) (perMille x) (perMille y).
Proof.
  intros Hst Hx Hy. unfold announceCullGuardState, cullGuardStatePacked. destruct (Z.eqb_spec st 0) as [->|Hne].
  - rewrite after_store. unfold load, look. cbn [run fst]. by rewrite theirs_onBlock.
  - rewrite after_store. unfold load, look. cbn [run fst]. rewrite theirs_onBlock by done. cbn [w_cullGuard over].
    pose proof (perMille_range x Hx). pose proof (perMille_range y Hy).
    replace (if 2 <? st then 2 else st) with (Z.min st 2) by (case_match; bool_solve; lia).
    destruct (pack_fields 12 (Z.min st 2) (perMille x) (perMille y)) as (Ep & E1 & E2 & Et); [lia..|].
    change (2 * 12) with 24 in *. change (2 ^ 12 - 1) with 0xFFF in *. set (p := Z.lor _ _) in *.
    rewrite u32_s32, is_u32_of by (change (2 ^ 12) with 4096 in *; lia). unfold decodeCullGuardState. rewrite E1, E2, Et.
    f_equal. change 3 with (2 ^ 2 - 1). rewrite mask_mod by lia. apply Z.mod_small. lia.
Qed.
Lemma unpack_back a b : 0 <= a < 2 ^ 16 -> 0 <= b < 2 ^ 16 -> a <> 0 ->
  unpackTangents (s32 (Z.lor (u32 (Z.shiftl a 16)) (Z.land b 0xFFFF))) = Some (overMilli a, overMilli b).
Proof.
  intros Ha Hb Hne. change 0xFFFF with (2 ^ 16 - 1). rewrite mask_mod, (Z.mod_small b), Z.shiftl_mul_pow2 by lia.
  rewrite (is_u32_of (a * 2 ^ 16)), <-Z.shiftl_mul_pow2 by (change (2 ^ 16) with 65536 in *; lia).
  destruct (pack_fields 16 0 a b) as (Ep & _ & Hl & _); [lia..|]. rewrite Z.shiftl_0_l, Z.lor_0_l in *. set (p := Z.lor _ _) in *.
  assert (p / 2 ^ 16 = a) as Hd by (rewrite Ep; change (2 ^ 16) with 65536 in *; Z.div_mod_to_equations; lia).
  assert (0 < p < 2 ^ 32) by (change (2 ^ 16) with 65536 in *; lia). unfold unpackTangents.
  destruct (Z.eqb_spec (s32 p) 0) as [E|_]; [apply s32_zero in E; lia|]. rewrite u32_s32, is_u32_of by lia.
  rewrite Z.shiftr_div_pow2, Hd by lia. change 0xFFFF with (2 ^ 16 - 1). by rewrite Hl.
Qed.
(** Tangents below 65: in thousandths they fit sixteen bits. *)
Lemma tangent_range x : is_float x -> SFltb f_zero x = true -> SFleb (f_of_Z 65) x = false -> 0 <= toMilli x < 2 ^ 16.
Proof.
  intros Hx E1 E2. destruct (f_finite x) eqn:Hf; [|by destruct x as [|[]| |]]. rewrite fltb_val in E1 by done. rewrite fleb_val in E2 by done. bool_solve.
  change (val f_zero) with 0 in E1. change (val (f_of_Z 65)) with (65 * 2 ^ 200) in E2.
  pose proof (toMilli_range 65 16 x). assert (0 <= toMilli x <= 1000 * 65); [|lia]. apply (toMilli_range 65 16); try done; lia.
Qed.
Definition tangentOk (x : float) : Prop := is_float x /\ SFltb f_zero x = true /\ SFleb (f_of_Z 65) x = false.
Lemma below_65 o i : tangentOk o -> is_float i -> SFltb f_zero i = true -> SFltb o i = false -> tangentOk i.
Proof.
  intros (Hfo & E1 & E2) Hfi E3 E4. split_and!; [done..|]. destruct (f_finite o) eqn:Fo; [|by destruct o as [|[]| |]].
  destruct (f_finite i) eqn:Fi; [|by destruct i as [|[]| |], o as [| | |[]]]. rewrite fltb_val in E4 by done. rewrite fleb_val in E2 |- * by done.
  bool_solve. apply Z.leb_gt. lia.
Qed.
Lemma tangents_back o i : tangentOk o -> is_float i -> SFltb f_zero i = true -> SFltb o i = false -> toMilli o <> 0 ->
  afterwards (announceEyeTangents rollFails blockFails h o i) (eyeTangents rollFails blockFails h') w = Some (overMilli (toMilli o), overMilli (toMilli i)).
Proof.
  intros Ht Hi E3 E4 Hne. pose proof (below_65 o i Ht Hi E3 E4) as Ht'. destruct Ht as (Hfo & E1 & E2), Ht' as (_ & _ & E5).
  unfold announceEyeTangents, eyeTangents. rewrite E1, E2, E3, E4. cbn [negb orb]. rewrite after_store, load_after. cbn [w_eyeTangents over].
  rewrite unpack_back; [done|by apply tangent_range..|done].
Qed.
Lemma tangents_vertical_back t b : tangentOk t -> tangentOk b -> toMilli t <> 0 ->
  afterwards (announceEyeTangentsVertical rollFails blockFails h t b) (eyeTangentsVertical rollFails blockFails h') w = Some (overMilli (toMilli t), overMilli (toMilli b)).
Proof.
  intros (H1 & H2 & H3) (H4 & H5 & H6) Hne. unfold announceEyeTangentsVertical, eyeTangentsVertical. rewrite H2, H3, H5, H6. cbn [negb orb].
  rewrite after_store, load_after. cbn [w_eyeTangentsV over]. rewrite unpack_back; [done|by apply tangent_range..|done].
Qed.
(** Thousandths of a tangent in [-3, 3], tenths of a degree in [-180, 180]. *)
Definition milli (t : float) : Z := ftrunc (fmul (clampTo (f_of_Z (-3)) (f_of_Z 3) t) f1000).
Definition tenthsOf (t : float) : Z := ftrunc (fmul (clampTo (f_of_Z (-180)) (f_of_Z 180) t) f10).
Lemma biased_spec t : is_float t -> biased t = milli t + 16384 /\ 0 <= milli t + 16384 < 2 ^ 15.
Proof.
  intros Ht. pose proof (milli_range t Ht). unfold biased, milli in *. change 0x7FFF with (2 ^ 15 - 1).
  rewrite is_u32_of, mask_mod, Z.mod_small by lia. lia.
Qed.
Lemma tenths_spec t : is_float t -> tenths t = tenthsOf t + kHeadLockBias /\ 0 <= tenthsOf t + kHeadLockBias < 2 ^ 12.
Proof.
  intros Ht. pose proof (tenths_range t Ht). unfold tenths, tenthsOf, kHeadLockBias in *. change 0xFFF with (2 ^ 12 - 1).
  rewrite is_u32_of, mask_mod, Z.mod_small by lia. lia.
Qed.
Lemma forward_back x y : is_float x -> is_float y ->
  afterwards (announceHeadForward rollFails blockFails h x y) (headForward rollFails blockFails h') w = Some (overMilli (milli x), overMilli (milli y)).
Proof.
  intros Hx Hy. unfold announceHeadForward, headForward. rewrite after_store, load_after. cbn [w_headForward over].
  destruct (biased_spec x Hx) as [-> Rx], (biased_spec y Hy) as [-> Ry].
  destruct (pack_fields 15 2 (milli x + 16384) (milli y + 16384)) as (Ep & E1 & E2 & Et); [lia..|].
  change (Z.shiftl 2 (2 * 15)) with 0x80000000 in *. change (2 ^ 15 - 1) with 0x7FFF in *. set (p := Z.lor _ _) in *.
  assert (0 < p < 2 ^ 32) by (change (2 ^ 15) with 32768 in *; lia). destruct (Z.eqb_spec (s32 p) 0) as [E|_]; [apply s32_zero in E; lia|].
  cbn. rewrite u32_s32, is_u32_of, E1, E2 by lia. unfold unbiased. do 3 f_equal; f_equal; lia.
Qed.
Lemma head_lock_back x y : is_float x -> is_float y ->
  afterwards (setMenuHeadLock rollFails blockFails h true x y) (menuHeadLock rollFails blockFails h') w =
  Some (SFdiv 24 128 (f_of_Z (tenthsOf x)) f10, SFdiv 24 128 (f_of_Z (tenthsOf y)) f10).
Proof.
  intros Hx Hy. unfold setMenuHeadLock, menuHeadLock. cbn [negb]. rewrite after_store, load_after. cbn [w_menuHeadLock over].
  destruct (tenths_spec x Hx) as [-> Rx], (tenths_spec y Hy) as [-> Ry].
  destruct (pack_fields 12 128 (tenthsOf x + kHeadLockBias) (tenthsOf y + kHeadLockBias)) as (Ep & E1 & E2 & Et); [lia..|].
  change (Z.shiftl 128 (2 * 12)) with 0x80000000 in *. change (2 ^ 12 - 1) with 0xFFF in *. set (p := Z.lor _ _) in *.
  assert (0 <= p < 2 ^ 32) by (change (2 ^ 12) with 4096 in *; lia). rewrite u32_s32, is_u32_of by lia.
  rewrite presence_bit by (change 31 with (7 + 2 * 12); by rewrite <-Z.shiftr_spec, Et). cbn. rewrite E1, E2. unfold degrees.
  do 3 f_equal; f_equal; lia.
Qed.
Lemma submit_back eye p : eye = 0 \/ eye = 1 -> is_u64 p ->
  afterwards (publishSubmitTexture rollFails blockFails h eye p) (submittedTexture rollFails blockFails h' eye) w = p.
Proof.
  intros He Hp. unfold publishSubmitTexture, submittedTexture. replace ((eye <? 0) || (1 <? eye)) with false by (by destruct He as [-> | ->]).
  rewrite after_store. unfold load, look. cbn [run fst]. rewrite theirs_onBlock by done. cbn. rewrite fn_lookup_insert.
  unfold u64. rewrite s64_mod. by apply u64_small.
Qed.
Lemma device_back p : is_u64 p -> afterwards (publishGameDevice rollFails blockFails h p) (gameDevice rollFails blockFails h') w = p.
Proof.
  intros Hp. unfold publishGameDevice, gameDevice. rewrite after_store. unfold load, look. cbn [run fst]. rewrite theirs_onBlock by done. cbn.
  unfold u64. rewrite s64_mod. by apply u64_small.
Qed.
Lemma visible_back a : is_float a ->
  exists stamp, afterwards (setMenuVisible rollFails blockFails h a) (menuVisible rollFails blockFails h') w =
    Some (0 <? alphaMille a, overMilli (alphaMille a), stamp) /\ 0 <= alphaMille a <= 1000.
Proof.
  intros Ha. unfold setMenuVisible, menuVisible. rewrite after_map by (intros w' [= <-]; exact Ho'). unfold afterwards.
  cbn -[theirs onBlock overMilli alphaMille]. eexists. split; [|by apply alphaMille_range].
  rewrite theirs_onBlock by done. cbn -[theirs onBlock overMilli alphaMille]. by rewrite theirs_onBlock.
Qed.
(** The arrays: written element by element, then counted. *)
Section Array.
Context (arr : Shared -> nat -> float) (upd : nat -> float -> Shared -> Shared) (seqOf : Shared -> Z) (bump : Shared -> Shared).
Context (Harr : forall i x s, arr (upd i x s) = <[i := x]> (arr s)) (Hseq : forall i x s, seqOf (upd i x s) = seqOf s).
Context (Hbump : forall s, arr (bump s) = arr s) (Hcount : forall s, seqOf (bump s) = inc32 (seqOf s)).
Lemma forEach_runs l i w0 : version (halves w0 h) = version (halves w0 h') -> exists w1, run (forEach l i (fun i x => store h (upd i x))) w0 = (tt, w1) /\
  (Open h' w0 -> Open h' w1) /\ halves w1 = halves w0 /\ seqOf (theirs h w1) = seqOf (theirs h w0) /\
  forall j, arr (theirs h w1) j = if decide (i <= j < i + length l)%nat then nth (j - i) l f_zero else arr (theirs h w0) j.
Proof.
  revert i w0. induction l as [|x l IH]; intros i w0 E0; cbn [forEach].
  { exists w0. split; [done|]. split; [done|]. split; [done|]. split; [done|]. intros j. cbn [length]. case_decide; [lia|done]. }
  rewrite run_bind, run_store. cbn [fst snd]. destruct (IH (S i) (onBlock h (upd i x) w0) E0) as (w1 & E & HO & Hh & Hs & Hj).
  exists w1. split; [exact E|]. split; [intros H0; by apply HO|]. split; [by rewrite Hh|].
  rewrite (theirs_onBlock h h) in Hs by done. split; [by rewrite Hs, Hseq|]. intros j. rewrite Hj, (theirs_onBlock h h), Harr by done. cbn [length].
  destruct (decide (j = i)) as [->|Hne].
  - rewrite decide_False by lia. rewrite decide_True by lia. rewrite Nat.sub_diag. cbn. by rewrite fn_lookup_insert.
  - rewrite fn_lookup_insert_ne by done. repeat case_decide; try lia; [|done]. replace (j - i)%nat with (S (j - S i)) by lia. done.
Qed.
Lemma collect_runs n i w0 : run (collect n i (fun i => load h' (fun s => arr s i))) w0 = (map (arr (theirs h' w0)) (seq i n), w0).
Proof. revert i. induction n as [|n IH]; intros i; cbn [collect]; [done|]. rewrite run_bind, run_load. cbn [fst snd]. rewrite run_bind, IH. done. Qed.
Lemma array_back {A} (d : A) m n (k : list float -> A) (k0 : A) : length m = n -> inc32 (seqOf (theirs h w)) <> 0 ->
  afterwards (whenMap rollFails blockFails h (forEach (take n m) 0 (fun i x => store h (upd i x));; store h bump))
    (onMap rollFails blockFails h' d (q ← load h' seqOf; if q =? 0 then mret k0 else l ← collect n 0 (fun i => load h' (fun s => arr s i)); mret (k l))) w = k m.
Proof.
  intros Hl Hq. rewrite take_ge by lia. destruct (forEach_runs m 0 w Hv) as (w1 & E & HO & Hh & Hs & Hj).
  assert (run (forEach m 0 (fun i x => store h (upd i x));; store h bump) w = (tt, onBlock h bump w1)) as Er by (by rewrite run_bind, E).
  rewrite after_map by (intros w'; rewrite Er; intros [= <-]; by apply open_block, HO). unfold afterwards. rewrite Er.
  cbn [snd]. assert (version (halves w1 h) = version (halves w1 h')) as Hv1 by by rewrite Hh.
  rewrite run_bind, run_load. cbn [fst snd]. rewrite theirs_onBlock, Hcount, Hs by done. rewrite (proj2 (Z.eqb_neq _ _) Hq).
  rewrite run_bind, collect_runs. cbn [fst snd run mret Prog_ret]. f_equal. rewrite theirs_onBlock, Hbump by done.
  apply (nth_ext _ _ (arr (theirs h w1) 0%nat) f_zero); rewrite length_map, length_seq; [done|]. intros j Hlt. rewrite (map_nth (arr (theirs h w1)) _ 0%nat), seq_nth by done.
  rewrite Hj, decide_True by lia. f_equal. lia.
Qed.
End Array.
Lemma head_pose_back m : length m = 12%nat -> inc32 (w_headPoseSeq (theirs h w)) <> 0 ->
  afterwards (publishHeadPose rollFails blockFails h (Some m)) (headPose rollFails blockFails h') w = Some m.
Proof. intros Hl Hq. by apply (array_back w_headPoseM (fun i x s => s <| w_headPoseM ::= fun a => <[i := x]> a |>) w_headPoseSeq). Qed.
Lemma panel_back m : length m = 16%nat -> inc32 (w_fssPanelRectSeq (theirs h w)) <> 0 ->
  afterwards (publishFssPanelRect rollFails blockFails h (Some m)) (readFssPanelRect rollFails blockFails h') w = Some m.
Proof. intros Hl Hq. by apply (array_back w_fssPanelRect (fun i x s => s <| w_fssPanelRect ::= fun a => <[i := x]> a |>) w_fssPanelRectSeq). Qed.
End Published.

Definition demo_open : World :=
  let no := fun _ => false in
  (run (call no no 1 CMark) (run (call no no 0 CMark) (world0 (fun _ => kFrameFlagVersion) demo_exists)).2).2.
Lemma demo_opened h : (h < 2)%nat -> Open h demo_open.
Proof. intros Hh. destruct h as [|[|h]]; [..|lia]; vm_compute; auto 10. Qed.

(** ** Held frames *)
Fixpoint takes (h : nat) (k : nat) : Prog World (list bool) :=
  match k with O => mret [] | S k => b ← takeBody h; l ← takes h k; mret (b :: l) end.
Lemma run_takes h k w : w_holdFrames (theirs h w) < 2 ^ 31 ->
  (run (takes h k) w).1 = repeat true (Nat.min k (Z.to_nat (w_holdFrames (theirs h w)))) ++ repeat false (k - Z.to_nat (w_holdFrames (theirs h w))).
Proof.
  revert w. induction k as [|k IH]; intros w Hn; cbn [takes]; [done|]. rewrite run_bind. unfold takeBody. rewrite (run_bind (load _ _)), run_load. cbn [fst snd].
  unfold takeRest. set (n := w_holdFrames (theirs h w)) in *. destruct (Z.leb_spec n 0) as [Hz|Hp].
  - cbn [run mret Prog_ret fst snd]. rewrite run_bind. cbn [run mret Prog_ret fst snd]. rewrite IH by done. fold n. replace (Z.to_nat n) with 0%nat by lia.
    rewrite !Nat.min_0_r, !Nat.sub_0_r. done.
  - rewrite (run_bind (store _ _)), run_store. cbn [run mret Prog_ret fst snd]. rewrite run_bind. cbn [run mret Prog_ret fst snd].
    assert (w_holdFrames (theirs h (onBlock h (fun s => s <| w_holdFrames ::= fun n => s32 (n - 1) |>) w)) = n - 1) as E.
    { rewrite theirs_onBlock by done. cbn. fold n. unfold s32, signed. rewrite Z.mod_small; lia. }
    rewrite IH by (rewrite E; lia). rewrite E. replace (Z.to_nat n) with (S (Z.to_nat (n - 1))) by lia. done.
Qed.
(** A hold lasts exactly as many submissions as the player's last press asked
    for, although the reader reads and counts down in two accesses and the press
    may come between them: counting from the press on, with the take that was under
    way then ([old] is what it had read), the answers are yes for [frames] takes
    and no from then on; only a press for no frames lets a take under way still
    hold one. *)
Theorem hold_exact h old frames k w (Hf : 0 <= frames < 2 ^ 31) :
  let pressed := onBlock h (fun s => s <| w_holdFrames := s32 frames |>) w in
  (run (takes h k) pressed).1 = repeat true (Nat.min k (Z.to_nat frames)) ++ repeat false (k - Z.to_nat frames) /\
  (run (b ← takeRest h old; l ← takes h k; mret (b :: l)) pressed).1 =
    if old <=? 0 then false :: repeat true (Nat.min k (Z.to_nat frames)) ++ repeat false (k - Z.to_nat frames)
    else true :: repeat true (Nat.min k (Z.to_nat (frames - 1))) ++ repeat false (k - Z.to_nat (frames - 1)).
Proof.
  intros pressed. assert (w_holdFrames (theirs h pressed) = frames) as Ep.
  { unfold pressed. rewrite theirs_onBlock by done. cbn. unfold s32, signed. rewrite Z.mod_small; lia. }
  split; [by rewrite (run_takes h k pressed), Ep by lia|]. rewrite run_bind. unfold takeRest. destruct (Z.leb_spec old 0) as [Hz|Hp].
  - cbn [run mret Prog_ret fst snd]. rewrite run_bind. cbn [run mret Prog_ret fst snd]. by rewrite (run_takes h k pressed), Ep by lia.
  - rewrite (run_bind (store _ _)), run_store. cbn [run mret Prog_ret fst snd]. rewrite run_bind. cbn [run mret Prog_ret fst snd]. f_equal.
    set (w1 := onBlock h _ pressed). assert (w_holdFrames (theirs h w1) = frames - 1) as E1.
    { unfold w1. rewrite theirs_onBlock by done. change (s32 (w_holdFrames (theirs h pressed) - 1) = frames - 1). rewrite Ep. unfold s32, signed. rewrite Z.mod_small; lia. }
    by rewrite (run_takes h k w1), E1 by lia.
Qed.
Lemma hold_exact_witness : (run (takes 0 3) (onBlock 0 (fun s => s <| w_holdFrames := s32 2 |>) demo_open)).1 = [true; true; false].
Proof. refine (proj1 (hold_exact 0 1 2 3 demo_open _)). lia. Defined.

(** ** The heartbeat *)
Definition bumpCount (l : list WAct) : Z := Z.of_nat (length (filter (fun a => isBump a = true) l)).
Lemma s32_range x : - 2 ^ 31 <= s32 x < 2 ^ 31.
Proof. unfold s32, signed. pose proof (Z.mod_pos_bound (x + 2 ^ 31) (2 ^ 32)). change (32 - 1) with 31. lia. Qed.
Lemma s32_add x y : s32 (s32 x + y) = s32 (x + y).
Proof.
  unfold s32, signed. change (32 - 1) with 31. replace ((x + 2 ^ 31) mod 2 ^ 32 - 2 ^ 31 + y + 2 ^ 31) with ((x + 2 ^ 31) mod 2 ^ 32 + y) by lia.
  rewrite Zplus_mod_idemp_l. do 2 f_equal. lia.
Qed.
Lemma s32_moved x c : - 2 ^ 31 <= x < 2 ^ 31 -> 0 <= c < 2 ^ 32 -> s32 (x + c) = x <-> c = 0.
Proof.
  intros Hx Hc. unfold s32, signed. change (32 - 1) with 31. split.
  - intros E. assert ((x + c + 2 ^ 31) mod 2 ^ 32 = x + 2 ^ 31) as E' by lia.
    destruct (Z.lt_ge_cases (x + c + 2 ^ 31) (2 ^ 32)); [rewrite Z.mod_small in E' by lia; lia|].
    rewrite <-(Z.mod_add _ (-1)), Z.mod_small in E' by lia. lia.
  - intros ->. rewrite Z.mod_small; lia.
Qed.
Section Heartbeat.
Context (h hw : nat).
Lemma theirs_on u w : version (halves w hw) = version (halves w h) -> theirs h (onBlock hw u w) = u (theirs h w).
Proof. intros Hv. rewrite theirs_onBlock by done. f_equal. unfold theirs. by rewrite Hv. Qed.
(** The words after the writer's accesses; [c] bumps since the stamp was [x]. *)
Lemma acts_spec l w x c v : version (halves w hw) = version (halves w h) -> - 2 ^ 31 <= x < 2 ^ 31 ->
  w_externalCamStamp (theirs h w) = s32 (x + c) -> w_externalCam (theirs h w) = (if v : bool then 1 else 0) ->
  halves (acts hw l w) = halves w /\ w_externalCamStamp (theirs h (acts hw l w)) = s32 (x + (c + bumpCount l)) /\
  w_externalCam (theirs h (acts hw l w)) = if said l v then 1 else 0.
Proof.
  intros Hv Hx. revert w c v Hv. induction l as [|a l IH]; intros w c v Hv Hs Hc; [by rewrite Z.add_0_r|].
  unfold bumpCount. cbn [acts foldl said]. destruct a as [b|]; cbn [act].
  - rewrite filter_cons_False by done. apply (IH (onBlock hw (fun s => s <| w_externalCam := if b then 1 else 0 |>) w) c b); [done|by rewrite theirs_on..].
  - rewrite filter_cons_True by done. cbn [length]. 
    destruct (IH (onBlock hw (fun s => s <| w_externalCamStamp ::= inc32 |>) w) (c + 1) v) as (H1 & H2 & H3); [done|..].
    + rewrite theirs_on by done. cbn. rewrite Hs. unfold inc32. rewrite s32_add. f_equal. lia.
    + by rewrite theirs_on.
    + split_and!; [exact H1| |exact H3]. unfold acts in H2. rewrite H2. f_equal. unfold bumpCount. lia.
Qed.
Lemma bumpCount_exists l : existsb isBump l = negb (bumpCount l =? 0) /\ 0 <= bumpCount l <= Z.of_nat (length l).
Proof.
  unfold bumpCount. split; [|split; [lia|]; apply inj_le, length_filter].
  induction l as [|a l IH]; [done|]. cbn [existsb]. destruct a; cbn [isBump orb]; [by rewrite filter_cons_False|].
  rewrite filter_cons_True by done. cbn [length]. symmetry. apply negb_true_iff, Z.eqb_neq. lia.
Qed.
(** What the reader remembers. *)
Definition remembers (age : option Z) (s : Half) : Prop :=
  - 2 ^ 31 <= lastStamp s < 2 ^ 31 /\ match age with None => everMoved s = false | Some a => 0 <= a /\ everMoved s = true /\ sinceMoved s = Z.min a u32_max end.
Lemma noticed_spec age s x c : remembers age s -> lastStamp s = x -> 0 <= c < 2 ^ 32 ->
  remembers (if c =? 0 then Z.succ <$> age else Some 0) (noticed (s32 (x + c)) s) /\ lastStamp (noticed (s32 (x + c)) s) = s32 (x + c) /\
  version (noticed (s32 (x + c)) s) = version s.
Proof.
  intros [Hl Ha] E Hc. pose proof (s32_moved x c ltac:(by rewrite <-E) Hc) as Hm. unfold noticed. rewrite E.
  destruct (Z.eqb_spec (s32 (x + c)) x) as [Es|Es]; cbn [negb].
  - rewrite (proj2 (Z.eqb_eq _ _) (proj1 Hm Es)). rewrite Es. destruct age as [a|]; cbn [fmap option_fmap option_map].
    + destruct Ha as (Ha & He & Hsm). rewrite He. cbn [andb]. destruct (Z.ltb_spec (sinceMoved s) u32_max) as [Hlt|Hge];
        (split; [split; [done|]|done]); cbn; rewrite ?He, Hsm in *; split_and!; try done; lia.
    + rewrite Ha. cbn [andb]. split; [split; [done|done]|done].
  - rewrite (proj2 (Z.eqb_neq c 0)) by tauto. split; [|done]. split; [apply s32_range|]. cbn. done.
Qed.
Lemma live_calls maxAge hist w (age : option Z) v c x : 0 <= maxAge < u32_max ->
  Forall (fun e => Z.of_nat (length e.1) < 2 ^ 31 /\ Z.of_nat (length e.2) < 2 ^ 31) hist -> version (halves w hw) = version (halves w h) ->
  remembers age (halves w h) -> lastStamp (halves w h) = x -> 0 <= c < 2 ^ 31 ->
  w_externalCamStamp (theirs h w) = s32 (x + c) -> w_externalCam (theirs h w) = (if v : bool then 1 else 0) ->
  liveCalls h hw maxAge hist w = liveSpec maxAge hist (negb (c =? 0)) age v.
Proof.
  intros Hmax Hh. revert w age v c x. induction Hh as [|[pre mid] hist [Hpre Hmid] Hh IH]; intros w age v c x Hv Hr Hx Hc Hs Hcam; [done|].
  cbn [liveCalls liveSpec fst snd] in *. assert (- 2 ^ 31 <= x < 2 ^ 31) as Hxr by (subst x; apply Hr).
  destruct (acts_spec pre w x c v Hv Hxr Hs Hcam) as (P1 & P2 & P3). destruct (bumpCount_exists pre) as [Bp Cp]. set (w1 := acts hw pre w) in *.
  set (c1 := c + bumpCount pre) in *. set (stamp := s32 (x + c1)) in *.
  assert (existsb isBump pre || negb (c =? 0) = negb (c1 =? 0)) as Ec.
  { rewrite Bp. unfold c1. destruct (Z.eqb_spec (c + bumpCount pre) 0), (Z.eqb_spec c 0), (Z.eqb_spec (bumpCount pre) 0); try done; lia. }
  rewrite (orb_comm _ (existsb _ pre)), Ec. unfold liveBody. cbn [against load look setStatic static mbind Prog_bind bindP]. change (acts hw pre w) with w1. rewrite P2. fold stamp.
  destruct (noticed_spec age (halves w h) x c1 Hr Hx) as (N1 & N2 & N3); [lia|]. fold stamp in N1, N2, N3.
  set (w2 := onHalf h (noticed stamp) w1). assert (halves w2 h = noticed stamp (halves w h)) as E2.
  { unfold w2, onHalf. cbn. rewrite fn_lookup_insert. by rewrite P1. }
  rewrite E2.
  set (age1 := if negb (c1 =? 0) then Some 0 else Z.succ <$> age). replace (if c1 =? 0 then Z.succ <$> age else Some 0) with age1 in N1 by (unfold age1; by destruct (c1 =? 0)).
  assert (version (halves w2 hw) = version (halves w2 h)) as Hv2.
  { rewrite E2, N3. unfold w2, onHalf. cbn. destruct (decide (hw = h)) as [->|Hne]; [by rewrite fn_lookup_insert, P1|]. by rewrite fn_lookup_insert_ne, P1. }
  assert (theirs h w2 = theirs h w1) as Et by (unfold theirs; rewrite E2, N3, <-P1; reflexivity).
  destruct (acts_spec mid w2 stamp 0 (said pre v) Hv2) as (M1 & M2 & M3); [apply s32_range|rewrite Et, P2; unfold stamp; by rewrite s32_add, Z.add_0_r|by rewrite Et|].
  assert (liveCalls h hw maxAge hist (acts hw mid w2) = liveSpec maxAge hist (existsb isBump mid) age1 (said mid (said pre v))) as Hrest.
  { destruct (bumpCount_exists mid) as [Bm Cm]. rewrite Bm. eapply (IH _ age1 _ (bumpCount mid) stamp).
    - by rewrite M1.
    - by rewrite M1, E2.
    - by rewrite M1, E2.
    - lia.
    - by rewrite M2.
    - exact M3. }
  destruct N1 as [_ N1]. destruct age1 as [a|].
  - destruct N1 as (Na & Ne & Ns). rewrite Ne, Ns. cbn [negb]. replace (maxAge <? Z.min a u32_max) with (negb (a <=? maxAge)) by (destruct (Z.leb_spec a maxAge), (Z.ltb_spec maxAge (Z.min a u32_max)); done || lia).
    destruct (Z.leb_spec a maxAge); cbn [negb andb].
    + cbn [against load look bindP mret Prog_ret foldl]. fold w2. f_equal; [|exact Hrest]. rewrite M3. by destruct (said mid _).
    + cbn [against mret Prog_ret foldl]. f_equal. exact Hrest.
  - rewrite N1. cbn [negb against mret Prog_ret foldl]. f_equal. exact Hrest.
Qed.
End Heartbeat.

(** C32. The gate that moves the player's viewpoint trusts the writer exactly as long
    as it speaks.  Whatever the writer does and whenever, also between the reader's
    two reads, the calls answer as the specification does: yes if the last value
    written is yes and the stamp has moved within the last [maxAge] calls, no if the
    writer has never spoken or has fallen silent. *)
Theorem live_refines h hw maxAge hist w (Hmax : 0 <= maxAge < u32_max)
    (Hhist : Forall (fun e => Z.of_nat (length e.1) < 2 ^ 31 /\ Z.of_nat (length e.2) < 2 ^ 31) hist)
    (Hv : version (halves w hw) = version (halves w h))
    (Hnew : everMoved (halves w h) = false /\ lastStamp (halves w h) = 0)
    (Hblock : w_externalCamStamp (theirs h w) = 0 /\ w_externalCam (theirs h w) = 0) :
  liveCalls h hw maxAge hist w = liveSpec maxAge hist false None false.
Proof.
  destruct Hnew as [He Hl], Hblock as [Hs Hc]. eapply (live_calls h hw maxAge hist w None false 0 0); try done.
  split; [rewrite Hl; lia|done].
Qed.
(** A writer that says yes twice and then falls silent, with one frame of grace. *)
Lemma live_refines_witness :
  liveCalls 1 0 1 [([WValue true; WBump], []); ([WValue true], [WBump]); ([], []); ([], []); ([], [])] demo_open = [true; true; true; true; false].
Proof.
  etransitivity; [apply (live_refines 1 0 1 _ demo_open)|by vm_compute]; [unfold u32_max; lia|repeat constructor; cbn; lia|by vm_compute..].
Defined.

(** ** Smaller facts *)
(** The world after a program's first steps. *)
Fixpoint steps {W A} (n : nat) (p : Prog W A) (w : W) : W :=
  match n, p with S n, Act f k => steps n (k w) (f w) | _, _ => w end.
(** A trace read while the writer is under way mixes two records, and the sequence
    number, which moves after the record only, is the same before and after. *)
Lemma torn_read_undetected h hw c w : version (halves w hw) = version (halves w h) ->
  let w1 := steps 1 (publishBody hw c) w in
  let r := (run (readBody h) w1).1 in
  renderPtr r = u64 (renderPtr c) /\ gamePtr r = u64 (w_poseReaderGamePtr (theirs h w)) /\
  w_poseReaderSeq (theirs h w1) = w_poseReaderSeq (theirs h w) /\ seq_ r = u32 (w_poseReaderSeq (theirs h w)).
Proof.
  intros Hv w1 r. unfold r, readBody. repeat (rewrite ?(run_bind (load _ _)), ?run_load; cbn [fst snd]). cbn [run mret Prog_ret fst renderPtr gamePtr seq_].
  unfold w1, publishBody. cbn [steps store mbind Prog_bind bindP]. rewrite !theirs_on by done. cbn. split; [|done].
  unfold u64. by rewrite s64_mod.
Qed.
(** A verdict can be told from the one before, the same or not. *)
Lemma verdict_is_new c c' v v' : 0 < c' - c < 2 ^ 30 ->
  Z.lor (u32 (Z.shiftl c 2)) (Z.land v 3) <> Z.lor (u32 (Z.shiftl c' 2)) (Z.land v' 3).
Proof.
  intros Hc. assert (forall c v, Z.lor (u32 (Z.shiftl c 2)) (Z.land v 3) / 4 = c mod 2 ^ 30) as Hd.
  { intros x y. change 3 with (2 ^ 2 - 1). rewrite mask_mod by lia. unfold u32. rewrite Z.shiftl_mul_pow2 by lia.
    change (2 ^ 32) with (2 ^ 30 * 2 ^ 2). rewrite Z.mul_mod_distr_r by lia. rewrite (lor_low 2); [|lia|by apply Z.mod_mul|by apply Z.mod_pos_bound].
    change (2 ^ 2) with 4. rewrite Z.div_add_l by lia. rewrite (Z.div_small (y mod 4)); [lia|by apply Z.mod_pos_bound]. }
  intros E. apply (f_equal (fun x => x / 4)) in E. rewrite !Hd in E. assert ((c' - c) mod 2 ^ 30 = 0) as Hz.
  { rewrite Zminus_mod, E, Z.sub_diag. done. }
  rewrite Z.mod_small in Hz; lia.
Qed.
(** Both eyes of a frame are treated alike, whatever the mark does in between. *)
Lemma latch_one_answer b b' l : (verdict b' (verdict b l).2).1 = (verdict b l).1 /\ (verdict b (reset l)).1 = b.
Proof. unfold verdict. destruct (m_latched l) eqn:E; cbn; rewrite ?E; done. Qed.
