(* ===== verification/DxbcHash.v ===== *)
(** The checksum of a shader container (ComputeHashRetail of
    src/third_party/dxbc_hash/DxilHash.cpp): an MD5 compression over 64-byte blocks
    with the container's own padding. *)
From S2P Require Import Prelude.
Open Scope Z_scope.

Module DxilHash.

Definition S11 : Z := 7.
Definition S12 : Z := 12.
Definition S13 : Z := 17.
Definition S14 : Z := 22.
Definition S21 : Z := 5.
Definition S22 : Z := 9.
Definition S23 : Z := 14.
Definition S24 : Z := 20.
Definition S31 : Z := 4.
Definition S32 : Z := 11.
Definition S33 : Z := 16.
Definition S34 : Z := 23.
Definition S41 : Z := 6.
Definition S42 : Z := 10.
Definition S43 : Z := 15.
Definition S44 : Z := 21.
Definition padding : list Z := 0x80 :: repeat 0 63.

(** ** The four step functions: the new value of the first word *)
Definition not32 (x : Z) : Z := Z.lxor x (2 ^ 32 - 1).
Definition rotl (x s : Z) : Z := Z.lor (u32 (Z.shiftl x s)) (Z.shiftr x (32 - s)).
Definition FF (a b c d x s ac : Z) : Z := u32 (rotl (u32 (a + Z.lor (Z.land b c) (Z.land (not32 b) d) + x + ac)) s + b).
Definition GG (a b c d x s ac : Z) : Z := u32 (rotl (u32 (a + Z.lor (Z.land b d) (Z.land c (not32 d)) + x + ac)) s + b).
Definition HH (a b c d x s ac : Z) : Z := u32 (rotl (u32 (a + Z.lxor (Z.lxor b c) d + x + ac)) s + b).
Definition II (a b c d x s ac : Z) : Z := u32 (rotl (u32 (a + Z.lxor c (Z.lor b (not32 d)) + x + ac)) s + b).
Definition State : Type := Z * Z * Z * Z.
(** The calls of the four rounds, in order.  Their words rotate, (a,b,c,d), (d,a,b,c),
    (c,d,a,b), (b,c,d,a), and are back in place after every four. *)
Definition calls : list ((Z -> Z -> Z -> Z -> Z -> Z -> Z -> Z) * nat * Z * Z) :=
  [(FF, 0%nat, S11, 0xd76aa478); (FF, 1%nat, S12, 0xe8c7b756); (FF, 2%nat, S13, 0x242070db); (FF, 3%nat, S14, 0xc1bdceee);
   (FF, 4%nat, S11, 0xf57c0faf); (FF, 5%nat, S12, 0x4787c62a); (FF, 6%nat, S13, 0xa8304613); (FF, 7%nat, S14, 0xfd469501);
   (FF, 8%nat, S11, 0x698098d8); (FF, 9%nat, S12, 0x8b44f7af); (FF, 10%nat, S13, 0xffff5bb1); (FF, 11%nat, S14, 0x895cd7be);
   (FF, 12%nat, S11, 0x6b901122); (FF, 13%nat, S12, 0xfd987193); (FF, 14%nat, S13, 0xa679438e); (FF, 15%nat, S14, 0x49b40821);
   (GG, 1%nat, S21, 0xf61e2562); (GG, 6%nat, S22, 0xc040b340); (GG, 11%nat, S23, 0x265e5a51); (GG, 0%nat, S24, 0xe9b6c7aa);
   (GG, 5%nat, S21, 0xd62f105d); (GG, 10%nat, S22, 0x2441453); (GG, 15%nat, S23, 0xd8a1e681); (GG, 4%nat, S24, 0xe7d3fbc8);
   (GG, 9%nat, S21, 0x21e1cde6); (GG, 14%nat, S22, 0xc33707d6); (GG, 3%nat, S23, 0xf4d50d87); (GG, 8%nat, S24, 0x455a14ed);
   (GG, 13%nat, S21, 0xa9e3e905); (GG, 2%nat, S22, 0xfcefa3f8); (GG, 7%nat, S23, 0x676f02d9); (GG, 12%nat, S24, 0x8d2a4c8a);
   (HH, 5%nat, S31, 0xfffa3942); (HH, 8%nat, S32, 0x8771f681); (HH, 11%nat, S33, 0x6d9d6122); (HH, 14%nat, S34, 0xfde5380c);
   (HH, 1%nat, S31, 0xa4beea44); (HH, 4%nat, S32, 0x4bdecfa9); (HH, 7%nat, S33, 0xf6bb4b60); (HH, 10%nat, S34, 0xbebfbc70);
   (HH, 13%nat, S31, 0x289b7ec6); (HH, 0%nat, S32, 0xeaa127fa); (HH, 3%nat, S33, 0xd4ef3085); (HH, 6%nat, S34, 0x4881d05);
   (HH, 9%nat, S31, 0xd9d4d039); (HH, 12%nat, S32, 0xe6db99e5); (HH, 15%nat, S33, 0x1fa27cf8); (HH, 2%nat, S34, 0xc4ac5665);
   (II, 0%nat, S41, 0xf4292244); (II, 7%nat, S42, 0x432aff97); (II, 14%nat, S43, 0xab9423a7); (II, 5%nat, S44, 0xfc93a039);
   (II, 12%nat, S41, 0x655b59c3); (II, 3%nat, S42, 0x8f0ccc92); (II, 10%nat, S43, 0xffeff47d); (II, 1%nat, S44, 0x85845dd1);
   (II, 8%nat, S41, 0x6fa87e4f); (II, 15%nat, S42, 0xfe2ce6e0); (II, 6%nat, S43, 0xa3014314); (II, 13%nat, S44, 0x4e0811a1);
   (II, 4%nat, S41, 0xf7537e82); (II, 11%nat, S42, 0xbd3af235); (II, 2%nat, S43, 0x2ad7d2bb); (II, 9%nat, S44, 0xeb86d391)].
Definition call (x : list Z) (s : State) (o : (Z -> Z -> Z -> Z -> Z -> Z -> Z -> Z) * nat * Z * Z) : State :=
  let '(f, k, sh, ac) := o in
  let '(a, b, c, d) := s in
  (d, f a b c d (leValue (take 4 (drop (4 * k) x))) sh ac, b, c).
Definition rounds (x : list Z) (s : State) : State :=
  let '(a, b, c, d) := fold_left (call x) calls s in
  let '(a0, b0, c0, d0) := s in
  (u32 (a0 + a), u32 (b0 + b), u32 (c0 + c), u32 (d0 + d)).

(** ** The blocks *)
Record Layout := mkLayout { byteCount : Z; padAmount : Z; bTwoRowsPadding : bool; N : Z }.
Definition layout (n : Z) : Layout :=
  let leftOver := Z.land n 0x3f in
  let two := negb (leftOver <? 56) in
  let pad := if two then 120 - leftOver else 56 - leftOver in
  mkLayout n pad two (Z.shiftr (u32 (n + (pad + 8))) 6).
Definition sizeWord (l : Layout) : list Z := leBytes 4 (u32 (Z.shiftl (byteCount l) 3)).
Definition lastWord (l : Layout) : list Z := leBytes 4 (Z.lor 1 (u32 (Z.shiftl (byteCount l) 1))).
(** The sixteen words of turn [i] as bytes, and NextEndState after it.  The branches
    that leave the local array as it is are never taken. *)
Definition block (l : Layout) (data : list Z) (i next : Z) : list Z * Z :=
  let curr := drop (Z.to_nat (64 * i)) data in
  if i =? next then
    if negb (bTwoRowsPadding l) && (i =? N l - 1) then
      (sizeWord l ++ curr ++ take (Z.to_nat (padAmount l)) padding ++ lastWord l, next)
    else if bTwoRowsPadding l then
      if i =? N l - 2 then (curr ++ take (Z.to_nat (padAmount l - 56)) padding, N l - 1)
      else if i =? N l - 1 then (sizeWord l ++ take 56 (drop (Z.to_nat (padAmount l - 56)) padding) ++ lastWord l, next)
      else ([], next)
    else ([], next)
  else (take 64 curr, next).
Definition turn (l : Layout) (data : list Z) (s : State * Z) (i : nat) : State * Z :=
  let '(st, next) := s in
  let '(x, next) := block l data (Z.of_nat i) next in
  (rounds x st, next).
Definition state0 : State := (0x67452301, 0xefcdab89, 0x98badcfe, 0x10325476).
Definition digest (s : State) : list Z := let '(a, b, c, d) := s in leBytes 4 a ++ leBytes 4 b ++ leBytes 4 c ++ leBytes 4 d.
(** Of less than 2^32 - 128 bytes. *)
Definition ComputeHashRetail (data : list Z) : list Z :=
  let l := layout (Z.of_nat (length data)) in
  let next := if bTwoRowsPadding l then N l - 2 else N l - 1 in
  digest (fold_left (turn l data) (seq 0 (Z.to_nat (N l))) (state0, next)).1.

Lemma hash_length data : length (ComputeHashRetail data) = 16%nat.
Proof. unfold ComputeHashRetail, digest. destruct (fold_left _ _ _).1 as [[[a b] c] d]. by rewrite !length_app, !length_leBytes. Qed.
(** The rounds are those of MD5: its digest of the empty text. *)
Example md5_empty : digest (rounds padding state0) =
  [0xd4; 0x1d; 0x8c; 0xd9; 0x8f; 0x00; 0xb2; 0x04; 0xe9; 0x80; 0x09; 0x98; 0xec; 0xf8; 0x42; 0x7e].
Proof. by vm_compute. Qed.

(** ** The padding, once more *)
(** The blocks a container's checksum is taken over: its own, and the padded last
    one or two, with eight times the size in front and twice the size, odd, behind. *)
Definition full (data : list Z) : list (list Z) := map (fun i => take 64 (drop (64 * i) data)) (seq 0 (length data / 64)).
Definition tail (data : list Z) : list Z := drop (64 * (length data / 64)) data.
Definition retailBlocks (data : list Z) : list (list Z) :=
  let n := Z.of_nat (length data) in
  let lo := length (tail data) in
  full data ++
  (if (lo <? 56)%nat then [leBytes 4 (8 * n) ++ tail data ++ 0x80 :: repeat 0 (55 - lo) ++ leBytes 4 (2 * n + 1)]
   else [tail data ++ 0x80 :: repeat 0 (63 - lo); leBytes 4 (8 * n) ++ repeat 0 56 ++ leBytes 4 (2 * n + 1)]).
Lemma leBytes_mod n z z' : z mod 256 ^ Z.of_nat n = z' mod 256 ^ Z.of_nat n -> leBytes n z = leBytes n z'.
Proof.
  revert z z'. induction n as [|n IH]; intros z z' H; cbn [leBytes]; [done|]. rewrite Nat2Z.inj_succ, Z.pow_succ_r in H by lia.
  rewrite !(Z.rem_mul_r _ 256) in H by lia. pose proof (Z.mod_pos_bound z 256). pose proof (Z.mod_pos_bound z' 256).
  assert (z mod 256 = z' mod 256) as E by (apply (f_equal (fun x => x mod 256)) in H; rewrite !(Z.mul_comm 256), !Z_mod_plus_full, !Z.mod_mod in H by lia; done).
  f_equal; [done|]. apply IH. lia.
Qed.
Lemma tail_length data : length (tail data) = (length data mod 64)%nat.
Proof. unfold tail. rewrite length_drop, Nat.Div0.mod_eq. lia. Qed.
Lemma blocks_length data : Forall (fun x => length x = 64%nat) (retailBlocks data).
Proof.
  unfold retailBlocks. pose proof (tail_length data) as Ht. pose proof (Nat.mod_upper_bound (length data) 64 ltac:(done)). apply Forall_app. split.
  - apply Forall_map, Forall_seq. intros i Hi. rewrite length_take, length_drop. pose proof (Nat.Div0.mul_div_le (length data) 64). lia.
  - destruct (Nat.ltb_spec (length (tail data)) 56); repeat (apply Forall_cons; split); try done;
      rewrite ?length_app; cbn [length]; rewrite ?length_app, ?length_leBytes, ?repeat_length; lia.
Qed.
Lemma turns_full l data next is_ : Forall (fun i => Z.of_nat i <> next) is_ -> forall s,
  fold_left (turn l data) is_ (s, next) = (fold_left (fun s x => rounds x s) (map (fun i => take 64 (drop (64 * i) data)) is_) s, next).
Proof.
  induction 1 as [|i is_ Hi _ IH]; intros s; cbn [fold_left map]; [done|]. unfold turn at 2, block. rewrite (proj2 (Z.eqb_neq _ _) Hi).
  replace (Z.to_nat (64 * Z.of_nat i)) with (64 * i)%nat by lia. apply IH.
Qed.
Lemma layout_spec n : 0 <= n < 2 ^ 32 - 128 -> layout n =
  if n mod 64 <? 56 then mkLayout n (56 - n mod 64) false (n / 64 + 1) else mkLayout n (120 - n mod 64) true (n / 64 + 2).
Proof.
  intros Hn. unfold layout. change 0x3f with (Z.ones 6). rewrite Z.land_ones by lia. change (2 ^ 6) with 64. pose proof (Z.mod_pos_bound n 64).
  destruct (Z.ltb_spec (n mod 64) 56); cbn [negb]; f_equal; rewrite Z.shiftr_div_pow2, u32_small by (unfold is_u32, u32_max; lia);
    change (2 ^ 6) with 64; Z.div_mod_to_equations; lia.
Qed.
Lemma sizeWord_spec n p b k : sizeWord (mkLayout n p b k) = leBytes 4 (8 * n).
Proof. apply leBytes_mod. cbn [byteCount]. unfold u32. change (256 ^ Z.of_nat 4) with (2 ^ 32). rewrite Z.mod_mod, Z.shiftl_mul_pow2 by lia. f_equal. lia. Qed.
Lemma lastWord_spec n p b k : lastWord (mkLayout n p b k) = leBytes 4 (2 * n + 1).
Proof.
  apply leBytes_mod. cbn [byteCount]. change (256 ^ Z.of_nat 4) with (2 ^ 32). unfold u32. rewrite Z.shiftl_mul_pow2 by lia.
  assert (Z.lor 1 ((n * 2 ^ 1) mod 2 ^ 32) = (n * 2 ^ 1) mod 2 ^ 32 + 1) as ->; [|Z.div_mod_to_equations; lia].
  rewrite Z.lor_comm. change (2 ^ 32) with (2 ^ 31 * 2 ^ 1). rewrite Z.mul_mod_distr_r by lia. set (k' := n mod 2 ^ 31).
  apply (lor_low 1); [done|by apply Z.mod_mul|lia].
Qed.
Lemma take_repeat {A} (x : A) m n : take m (repeat x n) = repeat x (min m n).
Proof. revert n. induction m as [|m IH]; intros [|n]; cbn; [done..|]. by rewrite IH. Qed.
Lemma drop_repeat {A} (x : A) m n : drop m (repeat x n) = repeat x (n - m).
Proof. revert n. induction m as [|m IH]; intros [|n]; cbn; [done..|]. by rewrite IH. Qed.
Lemma take_padding k : 1 <= Z.of_nat k <= 64 -> take k padding = 0x80 :: repeat 0 (k - 1).
Proof. intros Hk. destruct k as [|k]; [lia|]. unfold padding. cbn [take]. f_equal. rewrite take_repeat. f_equal. lia. Qed.
(** The checksum of a container is the MD5 compression, from its initial state,
    of the container's blocks: its own whole ones and the padded rest, in one block
    or two, each of 64 bytes. *)
Theorem hash_of_blocks data : Z.of_nat (length data) < 2 ^ 32 - 128 ->
  ComputeHashRetail data = digest (fold_left (fun s x => rounds x s) (retailBlocks data) state0) /\
  Forall (fun x => length x = 64%nat) (retailBlocks data).
Proof.
  intros Hn. split; [|apply blocks_length]. unfold ComputeHashRetail. set (n := Z.of_nat (length data)) in *. pose proof (tail_length data) as Ht. set (q := (length data / 64)%nat).
  assert (n / 64 = Z.of_nat q) as Hq by (unfold n, q; by rewrite Nat2Z.inj_div).
  assert (n mod 64 = Z.of_nat (length (tail data))) as Hm by (rewrite Ht; unfold n; by rewrite Nat2Z.inj_mod).
  assert (drop (Z.to_nat (64 * Z.of_nat q)) data = tail data) as Htail by (unfold tail; f_equal; fold q; lia).
  assert (Forall (fun i => Z.of_nat i <> Z.of_nat q) (seq 0 q)) as Hseq by (apply Forall_seq; lia).
  assert (full data = map (fun i => take 64 (drop (64 * i) data)) (seq 0 q)) as Hfull by done.
  pose proof (Z.mod_pos_bound n 64 ltac:(done)) as Hb.
  unfold retailBlocks. fold n. rewrite layout_spec, Hq, Hm by (unfold n in *; lia). rewrite fold_left_app, Hfull. f_equal.
  destruct (Z.ltb_spec (Z.of_nat (length (tail data))) 56) as [Hl|Hl].
  - rewrite (proj2 (Nat.ltb_lt _ _)) by lia. cbn [bTwoRowsPadding N]. replace (Z.of_nat q + 1 - 1) with (Z.of_nat q) by lia.
    replace (Z.to_nat (Z.of_nat q + 1)) with (q + 1)%nat by lia. rewrite seq_app, fold_left_app, turns_full by done. cbn [seq fold_left Nat.add].
    unfold turn, block. rewrite Z.eqb_refl. cbn [bTwoRowsPadding N negb andb padAmount]. replace (Z.of_nat q + 1 - 1) with (Z.of_nat q) by lia.
    rewrite Z.eqb_refl, Htail, sizeWord_spec, lastWord_spec, take_padding by lia. cbn [fst].
    by replace (Z.to_nat (56 - Z.of_nat (length (tail data))) - 1)%nat with (55 - length (tail data))%nat by lia.
  - rewrite (proj2 (Nat.ltb_ge _ _)) by lia. cbn [bTwoRowsPadding N]. replace (Z.of_nat q + 2 - 2) with (Z.of_nat q) by lia.
    replace (Z.to_nat (Z.of_nat q + 2)) with (q + 2)%nat by lia. rewrite seq_app, fold_left_app, turns_full by done. cbn [seq fold_left Nat.add].
    unfold turn, block. cbn [bTwoRowsPadding N negb andb padAmount]. replace (Z.of_nat q + 2 - 2) with (Z.of_nat q) by lia.
    rewrite Z.eqb_refl, Htail, take_padding by lia. cbv iota beta. replace (Z.of_nat (S q)) with (Z.of_nat q + 2 - 1) by lia.
    rewrite Z.eqb_refl, (proj2 (Z.eqb_neq (Z.of_nat q + 2 - 1) (Z.of_nat q))), sizeWord_spec, lastWord_spec by lia. cbn [fst].
    replace (Z.to_nat (120 - Z.of_nat (length (tail data)) - 56) - 1)%nat with (63 - length (tail data))%nat by lia.
    assert (take 56 (drop (Z.to_nat (120 - Z.of_nat (length (tail data)) - 56)) padding) = repeat 0 56) as ->; [|done].
    replace (Z.to_nat (120 - Z.of_nat (length (tail data)) - 56)) with (S (63 - length (tail data))) by lia. unfold padding. cbn [drop].
    rewrite drop_repeat, take_repeat. f_equal. lia.
Qed.
End DxilHash.
(** A text that needs the second row of padding. *)
Lemma hash_of_blocks_witness :
  DxilHash.ComputeHashRetail (repeat 7 60) = DxilHash.digest (fold_left (fun s x => DxilHash.rounds x s)
    [repeat 7 60 ++ [0x80; 0; 0; 0]; leBytes 4 480 ++ repeat 0 56 ++ leBytes 4 121] DxilHash.state0).
Proof. etransitivity; [apply (DxilHash.hash_of_blocks (repeat 7 60)); by vm_compute|by vm_compute]. Defined.
