(* ===== verification/Dxbc.v ===== *)
(** Shader bytecode containers (src/src/d3d11/dxbc_container.h): the chunks of a
    DXBC container with its checksum, the signature of a shader's inputs or
    outputs, and how long an instruction is.

    Bytes and words are integers in their range, a [std::runtime_error] is the left
    of a sum. *)
From S2P Require Import Prelude DxbcHash.
Open Scope Z_scope.

(** ** Results: a value or the message thrown *)
Definition Res (A : Type) : Type := string + A.
#[export] Instance Res_ret : MRet Res := fun A => inr.
#[export] Instance Res_bind : MBind Res := fun A B k m => match m with inl e => inl e | inr a => k a end.
Definition throw {A} (msg : string) : Res A := inl msg.
(** A loop that threads a result through a list with its index. *)
Fixpoint loop {A B} (step : nat -> A -> B -> Res B) (i : nat) (l : list A) (b : B) : Res B :=
  match l with [] => mret b | a :: l => b ← step i a b; loop step (S i) l b end.

(** ** Bytes *)

Definition size {A} (l : list A) : Z := Z.of_nat (length l).
Definition at_ (l : list Z) (i : Z) : Z := nth (Z.to_nat i) l 0.
Definition word (bytes : list Z) (offset : Z) : Res Z :=
  if (size bytes <? offset) || (size bytes - offset <? 4) then throw "bounds"
  else mret (leValue (take 4 (drop (Z.to_nat offset) bytes))).
Definition put (bytes : list Z) (value : Z) : list Z := bytes ++ leBytes 4 value.
Definition setWord (bytes : list Z) (offset value : Z) : Res (list Z) :=
  if (size bytes <? offset) || (size bytes - offset <? 4) then throw "bounds"
  else mret (take (Z.to_nat offset) bytes ++ leBytes 4 value ++ drop (Z.to_nat offset + 4) bytes).
(** while (result.size() & 3) result.push_back(0xab): at most three turns. *)
Fixpoint padTo4 (fuel : nat) (bytes : list Z) : list Z :=
  match fuel with
  | O => bytes
  | S fuel => if Z.land (size bytes) 3 =? 0 then bytes else padTo4 fuel (bytes ++ [0xab])
  end.
Definition pad (bytes : list Z) : list Z := padTo4 3 bytes.

(** ** Names: case-insensitive comparisons of the C library, in its own locale *)
Definition lowerByte (c : Z) : Z := if (65 <=? c) && (c <=? 90) then c + 32 else c.
(** The bytes before the first zero, if there is one. *)
Fixpoint cString (l : list Z) : option (list Z) :=
  match l with [] => None | c :: l => if c =? 0 then Some [] else cons c <$> cString l end.
(** std::string::c_str read as a C string. *)
Definition c_str (s : list Z) : list Z := default s (cString s).
Definition equalName (a b : list Z) : bool := bool_decide (map lowerByte (c_str a) = map lowerByte b).
Definition startsWithName (a b : list Z) : bool := bool_decide (map lowerByte (take (length b) (c_str a)) = map lowerByte b).

(** ** Instructions *)
Definition instructionLength (tokens : list Z) (at0 : Z) : Res Z :=
  if size tokens <=? at0 then throw "instruction bounds"
  else
    let token := at_ tokens at0 in
    length ← (if Z.land token 0x7ff =? 53 then
                if negb (Z.shiftr token 11 =? 3) || (size tokens <=? at0 + 1) then throw "unsupported custom data"
                else
                  let length := at_ tokens (at0 + 1) in
                  if (length <? 2) || negb ((length - 2) mod 4 =? 0) then throw "constant buffer length" else mret length
              else mret (Z.land (Z.shiftr token 24) 127));
    if (length =? 0) || (size tokens - at0 <? length) then throw "instruction length" else mret length.

(** ** Signatures *)
Record SignatureElement := mkElement {
  e_name : list Z; semanticIndex : Z; systemValue : Z; componentType : Z; registerIndex : Z; masks : Z }.
#[export] Instance eta_Element : Settable SignatureElement := fun e =>
  mkElement (e_name e) (semanticIndex e) (systemValue e) (componentType e) (registerIndex e) (masks e).
Definition parseElement (bytes : list Z) (at0 : Z) : Res SignatureElement :=
  nameOffset ← word bytes at0;
  if size bytes <=? nameOffset then throw "signature name"
  else
    match cString (drop (Z.to_nat nameOffset) bytes) with
    | None | Some [] => throw "signature name"
    | Some name =>
        a ← word bytes (at0 + 4); b ← word bytes (at0 + 8); c ← word bytes (at0 + 12); d ← word bytes (at0 + 16); e ← word bytes (at0 + 20);
        mret (mkElement name a b c d e)
    end.
Definition parseSignature (bytes : list Z) : Res (list SignatureElement) :=
  if size bytes <? 8 then throw "signature header"
  else
    four ← word bytes 4;
    if negb (four =? 8) then throw "signature header"
    else
      count ← word bytes 0;
      if (128 <? count) || (size bytes <? 8 + count * 24) then throw "signature entries"
      else loop (fun i (_ : unit) result => e ← parseElement bytes (8 + Z.of_nat i * 24); mret (result ++ [e]))
             0 (repeat tt (Z.to_nat count)) [].
Definition putElement (i : nat) (e : SignatureElement) (result : list Z) : Res (list Z) :=
  if (size (e_name e) =? 0) || (255 <? size (e_name e)) || (32 <=? registerIndex e) then throw "signature element"
  else
    let nameOffset := u32 (size result) in
    let result := pad (result ++ e_name e ++ [0]) in
    let at0 := 8 + Z.of_nat i * 24 in
    result ← setWord result at0 nameOffset;
    result ← setWord result (at0 + 4) (semanticIndex e);
    result ← setWord result (at0 + 8) (systemValue e);
    result ← setWord result (at0 + 12) (componentType e);
    result ← setWord result (at0 + 16) (registerIndex e);
    setWord result (at0 + 20) (masks e).
Definition makeSignature (elements : list SignatureElement) : Res (list Z) :=
  if (size elements =? 0) || (128 <? size elements) then throw "signature count"
  else loop putElement 0 elements (put (put [] (u32 (size elements))) 8 ++ repeat 0 (length elements * 24)).

(** ** Containers *)
Record Chunk := mkChunk { tag : Z; c_bytes : list Z }.
Definition kDxbc : list Z := [0x44; 0x58; 0x42; 0x43].
Definition isProgram (t : Z) : bool := (t =? 0x58454853) || (t =? 0x52444853).

Definition programHeaderOk (expectedProgramType : Z) (bytes : list Z) : Res bool :=
  if (size bytes <? 8) || negb (Z.land (size bytes) 3 =? 0) then mret false
  else
    a ← word bytes 0;
    if negb (a =? expectedProgramType) then mret false
    else b ← word bytes 4; mret (b =? size bytes / 4).
Definition parseChunk (input : list Z) (expectedProgramType : Z) (i : nat) (result : list Chunk * bool) : Res (list Chunk * bool) :=
  let '(chunks, program) := result in
  offset ← word input (32 + Z.of_nat i * 4);
  if (size input <? offset) || (size input - offset <? 8) then throw "chunk bounds"
  else
    t ← word input offset;
    n ← word input (offset + 4);
    if size input - offset - 8 <? n then throw "chunk bounds"
    else
      let bytes := take (Z.to_nat n) (drop (Z.to_nat offset + 8) input) in
      if isProgram t then
        ok ← (if program then mret false else programHeaderOk expectedProgramType bytes);
        if negb ok then throw "program header" else mret (chunks ++ [mkChunk t bytes], true)
      else mret (chunks ++ [mkChunk t bytes], program).
(** No data is the null pointer. *)
Definition parseContainer (data : option (list Z)) (expectedProgramType : Z) : Res (list Chunk) :=
  match data with
  | None => throw "bytecode size"
  | Some input =>
      if (size input <? 32) || (1024 * 1024 <? size input) then throw "bytecode size"
      else
        total ← word input 24; count ← word input 28;
        if negb (bool_decide (take 4 input = kDxbc)) || negb (total =? size input) || (128 <? count) then throw "container"
        else if negb (bool_decide (DxilHash.ComputeHashRetail (drop 20 input) = take 16 (drop 4 input))) then throw "input checksum"
        else if size input <? 32 + count * 4 then throw "chunk table"
        else
          r ← loop (fun i (_ : unit) => parseChunk input expectedProgramType i) 0 (repeat tt (Z.to_nat count)) ([], false);
          let '(chunks, program) := r in if negb program then throw "missing program" else mret chunks
  end.
Definition putChunk (i : nat) (c : Chunk) (result : list Z) : Res (list Z) :=
  let result := pad result in
  let offset := u32 (size result) in
  result ← setWord result (32 + Z.of_nat i * 4) offset;
  mret (put (put result (tag c)) (u32 (size (c_bytes c))) ++ c_bytes c).
Definition makeContainer (chunks : list Chunk) : Res (list Z) :=
  if (size chunks =? 0) || (128 <? size chunks) then throw "chunk count"
  else
    let result := kDxbc ++ repeat 0 (28 + length chunks * 4) in
    result ← setWord result 20 1;
    result ← setWord result 28 (u32 (size chunks));
    result ← loop putChunk 0 chunks result;
    result ← setWord result 24 (u32 (size result));
    mret (take 4 result ++ DxilHash.ComputeHashRetail (drop 20 result) ++ drop 20 result).

(** ** Reading and writing inside a concatenation *)
Lemma size_app {A} (a b : list A) : size (a ++ b) = size a + size b.
Proof. unfold size. rewrite length_app. lia. Qed.
Lemma size_nonneg {A} (a : list A) : 0 <= size a.
Proof. unfold size. lia. Qed.
Lemma size_le n z : size (leBytes n z) = Z.of_nat n.
Proof. unfold size. by rewrite length_leBytes. Qed.
Lemma size_repeat {A} (x : A) n : size (repeat x n) = Z.of_nat n.
Proof. unfold size. by rewrite repeat_length. Qed.
Lemma take_size {A} (a b : list A) n : n = length a -> take n (a ++ b) = a.
Proof. intros ->. apply take_app_length. Qed.
Lemma drop_size {A} (a b : list A) n : n = length a -> drop n (a ++ b) = b.
Proof. intros ->. apply drop_app_length. Qed.
Lemma word_at a v c off : off = size a -> 0 <= v < 2 ^ 32 -> word (a ++ leBytes 4 v ++ c) off = inr v.
Proof.
  intros -> Hv. unfold word. rewrite !size_app, size_le. pose proof (size_nonneg a). pose proof (size_nonneg c).
  rewrite (proj2 (Z.ltb_ge _ _)), (proj2 (Z.ltb_ge _ _)) by lia. cbn [orb]. unfold size at 1. rewrite Nat2Z.id, drop_app_length.
  rewrite take_size by (by rewrite length_leBytes). rewrite leValue_leBytes. change (256 ^ Z.of_nat 4) with (2 ^ 32). by rewrite Z.mod_small.
Qed.
Lemma setWord_at a b c v off : off = size a -> length b = 4%nat -> setWord (a ++ b ++ c) off v = inr (a ++ leBytes 4 v ++ c).
Proof.
  intros -> Hb. unfold setWord. rewrite !size_app. pose proof (size_nonneg a). pose proof (size_nonneg c). assert (size b = 4) by (unfold size; lia).
  rewrite (proj2 (Z.ltb_ge _ _)), (proj2 (Z.ltb_ge _ _)) by lia. cbn [orb]. unfold size. rewrite Nat2Z.id, take_app_length.
  do 2 f_equal. f_equal. rewrite app_assoc. apply drop_size. rewrite length_app. lia.
Qed.
Lemma padTo4_spec fuel r : (Z.to_nat ((- size r) mod 4) <= fuel)%nat -> padTo4 fuel r = r ++ repeat 0xab (Z.to_nat ((- size r) mod 4)).
Proof.
  revert r. induction fuel as [|fuel IH]; intros r Hf; cbn [padTo4].
  { replace (Z.to_nat _) with 0%nat by lia. by rewrite app_nil_r. }
  change 3 with (Z.ones 2). rewrite Z.land_ones by lia. change (2 ^ 2) with 4. destruct (Z.eqb_spec (size r mod 4) 0) as [E|E].
  - replace ((- size r) mod 4) with 0 by (Z.div_mod_to_equations; lia). by rewrite app_nil_r.
  - assert (size (r ++ [0xab]) = size r + 1) as Es by by rewrite size_app.
    rewrite IH, Es by (rewrite ?Es; Z.div_mod_to_equations; lia). rewrite <-app_assoc. f_equal.
    replace (Z.to_nat ((- size r) mod 4)) with (S (Z.to_nat ((- (size r + 1)) mod 4))) by (Z.div_mod_to_equations; lia). done.
Qed.
Lemma pad_spec r : pad r = r ++ repeat 0xab (Z.to_nat ((- size r) mod 4)).
Proof. apply padTo4_spec. Z.div_mod_to_equations. lia. Qed.
Lemma cString_spec name rest : Forall (fun b => b <> 0) name -> cString (name ++ 0 :: rest) = Some name.
Proof. induction 1 as [|b name Hb _ IH]; cbn; [done|]. rewrite (proj2 (Z.eqb_neq _ _) Hb), IH. done. Qed.

(** ** Signatures read back *)
Record ElementOk (e : SignatureElement) : Prop := {
  eo_name : e_name e <> []; eo_length : (length (e_name e) <= 255)%nat; eo_chars : Forall (fun b => b <> 0) (e_name e);
  eo_register : 0 <= registerIndex e < 32;
  eo_words : 0 <= semanticIndex e < 2 ^ 32 /\ 0 <= systemValue e < 2 ^ 32 /\ 0 <= componentType e < 2 ^ 32 /\ 0 <= masks e < 2 ^ 32 }.
Definition row (offset : Z) (e : SignatureElement) : list Z :=
  leBytes 4 offset ++ leBytes 4 (semanticIndex e) ++ leBytes 4 (systemValue e) ++ leBytes 4 (componentType e) ++
  leBytes 4 (registerIndex e) ++ leBytes 4 (masks e).
Definition nameBytes (e : SignatureElement) : list Z := e_name e ++ 0 :: repeat 0xab (Z.to_nat ((- (size (e_name e) + 1)) mod 4)).
Fixpoint rows (base : Z) (es : list SignatureElement) : list Z :=
  match es with [] => [] | e :: es => row base e ++ rows (base + size (nameBytes e)) es end.
Definition blob (es : list SignatureElement) : list Z := concat (map nameBytes es).
Lemma length_row off e : length (row off e) = 24%nat.
Proof. unfold row. by rewrite !length_app, !length_leBytes. Qed.
Lemma length_rows base es : length (rows base es) = (24 * length es)%nat.
Proof. revert base. induction es as [|e es IH]; intros base; cbn [rows]; [done|]. rewrite length_app, length_row, IH. cbn. lia. Qed.
Lemma size_nameBytes e : size (nameBytes e) mod 4 = 0 /\ 0 < size (nameBytes e) <= size (e_name e) + 4.
Proof.
  assert (size (nameBytes e) = size (e_name e) + 1 + Z.max 0 ((- (size (e_name e) + 1)) mod 4)) as ->.
  { unfold nameBytes. rewrite size_app. unfold size at 2. cbn [length]. rewrite repeat_length. lia. }
  pose proof (size_nonneg (e_name e)). Z.div_mod_to_equations. lia.
Qed.
Lemma split4 (z : list Z) n : length z = (4 + n)%nat -> exists b z', z = b ++ z' /\ length b = 4%nat /\ length z' = n.
Proof. intros Hz. exists (take 4 z), (drop 4 z). rewrite take_drop, length_take, length_drop. split_and!; [done|lia|lia]. Qed.
Lemma setWord_in full p b q v o : full = p ++ b ++ q -> length b = 4%nat -> o = size p -> setWord full o v = inr (p ++ leBytes 4 v ++ q).
Proof. intros -> Hb ->. by apply setWord_at. Qed.
Ltac pieces := first [done | by rewrite <-!app_assoc | rewrite ?size_app, ?size_le; lia].
(** The table's row, written word by word over [z]. *)
Lemma put_row a z c at0 off e : size a = at0 -> length z = 24%nat ->
  (result ← setWord (a ++ z ++ c) at0 off; result ← setWord result (at0 + 4) (semanticIndex e); result ← setWord result (at0 + 8) (systemValue e);
   result ← setWord result (at0 + 12) (componentType e); result ← setWord result (at0 + 16) (registerIndex e);
   setWord result (at0 + 20) (masks e)) = inr (a ++ row off e ++ c).
Proof.
  intros <- Hz. apply (split4 _ 20) in Hz as (z1 & z' & -> & H1 & Hz). apply (split4 _ 16) in Hz as (z2 & z'' & -> & H2 & Hz). apply (split4 _ 12) in Hz as (z3 & z3' & -> & H3 & Hz).
  apply (split4 _ 8) in Hz as (z4 & z4' & -> & H4 & Hz). apply (split4 _ 4) in Hz as (z5 & z6 & -> & H5 & H6).
  rewrite (setWord_in _ a z1 (z2 ++ z3 ++ z4 ++ z5 ++ z6 ++ c)) by pieces. cbn [mbind Res_bind].
  rewrite (setWord_in _ (a ++ leBytes 4 off) z2 (z3 ++ z4 ++ z5 ++ z6 ++ c)) by pieces. cbn [mbind Res_bind].
  rewrite (setWord_in _ (a ++ leBytes 4 off ++ leBytes 4 (semanticIndex e)) z3 (z4 ++ z5 ++ z6 ++ c)) by pieces. cbn [mbind Res_bind].
  rewrite (setWord_in _ (a ++ leBytes 4 off ++ leBytes 4 (semanticIndex e) ++ leBytes 4 (systemValue e)) z4 (z5 ++ z6 ++ c)) by pieces. cbn [mbind Res_bind].
  rewrite (setWord_in _ (a ++ leBytes 4 off ++ leBytes 4 (semanticIndex e) ++ leBytes 4 (systemValue e) ++ leBytes 4 (componentType e)) z5 (z6 ++ c)) by pieces. cbn [mbind Res_bind].
  rewrite (setWord_in _ (a ++ leBytes 4 off ++ leBytes 4 (semanticIndex e) ++ leBytes 4 (systemValue e) ++ leBytes 4 (componentType e) ++ leBytes 4 (registerIndex e)) z6 c) by pieces.
  unfold row. by rewrite <-!app_assoc.
Qed.
Lemma size_row off e : size (row off e) = 24.
Proof. unfold size. by rewrite length_row. Qed.
Lemma put_element i e hd R B n base : ElementOk e -> size (hd ++ R) = 8 + Z.of_nat i * 24 ->
  base = size (hd ++ R ++ repeat 0 (24 + n) ++ B) -> base mod 4 = 0 -> base < 2 ^ 32 ->
  putElement i e (hd ++ R ++ repeat 0 (24 + n) ++ B) = inr (hd ++ (R ++ row base e) ++ repeat 0 n ++ (B ++ nameBytes e)).
Proof.
  intros [O1 O2 O3 O4 O5] Hi Hbase Hmod Hmax. unfold putElement. pose proof (size_nonneg (hd ++ R ++ repeat 0 (24 + n) ++ B)).
  assert (0 < size (e_name e) <= 255) by (destruct (e_name e); [done|unfold size; cbn [length] in *; lia]).
  rewrite (proj2 (Z.eqb_neq _ _)), (proj2 (Z.ltb_ge _ _)), (proj2 (Z.leb_gt _ _)) by lia. cbn [orb].
  set (full := hd ++ R ++ repeat 0 (24 + n) ++ B) in *.
  assert (pad (full ++ e_name e ++ [0]) = (hd ++ R) ++ repeat 0 24 ++ (repeat 0 n ++ B ++ nameBytes e)) as ->.
  { rewrite pad_spec, !size_app, <-Hbase. unfold nameBytes, full. rewrite repeat_app, <-!app_assoc. do 9 f_equal.
    change (size [0]) with 1. Z.div_mod_to_equations. lia. }
  rewrite <-Hbase, (u32_small base) by (unfold is_u32, u32_max; lia).
  cbv zeta. rewrite (put_row (hd ++ R) _ _ (8 + Z.of_nat i * 24) base e) by done. by rewrite <-!app_assoc.
Qed.
Lemma size_cons {A} (x : A) l : size (x :: l) = size l + 1.
Proof. unfold size. cbn [length]. lia. Qed.
Lemma make_rows es : forall i hd R B base, size (hd ++ R) = 8 + Z.of_nat i * 24 -> Forall ElementOk es ->
  base = size (hd ++ R ++ repeat 0 (24 * length es) ++ B) -> base mod 4 = 0 -> base + 260 * size es < 2 ^ 32 ->
  loop putElement i es (hd ++ R ++ repeat 0 (24 * length es) ++ B) = inr (hd ++ R ++ rows base es ++ B ++ blob es).
Proof.
  induction es as [|e es IH]; intros i hd R B base Hi Hok Hbase Hmod Hmax; cbn [loop rows].
  { unfold blob. cbn. by rewrite app_nil_r. }
  apply Forall_cons in Hok as [O Hok]. rewrite size_cons in Hmax. pose proof (size_nonneg es). pose proof (size_nameBytes e) as (S1 & S2).
  assert (size (e_name e) <= 255) by (destruct O; unfold size; lia). pose proof (size_nonneg (hd ++ R ++ repeat 0 (24 * length (e :: es)) ++ B)).
  replace (24 * length (e :: es))%nat with (24 + 24 * length es)%nat in * by (cbn [length]; lia).
  rewrite (put_element i e hd R B _ base) by (done || lia). cbn [mbind Res_bind].
  rewrite (IH (S i) hd (R ++ row base e) (B ++ nameBytes e) (base + size (nameBytes e))); [unfold blob; cbn [map concat]; by rewrite <-!app_assoc|..]; try done.
  - rewrite app_assoc, size_app, Hi, size_row. lia.
  - rewrite Hbase, !size_app, !size_repeat, size_row. lia.
  - Z.div_mod_to_equations. lia.
  - lia.
Qed.
Lemma word_in full p v q off : full = p ++ leBytes 4 v ++ q -> off = size p -> 0 <= v < 2 ^ 32 -> word full off = inr v.
Proof. intros -> ->. by apply word_at. Qed.
Ltac rowp := first [unfold row; by rewrite ?app_nil_r, <-?app_assoc | rewrite ?size_app, ?size_le; lia | lia].
Lemma parse_element e base pre mid rest : ElementOk e -> base = size (pre ++ row base e ++ mid) -> base < 2 ^ 32 ->
  parseElement (pre ++ row base e ++ mid ++ nameBytes e ++ rest) (size pre) = inr e.
Proof.
  intros [O1 O2 O3 O4 (O5 & O6 & O7 & O8)] Hb Hmax. pose proof (size_nonneg (pre ++ row base e ++ mid)). unfold parseElement.
  assert (drop (Z.to_nat base) (pre ++ row base e ++ mid ++ nameBytes e ++ rest) = nameBytes e ++ rest) as Hd.
  { replace (pre ++ row base e ++ mid ++ nameBytes e ++ rest) with ((pre ++ row base e ++ mid) ++ nameBytes e ++ rest) by (by rewrite <-!app_assoc).
    apply drop_size. apply (f_equal Z.to_nat) in Hb. unfold size in Hb. by rewrite Nat2Z.id in Hb. }
  pose proof (size_nameBytes e). pose proof (size_nonneg rest). 
  rewrite (word_in _ pre base (leBytes 4 (semanticIndex e) ++ leBytes 4 (systemValue e) ++ leBytes 4 (componentType e) ++
    leBytes 4 (registerIndex e) ++ leBytes 4 (masks e) ++ mid ++ nameBytes e ++ rest) (size pre)); [|unfold row; by rewrite <-!app_assoc|done|split; [rewrite Hb; apply size_nonneg|exact Hmax]]. cbn [mbind Res_bind].
  rewrite (proj2 (Z.leb_gt _ _)) by (rewrite !size_app in *; lia).
  assert (cString (drop (Z.to_nat base) (pre ++ row base e ++ mid ++ nameBytes e ++ rest)) = Some (e_name e)) as ->.
  { rewrite Hd. unfold nameBytes. rewrite <-app_assoc. cbn [app]. by apply cString_spec. }
  destruct (e_name e) as [|c name] eqn:En; [done|]. rewrite <-En. clear Hd.
  assert (forall p v q off, row base e = p ++ leBytes 4 v ++ q -> off = size pre + size p -> 0 <= v < 2 ^ 32 ->
    word (pre ++ row base e ++ mid ++ nameBytes e ++ rest) off = inr v) as Hw.
  { intros p v q off Hr -> Hv. apply (word_in _ (pre ++ p) v (q ++ mid ++ nameBytes e ++ rest)); [|by rewrite size_app|done]. rewrite Hr. by rewrite <-!app_assoc. }
  rewrite (Hw (leBytes 4 base) (semanticIndex e) (leBytes 4 (systemValue e) ++ leBytes 4 (componentType e) ++ leBytes 4 (registerIndex e) ++ leBytes 4 (masks e)) (size pre + 4)) by rowp.
  cbn [mbind Res_bind].
  rewrite (Hw (leBytes 4 base ++ leBytes 4 (semanticIndex e)) (systemValue e) (leBytes 4 (componentType e) ++ leBytes 4 (registerIndex e) ++ leBytes 4 (masks e)) (size pre + 8)) by rowp.
  cbn [mbind Res_bind].
  rewrite (Hw (leBytes 4 base ++ leBytes 4 (semanticIndex e) ++ leBytes 4 (systemValue e)) (componentType e) (leBytes 4 (registerIndex e) ++ leBytes 4 (masks e)) (size pre + 12)) by rowp.
  cbn [mbind Res_bind].
  rewrite (Hw (leBytes 4 base ++ leBytes 4 (semanticIndex e) ++ leBytes 4 (systemValue e) ++ leBytes 4 (componentType e)) (registerIndex e) (leBytes 4 (masks e)) (size pre + 16)) by rowp.
  cbn [mbind Res_bind].
  rewrite (Hw (leBytes 4 base ++ leBytes 4 (semanticIndex e) ++ leBytes 4 (systemValue e) ++ leBytes 4 (componentType e) ++ leBytes 4 (registerIndex e)) (masks e) [] (size pre + 20)) by rowp.
  cbn. by destruct e.
Qed.
Lemma parse_rows es : forall i pre mid acc base, Forall ElementOk es -> size pre = 8 + Z.of_nat i * 24 ->
  base = size (pre ++ rows base es ++ mid) -> base + 260 * size es < 2 ^ 32 ->
  loop (fun i (_ : unit) result => e ← parseElement (pre ++ rows base es ++ mid ++ blob es) (8 + Z.of_nat i * 24); mret (result ++ [e])) i (repeat tt (length es)) acc =
  inr (acc ++ es).
Proof.
  induction es as [|e es IH]; intros i pre mid acc base Hok Hi Hb Hmax; cbn [loop repeat length]; [by rewrite app_nil_r|].
  apply Forall_cons in Hok as [O Hok]. rewrite size_cons in Hmax. pose proof (size_nonneg es). unfold blob. cbn [rows map concat]. fold (blob es).
  pose proof (size_nameBytes e) as (_ & S2). assert (size (e_name e) <= 255) by (destruct O; unfold size; lia).
  set (b' := base + size (nameBytes e)). set (whole := pre ++ (row base e ++ rows b' es) ++ mid ++ nameBytes e ++ blob es).
  assert (parseElement whole (8 + Z.of_nat i * 24) = inr e) as ->.
  { rewrite <-Hi. unfold whole. replace (pre ++ (row base e ++ rows b' es) ++ mid ++ nameBytes e ++ blob es)
      with (pre ++ row base e ++ (rows b' es ++ mid) ++ nameBytes e ++ blob es) by (by rewrite <-!app_assoc).
    apply parse_element; [done| |lia]. rewrite Hb at 1. cbn [rows]. by rewrite <-!app_assoc. }
  cbn [mbind Res_bind mret Res_ret].
  assert (whole = (pre ++ row base e) ++ rows b' es ++ (mid ++ nameBytes e) ++ blob es) as -> by (unfold whole; by rewrite <-!app_assoc).
  rewrite (IH (S i) (pre ++ row base e) (mid ++ nameBytes e) (acc ++ [e]) b'); [by rewrite <-app_assoc|done|..].
  - rewrite size_app, size_row. lia.
  - unfold b'. rewrite Hb at 1. cbn [rows]. fold b'. rewrite !size_app. lia.
  - unfold b'. lia.
Qed.
(** Making and parsing a signature. *)
Lemma signature_reads_back es : (1 <= length es <= 128)%nat -> Forall ElementOk es ->
  exists bytes, makeSignature es = inr bytes /\ parseSignature bytes = inr es /\ size bytes <= 8 + 284 * size es.
Proof.
  intros Hn Hok. unfold makeSignature. assert (1 <= size es <= 128) as Hs by (unfold size; lia).
  rewrite (proj2 (Z.eqb_neq _ _)), (proj2 (Z.ltb_ge _ _)) by lia. cbn [orb]. rewrite (u32_small (size es)) by (unfold is_u32, u32_max; lia).
  set (hd := put (put [] (size es)) 8). assert (hd = leBytes 4 (size es) ++ leBytes 4 8) as Eh by done.
  set (base := 8 + 24 * size es).
  replace (hd ++ repeat 0 (length es * 24)) with (hd ++ [] ++ repeat 0 (24 * length es) ++ []) by (rewrite app_nil_r, Nat.mul_comm; done).
  rewrite (make_rows es 0 hd [] [] base); [|done|done| | |]; cycle 1.
  { rewrite app_nil_r, !size_app, size_repeat. unfold base, size. cbn [length app]. change (length hd) with 8%nat. lia. }
  { unfold base. Z.div_mod_to_equations. lia. }
  { unfold base. lia. }
  cbn [app]. eexists. split; [done|].
  assert (size (rows base es) = 24 * size es) as Er by (unfold size; rewrite length_rows; lia).
  split.
  - unfold parseSignature. rewrite !size_app, Er. change (size hd) with 8. pose proof (size_nonneg (blob es)).
    rewrite (proj2 (Z.ltb_ge _ _)) by lia. rewrite Eh, <-app_assoc.
    rewrite (word_in _ (leBytes 4 (size es)) 8 (rows base es ++ blob es) 4) by (done || by rewrite size_le). cbn [mbind Res_bind Z.eqb negb].
    rewrite (word_in _ [] (size es) (leBytes 4 8 ++ rows base es ++ blob es)) by (done || lia). cbn [mbind Res_bind].
    rewrite (proj2 (Z.ltb_ge _ _)), (proj2 (Z.ltb_ge _ _)) by lia. cbn [orb]. replace (Z.to_nat (size es)) with (length es) by (unfold size; lia).
    rewrite (app_assoc (leBytes 4 (size es))). apply (parse_rows es 0 _ [] [] base); [done|done| |unfold base; lia].
    rewrite app_nil_r, !size_app, Er, !size_le. unfold base. lia.
  - rewrite !size_app, Er. change (size hd) with 8. enough (size (blob es) <= 260 * size es) by lia. clear -Hok.
    induction Hok as [|e es O _ IH]; [done|]. unfold blob. cbn [map concat]. rewrite size_app, size_cons. fold (blob es).
    pose proof (size_nameBytes e). assert (size (e_name e) <= 255) by (destruct O; unfold size; lia). lia.
Qed.

(** ** Containers read back *)
Definition padding (base : Z) : nat := Z.to_nat ((- base) mod 4).
Definition chunkBytes (base : Z) (c : Chunk) : list Z :=
  repeat 0xab (padding base) ++ leBytes 4 (tag c) ++ leBytes 4 (size (c_bytes c)) ++ c_bytes c.
Fixpoint table (base : Z) (cs : list Chunk) : list Z :=
  match cs with [] => [] | c :: cs => leBytes 4 (base + Z.of_nat (padding base)) ++ table (base + size (chunkBytes base c)) cs end.
Fixpoint body (base : Z) (cs : list Chunk) : list Z :=
  match cs with [] => [] | c :: cs => chunkBytes base c ++ body (base + size (chunkBytes base c)) cs end.
Definition ChunkOk (c : Chunk) : Prop := 0 <= tag c < 2 ^ 32.
Lemma length_table base cs : length (table base cs) = (4 * length cs)%nat.
Proof. revert base. induction cs as [|c cs IH]; intros base; cbn [table]; [done|]. rewrite length_app, length_leBytes, IH. cbn. lia. Qed.
Lemma size_table base cs : size (table base cs) = 4 * size cs.
Proof. unfold size. rewrite length_table. lia. Qed.
Lemma size_chunkBytes base c : size (chunkBytes base c) = Z.of_nat (padding base) + 8 + size (c_bytes c).
Proof. unfold chunkBytes. rewrite !size_app, size_repeat, !size_le. lia. Qed.
Lemma put_chunk i c H T n B base : size (H ++ T) = 32 + Z.of_nat i * 4 -> base = size (H ++ T ++ repeat 0 (4 + n) ++ B) ->
  base + size (chunkBytes base c) < 2 ^ 32 ->
  putChunk i c (H ++ T ++ repeat 0 (4 + n) ++ B) = inr (H ++ (T ++ leBytes 4 (base + Z.of_nat (padding base))) ++ repeat 0 n ++ (B ++ chunkBytes base c)).
Proof.
  intros Hi Hb Hmax. unfold putChunk. rewrite pad_spec, <-Hb. fold (padding base). cbv zeta. rewrite size_chunkBytes in Hmax.
  pose proof (size_nonneg (c_bytes c)). pose proof (size_nonneg (H ++ T ++ repeat 0 (4 + n) ++ B)).
  rewrite size_app, size_repeat, <-Hb. rewrite !u32_small by (unfold is_u32, u32_max; lia).
  rewrite (setWord_in _ (H ++ T) (repeat 0 4) (repeat 0 n ++ B ++ repeat 0xab (padding base))); [|rewrite repeat_app; by rewrite <-!app_assoc|done|lia].
  cbn [mbind Res_bind mret Res_ret]. unfold put, chunkBytes. by rewrite <-!app_assoc.
Qed.
Lemma make_chunks cs : forall i H T B base, size (H ++ T) = 32 + Z.of_nat i * 4 ->
  base = size (H ++ T ++ repeat 0 (4 * length cs) ++ B) -> base + size (body base cs) < 2 ^ 32 ->
  loop putChunk i cs (H ++ T ++ repeat 0 (4 * length cs) ++ B) = inr (H ++ T ++ table base cs ++ B ++ body base cs).
Proof.
  induction cs as [|c cs IH]; intros i H T B base Hi Hb Hmax; cbn [loop table body]; [cbn; by rewrite app_nil_r|].
  cbn [body] in Hmax. rewrite size_app in Hmax. pose proof (size_nonneg (body (base + size (chunkBytes base c)) cs)).
  replace (4 * length (c :: cs))%nat with (4 + 4 * length cs)%nat in * by (cbn [length]; lia).
  rewrite (put_chunk i c H T _ B base) by (done || lia). cbn [mbind Res_bind].
  rewrite (IH (S i) H _ _ (base + size (chunkBytes base c))); [by rewrite <-!app_assoc|..|lia].
  - rewrite app_assoc, size_app, Hi, size_le. lia.
  - rewrite Hb at 1. rewrite !size_app, !size_repeat, !size_le. lia.
Qed.
(** Whether the chunks from here on are right, given a program was seen. *)
Fixpoint OneProgram (expected : Z) (seen : bool) (cs : list Chunk) : Prop :=
  match cs with
  | [] => seen = true
  | c :: cs => if isProgram (tag c) then seen = false /\ programHeaderOk expected (c_bytes c) = inr true /\ OneProgram expected true cs
               else OneProgram expected seen cs
  end.
Lemma parse_chunk expected i pre mid rest c base chunks seen cs : size pre = 32 + Z.of_nat i * 4 -> ChunkOk c ->
  let input := pre ++ leBytes 4 (base + Z.of_nat (padding base)) ++ mid ++ chunkBytes base c ++ rest in
  base = size (pre ++ leBytes 4 (base + Z.of_nat (padding base)) ++ mid) -> size input < 2 ^ 32 -> OneProgram expected seen (c :: cs) ->
  parseChunk input expected i (chunks, seen) = inr (chunks ++ [c], isProgram (tag c) || seen).
Proof.
  intros Hi Hc input Hb Hmax Hone. unfold parseChunk. set (off := base + Z.of_nat (padding base)) in *.
  pose proof (size_nonneg (c_bytes c)). pose proof (size_nonneg rest). pose proof (size_nonneg (pre ++ leBytes 4 off ++ mid)).
  assert (size input = off + 8 + size (c_bytes c) + size rest) as Hs.
  { unfold input. rewrite !size_app, size_chunkBytes. rewrite !size_app in Hb. unfold off in *. lia. }
  assert (exists q, input = q ++ leBytes 4 (tag c) ++ leBytes 4 (size (c_bytes c)) ++ c_bytes c ++ rest /\ off = size q) as (q & Hq & Hoff).
  { exists (pre ++ leBytes 4 off ++ mid ++ repeat 0xab (padding base)). split; [unfold input, chunkBytes; by rewrite <-!app_assoc|].
    rewrite !size_app, size_repeat. rewrite !size_app in Hb. unfold off in *. lia. }
  rewrite (word_in _ pre off (mid ++ chunkBytes base c ++ rest) (32 + Z.of_nat i * 4)) by (done || lia). cbn [mbind Res_bind].
  rewrite (proj2 (Z.ltb_ge _ _)), (proj2 (Z.ltb_ge _ _)) by lia. cbn [orb].
  rewrite (word_in _ q (tag c) (leBytes 4 (size (c_bytes c)) ++ c_bytes c ++ rest) off) by done. cbn [mbind Res_bind].
  rewrite (word_in _ (q ++ leBytes 4 (tag c)) (size (c_bytes c)) (c_bytes c ++ rest) (off + 4)); [|rewrite Hq; by rewrite <-!app_assoc|rewrite size_app, size_le; lia|lia].
  cbn [mbind Res_bind]. rewrite (proj2 (Z.ltb_ge _ _)) by lia.
  assert (take (Z.to_nat (size (c_bytes c))) (drop (Z.to_nat off + 8) input) = c_bytes c) as ->.
  { rewrite Hq, !app_assoc, <-!(app_assoc _ (c_bytes c)). rewrite drop_size; [apply take_size; unfold size; lia|].
    rewrite !length_app, !length_leBytes. unfold size in Hoff. lia. }
  cbn [OneProgram] in Hone. assert (mkChunk (tag c) (c_bytes c) = c) as -> by (by destruct c). destruct (isProgram (tag c)); [|done].
  destruct Hone as (-> & -> & _). done.
Qed.
Lemma parse_chunks expected cs : forall i pre mid base chunks seen, size pre = 32 + Z.of_nat i * 4 -> Forall ChunkOk cs ->
  let input := pre ++ table base cs ++ mid ++ body base cs in
  base = size (pre ++ table base cs ++ mid) -> size input < 2 ^ 32 -> OneProgram expected seen cs ->
  loop (fun i (_ : unit) => parseChunk input expected i) i (repeat tt (length cs)) (chunks, seen) = inr (chunks ++ cs, true).
Proof.
  induction cs as [|c cs IH]; intros i pre mid base chunks seen Hi Hok input Hb Hmax Hone; cbn [loop repeat length].
  { cbn in Hone. by rewrite app_nil_r, Hone. }
  apply Forall_cons in Hok as [O Hok]. set (b' := base + size (chunkBytes base c)).
  assert (input = pre ++ leBytes 4 (base + Z.of_nat (padding base)) ++ (table b' cs ++ mid) ++ chunkBytes base c ++ body b' cs) as E1
    by (unfold input; cbn [table body]; by rewrite <-!app_assoc).
  assert (parseChunk input expected i (chunks, seen) = inr (chunks ++ [c], isProgram (tag c) || seen)) as ->.
  { rewrite E1. eapply parse_chunk; [done|done| |by rewrite <-E1|exact Hone]. rewrite Hb at 1. cbn [table]. by rewrite <-!app_assoc. }
  cbn [mbind Res_bind].
  assert (input = (pre ++ leBytes 4 (base + Z.of_nat (padding base))) ++ table b' cs ++ (mid ++ chunkBytes base c) ++ body b' cs) as E2
    by (rewrite E1; by rewrite <-!app_assoc).
  rewrite E2. rewrite (IH (S i) _ _ b' (chunks ++ [c])); [by rewrite <-app_assoc|..].
  - rewrite size_app, size_le. lia.
  - done.
  - unfold b'. rewrite Hb at 1. cbn [table]. fold b'. rewrite !size_app. lia.
  - by rewrite <-E2.
  - cbn [OneProgram] in Hone. destruct (isProgram (tag c)); [by destruct Hone as (-> & _ & ?)|done].
Qed.
(** The chunks around the one program. *)
Definition OnlyProgram (expected : Z) (cs : list Chunk) (p : Chunk) : Prop :=
  exists before after, cs = before ++ p :: after /\ isProgram (tag p) = true /\ programHeaderOk expected (c_bytes p) = inr true /\
    Forall (fun c => isProgram (tag c) = false) (before ++ after).
Lemma oneProgram_true expected cs : OneProgram expected true cs <-> Forall (fun c => isProgram (tag c) = false) cs.
Proof.
  induction cs as [|c cs IH]; cbn [OneProgram]; [by split|]. rewrite Forall_cons. destruct (isProgram (tag c)); [split; [by intros (? & _)|by intros (? & _)]|].
  rewrite IH. by intuition.
Qed.
Lemma oneProgram_false expected cs : OneProgram expected false cs <-> exists p, OnlyProgram expected cs p.
Proof.
  induction cs as [|c cs IH]; cbn [OneProgram].
  { split; [done|]. intros (p & before & after & H & _). by destruct before. }
  destruct (isProgram (tag c)) eqn:E.
  - rewrite oneProgram_true. split.
    + intros (_ & H & Ho). exists c, [], cs. done.
    + intros (p & [|b before] & after & Heq & Hp & Hh & Ho); simplify_eq/=; [done|]. apply Forall_cons in Ho as [? _]. congruence.
  - rewrite IH. split; intros (p & H).
    + destruct H as (before & after & -> & Hp & Hh & Ho). exists p, (c :: before), after. split_and!; try done. by constructor.
    + destruct H as ([|b before] & after & Heq & Hp & Hh & Ho); simplify_eq/=; [congruence|]. exists p, before, after.
      apply Forall_cons in Ho as [_ Ho]. done.
Qed.
Lemma body_size base cs : 4 * size cs + size (body base cs) <= Z.of_nat (sum_list_with (fun c => 15 + length (c_bytes c))%nat cs).
Proof.
  revert base. induction cs as [|c cs IH]; intros base; cbn [body sum_list_with]; [done|]. rewrite size_app, size_cons, size_chunkBytes.
  specialize (IH (base + size (chunkBytes base c))). rewrite size_chunkBytes in IH. assert (Z.of_nat (padding base) <= 3) by (unfold padding; Z.div_mod_to_equations; lia).
  unfold size in *. lia.
Qed.

(** What [makeContainer] lays out. *)
Definition header (total count : Z) : list Z := leBytes 4 1 ++ leBytes 4 total ++ leBytes 4 count.
Lemma make_layout cs : (1 <= length cs <= 128)%nat ->
  Z.of_nat (sum_list_with (fun c => 15 + length (c_bytes c))%nat cs) < 2 ^ 32 - 32 ->
  let base := 32 + 4 * size cs in
  let tail := header (base + size (body base cs)) (size cs) ++ table base cs ++ body base cs in
  makeContainer cs = inr (kDxbc ++ DxilHash.ComputeHashRetail tail ++ tail).
Proof.
  intros Hn Hsum base tail. pose proof (body_size base cs) as Hbody. assert (1 <= size cs <= 128) as Hs by (unfold size; lia).
  pose proof (size_nonneg (body base cs)) as Hb0. unfold makeContainer. rewrite (proj2 (Z.eqb_neq _ _)), (proj2 (Z.ltb_ge _ _)) by lia. cbn [orb].
  rewrite (setWord_in _ (kDxbc ++ repeat 0 16) (repeat 0 4) (repeat 0 8 ++ repeat 0 (4 * length cs)) 1 20)
    by (done || (rewrite repeat_app, <-!app_assoc, Nat.mul_comm; done)). cbn [mbind Res_bind].
  rewrite (u32_small (size cs)) by (unfold is_u32, u32_max; lia).
  rewrite (setWord_in _ (kDxbc ++ repeat 0 16 ++ leBytes 4 1 ++ repeat 0 4) (repeat 0 4) (repeat 0 (4 * length cs)) (size cs) 28) by done.
  cbn [mbind Res_bind].
  set (hd := kDxbc ++ repeat 0 16 ++ leBytes 4 1 ++ repeat 0 4 ++ leBytes 4 (size cs)).
  replace ((kDxbc ++ repeat 0 16 ++ leBytes 4 1 ++ repeat 0 4) ++ leBytes 4 (size cs) ++ repeat 0 (4 * length cs))
    with (hd ++ [] ++ repeat 0 (4 * length cs) ++ []) by (unfold hd; rewrite app_nil_r, <-!app_assoc; done).
  assert (size hd = 32) as EH by (unfold hd; rewrite !size_app, !size_le; done).
  rewrite (make_chunks cs 0 hd [] [] base); [|by rewrite app_nil_r|..|unfold base in *; lia]; cycle 1.
  { rewrite app_nil_r. cbn [app]. rewrite size_app, EH, size_repeat. unfold base, size. lia. }
  cbn [app mbind Res_bind]. set (rest := table base cs ++ body base cs).
  assert (size (hd ++ rest) = base + size (body base cs)) as -> by (unfold rest; rewrite !size_app, EH, size_table; unfold base; lia).
  rewrite u32_small by (unfold is_u32, u32_max, base in *; lia).
  rewrite (setWord_in _ (kDxbc ++ repeat 0 16 ++ leBytes 4 1) (repeat 0 4) (leBytes 4 (size cs) ++ rest) _ 24)
    by (done || (unfold hd; rewrite <-!app_assoc; done)). cbn [mbind Res_bind mret Res_ret].
  replace ((kDxbc ++ repeat 0 16 ++ leBytes 4 1) ++ leBytes 4 (base + size (body base cs)) ++ leBytes 4 (size cs) ++ rest)
    with (kDxbc ++ repeat 0 16 ++ tail) by (unfold tail, header, rest; by rewrite <-!app_assoc).
  change (drop 20 (kDxbc ++ repeat 0 16 ++ tail)) with tail. change (take 4 (kDxbc ++ repeat 0 16 ++ tail)) with kDxbc.
  done.
Qed.
(** Making and parsing a container. *)
Lemma container_reads_back expected cs p : (length cs <= 128)%nat -> Forall ChunkOk cs -> OnlyProgram expected cs p ->
  Z.of_nat (sum_list_with (fun c => 15 + length (c_bytes c))%nat cs) < 2 ^ 32 - 32 ->
  exists bytes, makeContainer cs = inr bytes /\ (size bytes <= 1024 * 1024 -> parseContainer (Some bytes) expected = inr cs).
Proof.
  intros Hn Hok Hp Hsum. assert (1 <= length cs)%nat as Hn1.
  { destruct Hp as (before & after & -> & _). rewrite length_app. cbn. lia. }
  eexists. split; [by apply make_layout|]. set (base := 32 + 4 * size cs). set (total := base + size (body base cs)).
  set (rest := table base cs ++ body base cs). set (tail := header total (size cs) ++ rest). set (input := kDxbc ++ DxilHash.ComputeHashRetail tail ++ tail).
  pose proof (body_size base cs) as Hbody. assert (1 <= size cs <= 128) as Hs by (unfold size; lia). pose proof (size_nonneg (body base cs)).
  assert (forall t, size (DxilHash.ComputeHashRetail t) = 16) as Hh by (intros; unfold size; by rewrite DxilHash.hash_length).
  assert (size input = total) as Hi.
  { unfold input, tail, header, rest. rewrite !size_app, !size_le, Hh, size_table. change (size kDxbc) with 4. unfold total, base. lia. }
  rewrite Hi. intros Hmib. unfold parseContainer. rewrite Hi. rewrite (proj2 (Z.ltb_ge _ _)), (proj2 (Z.ltb_ge _ _)) by (unfold total, base in *; lia). cbn [orb].
  rewrite (word_in _ (kDxbc ++ DxilHash.ComputeHashRetail tail ++ leBytes 4 1) total (leBytes 4 (size cs) ++ rest) 24);
    [|unfold input, tail, header; by rewrite <-!app_assoc|rewrite !size_app, size_le, Hh; done|unfold total, base in *; lia]. cbn [mbind Res_bind].
  rewrite (word_in _ (kDxbc ++ DxilHash.ComputeHashRetail tail ++ leBytes 4 1 ++ leBytes 4 total) (size cs) rest 28);
    [|unfold input, tail, header; by rewrite <-!app_assoc|rewrite !size_app, !size_le, Hh; done|lia]. cbn [mbind Res_bind].
  assert (take 4 input = kDxbc) as -> by done. rewrite bool_decide_true by done. rewrite Z.eqb_refl, (proj2 (Z.ltb_ge _ _)) by lia. cbn [negb orb].
  assert (drop 4 input = DxilHash.ComputeHashRetail tail ++ tail) as -> by done.
  assert (drop 20 input = tail) as -> by (unfold input; rewrite app_assoc; apply drop_size; rewrite length_app, DxilHash.hash_length; done).
  rewrite take_size by (by rewrite DxilHash.hash_length). rewrite bool_decide_true by done. cbn [negb].
  rewrite (proj2 (Z.ltb_ge _ _)) by (unfold total, base in *; lia).
  replace (Z.to_nat (size cs)) with (length cs) by (unfold size; lia).
  assert (input = (kDxbc ++ DxilHash.ComputeHashRetail tail ++ header total (size cs)) ++ table base cs ++ [] ++ body base cs) as Ei
    by (unfold input; unfold tail at 2; unfold rest; by rewrite <-!app_assoc).
  assert (size (kDxbc ++ DxilHash.ComputeHashRetail tail ++ header total (size cs)) = 32) as Epre by (unfold header; rewrite !size_app, !size_le, Hh; done).
  assert (OneProgram expected false cs) as Hone by (apply oneProgram_false; by exists p).
  pose proof (parse_chunks expected cs 0 (kDxbc ++ DxilHash.ComputeHashRetail tail ++ header total (size cs)) [] base [] false Epre Hok) as Hloop.
  cbv zeta in Hloop. rewrite <-Ei in Hloop. rewrite Hloop; [done| |rewrite Hi; unfold total, base in *; lia|done].
  rewrite app_nil_r, size_app, Epre, size_table. unfold base. lia.
Qed.

(** ** What was accepted *)
Lemma loop_ind {A B} (step : nat -> A -> B -> Res B) (P : nat -> B -> Prop) l : forall i b b', P i b ->
  (forall j a x y, l !! (j - i)%nat = Some a -> (i <= j)%nat -> P j x -> step j a x = inr y -> P (S j) y) ->
  loop step i l b = inr b' -> P (i + length l)%nat b'.
Proof.
  induction l as [|a l IH]; intros i b b' Hb Hs Hl; cbn [loop length] in *; [injection Hl as <-; by rewrite Nat.add_0_r|].
  destruct (step i a b) as [?|y] eqn:E; cbn in Hl; [done|]. rewrite <-Nat.add_succ_comm.
  apply (IH (S i) y b'); [|intros j a' x z Hj Hij Hx Hz|done].
  - apply (Hs i a b y); [by rewrite Nat.sub_diag|done|done|done].
  - apply (Hs j a' x z); [|lia|done|done]. by replace (j - i)%nat with (S (j - S i)) by lia.
Qed.
(** The chunk at a place of the table, which the input holds whole. *)
Definition chunkAt (input : list Z) (i : nat) (c : Chunk) : Prop :=
  exists offset, word input (32 + Z.of_nat i * 4) = inr offset /\ word input offset = inr (tag c) /\ word input (offset + 4) = inr (size (c_bytes c)) /\
    offset + 8 + size (c_bytes c) <= size input /\ c_bytes c = take (length (c_bytes c)) (drop (Z.to_nat offset + 8) input).
Lemma leValue_bound l : 0 <= leValue l < 256 ^ size l.
Proof.
  induction l as [|b l IH]; [done|]. cbn [leValue]. rewrite size_cons, Z.pow_add_r by (pose proof (size_nonneg l); lia).
  change (256 ^ 1) with 256. pose proof (Z.mod_pos_bound b 256). lia.
Qed.
Lemma word_range bytes off v : word bytes off = inr v -> 0 <= v < 2 ^ 32.
Proof.
  unfold word. intros H. destruct (_ || _) eqn:E; [done|]. unfold mret, Res_ret in H. injection H as <-.
  pose proof (leValue_bound (take 4 (drop (Z.to_nat off) bytes))) as Hv.
  enough (size (take 4 (drop (Z.to_nat off) bytes)) <= 4) as Hs.
  { destruct Hv as [H0 H1]. split; [done|]. eapply Z.lt_le_trans; [exact H1|]. change (2 ^ 32) with (256 ^ 4). by apply Z.pow_le_mono_r. }
  unfold size. rewrite length_take. lia.
Qed.
(** What the loop over the table has established. *)
Record Parsed (input : list Z) (expected : Z) (n : nat) (cs : list Chunk) (program : bool) : Prop := {
  pd_count : length cs = n;
  pd_at : forall i c, cs !! i = Some c -> chunkAt input i c;
  pd_program : if program then exists p, OnlyProgram expected cs p else Forall (fun c => isProgram (tag c) = false) cs }.
Lemma parseChunk_sound input expected j cs program r : Parsed input expected j cs program ->
  parseChunk input expected j (cs, program) = inr r -> Parsed input expected (S j) r.1 r.2.
Proof.
  intros [Hn Hat Hp] H. unfold parseChunk in H. destruct (word input (32 + Z.of_nat j * 4)) as [|off] eqn:E0; [done|]. cbn in H.
  pose proof (word_range _ _ _ E0) as Hoff. destruct (_ || _) eqn:E1; [done|]. apply orb_false_iff in E1 as (_ & E1). apply Z.ltb_ge in E1.
  destruct (word input off) as [|t] eqn:E2; [done|]. cbn in H. destruct (word input (off + 4)) as [|n] eqn:E3; [done|]. cbn in H.
  pose proof (word_range _ _ _ E3) as Hnn. destruct (Z.ltb_spec (size input - off - 8) n) as [|Hin]; [done|].
  set (bytes := take (Z.to_nat n) (drop (Z.to_nat off + 8) input)) in *.
  assert (length bytes = Z.to_nat n) as Hl by (unfold bytes; rewrite length_take, length_drop; unfold size in *; lia).
  assert (chunkAt input j (mkChunk t bytes)) as Hc.
  { exists off. cbn [tag c_bytes]. assert (size bytes = n) as -> by (unfold size; lia). split_and!; [done|done|done|lia|by rewrite Hl]. }
  assert (forall i c, (cs ++ [mkChunk t bytes]) !! i = Some c -> chunkAt input i c) as Hat'.
  { intros i c Hi. apply lookup_app_Some in Hi as [Hi|(Hge & Hi)]; [by apply Hat|].
    rewrite Hn in *. destruct (i - j)%nat eqn:Ei; [|done]. cbn in Hi. injection Hi as <-. by replace i with j by lia. }
  assert (length (cs ++ [mkChunk t bytes]) = S j) as Hn' by (rewrite length_app; cbn; lia).
  destruct (isProgram t) eqn:Et.
  - destruct program; [done|]. destruct (programHeaderOk expected bytes) as [|[]] eqn:Eh; cbn in H; try done. unfold mret, Res_ret in H. injection H as <-.
    split; [done|done|]. cbn. exists (mkChunk t bytes), cs, []. rewrite app_nil_r. done.
  - unfold mret, Res_ret in H. injection H as <-. split; [done|done|]. cbn [snd fst]. destruct program.
    + destruct Hp as (p & before & after & -> & Hp & Hh & Ho). exists p, before, (after ++ [mkChunk t bytes]). rewrite <-app_assoc. split_and!; try done.
      rewrite app_assoc. apply Forall_app. split; [done|]. by constructor.
    + apply Forall_app. split; [done|]. by constructor.
Qed.
Lemma parseContainer_sound data expected cs : parseContainer data expected = inr cs ->
  exists input p, data = Some input /\ 32 <= size input <= 1024 * 1024 /\ DxilHash.ComputeHashRetail (drop 20 input) = take 16 (drop 4 input) /\
    word input 24 = inr (size input) /\ word input 28 = inr (size cs) /\ (length cs <= 128)%nat /\
    OnlyProgram expected cs p /\ (forall i c, cs !! i = Some c -> chunkAt input i c).
Proof.
  intros H. unfold parseContainer in H. destruct data as [input|]; [|done].
  destruct (_ || _) eqn:E0; [done|]. apply orb_false_iff in E0 as (E0 & E0'). apply Z.ltb_ge in E0, E0'.
  destruct (word input 24) as [|total] eqn:E1; [done|]. cbn in H. destruct (word input 28) as [|count] eqn:E2; [done|]. cbn in H.
  destruct (_ || _) eqn:E3; [done|]. apply orb_false_iff in E3 as (E3 & Ecount). apply orb_false_iff in E3 as (_ & Etotal). apply Z.ltb_ge in Ecount.
  apply negb_false_iff, Z.eqb_eq in Etotal as ->. destruct (bool_decide_reflect (DxilHash.ComputeHashRetail (drop 20 input) = take 16 (drop 4 input))) as [Eh|]; [cbn in H|done].
  destruct (_ <? _); [done|]. destruct (loop _ _ _ _) as [|[cs' program]] eqn:El; cbn in H; [done|]. destruct program; [|done]. unfold mret, Res_ret in H. injection H as ->.
  pose proof (word_range _ _ _ E2) as Hc.
  apply (loop_ind _ (fun j r => Parsed input expected j r.1 r.2)) in El as [Hn Hat (p & Hp)].
  - rewrite repeat_length in Hn. exists input, p. cbn in *. split_and!; try done. assert (size cs = count) as -> by (unfold size; lia). done. lia.
  - split; [done| |]; cbn; [|by constructor]. intros i c. by rewrite lookup_nil.
  - intros j a [cs' program] y _ _ Hx Hy. eapply parseChunk_sound; eauto.
Qed.
(** A length that is accepted stays inside the program. *)
Lemma instructionLength_bounds tokens at0 n : 0 <= at0 -> instructionLength tokens at0 = inr n ->
  1 <= n /\ at0 + n <= size tokens.
Proof.
  intros Hat H. unfold instructionLength in H. destruct (Z.leb_spec (size tokens) at0) as [|Hs]; [done|].
  destruct (Z.eqb_spec (Z.land (at_ tokens at0) 0x7ff) 53) as [Ec|Ec].
  - destruct (_ || _); cbn in H; [done|]. destruct (Z.ltb_spec (at_ tokens (at0 + 1)) 2) as [|H2]; cbn in H; [done|]. destruct (_ =? _) eqn:E4; cbn in H; [|done].
    destruct (_ || _) eqn:E5; [done|]. apply orb_false_iff in E5 as (_ & E5). apply Z.ltb_ge in E5. unfold mret, Res_ret in H. injection H as <-. lia.
  - cbn in H. destruct (_ || _) eqn:E5; [done|]. apply orb_false_iff in E5 as (E4 & E5). apply Z.ltb_ge in E5. apply Z.eqb_neq in E4.
    unfold mret, Res_ret in H. injection H as <-. change 127 with (Z.ones 7) in *. rewrite Z.land_ones in * by lia. pose proof (Z.mod_pos_bound (Z.shiftr (at_ tokens at0) 24) (2 ^ 7)). lia.
Qed.

(** ** What a parsed signature holds *)
Lemma cString_nonzero l s : cString l = Some s -> Forall (fun b => b <> 0) s.
Proof.
  revert s. induction l as [|b l IH]; intros s H; cbn [cString] in H; [done|]. destruct (Z.eqb_spec b 0) as [|Hb]; [by simplify_eq|].
  destruct (cString l) as [s'|]; cbn in H; [|done]. simplify_eq. constructor; [done|by apply IH].
Qed.
(** An element whose name is a C string and whose fields are words. *)
Record ElementParsed (e : SignatureElement) : Prop := {
  ep_name : e_name e <> []; ep_chars : Forall (fun b => b <> 0) (e_name e); ep_register : 0 <= registerIndex e < 2 ^ 32;
  ep_words : 0 <= semanticIndex e < 2 ^ 32 /\ 0 <= systemValue e < 2 ^ 32 /\ 0 <= componentType e < 2 ^ 32 /\ 0 <= masks e < 2 ^ 32 }.
Lemma parseElement_sound bytes at0 e : parseElement bytes at0 = inr e -> ElementParsed e.
Proof.
  intros H. unfold parseElement in H. destruct (word bytes at0) as [|off] eqn:E0; [done|]. cbn in H. destruct (_ <=? _); [done|].
  destruct (cString _) as [[|c name]|] eqn:Es; [done| |done]. apply cString_nonzero in Es.
  destruct (word bytes (at0 + 4)) as [|a1] eqn:E1; [done|]. cbn in H. destruct (word bytes (at0 + 8)) as [|a2] eqn:E2; [done|]. cbn in H.
  destruct (word bytes (at0 + 12)) as [|a3] eqn:E3; [done|]. cbn in H. destruct (word bytes (at0 + 16)) as [|a4] eqn:E4; [done|]. cbn in H.
  destruct (word bytes (at0 + 20)) as [|a5] eqn:E5; [done|]. cbn in H. unfold mret, Res_ret in H. simplify_eq.
  apply word_range in E1, E2, E3, E4, E5. split; cbn; [done|done|lia|done].
Qed.
Lemma parseSignature_sound bytes es : parseSignature bytes = inr es -> Forall ElementParsed es /\ (length es <= 128)%nat.
Proof.
  intros H. unfold parseSignature in H. destruct (_ <? 8); [done|]. destruct (word bytes 4) as [|four]; [done|]. cbn in H. destruct (negb _); [done|].
  destruct (word bytes 0) as [|count] eqn:Ec; [done|]. cbn in H. destruct (_ || _) eqn:E; [done|]. apply orb_false_iff in E as (E & _). apply Z.ltb_ge in E.
  apply word_range in Ec. apply (loop_ind _ (fun j es => Forall ElementParsed es /\ length es = j)) in H as (A & B); [|by split|].
  - split; [done|]. rewrite B, repeat_length. lia.
  - intros j a x y _ _ (Hx & Hj) Hy. destruct (parseElement _ _) as [|e] eqn:Ee; [done|]. cbn in Hy. unfold mret, Res_ret in Hy. simplify_eq.
    apply parseElement_sound in Ee. split; [by apply Forall_app; split; [|constructor]|]. rewrite length_app. cbn. lia.
Qed.
Lemma putElement_checks i e b b' : putElement i e b = inr b' -> size (e_name e) <= 255 /\ registerIndex e < 32.
Proof.
  unfold putElement. intros H. destruct (_ || _ || _) eqn:E; [done|]. apply orb_false_iff in E as (E & E2). apply orb_false_iff in E as (_ & E1). lia.
Qed.
(** A signature that is made reads back as the elements it was made of. *)
Lemma made_reads_back es bytes : Forall ElementParsed es -> makeSignature es = inr bytes ->
  parseSignature bytes = inr es /\ size bytes <= 8 + 284 * 128.
Proof.
  intros Hp H. assert (1 <= length es <= 128)%nat as Hn.
  { unfold makeSignature in H. destruct (_ || _) eqn:E; [done|]. apply orb_false_iff in E as (E1 & E2). unfold size in *. lia. }
  assert (Forall ElementOk es) as Hok.
  { unfold makeSignature in H. destruct (_ || _); [done|]. apply (loop_ind _ (fun j _ => Forall ElementOk (take j es))) in H; [|done|].
    - rewrite take_ge in H by lia. done.
    - intros j e x y He Hj Hx Hy. rewrite Nat.sub_0_r in He. rewrite (take_S_r _ _ _ He). apply Forall_app. split; [done|]. constructor; [|done].
      apply putElement_checks in Hy as (Hl & Hr). rewrite Forall_forall in Hp. destruct (Hp e ltac:(by eapply list_elem_of_lookup_2)).
      split; [done|unfold size in Hl; lia|done|lia|done]. }
  destruct (signature_reads_back es Hn Hok) as (b & Hb & Hr & Hs). rewrite H in Hb. simplify_eq. split; [done|]. unfold size in *. lia.
Qed.

(** ** Property *)
(** C36. A container made of chunks with exactly one program, whose header is right,
    reads back as those chunks while it is within the limit that [parseContainer]
    sets, each lying whole inside it behind its entry in the table. *)
Theorem container_roundtrip expected cs p : (length cs <= 128)%nat -> Forall ChunkOk cs -> OnlyProgram expected cs p ->
  Z.of_nat (sum_list_with (fun c => 15 + length (c_bytes c))%nat cs) < 2 ^ 32 - 32 ->
  exists bytes, makeContainer cs = inr bytes /\
    (size bytes <= 1024 * 1024 -> parseContainer (Some bytes) expected = inr cs /\ forall i c, cs !! i = Some c -> chunkAt bytes i c).
Proof.
  intros Hn Hok Hp Hsum. destruct (container_reads_back expected cs p Hn Hok Hp Hsum) as (bytes & Hm & Hr). exists bytes. split; [done|]. intros Hs.
  specialize (Hr Hs). split; [done|]. apply parseContainer_sound in Hr as (input & q & Hi & _ & _ & _ & _ & _ & _ & Hat). by injection Hi as ->.
Qed.
(** Two chunks, the second a program of two words. *)
Definition demoChunks : list Chunk := [mkChunk 7 [1; 2; 3]; mkChunk 0x58454853 (leBytes 4 80 ++ leBytes 4 2)].
Lemma container_roundtrip_witness :
  exists bytes, makeContainer demoChunks = inr bytes /\
    (size bytes <= 1024 * 1024 -> parseContainer (Some bytes) 80 = inr demoChunks /\ forall i c, demoChunks !! i = Some c -> chunkAt bytes i c).
Proof.
  apply (container_roundtrip 80 demoChunks (mkChunk 0x58454853 (leBytes 4 80 ++ leBytes 4 2))); [cbn; lia|repeat constructor; by vm_compute| |by vm_compute].
  exists [mkChunk 7 [1; 2; 3]], []. split_and!; [done|by vm_compute|by vm_compute|by repeat constructor].
Defined.
