(* ===== verification/EngineVelocity.v ===== *)
(** The shader patches of the engine-record velocity
    (src/src/d3d11/dxbc_engine_velocity.h): which registers carry a record's slot
    and the position, the vertex patch that exports the slot, and the pixel patch
    that writes slot and depth to target 6.

    A program is its words; a loop over its instructions is [scan], which advances
    by [instructionLength].  A step that throws declines the whole patch. *)
From S2P Require Import Prelude Dxbc.
From Stdlib Require Import Sorting.Sorted.
Open Scope Z_scope.

(** ** Constants *)
Definition kEngineVelocityTarget : Z := 6.
Definition kEngineVelocitySlotMask : Z := 0x007fffff.
Definition chars (s : string) : list Z := map (fun c => Z.of_nat (Ascii.nat_of_ascii c)) (String.list_ascii_of_string s).
Definition kEngineVelocitySlotSemantic : list Z := chars "EDVRPOOLSLOT".
Definition none : Z := 2 ^ 32 - 1.
Definition kTagIsgn : Z := 0x4e475349.
Definition kTagOsgn : Z := 0x4e47534f.
Definition kVs50 : Z := 0x00010050.
Definition kPs50 : Z := 0x00000050.
Definition kOpRet : Z := 62.
Definition kOpRetc : Z := 63.
Definition kOpDclInput : Z := 95.
Definition kOpDclInputPs : Z := 98.
Definition kOpDclInputPsSiv : Z := 100.
Definition kOpDclOutput : Z := 101.
Definition kOpDclOutputSiv : Z := 103.
Definition kOpDclTemps : Z := 104.
Definition kOpDclResourceStructured : Z := 162.
Definition kOpLdStructured : Z := 167.

Record EngineVelocityInputs := mkInputs { identityRegister : Z; identityComponent : Z; positionRegister : Z; slotFromVsPatch : bool }.
#[export] Instance eta_Inputs : Settable EngineVelocityInputs := fun i =>
  mkInputs (identityRegister i) (identityComponent i) (positionRegister i) (slotFromVsPatch i).
Definition noInputs : EngineVelocityInputs := mkInputs none none none false.

(** ** Words of a program *)
Definition operandType (token : Z) : Z := Z.land (Z.shiftr token 12) 255.
Definition operandMask (token : Z) : Z := Z.land (Z.shiftr token 4) 15.
Definition opcodeOf (token : Z) : Z := Z.land token 0x7ff.
Definition programWords (bytes : list Z) : list Z :=
  map (fun i => leValue (take 4 (drop (4 * i) bytes))) (seq 0 (length bytes / 4)).
(** Its callers hold at least two words. *)
Definition programBytes (words : list Z) : list Z := concat (map (leBytes 4) (<[1%nat := u32 (size words)]> words)).
Definition declineUnsupported (opcode : Z) : Res unit :=
  if (156 <=? opcode) && (opcode <=? 160) then throw "UAV or thread-group declaration"
  else if (opcode =? 120) || ((144 <=? opcode) && (opcode <=? 146)) then throw "dynamic linkage"
  else if opcode =? kOpRetc then throw "conditional return"
  else mret tt.
(** for (size_t at = 2; at < t.size();) { ... at += length; }: every turn advances, so
    as much fuel as there are words is enough. *)
Fixpoint scan {A} (tokens : A -> list Z) (step : Z -> Z -> A -> Res A) (fuel : nat) (at0 : Z) (s : A) : Res A :=
  match fuel with
  | O => mret s
  | S fuel =>
      if at0 <? size (tokens s) then
        length ← instructionLength (tokens s) at0;
        s ← step at0 length s;
        scan tokens step fuel (at0 + length) s
      else mret s
  end.
Definition isOutputDcl (opcode : Z) : bool := (kOpDclOutput <=? opcode) && (opcode <=? kOpDclOutputSiv).

(** ** Does the program index the pool? *)
(** The operands of one ld_structured, i from at+1 while i+1 < at+length. *)
Definition poolOperands (t : list Z) (at0 length : Z) : bool * bool :=
  fold_left (fun '(v0x, pool) k =>
    let i := at0 + 1 + Z.of_nat k in
    (v0x || ((at_ t i =? 0x0010100A) && (at_ t (i + 1) =? 0)),
     pool || (negb (Z.land (at_ t i) 0x00100000 =? 0) && (operandType (at_ t i) =? 7) && (at_ t (i + 1) =? 33))))
    (seq 0 (Z.to_nat (length - 2))) (false, false).
Definition poolStep (t : list Z) (at0 length : Z) (s : bool * bool) : Res (bool * bool) :=
  let '(declared, indexed) := s in
  let opcode := opcodeOf (at_ t at0) in
  let declared := declared || ((opcode =? kOpDclResourceStructured) && (length =? 4) && (operandType (at_ t (at0 + 1)) =? 7) &&
                               (at_ t (at0 + 2) =? 33) && (at_ t (at0 + 3) =? 336)) in
  let indexed := if opcode =? kOpLdStructured then let '(v0x, pool) := poolOperands t at0 length in indexed || (v0x && pool) else indexed in
  mret (declared, indexed).
Definition readsPoolAtV0x (t : list Z) : Res bool :=
  s ← scan (fun _ => t) (poolStep t) (length t) 2 (false, false);
  let '(declared, indexed) := s in mret (declared && indexed).

(** ** Elements by register: a stable sort *)
Fixpoint insertByRegister (e : SignatureElement) (l : list SignatureElement) : list SignatureElement :=
  match l with
  | [] => [e]
  | x :: l' => if registerIndex e <? registerIndex x then e :: l else x :: insertByRegister e l'
  end.
Definition sortByRegister (elements : list SignatureElement) : list SignatureElement :=
  fold_left (fun sorted e => insertByRegister e sorted) elements [].

(** ** The vertex program *)
Record VsScan := mkVsScan { lastOutputEnd : Z; v0x : bool; rets : bool }.
Definition vsScanStep (t : list Z) (slotRegister at0 length : Z) (s : VsScan) : Res VsScan :=
  let opcode := opcodeOf (at_ t at0) in
  _ ← declineUnsupported opcode;
  last ← (if isOutputDcl opcode then
            if (3 <=? length) && (operandType (at_ t (at0 + 1)) =? 2) && (at_ t (at0 + 2) =? slotRegister)
            then throw "slot output register occupied" else mret (at0 + length)
          else mret (lastOutputEnd s));
  let declares := (opcode =? kOpDclInput) && (length =? 3) && (operandType (at_ t (at0 + 1)) =? 1) && (at_ t (at0 + 2) =? 0) &&
                  negb (Z.land (operandMask (at_ t (at0 + 1))) 1 =? 0) in
  mret (mkVsScan last (v0x s || declares) (rets s || (opcode =? kOpRet))).
(** dcl_output oS.x and mov oS.x, v0.x *)
Definition vsDecl (slotRegister : Z) : list Z := [0x03000065; 0x00102012; slotRegister].
Definition vsMove (slotRegister : Z) : list Z := [0x05000036; 0x00102012; slotRegister; 0x0010100A; 0].
Definition slice (t : list Z) (at0 length : Z) : list Z := take (Z.to_nat length) (drop (Z.to_nat at0) t).
Definition vsWriteStep (t : list Z) (slotRegister lastEnd at0 length : Z) (out : list Z) : Res (list Z) :=
  let out := if opcodeOf (at_ t at0) =? kOpRet then out ++ vsMove slotRegister else out in
  let out := out ++ slice t at0 length in
  mret (if at0 + length =? lastEnd then out ++ vsDecl slotRegister else out).
Definition patchVsProgram (bytes : list Z) (slotRegister : Z) : Res (list Z) :=
  let t := programWords bytes in
  s ← scan (fun _ => t) (vsScanStep t slotRegister) (length t) 2 (mkVsScan 0 false false);
  if lastOutputEnd s =? 0 then throw "no output declarations"
  else if negb (v0x s) then throw "v0.x not declared"
  else if negb (rets s) then throw "no return"
  else
    out ← scan (fun _ => t) (vsWriteStep t slotRegister (lastOutputEnd s)) (length t) 2 [at_ t 0; 0];
    mret (programBytes out).

(** ** The pixel program *)
Record PsScan := mkPsScan {
  ps_t : list Z; firstOutput : Z; tempAt : Z; firstExecutable : Z; tempCount : Z; returns : Z;
  identityDeclared : bool; positionDeclared : bool }.
#[export] Instance eta_PsScan : Settable PsScan := fun s =>
  mkPsScan (ps_t s) (firstOutput s) (tempAt s) (firstExecutable s) (tempCount s) (returns s) (identityDeclared s) (positionDeclared s).
Definition isDeclaration (opcode : Z) : bool :=
  ((88 <=? opcode) && (opcode <=? 106)) || (opcode =? 143) || ((147 <=? opcode) && (opcode <=? 163)) || (opcode =? 53).
(** One pixel input declaration: the identity, the position, or neither. *)
Definition psInput (inp : EngineVelocityInputs) (at0 : Z) (s : PsScan) : Res PsScan :=
  let opcode := opcodeOf (at_ (ps_t s) at0) in
  let reg := at_ (ps_t s) (at0 + 2) in
  let mask := operandMask (at_ (ps_t s) (at0 + 1)) in
  s ← (if reg =? identityRegister inp then
         if slotFromVsPatch inp then throw "slot input register occupied"
         else if negb (Z.land mask (Z.shiftl 1 (identityComponent inp)) =? 0) then mret (s <| identityDeclared := true |>) else mret s
       else mret s);
  if reg =? positionRegister inp then
    if negb (opcode =? kOpDclInputPsSiv) then throw "position register not SV_Position"
    else mret (s <| positionDeclared := true |>
                 <| ps_t := <[Z.to_nat (at0 + 1) := Z.lor (at_ (ps_t s) (at0 + 1)) 0x40]> (ps_t s) |>)
  else mret s.
Definition psScanStep (inp : EngineVelocityInputs) (at0 length : Z) (s : PsScan) : Res PsScan :=
  let t := ps_t s in
  let opcode := opcodeOf (at_ t at0) in
  _ ← declineUnsupported opcode;
  let s := if (firstExecutable s =? 0) && negb (isDeclaration opcode) then s <| firstExecutable := at0 |> else s in
  let s := if (firstOutput s =? 0) && isOutputDcl opcode then s <| firstOutput := at0 |> else s in
  if isOutputDcl opcode && (3 <=? length) && (operandType (at_ t (at0 + 1)) =? 2) && (kEngineVelocityTarget <=? at_ t (at0 + 2))
  then throw "output target 6 or above occupied"
  else
    s ← (if (kOpDclInputPs <=? opcode) && (opcode <=? kOpDclInputPsSiv) && (3 <=? length) && (operandType (at_ t (at0 + 1)) =? 1)
         then psInput inp at0 s else mret s);
    s ← (if opcode =? kOpDclTemps then
           if negb (tempAt s =? 0) || negb (length =? 2) || (4092 <? at_ (ps_t s) (at0 + 1)) then throw "temps"
           else mret (s <| tempAt := at0 |> <| tempCount := at_ (ps_t s) (at0 + 1) |>)
         else mret s);
    mret (if opcode =? kOpRet then s <| returns := u32 (returns s + 1) |> else s).
Definition posDecl (inp : EngineVelocityInputs) : list Z := [0x04002064; 0x00101042; positionRegister inp; 1].
Definition slotDecl (inp : EngineVelocityInputs) : list Z := [0x03000862; 0x00101012; identityRegister inp].
Definition outDecl : list Z := [0x03000065; 0x00102032; kEngineVelocityTarget].
Definition psTail (inp : EngineVelocityInputs) (temp : Z) : list Z :=
  let identitySelect := Z.lor 0x0010100A (u32 (Z.shiftl (identityComponent inp) 4)) in
  [0x07000001; 0x00100012; temp; identitySelect; identityRegister inp; 0x00004001; kEngineVelocitySlotMask;
   0x09000023; 0x00100012; temp; 0x0010000A; temp; 0x00004001; 2; 0x00004001; 1;
   0x05000056; 0x00102012; kEngineVelocityTarget; 0x0010000A; temp;
   0x05000036; 0x00102022; kEngineVelocityTarget; 0x0010102A; positionRegister inp].
Definition psWriteStep (inp : EngineVelocityInputs) (s : PsScan) (at0 length : Z) (r : list Z * bool) : Res (list Z * bool) :=
  let '(out, outputDeclared) := r in
  let t := ps_t s in
  let opcode := opcodeOf (at_ t at0) in
  let out := if at0 =? firstOutput s
             then (out ++ (if positionDeclared s then [] else posDecl inp)) ++ (if slotFromVsPatch inp then slotDecl inp else [])
             else out in
  if negb (tempAt s =? 0) && (at0 =? tempAt s) then mret (out ++ outDecl ++ [at_ t at0; u32 (tempCount s + 1)], true)
  else
    let first := (tempAt s =? 0) && (at0 =? firstExecutable s) in
    let out := if first then out ++ outDecl ++ [0x02000068; 1] else out in
    let out := if opcode =? kOpRet then out ++ psTail inp (tempCount s) else out in
    mret (out ++ slice t at0 length, outputDeclared || first).
Definition patchPsProgram (bytes : list Z) (inp : EngineVelocityInputs) : Res (list Z) :=
  let t := programWords bytes in
  s ← scan ps_t (psScanStep inp) (length t) 2 (mkPsScan t 0 0 0 0 0 false false);
  if firstOutput s =? 0 then throw "no output declarations"
  else if returns s =? 0 then throw "no return"
  else if negb (slotFromVsPatch inp) && negb (identityDeclared s) then throw "identity input not declared"
  else if (tempAt s =? 0) && (firstExecutable s =? 0) then throw "no executable instructions"
  else
    r ← scan (fun _ => ps_t s) (psWriteStep inp s) (length t) 2 ([at_ (ps_t s) 0; 0], false);
    let '(out, outputDeclared) := r in
    if negb outputDeclared then throw "output declaration not placed" else mret (programBytes out).

(** ** Where the slot and the position reach the pixel shader *)
Record Derive := mkDerive { d_output : EngineVelocityInputs; d_program : option (list Z); d_isgn : bool; d_osgn : bool; instanceIndex : bool; maxOutput : Z }.
#[export] Instance eta_Derive : Settable Derive := fun d =>
  mkDerive (d_output d) (d_program d) (d_isgn d) (d_osgn d) (instanceIndex d) (maxOutput d).
Definition hasMask (e : SignatureElement) (m : Z) : bool := negb (Z.land (masks e) m =? 0).
Definition isInstanceIndex (e : SignatureElement) : bool :=
  equalName (e_name e) (chars "INSTANCEANDMODELDATAINDEX") && (semanticIndex e =? 0) && (registerIndex e =? 0) && (componentType e =? 1) && hasMask e 1.
Definition isMaterial (e : SignatureElement) : bool := equalName (e_name e) (chars "__USER_MATERIALMODULATION_DATAID").
Definition isFaceInvariant (e : SignatureElement) : bool := equalName (e_name e) (chars "__USER_VERTEX_FACEINVARIANT").
Definition isPosition (e : SignatureElement) : bool := (systemValue e =? 1) || equalName (e_name e) (chars "SV_POSITION").
Definition deriveElement (_ : nat) (e : SignatureElement) (d : Derive) : Res Derive :=
  let d := d <| maxOutput := Z.max (maxOutput d) (registerIndex e) |> in
  d ← (if (componentType e =? 1) && ((isMaterial e && hasMask e 2) || (isFaceInvariant e && hasMask e 1)) then
         if negb (identityRegister (d_output d) =? none) then throw "ambiguous identity output"
         else mret (d <| d_output := ((d_output d) <| identityRegister := registerIndex e |> <| identityComponent := if isMaterial e then 1 else 0 |>) |>)
       else mret d);
  if isPosition e && hasMask e 4 then
    if negb (componentType e =? 3) || negb (positionRegister (d_output d) =? none) then throw "ambiguous position output"
    else mret (d <| d_output := ((d_output d) <| positionRegister := registerIndex e |>) |>)
  else mret d.
Definition deriveChunk (_ : nat) (c : Chunk) (d : Derive) : Res Derive :=
  let d := if isProgram (tag c) then d <| d_program := Some (c_bytes c) |> else d in
  d ← (if tag c =? kTagIsgn then
         if d_isgn d then throw "duplicate input signature"
         else es ← parseSignature (c_bytes c);
              mret (d <| d_isgn := true |> <| instanceIndex := instanceIndex d || existsb isInstanceIndex es |>)
       else mret d);
  if tag c =? kTagOsgn then
    if d_osgn d then throw "duplicate output signature"
    else es ← parseSignature (c_bytes c); loop deriveElement 0 es (d <| d_osgn := true |>)
  else mret d.
(** What the caller sees of a patch that threw: false, the cleared output, the reason. *)
Definition outcome {A} (cleared : A) (r : Res A) : bool * A * string :=
  match r with inl why => (false, cleared, why) | inr a => (true, a, EmptyString) end.

Definition deriveBody (data : option (list Z)) : Res EngineVelocityInputs :=
  chunks ← parseContainer data kVs50;
  d ← loop deriveChunk 0 chunks (mkDerive noInputs None false false false 0);
  match d_program d with
  | None => throw "missing vertex shader chunks"
  | Some program =>
      if negb (d_isgn d) || negb (d_osgn d) then throw "missing vertex shader chunks"
      else if negb (instanceIndex d) then throw "no INSTANCEANDMODELDATAINDEX.x at v0"
      else if 32 <=? positionRegister (d_output d) then throw "SV_POSITION output absent"
      else
        pool ← readsPoolAtV0x (programWords program);
        if negb pool then throw "does not index the t33 pool by v0.x"
        else if identityRegister (d_output d) =? none then
          let next := u32 (maxOutput d + 1) in
          if 32 <=? next then throw "no free output register for the slot"
          else mret ((d_output d) <| identityRegister := next |> <| identityComponent := 0 |> <| slotFromVsPatch := true |>)
        else mret (d_output d)
  end.
Definition engineVelocityDeriveInputs (data : option (list Z)) : bool * EngineVelocityInputs * string :=
  outcome noInputs (deriveBody data).

(** ** The vertex container *)
Definition vsSlot (inputs : EngineVelocityInputs) : SignatureElement := mkElement kEngineVelocitySlotSemantic 0 0 1 (identityRegister inputs) 0x0E01.
Definition vsSignature (inputs : EngineVelocityInputs) (bytes : list Z) : Res (list Z) :=
  elements ← parseSignature bytes;
  if existsb (fun e => registerIndex e =? identityRegister inputs) elements then throw "slot output register occupied"
  else makeSignature (sortByRegister (elements ++ [vsSlot inputs])).
(** The state of the loop over the chunks: those rebuilt, osgn and program. *)
Definition vsChunk (inputs : EngineVelocityInputs) (_ : nat) (c : Chunk) (s : list Chunk * bool * bool) : Res (list Chunk * bool * bool) :=
  let '(chunks, osgn, program) := s in
  if tag c =? kTagOsgn then
    if osgn then throw "duplicate output signature"
    else bytes ← vsSignature inputs (c_bytes c); mret (chunks ++ [mkChunk (tag c) bytes], true, program)
  else if isProgram (tag c) then
    if program then throw "duplicate program"
    else bytes ← patchVsProgram (c_bytes c) (identityRegister inputs); mret (chunks ++ [mkChunk (tag c) bytes], osgn, true)
  else mret (chunks ++ [c], osgn, program).
Definition patchVsBody (data : option (list Z)) (inputs : EngineVelocityInputs) : Res (list Z) :=
  if negb (slotFromVsPatch inputs) || (32 <=? identityRegister inputs) || negb (identityComponent inputs =? 0)
  then throw "vertex shader needs no slot export"
  else
    chunks ← parseContainer data kVs50;
    s ← loop (vsChunk inputs) 0 chunks ([], false, false);
    let '(chunks, osgn, program) := s in
    if negb osgn || negb program then throw "missing vertex shader chunks" else makeContainer chunks.
Definition engineVelocityPatchVs (data : option (list Z)) (inputs : EngineVelocityInputs) : bool * list Z * string :=
  outcome [] (patchVsBody data inputs).

(** ** The pixel container *)
(** The elements of the input signature, each with what it says of identity and position. *)
Definition psElement (inputs : EngineVelocityInputs) (_ : nat) (e : SignatureElement) (s : list SignatureElement * bool * bool) :
    Res (list SignatureElement * bool * bool) :=
  let '(elements, identity, position) := s in
  identity ← (if registerIndex e =? identityRegister inputs then
                if slotFromVsPatch inputs then throw "slot input register occupied"
                else mret (identity || ((componentType e =? 1) && hasMask e (Z.shiftl 1 (identityComponent inputs))))
              else mret identity);
  if registerIndex e =? positionRegister inputs then
    if negb (isPosition e) || negb (componentType e =? 3) then throw "position input register holds another semantic"
    else mret (elements ++ [e <| masks := Z.lor (masks e) (Z.lor 4 0x0400) |>], identity, true)
  else mret (elements ++ [e], identity, position).
Definition psSlot (inputs : EngineVelocityInputs) : SignatureElement := mkElement kEngineVelocitySlotSemantic 0 0 1 (identityRegister inputs) 0x0101.
Definition psPosition (inputs : EngineVelocityInputs) : SignatureElement := mkElement (chars "SV_Position") 0 1 3 (positionRegister inputs) 0x040F.
(** Neighbours of a sorted list that share a register and a component. *)
Fixpoint overlapping (elements : list SignatureElement) : bool :=
  match elements with
  | a :: (b :: _) as rest =>
      ((registerIndex b =? registerIndex a) && negb (Z.land (Z.land (masks b) (masks a)) 15 =? 0)) || overlapping rest
  | _ => false
  end.
(** The slot when the vertex patch exports it, which must otherwise be there, and the position when it is not. *)
Definition psAddElements (inputs : EngineVelocityInputs) (s : list SignatureElement * bool * bool) : Res (list SignatureElement) :=
  let '(elements, identity, position) := s in
  let place elements := mret (sortByRegister (if position then elements else elements ++ [psPosition inputs])) in
  if slotFromVsPatch inputs then place (elements ++ [psSlot inputs])
  else if negb identity then throw "identity input absent" else place elements.
Definition psInputSignature (inputs : EngineVelocityInputs) (bytes : list Z) : Res (list Z) :=
  elements ← parseSignature bytes;
  s ← loop (psElement inputs) 0 elements ([], false, false);
  elements ← psAddElements inputs s;
  if overlapping elements then throw "overlapping input registers" else makeSignature elements.
Definition psOutputElement (_ : nat) (e : SignatureElement) (s : bool * Z) : Res (bool * Z) :=
  if startsWithName (e_name e) (chars "SV_DEPTH") || startsWithName (e_name e) (chars "SV_COVERAGE")
  then throw "depth or coverage output"
  else if equalName (e_name e) (chars "SV_TARGET") then
    if kEngineVelocityTarget <=? registerIndex e then throw "output target 6 or above occupied" else mret (true, systemValue e)
  else mret s.
Definition psVelocity (systemValue : Z) : SignatureElement :=
  mkElement (chars "SV_TARGET") kEngineVelocityTarget systemValue 3 kEngineVelocityTarget 0x0C03.
Definition psOutputSignature (bytes : list Z) : Res (list Z) :=
  elements ← parseSignature bytes;
  s ← loop psOutputElement 0 elements (false, 0);
  let '(target, targetSystemValue) := s in
  if negb target then throw "no colour output" else makeSignature (elements ++ [psVelocity targetSystemValue]).
Definition psChunk (inputs : EngineVelocityInputs) (_ : nat) (c : Chunk) (s : list Chunk * bool * bool * bool) : Res (list Chunk * bool * bool * bool) :=
  let '(chunks, isgn, osgn, program) := s in
  if tag c =? kTagIsgn then
    if isgn then throw "duplicate input signature"
    else bytes ← psInputSignature inputs (c_bytes c); mret (chunks ++ [mkChunk (tag c) bytes], true, osgn, program)
  else if tag c =? kTagOsgn then
    if osgn then throw "duplicate output signature"
    else bytes ← psOutputSignature (c_bytes c); mret (chunks ++ [mkChunk (tag c) bytes], isgn, true, program)
  else if isProgram (tag c) then
    if program then throw "duplicate program"
    else bytes ← patchPsProgram (c_bytes c) inputs; mret (chunks ++ [mkChunk (tag c) bytes], isgn, osgn, true)
  else mret (chunks ++ [c], isgn, osgn, program).
Definition patchPsBody (data : option (list Z)) (inputs : EngineVelocityInputs) : Res (list Z) :=
  if (32 <=? identityRegister inputs) || (4 <=? identityComponent inputs) || (32 <=? positionRegister inputs) ||
     (identityRegister inputs =? positionRegister inputs)
  then throw "invalid shader inputs"
  else
    chunks ← parseContainer data kPs50;
    s ← loop (psChunk inputs) 0 chunks ([], false, false, false);
    let '(chunks, isgn, osgn, program) := s in
    if negb isgn || negb osgn || negb program then throw "missing pixel shader chunks" else makeContainer chunks.
Definition engineVelocityPatchPs (data : option (list Z)) (inputs : EngineVelocityInputs) : bool * list Z * string :=
  outcome [] (patchPsBody data inputs).

(** ** Decoding *)
(** A word list is one instruction when its first token claims exactly its length. *)
Definition instrOk (i : list Z) : Prop := instructionLength i 0 = inr (size i).
Definition opcode (i : list Z) : Z := opcodeOf (at_ i 0).
Lemma at_skip p q k : 0 <= k -> at_ (p ++ q) (size p + k) = at_ q k.
Proof. intros Hk. unfold at_, size. rewrite app_nth2 by lia. f_equal. lia. Qed.
Lemma at_front i q k : 0 <= k < size i -> at_ (i ++ q) k = at_ i k.
Proof. intros Hk. unfold at_, size in *. rewrite app_nth1 by lia. done. Qed.
Lemma at_in p i q k : 0 <= k < size i -> at_ (p ++ i ++ q) (size p + k) = at_ i k.
Proof. intros Hk. rewrite at_skip by lia. by apply at_front. Qed.
Lemma instructionLength_skip p q : instructionLength (p ++ q) (size p) = instructionLength q 0.
Proof.
  unfold instructionLength. pose proof (at_skip p q 0) as E0. pose proof (at_skip p q 1) as E1. rewrite Z.add_0_r in E0.
  rewrite size_app, E0, E1, Z.add_0_l by lia. pose proof (size_nonneg p).
  replace (size p + size q <=? size p) with (size q <=? 0) by (apply eq_true_iff_eq; rewrite !Z.leb_le; lia).
  replace (size p + size q <=? size p + 1) with (size q <=? 1) by (apply eq_true_iff_eq; rewrite !Z.leb_le; lia).
  by replace (size p + size q - size p) with (size q - 0) by lia.
Qed.
Lemma accept_iff (L m n : Z) msg : 1 <= n <= m -> (if (L =? 0) || (m - 0 <? L) then throw msg else mret L) = (inr n : Res Z) <-> L = n.
Proof.
  intros Hn. destruct (Z.eqb_spec L 0) as [->|]; cbn [orb]; [by split; [|lia]|]. destruct (Z.ltb_spec (m - 0) L); [by split; [|lia]|].
  split; [intros HL; by injection HL|by intros ->].
Qed.
Lemma instructionLength_prefix i q : 1 <= size i -> instructionLength (i ++ q) 0 = inr (size i) <-> instrOk i.
Proof.
  intros Hi. unfold instrOk, instructionLength. rewrite size_app, at_front by lia. pose proof (size_nonneg q) as Hq.
  rewrite !(proj2 (Z.leb_gt _ 0)) by lia. destruct (Z.land (at_ i 0) 0x7ff =? 53); cbn [mbind Res_bind mret Res_ret]; [|by rewrite !accept_iff by lia].
  destruct (Z.eq_dec (size i) 1) as [E1|E1].
  - rewrite (proj2 (Z.leb_le (size i) _)), orb_true_r by lia. cbn [mbind Res_bind throw]. split; [|done].
    destruct (_ || (_ <=? _)); [done|]. destruct (Z.ltb_spec (at_ (i ++ q) (0 + 1)) 2) as [|Hl]; [done|]. destruct (false || negb _); [done|].
    cbn [mbind Res_bind mret Res_ret]. destruct (_ || _); [done|]. intros Hx. injection Hx. lia.
  - rewrite at_front, !(proj2 (Z.leb_gt _ (0 + 1))) by lia. destruct (_ || false); [done|]. destruct (_ || _); [done|]. cbn [mbind Res_bind mret Res_ret].
    by rewrite !accept_iff by lia.
Qed.
Lemma instr_split q n : instructionLength q 0 = inr n -> exists i q', q = i ++ q' /\ size i = n /\ instrOk i /\ 1 <= n.
Proof.
  intros H. pose proof (instructionLength_bounds _ _ _ ltac:(done) H) as (Hn & Hle). exists (take (Z.to_nat n) q), (drop (Z.to_nat n) q).
  rewrite take_drop. assert (size (take (Z.to_nat n) q) = n) as Hs by (unfold size in *; rewrite length_take; lia).
  split_and!; [done|done| |done]. apply (instructionLength_prefix _ (drop (Z.to_nat n) q)); [lia|]. by rewrite take_drop, Hs.
Qed.
Lemma instrOk_pos i : instrOk i -> 1 <= size i.
Proof. intros H. by apply (instructionLength_bounds i 0 (size i)). Qed.

(** A loop over an unchanging program is a fold over its instructions. *)
Fixpoint run {A} (step : Z -> Z -> A -> Res A) (at0 : Z) (ins : list (list Z)) (s : A) : Res A :=
  match ins with [] => mret s | i :: ins => s ← step at0 (size i) s; run step (at0 + size i) ins s end.
Lemma scan_run {A} t (step : Z -> Z -> A -> Res A) ins : forall fuel p q s, t = p ++ q -> q = concat ins -> Forall instrOk ins -> (length q <= fuel)%nat ->
  scan (fun _ => t) step fuel (size p) s = run step (size p) ins s.
Proof.
  induction ins as [|i ins IH]; intros fuel p q s -> -> Hok Hf.
  { cbn [concat]. rewrite app_nil_r. destruct fuel as [|fuel]; cbn [scan run]; [done|]. by rewrite (proj2 (Z.ltb_ge _ _)) by lia. }
  apply Forall_cons in Hok as [Hi Hok]. pose proof (instrOk_pos i Hi) as Hp. cbn [concat] in Hf. rewrite length_app in Hf.
  destruct fuel as [|fuel]; [unfold size in *; lia|]. cbn [scan run concat]. rewrite !size_app. pose proof (size_nonneg (concat ins)).
  rewrite (proj2 (Z.ltb_lt _ _)) by lia. rewrite instructionLength_skip, (proj2 (instructionLength_prefix _ _ Hp) Hi). cbn [mbind Res_bind].
  destruct (step (size p) (size i) s) as [?|s']; [done|]. cbn [mbind Res_bind]. rewrite <-size_app. apply (IH _ _ (concat ins)); [by rewrite <-app_assoc|done|done|].
  unfold size in *. lia.
Qed.
Lemma scan_decodes {A} t (step : Z -> Z -> A -> Res A) : forall fuel p q s s', t = p ++ q -> (length q <= fuel)%nat ->
  scan (fun _ => t) step fuel (size p) s = inr s' -> exists ins, q = concat ins /\ Forall instrOk ins.
Proof.
  induction fuel as [|fuel IH]; intros p q s s' -> Hf H; cbn [scan] in H; [exists []; destruct q; [done|cbn in Hf; lia]|].
  rewrite size_app in H. destruct (Z.ltb_spec (size p) (size p + size q)) as [Hl|Hl]; cycle 1.
  { exists []. destruct q; [done|]. unfold size in Hl. cbn in Hl. lia. }
  rewrite instructionLength_skip in H. destruct (instructionLength q 0) as [|n] eqn:E; [done|]. cbn [mbind Res_bind] in H.
  apply instr_split in E as (i & q' & -> & <- & Hi & Hn). destruct (step _ _ _) as [|s2]; [done|]. cbn [mbind Res_bind] in H. rewrite <-size_app in H.
  rewrite length_app in Hf. eapply (IH (p ++ i) q') in H as (ins & -> & Hok); [|by rewrite <-app_assoc|unfold size in *; lia].
  exists (i :: ins). split; [done|]. by constructor.
Qed.
Lemma scan_inv {A} t0 t1 q (step : Z -> Z -> A -> Res A) s s' :
  scan (fun _ => t0 :: t1 :: q) step (length (t0 :: t1 :: q)) 2 s = inr s' ->
  exists ins, q = concat ins /\ Forall instrOk ins /\ run step 2 ins s = inr s'.
Proof.
  change (t0 :: t1 :: q) with ([t0; t1] ++ q). change 2 with (size [t0; t1]). intros H.
  assert (length q <= length ([t0; t1] ++ q))%nat as Hf by (rewrite length_app; lia).
  destruct (scan_decodes _ _ _ [t0; t1] q s s' eq_refl Hf H) as (ins & -> & Hok). exists ins. split_and!; [done|done|].
  rewrite <-H. symmetry. by apply scan_run with (q := concat ins).
Qed.
Lemma scan_ok {A} t0 t1 ins (step : Z -> Z -> A -> Res A) s : Forall instrOk ins ->
  scan (fun _ => t0 :: t1 :: concat ins) step (length (t0 :: t1 :: concat ins)) 2 s = run step (size [t0; t1]) ins s.
Proof. intros Hok. change 2 with (size [t0; t1]). apply scan_run with (q := concat ins); [done|done|done|cbn [length]; lia]. Qed.
Lemma run_app {A} (step : Z -> Z -> A -> Res A) a : forall at0 b s,
  run step at0 (a ++ b) s = (s' ← run step at0 a s; run step (at0 + size (concat a)) b s').
Proof.
  induction a as [|i a IH]; intros at0 b s; cbn [app run concat]; [by rewrite Z.add_0_r|].
  destruct (step at0 (size i) s) as [?|s2]; cbn [mbind Res_bind]; [done|]. rewrite IH, size_app. by rewrite Z.add_assoc.
Qed.
Lemma at_head p i q : 1 <= size i -> at_ (p ++ i ++ q) (size p) = at_ i 0.
Proof. intros Hi. rewrite <-(at_in p i q 0) by lia. by rewrite Z.add_0_r. Qed.
Lemma slice_in p i q : slice (p ++ i ++ q) (size p) (size i) = i.
Proof. unfold slice, size. by rewrite !Nat2Z.id, drop_app_length, take_app_length. Qed.

(** ** Words and bytes *)
Lemma programWords_length bytes : length (programWords bytes) = (length bytes / 4)%nat.
Proof. unfold programWords. by rewrite length_map, length_seq. Qed.
Lemma programWords_range bytes : Forall is_u32 (programWords bytes).
Proof.
  unfold programWords. apply Forall_map, Forall_forall. intros i _. pose proof (leValue_bound (take 4 (drop (4 * i) bytes))) as [H0 H1].
  split; [done|]. enough (256 ^ size (take 4 (drop (4 * i) bytes)) <= 256 ^ 4) by (change (256 ^ 4) with (u32_max + 1) in *; lia).
  apply Z.pow_le_mono_r; [done|]. unfold size. rewrite length_take. lia.
Qed.
Lemma programWords_concat ws : Forall is_u32 ws -> programWords (concat (map (leBytes 4) ws)) = ws.
Proof.
  assert (forall ws, length (concat (map (leBytes 4) ws)) = (4 * length ws)%nat) as Hlen.
  { clear. induction ws as [|w ws IH]; [done|]. cbn [map concat]. rewrite length_app, length_leBytes, IH. cbn [length]. lia. }
  unfold programWords. rewrite Hlen, Nat.mul_comm, Nat.div_mul by done. induction 1 as [|w ws Hw _ IH]; [done|].
  cbn [length seq map concat]. f_equal.
  - rewrite Nat.mul_0_r, drop_0, take_size by (by rewrite length_leBytes). rewrite leValue_leBytes. apply Z.mod_small. unfold is_u32, u32_max in Hw. lia.
  - rewrite <-IH at 2. rewrite <-seq_shift, map_map. apply map_ext. intros i. do 2 f_equal.
    replace (4 * S i)%nat with (length (leBytes 4 w) + 4 * i)%nat by (rewrite length_leBytes; lia). by rewrite <-drop_drop, drop_app_length.
Qed.
Lemma programWords_two bytes : 8 <= size bytes <= 1024 * 1024 -> exists t0 t1 q, programWords bytes = t0 :: t1 :: q /\ size q <= 2 ^ 18.
Proof.
  intros Hb. pose proof (programWords_length bytes) as Hl. apply (f_equal Z.of_nat) in Hl. rewrite Nat2Z.inj_div in Hl.
  change (Z.of_nat 4) with 4 in Hl. fold (size bytes) in Hl. assert (2 <= size bytes / 4 <= 2 ^ 18) by (Z.div_mod_to_equations; lia).
  destruct (programWords bytes) as [|t0 [|t1 q]]; cbn [length] in Hl; [lia|lia|]. exists t0, t1, q. split; [done|]. unfold size. lia.
Qed.
(** The second word of a rebuilt program is its length. *)
Lemma programWords_programBytes t0 t1 ws : is_u32 t0 -> Forall is_u32 ws -> size ws + 2 <= u32_max ->
  programWords (programBytes (t0 :: t1 :: ws)) = t0 :: (size ws + 2) :: ws.
Proof.
  intros H0 Hws Hmax. unfold programBytes. change (<[1%nat:=?x]> (t0 :: t1 :: ws)) with (t0 :: x :: ws).
  assert (size (t0 :: t1 :: ws) = size ws + 2) as -> by (rewrite !size_cons; lia). pose proof (size_nonneg ws).
  rewrite u32_small by (unfold is_u32; lia). apply programWords_concat. apply Forall_cons. split; [done|]. apply Forall_cons. split; [unfold is_u32; lia|done].
Qed.

(** ** The vertex program *)
Definition isOutput (i : list Z) : bool := isOutputDcl (opcode i).
Definition isRet (i : list Z) : bool := opcode i =? kOpRet.
Definition occupies (slot : Z) (i : list Z) : bool := isOutput i && (3 <=? size i) && (operandType (at_ i 1) =? 2) && (at_ i 2 =? slot).
Definition declaresV0x (i : list Z) : bool :=
  (opcode i =? kOpDclInput) && (size i =? 3) && (operandType (at_ i 1) =? 1) && (at_ i 2 =? 0) && negb (Z.land (operandMask (at_ i 1)) 1 =? 0).
Definition supported (i : list Z) : Prop := declineUnsupported (opcode i) = inr tt.
(** What [vsScanStep] does to one instruction that ends at [stop]. *)
Definition vsScanOne (slot : Z) (i : list Z) (stop : Z) (s : VsScan) : Res VsScan :=
  _ ← declineUnsupported (opcode i);
  if occupies slot i then throw "slot output register occupied"
  else mret (mkVsScan (if isOutput i then stop else lastOutputEnd s) (v0x s || declaresV0x i) (rets s || isRet i)).
Lemma vsScanStep_one slot p i q s : instrOk i ->
  vsScanStep (p ++ i ++ q) slot (size p) (size i) s = vsScanOne slot i (size p + size i) s.
Proof.
  intros Hi. pose proof (instrOk_pos i Hi). unfold vsScanStep, vsScanOne.
  rewrite at_head by lia. fold (opcode i).
  destruct (declineUnsupported (opcode i)) as [|[]]; [done|]. cbn [mbind Res_bind]. unfold occupies, declaresV0x. fold (isOutput i) (isRet i).
  assert (forall k, 1 <= k < 3 -> 3 <= size i -> at_ (p ++ i ++ q) (size p + k) = at_ i k) as Hat by (intros; apply at_in; lia).
  destruct (Z.leb_spec 3 (size i)) as [H3|H3].
  - rewrite !Hat by lia. destruct (isOutput i); [|done]. cbn [andb]. by destruct (operandType _ =? 2), (_ =? slot).
  - rewrite (proj2 (Z.eqb_neq (size i) 3)), !andb_false_r by lia. cbn [andb]. by destruct (isOutput i).
Qed.
(** Where the last output declaration ends, given where the instructions begin. *)
Fixpoint lastEnd (at0 : Z) (ins : list (list Z)) (d : Z) : Z :=
  match ins with [] => d | i :: ins => lastEnd (at0 + size i) ins (if isOutput i then at0 + size i else d) end.
Lemma run_vsScan slot t q ins : forall p s s', t = p ++ concat ins ++ q -> Forall instrOk ins -> run (vsScanStep t slot) (size p) ins s = inr s' ->
  Forall (fun i => supported i /\ occupies slot i = false) ins /\
  s' = mkVsScan (lastEnd (size p) ins (lastOutputEnd s)) (v0x s || existsb declaresV0x ins) (rets s || existsb isRet ins).
Proof.
  revert t. induction ins as [|i ins IH]; intros t p s s' -> Hok H; cbn [run lastEnd existsb concat] in *.
  { split; [done|]. rewrite !orb_false_r. injection H as <-. by destruct s. }
  apply Forall_cons in Hok as [Hi Hok]. rewrite <-app_assoc in H. rewrite vsScanStep_one in H by done. unfold vsScanOne in H.
  destruct (declineUnsupported (opcode i)) as [|[]] eqn:E; [done|]. cbn [mbind Res_bind] in H.
  destruct (occupies slot i) eqn:Eo; [done|]. cbn [mbind Res_bind mret Res_ret] in H. rewrite <-size_app in H.
  apply IH in H as (H1 & ->); [|by rewrite <-!app_assoc|done]. cbn [lastOutputEnd v0x rets]. rewrite !size_app, !orb_assoc.
  split; [by constructor|done].
Qed.
(** A slot that is declared already declines the program. *)
Lemma run_vsScan_occupied slot t q before i after p s : t = p ++ concat (before ++ i :: after) ++ q -> Forall instrOk (before ++ i :: after) ->
  Forall (fun i => supported i /\ occupies slot i = false) before -> supported i -> occupies slot i = true ->
  run (vsScanStep t slot) (size p) (before ++ i :: after) s = throw "slot output register occupied".
Proof.
  intros -> Hok Hb Hs Ho. revert p s Hok. induction Hb as [|b before [Hbs Hbo] _ IH]; intros p s Hok; cbn [app run concat].
  - apply Forall_cons in Hok as [Hi _]. rewrite <-app_assoc, vsScanStep_one by done. unfold vsScanOne, supported in *. rewrite Hs. cbn [mbind Res_bind]. by rewrite Ho.
  - apply Forall_cons in Hok as [Hi Hok]. rewrite <-app_assoc, vsScanStep_one by done. unfold vsScanOne, supported in *. rewrite Hbs. cbn [mbind Res_bind].
    rewrite Hbo. cbn [mbind Res_bind mret Res_ret]. rewrite <-size_app, !app_assoc, <-(app_assoc (p ++ b)). by apply IH.
Qed.
Lemma lastEnd_split at0 ins d : existsb isOutput ins = true ->
  exists before o after, ins = before ++ o :: after /\ isOutput o = true /\ Forall (fun i => isOutput i = false) after /\
    lastEnd at0 ins d = at0 + size (concat before) + size o.
Proof.
  revert at0 d. induction ins as [|i ins IH]; intros at0 d H; cbn [existsb lastEnd] in *; [done|].
  destruct (existsb isOutput ins) eqn:E.
  - destruct (IH (at0 + size i) (if isOutput i then at0 + size i else d) eq_refl) as (before & o & after & -> & Ho & Ha & ->).
    exists (i :: before), o, after. split_and!; [done|done|done|]. cbn [concat]. rewrite size_app. lia.
  - rewrite orb_false_r in H. exists [], i, ins. rewrite H. assert (Forall (fun i => isOutput i = false) ins) as Hn.
    { apply Forall_forall. intros j Hj. apply not_true_is_false. intros Hj'. apply not_true_iff_false in E. apply E, existsb_exists. exists j.
      split; [by apply list_elem_of_In|done]. }
    split_and!; [done|done|done|]. cbn. rewrite Z.add_0_r. clear -Hn. assert (forall a d, lastEnd a ins d = d) as ->; [|done].
    induction Hn as [|j ins Hj _ IH]; intros a d'; cbn [lastEnd]; [done|]. by rewrite Hj, IH.
Qed.
Lemma lastEnd_none at0 ins d : existsb isOutput ins = false -> lastEnd at0 ins d = d.
Proof.
  revert at0. induction ins as [|i ins IH]; intros at0 H; cbn [existsb lastEnd] in *; [done|]. apply orb_false_iff in H as (-> & H). by apply IH.
Qed.
(** What is written for an instruction other than the last output. *)
Definition withMove (slot : Z) (i : list Z) : list Z := if isRet i then vsMove slot ++ i else i.
Lemma vsWriteStep_one slot e p i q out : instrOk i ->
  vsWriteStep (p ++ i ++ q) slot e (size p) (size i) out =
  inr (out ++ withMove slot i ++ if size p + size i =? e then vsDecl slot else []).
Proof.
  intros Hi. pose proof (instrOk_pos i Hi). unfold vsWriteStep, withMove. rewrite slice_in.
  rewrite at_head by lia. fold (opcode i) (isRet i).
  destruct (isRet i), (_ =? e); cbn [mret Res_ret]; by rewrite ?app_nil_r, <-?app_assoc.
Qed.
Lemma run_vsWrite slot e t q ins : forall p out, t = p ++ concat ins ++ q -> Forall instrOk ins ->
  (e <= size p \/ size p + size (concat ins) < e) ->
  run (vsWriteStep t slot e) (size p) ins out = inr (out ++ concat (map (withMove slot) ins)).
Proof.
  revert t. induction ins as [|i ins IH]; intros t p out -> Hok He; cbn [run map concat] in *; [by rewrite app_nil_r|].
  apply Forall_cons in Hok as [Hi Hok]. pose proof (instrOk_pos i Hi). rewrite size_app in He. pose proof (size_nonneg (concat ins)).
  rewrite <-app_assoc, vsWriteStep_one by done. rewrite (proj2 (Z.eqb_neq _ _)) by lia. cbn [mbind Res_bind]. rewrite app_nil_r, <-size_app.
  rewrite IH; [by rewrite <-app_assoc|by rewrite <-app_assoc|done|]. rewrite size_app. lia.
Qed.
(** The program with the declaration after the last output and a move before every return. *)
Definition vsPatched (slot : Z) (before : list (list Z)) (o : list Z) (after : list (list Z)) : list Z :=
  concat (map (withMove slot) before) ++ o ++ vsDecl slot ++ concat (map (withMove slot) after).
Lemma run_vsWrite_all slot p before o after out : let t := p ++ concat (before ++ o :: after) in
  Forall instrOk (before ++ o :: after) -> isOutput o = true ->
  run (vsWriteStep t slot (size p + size (concat before) + size o)) (size p) (before ++ o :: after) out = inr (out ++ vsPatched slot before o after).
Proof.
  intros t Hok Ho. apply Forall_app in Hok as (Hb & Hok). apply Forall_cons in Hok as (Hio & Ha). pose proof (instrOk_pos o Hio).
  assert (t = p ++ concat before ++ o ++ concat after) as Et by (unfold t; rewrite concat_app; done).
  rewrite run_app, (run_vsWrite slot _ t (o ++ concat after) before) by (done || lia). cbn [mbind Res_bind run].
  rewrite <-size_app. rewrite Et, app_assoc, vsWriteStep_one by done. rewrite Z.eqb_refl. cbn [mbind Res_bind].
  assert (withMove slot o = o) as ->.
  { unfold withMove. destruct (isRet o) eqn:E; [|done]. unfold isRet, isOutput, isOutputDcl, kOpDclOutput, kOpDclOutputSiv in *. apply Z.eqb_eq in E. by rewrite E in Ho. }
  rewrite <-(size_app _ o). rewrite (run_vsWrite slot _ _ [] after); [|by rewrite app_nil_r, <-!app_assoc|done|by left; rewrite size_app; lia].
  unfold vsPatched. by rewrite <-!app_assoc.
Qed.
Lemma size_concat_map (f : list Z -> list Z) k ins : Forall instrOk ins -> (forall i, 1 <= size i -> size (f i) <= k * size i) ->
  size (concat (map f ins)) <= k * size (concat ins).
Proof.
  intros Hok Hf. induction Hok as [|i ins Hi _ IH]; [change (0 <= k * 0); lia|]. cbn [map concat]. rewrite !size_app. pose proof (Hf i (instrOk_pos i Hi)). lia.
Qed.
Lemma Forall_concat_map {P : Z -> Prop} (f : list Z -> list Z) ins : Forall P (concat ins) -> (forall i, Forall P i -> Forall P (f i)) ->
  Forall P (concat (map f ins)).
Proof.
  intros Hp Hf. induction ins as [|i ins IH]; [done|]. cbn [map concat] in *. apply Forall_app in Hp as (Hi & Hp). apply Forall_app. auto.
Qed.
Ltac u32s := repeat (apply Forall_cons; split; [first [assumption | unfold is_u32, u32_max, kEngineVelocityTarget, kEngineVelocitySlotMask; lia]|]); by apply Forall_nil.
Lemma vsPatched_words slot before o after : is_u32 slot -> Forall instrOk (before ++ o :: after) -> Forall is_u32 (concat (before ++ o :: after)) ->
  Forall is_u32 (vsPatched slot before o after) /\ size (vsPatched slot before o after) <= 6 * size (concat (before ++ o :: after)) + 3.
Proof.
  intros Hs Hok. rewrite !concat_app. cbn [concat]. rewrite !Forall_app. intros (Hb & Ho & Ha).
  apply Forall_app in Hok as (Hob & Hok). apply Forall_cons in Hok as (Hoo & Hoa).
  assert (forall i, Forall is_u32 i -> Forall is_u32 (withMove slot i)) as Hw.
  { intros i Hi. unfold withMove. destruct (isRet i); [|done]. apply Forall_app. split; [unfold vsMove; u32s|done]. }
  assert (forall i, 1 <= size i -> size (withMove slot i) <= 6 * size i) as Hz.
  { intros i Hi. unfold withMove. destruct (isRet i); [rewrite size_app; change (size (vsMove slot)) with 5|]; lia. }
  unfold vsPatched. rewrite !Forall_app, !size_app. split.
  - split_and!; [by apply Forall_concat_map|done|unfold vsDecl; u32s|by apply Forall_concat_map].
  - pose proof (size_concat_map _ _ _ Hob Hz). pose proof (size_concat_map _ _ _ Hoa Hz). pose proof (instrOk_pos _ Hoo).
    change (size (vsDecl slot)) with 3. lia.
Qed.
(** What a vertex program needs, and its instructions around the last output. *)
Record VsShape (slot : Z) (q : list Z) (before : list (list Z)) (o : list Z) (after : list (list Z)) : Prop := {
  vs_decoded : q = concat (before ++ o :: after); vs_ok : Forall instrOk (before ++ o :: after);
  vs_last : isOutput o = true; vs_after : Forall (fun i => isOutput i = false) after;
  vs_free : Forall (fun i => supported i /\ occupies slot i = false) (before ++ o :: after);
  vs_v0x : existsb declaresV0x (before ++ o :: after) = true; vs_ret : existsb isRet (before ++ o :: after) = true }.
(** Patching a vertex program. *)
Lemma patchVsProgram_spec bytes slot bytes' : is_u32 slot -> 8 <= size bytes <= 1024 * 1024 ->
  patchVsProgram bytes slot = inr bytes' ->
  exists t0 t1 q before o after, programWords bytes = t0 :: t1 :: q /\ VsShape slot q before o after /\
    programWords bytes' = t0 :: (size (vsPatched slot before o after) + 2) :: vsPatched slot before o after.
Proof.
  intros Hslot Hb H. unfold patchVsProgram in H. pose proof (programWords_range bytes) as Hr.
  destruct (programWords_two bytes Hb) as (t0 & t1 & q & Ew & Hq). rewrite Ew in H, Hr. apply Forall_cons in Hr as (Ht0 & Hr). apply Forall_cons in Hr as (_ & Hr).
  destruct (scan _ _ _ 2 (mkVsScan _ _ _)) as [|s] eqn:E; [done|]. cbn [mbind Res_bind] in H. apply scan_inv in E as (ins & -> & Hok & E).
  apply (run_vsScan slot _ [] ins [t0; t1]) in E as (Hsup & ->); [|by rewrite app_nil_r|done]. cbn [lastOutputEnd v0x rets orb] in H.
  destruct (existsb isOutput ins) eqn:Eo; cycle 1. { by rewrite lastEnd_none in H. }
  apply lastEnd_split with (at0 := size [t0; t1]) (d := 0) in Eo as (before & o & after & -> & Ho & Ha & El). rewrite El in H.
  destruct (_ =? 0); [done|]. destruct (existsb declaresV0x _) eqn:Ev; cbn [negb] in H; [|done]. destruct (existsb isRet _) eqn:Er; cbn [negb] in H; [|done].
  rewrite scan_ok in H by done. rewrite (run_vsWrite_all slot [t0; t1] before o after _ Hok Ho) in H. cbn [mbind Res_bind mret Res_ret] in H. injection H as <-.
  exists t0, t1, (concat (before ++ o :: after)), before, o, after. split_and!; [done|by constructor|].
  destruct (vsPatched_words slot before o after Hslot Hok Hr) as (Hu & Hz). apply (programWords_programBytes t0 0); [done|done|unfold u32_max; lia].
Qed.
(** The patched program's own instructions. *)
Definition expand (slot : Z) (ins : list (list Z)) : list (list Z) :=
  concat (map (fun i => if isRet i then [vsMove slot; i] else [i]) ins).
Lemma concat_expand slot ins : concat (expand slot ins) = concat (map (withMove slot) ins).
Proof.
  unfold expand. induction ins as [|i ins IH]; [done|]. cbn [map concat]. rewrite concat_app, IH. f_equal.
  unfold withMove. destruct (isRet i); cbn [concat]; by rewrite app_nil_r.
Qed.
Lemma Forall_expand (P : list Z -> Prop) slot ins : P (vsMove slot) -> Forall P ins -> Forall P (expand slot ins).
Proof.
  intros Hm. unfold expand. induction 1 as [|i ins Hi _ IH]; [done|]. cbn [map concat]. apply Forall_app. split; [|done].
  destruct (isRet i); repeat constructor; done.
Qed.
Lemma vsPatched_decoded slot before o after : vsPatched slot before o after = concat (expand slot before ++ o :: vsDecl slot :: expand slot after).
Proof. rewrite concat_app. cbn [concat]. by rewrite !concat_expand. Qed.
Lemma vsPatched_ok slot before o after : Forall instrOk (before ++ o :: after) -> Forall instrOk (expand slot before ++ o :: vsDecl slot :: expand slot after).
Proof.
  rewrite !Forall_app, !Forall_cons. intros (Hb & Ho & Ha). split_and!; [by apply Forall_expand|done|done|by apply Forall_expand].
Qed.
(** A patched vertex program is not patched again. *)
Lemma patchVsProgram_once bytes slot bytes' : is_u32 slot -> 8 <= size bytes <= 1024 * 1024 ->
  patchVsProgram bytes slot = inr bytes' -> patchVsProgram bytes' slot = throw "slot output register occupied".
Proof.
  intros Hs Hb H. apply patchVsProgram_spec in H as (t0 & t1 & q & before & o & after & _ & [-> Hok Ho Ha Hf _ _] & Ew); [|done|done].
  unfold patchVsProgram. rewrite Ew. set (n := size _ + 2). clearbody n. rewrite vsPatched_decoded.
  rewrite scan_ok by by apply vsPatched_ok. apply Forall_app in Hf as (Hfb & Hf). apply Forall_cons in Hf as (Hfo & _).
  replace (expand slot before ++ o :: vsDecl slot :: expand slot after) with ((expand slot before ++ [o]) ++ vsDecl slot :: expand slot after) by (by rewrite <-app_assoc).
  rewrite (run_vsScan_occupied slot _ [] (expand slot before ++ [o]) (vsDecl slot) (expand slot after)); [done|..].
  - by rewrite app_nil_r, <-app_assoc.
  - rewrite <-app_assoc. by apply vsPatched_ok.
  - apply Forall_app. split; [|by constructor]. apply Forall_expand; [|done]. by split.
  - done.
  - unfold occupies, vsDecl. cbn. apply Z.eqb_refl.
Qed.


(** ** The pixel program *)
Definition isPsInput (i : list Z) : bool :=
  (kOpDclInputPs <=? opcode i) && (opcode i <=? kOpDclInputPsSiv) && (3 <=? size i) && (operandType (at_ i 1) =? 1).
Definition declaresIdentity (inp : EngineVelocityInputs) (i : list Z) : bool :=
  isPsInput i && (at_ i 2 =? identityRegister inp) && negb (Z.land (operandMask (at_ i 1)) (Z.shiftl 1 (identityComponent inp)) =? 0).
Definition declaresPosition (inp : EngineVelocityInputs) (i : list Z) : bool := isPsInput i && (at_ i 2 =? positionRegister inp).
Definition occupiesTarget (i : list Z) : bool :=
  isOutput i && (3 <=? size i) && (operandType (at_ i 1) =? 2) && (kEngineVelocityTarget <=? at_ i 2).
Definition isTemps (i : list Z) : bool := opcode i =? kOpDclTemps.
Definition isExecutable (i : list Z) : bool := negb (isDeclaration (opcode i)).
(** A declaration of the position with its z made live. *)
Definition liven (inp : EngineVelocityInputs) (i : list Z) : list Z :=
  if declaresPosition inp i then <[1%nat := Z.lor (at_ i 1) 0x40]> i else i.
#[local] Arguments at_ : simpl never.
(** What one instruction at [at0] changes of the scan's findings, the tokens aside. *)
Record PsOne (inp : EngineVelocityInputs) (at0 : Z) (i : list Z) (s s' : PsScan) : Prop := {
  po_supported : supported i; po_target : occupiesTarget i = false;
  po_slot : slotFromVsPatch inp = true -> isPsInput i && (at_ i 2 =? identityRegister inp) = false;
  po_position : declaresPosition inp i = true -> opcode i = kOpDclInputPsSiv;
  po_temps : isTemps i = true -> tempAt s = 0 /\ size i = 2 /\ at_ i 1 <= 4092;
  po_firstOutput : firstOutput s' = if (firstOutput s =? 0) && isOutput i then at0 else firstOutput s;
  po_firstExecutable : firstExecutable s' = if (firstExecutable s =? 0) && isExecutable i then at0 else firstExecutable s;
  po_tempAt : tempAt s' = if isTemps i then at0 else tempAt s;
  po_tempCount : tempCount s' = if isTemps i then at_ i 1 else tempCount s;
  po_identity : identityDeclared s' = identityDeclared s || declaresIdentity inp i;
  po_declared : positionDeclared s' = positionDeclared s || declaresPosition inp i;
  po_returns : isRet i = false -> returns s' = returns s }.
Lemma insert_in (p i q : list Z) x : 2 <= size i -> <[Z.to_nat (size p + 1) := x]> (p ++ i ++ q) = p ++ <[1%nat := x]> i ++ q.
Proof.
  intros Hi. replace (Z.to_nat (size p + 1)) with (length p + 1)%nat by (unfold size; lia). rewrite insert_app_r. f_equal.
  apply insert_app_l. unfold size in Hi. lia.
Qed.
Lemma psInput_one inp p i q s s' : 3 <= size i -> ps_t s = p ++ i ++ q -> psInput inp (size p) s = inr s' ->
  let ident := at_ i 2 =? identityRegister inp in let pos := at_ i 2 =? positionRegister inp in
  (slotFromVsPatch inp = true -> ident = false) /\ (pos = true -> opcode i = kOpDclInputPsSiv) /\
  s' = s <| identityDeclared := identityDeclared s || (ident && negb (Z.land (operandMask (at_ i 1)) (Z.shiftl 1 (identityComponent inp)) =? 0)) |>
         <| positionDeclared := positionDeclared s || pos |> <| ps_t := p ++ (if pos then <[1%nat := Z.lor (at_ i 1) 0x40]> i else i) ++ q |>.
Proof.
  intros Hi Ht H ident pos. unfold psInput in H. rewrite Ht, at_head, !at_in in H by lia. fold (opcode i) in H. fold ident pos in H.
  destruct ident; [destruct (slotFromVsPatch inp); [done|]|].
  - split; [done|]. destruct (negb (Z.land _ _ =? 0)); cbn [mbind Res_bind mret Res_ret] in H.
    all: destruct pos; [destruct (Z.eqb_spec (opcode i) kOpDclInputPsSiv) as [Eo|]; cbn [negb] in H; [|done]|].
    all: cbn in H; rewrite ?Ht, ?at_in, ?insert_in in H by lia; injection H as <-; split; [done|]; destruct s; cbn in *; subst; by rewrite ?orb_true_r, ?orb_false_r.
  - split; [done|]. cbn [mbind Res_bind mret Res_ret] in H.
    destruct pos; [destruct (Z.eqb_spec (opcode i) kOpDclInputPsSiv) as [Eo|]; cbn [negb] in H; [|done]|].
    all: cbn in H; rewrite ?Ht, ?at_in, ?insert_in in H by lia; injection H as <-; split; [done|]; destruct s; cbn in *; subst; by rewrite ?orb_true_r, ?orb_false_r.
Qed.
Lemma psScanStep_one inp p i q s s' : instrOk i -> ps_t s = p ++ i ++ q -> psScanStep inp (size p) (size i) s = inr s' ->
  PsOne inp (size p) i s s' /\ ps_t s' = p ++ liven inp i ++ q.
Proof.
  intros Hi Ht H. pose proof (instrOk_pos i Hi) as Hp. unfold psScanStep in H. rewrite Ht, at_head in H by lia. fold (opcode i) in H.
  destruct (declineUnsupported (opcode i)) as [|[]] eqn:Es; [done|]. cbn [mbind Res_bind] in H. fold (isOutput i) (isExecutable i) in H.
  set (s1 := if (firstExecutable s =? 0) && isExecutable i then s <| firstExecutable := size p |> else s) in H.
  set (s2 := if (firstOutput s1 =? 0) && isOutput i then s1 <| firstOutput := size p |> else s1) in H.
  assert (ps_t s2 = p ++ i ++ q) as Ht2 by (unfold s2, s1; destruct (_ && _), (_ && isOutput i); done).
  assert (isOutput i && (3 <=? size i) && (operandType (at_ (p ++ i ++ q) (size p + 1)) =? 2) && (kEngineVelocityTarget <=? at_ (p ++ i ++ q) (size p + 2))
    = occupiesTarget i) as Eo.
  { unfold occupiesTarget. destruct (Z.leb_spec 3 (size i)); [by rewrite !at_in by lia|by rewrite !andb_false_r]. }
  rewrite Eo in H. destruct (occupiesTarget i) eqn:Et; [done|]. clear Eo.
  assert ((kOpDclInputPs <=? opcode i) && (opcode i <=? kOpDclInputPsSiv) && (3 <=? size i) && (operandType (at_ (p ++ i ++ q) (size p + 1)) =? 1) = isPsInput i) as Eo.
  { unfold isPsInput. destruct (Z.leb_spec 3 (size i)); [by rewrite !at_in by lia|by rewrite !andb_false_r]. }
  rewrite Eo in H. clear Eo.
  assert (exists s3, (if isPsInput i then psInput inp (size p) s2 else mret s2) = inr s3 /\
    (slotFromVsPatch inp = true -> isPsInput i && (at_ i 2 =? identityRegister inp) = false) /\ (declaresPosition inp i = true -> opcode i = kOpDclInputPsSiv) /\
    s3 = s2 <| identityDeclared := identityDeclared s2 || declaresIdentity inp i |> <| positionDeclared := positionDeclared s2 || declaresPosition inp i |>
            <| ps_t := p ++ liven inp i ++ q |>) as (s3 & E3 & Hslot & Hpos & E3').
  { unfold declaresIdentity, liven. unfold declaresPosition at 1 2 3. destruct (isPsInput i) eqn:Ein.
    - destruct (psInput inp (size p) s2) as [|s3] eqn:E3; [done|]. exists s3. split; [done|]. unfold isPsInput in Ein.
      apply andb_true_iff in Ein as (Ein & _). apply andb_true_iff in Ein as (_ & H3). apply Z.leb_le in H3.
      apply (psInput_one inp p i q) in E3 as (A & B & C); [done|done|done].
    - exists s2. split_and!; [done..|]. cbn [andb]. rewrite !orb_false_r. destruct s2. cbn in *. by rewrite Ht2. }
  rewrite E3 in H. cbn [mbind Res_bind] in H. fold (isTemps i) (isRet i) in H.
  assert (tempAt s3 = tempAt s) as Eta by (rewrite E3'; cbn; unfold s2, s1; by destruct (_ && _), (_ && isOutput i)).
  assert (isTemps i = true -> liven inp i = i) as Hlt.
  { intros Etm. unfold liven, declaresPosition, isPsInput. apply Z.eqb_eq in Etm. by rewrite Etm. }
  assert (exists s4, s' = (if isRet i then s4 <| returns := u32 (returns s4 + 1) |> else s4) /\
    (isTemps i = true -> tempAt s = 0 /\ size i = 2 /\ at_ i 1 <= 4092) /\
    s4 = if isTemps i then s3 <| tempAt := size p |> <| tempCount := at_ i 1 |> else s3) as (s4 & -> & Htm & ->).
  { destruct (isTemps i) eqn:Etm; cbn [mbind Res_bind] in H; [|injection H as <-; by exists s3].
    destruct (Z.eqb_spec (tempAt s3) 0) as [T1|]; [|done]. destruct (Z.eqb_spec (size i) 2) as [T2|]; [|done]. cbn [negb orb] in H.
    assert (at_ (ps_t s3) (size p + 1) = at_ i 1) as Ea by (rewrite E3'; cbn; rewrite Hlt by done; apply at_in; lia).
    rewrite Ea in H. destruct (Z.ltb_spec 4092 (at_ i 1)) as [|T3]; [done|]. injection H as <-. exists (s3 <| tempAt := size p |> <| tempCount := at_ i 1 |>). split; [done|]. split; [|done].
    intros _. split_and!; [by rewrite <-Eta|done|done]. }
  clear H E3 Hlt Eta. subst s3. split; [|by destruct (isRet i), (isTemps i)].
  split; try done; destruct (isRet i), (isTemps i); cbn; try done; unfold s2, s1; destruct (_ && isExecutable i), (_ && isOutput i) eqn:?; cbn in *; try done; by simplify_eq.
Qed.
Inductive PsRun (inp : EngineVelocityInputs) : Z -> list (list Z) -> PsScan -> PsScan -> Prop :=
| ps_end at0 s : PsRun inp at0 [] s s
| ps_turn at0 i ins s s1 s2 : PsOne inp at0 i s s1 -> PsRun inp (at0 + size i) ins s1 s2 -> PsRun inp at0 (i :: ins) s s2.
Lemma at_insert (i : list Z) k x j : k <> j -> 0 <= j -> (at_ (<[Z.to_nat k := x]> i) j = at_ i j) \/ k < 0.
Proof.
  intros Hk Hj. destruct (Z.lt_ge_cases k 0); [by right|]. left. unfold at_. rewrite !nth_lookup. by rewrite list_lookup_insert_ne by lia.
Qed.
Lemma liven_head inp i k : k <> 1 -> 0 <= k -> at_ (liven inp i) k = at_ i k.
Proof.
  intros H1 Hk. unfold liven. destruct (declaresPosition inp i); [|done].
  change 1%nat with (Z.to_nat 1). by destruct (at_insert i 1 (Z.lor (at_ i 1) 0x40) k).
Qed.
Lemma size_liven inp i : size (liven inp i) = size i.
Proof. unfold liven, size. destruct (declaresPosition inp i); [|done]. by rewrite length_insert. Qed.
Lemma opcode_liven inp i : opcode (liven inp i) = opcode i.
Proof. unfold opcode. by rewrite liven_head. Qed.
Lemma instrOk_liven inp i : instrOk i -> instrOk (liven inp i).
Proof.
  intros Hi. destruct (declaresPosition inp i) eqn:E; [|unfold liven; by rewrite E]. unfold instrOk in *. rewrite size_liven. rewrite <-Hi.
  unfold instructionLength. rewrite size_liven, liven_head by done.
  assert ((Z.land (at_ i 0) 0x7ff =? 53) = false) as ->; [|done]. apply Z.eqb_neq. fold (opcodeOf (at_ i 0)) (opcode i).
  unfold declaresPosition, isPsInput, kOpDclInputPs in E. destruct (Z.leb_spec 98 (opcode i)); [lia|done].
Qed.
Lemma scan_ps inp : forall fuel p q s s', ps_t s = p ++ q -> (length q <= fuel)%nat -> scan ps_t (psScanStep inp) fuel (size p) s = inr s' ->
  exists ins, q = concat ins /\ Forall instrOk ins /\ PsRun inp (size p) ins s s' /\ ps_t s' = p ++ concat (map (liven inp) ins).
Proof.
  induction fuel as [|fuel IH]; intros p q s s' Ht Hf H; cbn [scan] in H.
  { exists []. destruct q; [|cbn in Hf; lia]. injection H as <-. split_and!; [done|done|constructor|done]. }
  rewrite Ht, size_app in H. destruct (Z.ltb_spec (size p) (size p + size q)) as [Hl|Hl]; cycle 1.
  { exists []. destruct q; [|unfold size in Hl; cbn in Hl; lia]. injection H as <-. split_and!; [done|done|constructor|done]. }
  rewrite instructionLength_skip in H. destruct (instructionLength q 0) as [|n] eqn:E; [done|]. cbn [mbind Res_bind] in H.
  apply instr_split in E as (i & q' & -> & <- & Hi & Hn). destruct (psScanStep inp _ _ s) as [|s1] eqn:E1; [done|]. cbn [mbind Res_bind] in H.
  apply (psScanStep_one inp p i q') in E1 as (Hone & Ht1); [|done|done]. rewrite length_app in Hf. replace (size p + size i) with (size (p ++ liven inp i)) in H
    by (rewrite size_app, size_liven; done).
  eapply (IH (p ++ liven inp i) q') in H as (ins & -> & Hok & Hrun & Ht'); [|by rewrite <-app_assoc|unfold size in *; lia].
  exists (i :: ins). split_and!; [done|by constructor| |by rewrite Ht', <-app_assoc]. rewrite size_app, size_liven in Hrun. by econstructor.
Qed.
(** Where the first instruction with a property starts, or 0. *)
Fixpoint firstAt (f : list Z -> bool) (at0 : Z) (ins : list (list Z)) : Z :=
  match ins with [] => 0 | i :: ins => if f i then at0 else firstAt f (at0 + size i) ins end.
(** The scan's findings in closed form. *)
Record PsFound (inp : EngineVelocityInputs) (at0 : Z) (ins : list (list Z)) (s s' : PsScan) : Prop := {
  pf_allowed : Forall (fun i => supported i /\ occupiesTarget i = false /\ (declaresPosition inp i = true -> opcode i = kOpDclInputPsSiv) /\
                                (slotFromVsPatch inp = true -> isPsInput i && (at_ i 2 =? identityRegister inp) = false)) ins;
  pf_firstOutput : firstOutput s' = if firstOutput s =? 0 then firstAt isOutput at0 ins else firstOutput s;
  pf_firstExecutable : firstExecutable s' = if firstExecutable s =? 0 then firstAt isExecutable at0 ins else firstExecutable s;
  pf_temps : if tempAt s =? 0
             then tempAt s' = firstAt isTemps at0 ins /\ forall before tm after, ins = before ++ tm :: after -> isTemps tm = true ->
                    Forall (fun i => isTemps i = false) (before ++ after) /\ size tm = 2 /\ at_ tm 1 <= 4092 /\ tempCount s' = at_ tm 1
             else tempAt s' = tempAt s /\ tempCount s' = tempCount s /\ Forall (fun i => isTemps i = false) ins;
  pf_noTemps : Forall (fun i => isTemps i = false) ins -> tempCount s' = tempCount s;
  pf_identity : identityDeclared s' = identityDeclared s || existsb (declaresIdentity inp) ins;
  pf_position : positionDeclared s' = positionDeclared s || existsb (declaresPosition inp) ins;
  pf_returns : existsb isRet ins = false -> returns s' = returns s }.
Lemma PsRun_found inp at0 ins s s' : 0 < at0 -> Forall instrOk ins -> PsRun inp at0 ins s s' -> PsFound inp at0 ins s s'.
Proof.
  intros Hat Hok H. induction H as [at0 s|at0 i ins s s1 s2 Hone _ IH].
  { split; cbn; rewrite ?orb_false_r; try done.
    - by destruct (Z.eqb_spec (firstOutput s) 0).
    - by destruct (Z.eqb_spec (firstExecutable s) 0).
    - destruct (Z.eqb_spec (tempAt s) 0); [|done]. split; [done|]. intros [|? before]; done. }
  apply Forall_cons in Hok as [Hi Hok]. pose proof (instrOk_pos i Hi). destruct (IH ltac:(lia) Hok) as [I1 I2 I3 I4 I5 I6 I7 I8]. destruct Hone. clear IH.
  split; cbn [firstAt existsb].
  - by constructor.
  - rewrite I2, po_firstOutput0. destruct (Z.eqb_spec (firstOutput s) 0) as [E|E]; cbn [andb].
    + destruct (isOutput i); [by rewrite (proj2 (Z.eqb_neq at0 0)) by lia|by rewrite E].
    + by rewrite (proj2 (Z.eqb_neq _ _) E).
  - rewrite I3, po_firstExecutable0. destruct (Z.eqb_spec (firstExecutable s) 0) as [E|E]; cbn [andb].
    + destruct (isExecutable i); [by rewrite (proj2 (Z.eqb_neq at0 0)) by lia|by rewrite E].
    + by rewrite (proj2 (Z.eqb_neq _ _) E).
  - rewrite po_tempAt0 in I4. destruct (isTemps i) eqn:Et.
    + destruct (po_temps0 eq_refl) as (T1 & T2 & T3). rewrite T1. cbn [Z.eqb]. rewrite (proj2 (Z.eqb_neq at0 0)) in I4 by lia.
      destruct I4 as (-> & -> & Hno). split; [done|]. intros [|b before] tm after Heq Htm; simplify_eq/=.
      * split_and!; done.
      * exfalso. apply Forall_app in Hno as (_ & Hno). apply Forall_cons in Hno as (Hno & _). congruence.
    + destruct (Z.eqb_spec (tempAt s) 0) as [E|E].
      * destruct I4 as (-> & Hu). split; [done|]. intros [|b before] tm after Heq Htm; simplify_eq/=; [congruence|].
        destruct (Hu before tm after eq_refl Htm) as (A & B & C & D). split_and!; [by constructor|done|done|done].
      * destruct I4 as (-> & -> & Hno). split_and!; [done|done|by constructor].
  - intros Hno. apply Forall_cons in Hno as (Hn & Hno). by rewrite I5, po_tempCount0, Hn by done.
  - by rewrite I6, po_identity0, orb_assoc.
  - by rewrite I7, po_declared0, orb_assoc.
  - intros Hno. apply orb_false_iff in Hno as (Hr & Hno). rewrite I8 by done. by apply po_returns0.
Qed.
(** Starts of instructions. *)
Definition startOf (at0 : Z) (ins : list (list Z)) (k : nat) : Z := at0 + size (concat (take k ins)).
Lemma startOf_S at0 i ins k : startOf at0 (i :: ins) (S k) = startOf (at0 + size i) ins k.
Proof. unfold startOf. cbn [take concat]. rewrite size_app. lia. Qed.
Lemma startOf_0 at0 ins : startOf at0 ins 0 = at0.
Proof. unfold startOf. cbn. apply Z.add_0_r. Qed.
Lemma startOf_ge at0 ins k : at0 <= startOf at0 ins k.
Proof. unfold startOf. pose proof (size_nonneg (concat (take k ins))). lia. Qed.
Lemma startOf_eqb at0 ins j k : Forall instrOk ins -> (j < length ins)%nat -> (k < length ins)%nat ->
  (startOf at0 ins j =? startOf at0 ins k) = bool_decide (j = k).
Proof.
  intros Hok. revert at0 j k. induction Hok as [|i ins Hi _ IH]; intros at0 j k Hj Hk; cbn [length] in *; [lia|].
  pose proof (instrOk_pos i Hi). destruct j as [|j], k as [|k]; rewrite ?startOf_S, ?startOf_0.
  - by rewrite Z.eqb_refl.
  - apply Z.eqb_neq. pose proof (startOf_ge (at0 + size i) ins k). lia.
  - apply Z.eqb_neq. pose proof (startOf_ge (at0 + size i) ins j). lia.
  - rewrite IH by lia. apply bool_decide_ext. lia.
Qed.
Lemma firstAt_index f ins : forall at0, firstAt f at0 ins <> 0 ->
  exists k i, ins !! k = Some i /\ f i = true /\ (forall j x, (j < k)%nat -> ins !! j = Some x -> f x = false) /\ firstAt f at0 ins = startOf at0 ins k.
Proof.
  induction ins as [|i ins IH]; intros at0 H; cbn [firstAt] in *; [done|]. destruct (f i) eqn:E.
  - exists 0%nat, i. rewrite startOf_0. split_and!; [done|done| |done]. intros j x Hj. lia.
  - destruct (IH _ H) as (k & x & Hk & Hx & Hlt & ->). exists (S k), x. rewrite startOf_S. split_and!; [done|done| |done].
    intros [|j] y Hj Hy; cbn in *; [congruence|]. apply (Hlt j); [lia|done].
Qed.
Lemma firstAt_none f ins : forall at0, 0 < at0 -> Forall instrOk ins -> firstAt f at0 ins = 0 -> Forall (fun i => f i = false) ins.
Proof.
  induction ins as [|i ins IH]; intros at0 Hat Hok H; cbn [firstAt] in *; [done|]. apply Forall_cons in Hok as [Hi Hok]. pose proof (instrOk_pos i Hi).
  destruct (f i) eqn:E; [lia|]. constructor; [done|]. apply (IH (at0 + size i)); [lia|done|done].
Qed.
Fixpoint pieces (w : Z -> list Z -> list Z) (at0 : Z) (ins : list (list Z)) : list Z :=
  match ins with [] => [] | i :: ins => w at0 i ++ pieces w (at0 + size i) ins end.
Lemma pieces_imap w ins : forall at0, pieces w at0 ins = concat (imap (fun k i => w (startOf at0 ins k) i) ins).
Proof.
  induction ins as [|i ins IH]; intros at0; cbn [pieces]; [done|]. rewrite imap_cons. cbn [concat]. rewrite startOf_0. f_equal. rewrite IH. f_equal.
  apply imap_ext. intros k x _. by rewrite <-startOf_S.
Qed.
(** What is written for one instruction, by where it starts. *)
Definition psPiece (inp : EngineVelocityInputs) (s : PsScan) (at0 : Z) (i : list Z) : list Z :=
  (if at0 =? firstOutput s then (if positionDeclared s then [] else posDecl inp) ++ (if slotFromVsPatch inp then slotDecl inp else []) else []) ++
  if negb (tempAt s =? 0) && (at0 =? tempAt s) then outDecl ++ [at_ i 0; u32 (tempCount s + 1)]
  else (if (tempAt s =? 0) && (at0 =? firstExecutable s) then outDecl ++ [0x02000068; 1] else []) ++
       (if isRet i then psTail inp (tempCount s) else []) ++ liven inp i.
Lemma isRet_liven inp i : isRet (liven inp i) = isRet i.
Proof. unfold isRet. by rewrite opcode_liven. Qed.
Lemma run_psWrite inp s ins : forall p out flag, ps_t s = p ++ concat (map (liven inp) ins) -> Forall instrOk ins ->
  exists flag', run (psWriteStep inp s) (size p) (map (liven inp) ins) (out, flag) = inr (out ++ pieces (psPiece inp s) (size p) ins, flag').
Proof.
  induction ins as [|i ins IH]; intros p out flag Ht Hok; cbn [map run concat pieces] in *; [exists flag; by rewrite app_nil_r|].
  apply Forall_cons in Hok as [Hi Hok]. pose proof (instrOk_pos i Hi). rewrite size_liven.
  assert (exists flag1, psWriteStep inp s (size p) (size i) (out, flag) = inr (out ++ psPiece inp s (size p) i, flag1)) as (flag1 & ->).
  { exists (if negb (tempAt s =? 0) && (size p =? tempAt s) then true else flag || ((tempAt s =? 0) && (size p =? firstExecutable s))).
    unfold psWriteStep, psPiece. rewrite Ht, at_head by (by rewrite size_liven). rewrite <-(size_liven inp i), slice_in. fold (opcode (liven inp i)) (isRet (liven inp i)).
    rewrite isRet_liven, liven_head by done. destruct (size p =? firstOutput s), (tempAt s =? 0), (size p =? tempAt s), (size p =? firstExecutable s), (isRet i);
      cbn [negb andb orb mret Res_ret]; by rewrite ?orb_true_r, ?orb_false_r, ?app_nil_r, ?app_nil_l, <-?app_assoc. }
  cbn [mbind Res_bind]. replace (size p + size i) with (size (p ++ liven inp i)) by (by rewrite size_app, size_liven).
  destruct (IH (p ++ liven inp i) (out ++ psPiece inp s (size p) i) flag1) as (flag' & E); [by rewrite Ht, <-app_assoc|done|].
  exists flag'. rewrite E. by rewrite <-app_assoc.
Qed.
(** What a pixel program needs: its first output is instruction [ko]; its temps, as
    many as [count], are declared by instruction [km], or not at all and [km] is the
    first instruction that is no declaration. *)
Record PsShape (inp : EngineVelocityInputs) (ins : list (list Z)) (ko km : nat) (temps : bool) (count : Z) : Prop := {
  ps_ok : Forall instrOk ins;
  ps_allowed : Forall (fun i => supported i /\ occupiesTarget i = false /\ (declaresPosition inp i = true -> opcode i = kOpDclInputPsSiv) /\
                                (slotFromVsPatch inp = true -> isPsInput i && (at_ i 2 =? identityRegister inp) = false)) ins;
  ps_output : exists o, ins !! ko = Some o /\ isOutput o = true /\ forall j x, (j < ko)%nat -> ins !! j = Some x -> isOutput x = false;
  ps_mark : exists m, ins !! km = Some m /\
    if temps then isTemps m = true /\ size m = 2 /\ count = at_ m 1 /\ 0 <= count <= 4092 /\ (forall j x, j <> km -> ins !! j = Some x -> isTemps x = false)
    else Forall (fun i => isTemps i = false) ins /\ count = 0 /\ isExecutable m = true /\
         (forall j x, (j < km)%nat -> ins !! j = Some x -> isExecutable x = false);
  ps_returns : existsb isRet ins = true;
  ps_identity : slotFromVsPatch inp = true \/ existsb (declaresIdentity inp) ins = true }.
(** What stands in place of instruction [i], the [k]th. *)
Definition psPlace (inp : EngineVelocityInputs) (ins : list (list Z)) (ko km : nat) (temps : bool) (count : Z) (k : nat) (i : list Z) : list Z :=
  (if bool_decide (k = ko)
   then (if existsb (declaresPosition inp) ins then [] else posDecl inp) ++ (if slotFromVsPatch inp then slotDecl inp else []) else []) ++
  (if bool_decide (k = km) then outDecl ++ (if temps then [at_ i 0; count + 1] else [0x02000068; 1]) else []) ++
  (if bool_decide (k = km) && temps then [] else (if isRet i then psTail inp count else []) ++ liven inp i).
Definition psPatched (inp : EngineVelocityInputs) (ins : list (list Z)) (ko km : nat) (temps : bool) (count : Z) : list Z :=
  concat (imap (psPlace inp ins ko km temps count) ins).
Lemma split_at {A} (l : list A) k x : l !! k = Some x -> exists before after, l = before ++ x :: after /\ length before = k.
Proof. intros H. apply list_elem_of_split_length in H as (before & after & -> & ->). by exists before, after. Qed.
Lemma lookup_around {A} (before after : list A) x j y : (before ++ x :: after) !! j = Some y -> j <> length before -> y ∈ before ++ after.
Proof.
  intros H Hj. apply lookup_app_Some in H as [H|(Hge & H)]; apply elem_of_app; [left; by eapply list_elem_of_lookup_2|right].
  destruct (j - length before)%nat as [|n] eqn:E; [lia|]. cbn in H. by eapply list_elem_of_lookup_2.
Qed.
(** The scan of an accepted program has the shape, and its marks are where the shape says. *)
Lemma found_shape inp ins s s0 : Forall instrOk ins -> Forall is_u32 (concat ins) -> s0 = mkPsScan (ps_t s0) 0 0 0 0 0 false false -> PsFound inp 2 ins s0 s ->
  firstOutput s <> 0 -> returns s <> 0 -> (slotFromVsPatch inp = true \/ identityDeclared s = true) -> (tempAt s <> 0 \/ firstExecutable s <> 0) ->
  exists ko km, PsShape inp ins ko km (negb (tempAt s =? 0)) (tempCount s) /\ firstOutput s = startOf 2 ins ko /\ (ko < length ins)%nat /\
    (km < length ins)%nat /\ (if tempAt s =? 0 then firstExecutable s = startOf 2 ins km else tempAt s = startOf 2 ins km) /\
    positionDeclared s = existsb (declaresPosition inp) ins.
Proof.
  intros Hok Hu E0 [F1 F2 F3 F4 F5 F6 F7 F8] Ho Hr Hid Htx. rewrite E0 in F2, F3, F4, F5, F6, F7, F8.
  cbn [firstOutput firstExecutable tempAt tempCount identityDeclared positionDeclared returns Z.eqb orb] in *.
  rewrite F2 in Ho. destruct (firstAt_index _ _ _ Ho) as (ko & o & Hko & Hoo & Hlt & Eo).
  assert (existsb isRet ins = true) as Hret by (destruct (existsb isRet ins); [done|]; by rewrite F8 in Hr).
  rewrite F6 in Hid. destruct F4 as (F4 & Huniq). destruct (Z.eqb_spec (tempAt s) 0) as [Et|Et]; cbn [negb].
  - destruct Htx as [|Htx]; [done|]. rewrite F3 in Htx. destruct (firstAt_index _ _ _ Htx) as (km & m & Hkm & Hm & Hmlt & Em).
    assert (Forall (fun i => isTemps i = false) ins) as Hno by (eapply firstAt_none; [|done|by rewrite <-F4]; lia).
    exists ko, km. split_and!; [|by rewrite F2|by eapply lookup_lt_Some|by eapply lookup_lt_Some|by rewrite F3|done].
    rewrite (F5 Hno). split; [done|done|by exists o|by exists m|done|done].
  - rewrite F4 in Et. destruct (firstAt_index _ _ _ Et) as (km & m & Hkm & Hm & Hmlt & Em).
    exists ko, km. split_and!; [|by rewrite F2|by eapply lookup_lt_Some|by eapply lookup_lt_Some|by rewrite F4|done].
    destruct (split_at _ _ _ Hkm) as (before & after & Eins & Hlen). destruct (Huniq before m after Eins Hm) as (Hno & Hm2 & Hm1 & ->).
    split; [done|done|by exists o| |done|done]. exists m. split_and!; [done|done|done|done| |done|].
    + rewrite Eins, concat_app, Forall_app in Hu. destruct Hu as (_ & Hu). cbn [concat] in Hu. apply Forall_app in Hu as (Hu & _).
      unfold at_. destruct m as [|a [|b [|? ?]]]; unfold size in Hm2; cbn [length] in Hm2; try lia. apply Forall_cons in Hu as (_ & Hu). apply Forall_cons in Hu as (Hb & _).
      cbn. apply Hb.
    + intros j x Hj Hx. rewrite Eins in Hx. apply (lookup_around before after m) in Hx; [|lia]. rewrite Forall_forall in Hno. by apply Hno.
Qed.
Lemma pieces_placed inp ins s ko km : Forall instrOk ins -> PsShape inp ins ko km (negb (tempAt s =? 0)) (tempCount s) ->
  firstOutput s = startOf 2 ins ko -> (ko < length ins)%nat -> (km < length ins)%nat ->
  (if tempAt s =? 0 then firstExecutable s = startOf 2 ins km else tempAt s = startOf 2 ins km) ->
  positionDeclared s = existsb (declaresPosition inp) ins ->
  pieces (psPiece inp s) 2 ins = psPatched inp ins ko km (negb (tempAt s =? 0)) (tempCount s).
Proof.
  intros Hok Hsh Eo Hko Hkm Em Ep. rewrite pieces_imap. unfold psPatched. f_equal. apply imap_ext. intros k i Hk.
  apply lookup_lt_Some in Hk. unfold psPiece, psPlace. rewrite Eo, startOf_eqb, Ep by done. f_equal.
  destruct Hsh as [_ _ _ (m & Hm & Hmark) _ _]. destruct (Z.eqb_spec (tempAt s) 0) as [Et|Et]; cbn [negb andb] in *.
  - rewrite Em, startOf_eqb by done. rewrite andb_false_r. by destruct (bool_decide (k = km)).
  - rewrite Em, startOf_eqb by done. rewrite andb_true_r. destruct (bool_decide (k = km)); [|done]. rewrite app_nil_r. do 3 f_equal.
    apply u32_small. unfold is_u32, u32_max. lia.
Qed.
Lemma lor_u32 a b : is_u32 a -> is_u32 b -> is_u32 (Z.lor a b).
Proof.
  unfold is_u32, u32_max. intros Ha Hb. assert (0 <= Z.lor a b) as H0 by (apply Z.lor_nonneg; lia). split; [done|].
  destruct (Z.eq_dec (Z.lor a b) 0) as [->|]; [done|]. apply Z.lt_le_pred. apply Z.log2_lt_pow2; [lia|]. rewrite Z.log2_lor by lia.
  assert (forall x, 0 <= x < 2 ^ 32 -> Z.log2 x < 32) as Hl; [|pose proof (Hl a ltac:(lia)); pose proof (Hl b ltac:(lia)); lia].
  intros x Hx. destruct (Z.eq_dec x 0) as [->|]; [done|]. apply Z.log2_lt_pow2; lia.
Qed.
Definition InputsOk (inp : EngineVelocityInputs) : Prop := is_u32 (identityRegister inp) /\ is_u32 (positionRegister inp).
Lemma psPlace_words inp ins ko km temps count k i : InputsOk inp -> 0 <= count <= 4092 -> Forall is_u32 i -> 1 <= size i ->
  Forall is_u32 (psPlace inp ins ko km temps count k i) /\ size (psPlace inp ins ko km temps count k i) <= 39 * size i.
Proof.
  intros (Hi & Hp) Hc Hu Hs. assert (is_u32 count) by (unfold is_u32, u32_max; lia). assert (is_u32 (count + 1)) by (unfold is_u32, u32_max; lia).
  assert (is_u32 (Z.lor 0x0010100A (u32 (Z.shiftl (identityComponent inp) 4)))) by (apply lor_u32; [unfold is_u32, u32_max; lia|apply u32_range]).
  assert (is_u32 (at_ i 0)) as Hh by (destruct i; [done|by apply Forall_cons in Hu as (? & _)]).
  assert (Forall is_u32 (liven inp i)) as Hl.
  { unfold liven. destruct (declaresPosition inp i); [|done]. apply Forall_insert; [done|]. apply lor_u32; [|unfold is_u32, u32_max; lia].
    unfold at_. rewrite nth_lookup. destruct (i !! Z.to_nat 1) eqn:El; cbn; [by eapply Forall_lookup_1|unfold is_u32, u32_max; lia]. }
  assert (Forall is_u32 (psTail inp count)) by (unfold psTail; u32s). assert (Forall is_u32 (posDecl inp)) by (unfold posDecl; u32s).
  assert (Forall is_u32 (slotDecl inp)) by (unfold slotDecl; u32s). assert (Forall is_u32 outDecl) by (unfold outDecl, kEngineVelocityTarget; u32s).
  assert (Forall is_u32 [at_ i 0; count + 1]) by u32s. assert (Forall is_u32 [0x02000068; 1]) by u32s.
  unfold psPlace. split.
  - repeat case_match; repeat match goal with |- Forall _ (_ ++ _) => apply Forall_app; split end; first [assumption | by constructor].
  - rewrite !size_app. pose proof (size_liven inp i). repeat case_match; unfold posDecl, slotDecl, outDecl, psTail; rewrite ?size_app; unfold size in *; cbn [length] in *; lia.
Qed.
Lemma psPatched_words inp ins ko km temps count : InputsOk inp -> 0 <= count <= 4092 -> Forall instrOk ins -> Forall is_u32 (concat ins) ->
  Forall is_u32 (psPatched inp ins ko km temps count) /\ size (psPatched inp ins ko km temps count) <= 39 * size (concat ins).
Proof.
  intros Hi Hc Hok Hu. unfold psPatched. generalize (psPlace_words inp ins ko km temps count). generalize (psPlace inp ins ko km temps count). intros f Hf.
  revert f Hf. induction Hok as [|i l Hio _ IH]; intros f Hf; [by split|]. cbn [concat] in Hu. apply Forall_app in Hu as (Hui & Hu).
  rewrite imap_cons. cbn [concat]. destruct (Hf 0%nat i Hi Hc Hui (instrOk_pos i Hio)) as (A & B). destruct (IH Hu (f ∘ S)) as (C & D); [intros; by apply Hf|].
  rewrite Forall_app, !size_app. split; [done|]. lia.
Qed.
(** Patching a pixel program. *)
Lemma patchPsProgram_spec bytes inp bytes' : InputsOk inp -> 8 <= size bytes <= 1024 * 1024 ->
  patchPsProgram bytes inp = inr bytes' ->
  exists t0 t1 ins ko km temps count, programWords bytes = t0 :: t1 :: concat ins /\ PsShape inp ins ko km temps count /\
    programWords bytes' = t0 :: (size (psPatched inp ins ko km temps count) + 2) :: psPatched inp ins ko km temps count.
Proof.
  intros Hin Hb H. unfold patchPsProgram in H. pose proof (programWords_range bytes) as Hr.
  destruct (programWords_two bytes Hb) as (t0 & t1 & q & Ew & Hq). rewrite Ew in H, Hr. apply Forall_cons in Hr as (Ht0 & Hr). apply Forall_cons in Hr as (_ & Hr).
  destruct (scan _ _ _ 2 _) as [|s] eqn:E; [done|]. cbn [mbind Res_bind] in H. change 2 with (size [t0; t1]) in E.
  apply (scan_ps inp _ [t0; t1] q) in E as (ins & -> & Hok & Hrun & Ht); [|done|cbn [length]; lia].
  apply PsRun_found in Hrun; [|done|done]. change (size [t0; t1]) with 2 in Hrun.
  destruct (Z.eqb_spec (firstOutput s) 0) as [|E1]; [done|]. destruct (Z.eqb_spec (returns s) 0) as [|E2]; [done|].
  destruct (negb (slotFromVsPatch inp) && negb (identityDeclared s)) eqn:E3; [done|]. destruct ((tempAt s =? 0) && (firstExecutable s =? 0)) eqn:E4; [done|].
  edestruct (found_shape inp ins s) as (ko & km & Hsh & Eo & Hko & Hkm & Em & Ep); [done|done| |exact Hrun|done|done|..]; [done| | |].
  { destruct (slotFromVsPatch inp), (identityDeclared s); by auto. }
  { apply andb_false_iff in E4 as [E4|E4]; apply Z.eqb_neq in E4; by auto. }
  assert (Forall instrOk (map (liven inp) ins)) as Hok' by (apply Forall_map; eapply Forall_impl; [exact Hok|apply instrOk_liven]).
  assert (exists flag, scan (fun _ => ps_t s) (psWriteStep inp s) (length (t0 :: t1 :: concat ins)) 2 ([at_ (ps_t s) 0; 0], false) =
    inr ([t0; 0] ++ pieces (psPiece inp s) 2 ins, flag)) as (flag & Ew2).
  { destruct (run_psWrite inp s ins [t0; t1] [t0; 0] false) as (flag & Er); [done|done|]. exists flag. rewrite Ht.
    replace (length (t0 :: t1 :: concat ins)) with (length (t0 :: t1 :: concat (map (liven inp) ins))); [|].
    - change ([t0; t1] ++ concat (map (liven inp) ins)) with (t0 :: t1 :: concat (map (liven inp) ins)). by rewrite scan_ok.
    - cbn [length]. do 2 f_equal. clear. induction ins as [|i ins IH]; [done|]. cbn [map concat]. rewrite !length_app, IH.
      pose proof (size_liven inp i). unfold size in *. lia. }
  rewrite Ew2 in H. cbn [mbind Res_bind] in H. destruct (negb flag); [done|]. injection H as <-.
  exists t0, t1, ins, ko, km, (negb (tempAt s =? 0)), (tempCount s). split_and!; [done|exact Hsh|].
  rewrite (pieces_placed inp ins s ko km) by done. assert (0 <= tempCount s <= 4092) as Hc.
  { destruct Hsh as [_ _ _ (m & _ & Hm) _ _]. destruct (tempAt s =? 0); cbn [negb] in Hm; [destruct Hm as (_ & -> & _); lia|apply Hm]. }
  destruct (psPatched_words inp ins ko km (negb (tempAt s =? 0)) (tempCount s) Hin Hc Hok Hr) as (Hw & Hz).
  apply (programWords_programBytes t0 0); [done|done|unfold u32_max; lia].
Qed.

(** ** Sorting *)
Lemma insertByRegister_perm e l : Permutation (insertByRegister e l) (e :: l).
Proof. induction l as [|x l IH]; cbn; [done|]. destruct (_ <? _); [done|]. rewrite IH. by apply Permutation_swap. Qed.
Lemma sortByRegister_perm es : Permutation (sortByRegister es) es.
Proof.
  unfold sortByRegister. assert (forall acc, Permutation (fold_left (fun sorted e => insertByRegister e sorted) es acc) (acc ++ es)) as H; [|by rewrite H].
  induction es as [|e es IH]; intros acc; cbn [fold_left]; [by rewrite app_nil_r|]. rewrite IH, insertByRegister_perm. cbn. by rewrite Permutation_middle.
Qed.
Lemma insertByRegister_sorted e l : StronglySorted (fun a b => registerIndex a <= registerIndex b) l ->
  StronglySorted (fun a b => registerIndex a <= registerIndex b) (insertByRegister e l).
Proof.
  induction 1 as [|x l Hs IH Hx]; cbn; [by repeat constructor|]. destruct (Z.ltb_spec (registerIndex e) (registerIndex x)).
  - constructor; [by constructor|]. constructor; [lia|]. eapply Forall_impl; [exact Hx|]. cbn. lia.
  - constructor; [done|]. rewrite insertByRegister_perm. by constructor.
Qed.
Lemma sortByRegister_sorted es : StronglySorted (fun a b => registerIndex a <= registerIndex b) (sortByRegister es).
Proof.
  unfold sortByRegister. assert (forall acc, StronglySorted (fun a b => registerIndex a <= registerIndex b) acc ->
    StronglySorted (fun a b => registerIndex a <= registerIndex b) (fold_left (fun sorted e => insertByRegister e sorted) es acc)) as H; [|by apply H; constructor].
  induction es as [|e es IH]; intros acc Hacc; cbn [fold_left]; [done|]. by apply IH, insertByRegister_sorted.
Qed.

(** ** The vertex container *)
(** What becomes of one chunk. *)
Definition vsChunkBecomes (inputs : EngineVelocityInputs) (c c' : Chunk) : Prop :=
  tag c' = tag c /\
  if tag c =? kTagOsgn then exists es, parseSignature (c_bytes c) = inr es /\ Forall (fun e => registerIndex e <> identityRegister inputs) es /\
                                       parseSignature (c_bytes c') = inr (sortByRegister (es ++ [vsSlot inputs]))
  else if isProgram (tag c) then patchVsProgram (c_bytes c) (identityRegister inputs) = inr (c_bytes c')
  else c' = c.
Definition countTag (f : Z -> bool) (cs : list Chunk) : nat := length (filter (fun c => f (tag c) = true) cs).
Lemma vsSignature_becomes inputs bytes bytes' : 0 <= identityRegister inputs < 32 -> vsSignature inputs bytes = inr bytes' ->
  exists es, parseSignature bytes = inr es /\ Forall (fun e => registerIndex e <> identityRegister inputs) es /\
    parseSignature bytes' = inr (sortByRegister (es ++ [vsSlot inputs])) /\ size bytes' <= 2 ^ 16.
Proof.
  intros Hid H. unfold vsSignature in H. destruct (parseSignature bytes) as [|es] eqn:E; [done|]. cbn [mbind Res_bind] in H.
  destruct (existsb _ es) eqn:Ex; [done|]. exists es. split; [done|]. split.
  { apply Forall_forall. intros e He Heq. apply not_true_iff_false in Ex. apply Ex, existsb_exists. exists e. split; [by apply list_elem_of_In|]. by apply Z.eqb_eq. }
  apply parseSignature_sound in E as (Hp & _). apply made_reads_back in H as (H & Hs); [split; [done|lia]|].
  rewrite sortByRegister_perm. apply Forall_app. split; [done|]. constructor; [|done]. split; [done|repeat (constructor; [done|]); constructor|cbn; lia|done].
Qed.
Lemma size_programBytes ws : size (programBytes ws) = 4 * size ws.
Proof.
  unfold programBytes, size. rewrite <-(length_insert ws 1 (u32 (Z.of_nat (length ws)))) at 2. generalize (<[1%nat:=u32 (Z.of_nat (length ws))]> ws). clear ws. intros ws.
  induction ws as [|w ws IH]; [done|]. cbn [map concat length]. rewrite length_app, length_leBytes. lia.
Qed.
Lemma patchVsProgram_bytes bytes slot bytes' : patchVsProgram bytes slot = inr bytes' -> exists ws, bytes' = programBytes ws.
Proof.
  unfold patchVsProgram. intros H. destruct (scan _ _ _ _ (mkVsScan _ _ _)); [done|]. cbn [mbind Res_bind] in H. repeat (case_match; [done|]).
  destruct (scan _ _ _ _ [_; 0]) as [|ws]; [done|]. cbn in H. injection H as <-. by exists ws.
Qed.
Lemma programWords_words bytes t0 t1 q : programWords bytes = t0 :: t1 :: q -> 8 <= size bytes -> word bytes 0 = inr t0 /\ word bytes 4 = inr t1.
Proof.
  intros H Hs. unfold word. rewrite !(proj2 (Z.ltb_ge _ _)) by lia. cbn [orb]. unfold programWords in H.
  assert (2 <= length bytes / 4)%nat as Hl by (apply (Nat.div_le_lower_bound _ 4); unfold size in Hs; lia).
  destruct (length bytes / 4)%nat as [|[|n]]; [lia|lia|]. cbn [seq map] in H. simplify_eq. done.
Qed.
(** A rebuilt program has a header that is accepted. *)
Lemma rebuilt_header expected bytes t0 t1 q ws rest : programWords bytes = t0 :: t1 :: q -> programHeaderOk expected bytes = inr true ->
  programWords (programBytes ws) = t0 :: (size rest + 2) :: rest ->
  programHeaderOk expected (programBytes ws) = inr true /\ size (programBytes ws) = 4 * (size rest + 2).
Proof.
  intros Ew Hh Ew'. unfold programHeaderOk in Hh. destruct (_ || _) eqn:E; [done|]. apply orb_false_iff in E as (E & _). apply Z.ltb_ge in E.
  destruct (programWords_words _ _ _ _ Ew E) as (E0 & _). rewrite E0 in Hh. cbn [mbind Res_bind] in Hh. destruct (Z.eqb_spec t0 expected) as [->|]; [clear Hh|done].
  assert (size (programWords (programBytes ws)) = size ws) as Ez.
  { pose proof (size_programBytes ws) as Hz. unfold size in *. rewrite programWords_length. rewrite (Nat2Z.inj_div), Hz. change (Z.of_nat 4) with 4. rewrite Z.mul_comm. by apply Z.div_mul. }
  rewrite Ew', !size_cons in Ez. pose proof (size_nonneg rest). pose proof (size_programBytes ws) as Hzb.
  destruct (programWords_words _ _ _ _ Ew' ltac:(lia)) as (E0' & E1'). split; [|lia].
  unfold programHeaderOk. rewrite (proj2 (Z.ltb_ge _ _)) by lia. change 3 with (Z.ones 2). rewrite Z.land_ones by lia. change (2 ^ 2) with 4.
  assert (size (programBytes ws) mod 4 = 0) as -> by (rewrite Hzb, Z.mul_comm; by apply Z.mod_mul). cbn [Z.eqb negb orb]. rewrite E0', E1'. cbn [mbind Res_bind].
  rewrite Z.eqb_refl. cbn [mret Res_ret negb]. f_equal. apply Z.eqb_eq. rewrite Hzb. Z.div_mod_to_equations. lia.
Qed.
Lemma header_size expected bytes : programHeaderOk expected bytes = inr true -> 8 <= size bytes.
Proof. unfold programHeaderOk. destruct (Z.ltb_spec (size bytes) 8); [done|]. done. Qed.
Lemma patchVsProgram_header bytes slot bytes' : is_u32 slot -> size bytes <= 1024 * 1024 -> programHeaderOk kVs50 bytes = inr true ->
  patchVsProgram bytes slot = inr bytes' -> programHeaderOk kVs50 bytes' = inr true /\ size bytes' <= 2 ^ 26.
Proof.
  intros Hs Hmax Hh H. pose proof (header_size _ _ Hh) as H8. pose proof (programWords_range bytes) as Hr.
  destruct (patchVsProgram_bytes _ _ _ H) as (ws & ->). apply patchVsProgram_spec in H as (t0 & t1 & q & before & o & after & Ew & [-> Hok _ _ _ _ _] & Ew'); [|done|lia].
  destruct (rebuilt_header _ _ _ _ _ _ _ Ew Hh Ew') as (A & B). split; [done|].
  destruct (programWords_two bytes ltac:(lia)) as (? & ? & q & Ew2 & Hq). rewrite Ew in Ew2, Hr. simplify_eq.
  apply Forall_cons in Hr as (_ & Hr). apply Forall_cons in Hr as (_ & Hr). destruct (vsPatched_words slot before o after Hs Hok Hr) as (_ & Hz). lia.
Qed.
Lemma patchPsProgram_bytes bytes inp bytes' : patchPsProgram bytes inp = inr bytes' -> exists ws, bytes' = programBytes ws.
Proof.
  unfold patchPsProgram. intros H. destruct (scan ps_t _ _ _ _); [done|]. cbn [mbind Res_bind] in H. repeat (case_match; [done|]).
  destruct (scan _ _ _ _ (_, false)) as [|[ws flag]]; [done|]. cbn in H. destruct (negb flag); [done|]. injection H as <-. by exists ws.
Qed.
Lemma patchPsProgram_header bytes inp bytes' : InputsOk inp -> size bytes <= 1024 * 1024 -> programHeaderOk kPs50 bytes = inr true ->
  patchPsProgram bytes inp = inr bytes' -> programHeaderOk kPs50 bytes' = inr true /\ size bytes' <= 2 ^ 26.
Proof.
  intros Hs Hmax Hh H. pose proof (header_size _ _ Hh) as H8. pose proof (programWords_range bytes) as Hr.
  destruct (patchPsProgram_bytes _ _ _ H) as (ws & ->). apply patchPsProgram_spec in H as (t0 & t1 & ins & ko & km & temps & count & Ew & Hsh & Ew'); [|done|lia].
  destruct (rebuilt_header _ _ _ _ _ _ _ Ew Hh Ew') as (A & B). split; [done|].
  destruct (programWords_two bytes ltac:(lia)) as (? & ? & q & Ew2 & Hq). rewrite Ew in Ew2, Hr. simplify_eq.
  apply Forall_cons in Hr as (_ & Hr). apply Forall_cons in Hr as (_ & Hr). destruct Hsh as [Hok _ _ (m & _ & Hm) _ _].
  assert (0 <= count <= 4092) as Hc by (destruct temps; [apply Hm|destruct Hm as (_ & -> & _); lia]).
  destruct (psPatched_words inp ins ko km temps count Hs Hc Hok Hr) as (_ & Hz). lia.
Qed.

(** ** Containers rebuilt chunk by chunk *)
(** A chunk as a container gives it, and as a patch leaves it. *)
Definition chunkFits (c : Chunk) : Prop := ChunkOk c /\ size (c_bytes c) <= 1024 * 1024.
Definition grown (c : Chunk) : Prop := ChunkOk c /\ size (c_bytes c) <= if isProgram (tag c) then 2 ^ 26 else 1024 * 1024.
Definition headed (expected : Z) (c : Chunk) : Prop := isProgram (tag c) = true -> programHeaderOk expected (c_bytes c) = inr true.
Lemma parsed_fits data expected cs : parseContainer data expected = inr cs ->
  Forall chunkFits cs /\ OneProgram expected false cs /\ (length cs <= 128)%nat.
Proof.
  intros H. apply parseContainer_sound in H as (input & p & _ & Hsz & _ & _ & _ & Hn & Hp & Hat). split_and!; [|apply oneProgram_false; by exists p|done].
  apply Forall_lookup. intros i c Hc. destruct (Hat i c Hc) as (off & Ho & Ht & Hs & Hin & _). split; [by eapply word_range|].
  apply word_range in Ho. lia.
Qed.
Lemma oneProgram_headers expected seen cs : OneProgram expected seen cs -> Forall (headed expected) cs.
Proof.
  revert seen. induction cs as [|c cs IH]; intros seen H; [done|]. cbn [OneProgram] in H. unfold headed. destruct (isProgram (tag c)) eqn:E.
  - destruct H as (_ & Hh & H). constructor; [done|by eapply IH].
  - constructor; [congruence|by eapply IH].
Qed.
Lemma grown_sum expected seen cs : OneProgram expected seen cs -> Forall grown cs ->
  Z.of_nat (sum_list_with (fun c => 15 + length (c_bytes c))%nat cs) <= (1024 * 1024 + 15) * size cs + if seen then 0 else 2 ^ 26.
Proof.
  intros Hone Hg. revert seen Hone. induction Hg as [|c cs (_ & Hc) _ IH]; intros seen Hone; [by destruct seen|]. cbn [sum_list_with OneProgram] in *. rewrite size_cons.
  destruct (isProgram (tag c)); [destruct Hone as (-> & _ & Hone)|]; specialize (IH _ Hone); unfold size in *; lia.
Qed.
Section Rebuilt.
Context {S : Type} (expected : Z) (chunksOf : S -> list Chunk) (step : nat -> Chunk -> S -> Res S) (becomes : Chunk -> Chunk -> Prop).
Context (becomes_tag : forall c c', becomes c c' -> tag c' = tag c).
Context (step_one : forall k c s s', chunkFits c -> headed expected c -> step k c s = inr s' ->
  exists c', chunksOf s' = chunksOf s ++ [c'] /\ becomes c c' /\ grown c' /\ headed expected c').
Lemma rebuild_run cs : forall k s s', Forall chunkFits cs -> Forall (headed expected) cs -> loop step k cs s = inr s' ->
  exists cs', chunksOf s' = chunksOf s ++ cs' /\ Forall2 becomes cs cs' /\ Forall grown cs' /\ Forall (headed expected) cs'.
Proof.
  induction cs as [|c cs IH]; intros k s s' Hf Hh H; cbn [loop] in H.
  { injection H as <-. exists []. by rewrite app_nil_r. }
  apply Forall_cons in Hf as (Hc & Hf). apply Forall_cons in Hh as (Hhc & Hh). destruct (step k c s) as [|s1] eqn:E; [done|]. cbn [mbind Res_bind] in H.
  apply step_one in E as (c' & Hs1 & Hb & Hg & Hh'); [|done|done]. apply IH in H as (cs' & Hs & Hbs & Hgs & Hhs); [|done|done].
  exists (c' :: cs'). rewrite Hs, Hs1, <-app_assoc. split_and!; [done|by constructor..].
Qed.
Lemma oneProgram_becomes cs cs' : Forall2 becomes cs cs' -> forall seen, OneProgram expected seen cs -> Forall (headed expected) cs' -> OneProgram expected seen cs'.
Proof.
  induction 1 as [|c c' cs cs' Hc _ IH]; intros seen H Hh; [done|]. apply Forall_cons in Hh as (Hhc & Hh). cbn [OneProgram] in *. unfold headed in Hhc.
  rewrite (becomes_tag _ _ Hc) in *. destruct (isProgram (tag c)); [|by apply IH]. destruct H as (-> & _ & H). split_and!; [done|by apply Hhc|by apply IH].
Qed.
(** The container of the rebuilt chunks reads back as them, while it is within the limit. *)
Lemma rebuilt_reads_back data cs s s' out : parseContainer data expected = inr cs -> loop step 0 cs s = inr s' -> chunksOf s = [] ->
  makeContainer (chunksOf s') = inr out ->
  Forall2 becomes cs (chunksOf s') /\ Forall chunkFits cs /\ OneProgram expected false cs /\
  (size out <= 1024 * 1024 -> parseContainer (Some out) expected = inr (chunksOf s')).
Proof.
  intros Hp Hl Hs Hm. apply parsed_fits in Hp as (Hf & Hone & Hn). apply rebuild_run in Hl as (cs' & Hs' & Hb & Hg & Hh); [|done|by eapply oneProgram_headers].
  rewrite Hs' in *. rewrite Hs in *. cbn [app] in *. split_and!; [done..|]. intros Hmib.
  pose proof (oneProgram_becomes _ _ Hb _ Hone Hh) as Hone'. pose proof (grown_sum _ _ _ Hone' Hg) as Hsum. rewrite (Forall2_length _ _ _ Hb) in Hn.
  apply oneProgram_false in Hone' as (p & Hp).
  destruct (container_reads_back expected cs' p) as (b & Hm' & Hr); [done|by eapply Forall_impl; [exact Hg|intros ? (? & _)]|done|unfold size in *; lia|].
  rewrite Hm in Hm'. injection Hm' as <-. by apply Hr.
Qed.
End Rebuilt.

(** ** The vertex container *)
Section VertexContainer.
Context (inputs : EngineVelocityInputs) (inputs_ok : 0 <= identityRegister inputs < 32).
Lemma slot_u32 : is_u32 (identityRegister inputs).
Proof using inputs_ok. unfold is_u32, u32_max. lia. Qed.
Lemma vsChunk_one k c s s' : chunkFits c -> headed kVs50 c -> vsChunk inputs k c s = inr s' ->
  exists c', s'.1.1 = s.1.1 ++ [c'] /\ vsChunkBecomes inputs c c' /\ grown c' /\ headed kVs50 c'.
Proof using inputs_ok.
  destruct s as [[chunks osgn] program]. intros (Hc & Hs) Hp H. unfold vsChunk in H. unfold vsChunkBecomes, headed, grown in *.
  destruct (Z.eqb_spec (tag c) kTagOsgn) as [Et|Et].
  - destruct osgn; [done|]. destruct (vsSignature inputs (c_bytes c)) as [|b] eqn:E; [done|]. cbn in H. injection H as <-.
    apply vsSignature_becomes in E as (es & E1 & E2 & E3 & E4); [|done]. exists (mkChunk (tag c) b). cbn [fst tag c_bytes]. rewrite Et in *. split_and!; [done|done| | |cbn; lia|done].
    + by exists es.
    + done.
  - destruct (isProgram (tag c)) eqn:Ep.
    + destruct program; [done|]. destruct (patchVsProgram (c_bytes c) _) as [|b] eqn:E; [done|]. cbn in H. injection H as <-.
      pose proof (patchVsProgram_header _ _ _ slot_u32 Hs (Hp eq_refl) E) as (Hh & Hb). exists (mkChunk (tag c) b). cbn [fst tag c_bytes]. by rewrite Ep.
    + injection H as <-. exists c. by rewrite Ep.
Qed.
(** The chunks of a patched container decline. *)
Lemma vsChunks_once cs cs' : Forall2 (vsChunkBecomes inputs) cs cs' -> Forall chunkFits cs -> OneProgram kVs50 false cs ->
  forall k chunks, loop (vsChunk inputs) k cs' (chunks, false, false) = throw "slot output register occupied".
Proof using inputs_ok.
  induction 1 as [|c c' cs cs' (Ht & Hb) _ IH]; intros Hf Hone k chunks; [done|]. apply Forall_cons in Hf as ((Hc & Hs) & Hf). cbn [loop]. unfold vsChunk.
  rewrite Ht. cbn [OneProgram] in Hone. destruct (Z.eqb_spec (tag c) kTagOsgn) as [Et|Et].
  - destruct Hb as (es & _ & _ & Hp). unfold vsSignature. rewrite Hp. cbn [mbind Res_bind].
    assert (existsb (fun e => registerIndex e =? identityRegister inputs) (sortByRegister (es ++ [vsSlot inputs])) = true) as ->; [|done].
    apply existsb_exists. exists (vsSlot inputs). split; [|apply Z.eqb_refl]. apply list_elem_of_In. rewrite sortByRegister_perm, elem_of_app. right. by constructor.
  - destruct (isProgram (tag c)) eqn:Ep.
    + destruct Hone as (_ & Hh & _). pose proof (header_size _ _ Hh) as H8. assert (8 <= size (c_bytes c) <= 1024 * 1024) as Hsz by lia.
      by rewrite (patchVsProgram_once _ _ _ slot_u32 Hsz Hb).
    + subst c'. cbn [mbind Res_bind mret Res_ret]. by apply IH.
Qed.
End VertexContainer.
(** C39. A vertex shader that is patched keeps every chunk but two as it was, and what
    comes out is a container again: it reads back as the rebuilt chunks, the output
    signature with the slot's element sorted in, the program as
    [patchVsProgram_spec] says, while it is within the limit that [parseContainer]
    sets.  It is not patched a second time. *)
Theorem patchVs_reads_back data inputs out why : 0 <= identityRegister inputs -> engineVelocityPatchVs data inputs = (true, out, why) ->
  exists cs cs', parseContainer data kVs50 = inr cs /\ Forall2 (vsChunkBecomes inputs) cs cs' /\ makeContainer cs' = inr out /\
    (size out <= 1024 * 1024 -> parseContainer (Some out) kVs50 = inr cs' /\
       engineVelocityPatchVs (Some out) inputs = (false, [], "slot output register occupied"%string)).
Proof.
  intros Hid H. unfold engineVelocityPatchVs, outcome in H. destruct (patchVsBody data inputs) as [|o] eqn:E; [done|]. injection H as -> _.
  unfold patchVsBody in E. destruct (_ || _) eqn:Eg; [done|]. pose proof Eg as Eg'. apply orb_false_iff in Eg as (Eg & Ec). apply orb_false_iff in Eg as (_ & Er). apply Z.leb_gt in Er.
  destruct (parseContainer data kVs50) as [|cs] eqn:Ep; [done|]. cbn [mbind Res_bind] in E.
  destruct (loop _ _ _ _) as [|[[cs' osgn] program]] eqn:El; [done|]. cbn [mbind Res_bind] in E. destruct (_ || _); [done|].
  eapply (rebuilt_reads_back kVs50 (fun s : list Chunk * bool * bool => s.1.1) (vsChunk inputs) (vsChunkBecomes inputs)) in El as (Hb & Hf & Hone & Hr);
    [|by intros ? ? (? & _)|by intros; eapply vsChunk_one; [lia|..]|exact Ep|done|exact E].
  exists cs, cs'. split_and!; [done|done|done|]. intros Hmib. specialize (Hr Hmib). split; [done|].
  unfold engineVelocityPatchVs, patchVsBody. rewrite Eg', Hr. cbn [mbind Res_bind fst]. by rewrite (vsChunks_once inputs ltac:(lia) cs).
Qed.

(** ** The pixel container *)
(** The position's element, with its z present and used. *)
Definition psLive (inputs : EngineVelocityInputs) (e : SignatureElement) : SignatureElement :=
  if registerIndex e =? positionRegister inputs then e <| masks := Z.lor (masks e) (Z.lor 4 0x0400) |> else e.
Definition carriesIdentity (inputs : EngineVelocityInputs) (e : SignatureElement) : bool :=
  (registerIndex e =? identityRegister inputs) && (componentType e =? 1) && hasMask e (Z.shiftl 1 (identityComponent inputs)).
Definition psElementOk (inputs : EngineVelocityInputs) (e : SignatureElement) : Prop :=
  (slotFromVsPatch inputs = true -> registerIndex e <> identityRegister inputs) /\
  (registerIndex e = positionRegister inputs -> isPosition e = true /\ componentType e = 3).
Definition isColour (e : SignatureElement) : bool := equalName (e_name e) (chars "SV_TARGET").
Definition psOutputOk (e : SignatureElement) : Prop :=
  startsWithName (e_name e) (chars "SV_DEPTH") || startsWithName (e_name e) (chars "SV_COVERAGE") = false /\
  (isColour e = true -> registerIndex e < kEngineVelocityTarget).
Definition psInputBecomes (inputs : EngineVelocityInputs) (es es' : list SignatureElement) : Prop :=
  Forall (psElementOk inputs) es /\ (slotFromVsPatch inputs = true \/ existsb (carriesIdentity inputs) es = true) /\ overlapping es' = false /\
  es' = sortByRegister (map (psLive inputs) es ++ (if slotFromVsPatch inputs then [psSlot inputs] else []) ++
                        if existsb (fun e => registerIndex e =? positionRegister inputs) es then [] else [psPosition inputs]).
Definition psOutputBecomes (es es' : list SignatureElement) : Prop :=
  Forall psOutputOk es /\ existsb isColour es = true /\ exists systemValue, es' = es ++ [psVelocity systemValue].
Definition psChunkBecomes (inputs : EngineVelocityInputs) (c c' : Chunk) : Prop :=
  tag c' = tag c /\
  if tag c =? kTagIsgn then exists es es', parseSignature (c_bytes c) = inr es /\ parseSignature (c_bytes c') = inr es' /\ psInputBecomes inputs es es'
  else if tag c =? kTagOsgn then exists es es', parseSignature (c_bytes c) = inr es /\ parseSignature (c_bytes c') = inr es' /\ psOutputBecomes es es'
  else if isProgram (tag c) then patchPsProgram (c_bytes c) inputs = inr (c_bytes c')
  else c' = c.
Lemma psElements_run inputs es : forall k acc identity position s, loop (psElement inputs) k es (acc, identity, position) = inr s ->
  Forall (psElementOk inputs) es /\ s = (acc ++ map (psLive inputs) es, identity || existsb (carriesIdentity inputs) es,
                                         position || existsb (fun e => registerIndex e =? positionRegister inputs) es).
Proof.
  induction es as [|e es IH]; intros k acc identity position s H; cbn [loop map existsb] in *.
  { rewrite app_nil_r, !orb_false_r. injection H as <-. by split. }
  destruct (psElement inputs k e (acc, identity, position)) as [|s1] eqn:E; [done|]. cbn [mbind Res_bind] in H. unfold psElement in E.
  assert (psElementOk inputs e /\ s1 = (acc ++ [psLive inputs e], identity || carriesIdentity inputs e, position || (registerIndex e =? positionRegister inputs))) as (Ho & ->).
  { unfold psElementOk, psLive, carriesIdentity. destruct (Z.eqb_spec (registerIndex e) (identityRegister inputs)) as [Ei|Ei];
      [destruct (slotFromVsPatch inputs) eqn:Es; [done|]|]; cbn [mbind Res_bind mret Res_ret] in E;
      destruct (Z.eqb_spec (registerIndex e) (positionRegister inputs)) as [Epos|Epos];
      [destruct (isPosition e), (Z.eqb_spec (componentType e) 3); cbn [negb orb] in E; try done| |
       destruct (isPosition e), (Z.eqb_spec (componentType e) 3); cbn [negb orb] in E; try done|];
      injection E as <-; cbn [andb]; rewrite ?orb_true_r, ?orb_false_r; done. }
  apply IH in H as (Hok & ->). rewrite <-app_assoc, !orb_assoc. split; [by constructor|done].
Qed.
Lemma psOutputs_run es : forall k target sv s, loop psOutputElement k es (target, sv) = inr s ->
  Forall psOutputOk es /\ s.1 = target || existsb isColour es /\ (s.2 = sv \/ exists e, e ∈ es /\ s.2 = systemValue e).
Proof.
  induction es as [|e es IH]; intros k target sv s H; cbn [loop existsb] in *; [injection H as <-; rewrite orb_false_r; split_and!; [done|done|by left]|].
  destruct (psOutputElement k e (target, sv)) as [|[target1 sv1]] eqn:E; [done|]. cbn [mbind Res_bind] in H. unfold psOutputElement in E.
  assert (psOutputOk e /\ target1 = target || isColour e /\ (sv1 = sv \/ sv1 = systemValue e)) as (Ho & -> & Hsv).
  { unfold psOutputOk. fold (isColour e) in E. destruct (startsWithName _ _ || _); [done|]. destruct (isColour e).
    - destruct (Z.leb_spec kEngineVelocityTarget (registerIndex e)); [done|]. injection E as <- <-. rewrite orb_true_r. split_and!; [done|done|done|by right].
    - injection E as <- <-. rewrite orb_false_r. split_and!; [done|done|done|by left]. }
  apply IH in H as (Hok & -> & Hs). rewrite orb_assoc. split_and!; [by constructor|done|].
  destruct Hs as [->|(x & Hx & ->)]; [destruct Hsv as [->| ->]; [by left|]|]; right; [exists e|exists x]; split; try done; by constructor.
Qed.
Section PixelContainer.
Context (inputs : EngineVelocityInputs) (id_ok : 0 <= identityRegister inputs < 32) (pos_ok : 0 <= positionRegister inputs < 32).
Lemma psInputSignature_becomes bytes bytes' : psInputSignature inputs bytes = inr bytes' ->
  exists es es', parseSignature bytes = inr es /\ parseSignature bytes' = inr es' /\ psInputBecomes inputs es es' /\ size bytes' <= 1024 * 1024.
Proof using id_ok pos_ok.
  intros H. unfold psInputSignature in H. destruct (parseSignature bytes) as [|es] eqn:E; [done|]. cbn [mbind Res_bind] in H.
  destruct (loop _ _ _ _) as [|s] eqn:El; [done|]. cbn [mbind Res_bind] in H. apply psElements_run in El as (Hok & ->). cbn [app orb] in H.
  destruct (psAddElements _ _) as [|es'] eqn:Ea; [done|]. cbn [mbind Res_bind] in H. destruct (overlapping es') eqn:Eo; [done|].
  assert ((slotFromVsPatch inputs = true \/ existsb (carriesIdentity inputs) es = true) /\
    es' = sortByRegister (map (psLive inputs) es ++ (if slotFromVsPatch inputs then [psSlot inputs] else []) ++
                          if existsb (fun e => registerIndex e =? positionRegister inputs) es then [] else [psPosition inputs])) as (Hid & Hes').
  { unfold psAddElements in Ea. destruct (slotFromVsPatch inputs).
    - injection Ea as <-. split; [by left|]. f_equal. destruct (existsb _ es); [by rewrite app_nil_r|by rewrite <-app_assoc].
    - destruct (existsb (carriesIdentity inputs) es); [|done]. injection Ea as <-. split; [by right|]. f_equal. by destruct (existsb _ es); rewrite ?app_nil_r. }
  apply parseSignature_sound in E as E'. destruct E' as (Hp & _).
  assert (Forall ElementParsed es') as Hp'.
  { rewrite Hes', sortByRegister_perm.
    repeat (apply Forall_app; split).
    - apply Forall_map. eapply Forall_impl; [exact Hp|]. intros e [A B C (D1 & D2 & D3 & D4)]. unfold psLive. destruct (_ =? _); [|by split]. split; cbn; [done|done|done|].
      split_and!; try lia. all: assert (is_u32 (Z.lor (masks e) (Z.lor 4 1024))) as Hl by (apply lor_u32; [unfold is_u32, u32_max; lia|by vm_compute]); unfold is_u32, u32_max in Hl; cbn in *; lia.
    - destruct (slotFromVsPatch inputs); [|done]. constructor; [|done]. split; [done|repeat (constructor; [done|]); constructor|cbn; lia|done].
    - destruct (existsb (fun e => registerIndex e =? positionRegister inputs) es); [done|]. constructor; [|done]. split; [done|repeat (constructor; [done|]); constructor|cbn; lia|done]. }
  apply made_reads_back in H as (H & Hs); [|done]. exists es, es'. split_and!; [done|done|by split_and!|lia].
Qed.
Lemma psOutputSignature_becomes bytes bytes' : psOutputSignature bytes = inr bytes' ->
  exists es es', parseSignature bytes = inr es /\ parseSignature bytes' = inr es' /\ psOutputBecomes es es' /\ size bytes' <= 1024 * 1024.
Proof using.
  intros H. unfold psOutputSignature in H. destruct (parseSignature bytes) as [|es] eqn:E; [done|]. cbn [mbind Res_bind] in H.
  destruct (loop _ _ _ _) as [|[target sv]] eqn:El; [done|]. cbn [mbind Res_bind] in H. apply psOutputs_run in El as (Hok & Ht & Hsv). cbn [fst snd orb] in *.
  destruct target; [|done]. cbn [negb] in H. apply parseSignature_sound in E as E'. destruct E' as (Hp & _).
  apply made_reads_back in H as (H & Hs).
  - exists es, (es ++ [psVelocity sv]). split_and!; [done|done| |lia]. split_and!; [done|done|by exists sv].
  - apply Forall_app. split; [done|]. constructor; [|done]. split; [done|repeat (constructor; [done|]); constructor|done|]. cbn. unfold kEngineVelocityTarget. split_and!; try lia.
    all: destruct Hsv as [->|(e & He & ->)]; [lia|]; rewrite Forall_forall in Hp; destruct (Hp e He) as [_ _ _ (_ & ? & _)]; lia.
Qed.
Lemma psChunk_one k c s s' : chunkFits c -> headed kPs50 c -> psChunk inputs k c s = inr s' ->
  exists c', s'.1.1.1 = s.1.1.1 ++ [c'] /\ psChunkBecomes inputs c c' /\ grown c' /\ headed kPs50 c'.
Proof using id_ok pos_ok.
  destruct s as [[[chunks isgn] osgn] program]. intros (Hc & Hs) Hp H. unfold psChunk in H. unfold psChunkBecomes, headed, grown in *.
  destruct (Z.eqb_spec (tag c) kTagIsgn) as [Et|Et]; [|destruct (Z.eqb_spec (tag c) kTagOsgn) as [Et'|Et']].
  - destruct isgn; [done|]. destruct (psInputSignature inputs (c_bytes c)) as [|b] eqn:E; [done|]. cbn in H. injection H as <-.
    apply psInputSignature_becomes in E as (es & es' & E1 & E2 & E3 & E4). exists (mkChunk (tag c) b). cbn [fst tag c_bytes]. rewrite Et in *.
    split_and!; [done|done|by exists es, es'|done|done|done].
  - destruct osgn; [done|]. destruct (psOutputSignature (c_bytes c)) as [|b] eqn:E; [done|]. cbn in H. injection H as <-.
    apply psOutputSignature_becomes in E as (es & es' & E1 & E2 & E3 & E4). exists (mkChunk (tag c) b). cbn [fst tag c_bytes]. rewrite Et' in *.
    split_and!; [done|done|by exists es, es'|done|done|done].
  - destruct (isProgram (tag c)) eqn:Ep.
    + destruct program; [done|]. destruct (patchPsProgram (c_bytes c) inputs) as [|b] eqn:E; [done|]. cbn in H. injection H as <-.
      assert (InputsOk inputs) as Hin by (unfold InputsOk, is_u32, u32_max; lia).
      pose proof (patchPsProgram_header _ _ _ Hin Hs (Hp eq_refl) E) as (Hh & Hb). exists (mkChunk (tag c) b). cbn [fst tag c_bytes]. by rewrite Ep.
    + injection H as <-. exists c. by rewrite Ep.
Qed.
(** A chunk of outputs that was patched declines. *)
Lemma psOutputs_once es es' s r : psOutputBecomes es es' -> loop psOutputElement 0 es' s <> inr r.
Proof using.
  intros (_ & _ & sv & ->) H. destruct s as [target sv0]. apply psOutputs_run in H as (Hok & _). apply Forall_app in Hok as (_ & Hok).
  apply Forall_cons in Hok as ((_ & Hok) & _). by specialize (Hok eq_refl).
Qed.
(** The flag of the outputs is set by their chunk. *)
Lemma psChunk_osgn k c s s' : psChunk inputs k c s = inr s' -> s'.1.2 = s.1.2 || (tag c =? kTagOsgn).
Proof using.
  destruct s as [[[chunks isgn] osgn] program]. intros H. unfold psChunk in H. destruct (Z.eqb_spec (tag c) kTagIsgn) as [->|].
  - destruct isgn; [done|]. destruct (psInputSignature _ _); [done|]. cbn in H. injection H as <-. cbn. by rewrite orb_false_r.
  - destruct (tag c =? kTagOsgn).
    + destruct osgn; [done|]. destruct (psOutputSignature _); [done|]. cbn in H. by injection H as <-.
    + rewrite orb_false_r. destruct (isProgram (tag c)); [|by injection H as <-]. destruct program; [done|]. destruct (patchPsProgram _ _); [done|].
      cbn in H. by injection H as <-.
Qed.
Lemma psChunks_osgn cs : forall k s s', loop (psChunk inputs) k cs s = inr s' -> s'.1.2 = s.1.2 || existsb (fun c => tag c =? kTagOsgn) cs.
Proof using.
  induction cs as [|c cs IH]; intros k s s' H; cbn [loop existsb] in *; [injection H as <-; by rewrite orb_false_r|].
  destruct (psChunk inputs k c s) as [|s1] eqn:E; [done|]. cbn [mbind Res_bind] in H. apply psChunk_osgn in E. apply IH in H. by rewrite H, E, orb_assoc.
Qed.
(** The chunks of a patched container decline. *)
Lemma psChunks_once cs cs' : Forall2 (psChunkBecomes inputs) cs cs' -> existsb (fun c => tag c =? kTagOsgn) cs = true ->
  forall k s r, loop (psChunk inputs) k cs' s <> inr r.
Proof using.
  induction 1 as [|c c' cs cs' (Ht & Hb) _ IH]; intros Hex k s r H; cbn [existsb loop] in *; [done|].
  destruct (psChunk inputs k c' s) as [|s1] eqn:E; [done|]. cbn [mbind Res_bind] in H. destruct (Z.eqb_spec (tag c) kTagOsgn) as [Et|Et]; [|by eapply IH].
  rewrite Et in Hb, Ht. destruct Hb as (es & es' & _ & Hp & Ho). destruct s as [[[chunks isgn] osgn] program]. unfold psChunk in E. rewrite Ht in E.
  cbn -[psOutputSignature] in E. destruct osgn; [done|]. unfold psOutputSignature in E. rewrite Hp in E. cbn [mbind Res_bind] in E.
  destruct (loop psOutputElement 0 es' (false, 0)) as [|r'] eqn:El; [done|]. by eapply psOutputs_once.
Qed.
End PixelContainer.
(** C40. A pixel shader that is patched keeps every chunk but three as it was, and what
    comes out is a container again: it reads back as the rebuilt chunks, the input
    signature with the slot's and the position's elements sorted in and no two on the
    same components, the output signature with target 6 behind the others, the
    program as [psProgram_patched] says, while it is within the limit that
    [parseContainer] sets.  It is not patched a second time. *)
Theorem patchPs_reads_back data inputs out why : 0 <= identityRegister inputs -> 0 <= positionRegister inputs ->
  engineVelocityPatchPs data inputs = (true, out, why) ->
  exists cs cs', parseContainer data kPs50 = inr cs /\ Forall2 (psChunkBecomes inputs) cs cs' /\ makeContainer cs' = inr out /\
    (size out <= 1024 * 1024 -> parseContainer (Some out) kPs50 = inr cs' /\ exists why', engineVelocityPatchPs (Some out) inputs = (false, [], why')).
Proof.
  intros Hid Hpos H. unfold engineVelocityPatchPs, outcome in H. destruct (patchPsBody data inputs) as [|o] eqn:E; [done|]. injection H as -> _.
  unfold patchPsBody in E. destruct (_ || _) eqn:Eg; [done|]. pose proof Eg as Eg'. apply orb_false_iff in Eg as (Eg & _). apply orb_false_iff in Eg as (Eg & Epos).
  apply orb_false_iff in Eg as (Er & _). apply Z.leb_gt in Er, Epos.
  destruct (parseContainer data kPs50) as [|cs] eqn:Ep; [done|]. cbn [mbind Res_bind] in E.
  destruct (loop _ _ _ _) as [|[[[cs' isgn] osgn] program]] eqn:El; [done|]. cbn [mbind Res_bind] in E. destruct (_ || _) eqn:Ef; [done|].
  apply orb_false_iff in Ef as (Ef & _). apply orb_false_iff in Ef as (_ & Ef). apply negb_false_iff in Ef as ->.
  pose proof (psChunks_osgn _ _ _ _ _ El) as Hosgn. cbn [fst snd orb] in Hosgn.
  eapply (rebuilt_reads_back kPs50 (fun s : list Chunk * bool * bool * bool => s.1.1.1) (psChunk inputs) (psChunkBecomes inputs)) in El as (Hb & _ & _ & Hr);
    [|by intros ? ? (? & _)|by intros; eapply psChunk_one; [lia|lia|..]|exact Ep|done|exact E].
  exists cs, cs'. split_and!; [done|done|done|]. intros Hmib. specialize (Hr Hmib). split; [done|].
  unfold engineVelocityPatchPs, patchPsBody. rewrite Eg', Hr. cbn [mbind Res_bind fst].
  destruct (loop _ _ _ _) as [why'|r] eqn:El; [by exists why'|]. by apply (psChunks_once inputs cs) in El.
Qed.

(** ** Where the slot goes *)
Definition maxRegister (es : list SignatureElement) : Z := fold_right (fun e m => Z.max m (registerIndex e)) 0 es.
Lemma deriveElements_run es : forall k d d', 0 <= maxOutput d -> loop deriveElement k es d = inr d' ->
  maxOutput d' = Z.max (maxOutput d) (maxRegister es) /\ d_osgn d' = d_osgn d /\ slotFromVsPatch (d_output d') = slotFromVsPatch (d_output d).
Proof.
  induction es as [|e es IH]; intros k d d' H0 H; cbn [loop] in H; [injection H as <-; cbn; split_and!; [lia|done|done]|].
  destruct (deriveElement k e d) as [|d1] eqn:E; [done|]. cbn [mbind Res_bind] in H.
  assert (maxOutput d1 = Z.max (maxOutput d) (registerIndex e) /\ d_osgn d1 = d_osgn d /\ slotFromVsPatch (d_output d1) = slotFromVsPatch (d_output d)) as (E1 & E2 & E3).
  { unfold deriveElement in E. destruct ((componentType e =? 1) && _); [destruct (negb (identityRegister _ =? none)); [done|]|]; cbn [mbind Res_bind mret Res_ret] in E;
      destruct (isPosition e && _); try (destruct (negb (componentType e =? 3) || _); [done|]); injection E as <-; done. }
  apply IH in H as (-> & -> & ->); [|lia]. rewrite E1, E2, E3. cbn [maxRegister fold_right]. fold (maxRegister es). split_and!; [lia|done|done].
Qed.
Definition seenOutputs (cs : list Chunk) (d : Derive) : Prop :=
  slotFromVsPatch (d_output d) = false /\
  if d_osgn d then exists c es, c ∈ cs /\ tag c = kTagOsgn /\ parseSignature (c_bytes c) = inr es /\ maxOutput d = Z.max 0 (maxRegister es)
  else maxOutput d = 0.
Lemma deriveChunk_seen k c cs d d' : c ∈ cs -> seenOutputs cs d -> deriveChunk k c d = inr d' -> seenOutputs cs d'.
Proof.
  intros Hc (Hs & Ho) H. unfold deriveChunk in H. set (d0 := if isProgram (tag c) then d <| d_program := Some (c_bytes c) |> else d) in H.
  assert (maxOutput d0 = maxOutput d /\ d_osgn d0 = d_osgn d /\ d_output d0 = d_output d) as (A & B & C) by (unfold d0; by destruct (isProgram (tag c))).
  destruct (Z.eqb_spec (tag c) kTagIsgn) as [Et|Et].
  - rewrite Et in H. destruct (d_isgn d0); [done|]. destruct (parseSignature (c_bytes c)); [done|]. cbn in H. injection H as <-.
    unfold seenOutputs. cbn. by rewrite A, B, C.
  - cbn [mbind Res_bind mret Res_ret] in H. destruct (Z.eqb_spec (tag c) kTagOsgn) as [Et'|Et'].
    + rewrite B in H. destruct (d_osgn d); [done|]. destruct (parseSignature (c_bytes c)) as [|es] eqn:Ep; [done|]. cbn [mbind Res_bind] in H.
      apply deriveElements_run in H as (E1 & E2 & E3); [|cbn; lia]. cbn in E1, E2, E3. unfold seenOutputs. rewrite E2, E3, C. split; [done|].
      exists c, es. split_and!; [done|done|done|]. rewrite E1, A, Ho. done.
    + injection H as <-. unfold seenOutputs. by rewrite A, B, C.
Qed.
Lemma maxRegister_ge es e : e ∈ es -> registerIndex e <= maxRegister es.
Proof.
  unfold maxRegister. induction es as [|x es IH]; intros H; [by apply elem_of_nil in H|]. cbn [fold_right]. apply elem_of_cons in H as [->|H]; [lia|].
  specialize (IH H). lia.
Qed.
Lemma maxRegister_in es : maxRegister es = 0 \/ exists e, e ∈ es /\ registerIndex e = maxRegister es.
Proof.
  unfold maxRegister. induction es as [|x es IH]; [by left|]. cbn [fold_right]. set (m := fold_right _ 0 es) in *.
  destruct (Z.max_spec m (registerIndex x)) as [(_ & ->)|(_ & ->)]; [right; exists x; split; [by constructor|done]|].
  destruct IH as [IH|(e & He & IH)]; [by left|]. right. exists e. split; [by constructor|done].
Qed.
(** The register chosen for the slot lies above every output of the vertex shader,
    unless one is at 2^32-1, where the sum wraps to 0. *)
Lemma derived_slot_free data o why : engineVelocityDeriveInputs data = (true, o, why) -> slotFromVsPatch o = true ->
  exists cs c es, parseContainer data kVs50 = inr cs /\ c ∈ cs /\ tag c = kTagOsgn /\ parseSignature (c_bytes c) = inr es /\
    identityComponent o = 0 /\ 0 <= identityRegister o < 32 /\
    (Forall (fun e => registerIndex e < identityRegister o) es \/ identityRegister o = 0 /\ Exists (fun e => registerIndex e = 2 ^ 32 - 1) es).
Proof.
  intros H Hslot. unfold engineVelocityDeriveInputs, outcome in H. destruct (deriveBody data) as [|o'] eqn:E; [done|]. injection H as -> _.
  unfold deriveBody in E. destruct (parseContainer data kVs50) as [|cs]; [done|]. cbn [mbind Res_bind] in E.
  destruct (loop deriveChunk 0 cs _) as [|d] eqn:El; [done|]. cbn [mbind Res_bind] in E. apply (loop_ind _ (fun _ => seenOutputs cs)) in El.
  2: { by split. }
  2: { intros j c x y Hc _ Hx Hy. eapply deriveChunk_seen; [by eapply list_elem_of_lookup_2|done|done]. }
  destruct El as (Hs & Ho). destruct (d_program d) as [program|]; [|done]. destruct (d_osgn d); [|by rewrite orb_true_r in E].
  destruct Ho as (c & es & Hc & Ht & Hp & Hm). destruct (_ || _); [done|]. destruct (negb (instanceIndex d)); [done|]. destruct (32 <=? positionRegister _); [done|].
  destruct (readsPoolAtV0x _) as [|pool]; [done|]. cbn [mbind Res_bind] in E. destruct (negb pool); [done|]. destruct (identityRegister (d_output d) =? none); cycle 1.
  { injection E as <-. congruence. }
  destruct (Z.leb_spec 32 (u32 (maxOutput d + 1))) as [|H32]; [done|]. injection E as <-. cbn [identityComponent identityRegister] in *.
  exists cs, c, es. pose proof (parseSignature_sound _ _ Hp) as (Hps & _). pose proof (u32_range (maxOutput d + 1)) as Hu. cbn.
  split_and!; [done|done|done|done|done|apply Hu|done|]. rewrite Hm in *. destruct (maxRegister_in es) as [E0|(e & He & Ee)].
  - left. rewrite E0. apply Forall_forall. intros e He. pose proof (maxRegister_ge es e He). change (u32 (Z.max 0 0 + 1)) with 1. lia.
  - assert (0 <= registerIndex e < 2 ^ 32) as Hr by (rewrite Forall_forall in Hps; by apply (Hps e He)). rewrite Ee in Hr. rewrite Z.max_r in * by lia.
    destruct (Z.eq_dec (maxRegister es) (2 ^ 32 - 1)) as [Ew|Ew].
    + right. rewrite Ew. split; [done|]. apply Exists_exists. exists e. by rewrite Ee.
    + left. rewrite u32_small by (unfold is_u32, u32_max; lia). apply Forall_forall. intros x Hx. pose proof (maxRegister_ge es x Hx). lia.
Qed.

(** ** Properties of the programs *)
(** C37. A vertex program that is patched has the shape the patch needs, every
    instruction and declaration of it is kept in order, the slot's declaration stands
    behind the last output declaration and a move of v0.x in front of every return;
    nothing else changes but the length in the second word.  Patching the result is
    declined because the slot's register is taken. *)
Theorem vsProgram_patched bytes slot bytes' : is_u32 slot -> 8 <= size bytes <= 1024 * 1024 -> patchVsProgram bytes slot = inr bytes' ->
  (exists t0 t1 q before o after, programWords bytes = t0 :: t1 :: q /\ VsShape slot q before o after /\
    programWords bytes' = t0 :: (size (vsPatched slot before o after) + 2) :: vsPatched slot before o after) /\
  patchVsProgram bytes' slot = throw "slot output register occupied".
Proof. intros Hs Hb H. split; [by apply patchVsProgram_spec|by eapply patchVsProgram_once]. Qed.
(** C38. A pixel program that is patched has the shape the patch needs, every instruction
    of it is kept in order with its operands, less the number of temporaries, which
    grows by one, and the mask of the position's declaration, which gains z; what is
    added stands where [psPlace] says: the inputs in front of the first output
    declaration, target 6 and the temporaries together, the export in front of every
    return. *)
Theorem psProgram_patched bytes inp bytes' : InputsOk inp -> 8 <= size bytes <= 1024 * 1024 -> patchPsProgram bytes inp = inr bytes' ->
  exists t0 t1 ins ko km temps count, programWords bytes = t0 :: t1 :: concat ins /\ PsShape inp ins ko km temps count /\
    programWords bytes' = t0 :: (size (psPatched inp ins ko km temps count) + 2) :: psPatched inp ins ko km temps count.
Proof. apply patchPsProgram_spec. Qed.

(** ** Small shaders *)
Definition made (r : Res (list Z)) : list Z := match r with inl _ => [] | inr b => b end.
Definition demoVsWords : list Z :=
  [kVs50; 0; 0x040000A2; 0x00107000; 33; 336; 0x0300005F; 0x00101012; 0; 0x03000065; 0x001020F2; 0;
   0x090000A7; 0x00100012; 0; 0x0010100A; 0; 0x00004001; 0; 0x00107006; 33; 0x0100003E].
Definition demoPsWords : list Z := [kPs50; 0; 0x04002064; 0x00101032; 0; 1; 0x03000065; 0x001020F2; 0; 0x02000068; 2; 0x0100003E].
Definition demoInputs : EngineVelocityInputs := mkInputs 1 0 0 true.
Definition demoVs : list Z := made (makeContainer
  [mkChunk kTagIsgn (made (makeSignature [mkElement (chars "INSTANCEANDMODELDATAINDEX") 0 0 1 0 0x0101]));
   mkChunk kTagOsgn (made (makeSignature [mkElement (chars "SV_Position") 0 1 3 0 15])); mkChunk 0x58454853 (programBytes demoVsWords)]).
Definition demoPs : list Z := made (makeContainer
  [mkChunk kTagIsgn (made (makeSignature [mkElement (chars "SV_Position") 0 1 3 0 15]));
   mkChunk kTagOsgn (made (makeSignature [mkElement (chars "SV_TARGET") 0 0 3 0 15])); mkChunk 0x58454853 (programBytes demoPsWords)]).
(** The slot of the demonstration shader goes to register 1. *)
Example demo_derived : engineVelocityDeriveInputs (Some demoVs) = (true, demoInputs, EmptyString).
Proof. by vm_compute. Qed.
Lemma vsProgram_patched_witness :
  programWords (made (patchVsProgram (programBytes demoVsWords) 1)) =
    [kVs50; 30; 0x040000A2; 0x00107000; 33; 336; 0x0300005F; 0x00101012; 0; 0x03000065; 0x001020F2; 0] ++ vsDecl 1 ++
    [0x090000A7; 0x00100012; 0; 0x0010100A; 0; 0x00004001; 0; 0x00107006; 33] ++ vsMove 1 ++ [0x0100003E] /\
  patchVsProgram (made (patchVsProgram (programBytes demoVsWords) 1)) 1 = throw "slot output register occupied".
Proof.
  split; [by vm_compute|]. refine (proj2 (vsProgram_patched (programBytes demoVsWords) 1 _ _ _ _)); [by vm_compute|by vm_compute|by vm_compute].
Defined.
Lemma psProgram_patched_witness :
  exists t0 t1 ins ko km temps count, programWords (programBytes demoPsWords) = t0 :: t1 :: concat ins /\ PsShape demoInputs ins ko km temps count /\
    programWords (made (patchPsProgram (programBytes demoPsWords) demoInputs)) =
      t0 :: (size (psPatched demoInputs ins ko km temps count) + 2) :: psPatched demoInputs ins ko km temps count.
Proof. apply (psProgram_patched (programBytes demoPsWords) demoInputs); by vm_compute. Defined.
Lemma patchVs_reads_back_witness :
  exists cs cs', parseContainer (Some demoVs) kVs50 = inr cs /\ Forall2 (vsChunkBecomes demoInputs) cs cs' /\
    makeContainer cs' = inr (engineVelocityPatchVs (Some demoVs) demoInputs).1.2 /\
    (size (engineVelocityPatchVs (Some demoVs) demoInputs).1.2 <= 1024 * 1024 ->
       parseContainer (Some (engineVelocityPatchVs (Some demoVs) demoInputs).1.2) kVs50 = inr cs' /\
       engineVelocityPatchVs (Some (engineVelocityPatchVs (Some demoVs) demoInputs).1.2) demoInputs = (false, [], "slot output register occupied"%string)).
Proof. apply (patchVs_reads_back (Some demoVs) demoInputs _ EmptyString); [done|by vm_compute]. Defined.
Lemma patchPs_reads_back_witness :
  exists cs cs', parseContainer (Some demoPs) kPs50 = inr cs /\ Forall2 (psChunkBecomes demoInputs) cs cs' /\
    makeContainer cs' = inr (engineVelocityPatchPs (Some demoPs) demoInputs).1.2 /\
    (size (engineVelocityPatchPs (Some demoPs) demoInputs).1.2 <= 1024 * 1024 ->
       parseContainer (Some (engineVelocityPatchPs (Some demoPs) demoInputs).1.2) kPs50 = inr cs' /\
       exists why', engineVelocityPatchPs (Some (engineVelocityPatchPs (Some demoPs) demoInputs).1.2) demoInputs = (false, [], why')).
Proof. apply (patchPs_reads_back (Some demoPs) demoInputs _ EmptyString); [done|done|by vm_compute]. Defined.
(** An output at register 2^32-1 makes the slot's register wrap to 0, which the shader
    uses, instead of being declined; the vertex patch then declines it. *)
Definition farOutputs : list SignatureElement :=
  [mkElement (chars "SV_Position") 0 1 3 0 15; mkElement (chars "FAR") 0 0 3 (2 ^ 32 - 1) 15].
Definition farVs : list Z := made (makeContainer
  [mkChunk kTagIsgn (made (makeSignature [mkElement (chars "INSTANCEANDMODELDATAINDEX") 0 0 1 0 0x0101]));
   mkChunk kTagOsgn (leBytes 4 2 ++ leBytes 4 8 ++ rows 56 farOutputs ++ blob farOutputs); mkChunk 0x58454853 (programBytes demoVsWords)]).
Lemma derive_wraps :
  engineVelocityDeriveInputs (Some farVs) = (true, mkInputs 0 0 0 true, EmptyString) /\
  engineVelocityPatchVs (Some farVs) (mkInputs 0 0 0 true) = (false, [], "slot output register occupied"%string).
Proof. split; by vm_compute. Qed.
